(* ===== verification/_CoqProject ===== *)
-Q . S2P
Prelude.v
Bytes.v
Utf8.v
Cursor.v
Canonical.v
Path.v
Identity.v
Concrete.v
Records.v
Winners.v
Roster.v
RosterConverge.v
Protocol.v
Database.v
Schema.v
SchemaProps.v
State.v
StateLaws.v
StateProps.v
RosterStore.v
RosterLaws.v
RosterProps.v
Platform.v
Installer.v
InstallLaws.v
ToyFs.v
InstallProps.v
Sync.v
Session.v
SyncLaws.v
SyncProps.v
SessionLaws.v
SessionEnds.v
SessionProps.v
Join.v
Joining.v
Network.v
NetworkLoop.v
NetworkHandle.v
ToyJoin.v
NetworkLoopLaws.v
NetworkProps.v
JoinLaws.v
ApprovalLaws.v
JoinProps.v
HandleProps.v
Scan.v
ScanLaws.v
WalkLaws.v
ScanProps.v
Settings.v
Keystore.v
KeystoreLaws.v
KeystoreProps.v
Setup.v
SetupProps.v
NetworkTasks.v
TaskProps.v
Processes.v
ProcessesProps.v
Service.v
ServiceProps.v
Control.v
ControlLaws.v
Daemon.v
DaemonLaws.v
StoreNames.v
DaemonStore.v
SessionMoves.v
Group.v
DaemonProps.v
Running.v
RunningProps.v
Shell.v
Serving.v
Commands.v
Inviting.v
CommandsLaws.v
SocketLaws.v
CommandsProps.v
