(* ===== verification/Prelude.v ===== *)
(** * Skillsync: a verification development

    Skillsync keeps directories of agent skills in sync between the devices of a
    small trusted group, without a server.  A daemon on each device scans its
    collections into records (path, time, author, content hash or deletion),
    keeps the winning record of every path in a SQLite store, and exchanges
    records, files and the signed roster of the group with the other members
    over iroh.  The sources are the Rust crate below src/crates/skillsync/src;
    file names without a directory are of that crate.

    The model is a shallow embedding.  Rust's [Result] is [result], with
    [let? x := r in k] for the [?] operator; a [String] or [Vec<u8>] is its list
    of bytes; integers are in Z with their width where it matters (u32 and u64
    conversions fail or wrap as written in the sources); a BTreeMap or a table of
    the database is a [gmap], read in the order of its keys by [items].  Stateful
    code is in one of a few small state and error monads: [Db] over the tables
    (x <<- m ;; k), [Sql] over a connection (stdpp's x ← m; k), [IO] over the
    world of the process, that is the tables, the file system and the clock
    (x <== m ;; k), [SIO] over a world and the two directions of a stream, [DIO]
    over what the daemon's requests can change (x <=- m ;; k), and [CIO] over
    what a command prints, reads and asks of the daemon (x <~~ m ;;; k).  A panic
    is a value where one can happen: an error of its own, or None.  What a crate
    or the operating system does is a type class: its operations are fields, what
    the theorems rely on are laws in a class of their own, and Concrete.v, ToyFs.v
    and ToyJoin.v are instances of them that run, on which the examples and the
    witnesses of the theorems are evaluated.

    ** The parts

    The files stand in the order of their dependencies; a part called X has its
    definitions in X.v, its lemmas in XLaws.v and its main theorems, with
    examples, in XProps.v, or all in one file where they are few.

    - Data.  Bytes.v, Utf8.v: byte strings, arrays, big-endian integers, text.
      Cursor.v: the parser monad and two-sided specifications of decoders ([reads]:
      exactly which bytes are read as which value).  Canonical.v: canonical.rs,
      [Encoder] and [Decoder].  Path.v: path.rs, the paths of the protocol and the
      index of names that collide on a device.  Identity.v: identity.rs, the
      identifiers, with signatures and hashes as the class [Crypto].
    - Records.v: record.rs, records, [compare_winner], manifests and their bytes.
      Winners.v is the specification the stores refine: the last-writer-wins map.
    - Roster.v: roster.rs, signed membership revisions, [validate_child] and the
      choice of a chain; RosterConverge.v: that exchanging chains converges.
    - Protocol.v: protocol.rs, frames and the payloads of a session.
    - Database.v: the tables of state.rs with the constraints of the schema;
      Schema.v: the file they are in, its version, the migration and the check of
      its shape; State.v: every operation on collections, records, logs and
      peers; RosterStore.v: the operations on the stored roster.
    - Platform.v: the file system, the clock and random numbers as a class.
      Installer.v: installer.rs and root.rs, a stable root, the installation of a
      file, tombstones, files to send.  Scan.v: filesystem.rs, the walk and what a
      scan records.
    - Sync.v, Session.v: sync.rs, a session of two members, with a QUIC stream as
      the bytes that arrive and how it ends.  SessionEnds.v joins the two ends: a
      session that succeeds as what it said and what it heard, where the bytes one
      side sends are those the other reads.  Group.v: many devices, with the
      sessions between them as the steps of a relation.
    - Join.v, Joining.v: join.rs, the invitation of the inviter and both ends of a
      join.  Network.v, NetworkLoop.v, NetworkHandle.v: network.rs, approvals, the
      outcome of sessions, the loop of the network thread as a function of its
      commands and finished tasks, and the handle the daemon has of it.
      NetworkTasks.v: the same file's start and shutdown of that thread, and the
      tasks its loop spawns, from the connection to the session or the join.
    - Settings.v: config.rs.  Keystore.v: identity.rs, where the secret key is
      kept.  Setup.v: setup.rs and the lock of process_lock.rs.  Service.v:
      joining_service.rs.  Processes.v: several processes as a step relation over
      their locks and sockets (main.rs, daemon.rs), each of which may die at any step.
    - Control.v, Daemon.v: daemon.rs, the control protocol and the daemon itself:
      a turn of its loop takes the world as the network thread left it, the
      events of the watchers and the connections it accepts.  DaemonLaws.v is
      about who is answered, StoreNames.v, DaemonStore.v and SessionMoves.v about
      what requests, scans, turns and sessions leave in the store.  Running.v:
      the daemon from its lock to its end, with the turns of its loop and the
      steps of the network thread as the schedule has them.
    - Shell.v, Commands.v, Inviting.v: main.rs, the command line: the directories
      and the store a command works on, the requests it sends to a daemon or what
      it does itself, what it prints; the dialogue of an invitation.  ControlLaws.v
      and Serving.v join the two: a request in its frame, the daemon's answer in
      another ([up]), or nobody at the socket ([down]).  CommandsLaws.v and SocketLaws.v are about what a
      command asks and leaves.

    How they interact: the daemon calls the scanner, the store and the network
    handle; the network loop starts sessions, which call the store, the
    installer and the roster; a join reads and writes the same roster; a command
    sends the requests the daemon answers.  The theorems follow the calls: the
    store refines the map of Winners.v, a session moves two stores as that map
    says, a scan merges into it, the daemon's turn composes scans and requests,
    and its run composes turns and the sessions between them.

    ** What is shown

    - Convergence: stores that saw the same records hold the same winners
      ([StateProps.stores_converge]); devices that exchange chains of the roster
      end with the same one ([RosterProps.rosters_converge]).  A whole session
      merges what it hears ([SessionProps.session_synchronizes]) and happens only
      between members ([SessionProps.session_private]); two sessions that heard
      each other leave the same winners on both sides
      ([SessionProps.sessions_agree]) and one roster
      ([SessionProps.sessions_share_roster]), and the files one side takes are
      those the other had ([SessionProps.sessions_transfer]); any number of
      devices ends with the same winners once what each had has reached all, in
      whatever order they met ([Group.group_converges]).  [Group.files_travel] is a
      run of it all: a scan, both ends of a session, and the files at the other device.
    - Refinement: merging records and remote manifests are the operations of the
      last-writer-wins map ([StateProps.merge_record_refines_winner],
      [SyncProps.merge_remote_manifests_correct]); a scan makes of the winner of
      each path what [ScanLaws.scans_to] says, from the store and the files its
      walk found ([ScanProps.scan_refines]).
    - Invariants: of the store ([StateProps.store_invariant]), the network loop
      ([NetworkProps.network_loop_safe]), the coordinator of invitations
      ([JoinProps.coordinator_single_use]), the daemon's clients
      ([DaemonProps.clients_answered]), the processes of a directory
      ([ProcessesProps.one_daemon]), the key of a device
      ([KeystoreProps.identity_kept]), set-up ([SetupProps.setup_idempotent]).
    - Safety: installation never touches a file outside its target and installs
      only content with the declared hash ([InstallProps.install_file_safe]); a
      removed device never authors a valid child ([Roster.removed_device_excluded]);
      a device outside the roster leaves entries of the log and nothing else
      ([TaskProps.strangers_leave_logs]); no turn, scan or session of a daemon's
      whole run loses a record of a collection that was not removed, or replaces
      one but by a record that wins over it ([RunningProps.run_keeps_records]); nobody is let in without being asked
      about ([CommandsProps.invite_asks]).
    - The store's file: which files are opened, and as what
      ([SchemaProps.open_store]).  Commands do the same with a daemon as without
      ([CommandsProps.daemon_or_not]).
    - Liveness and termination: waiting requests are answered
      ([NetworkProps.sync_requests_answered]), the walk ends
      ([ScanProps.walk_terminates]), a roster change ends in the change or in a
      refusal ([RosterProps.roster_change_total]), the log is printed to its end
      ([CommandsProps.logs_complete]).
    - Codecs: the two-sided round trips of records, manifests, rosters, frames
      and control frames, with the limits of each.

    ** Bounds and fuel

    A loop that is not structural has fuel, and is shown to need no more than it
    has: [select_chain] one round more than there are candidates (each round adds one to
    the number of the revision); [change_rounds] the 1025 rounds of the sources,
    of which one is used when nobody else writes; [copy_fuel] one read for every
    byte of the declared size and two more; the loops of a stream as many reads
    as it has bytes.  The walk's fuel is an argument ([sc_walk_fuel]) and enough
    as soon as it exceeds the number of directories; so is the number of reads of
    a file that is hashed ([sc_read_rounds], [read_rounds]), which the sources
    read until its end.  A command that waits, for a
    device that joins or for lines of the log, has [iv_rounds] rounds, which
    stand for the time until its user stops it; the theorems say how many it
    needs: the rounds until the invitation expires, or one for 64 lines of the log.

    ** Not modelled

    - SQLite below its statements: a statement is atomic and a transaction that
      fails leaves the file as it was; faults of the disk and contention of
      writers are left out.
    - iroh and QUIC below a connection: discovery, relays and encryption; the
      identity of the peer is the one iroh authenticated.  A pair of operations
      the sources run at once on one stream (try_join!) is run in turn, sending
      first; a timeout is one of the ways a stream ends.  A task of the network
      thread runs from its start to its result between two turns of the loops.
    - The text of JSON and TOML, glob patterns, HTTP and URLs, keyrings and the
      watchers of directories are parameters: what the code relies on is a law or
      a named hypothesis.  So is the parsing of arguments, which is clap's.
    - The tasks and requests of the network open the store's file again for
      each operation; there the opening is taken to succeed.
    - [Debug] and [Display] output but for what a command prints, the serde glue
      of single types, errors of a listening socket, and the hooks the tests use. *)

From Stdlib Require Export ZArith Lia Strings.Byte.
From stdpp Require Export base tactics decidable countable strings sorting numbers gmap list.
Open Scope Z_scope.
Open Scope list_scope.

(** ** Rust's [Result] and the [?] operator *)

Inductive result (A E : Type) : Type :=
  | Ok (a : A)
  | Err (e : E).
Arguments Ok {A E} a.
Arguments Err {A E} e.

Definition rbind {A B E} (r : result A E) (f : A -> result B E) : result B E :=
  match r with
  | Ok a => f a
  | Err e => Err e
  end.

Definition map_err {A E F} (f : E -> F) (r : result A E) : result A F :=
  match r with
  | Ok a => Ok a
  | Err e => Err (f e)
  end.

Definition ok_or {A E} (o : option A) (e : E) : result A E :=
  match o with
  | Some a => Ok a
  | None => Err e
  end.

Definition is_ok {A E} (r : result A E) : bool :=
  match r with Ok _ => true | Err _ => false end.

Declare Scope rust_scope.
Delimit Scope rust_scope with rust.
Notation "'let?' x := r 'in' k" := (rbind r (fun x => k))
  (at level 10, x binder, r at level 100, k at level 200) : rust_scope.
Open Scope rust_scope.

#[global] Instance result_eq_dec {A E} `{EqDecision A, EqDecision E} : EqDecision (result A E).
Proof. solve_decision. Defined.

Lemma rbind_Ok {A B E} (r : result A E) (f : A -> result B E) (b : B) :
  rbind r f = Ok b <-> exists a, r = Ok a /\ f a = Ok b.
Proof.
  destruct r as [a | e]; simpl; split.
  - eauto.
  - by intros (? & [= ->] & ?).
  - done.
  - by intros (? & [=] & _).
Qed.

Lemma map_err_Ok {A E F} (f : E -> F) (r : result A E) (a : A) :
  map_err f r = Ok a <-> r = Ok a.
Proof. destruct r; simpl; firstorder congruence. Qed.

Lemma ok_or_Ok {A E} (o : option A) (e : E) (a : A) :
  ok_or o e = Ok a <-> o = Some a.
Proof. destruct o; simpl; firstorder congruence. Qed.

Lemma is_ok_true {A E} (r : result A E) : is_ok r = true <-> exists a, r = Ok a.
Proof. destruct r; simpl; split; eauto; [done | by intros [? [=]]]. Qed.

Lemma check_Ok {A E} (b : bool) (e : E) (k : result A E) (a : A) :
  (if b then k else Err e) = Ok a <-> b = true /\ k = Ok a.
Proof. destruct b; firstorder congruence. Qed.

Lemma check_not_Ok {A E} (b : bool) (e : E) (k : result A E) (a : A) :
  (if b then Err e else k) = Ok a <-> b = false /\ k = Ok a.
Proof. destruct b; firstorder congruence. Qed.

(** [inv_ok] takes apart a hypothesis that says that a chain of [let?], guards
    and error conversions returned [Ok]. *)
Ltac inv_ok_step :=
  match goal with
  | u : unit |- _ => destruct u
  | H : Ok _ = Ok _ |- _ => injection H as H; try subst
  | H : Err _ = Ok _ |- _ => discriminate H
  | H : Ok _ = Err _ |- _ => discriminate H
  | H : rbind _ _ = Ok _ |- _ =>
      apply rbind_Ok in H; destruct H as (? & ? & H)
  | H : map_err _ _ = Ok _ |- _ => apply map_err_Ok in H
  | H : ok_or _ _ = Ok _ |- _ => apply ok_or_Ok in H
  | H : (if _ then Err _ else _) = Ok _ |- _ =>
      apply check_not_Ok in H; destruct H as [? H]
  | H : (if _ then _ else Err _) = Ok _ |- _ =>
      apply check_Ok in H; destruct H as [? H]
  | H : (let '(_, _) := ?p in _) = Ok _ |- _ => destruct p eqn:?
  end.
Ltac inv_ok := repeat (inv_ok_step; simpl in *).

(** [dm] splits on the scrutinee of a match in the goal, [dmh H] in [H]. *)
Ltac dm := match goal with |- context [match ?x with _ => _ end] => destruct x eqn:? end.
Ltac dmh H := match type of H with context [match ?x with _ => _ end] => destruct x eqn:? end.

(** Boolean conditions of the code, as propositions. *)
Ltac boolp :=
  repeat match goal with
  | H : _ && _ = true |- _ => apply andb_true_iff in H; destruct H
  | H : _ || _ = false |- _ => apply orb_false_iff in H; destruct H
  | H : negb _ = true |- _ => apply negb_true_iff in H
  | H : negb _ = false |- _ => apply negb_false_iff in H
  | H : (_ <? _) = true |- _ => apply Z.ltb_lt in H
  | H : (_ <? _) = false |- _ => apply Z.ltb_ge in H
  | H : (_ <=? _) = true |- _ => apply Z.leb_le in H
  | H : (_ <=? _) = false |- _ => apply Z.leb_gt in H
  | H : (_ =? _) = true |- _ => apply Z.eqb_eq in H
  | H : (_ =? _) = false |- _ => apply Z.eqb_neq in H
  | H : bool_decide _ = true |- _ => apply bool_decide_eq_true in H
  | H : bool_decide _ = false |- _ => apply bool_decide_eq_false in H
  end.

(** [evaluate] proves a decidable closed goal by running its decision procedure. *)
Lemma decide_run (P : Prop) `{Decision P} : bool_decide P = true -> P.
Proof. apply bool_decide_eq_true. Qed.
Ltac evaluate := refine (decide_run _ _); vm_compute; reflexivity.

(** ** Machine integers

    A [w]-bit unsigned integer and [i64] are [Z] with the range written out;
    [usize] is 64 bits wide. *)

Definition in_u8 (z : Z) : bool := (0 <=? z) && (z <? 2 ^ 8).
Definition in_u32 (z : Z) : bool := (0 <=? z) && (z <? 2 ^ 32).
Definition in_u64 (z : Z) : bool := (0 <=? z) && (z <? 2 ^ 64).
Definition i64_min : Z := - 2 ^ 63.
Definition i64_max : Z := 2 ^ 63 - 1.
Definition in_i64 (z : Z) : bool := (i64_min <=? z) && (z <=? i64_max).
Definition usize_max : Z := 2 ^ 64 - 1.

(** [u32::try_from], [i64::try_from] *)
Definition u32_try_from (z : Z) : option Z := if in_u32 z then Some z else None.
Definition i64_try_from (z : Z) : option Z := if in_i64 z then Some z else None.
Definition u64_try_from (z : Z) : option Z := if in_u64 z then Some z else None.

(** [checked_add] of [u64] and [usize], [saturating_add] of [i64]. *)
Definition u64_checked_add (a b : Z) : option Z := u64_try_from (a + b).
Definition usize_checked_add (a b : Z) : option Z := u64_try_from (a + b).
Definition i64_saturating_add (a b : Z) : Z := Z.max i64_min (Z.min i64_max (a + b)).
Definition i64_saturating_mul (a b : Z) : Z := Z.max i64_min (Z.min i64_max (a * b)).
Definition usize_saturating_add (a b : Z) : Z := Z.min usize_max (a + b).
Definition usize_saturating_sub (a b : Z) : Z := Z.max 0 (a - b).

(** The length of a slice, string or vector as a [usize]. *)
Definition len {A} (l : list A) : Z := Z.of_nat (length l).

Lemma len_nonneg {A} (l : list A) : 0 <= len l.
Proof. unfold len. lia. Qed.

Lemma len_app {A} (l k : list A) : len (l ++ k) = len l + len k.
Proof. unfold len. rewrite length_app. lia. Qed.

Lemma len_cons {A} (x : A) l : len (x :: l) = 1 + len l.
Proof. unfold len. simpl length. lia. Qed.

Lemma len_nil {A} : len (@nil A) = 0.
Proof. reflexivity. Qed.

Lemma u64_checked_add_Some a b c :
  u64_checked_add a b = Some c <-> c = a + b /\ 0 <= a + b < 2 ^ 64.
Proof.
  unfold u64_checked_add, u64_try_from, in_u64.
  split; [intros H | intros [-> ?]].
  - dmh H; simplify_eq. boolp. lia.
  - rewrite (proj2 (Z.leb_le _ _)), (proj2 (Z.ltb_lt _ _)) by lia. done.
Qed.

Lemma u32_try_from_Some a c : u32_try_from a = Some c <-> c = a /\ 0 <= a < 2 ^ 32.
Proof.
  unfold u32_try_from, in_u32. split; [intros H | intros [-> ?]].
  - dmh H; simplify_eq. boolp. lia.
  - rewrite (proj2 (Z.leb_le _ _)), (proj2 (Z.ltb_lt _ _)) by lia. done.
Qed.

Lemma i64_saturating_add_in a b : in_i64 (i64_saturating_add a b) = true.
Proof. unfold in_i64, i64_saturating_add, i64_min, i64_max. apply andb_true_iff. lia. Qed.

Create HintDb skillsync discriminated.
Create Rewrite HintDb skillsync_len.
#[export] Hint Rewrite @len_app @len_cons @len_nil : skillsync_len.
#[export] Hint Resolve len_nonneg i64_saturating_add_in : skillsync.
