(* ===== verification/Bytes.v ===== *)
(** Bytes, fixed arrays, big-endian integers and Rust's [Ord].

    The language's own data: [u8], [[u8; N]], [Vec<u8>] and [str] (a byte list
    that is valid UTF-8), [to_be_bytes] and [from_be_bytes], the derived
    lexicographic orders, the ordered iteration of a [BTreeMap] and [sort]. *)

From S2P Require Import Prelude.

(** ** [u8] *)

Abbreviation byte := Byte.byte.
Abbreviation bytes := (list byte).

#[global] Instance byte_eq_dec : EqDecision byte := Byte.byte_eq_dec.
#[global] Program Instance byte_countable : Countable byte :=
  inj_countable Byte.to_N Byte.of_N _.
Next Obligation. apply Byte.of_to_N. Qed.

Definition byteZ (b : byte) : Z := Z.of_N (Byte.to_N b).
Definition byte_of_Z (z : Z) : byte := default "000"%byte (Byte.of_N (Z.to_N (z mod 256))).

Lemma byteZ_range b : 0 <= byteZ b < 256.
Proof. unfold byteZ. pose proof (Byte.to_N_bounded b). lia. Qed.

Lemma byteZ_of_Z z : byteZ (byte_of_Z z) = z mod 256.
Proof.
  unfold byteZ, byte_of_Z. pose proof (Z.mod_pos_bound z 256 ltac:(lia)).
  destruct (Byte.of_N (Z.to_N (z mod 256))) as [b|] eqn:E; simpl.
  - apply Byte.to_of_N in E. rewrite E. lia.
  - apply Byte.of_N_None_iff in E. lia.
Qed.

Lemma byteZ_inj b c : byteZ b = byteZ c -> b = c.
Proof.
  unfold byteZ. intros H. apply N2Z.inj in H.
  pose proof (Byte.of_to_N b). pose proof (Byte.of_to_N c). congruence.
Qed.

Lemma byte_of_byteZ b : byte_of_Z (byteZ b) = b.
Proof.
  apply byteZ_inj. rewrite byteZ_of_Z. apply Z.mod_small, byteZ_range.
Qed.

(** String literals as bytes. *)
Definition lit (s : string) : bytes := String.list_byte_of_string s.

(** ** [[u8; N]] *)

Record array (n : nat) : Type := Array {
  arr : bytes;
  arr_len : Nat.eqb (length arr) n = true;
}.
Arguments Array {n} arr arr_len.
Arguments arr {n} a.
Arguments arr_len {n} a.

Lemma arr_inj {n} (a b : array n) : arr a = arr b -> a = b.
Proof.
  destruct a as [l p], b as [k q]; simpl. intros ->. f_equal.
  apply (Eqdep_dec.UIP_dec Bool.bool_dec).
Qed.

Lemma arr_length {n} (a : array n) : length (arr a) = n.
Proof. apply Nat.eqb_eq, arr_len. Qed.

(** [<[u8; N]>::try_from(slice)] *)
Definition to_array (n : nat) (l : bytes) : option (array n) :=
  (if Nat.eqb (length l) n as b return Nat.eqb (length l) n = b -> option (array n)
   then fun H => Some (Array l H) else fun _ => None) eq_refl.

Lemma to_array_Some n l a : to_array n l = Some a <-> arr a = l.
Proof.
  unfold to_array. split.
  - generalize (eq_refl (Nat.eqb (length l) n)).
    generalize (Nat.eqb (length l) n) at 2 3.
    intros [] E; intros; by simplify_eq.
  - intros <-. pose proof (arr_len a) as E. revert E.
    generalize (eq_refl (Nat.eqb (length (arr a)) n)).
    generalize (Nat.eqb (length (arr a)) n) at 2 3 4.
    intros [] E; [intros _ | done]. f_equal. by apply arr_inj.
Qed.

Lemma to_array_arr {n} (a : array n) : to_array n (arr a) = Some a.
Proof. by apply to_array_Some. Qed.

Lemma to_array_length n l : length l = n -> exists a, to_array n l = Some a /\ arr a = l.
Proof.
  intros H. exists (Array l (proj2 (Nat.eqb_eq _ _) H)). split; [|done].
  by apply to_array_Some.
Qed.

#[global] Instance array_eq_dec {n} : EqDecision (array n).
Proof.
  intros a b. destruct (decide (arr a = arr b)) as [H|H].
  - left. by apply arr_inj.
  - right. congruence.
Defined.
#[global] Program Instance array_countable {n} : Countable (array n) :=
  inj_countable arr (to_array n) _.
Next Obligation. intros. apply to_array_arr. Qed.

(** An array that repeats one byte, [[b; N]]. *)
Definition array_repeat (n : nat) (b : byte) : array n :=
  Array (repeat b n) (proj2 (Nat.eqb_eq _ _) (repeat_length b n)).

(** ** [Ord] *)

Class Ord (A : Type) := cmp : A -> A -> comparison.

Class OrdLaws (A : Type) `{Ord A} : Prop := {
  cmp_Eq (x y : A) : cmp x y = Eq <-> x = y;
  cmp_antisym (x y : A) : cmp y x = CompOpp (cmp x y);
  cmp_Lt_trans (x y z : A) : cmp x y = Lt -> cmp y z = Lt -> cmp x z = Lt;
}.

(** [Ordering::then_with] *)
Definition then_with (c d : comparison) : comparison :=
  match c with Eq => d | _ => c end.

#[global] Instance Z_ord : Ord Z := Z.compare.
#[global] Instance Z_ord_laws : OrdLaws Z.
Proof.
  split; unfold cmp, Z_ord; intros.
  - apply Z.compare_eq_iff.
  - apply Z.compare_antisym.
  - rewrite Z.compare_lt_iff in *. lia.
Qed.

(** The order of the image of an injection: a newtype with derived [Ord]. *)
Definition ord_via {A B} `{Ord B} (f : A -> B) : Ord A := fun x y => cmp (f x) (f y).

Lemma ord_via_laws {A B} `{OrdLaws B} (f : A -> B) `{!Inj (=) (=) f} :
  @OrdLaws A (ord_via f).
Proof.
  split; unfold cmp, ord_via; intros.
  - rewrite cmp_Eq. split; [apply (inj f) | congruence].
  - apply cmp_antisym.
  - eauto using cmp_Lt_trans.
Qed.

#[global] Instance byteZ_Inj : Inj (=) (=) byteZ.
Proof. intros b c. apply byteZ_inj. Qed.
#[global] Instance byte_ord : Ord byte := ord_via byteZ.
#[global] Instance byte_ord_laws : OrdLaws byte := ord_via_laws byteZ.

(** Slices and strings: lexicographic, a proper prefix is smaller. *)
Fixpoint list_cmp {A} `{Ord A} (l k : list A) : comparison :=
  match l, k with
  | [], [] => Eq
  | [], _ :: _ => Lt
  | _ :: _, [] => Gt
  | x :: l, y :: k => then_with (cmp x y) (list_cmp l k)
  end.
#[global] Instance list_ord {A} `{Ord A} : Ord (list A) := list_cmp.

Section then_with.
Context {A} `{OrdLaws A}.

Lemma cmp_refl (x : A) : cmp x x = Eq.
Proof. by apply cmp_Eq. Qed.

Lemma cmp_Gt_Lt (x y : A) : cmp x y = Gt <-> cmp y x = Lt.
Proof. rewrite (cmp_antisym x y). by destruct (cmp x y). Qed.

Lemma then_with_Eq c d : then_with c d = Eq <-> c = Eq /\ d = Eq.
Proof. destruct c; simpl; intuition discriminate. Qed.

Lemma then_with_opp c d : CompOpp (then_with c d) = then_with (CompOpp c) (CompOpp d).
Proof. by destruct c. Qed.

Lemma then_with_Lt (x y : A) d :
  then_with (cmp x y) d = Lt <-> cmp x y = Lt \/ x = y /\ d = Lt.
Proof.
  destruct (cmp x y) eqn:E; simpl.
  - apply cmp_Eq in E. intuition discriminate.
  - intuition auto.
  - assert (x <> y) by (intros ->; rewrite cmp_refl in E; done). intuition discriminate.
Qed.
End then_with.

#[global] Instance list_ord_laws {A} `{OrdLaws A} : OrdLaws (list A).
Proof.
  split; unfold cmp, list_ord.
  - induction x as [|a x IH]; destruct y as [|b y]; simpl; try done.
    rewrite then_with_Eq, cmp_Eq, IH. naive_solver.
  - induction x as [|a x IH]; destruct y as [|b y]; simpl; try done.
    by rewrite then_with_opp, <-IH, <-cmp_antisym.
  - induction x as [|a x IH]; destruct y as [|b y], z as [|c z]; simpl; try done.
    rewrite !then_with_Lt. intros [H1|[-> H1]] [H2|[-> H2]]; eauto using cmp_Lt_trans.
Qed.

#[global] Instance prod_ord {A B} `{Ord A, Ord B} : Ord (A * B) :=
  fun x y => then_with (cmp x.1 y.1) (cmp x.2 y.2).
#[global] Instance prod_ord_laws {A B} `{OrdLaws A, OrdLaws B} : OrdLaws (A * B).
Proof.
  split; unfold cmp, prod_ord.
  - intros [a b] [c d]; simpl. rewrite then_with_Eq, !cmp_Eq. naive_solver.
  - intros [a b] [c d]; simpl. by rewrite then_with_opp, <-!cmp_antisym.
  - intros [a b] [c d] [e f]; simpl. rewrite !then_with_Lt.
    intros [?|[-> ?]] [?|[-> ?]]; eauto using cmp_Lt_trans.
Qed.

#[global] Instance arr_Inj {n} : Inj (=) (=) (@arr n).
Proof. intros a b. apply arr_inj. Qed.
#[global] Instance array_ord {n} : Ord (array n) := ord_via arr.
#[global] Instance array_ord_laws {n} : OrdLaws (array n) := ord_via_laws arr.

(** The relations [<] and [<=] of an [Ord]. *)
Definition ltb {A} `{Ord A} (x y : A) : bool := match cmp x y with Lt => true | _ => false end.
Definition olt {A} `{Ord A} (x y : A) : Prop := cmp x y = Lt.
Definition ole {A} `{Ord A} (x y : A) : Prop := cmp x y <> Gt.
#[global] Instance olt_dec {A} `{Ord A} : RelDecision (@olt A _).
Proof. intros x y. unfold olt. solve_decision. Defined.
#[global] Instance ole_dec {A} `{Ord A} : RelDecision (@ole A _).
Proof. intros x y. unfold ole. solve_decision. Defined.

Section order.
Context {A} `{OrdLaws A}.

Lemma ltb_olt (x y : A) : ltb x y = true <-> olt x y.
Proof. unfold ltb, olt. by destruct (cmp x y). Qed.

Lemma ole_lt_eq (x y : A) : ole x y <-> olt x y \/ x = y.
Proof.
  unfold ole, olt. rewrite <-cmp_Eq. destruct (cmp x y); intuition congruence.
Qed.

Lemma not_lt_le (x y : A) : ~ olt x y <-> ole y x.
Proof. unfold ole, olt. rewrite cmp_Gt_Lt. done. Qed.

Lemma olt_irrefl (x : A) : ~ olt x x.
Proof. unfold olt. by rewrite cmp_refl. Qed.

#[global] Instance olt_trans : Transitive (@olt A _).
Proof. intros x y z. apply cmp_Lt_trans. Qed.

Lemma olt_total (x y : A) : olt x y \/ x = y \/ olt y x.
Proof.
  unfold olt. rewrite <-(cmp_Gt_Lt x y), <-cmp_Eq. destruct (cmp x y); auto.
Qed.

#[global] Instance ole_trans : Transitive (@ole A _).
Proof.
  intros x y z. rewrite !ole_lt_eq. intros [? | ->] [? | ->]; auto.
  left. by etransitivity.
Qed.
#[global] Instance ole_total : Total (@ole A _).
Proof. intros x y. rewrite !ole_lt_eq. destruct (olt_total x y) as [?|[-> | ?]]; auto. Qed.
#[global] Instance ole_antisymm : AntiSymm (=) (@ole A _).
Proof.
  intros x y. rewrite !ole_lt_eq. intros [? | ->] [?|?]; try done.
  exfalso. apply (olt_irrefl x). by etransitivity.
Qed.
End order.

(** ** [slice::sort], [BTreeMap] iteration *)

(** [v.sort()] of a totally ordered element type. *)
Definition sort {A} `{Ord A} (l : list A) : list A := merge_sort ole l.

(** [v.sort_by_key(f)]-like sorts compare keys. *)
Definition key_le {A K} `{Ord K} (f : A -> K) (x y : A) : Prop := ole (f x) (f y).
Definition key_lt {A K} `{Ord K} (f : A -> K) (x y : A) : Prop := olt (f x) (f y).
#[global] Instance key_le_dec {A K} `{Ord K} (f : A -> K) : RelDecision (key_le f).
Proof. intros x y. unfold key_le. apply _. Defined.
#[global] Instance key_lt_dec {A K} `{Ord K} (f : A -> K) : RelDecision (key_lt f).
Proof. intros x y. unfold key_lt. apply _. Defined.
Definition sort_by {A K} `{Ord K} (f : A -> K) (l : list A) : list A := merge_sort (key_le f) l.

(** A map iterated in key order. *)
Definition items {K V} `{Countable K, Ord K} (m : gmap K V) : list (K * V) :=
  sort_by fst (map_to_list m).

(** [dedup]: drops an element equal to its predecessor. *)
Fixpoint dedup {A} `{EqDecision A} (l : list A) : list A :=
  match l with
  | x :: ((y :: _) as l') => if decide (x = y) then dedup l' else x :: dedup l'
  | _ => l
  end.

Section sort_by.
Context {A K : Type} `{OrdLaws K} (f : A -> K).

#[global] Instance key_le_total : Total (key_le f).
Proof. intros x y. unfold key_le. apply (total ole). Qed.
#[global] Instance key_le_trans : Transitive (key_le f).
Proof. intros x y z. unfold key_le. apply ole_trans. Qed.
#[global] Instance key_lt_trans : Transitive (key_lt f).
Proof. intros x y z. unfold key_lt. apply olt_trans. Qed.

Lemma sort_by_perm l : sort_by f l ≡ₚ l.
Proof. apply merge_sort_Permutation. Qed.

Lemma sort_by_sorted l : StronglySorted (key_le f) (sort_by f l).
Proof. apply StronglySorted_merge_sort; apply _. Qed.

(** Distinct keys make the sorted order strict. *)
Lemma sorted_strict l :
  NoDup (map f l) -> StronglySorted (key_le f) l -> StronglySorted (key_lt f) l.
Proof.
  induction l as [|x l IH]; intros Hd Hs; constructor;
    apply StronglySorted_inv in Hs as [Hs Hf]; inversion Hd as [|? ? Hni Hd']; subst.
  - auto.
  - rewrite Forall_forall in *. intros y Hy. specialize (Hf y Hy).
    unfold key_le in Hf. apply ole_lt_eq in Hf as [?|Heq]; [done|].
    exfalso. apply Hni. rewrite Heq. apply list_elem_of_In, in_map, list_elem_of_In, Hy.
Qed.

Lemma strict_NoDup l : StronglySorted (key_lt f) l -> NoDup (map f l).
Proof.
  induction 1 as [|x l Hs IH Hf]; simpl; constructor; auto.
  intros Hin. apply list_elem_of_In, in_map_iff in Hin as (y & Hy & Hin).
  rewrite Forall_forall in Hf. apply list_elem_of_In in Hin.
  specialize (Hf y Hin). unfold key_lt in Hf. rewrite Hy in Hf. by apply olt_irrefl in Hf.
Qed.

(** Two strictly sorted lists with the same elements are equal. *)
Lemma strict_unique l k :
  StronglySorted (key_lt f) l -> StronglySorted (key_lt f) k ->
  (forall x, x ∈ l <-> x ∈ k) -> l = k.
Proof.
  intros Hl. revert k. induction Hl as [|x l Hl IH Hx]; intros k Hk Heq.
  - destruct k as [|y k]; [done|]. specialize (Heq y). set_solver.
  - inversion Hk as [|y k' Hk' Hy]; subst; [specialize (Heq x); set_solver|].
    rewrite Forall_forall in Hx, Hy.
    assert (x = y) as ->.
    { destruct (proj1 (elem_of_cons _ _ _) (proj1 (Heq x) ltac:(set_solver)))
        as [|Hin]; [done|].
      destruct (proj1 (elem_of_cons _ _ _) (proj2 (Heq y) ltac:(set_solver)))
        as [|Hin']; [done|].
      exfalso. apply (olt_irrefl (f x)). etransitivity; [by apply Hx | by apply Hy]. }
    f_equal. apply IH; [done|]. intros z. specialize (Heq z). rewrite !elem_of_cons in Heq.
    split; intros Hz.
    + destruct (proj1 Heq (or_intror Hz)) as [->|]; [|done].
      exfalso. by apply (olt_irrefl (f y)), Hx.
    + destruct (proj2 Heq (or_intror Hz)) as [->|]; [|done].
      exfalso. by apply (olt_irrefl (f y)), Hy.
Qed.

Lemma sort_by_strict l :
  NoDup (map f l) -> StronglySorted (key_lt f) (sort_by f l).
Proof.
  intros Hd. apply sorted_strict; [|apply sort_by_sorted].
  eapply NoDup_Permutation_proper; [|exact Hd]. by apply Permutation_map, sort_by_perm.
Qed.

Lemma sort_by_id l : StronglySorted (key_lt f) l -> sort_by f l = l.
Proof.
  intros Hs. apply strict_unique; auto using sort_by_strict, strict_NoDup.
  intros x. by rewrite sort_by_perm.
Qed.
End sort_by.

Section items.
Context {K V : Type} `{Countable K} `{!Ord K, !OrdLaws K}.
Implicit Type m : gmap K V.

Lemma items_elem m k v : (k, v) ∈ items m <-> m !! k = Some v.
Proof. unfold items. rewrite sort_by_perm. apply elem_of_map_to_list. Qed.

Lemma items_sorted m : StronglySorted (key_lt fst) (items m).
Proof. apply sort_by_strict, NoDup_fst_map_to_list. Qed.

Lemma items_length m : length (items m) = size m.
Proof. unfold items. rewrite (sort_by_perm fst). apply length_map_to_list. Qed.

Lemma items_list_to_map (l : list (K * V)) :
  StronglySorted (key_lt fst) l -> items (list_to_map l : gmap K V) = l.
Proof.
  intros Hs. apply (strict_unique fst); auto using items_sorted.
  intros [k v]. rewrite items_elem. symmetry. apply elem_of_list_to_map.
  by apply (strict_NoDup fst).
Qed.

Lemma list_to_map_items m : (list_to_map (items m) : gmap K V) = m.
Proof.
  apply map_eq. intros k. apply option_eq. intros v.
  rewrite <-(items_elem m). symmetry. apply elem_of_list_to_map.
  apply (strict_NoDup fst), items_sorted.
Qed.
End items.

(** ** [to_be_bytes], [from_be_bytes] *)

Fixpoint be_bytes (n : nat) (z : Z) : bytes :=
  match n with
  | O => []
  | S n => be_bytes n (z / 256) ++ [byte_of_Z z]
  end.

Definition from_be (l : bytes) : Z := fold_left (fun acc b => acc * 256 + byteZ b) l 0.

Definition u32_be (z : Z) : bytes := be_bytes 4 z.
Definition u64_be (z : Z) : bytes := be_bytes 8 z.
(** [i64::to_be_bytes]: two's complement. *)
Definition i64_be (z : Z) : bytes := be_bytes 8 (z mod 2 ^ 64).
Definition i64_from_be (l : bytes) : Z :=
  let u := from_be l in if u <? 2 ^ 63 then u else u - 2 ^ 64.

Lemma be_bytes_length n z : length (be_bytes n z) = n.
Proof. revert z. induction n; intros; simpl; [done|]. rewrite length_app, IHn. simpl. lia. Qed.

Lemma from_be_snoc l b : from_be (l ++ [b]) = from_be l * 256 + byteZ b.
Proof. unfold from_be. by rewrite fold_left_app. Qed.

Lemma from_be_bytes n z : from_be (be_bytes n z) = z mod 256 ^ Z.of_nat n.
Proof.
  revert z. induction n as [|n IH]; intros z; simpl be_bytes.
  - unfold from_be. simpl. by rewrite Z.mod_1_r.
  - rewrite from_be_snoc, IH, byteZ_of_Z, Nat2Z.inj_succ, Z.pow_succ_r by lia.
    rewrite Z.rem_mul_r by lia. lia.
Qed.

Lemma from_be_bound l : 0 <= from_be l < 256 ^ len l.
Proof.
  induction l as [|b l IH] using rev_ind; [done|].
  rewrite from_be_snoc, len_app. change (len [b]) with 1.
  rewrite Z.pow_add_r, Z.pow_1_r by (auto with skillsync; lia).
  pose proof (byteZ_range b). nia.
Qed.

Lemma be_bytes_from_be l : be_bytes (length l) (from_be l) = l.
Proof.
  induction l as [|b l IH] using rev_ind; [done|].
  rewrite length_app, Nat.add_1_r, from_be_snoc. simpl.
  pose proof (byteZ_range b).
  rewrite Z.div_add_l, Z.div_small, Z.add_0_r, IH by lia. f_equal. f_equal.
  apply byteZ_inj. rewrite byteZ_of_Z, Z.add_comm, Z.mod_add by lia. by apply Z.mod_small.
Qed.

Lemma from_be_inj l k : length l = length k -> from_be l = from_be k -> l = k.
Proof. intros H1 H2. by rewrite <-(be_bytes_from_be l), <-(be_bytes_from_be k), H1, H2. Qed.

Lemma u32_be_from z : in_u32 z = true -> from_be (u32_be z) = z.
Proof.
  unfold in_u32, u32_be. intros H. boolp. rewrite from_be_bytes. apply Z.mod_small. lia.
Qed.

Lemma u64_be_from z : in_u64 z = true -> from_be (u64_be z) = z.
Proof.
  unfold in_u64, u64_be. intros H. boolp. rewrite from_be_bytes. apply Z.mod_small. lia.
Qed.

Lemma from_be_u32 l : length l = 4%nat -> u32_be (from_be l) = l /\ in_u32 (from_be l) = true.
Proof.
  intros H. unfold u32_be. rewrite <-H at 1. rewrite be_bytes_from_be. split; [done|].
  pose proof (from_be_bound l) as Hb. unfold len in Hb. rewrite H in Hb.
  unfold in_u32. apply andb_true_iff. split; [apply Z.leb_le|apply Z.ltb_lt]; lia.
Qed.

Lemma from_be_u64 l : length l = 8%nat -> u64_be (from_be l) = l /\ in_u64 (from_be l) = true.
Proof.
  intros H. unfold u64_be. rewrite <-H at 1. rewrite be_bytes_from_be. split; [done|].
  pose proof (from_be_bound l) as Hb. unfold len in Hb. rewrite H in Hb.
  unfold in_u64. apply andb_true_iff. split; [apply Z.leb_le|apply Z.ltb_lt]; lia.
Qed.

Lemma i64_be_from z : in_i64 z = true -> i64_from_be (i64_be z) = z.
Proof.
  unfold in_i64, i64_from_be, i64_be, i64_min, i64_max. intros H. boolp.
  rewrite from_be_bytes. change (256 ^ Z.of_nat 8) with (2 ^ 64).
  rewrite Z.mod_mod by lia. destruct (Z.ltb_spec (z mod 2 ^ 64) (2 ^ 63)) as [Hl|Hl].
  - destruct (Z_lt_le_dec z 0).
    + rewrite <-(Z.mod_add z 1), Z.mod_small in Hl by lia. lia.
    + by rewrite Z.mod_small by lia.
  - destruct (Z_lt_le_dec z 0).
    + rewrite <-(Z.mod_add z 1), Z.mod_small by lia. lia.
    + rewrite Z.mod_small in Hl by lia. lia.
Qed.

Lemma from_be_i64 l :
  length l = 8%nat -> i64_be (i64_from_be l) = l /\ in_i64 (i64_from_be l) = true.
Proof.
  intros H. destruct (from_be_u64 l H) as [He Hb]. unfold in_u64 in Hb. boolp.
  unfold i64_be, i64_from_be, in_i64, i64_min, i64_max.
  destruct (Z.ltb_spec (from_be l) (2 ^ 63)).
  - rewrite Z.mod_small by lia. split; [done|]. apply andb_true_iff. lia.
  - rewrite <-(Z.mod_add _ 1), Z.mod_small by lia.
    replace (from_be l - 2 ^ 64 + 1 * 2 ^ 64) with (from_be l) by lia.
    split; [done|]. apply andb_true_iff. lia.
Qed.

#[export] Hint Rewrite be_bytes_length : skillsync_len.

Lemma len_u32_be z : len (u32_be z) = 4.
Proof. unfold len, u32_be. by rewrite be_bytes_length. Qed.
Lemma len_u64_be z : len (u64_be z) = 8.
Proof. unfold len, u64_be. by rewrite be_bytes_length. Qed.
Lemma len_i64_be z : len (i64_be z) = 8.
Proof. unfold len, i64_be. by rewrite be_bytes_length. Qed.
Lemma len_arr {n} (a : array n) : len (arr a) = Z.of_nat n.
Proof. unfold len. by rewrite arr_length. Qed.
#[export] Hint Rewrite @len_u32_be @len_u64_be @len_i64_be @len_arr : skillsync_len.

Lemma length_u32_be z : length (u32_be z) = 4%nat.
Proof. apply be_bytes_length. Qed.
Lemma length_u64_be z : length (u64_be z) = 8%nat.
Proof. apply be_bytes_length. Qed.
Lemma length_i64_be z : length (i64_be z) = 8%nat.
Proof. apply be_bytes_length. Qed.

(** Only the lemmas above look inside. *)
#[global] Opaque u32_be u64_be i64_be.
