(* ===== verification/Utf8.v ===== *)
(** UTF-8: [str::from_utf8] and [str::chars].

    A Rust [String] is represented by its bytes; [utf8_valid] is the invariant
    the type carries and the test [from_utf8] makes.  [utf8_chars] decodes a
    valid string to its scalar values, with the byte ranges of the Unicode
    standard (no overlong form, no surrogate, nothing above U+10FFFF). *)

From S2P Require Import Prelude Bytes.

Definition between (lo hi : Z) (b : Z) : bool := (lo <=? b) && (b <=? hi).
Definition continuation : Z -> bool := between 0x80 0xBF.

(** The second byte a lead byte of a three or four byte sequence allows. *)
Definition second3 (b0 b1 : Z) : bool :=
  if b0 =? 0xE0 then between 0xA0 0xBF b1
  else if b0 =? 0xED then between 0x80 0x9F b1
  else continuation b1.
Definition second4 (b0 b1 : Z) : bool :=
  if b0 =? 0xF0 then between 0x90 0xBF b1
  else if b0 =? 0xF4 then between 0x80 0x8F b1
  else continuation b1.

Definition char2 (b0 b1 : Z) : Z := (b0 - 0xC0) * 64 + (b1 - 0x80).
Definition char3 (b0 b1 b2 : Z) : Z :=
  ((b0 - 0xE0) * 64 + (b1 - 0x80)) * 64 + (b2 - 0x80).
Definition char4 (b0 b1 b2 b3 : Z) : Z :=
  (((b0 - 0xF0) * 64 + (b1 - 0x80)) * 64 + (b2 - 0x80)) * 64 + (b3 - 0x80).

Fixpoint utf8_chars (s : bytes) : option (list Z) :=
  match s with
  | [] => Some []
  | b0 :: s0 =>
    let c0 := byteZ b0 in
    if c0 <? 0x80 then cons c0 <$> utf8_chars s0
    else match s0 with
    | [] => None
    | b1 :: s1 =>
      let c1 := byteZ b1 in
      if between 0xC2 0xDF c0 then
        if continuation c1 then cons (char2 c0 c1) <$> utf8_chars s1 else None
      else match s1 with
      | [] => None
      | b2 :: s2 =>
        let c2 := byteZ b2 in
        if between 0xE0 0xEF c0 then
          if second3 c0 c1 && continuation c2
          then cons (char3 c0 c1 c2) <$> utf8_chars s2 else None
        else match s2 with
        | [] => None
        | b3 :: s3 =>
          let c3 := byteZ b3 in
          if between 0xF0 0xF4 c0 && second4 c0 c1 && continuation c2 && continuation c3
          then cons (char4 c0 c1 c2 c3) <$> utf8_chars s3 else None
        end
      end
    end
  end.

Definition utf8_valid (s : bytes) : bool :=
  match utf8_chars s with Some _ => true | None => false end.

(** [s.chars()], for a valid string. *)
Definition chars (s : bytes) : list Z := default [] (utf8_chars s).

(** [char::is_whitespace]: the White_Space property. *)
Definition is_whitespace (c : Z) : bool :=
  between 0x09 0x0D c || (c =? 0x20) || (c =? 0x85) || (c =? 0xA0) || (c =? 0x1680)
  || between 0x2000 0x200A c || (c =? 0x2028) || (c =? 0x2029) || (c =? 0x202F)
  || (c =? 0x205F) || (c =? 0x3000).

(** [char::is_control]: the Cc category. *)
Definition is_control (c : Z) : bool := between 0 0x1F c || between 0x7F 0x9F c.

(** [s.trim().is_empty()]: only white space. *)
Definition trim_is_empty (s : bytes) : bool := forallb is_whitespace (chars s).

Lemma utf8_ascii s : forallb (fun b => byteZ b <? 0x80) s = true -> utf8_valid s = true.
Proof.
  unfold utf8_valid. induction s as [|b s IH]; simpl; [done|].
  intros H. apply andb_true_iff in H as [Hb Hs]. rewrite Hb.
  specialize (IH Hs). by destruct (utf8_chars s).
Qed.

Example utf8_euro : utf8_chars [x41; xe2; x82; xac]%byte = Some [0x41; 0x20AC].
Proof. vm_compute. reflexivity. Qed.
Example utf8_overlong : utf8_valid [xc0; x80]%byte = false.
Proof. vm_compute. reflexivity. Qed.
Example utf8_surrogate : utf8_valid [xed; xa0; x80]%byte = false.
Proof. vm_compute. reflexivity. Qed.
