(* ===== verification/Cursor.v ===== *)
(** Cursors over a byte slice, the parser monad, and two-sided codec specifications.

    The decoder of canonical.rs and the wire reader of protocol.rs are both a
    slice with a position.  A parser is a state passing function over such a
    cursor; [reads p R] says that [p] is complete for the encodings [R] relates
    to a value, and sound: it accepts nothing else, and leaves the cursor at
    the end of what it has read. *)

From S2P Require Import Prelude Bytes.

Record Cursor := mkCursor { cur_bytes : bytes; cur_position : Z }.

Definition parser (E A : Type) : Type := Cursor -> result (A * Cursor) E.

Definition pret {E A} (a : A) : parser E A := fun c => Ok (a, c).
Definition pfail {E A} (e : E) : parser E A := fun _ => Err e.
Definition plift {E A} (r : result A E) : parser E A := fun c => let? a := r in Ok (a, c).
Definition pbind {E A B} (p : parser E A) (f : A -> parser E B) : parser E B :=
  fun c => let? x := p c in f x.1 x.2.
Definition pmap_err {E F A} (g : E -> F) (p : parser E A) : parser F A :=
  fun c => map_err g (p c).

Declare Scope parser_scope.
Delimit Scope parser_scope with parser.
Notation "x <~ p ;; k" := (pbind p (fun x => k))
  (at level 100, p at next level, right associativity) : parser_scope.
Open Scope parser_scope.

(** [bytes.get(position..end)] *)
Definition get_range (l : bytes) (lo hi : Z) : option bytes :=
  if (0 <=? lo) && (lo <=? hi) && (hi <=? len l)
  then Some (take (Z.to_nat (hi - lo)) (drop (Z.to_nat lo) l)) else None.

(** [take]: [overflow] is the error of the position overflow, [truncated] of
    the range check. *)
Definition take_with {E} (overflow truncated : E) (length : Z) : parser E bytes :=
  fun c =>
    let? stop := ok_or (usize_checked_add (cur_position c) length) overflow in
    let? value := ok_or (get_range (cur_bytes c) (cur_position c) stop) truncated in
    Ok (value, mkCursor (cur_bytes c) stop).

(** [for _ in 0..n { v.push(p()?) }] *)
Fixpoint prepeat {E A} (n : nat) (p : parser E A) : parser E (list A) :=
  match n with
  | O => pret []
  | S n => x <~ p ;; xs <~ prepeat n p ;; pret (x :: xs)
  end.

(** ** Codec specifications *)

(** Slices are at most [isize::MAX] bytes long, so positions do not overflow. *)
Definition addressable (l : bytes) : Prop := len l < 2 ^ 63.

Definition complete {E A} (p : parser E A) (R : A -> bytes -> Prop) : Prop :=
  forall a enc pre post, R a enc -> addressable (pre ++ enc ++ post) ->
    p (mkCursor (pre ++ enc ++ post) (len pre))
    = Ok (a, mkCursor (pre ++ enc ++ post) (len (pre ++ enc))).

Definition sound {E A} (p : parser E A) (R : A -> bytes -> Prop) : Prop :=
  forall a pre rest c, p (mkCursor (pre ++ rest) (len pre)) = Ok (a, c) ->
    exists enc post, rest = enc ++ post /\ R a enc /\
      c = mkCursor (pre ++ rest) (len (pre ++ enc)).

Definition reads {E A} (p : parser E A) (R : A -> bytes -> Prop) : Prop :=
  complete p R /\ sound p R.

Section reads.
Context {E : Type}.

Lemma reads_ret {A} (a : A) : reads (pret (E:=E) a) (fun b enc => b = a /\ enc = []).
Proof.
  split.
  - intros b enc pre post [-> ->] _. unfold pret. by rewrite (app_nil_r pre).
  - intros b pre rest c H. unfold pret in H. simplify_eq.
    exists [], rest. by rewrite (app_nil_r pre).
Qed.

Lemma reads_fail {A} (e : E) : reads (pfail (A:=A) e) (fun _ _ => False).
Proof. split; [by intros ?????|]. intros a pre rest c H. done. Qed.

Lemma reads_lift {A} (r : result A E) :
  reads (plift r) (fun b enc => r = Ok b /\ enc = []).
Proof.
  split.
  - intros b enc pre post [-> ->] _. unfold plift. simpl. by rewrite (app_nil_r pre).
  - intros b pre rest c H. unfold plift in H. inv_ok.
    exists [], rest. by rewrite (app_nil_r pre).
Qed.

Lemma reads_bind {A B} (p : parser E A) (f : A -> parser E B) R S :
  reads p R -> (forall a, reads (f a) (S a)) ->
  reads (pbind p f) (fun b enc => exists a e1 e2, enc = e1 ++ e2 /\ R a e1 /\ S a b e2).
Proof.
  intros [Hc Hs] Hf. split.
  - intros b enc pre post (a & e1 & e2 & -> & Ha & Hb) Hn. unfold pbind.
    rewrite <-(app_assoc e1) in *. rewrite (Hc a) by done. simpl.
    rewrite (app_assoc pre), (proj1 (Hf a) b) by (by rewrite <-?app_assoc).
    by rewrite <-!app_assoc.
  - intros b pre rest c H. unfold pbind in H. apply rbind_Ok in H as ([a d] & Ha & Hb).
    apply Hs in Ha as (e1 & post & -> & Ha & ->). simpl in Hb.
    rewrite app_assoc in Hb. apply (Hf a) in Hb as (e2 & post' & -> & Hb & ->).
    exists (e1 ++ e2), post'. rewrite <-!app_assoc. eauto 10.
Qed.

(** A computation in front of a parser: its result may be assumed. *)
Lemma reads_lift_bind {A B} (r : result A E) (k : A -> parser E B) (K : A -> B -> bytes -> Prop) :
  (forall a, r = Ok a -> reads (k a) (K a)) ->
  reads (pbind (plift r) k) (fun b enc => exists a, r = Ok a /\ K a b enc).
Proof.
  intros Hk. unfold pbind, plift. destruct r as [a|e].
  - destruct (Hk a eq_refl) as [Hc Hs]. split.
    + intros b enc pre post (a' & [= <-] & Hb) Hn. simpl. by apply Hc.
    + intros b pre rest c H. simpl in H. apply Hs in H as (enc & post & -> & HK & ->). eauto 10.
  - split; [by intros b enc pre post (a & [=] & _)|]. intros b pre rest c H. done.
Qed.

(** A guard in front of a parser. *)
Lemma reads_guard {B} (b : bool) (e : E) (p : parser E B) R :
  (b = false -> reads p R) ->
  reads (if b then pfail e else p) (fun x enc => b = false /\ R x enc).
Proof.
  intros Hp. destruct b.
  - split; [by intros x enc pre post [? _]|]. intros x pre rest c H. done.
  - destruct (Hp eq_refl) as [Hc Hs]. split.
    + intros x enc pre post [_ HR]. by apply Hc.
    + intros x pre rest c H. apply Hs in H as (enc & post & ? & ? & ?). eauto 10.
Qed.

Lemma reads_iff {A} (p : parser E A) R S :
  reads p R -> (forall a enc, R a enc <-> S a enc) -> reads p S.
Proof.
  intros [Hc Hs] Heq. split.
  - intros a enc pre post Ha. apply Hc. by apply Heq.
  - intros a pre rest c H. apply Hs in H as (enc & post & ? & ? & ?).
    exists enc, post. by rewrite <-Heq.
Qed.

Lemma reads_take overflow truncated n :
  0 <= n -> reads (take_with (E:=E) overflow truncated n) (fun l enc => l = enc /\ len l = n).
Proof.
  intros Hn. split.
  - intros l enc pre post [<- <-] Ha. unfold take_with, usize_checked_add, u64_try_from, addressable in *.
    autorewrite with skillsync_len in *.
    pose proof (len_nonneg pre). pose proof (len_nonneg post). pose proof (len_nonneg l).
    simpl. unfold in_u64. rewrite (proj2 (Z.leb_le _ _)), (proj2 (Z.ltb_lt _ _)) by lia. simpl.
    unfold get_range. autorewrite with skillsync_len.
    rewrite !(proj2 (Z.leb_le _ _)) by lia. simpl.
    unfold len. rewrite Nat2Z.id, drop_app_length.
    replace (Z.to_nat _) with (length l) by lia. by rewrite take_app_length.
  - intros l pre rest c H. unfold take_with in H. simpl in H. inv_ok.
    rename H0 into Hstop, H1 into Hget.
    unfold usize_checked_add in Hstop. apply u64_checked_add_Some in Hstop as [-> Hb].
    unfold get_range in Hget. dmh Hget; simplify_eq. boolp.
    autorewrite with skillsync_len in *.
    replace (Z.to_nat (len pre)) with (length pre) by (unfold len; lia).
    rewrite drop_app_length. replace (Z.to_nat _) with (Z.to_nat n) by lia.
    exists (take (Z.to_nat n) rest), (drop (Z.to_nat n) rest).
    assert (len (take (Z.to_nat n) rest) = n) as Hl
      by (unfold len in *; rewrite length_take; lia).
    split; [by rewrite take_drop|]. split; [done|]. by rewrite len_app, Hl.
Qed.

Lemma reads_map_err {F A} (g : F -> E) (p : parser F A) R :
  reads p R -> reads (pmap_err g p) R.
Proof.
  intros [Hc Hs]. split.
  - intros a enc pre post Ha Hn. unfold pmap_err. by rewrite Hc.
  - intros a pre rest c H. unfold pmap_err in H. inv_ok. eauto.
Qed.

(** A repeated parser reads the concatenation of encodings. *)
Lemma reads_repeat {A} (p : parser E A) R n :
  reads p R ->
  reads (prepeat n p) (fun l enc => length l = n /\ exists encs, enc = concat encs /\ Forall2 R l encs).
Proof.
  intros Hp. induction n as [|n IH].
  - eapply reads_iff; [apply reads_ret|]. intros l enc; split.
    + intros [-> ->]. split; [done|]. by exists [].
    + intros [Hl (encs & -> & HR)]. destruct l; [|done]. by inversion HR.
  - eapply reads_iff.
    { simpl. apply reads_bind; [exact Hp|]. intros x. apply reads_bind; [exact IH|].
      intros xs. apply reads_ret. }
    intros l enc; split.
    + intros (x & e1 & e2 & -> & Hx & xs & e3 & e4 & -> & [Hl (encs & -> & HR)] & -> & ->).
      split; [simpl; lia|]. exists (e1 :: encs). rewrite app_nil_r. split; [done|]. by constructor.
    + intros [Hl (encs & -> & HR)]. destruct l as [|x l]; [done|].
      inversion HR as [|? e1 ? encs' Hx HR']; subst.
      exists x, e1, (concat encs'). split; [done|]. split; [done|].
      exists l, (concat encs'), []. rewrite app_nil_r. simpl in Hl.
      split; [done|]. split; [|done]. split; [lia|]. by exists encs'.
Qed.
End reads.

Lemma Forall2_map_r {A B} (P : A -> Prop) (f : A -> B) l k :
  Forall2 (fun x y => P x /\ y = f x) l k <-> Forall P l /\ k = map f l.
Proof.
  split.
  - induction 1 as [|x y l k [Hx ->] _ [IH ->]]; [done|]. split; [by constructor | done].
  - intros [H ->]. induction H; simpl; constructor; auto.
Qed.

(** A repeated parser of encodings that are a function of the value. *)
Lemma reads_repeat_map {E A} (p : parser E A) (P : A -> Prop) f n :
  reads p (fun a enc => P a /\ enc = f a) ->
  reads (prepeat n p) (fun l enc => length l = n /\ Forall P l /\ enc = concat (map f l)).
Proof.
  intros Hp. eapply reads_iff; [apply reads_repeat, Hp|]. intros l enc; split.
  - intros [Hl (encs & -> & [Hw ->]%Forall2_map_r)]. done.
  - intros (Hl & Hw & ->). split; [done|]. eexists. split; [done|]. by apply Forall2_map_r.
Qed.

(** A parser run over a whole slice after a prefix of it, then checked to have
    consumed everything. *)
Lemma reads_run {E A} (p : parser E A) R pre enc a :
  reads p R -> R a enc -> addressable (pre ++ enc) ->
  p (mkCursor (pre ++ enc) (len pre)) = Ok (a, mkCursor (pre ++ enc) (len (pre ++ enc))).
Proof.
  intros [Hc _] Ha Hn. specialize (Hc a enc pre [] Ha). by rewrite !app_nil_r in Hc; auto.
Qed.

Lemma reads_run_inv {E A} (p : parser E A) R pre rest a c :
  reads p R -> p (mkCursor (pre ++ rest) (len pre)) = Ok (a, c) ->
  cur_position c = len (cur_bytes c) -> cur_bytes c = pre ++ rest /\ R a rest.
Proof.
  intros [_ Hs] Hp Hend. apply Hs in Hp as (enc & post & -> & Ha & ->). simpl in *.
  rewrite !len_app in Hend. assert (post = []) as -> by (apply length_zero_iff_nil; unfold len in *; lia).
  by rewrite app_nil_r.
Qed.
