(* ===== verification/Canonical.v ===== *)
(** canonical.rs: the deterministic encoding of signed and hashed values. *)

From S2P Require Import Prelude Bytes Utf8 Cursor.

Inductive CanonicalError :=
  | Truncated
  | TrailingBytes
  | InvalidUtf8
  | LengthOverflow
  | UnknownTag
  | UnorderedKeys
  | Invalid (message : string).

#[global] Instance CanonicalError_eq_dec : EqDecision CanonicalError.
Proof. solve_decision. Defined.

(** ** Encoder *)

Record Encoder := mkEncoder { enc_bytes : bytes }.

Definition enc_new (domain : bytes) : Encoder := mkEncoder domain.
Definition enc_fixed (e : Encoder) (value : bytes) : Encoder := mkEncoder (enc_bytes e ++ value).
Definition enc_u8 (e : Encoder) (value : Z) : Encoder := mkEncoder (enc_bytes e ++ [byte_of_Z value]).
Definition enc_u32 (e : Encoder) (value : Z) : Encoder := mkEncoder (enc_bytes e ++ u32_be value).
Definition enc_u64 (e : Encoder) (value : Z) : Encoder := mkEncoder (enc_bytes e ++ u64_be value).
Definition enc_i64 (e : Encoder) (value : Z) : Encoder := mkEncoder (enc_bytes e ++ i64_be value).

Definition enc_string (e : Encoder) (value : bytes) : result Encoder CanonicalError :=
  let? length := ok_or (u32_try_from (len value)) LengthOverflow in
  Ok (enc_fixed (enc_u32 e length) value).

Definition enc_sized_bytes (e : Encoder) (value : bytes) : result Encoder CanonicalError :=
  let? length := ok_or (u32_try_from (len value)) LengthOverflow in
  Ok (enc_fixed (enc_u32 e length) value).

Definition enc_finish (e : Encoder) : bytes := enc_bytes e.

(** ** Decoder *)

Definition Decoder := Cursor.
Definition decoder (A : Type) := parser CanonicalError A.

(** [bytes.starts_with(domain)] *)
Fixpoint starts_with (l domain : bytes) : bool :=
  match domain, l with
  | [], _ => true
  | d :: domain, b :: l => bool_decide (d = b) && starts_with l domain
  | _ :: _, [] => false
  end.

Definition dec_new (l domain : bytes) : result Decoder CanonicalError :=
  if negb (starts_with l domain) then Err (Invalid "wrong domain or version")
  else Ok (mkCursor l (len domain)).

Definition dec_take (length : Z) : decoder bytes := take_with Truncated Truncated length.

Definition dec_array (n : nat) : decoder (array n) :=
  value <~ dec_take (Z.of_nat n) ;; plift (ok_or (to_array n value) Truncated).

Definition dec_u8 : decoder Z :=
  value <~ dec_take 1 ;;
  match value with b :: _ => pret (byteZ b) | [] => pfail Truncated end.
Definition dec_u32 : decoder Z := value <~ dec_array 4 ;; pret (from_be (arr value)).
Definition dec_u64 : decoder Z := value <~ dec_array 8 ;; pret (from_be (arr value)).
Definition dec_i64 : decoder Z := value <~ dec_array 8 ;; pret (i64_from_be (arr value)).
Definition dec_fixed (n : nat) : decoder (array n) := dec_array n.

(** [usize::try_from] of a [u32] cannot fail on a 64-bit target. *)
Definition dec_sized_bytes : decoder bytes := length <~ dec_u32 ;; dec_take length.

Definition dec_string : decoder bytes :=
  value <~ dec_sized_bytes ;;
  if utf8_valid value then pret value else pfail InvalidUtf8.

Definition dec_finish (d : Decoder) : result unit CanonicalError :=
  if cur_position d =? len (cur_bytes d) then Ok tt else Err TrailingBytes.

(** The frame of every decoding function: [Decoder::new], the fields, [finish]. *)
Definition decode_with {A E} (up : CanonicalError -> E) (domain : bytes) (fields : parser E A)
    (l : bytes) : result A E :=
  let? decoder := map_err up (dec_new l domain) in
  let? x := fields decoder in
  let? _ := map_err up (dec_finish x.2) in
  Ok x.1.

(** ** Encodings as relations *)

Definition sized (l : bytes) : bytes := u32_be (len l) ++ l.

Definition R_u8 (z : Z) (enc : bytes) : Prop := in_u8 z = true /\ enc = [byte_of_Z z].
Definition R_u32 (z : Z) (enc : bytes) : Prop := in_u32 z = true /\ enc = u32_be z.
Definition R_u64 (z : Z) (enc : bytes) : Prop := in_u64 z = true /\ enc = u64_be z.
Definition R_i64 (z : Z) (enc : bytes) : Prop := in_i64 z = true /\ enc = i64_be z.
Definition R_fixed {n} (a : array n) (enc : bytes) : Prop := enc = arr a.
Definition R_sized (l enc : bytes) : Prop := in_u32 (len l) = true /\ enc = sized l.
Definition R_string (s enc : bytes) : Prop := utf8_valid s = true /\ R_sized s enc.

Lemma in_u8_byteZ b : in_u8 (byteZ b) = true.
Proof. pose proof (byteZ_range b). unfold in_u8. apply andb_true_iff. lia. Qed.

Lemma reads_array n : reads (dec_array n) R_fixed.
Proof.
  eapply reads_iff; [apply reads_bind; [apply reads_take; lia | intros a; apply reads_lift]|].
  intros a enc; unfold R_fixed; split.
  - intros (l & e1 & e2 & -> & [-> Hl] & Ha & ->). rewrite ok_or_Ok, to_array_Some in Ha.
    by rewrite app_nil_r.
  - intros ->. exists (arr a), (arr a), []. rewrite app_nil_r, ok_or_Ok, to_array_Some.
    repeat split. unfold len. by rewrite arr_length.
Qed.

(** A parser built from a fixed array by a decoding function. *)
Lemma reads_array_map {B} n (f : array n -> B) (R : B -> bytes -> Prop) :
  (forall b enc, R b enc <-> exists a : array n, enc = arr a /\ b = f a) ->
  reads (value <~ dec_array n ;; pret (f value)) R.
Proof.
  intros HR. eapply reads_iff.
  { apply reads_bind; [apply reads_array | intros a; apply reads_ret]. }
  intros b enc. rewrite HR. split.
  - intros (a & e1 & e2 & -> & -> & -> & ->). exists a. by rewrite app_nil_r.
  - intros (a & -> & ->). exists a, (arr a), []. by rewrite app_nil_r.
Qed.

Lemma reads_u32 : reads dec_u32 R_u32.
Proof.
  apply reads_array_map. intros z enc; unfold R_u32; split.
  - intros [Hz ->]. destruct (to_array_length 4 (u32_be z) (length_u32_be z)) as (a & _ & Ha).
    exists a. rewrite Ha. by rewrite u32_be_from.
  - intros (a & -> & ->). destruct (from_be_u32 (arr a) (arr_length a)). auto.
Qed.

Lemma reads_u64 : reads dec_u64 R_u64.
Proof.
  apply reads_array_map. intros z enc; unfold R_u64; split.
  - intros [Hz ->]. destruct (to_array_length 8 (u64_be z) (length_u64_be z)) as (a & _ & Ha).
    exists a. rewrite Ha. by rewrite u64_be_from.
  - intros (a & -> & ->). destruct (from_be_u64 (arr a) (arr_length a)). auto.
Qed.

Lemma reads_i64 : reads dec_i64 R_i64.
Proof.
  apply reads_array_map. intros z enc; unfold R_i64; split.
  - intros [Hz ->]. destruct (to_array_length 8 (i64_be z) (length_i64_be z)) as (a & _ & Ha).
    exists a. rewrite Ha. by rewrite i64_be_from.
  - intros (a & -> & ->). destruct (from_be_i64 (arr a) (arr_length a)). auto.
Qed.

Lemma reads_u8 : reads dec_u8 R_u8.
Proof.
  eapply reads_iff.
  { apply reads_bind
      with (S := fun l z enc => exists b k, l = b :: k /\ z = byteZ b /\ enc = []);
      [apply reads_take; lia |].
    intros [|b l].
    - eapply reads_iff; [apply reads_fail|]. naive_solver.
    - eapply reads_iff; [apply reads_ret|]. naive_solver. }
  intros z enc; unfold R_u8; split.
  - intros (l & e1 & e2 & -> & [-> Hl] & b & k & -> & -> & ->).
    rewrite len_cons in Hl. assert (k = []) as -> by (apply length_zero_iff_nil; unfold len in *; lia).
    by rewrite in_u8_byteZ, byte_of_byteZ.
  - intros [Hz ->]. exists [byte_of_Z z], [byte_of_Z z], []. repeat split.
    exists (byte_of_Z z), []. unfold in_u8 in Hz. boolp.
    rewrite byteZ_of_Z, Z.mod_small by lia. done.
Qed.

Lemma reads_sized_bytes : reads dec_sized_bytes R_sized.
Proof.
  eapply reads_iff.
  { apply reads_bind with (S := fun n l enc => 0 <= n /\ l = enc /\ len l = n); [apply reads_u32|].
    intros n. destruct (Z_lt_le_dec n 0) as [Hn|Hn].
    - split; [by intros ? ? ? ? [? _]; lia|]. intros l pre rest c H.
      unfold dec_take, take_with in H. inv_ok. unfold usize_checked_add in *.
      match goal with H : u64_try_from _ = Some _ |- _ => apply u64_checked_add_Some in H as [-> _] end.
      match goal with H : get_range _ _ _ = Some _ |- _ => unfold get_range in H; dmh H; simplify_eq end.
      boolp. lia.
    - eapply reads_iff; [apply reads_take; exact Hn|]. naive_solver. }
  intros l enc; unfold R_sized, sized; split.
  - intros (n & e1 & e2 & -> & [Hn ->] & _ & -> & <-). auto.
  - intros [Hl ->]. exists (len l), (u32_be (len l)), l. repeat split; auto with skillsync.
Qed.

Lemma reads_string : reads dec_string R_string.
Proof.
  eapply reads_iff.
  { apply reads_bind with (S := fun l s enc => utf8_valid l = true /\ s = l /\ enc = []);
      [apply reads_sized_bytes|].
    intros l. destruct (utf8_valid l) eqn:E.
    - eapply reads_iff; [apply reads_ret|]. naive_solver.
    - eapply reads_iff; [apply reads_fail|]. naive_solver. }
  intros s enc; unfold R_string; split.
  - intros (l & e1 & e2 & -> & Hl & Hv & -> & ->). by rewrite app_nil_r.
  - intros [Hv Hl]. exists s, enc, []. by rewrite app_nil_r.
Qed.

Lemma starts_with_app l domain : starts_with l domain = true <-> exists rest, l = domain ++ rest.
Proof.
  revert l. induction domain as [|d domain IH]; intros [|b l]; simpl.
  - split; eauto.
  - split; eauto.
  - split; [done | by intros [? ?]].
  - rewrite andb_true_iff, bool_decide_eq_true, IH. naive_solver.
Qed.

Lemma dec_new_Ok l domain d :
  dec_new l domain = Ok d <-> exists rest, l = domain ++ rest /\ d = mkCursor l (len domain).
Proof.
  unfold dec_new. destruct (starts_with l domain) eqn:E; simpl.
  - apply starts_with_app in E as [rest ->]. naive_solver.
  - split; [done|]. intros (rest & -> & _).
    assert (starts_with (domain ++ rest) domain = true) by (apply starts_with_app; eauto). congruence.
Qed.

Lemma dec_finish_Ok d : dec_finish d = Ok tt <-> cur_position d = len (cur_bytes d).
Proof. unfold dec_finish. destruct (Z.eqb_spec (cur_position d) (len (cur_bytes d))); naive_solver. Qed.

(** What the frame accepts is an encoding. *)
Lemma decode_with_sound {A E} (up : CanonicalError -> E) domain (p : parser E A) R l a :
  reads p R -> decode_with up domain p l = Ok a -> exists enc, l = domain ++ enc /\ R a enc.
Proof.
  intros Hp H. unfold decode_with in H. inv_ok. rename H0 into Hd, H1 into Hf, H2 into He.
  apply dec_new_Ok in Hd as (rest & -> & ->). apply dec_finish_Ok in He.
  match type of Hf with _ = Ok ?p => destruct p as [a c] end.
  apply (reads_run_inv _ _ _ _ _ _ Hp) in Hf as (_ & HR); [|done]. by exists rest.
Qed.

(** The frame is exact when the parser of the fields is. *)
Lemma decode_with_Ok {A E} (up : CanonicalError -> E) domain (p : parser E A) R l a :
  reads p R -> addressable l ->
  decode_with up domain p l = Ok a <-> exists enc, l = domain ++ enc /\ R a enc.
Proof.
  intros Hp Hl. unfold decode_with. split.
  - by apply decode_with_sound.
  - intros (enc & -> & HR). 
    rewrite (proj2 (map_err_Ok _ _ _) (proj2 (dec_new_Ok _ _ _)
      (ex_intro _ enc (conj eq_refl eq_refl)))). cbn [rbind].
    rewrite (reads_run _ _ _ _ a Hp) by done. cbn [rbind fst snd].
    by rewrite (proj2 (dec_finish_Ok _)).
Qed.

(** ** Encoders write the encodings *)

Lemma enc_string_Ok e s : in_u32 (len s) = true -> enc_string e s = Ok (mkEncoder (enc_bytes e ++ sized s)).
Proof.
  intros H. unfold enc_string, u32_try_from. rewrite H. simpl.
  unfold enc_fixed, enc_u32, sized. simpl. by rewrite <-app_assoc.
Qed.

Lemma enc_sized_bytes_Ok e s :
  in_u32 (len s) = true -> enc_sized_bytes e s = Ok (mkEncoder (enc_bytes e ++ sized s)).
Proof. apply enc_string_Ok. Qed.

(** [reads_tac] composes the specifications of the parsers a parser is made of;
    it leaves the parsers it has no specification of. *)
Ltac reads_tac :=
  repeat match goal with
  | |- reads (pbind _ _) _ => apply reads_bind; [|intros ?]
  | |- reads (pmap_err _ _) _ => apply reads_map_err
  | |- reads (pret _) _ => apply reads_ret
  | |- reads (pfail _) _ => apply reads_fail
  | |- reads (plift _) _ => apply reads_lift
  | |- reads dec_u8 _ => apply reads_u8
  | |- reads dec_u32 _ => apply reads_u32
  | |- reads dec_u64 _ => apply reads_u64
  | |- reads dec_i64 _ => apply reads_i64
  | |- reads (dec_fixed _) _ => apply reads_array
  | |- reads dec_string _ => apply reads_string
  | |- reads dec_sized_bytes _ => apply reads_sized_bytes
  end.
