(* ===== verification/Path.v ===== *)
(** path.rs: protocol paths, and the index of names that collide locally. *)

From S2P Require Import Prelude Bytes Utf8.

(** The newtype of a [String]; its constructor is private to the module, so
    every value satisfies [path_wf] below. *)
Record ProtocolPath := mkPath { path_str : bytes }.

#[global] Instance path_str_Inj : Inj (=) (=) path_str.
Proof. intros [] []; simpl; congruence. Qed.
#[global] Instance ProtocolPath_eq_dec : EqDecision ProtocolPath.
Proof. solve_decision. Defined.
#[global] Program Instance ProtocolPath_countable : Countable ProtocolPath :=
  inj_countable' path_str mkPath _.
Next Obligation. by intros []. Qed.
#[global] Instance ProtocolPath_ord : Ord ProtocolPath := ord_via path_str.
#[global] Instance ProtocolPath_ord_laws : OrdLaws ProtocolPath := ord_via_laws path_str.

Inductive PathError :=
  | PathInvalidUtf8
  | Empty
  | Absolute
  | Nul
  | EmptyComponent
  | DotComponent
  | DotDotComponent
  | Collision (first second : ProtocolPath).

#[global] Instance PathError_eq_dec : EqDecision PathError.
Proof. solve_decision. Defined.

Definition slash : byte := "/"%byte.

(** [value.split('/')]: always at least one component. *)
Fixpoint split_slash (s : bytes) : list bytes :=
  match s with
  | [] => [[]]
  | b :: s =>
      if bool_decide (b = slash) then [] :: split_slash s
      else match split_slash s with
           | c :: cs => (b :: c) :: cs
           | [] => [[b]]
           end
  end.


(** [Path::components] without the root: no empty ones, and [.] only in front. *)
Definition components (path : bytes) : list bytes :=
  match split_slash path with
  | [] => []
  | first :: rest =>
      (if bool_decide (first = []) then [] else [first])
      ++ List.filter (fun c => negb (bool_decide (c = [])) && negb (bool_decide (c = lit "."))) rest
  end.
Definition is_absolute (path : bytes) : bool :=
  match path with b :: _ => bool_decide (b = slash) | [] => false end.
(** [Path::eq]: the same components, so "/a//b/" is "/a/b". *)
Definition same_path (a b : bytes) : bool :=
  bool_decide (is_absolute a = is_absolute b) && bool_decide (components a = components b).

Fixpoint validate_components (components : list bytes) : result unit PathError :=
  match components with
  | [] => Ok tt
  | component :: rest =>
      if bool_decide (component = lit "") then Err EmptyComponent
      else if bool_decide (component = lit ".") then Err DotComponent
      else if bool_decide (component = lit "..") then Err DotDotComponent
      else validate_components rest
  end.

Definition validate (value : bytes) : result unit PathError :=
  if bool_decide (value = []) then Err Empty
  else if match value with b :: _ => bool_decide (b = slash) | [] => false end then Err Absolute
  else if bool_decide ("000"%byte ∈ value) then Err Nul
  else validate_components (split_slash value).

Definition parse (value : bytes) : result ProtocolPath PathError :=
  let? _ := validate value in Ok (mkPath value).

Definition path_from_utf8 (value : bytes) : result ProtocolPath PathError :=
  if utf8_valid value then parse value else Err PathInvalidUtf8.

(** The invariant of the newtype. *)
Definition path_wf (p : ProtocolPath) : Prop :=
  validate (path_str p) = Ok tt /\ utf8_valid (path_str p) = true.

(** ** Joining to a root: [PathBuf::push] of each component *)

Definition ends_with_slash (s : bytes) : bool :=
  match last s with Some b => bool_decide (b = slash) | None => false end.

Definition pathbuf_push (buffer component : bytes) : bytes :=
  if match component with b :: _ => bool_decide (b = slash) | [] => false end then component
  else if bool_decide (buffer = []) || ends_with_slash buffer then buffer ++ component
  else buffer ++ slash :: component.

Definition under (root : bytes) (p : ProtocolPath) : bytes :=
  fold_left pathbuf_push (split_slash (path_str p)) root.

(** ** Local names *)

Inductive FilenameComparison :=
  | CaseSensitive
  | CaseInsensitive
  | NormalizationInsensitive
  | CaseAndNormalizationInsensitive.

#[global] Instance FilenameComparison_eq_dec : EqDecision FilenameComparison.
Proof. solve_decision. Defined.

(** The Unicode tables: [str::to_lowercase], and the canonical decomposition
    of the unicode_normalization crate, alone and followed by
    [char::to_lowercase]. *)
Class Unicode := {
  to_lowercase : bytes -> bytes;
  nfd : bytes -> bytes;
  nfd_to_lowercase : bytes -> bytes;
}.

Record LocalPathIndex := mkIndex {
  comparison_of : FilenameComparison;
  index_paths : gmap bytes ProtocolPath;
}.

Section index.
Context `{Unicode}.

Definition comparison_key (value : bytes) (comparison : FilenameComparison) : bytes :=
  match comparison with
  | CaseSensitive => value
  | CaseInsensitive => to_lowercase value
  | NormalizationInsensitive => nfd value
  | CaseAndNormalizationInsensitive => nfd_to_lowercase value
  end.

Definition index_new (comparison : FilenameComparison) : LocalPathIndex := mkIndex comparison ∅.

Definition index_insert (index : LocalPathIndex) (path : ProtocolPath)
    : result LocalPathIndex PathError :=
  let key := comparison_key (path_str path) (comparison_of index) in
  let stored := mkIndex (comparison_of index) (<[key := path]> (index_paths index)) in
  match index_paths index !! key with
  | Some existing =>
      if bool_decide (existing <> path) then Err (Collision existing path) else Ok stored
  | None => Ok stored
  end.
End index.

(** ** Lemmas *)

Lemma split_slash_cons b s c cs :
  split_slash s = c :: cs -> b <> slash -> split_slash (b :: s) = (b :: c) :: cs.
Proof. intros H Hb. simpl. by rewrite bool_decide_eq_false_2, H. Qed.

Lemma split_slash_nonempty s : split_slash s <> [].
Proof.
  destruct s as [|b s]; simpl; [done|]. case_bool_decide; [done|]. by destruct (split_slash s).
Qed.

Lemma split_slash_none s : slash ∉ s -> split_slash s = [s].
Proof.
  induction s as [|b s IH]; simpl; [done|]. intros Hs. rewrite bool_decide_eq_false_2 by set_solver.
  by rewrite IH by set_solver.
Qed.

(** Joining the components back with the separator. *)
Fixpoint join_slash (cs : list bytes) : bytes :=
  match cs with
  | [] => []
  | [c] => c
  | c :: cs => c ++ slash :: join_slash cs
  end.

Lemma join_split s : join_slash (split_slash s) = s.
Proof.
  induction s as [|b s IH]; simpl; [done|]. case_bool_decide as Hb.
  - subst. destruct (split_slash s) as [|c cs] eqn:E; [by apply split_slash_nonempty in E|].
    by rewrite <-IH.
  - destruct (split_slash s) as [|c cs] eqn:E; [by apply split_slash_nonempty in E|].
    rewrite <-IH. by destruct cs.
Qed.

Lemma split_slash_no_slash s : Forall (fun c => slash ∉ c) (split_slash s).
Proof.
  induction s as [|b s IH]; simpl.
  - constructor; [set_solver | constructor].
  - case_bool_decide; [constructor; [set_solver | done]|].
    destruct (split_slash s) as [|c cs]; [constructor; set_solver|].
    inversion IH; subst. constructor; [|done]. set_solver.
Qed.

(** A component the protocol accepts. *)
Definition normal_component (c : bytes) : Prop :=
  c <> [] /\ c <> lit "." /\ c <> lit ".." /\ slash ∉ c.

Lemma validate_components_Ok cs :
  validate_components cs = Ok tt <-> Forall (fun c => c <> [] /\ c <> lit "." /\ c <> lit "..") cs.
Proof.
  induction cs as [|c cs IH]; simpl; [by split|].
  rewrite Forall_cons, <-IH. repeat case_bool_decide; naive_solver.
Qed.

Lemma validate_Ok s :
  validate s = Ok tt <->
  s <> [] /\ head s <> Some slash /\ ("000"%byte ∉ s) /\ Forall normal_component (split_slash s).
Proof.
  assert (Forall normal_component (split_slash s) <-> validate_components (split_slash s) = Ok tt) as ->.
  { rewrite validate_components_Ok. pose proof (split_slash_no_slash s) as Hs.
    rewrite !Forall_forall in *. unfold normal_component. naive_solver. }
  unfold validate. destruct s as [|b s]; simpl head.
  - rewrite bool_decide_eq_true_2 by done. naive_solver.
  - rewrite bool_decide_eq_false_2 by done. repeat case_bool_decide; naive_solver.
Qed.

Lemma parse_Ok s p : parse s = Ok p <-> validate s = Ok tt /\ p = mkPath s.
Proof. unfold parse. destruct (validate s) as [[]|]; simpl; naive_solver. Qed.

Lemma path_from_utf8_wf s p : path_from_utf8 s = Ok p -> path_wf p /\ path_str p = s.
Proof.
  unfold path_from_utf8. destruct (utf8_valid s) eqn:E; [|done].
  rewrite parse_Ok. by intros [? ->].
Qed.

(** The parser accepts exactly the relative paths whose components are
    normal: the parsed path is the input, and every error names the first
    rule of the list that the input breaks. *)
Lemma parse_iff s :
  (exists p, parse s = Ok p) <->
  s <> [] /\ head s <> Some slash /\ ("000"%byte ∉ s) /\ Forall normal_component (split_slash s).
Proof.
  rewrite <-validate_Ok. split.
  - intros [p Hp]. by apply parse_Ok in Hp as [? _].
  - intros Hv. exists (mkPath s). by apply parse_Ok.
Qed.

(** *** [under] stays below the root *)

Lemma pathbuf_push_normal buffer c :
  normal_component c -> buffer <> [] -> ends_with_slash buffer = false ->
  pathbuf_push buffer c = buffer ++ slash :: c /\ ends_with_slash (pathbuf_push buffer c) = false.
Proof.
  intros (Hne & _ & _ & Hns) Hb Hs. unfold pathbuf_push.
  destruct c as [|b c]; [done|]. rewrite (bool_decide_eq_false_2 (b = slash)) by set_solver.
  rewrite bool_decide_eq_false_2, Hs by done. simpl. split; [done|].
  unfold ends_with_slash. rewrite last_app, last_cons.
  destruct (last (b :: c)) as [x|] eqn:E.
  - apply bool_decide_eq_false_2. intros ->. apply last_Some_elem_of in E. set_solver.
  - by apply last_None in E.
Qed.

Lemma under_components root cs :
  Forall normal_component cs -> root <> [] -> ends_with_slash root = false -> cs <> [] ->
  fold_left pathbuf_push cs root = root ++ slash :: join_slash cs.
Proof.
  revert root. induction cs as [|c cs IH]; intros root Hn Hr Hs Hne; [done|].
  inversion Hn as [|? ? Hc Hcs]; subst. simpl fold_left.
  destruct (pathbuf_push_normal root c Hc Hr Hs) as [Hp Hp']. destruct cs as [|c' cs].
  - simpl. done.
  - rewrite IH; try done.
    + rewrite Hp. simpl join_slash. by rewrite <-app_assoc.
    + rewrite Hp. by destruct root.
Qed.

Lemma under_wf root p :
  path_wf p -> root <> [] -> ends_with_slash root = false ->
  under root p = root ++ slash :: path_str p.
Proof.
  intros [Hv _] Hr Hs. apply validate_Ok in Hv as (_ & _ & _ & Hn). unfold under.
  rewrite under_components; [by rewrite join_split | done..| apply split_slash_nonempty].
Qed.

Lemma split_slash_app s t :
  split_slash (s ++ slash :: t) = split_slash s ++ split_slash t.
Proof.
  induction s as [|b s IH]; simpl.
  - done.
  - case_bool_decide; [by rewrite IH|]. rewrite IH.
    destruct (split_slash s) as [|c cs] eqn:E; [by apply split_slash_nonempty in E|]. done.
Qed.

(** Lexical resolution of a component list: [..] removes the last component. *)
Fixpoint resolve (base cs : list bytes) : list bytes :=
  match cs with
  | [] => base
  | c :: cs =>
      if bool_decide (c = lit ".") || bool_decide (c = []) then resolve base cs
      else if bool_decide (c = lit "..") then resolve (removelast base) cs
      else resolve (base ++ [c]) cs
  end.

Lemma resolve_app base cs ds : resolve base (cs ++ ds) = resolve (resolve base cs) ds.
Proof. revert base. induction cs; intros; simpl; [done|]. repeat case_bool_decide; simpl; auto. Qed.

Lemma resolve_normal base cs : Forall normal_component cs -> resolve base cs = base ++ cs.
Proof.
  intros H. revert base. induction H as [|c cs (? & ? & ? & _) Hcs IH]; intros base; simpl.
  - by rewrite app_nil_r.
  - rewrite !bool_decide_eq_false_2 by done. simpl. by rewrite IH, <-app_assoc.
Qed.

(** Invariant 9 of the architecture, lexically: whatever the root, the joined
    path resolves to the root's components followed by those of the path. *)
Lemma under_beneath root p :
  path_wf p -> root <> [] -> ends_with_slash root = false ->
  resolve [] (split_slash (under root p))
  = resolve [] (split_slash root) ++ split_slash (path_str p).
Proof.
  intros Hp Hr Hs. rewrite under_wf, split_slash_app, resolve_app by done.
  apply resolve_normal. destruct Hp as [Hv _]. by apply validate_Ok in Hv as (_ & _ & _ & ?).
Qed.

(** *** Name collisions *)

Section index_laws.
Context `{Unicode}.

(** Every stored path is stored under its own key. *)
Definition index_wf (index : LocalPathIndex) : Prop :=
  forall key path, index_paths index !! key = Some path ->
    key = comparison_key (path_str path) (comparison_of index).

Lemma index_new_wf comparison : index_wf (index_new comparison).
Proof. intros key path. unfold index_new. simpl. by rewrite lookup_empty. Qed.

Lemma index_insert_wf index path index' :
  index_wf index -> index_insert index path = Ok index' -> index_wf index'.
Proof.
  intros Hwf Hi.
  assert (index' = mkIndex (comparison_of index)
    (<[comparison_key (path_str path) (comparison_of index) := path]> (index_paths index))) as ->.
  { unfold index_insert in Hi. repeat case_match; by simplify_eq. }
  intros key p Hp. simpl in *. apply lookup_insert_Some in Hp as [[<- <-]|[_ Hp]]; eauto.
Qed.

(** Inserting succeeds exactly when no other stored path has the same
    comparison key; the error names both paths. *)
Lemma index_insert_spec index path :
  let key := comparison_key (path_str path) (comparison_of index) in
  index_insert index path =
    match index_paths index !! key with
    | Some existing =>
        if bool_decide (existing = path)
        then Ok (mkIndex (comparison_of index) (<[key := path]> (index_paths index)))
        else Err (Collision existing path)
    | None => Ok (mkIndex (comparison_of index) (<[key := path]> (index_paths index)))
    end.
Proof.
  simpl. unfold index_insert. destruct (_ !! _) as [existing|]; [|done].
  repeat case_bool_decide; naive_solver.
Qed.
End index_laws.
