(* ===== verification/Identity.v ===== *)
(** identity.rs: endpoint and group identifiers, the device's signing identity,
    and the hexadecimal form of identifiers.

    BLAKE3 and Ed25519 are the crates blake3 and ed25519_dalek: the class
    [Crypto] has one operation per call the sources make, [CryptoLaws] what
    the documentation of signatures promises.  Nothing is assumed of the hash
    function beyond being a function. *)

From S2P Require Import Prelude Bytes.

(** ** Cryptography of the crates *)

Class Crypto := {
  (** [blake3::hash] *)
  blake3 : bytes -> array 32;
  (** [SigningKey::from_bytes(secret).verifying_key().to_bytes()] *)
  verifying_key : array 32 -> array 32;
  (** [SigningKey::sign(message).to_bytes()] *)
  ed25519_sign : array 32 -> bytes -> array 64;
  (** [VerifyingKey::from_bytes(key).is_ok()] *)
  verifying_key_from_bytes : array 32 -> bool;
  (** [VerifyingKey::verify_strict(message, signature).is_ok()] *)
  verify_strict : array 32 -> bytes -> array 64 -> bool;
}.

Class CryptoLaws `{Crypto} : Prop := {
  verifying_key_valid secret : verifying_key_from_bytes (verifying_key secret) = true;
  sign_verifies secret message :
    verify_strict (verifying_key secret) message (ed25519_sign secret message) = true;
}.

(** No two of the values have the same hash without being equal: what the use
    of a collision resistant hash on these values relies on. *)
Definition collision_free `{Crypto} (values : list bytes) : Prop :=
  forall x y, x ∈ values -> y ∈ values -> blake3 x = blake3 y -> x = y.

(** ** Identifiers *)

Record EndpointId := mkEndpointId { eid : array 32 }.
Record GroupId := mkGroupId { gid : array 32 }.

#[global] Instance eid_Inj : Inj (=) (=) eid.
Proof. intros [] []; simpl; congruence. Qed.
#[global] Instance EndpointId_eq_dec : EqDecision EndpointId.
Proof. solve_decision. Defined.
#[global] Program Instance EndpointId_countable : Countable EndpointId :=
  inj_countable' eid mkEndpointId _.
Next Obligation. by intros []. Qed.
#[global] Instance EndpointId_ord : Ord EndpointId := ord_via eid.
#[global] Instance EndpointId_ord_laws : OrdLaws EndpointId := ord_via_laws eid.
#[global] Instance GroupId_eq_dec : EqDecision GroupId.
Proof. solve_decision. Defined.

(** ** Hexadecimal text *)

Inductive IdentityError :=
  | InvalidSecret
  | InvalidEndpointId.

#[global] Instance IdentityError_eq_dec : EqDecision IdentityError.
Proof. solve_decision. Defined.

(** A nibble in lower case hexadecimal, as [{:02x}] prints it. *)
Definition hex_digit (n : Z) : byte :=
  if n <? 10 then byte_of_Z (0x30 + n) else byte_of_Z (0x61 + n - 10).

(** [Display]: two digits per byte. *)
Definition eid_to_string (e : EndpointId) : bytes :=
  flat_map (fun b => [hex_digit (byteZ b / 16); hex_digit (byteZ b mod 16)]) (arr (eid e)).

Definition hex_nibble (b : byte) : result Z IdentityError :=
  let z := byteZ b in
  if (0x30 <=? z) && (z <=? 0x39) then Ok (z - 0x30)
  else if (0x61 <=? z) && (z <=? 0x66) then Ok (z - 0x61 + 10)
  else if (0x41 <=? z) && (z <=? 0x46) then Ok (z - 0x41 + 10)
  else Err InvalidEndpointId.

(** The loop of [from_str]: two input bytes per output byte. *)
Fixpoint hex_bytes (n : nat) (value : bytes) : result bytes IdentityError :=
  match n, value with
  | S n, high :: low :: rest =>
      let? h := hex_nibble high in
      let? l := hex_nibble low in
      let? tail := hex_bytes n rest in
      Ok (byte_of_Z (Z.lor (Z.shiftl h 4) l) :: tail)
  | _, _ => Ok []
  end.

Definition eid_from_str (value : bytes) : result EndpointId IdentityError :=
  if negb (len value =? 64) then Err InvalidEndpointId
  else
    let? output := hex_bytes 32 value in
    let? a := ok_or (to_array 32 output) InvalidEndpointId in
    Ok (mkEndpointId a).

(** ** The signing identity *)

Record DeviceIdentity := mkIdentity {
  signing_key : array 32;
  endpoint_id : EndpointId;
}.

Section identity.
Context `{Crypto}.

Definition from_secret (secret : array 32) : DeviceIdentity :=
  mkIdentity secret (mkEndpointId (verifying_key secret)).

Definition sign (identity : DeviceIdentity) (message : bytes) : array 64 :=
  ed25519_sign (signing_key identity) message.

Definition identity_from_slice (secret : bytes) : result DeviceIdentity IdentityError :=
  let? secret := ok_or (to_array 32 secret) InvalidSecret in
  Ok (from_secret secret).

(** Every identity is built by [from_secret]. *)
Definition identity_wf (identity : DeviceIdentity) : Prop :=
  endpoint_id identity = mkEndpointId (verifying_key (signing_key identity)).

Lemma from_secret_wf secret : identity_wf (from_secret secret).
Proof. done. Qed.
End identity.

(** ** The hexadecimal round trip *)

Lemma hex_nibble_digit n : 0 <= n < 16 -> hex_nibble (hex_digit n) = Ok n.
Proof.
  intros Hn. assert (Forall (fun m => hex_nibble (hex_digit m) = Ok m)
    [0;1;2;3;4;5;6;7;8;9;10;11;12;13;14;15]) as Hall by (repeat constructor).
  rewrite Forall_forall in Hall. apply Hall. rewrite !elem_of_cons. lia.
Qed.

Lemma nibbles_join b : 0 <= b < 256 -> Z.lor (Z.shiftl (b / 16) 4) (b mod 16) = b.
Proof.
  intros Hb.
  assert (forallb (fun b => Z.lor (Z.shiftl (b / 16) 4) (b mod 16) =? b) (seqZ 0 256) = true) as Hall
    by (vm_compute; reflexivity).
  rewrite forallb_forall in Hall. apply Z.eqb_eq, Hall, list_elem_of_In, elem_of_seqZ. lia.
Qed.

Lemma hex_bytes_to_string l rest :
  hex_bytes (length l)
    (flat_map (fun b => [hex_digit (byteZ b / 16); hex_digit (byteZ b mod 16)]) l ++ rest) = Ok l.
Proof.
  induction l as [|b l IH]; simpl; [done|]. pose proof (byteZ_range b).
  rewrite !hex_nibble_digit by (try apply Z.mod_pos_bound; try split;
    try apply Z.div_pos; try apply Z.div_lt_upper_bound; lia).
  simpl. rewrite IH. simpl. by rewrite nibbles_join, byte_of_byteZ.
Qed.

Lemma flat_map_pair_length {A B} (f g : A -> B) l :
  length (flat_map (fun x => [f x; g x]) l) = (2 * length l)%nat.
Proof. induction l; simpl; lia. Qed.

(** Parsing the printed form of an identifier gives it back. *)
Lemma eid_from_to_string e : eid_from_str (eid_to_string e) = Ok e.
Proof.
  destruct e as [a]. unfold eid_from_str.
  assert (len (eid_to_string (mkEndpointId a)) = 64) as ->.
  { unfold len, eid_to_string. cbn [eid]. by rewrite flat_map_pair_length, arr_length. }
  change (negb (64 =? 64)) with false. cbv iota.
  pose proof (hex_bytes_to_string (arr a) []) as Hx. rewrite app_nil_r, arr_length in Hx.
  unfold eid_to_string. cbn [eid]. rewrite Hx. cbn [rbind]. by rewrite to_array_arr.
Qed.
