(* ===== verification/Concrete.v ===== *)
(** Concrete instances of the interfaces to the crates, on which the examples
    of the development are evaluated.  No theorem about the program is stated
    for these instances in particular. *)

From S2P Require Import Prelude Bytes Path Identity.

(** A polynomial hash, and keys whose signature is the key and the hash. *)
Definition toy_mask : Z := Eval vm_compute in Z.ones 32.
Definition toy_hash (l : bytes) : Z :=
  fold_left (fun acc b => Z.land (acc * 257 + byteZ b + 1) toy_mask) l 7.

Definition array_of (n : nat) (l : bytes) : array n := default (array_repeat n "000"%byte) (to_array n l).

Definition toy_blake3 (l : bytes) : array 32 := array_of 32 (be_bytes 32 (toy_hash l)).

Definition toy_sign (key : array 32) (message : bytes) : array 64 :=
  array_of 64 (arr key ++ arr (toy_blake3 message)).

Definition toy_crypto : Crypto := {|
  blake3 := toy_blake3;
  verifying_key := fun secret => secret;
  ed25519_sign := toy_sign;
  verifying_key_from_bytes := fun _ => true;
  verify_strict := fun key message signature => bool_decide (signature = toy_sign key message);
|}.

Lemma toy_crypto_laws : @CryptoLaws toy_crypto.
Proof. split; [done|]. intros secret message. by apply bool_decide_eq_true. Qed.

(** Names on a file system that folds nothing. *)
Definition plain_unicode : Unicode := {|
  to_lowercase := fun s => s;
  nfd := fun s => s;
  nfd_to_lowercase := fun s => s;
|}.

(** Endpoints, whose identifier repeats one byte, and small records. *)
Definition toy_endpoint (b : byte) : EndpointId := mkEndpointId (array_repeat 32 b).
Definition toy_identity (b : byte) : DeviceIdentity := @from_secret toy_crypto (array_repeat 32 b).
Definition toy_content (b : byte) : array 32 := array_repeat 32 b.

Lemma collision_free_decide `{Crypto} (values : list bytes) :
  bool_decide (Forall (fun x => Forall (fun y => blake3 x = blake3 y -> x = y) values) values) = true ->
  collision_free values.
Proof.
  intros Hall%bool_decide_eq_true x y Hx Hy. rewrite Forall_forall in Hall.
  specialize (Hall x Hx). rewrite Forall_forall in Hall. auto.
Qed.
