(* ===== verification/Records.v ===== *)
(** record.rs: records, their canonical form, the winner order, manifests. *)

From S2P Require Import Prelude Bytes Utf8 Cursor Canonical Path Identity Concrete.

Definition RECORD_DOMAIN : bytes := lit "skillsync-record-v1" ++ ["000"%byte].
Definition MANIFEST_DOMAIN : bytes := lit "skillsync-manifest-v1" ++ ["000"%byte].

Inductive RecordKind :=
  | File (size : Z) (content_hash : array 32)
  | Tombstone.

#[global] Instance RecordKind_eq_dec : EqDecision RecordKind.
Proof. solve_decision. Defined.

(** [struct Record] *)
Record record := mkRecord {
  rec_collection : bytes;
  rec_path : ProtocolPath;
  rec_modified_ns : Z;
  rec_author : EndpointId;
  rec_kind : RecordKind;
}.

#[global] Instance record_eq_dec : EqDecision record.
Proof. solve_decision. Defined.

Inductive RecordError :=
  | EmptyCollection
  | RecordLengthOverflow
  | FileTooLarge
  | DuplicatePath
  | ManifestLimit
  | RecordCanonical (e : CanonicalError)
  | RecordPath (e : PathError).

#[global] Instance RecordError_eq_dec : EqDecision RecordError.
Proof. solve_decision. Defined.

Definition ensure_u32_length (length : Z) : result unit RecordError :=
  let? _ := ok_or (u32_try_from length) RecordLengthOverflow in Ok tt.

(** [Record::new], which [Record::file] and [Record::tombstone] call. *)
Definition record_new (collection : bytes) (path : ProtocolPath) (modified_ns : Z)
    (author : EndpointId) (kind : RecordKind) : result record RecordError :=
  if bool_decide (collection = []) then Err EmptyCollection
  else
    let? _ := ensure_u32_length (len collection) in
    let? _ := ensure_u32_length (len (path_str path)) in
    let? _ := match kind with
              | File size _ => let? _ := ok_or (i64_try_from size) FileTooLarge in Ok tt
              | Tombstone => Ok tt
              end in
    Ok (mkRecord collection path modified_ns author kind).

Definition record_file collection path modified_ns author size content_hash :=
  record_new collection path modified_ns author (File size content_hash).
Definition record_tombstone collection path modified_ns author :=
  record_new collection path modified_ns author Tombstone.

Definition encode_kind (e : Encoder) (kind : RecordKind) : Encoder :=
  match kind with
  | Tombstone => enc_u8 e 0
  | File size content_hash => enc_fixed (enc_u64 (enc_u8 e 1) size) (arr content_hash)
  end.

(** The steps of [Record::canonical_bytes]; an [Err] is the panic of an
    [expect]. *)
Definition record_encode (r : record) : result bytes CanonicalError :=
  let encoder := enc_new RECORD_DOMAIN in
  let? encoder := enc_string encoder (rec_collection r) in
  let? encoder := enc_string encoder (path_str (rec_path r)) in
  let encoder := enc_i64 encoder (rec_modified_ns r) in
  let encoder := enc_fixed encoder (arr (eid (rec_author r))) in
  Ok (enc_finish (encode_kind encoder (rec_kind r))).

Definition expect_bytes {E} (r : result bytes E) : bytes :=
  match r with Ok l => l | Err _ => [] end.

Definition record_canonical_bytes (r : record) : bytes := expect_bytes (record_encode r).

Definition up_record {A} : decoder A -> parser RecordError A := pmap_err RecordCanonical.

Definition decode_kind : parser RecordError RecordKind :=
  tag <~ up_record dec_u8 ;;
  if tag =? 0 then pret Tombstone
  else if tag =? 1 then
    size <~ up_record dec_u64 ;;
    content_hash <~ up_record (dec_fixed 32) ;;
    pret (File size content_hash)
  else pfail (RecordCanonical UnknownTag).

Definition decode_record_fields : parser RecordError record :=
  collection <~ up_record dec_string ;;
  text <~ up_record dec_string ;;
  path <~ plift (map_err RecordPath (parse text)) ;;
  modified_ns <~ up_record dec_i64 ;;
  author <~ up_record (dec_fixed 32) ;;
  kind <~ decode_kind ;;
  pret (mkRecord collection path modified_ns (mkEndpointId author) kind).

Definition record_from_canonical (l : bytes) : result record RecordError :=
  let? r := decode_with RecordCanonical RECORD_DOMAIN decode_record_fields l in
  record_new (rec_collection r) (rec_path r) (rec_modified_ns r) (rec_author r) (rec_kind r).

(** [RecordHash] *)
Record RecordHash := mkRecordHash { rhash : array 32 }.

#[global] Instance rhash_Inj : Inj (=) (=) rhash.
Proof. intros [] []; simpl; congruence. Qed.
#[global] Instance RecordHash_eq_dec : EqDecision RecordHash.
Proof. solve_decision. Defined.
#[global] Instance RecordHash_ord : Ord RecordHash := ord_via rhash.
#[global] Instance RecordHash_ord_laws : OrdLaws RecordHash := ord_via_laws rhash.

Definition record_canonical_hash `{Crypto} (r : record) : RecordHash :=
  mkRecordHash (blake3 (record_canonical_bytes r)).

Definition compare_winner `{Crypto} (r other : record) : comparison :=
  then_with
    (then_with (cmp (rec_modified_ns r) (rec_modified_ns other))
               (cmp (rec_author r) (rec_author other)))
    (cmp (record_canonical_hash r) (record_canonical_hash other)).

(** ** Manifests *)

Record Manifest := mkManifest { manifest_records : list record }.

#[global] Instance Manifest_eq_dec : EqDecision Manifest.
Proof. solve_decision. Defined.

Definition record_key (r : record) : bytes * ProtocolPath := (rec_collection r, rec_path r).

(** The [BTreeSet] of keys seen so far; [insert] is false on a key it has. *)
Fixpoint insert_keys (keys : gset (bytes * ProtocolPath)) (records : list record)
    : result unit RecordError :=
  match records with
  | [] => Ok tt
  | r :: records =>
      if bool_decide (record_key r ∈ keys) then Err DuplicatePath
      else insert_keys ({[record_key r]} ∪ keys) records
  end.

Definition manifest_new (records : list record) : result Manifest RecordError :=
  let records := sort_by record_key records in
  let? _ := insert_keys ∅ records in
  Ok (mkManifest records).

Fixpoint encode_records (e : Encoder) (records : list record) : result Encoder CanonicalError :=
  match records with
  | [] => Ok e
  | r :: records =>
      let? canonical := record_encode r in
      let? e := enc_sized_bytes e canonical in
      encode_records e records
  end.

(** The steps of [Manifest::canonical_bytes]; an [Err] is the panic of an
    [expect]. *)
Definition manifest_encode (m : Manifest) : result bytes CanonicalError :=
  let encoder := enc_new MANIFEST_DOMAIN in
  let? count := ok_or (u32_try_from (len (manifest_records m))) LengthOverflow in
  let? encoder := encode_records (enc_u32 encoder count) (manifest_records m) in
  Ok (enc_finish encoder).

Definition manifest_canonical_bytes (m : Manifest) : bytes := expect_bytes (manifest_encode m).

Definition decode_manifest_records (max_records : Z) : parser RecordError (list record) :=
  count <~ up_record dec_u32 ;;
  if max_records <? count then pfail ManifestLimit
  else prepeat (Z.to_nat count)
         (canonical <~ up_record dec_sized_bytes ;; plift (record_from_canonical canonical)).

Definition manifest_from_canonical_with_limit (l : bytes) (max_records : Z)
    : result Manifest RecordError :=
  let? records := decode_with RecordCanonical MANIFEST_DOMAIN (decode_manifest_records max_records) l in
  let? manifest := manifest_new records in
  if bool_decide (manifest_canonical_bytes manifest <> l)
  then Err (RecordCanonical UnorderedKeys) else Ok manifest.

Definition manifest_from_canonical (l : bytes) : result Manifest RecordError :=
  manifest_from_canonical_with_limit l usize_max.

(** ** Well-formed records *)

Definition kind_raw (k : RecordKind) : Prop :=
  match k with File size _ => in_u64 size = true | Tombstone => True end.

(** What the field types and the decoder guarantee. *)
Definition record_raw (r : record) : Prop :=
  utf8_valid (rec_collection r) = true /\ in_u32 (len (rec_collection r)) = true /\
  path_wf (rec_path r) /\ in_u32 (len (path_str (rec_path r))) = true /\
  in_i64 (rec_modified_ns r) = true /\ kind_raw (rec_kind r).

(** What [record_new] adds: the invariant of the type. *)
Definition kind_ok (k : RecordKind) : Prop :=
  match k with File size _ => 0 <= size < 2 ^ 63 | Tombstone => True end.
Definition record_wf (r : record) : Prop :=
  record_raw r /\ rec_collection r <> [] /\ kind_ok (rec_kind r).

#[global] Instance kind_raw_dec k : Decision (kind_raw k).
Proof. unfold kind_raw. destruct k; apply _. Defined.
#[global] Instance kind_ok_dec k : Decision (kind_ok k).
Proof. unfold kind_ok. destruct k; apply _. Defined.
#[global] Instance record_wf_dec r : Decision (record_wf r).
Proof. unfold record_wf, record_raw, path_wf. apply _. Defined.

Lemma ensure_u32_length_Ok n : ensure_u32_length n = Ok tt <-> in_u32 n = true.
Proof. unfold ensure_u32_length, u32_try_from. destruct (in_u32 n); simpl; naive_solver. Qed.

(** The constructor returns a record exactly when the fields satisfy the
    invariant, and then a record of just these fields. *)
Lemma record_new_Ok r r' :
  record_raw r ->
  record_new (rec_collection r) (rec_path r) (rec_modified_ns r) (rec_author r) (rec_kind r) = Ok r'
  <-> r' = r /\ record_wf r.
Proof.
  intros Hraw. pose proof Hraw as (_ & Hc & _ & Hp & _ & Hk). unfold record_new, record_wf.
  case_bool_decide as He; [naive_solver|].
  rewrite (proj2 (ensure_u32_length_Ok _) Hc), (proj2 (ensure_u32_length_Ok _) Hp).
  destruct r as [c p t a [size h|]]; simpl in *; [|naive_solver].
  unfold i64_try_from, in_i64, i64_min, i64_max, in_u64 in *. boolp.
  destruct (Z.leb_spec size (2 ^ 63 - 1)).
  - rewrite (proj2 (Z.leb_le (- 2 ^ 63) size)) by lia. simpl. naive_solver lia.
  - rewrite andb_false_r. simpl. naive_solver lia.
Qed.

(** ** The record codec *)

Definition kind_encoding (k : RecordKind) : bytes :=
  match k with
  | Tombstone => [byte_of_Z 0]
  | File size h => [byte_of_Z 1] ++ u64_be size ++ arr h
  end.

Definition record_encoding (r : record) : bytes :=
  sized (rec_collection r) ++ sized (path_str (rec_path r)) ++ i64_be (rec_modified_ns r)
  ++ arr (eid (rec_author r)) ++ kind_encoding (rec_kind r).

Lemma record_encode_Ok r :
  record_raw r -> record_encode r = Ok (RECORD_DOMAIN ++ record_encoding r).
Proof.
  intros (_ & Hc & _ & Hp & _ & _). unfold record_encode.
  rewrite enc_string_Ok by done. cbn [rbind]. rewrite enc_string_Ok by done. cbn [rbind].
  f_equal. unfold record_encoding, enc_new, enc_i64, enc_fixed, enc_finish. cbn [enc_bytes].
  destruct (rec_kind r); cbn [encode_kind enc_u8 enc_u64 enc_fixed enc_bytes kind_encoding];
    by rewrite <-!app_assoc.
Qed.

(** The [expect]s of [canonical_bytes] do not panic on a well-formed record. *)
Lemma record_canonical_bytes_eq r :
  record_raw r -> record_canonical_bytes r = RECORD_DOMAIN ++ record_encoding r.
Proof. intros H. unfold record_canonical_bytes. by rewrite record_encode_Ok. Qed.

Lemma reads_kind : reads decode_kind (fun k enc => kind_raw k /\ enc = kind_encoding k).
Proof.
  eapply reads_iff.
  { apply reads_bind with (S := fun t k enc =>
      t = 0 /\ k = Tombstone /\ enc = [] \/
      t = 1 /\ exists size h, k = File size h /\ in_u64 size = true /\ enc = u64_be size ++ arr h);
      [apply reads_map_err, reads_u8|].
    intros t. destruct (Z.eqb_spec t 0) as [->|H0]; [|destruct (Z.eqb_spec t 1) as [->|H1]].
    - eapply reads_iff; [apply reads_ret|]. intros k enc; split.
      + intros [-> ->]. by left.
      + by intros [(_ & -> & ->)|[? _]].
    - eapply reads_iff; [unfold up_record; reads_tac|]. intros k enc; split.
      + intros (size & e1 & e2 & -> & [Hs ->] & h & e3 & e4 & -> & Hh & -> & ->).
        unfold R_fixed in Hh. subst. rewrite app_nil_r. right. split; [done|].
        exists size, h. repeat split; auto.
      + intros [[? _]|(_ & size & h & -> & Hs & ->)]; [lia|].
        exists size, (u64_be size), (arr h). split; [done|]. split; [done|].
        exists h, (arr h), []. by rewrite app_nil_r.
    - eapply reads_iff; [apply reads_fail|]. intros k enc; split; [done|].
      by intros [[? _]|[? _]]. }
  intros k enc; split.
  - intros (t & e1 & e2 & -> & [_ ->] & [(-> & -> & ->)|(-> & size & h & -> & Hs & ->)]); by split.
  - intros [Hk ->]. destruct k as [size h|].
    + exists 1, [byte_of_Z 1], (u64_be size ++ arr h). repeat split. right. split; [done|]. by exists size, h.
    + exists 0, [byte_of_Z 0], []. repeat split. by left.
Qed.

Lemma reads_record_fields :
  reads decode_record_fields (fun r enc => record_raw r /\ enc = record_encoding r).
Proof.
  eapply reads_iff; [unfold decode_record_fields, up_record; reads_tac; apply reads_kind|].
  intros r enc; split.
  - intros (c & e1 & ? & -> & (Hc & Hcl & ->) & t & e2 & ? & -> & (Ht & Htl & ->) &
      p & e3 & ? & -> & [Hp ->] & m & e4 & ? & -> & [Hm ->] & a & e5 & ? & -> & Ha & 
      k & e6 & ? & -> & [Hk ->] & -> & ->).
    unfold R_fixed in Ha. subst. apply map_err_Ok, parse_Ok in Hp as [Hp ->].
    split; [repeat split; done|]. unfold record_encoding. simpl. by rewrite app_nil_r.
  - intros [(Hc & Hcl & [Hp Hpu] & Hpl & Hm & Hk) ->]. destruct r as [c [t] m [a] k]; simpl in *.
    exists c, (sized c), (sized t ++ i64_be m ++ arr a ++ kind_encoding k).
    split; [done|]. split; [done|].
    exists t, (sized t), (i64_be m ++ arr a ++ kind_encoding k).
    split; [done|]. split; [done|].
    exists (mkPath t), [], (i64_be m ++ arr a ++ kind_encoding k).
    split; [done|]. split; [split; [by apply map_err_Ok, parse_Ok | done]|].
    exists m, (i64_be m), (arr a ++ kind_encoding k). split; [done|]. split; [done|].
    exists a, (arr a), (kind_encoding k). split; [done|]. split; [done|].
    exists k, (kind_encoding k), []. by rewrite app_nil_r.
Qed.

Lemma sized_len l : len (sized l) = 4 + len l.
Proof. unfold sized. by autorewrite with skillsync_len. Qed.
#[export] Hint Rewrite sized_len : skillsync_len.

Lemma kind_encoding_bound k : 0 <= len (kind_encoding k) <= 41.
Proof. destruct k as [size h|]; unfold kind_encoding; autorewrite with skillsync_len; lia. Qed.

Lemma record_encoding_bound r :
  0 <= len (record_encoding r) <= len (rec_collection r) + len (path_str (rec_path r)) + 89.
Proof.
  unfold record_encoding. autorewrite with skillsync_len.
  pose proof (kind_encoding_bound (rec_kind r)). pose proof (len_nonneg (rec_collection r)).
  pose proof (len_nonneg (path_str (rec_path r))). lia.
Qed.

Lemma record_encoding_addressable r : record_raw r -> addressable (RECORD_DOMAIN ++ record_encoding r).
Proof.
  intros (_ & Hc & _ & Hp & _ & _). unfold in_u32, addressable in *. boolp.
  rewrite len_app. change (len RECORD_DOMAIN) with 20. pose proof (record_encoding_bound r). lia.
Qed.

(** The decoder accepts exactly the canonical encodings of well-formed records. *)
Lemma record_from_canonical_iff l r :
  record_from_canonical l = Ok r <-> record_wf r /\ record_canonical_bytes r = l.
Proof.
  unfold record_from_canonical. split.
  - intros H. inv_ok. apply (decode_with_sound _ _ _ _ _ _ reads_record_fields) in H0
      as (enc & -> & Hraw & ->).
    apply record_new_Ok in H as [-> Hwf]; [|done]. split; [done|]. by apply record_canonical_bytes_eq.
  - intros [Hwf <-]. pose proof Hwf as [Hraw _]. rewrite record_canonical_bytes_eq by done.
    rewrite (proj2 (decode_with_Ok _ _ _ _ _ r reads_record_fields
      (record_encoding_addressable r Hraw))) by eauto.
    by apply record_new_Ok.
Qed.

Lemma record_canonical_bytes_inj r s :
  record_wf r -> record_wf s -> record_canonical_bytes r = record_canonical_bytes s -> r = s.
Proof.
  intros Hr Hs E. assert (Ok (E := RecordError) r = Ok s) as [= ->]; [|done].
  rewrite <-(proj2 (record_from_canonical_iff _ r) (conj Hr eq_refl)).
  by rewrite E, (proj2 (record_from_canonical_iff _ s) (conj Hs eq_refl)).
Qed.

(** ** The winner order *)

Section winner.
Context `{Crypto}.

(** [compare_winner] is the comparison of a key. *)
Definition winner_key (r : record) : (Z * EndpointId) * RecordHash :=
  ((rec_modified_ns r, rec_author r), record_canonical_hash r).

Lemma compare_winner_key r s : compare_winner r s = cmp (winner_key r) (winner_key s).
Proof. reflexivity. Qed.

(** The hash separates the well-formed records of a set. *)
Definition hash_separates (rs : list record) : Prop :=
  Forall record_wf rs /\ collision_free (map record_canonical_bytes rs).

Lemma winner_key_inj rs r s :
  hash_separates rs -> r ∈ rs -> s ∈ rs -> winner_key r = winner_key s -> r = s.
Proof.
  intros [Hwf Hcf] Hr Hs [= _ _ Hh]. rewrite Forall_forall in Hwf.
  apply record_canonical_bytes_inj; [by apply Hwf..|].
  apply Hcf; [by apply list_elem_of_fmap_2..|]. done.
Qed.

Lemma compare_winner_Eq rs r s :
  hash_separates rs -> r ∈ rs -> s ∈ rs -> compare_winner r s = Eq <-> r = s.
Proof.
  intros Hrs Hr Hs. rewrite compare_winner_key, cmp_Eq. split; [|congruence].
  by apply (winner_key_inj rs).
Qed.
End winner.

(** ** Manifests *)

Lemma insert_keys_Ok keys rs :
  insert_keys keys rs = Ok tt <->
  NoDup (map record_key rs) /\ forall r, r ∈ rs -> record_key r ∉ keys.
Proof.
  revert keys. induction rs as [|r rs IH]; intros keys; simpl.
  - split; [|done]. intros _. split; [constructor|]. by intros r H%not_elem_of_nil.
  - case_bool_decide as Hr.
    + split; [done|]. intros [_ Hk]. exfalso. apply (Hk r); [left|done].
    + rewrite IH, NoDup_cons. setoid_rewrite elem_of_cons. split.
      * intros [Hn Hk]. split; [split; [|done]|].
        -- intros (s & E & Hs)%list_elem_of_fmap. apply (Hk s); [done|]. rewrite E. set_solver.
        -- intros s [->|Hs]; [done|]. specialize (Hk s Hs). set_solver.
      * intros [[Hn Hd] Hk]. split; [done|]. intros s Hs Hin. apply elem_of_union in Hin as [Hin|Hin].
        -- apply elem_of_singleton in Hin. apply Hn. rewrite <-Hin. by apply list_elem_of_fmap_2.
        -- by apply (Hk s); [right|].
Qed.

Lemma insert_keys_Err keys rs e : insert_keys keys rs = Err e -> e = DuplicatePath.
Proof. revert keys. induction rs as [|r rs IH]; simpl; [done|]. intros keys H. case_bool_decide; naive_solver. Qed.

Lemma manifest_new_Err rs : ~ NoDup (map record_key rs) -> manifest_new rs = Err DuplicatePath.
Proof.
  assert (map record_key (sort_by record_key rs) ≡ₚ map record_key rs) as Hperm
    by (apply Permutation_map, sort_by_perm).
  rewrite <-Hperm. unfold manifest_new. intros Hd.
  destruct (insert_keys ∅ (sort_by record_key rs)) as [[]|e] eqn:E; simpl.
  - by apply insert_keys_Ok in E as [? _].
  - by apply insert_keys_Err in E as ->.
Qed.

(** The constructor sorts, and refuses exactly the lists that repeat a key. *)
Lemma manifest_new_Ok rs m :
  manifest_new rs = Ok m <-> m = mkManifest (sort_by record_key rs) /\ NoDup (map record_key rs).
Proof.
  assert (map record_key (sort_by record_key rs) ≡ₚ map record_key rs) as Hperm
    by (apply Permutation_map, sort_by_perm).
  unfold manifest_new. destruct (insert_keys ∅ (sort_by record_key rs)) as [[]|e] eqn:E; simpl.
  - apply insert_keys_Ok in E as [Hd _]. rewrite Hperm in Hd. naive_solver.
  - split; [done|]. intros [_ Hd]. exfalso.
    assert (insert_keys ∅ (sort_by record_key rs) = Ok tt) as ?; [|congruence].
    apply insert_keys_Ok. rewrite Hperm. split; [done|]. intros r _. apply not_elem_of_empty.
Qed.

Definition manifest_ordered (m : Manifest) : Prop :=
  StronglySorted (key_lt record_key) (manifest_records m).

Lemma manifest_new_ordered rs m : manifest_new rs = Ok m -> manifest_ordered m.
Proof. intros [-> Hd]%manifest_new_Ok. by apply sort_by_strict. Qed.

Lemma manifest_new_id m : manifest_ordered m -> manifest_new (manifest_records m) = Ok m.
Proof.
  intros Hm. apply manifest_new_Ok. rewrite sort_by_id by done.
  split; [by destruct m | by apply strict_NoDup].
Qed.

(** What an entry of an encodable manifest satisfies.  The bound is a real
    condition: [u32::MAX] bounds each field of a record, not their sum. *)
Definition entry_wf (r : record) : Prop :=
  record_wf r /\ in_u32 (len (record_canonical_bytes r)) = true.

Definition manifest_wf (m : Manifest) : Prop :=
  Forall entry_wf (manifest_records m) /\ manifest_ordered m /\
  in_u32 (len (manifest_records m)) = true.

Definition entries_encoding (rs : list record) : bytes :=
  u32_be (len rs) ++ concat (map (fun r => sized (record_canonical_bytes r)) rs).

Lemma encode_records_Ok rs e :
  Forall entry_wf rs ->
  encode_records e rs
  = Ok (mkEncoder (enc_bytes e ++ concat (map (fun r => sized (record_canonical_bytes r)) rs))).
Proof.
  intros H. revert e. induction H as [|r rs [[Hr _] Hl] _ IH]; intros e; simpl.
  - rewrite app_nil_r. by destruct e.
  - rewrite record_encode_Ok by done. cbn [rbind]. rewrite <-record_canonical_bytes_eq by done.
    rewrite enc_sized_bytes_Ok by done. cbn [rbind]. rewrite IH. cbn [enc_bytes]. by rewrite <-app_assoc.
Qed.

Lemma manifest_encode_Ok m :
  Forall entry_wf (manifest_records m) -> in_u32 (len (manifest_records m)) = true ->
  manifest_encode m = Ok (MANIFEST_DOMAIN ++ entries_encoding (manifest_records m)).
Proof.
  intros Hm Hl. unfold manifest_encode, u32_try_from. rewrite Hl. cbn [ok_or rbind].
  rewrite encode_records_Ok by done. cbn [rbind]. unfold entries_encoding, enc_finish, enc_u32, enc_new.
  cbn [enc_bytes]. by rewrite <-app_assoc.
Qed.

Lemma manifest_canonical_bytes_eq m :
  Forall entry_wf (manifest_records m) -> in_u32 (len (manifest_records m)) = true ->
  manifest_canonical_bytes m = MANIFEST_DOMAIN ++ entries_encoding (manifest_records m).
Proof. intros Hm Hl. unfold manifest_canonical_bytes. by rewrite manifest_encode_Ok. Qed.

Definition decode_entry : parser RecordError record :=
  canonical <~ up_record dec_sized_bytes ;; plift (record_from_canonical canonical).

Lemma reads_entry :
  reads decode_entry (fun r enc => entry_wf r /\ enc = sized (record_canonical_bytes r)).
Proof.
  eapply reads_iff; [unfold decode_entry, up_record; reads_tac|]. intros r enc; unfold R_sized; split.
  - intros (l & e1 & e2 & -> & [Hl ->] & [Hr <-]%record_from_canonical_iff & ->).
    by rewrite app_nil_r.
  - intros [[Hr Hl] ->]. exists (record_canonical_bytes r), (sized (record_canonical_bytes r)), [].
    rewrite app_nil_r. split; [done|]. split; [done|]. split; [|done].
    by apply record_from_canonical_iff.
Qed.

Lemma reads_manifest_records limit :
  reads (decode_manifest_records limit) (fun rs enc =>
    Forall entry_wf rs /\ in_u32 (len rs) = true /\ len rs <= limit /\ enc = entries_encoding rs).
Proof.
  eapply reads_iff.
  { unfold decode_manifest_records, up_record. apply reads_bind with (S := fun n rs enc =>
      n <= limit /\ length rs = Z.to_nat n /\ Forall entry_wf rs /\
      enc = concat (map (fun r => sized (record_canonical_bytes r)) rs)); [reads_tac|].
    intros n. destruct (Z.ltb_spec limit n) as [Hn|Hn].
    - eapply reads_iff; [apply reads_fail|]. intros rs enc; split; [done|]. intros [? _]. lia.
    - eapply reads_iff; [apply (reads_repeat_map decode_entry), reads_entry|]. intros rs enc. tauto. }
  intros rs enc; unfold entries_encoding; split.
  - intros (n & e1 & e2 & -> & [Hn ->] & Hl & Hlen & Hw & ->). assert (n = len rs) as ->.
    { unfold in_u32 in Hn. boolp. unfold len. lia. }
    done.
  - intros (Hw & Hl & Hlim & ->). exists (len rs), (u32_be (len rs)). eexists. split; [done|].
    split; [done|]. repeat split; auto. unfold len. by rewrite Nat2Z.id.
Qed.

(** The manifest decoder accepts exactly the canonical encodings of ordered
    manifests within the receiver's limit. *)
Lemma manifest_from_canonical_iff l limit m :
  addressable l ->
  manifest_from_canonical_with_limit l limit = Ok m <->
  manifest_wf m /\ len (manifest_records m) <= limit /\ manifest_canonical_bytes m = l.
Proof.
  intros Hl. unfold manifest_from_canonical_with_limit, manifest_wf. split.
  - intros H. inv_ok. 
    apply (decode_with_sound _ _ _ _ _ _ (reads_manifest_records limit)) in H0
      as (enc & -> & Hw & Hn & Hlim & ->).
    apply manifest_new_Ok in H1 as [Hm Hd]. rewrite Hm in *. cbn [manifest_records].
    case_bool_decide as Hc; [done|]. inv_ok.
    assert (length (sort_by record_key x) = length x) as Hlen by (apply Permutation_length, sort_by_perm).
    split; [split; [|split]|split].
    + by rewrite sort_by_perm.
    + by apply sort_by_strict.
    + unfold len. by rewrite Hlen.
    + unfold len. by rewrite Hlen.
    + done.
  - intros ((Hw & Ho & Hn) & Hlim & E). pose proof (manifest_canonical_bytes_eq m Hw Hn) as E'.
    rewrite (proj2 (decode_with_Ok _ _ _ _ _ (manifest_records m) (reads_manifest_records limit) Hl)).
    + cbn [rbind]. rewrite manifest_new_id by done. cbn [rbind]. by rewrite bool_decide_eq_false_2 by auto.
    + exists (entries_encoding (manifest_records m)). rewrite <-E, E'. auto.
Qed.

(** ** Properties *)

(** C40: Records have one encoding.  A well-formed record is encoded without a
    panic and decoding its canonical bytes gives it back; and whatever bytes the
    decoder accepts are the canonical bytes of the well-formed record it
    returns, so equal records have equal hashes. *)
Theorem record_codec l r :
  (record_wf r ->
   record_encode r = Ok (record_canonical_bytes r) /\ record_from_canonical (record_canonical_bytes r) = Ok r) /\
  (record_from_canonical l = Ok r -> record_wf r /\ record_canonical_bytes r = l).
Proof.
  split; [|apply record_from_canonical_iff]. intros Hr. split; [|by apply record_from_canonical_iff].
  destruct Hr as [Hr _]. by rewrite record_canonical_bytes_eq, record_encode_Ok.
Qed.

(** Manifests have one encoding.  A manifest of well-formed records with
    distinct keys in key order, each of which fits its length prefix, is
    accepted by a receiver whose limit it respects, who gets the same manifest;
    and one accepted from the wire has well-formed records, strictly ordered
    keys (so no path twice) and at most [limit] of them, and the bytes are its
    only encoding. *)
Theorem manifest_codec l limit m :
  (manifest_wf m -> len (manifest_records m) <= limit -> addressable (manifest_canonical_bytes m) ->
   manifest_encode m = Ok (manifest_canonical_bytes m) /\
   manifest_from_canonical_with_limit (manifest_canonical_bytes m) limit = Ok m) /\
  (addressable l -> manifest_from_canonical_with_limit l limit = Ok m ->
   manifest_wf m /\ len (manifest_records m) <= limit /\ manifest_encode m = Ok l).
Proof.
  split.
  - intros Hm Hl Ha. split; [|by apply manifest_from_canonical_iff].
    destruct Hm as (Hw & _ & Hn). by rewrite manifest_canonical_bytes_eq, manifest_encode_Ok.
  - intros Ha (Hw & Hlim & <-)%manifest_from_canonical_iff; [|done]. pose proof Hw as (He & _ & Hn).
    rewrite manifest_encode_Ok, manifest_canonical_bytes_eq by done. auto.
Qed.

(** The manifest built from a set of records does not depend on the order
    in which the records are listed, and the constructor fails exactly when two
    of them have the same collection and path. *)
Theorem manifest_new_canonical rs rs' :
  rs ≡ₚ rs' ->
  manifest_new rs = manifest_new rs' /\
  (NoDup (map record_key rs) <-> exists m, manifest_new rs = Ok m /\ manifest_records m ≡ₚ rs).
Proof.
  intros Hp. assert (map record_key rs ≡ₚ map record_key rs') as Hk by by rewrite Hp. split.
  - destruct (decide (NoDup (map record_key rs))) as [Hd|Hd].
    + assert (sort_by record_key rs = sort_by record_key rs') as E.
      { apply (strict_unique record_key).
        - by apply sort_by_strict.
        - apply sort_by_strict. by rewrite <-Hk.
        - intros x. by rewrite !sort_by_perm, Hp. }
      rewrite (proj2 (manifest_new_Ok rs _) (conj eq_refl Hd)). symmetry.
      apply manifest_new_Ok. rewrite <-Hk. by rewrite E.
    + assert (~ NoDup (map record_key rs')) as Hd' by by rewrite <-Hk.
      by rewrite !manifest_new_Err.
  - split.
    + intros Hd. eexists. split; [by apply manifest_new_Ok|]. apply sort_by_perm.
    + by intros (m & [_ Hd]%manifest_new_Ok & _).
Qed.

(** C34: On any set of well-formed records whose canonical bytes the hash
    separates, [compare_winner] is a total order: it is [Equal] on equal records
    only, swapping the arguments reverses it, and it is transitive. *)
Theorem compare_winner_total_order `{Crypto} rs r s t :
  hash_separates rs -> r ∈ rs -> s ∈ rs -> t ∈ rs ->
  (compare_winner r s = Eq <-> r = s) /\
  compare_winner s r = CompOpp (compare_winner r s) /\
  (compare_winner r s = Lt -> compare_winner s t = Lt -> compare_winner r t = Lt).
Proof.
  intros Hrs Hr Hs Ht. rewrite !compare_winner_key. split; [|split].
  - rewrite <-compare_winner_key. by apply (compare_winner_Eq rs).
  - apply cmp_antisym.
  - apply cmp_Lt_trans.
Qed.

(** ** The length prefix of a manifest entry *)

Lemma repeat_a_path n : n <> 0%nat -> n <> 1%nat -> n <> 2%nat -> path_wf (mkPath (repeat "a"%byte n)).
Proof.
  intros H0 H1 H2. assert (forall b, b ∈ repeat "a"%byte n -> b = "a"%byte) as Ha
    by (intros b Hb; apply list_elem_of_In in Hb; by apply repeat_spec in Hb).
  assert (forall k, len k <= 2 -> repeat "a"%byte n <> k) as Hlen.
  { intros k Hk E. apply (f_equal len) in E. unfold len in E, Hk. rewrite repeat_length in E. lia. }
  split; simpl.
  - apply validate_Ok. split; [by apply Hlen|]. split; [|split].
    + by destruct n.
    + intros Hb%Ha. done.
    + rewrite split_slash_none by (intros Hb%Ha; done).
      constructor; [|constructor]. repeat split; try (by apply Hlen). intros Hb%Ha. done.
  - apply utf8_ascii. apply forallb_forall. intros b Hb. apply list_elem_of_In, Ha in Hb. by subst.
Qed.

Lemma oversized_entry r :
  record_wf r -> in_u32 (len (record_canonical_bytes r)) = false ->
  manifest_encode (mkManifest [r]) = Err LengthOverflow.
Proof.
  intros Hr Hl. unfold manifest_encode. simpl. destruct Hr as [Hr _].
  rewrite record_encode_Ok by done. cbn [rbind]. rewrite <-record_canonical_bytes_eq by done.
  unfold enc_sized_bytes, u32_try_from. by rewrite Hl.
Qed.

(** The bound on the fields of a record does not bound its encoding: there
    is a manifest of one well-formed record, both of whose strings pass their
    length checks, on which [canonical_bytes] reaches the error it expects
    never to see. *)
Theorem manifest_encode_overflow :
  exists m, Forall record_wf (manifest_records m) /\ manifest_ordered m /\
    manifest_encode m = Err LengthOverflow.
Proof.
  assert (exists n, Z.of_nat n = 2 ^ 32 - 1) as [n Hn] by (exists (Z.to_nat (2 ^ 32 - 1)); lia).
  assert (len (repeat "a"%byte n) = 2 ^ 32 - 1) as Hl by (unfold len; by rewrite repeat_length).
  destruct (repeat_a_path n) as [Hv Hu]; [lia..|]. simpl in Hv, Hu.
  set (r := mkRecord (repeat "a"%byte n) (mkPath (repeat "a"%byte n)) 0
              (toy_endpoint "000"%byte) Tombstone).
  assert (record_wf r) as Hr.
  { unfold record_wf, record_raw. simpl. rewrite Hl. repeat split; auto.
    by intros E; rewrite E in Hl. }
  exists (mkManifest [r]). split; [by apply Forall_singleton|]. split; [repeat constructor|].
  apply oversized_entry; [done|]. destruct Hr as [Hr _].
  rewrite record_canonical_bytes_eq by done. unfold record_encoding. autorewrite with skillsync_len.
  subst r. simpl. rewrite Hl. unfold in_u32. apply andb_false_iff. right. apply Z.ltb_ge.
  pose proof (kind_encoding_bound Tombstone). simpl in *. change (len RECORD_DOMAIN) with 20. lia.
Qed.

(** ** Examples *)

Section examples.
Definition example_record (name : string) (time : Z) (author : byte) : record :=
  mkRecord (lit "docs") (mkPath (lit name)) time (toy_endpoint author) (File 3 (toy_content "x"%byte)).

Definition example_a : record := example_record "a.txt" 5 "001"%byte.
Definition example_b : record := example_record "b.txt" (-1) "002"%byte.
Definition example_a' : record := example_record "a.txt" 5 "002"%byte.
Definition example_manifest : Manifest := mkManifest [example_a; example_b].

#[local] Instance example_entry_dec r : Decision (entry_wf r).
Proof. unfold entry_wf. apply _. Defined.
#[local] Instance example_sorted_dec : Decision (manifest_ordered example_manifest).
Proof. left. repeat constructor. Defined.

Lemma example_manifest_wf : manifest_wf example_manifest.
Proof. split; [|split; [repeat constructor | done]]. evaluate. Defined.

Lemma record_codec_witness :
  record_from_canonical (record_canonical_bytes example_a) = Ok example_a.
Proof. apply (record_codec (record_canonical_bytes example_a)). evaluate. Defined.

Lemma manifest_codec_witness :
  manifest_from_canonical_with_limit (manifest_canonical_bytes example_manifest) 2
  = Ok example_manifest.
Proof. by apply (manifest_codec []); [apply example_manifest_wf|..]. Defined.

Lemma manifest_new_canonical_witness :
  manifest_new [example_b; example_a] = manifest_new [example_a; example_b].
Proof. apply manifest_new_canonical. constructor. Defined.

Lemma compare_winner_total_order_witness :
  @compare_winner toy_crypto example_a example_a' = CompOpp (@compare_winner toy_crypto example_a' example_a).
Proof.
  apply (@compare_winner_total_order toy_crypto [example_a; example_b; example_a']
    example_a' example_a example_b); [|evaluate..].
  split; [evaluate|]. apply collision_free_decide. by vm_compute.
Defined.
End examples.
