(* ===== verification/Winners.v ===== *)
(** The specification of replicated records: a last-writer-wins map.

    Every device keeps, for each collection and path, the greatest record it has
    seen in the winner order.  The store of state.rs refines [merge_map]; what
    this file proves of the map holds of every store that refines it. *)

From S2P Require Import Prelude Bytes Utf8 Cursor Canonical Path Identity Records.

Definition index_of (r : record) : bytes * bytes := (rec_collection r, path_str (rec_path r)).

Abbreviation winner_map := (gmap (bytes * bytes) record).

Section winners.
Context `{Crypto}.

Definition beats (r : record) (current : option record) : bool :=
  match current with
  | None => true
  | Some current => match compare_winner r current with Gt => true | _ => false end
  end.

Definition merge_map (m : winner_map) (r : record) : winner_map :=
  if beats r (m !! index_of r) then <[index_of r := r]> m else m.

Definition merge_maps (m : winner_map) (rs : list record) : winner_map := fold_left merge_map rs m.

(** Every record is stored under its own index. *)
Definition map_indexed (m : winner_map) : Prop := forall k r, m !! k = Some r -> index_of r = k.

(** The records of a map, as a predicate. *)
Definition held (m : winner_map) (r : record) : Prop := m !! index_of r = Some r.

Lemma merge_map_indexed m r : map_indexed m -> map_indexed (merge_map m r).
Proof.
  intros Hm k s. unfold merge_map. case_match; [|apply Hm].
  intros [[<- <-]|[_ Hs]]%lookup_insert_Some; [done | by apply Hm].
Qed.

Lemma merge_maps_indexed m rs : map_indexed m -> map_indexed (merge_maps m rs).
Proof.
  unfold merge_maps. revert m. induction rs as [|r rs IH]; intros m Hm; simpl; [done|].
  by apply IH, merge_map_indexed.
Qed.

(** [r] is the greatest record of its index among those that satisfy [P]. *)
Definition greatest (P : record -> Prop) (r : record) : Prop :=
  P r /\ forall s, P s -> index_of s = index_of r -> ole (winner_key s) (winner_key r).

(** The map holds, for each index, the greatest of the records [P]. *)
Definition represents (P : record -> Prop) (m : winner_map) : Prop :=
  map_indexed m /\
  forall k, match m !! k with
            | Some r => greatest P r
            | None => forall s, P s -> index_of s <> k
            end.

Lemma beats_Gt r current : beats r (Some current) = true <-> olt (winner_key current) (winner_key r).
Proof.
  unfold beats. rewrite compare_winner_key. unfold olt. rewrite <-cmp_Gt_Lt.
  destruct (cmp (winner_key r) (winner_key current)); naive_solver.
Qed.

Lemma beats_false r current : beats r (Some current) = false -> ole (winner_key r) (winner_key current).
Proof. intros Hb. apply not_lt_le. rewrite <-beats_Gt. congruence. Qed.

(** Merging a record adds it to what the map represents. *)
Lemma merge_map_represents P m r :
  represents P m -> represents (fun s => P s \/ s = r) (merge_map m r).
Proof.
  intros [Hi Hr]. split; [by apply merge_map_indexed|]. intros k. unfold merge_map.
  pose proof (Hr (index_of r)) as Hcur.
  destruct (beats r (m !! index_of r)) eqn:Hb.
  - destruct (decide (k = index_of r)) as [->|Hk].
    + rewrite lookup_insert_eq. split; [by right|]. intros s [Hs| ->] Hsi; [|by apply ole_lt_eq; right].
      destruct (m !! index_of r) as [c|] eqn:E; [|by apply Hcur in Hs].
      apply beats_Gt in Hb. apply ole_lt_eq. left. destruct Hcur as [_ Hc].
      specialize (Hc s Hs). rewrite (Hi _ _ E) in Hc. specialize (Hc Hsi).
      apply ole_lt_eq in Hc as [Hc|Hc]; [by etransitivity | by rewrite Hc].
    + rewrite lookup_insert_ne by done. specialize (Hr k). destruct (m !! k) as [c|] eqn:E.
      * destruct Hr as [Hc Hg]. split; [by left|]. intros s [Hs| ->] Hsi; [by apply Hg|].
        rewrite (Hi _ _ E) in Hsi. by rewrite Hsi in Hk.
      * intros s [Hs| ->]; [by apply Hr | congruence].
  - destruct (m !! index_of r) as [c|] eqn:Ec; [|done]. apply beats_false in Hb.
    specialize (Hr k). destruct (m !! k) as [d|] eqn:E.
    + destruct Hr as [Hd Hg]. split; [by left|]. intros s [Hs| ->] Hsi; [by apply Hg|].
      rewrite (Hi _ _ E) in Hsi. rewrite Hsi in Ec. by assert (d = c) as -> by congruence.
    + intros s [Hs| ->]; [by apply Hr | congruence].
Qed.

Lemma represents_iff P Q m : (forall r, P r <-> Q r) -> represents P m -> represents Q m.
Proof.
  intros HPQ [Hi Hr]. split; [done|]. intros k. specialize (Hr k). destruct (m !! k) as [r|].
  - destruct Hr as [Hc Hg]. split; [by apply HPQ|]. intros s Hs. apply Hg. by apply HPQ.
  - intros s Hs. apply Hr. by apply HPQ.
Qed.

Lemma merge_maps_represents P m rs :
  represents P m -> represents (fun s => P s \/ s ∈ rs) (merge_maps m rs).
Proof.
  unfold merge_maps. revert P m. induction rs as [|r rs IH]; intros P m Hm; simpl.
  - revert Hm. apply represents_iff. intros s. rewrite elem_of_nil. tauto.
  - apply merge_map_represents with (r := r), IH in Hm. revert Hm.
    apply represents_iff. intros s. rewrite elem_of_cons. tauto.
Qed.

(** A map represents the records it holds. *)
Lemma held_represents m : map_indexed m -> represents (held m) m.
Proof.
  intros Hi. split; [done|]. intros k. destruct (m !! k) as [r|] eqn:E.
  - pose proof (Hi _ _ E) as <-. split; [done|]. intros s Hs Hsi. unfold held in Hs.
    rewrite Hsi, E in Hs. injection Hs as ->. apply ole_lt_eq. by right.
  - intros s Hs <-. unfold held in Hs. congruence.
Qed.

(** What a map that represents the records [P] holds at an index. *)
Definition top_at (P : record -> Prop) (k : bytes * bytes) (o : option record) : Prop :=
  match o with
  | Some r => index_of r = k /\ greatest P r
  | None => forall s, P s -> index_of s <> k
  end.

Lemma represents_top P m k : represents P m -> top_at P k (m !! k).
Proof.
  intros [Hi Hr]. specialize (Hr k). destruct (m !! k) as [r|] eqn:E; [|done]. split; [by apply Hi | done].
Qed.

Lemma top_at_self m k : map_indexed m -> top_at (fun r => m !! k = Some r) k (m !! k).
Proof.
  intros Hi. destruct (m !! k) as [r|] eqn:E; [|done]. split; [by apply Hi|]. split; [done|].
  intros s [= ->] _. apply ole_lt_eq. by right.
Qed.

Lemma top_at_iff P Q k o : (forall r, index_of r = k -> P r <-> Q r) -> top_at P k o -> top_at Q k o.
Proof.
  intros HPQ. destruct o as [r|]; cbn [top_at].
  - intros (Hk & Hr & Hg). split; [done|]. split; [by apply HPQ|]. intros s Hs Hi. apply Hg; [|done].
    apply HPQ; [congruence | done].
  - intros Hn s Hs Hk. apply (Hn s); [by apply HPQ | done].
Qed.

(** It is the only one, where the hash separates the records. *)
Lemma top_at_unique P all k o o' :
  hash_separates all -> (forall r, P r -> index_of r = k -> r ∈ all) -> top_at P k o -> top_at P k o' -> o = o'.
Proof.
  intros Hsep Hall. destruct o as [r|], o' as [s|]; cbn [top_at]; [|..|done].
  - intros (Hr & Pr & Gr) (Hs & Ps & Gs). f_equal.
    apply (winner_key_inj all); [done | by apply Hall | by apply Hall |].
    apply (anti_symm ole); [apply Gs; [done | congruence] | apply Gr; [done | congruence]].
  - intros (Hr & Pr & _) Hn. by destruct (Hn r).
  - intros Hn (Hs & Ps & _). by destruct (Hn s).
Qed.

(** The greatest of the greatest. *)
Lemma top_at_union P Q k o o' x :
  top_at P k o -> top_at Q k o' -> top_at (fun r => o = Some r \/ o' = Some r) k x ->
  top_at (fun r => P r \/ Q r) k x.
Proof.
  intros Ho Ho'. assert (forall s, P s \/ Q s -> index_of s = k ->
    exists t, (o = Some t \/ o' = Some t) /\ index_of t = k /\ ole (winner_key s) (winner_key t)) as Hup.
  { intros s [Hs|Hs] Hk.
    - destruct o as [t|]; [|by destruct (Ho s Hs)]. destruct Ho as (Ht & _ & Hg).
      exists t. split; [by left|]. split; [done|]. apply Hg; [done | congruence].
    - destruct o' as [t|]; [|by destruct (Ho' s Hs)]. destruct Ho' as (Ht & _ & Hg).
      exists t. split; [by right|]. split; [done|]. apply Hg; [done | congruence]. }
  destruct x as [r|]; cbn [top_at].
  - intros (Hk & Hr & Hg). split; [done|]. split.
    + destruct Hr as [->| ->]; [left; apply Ho | right; apply Ho'].
    + intros s Hs Hi. destruct (Hup s Hs) as (t & Ht & Hti & Hle); [congruence|]. etransitivity; [exact Hle|].
      apply Hg; [done | congruence].
  - intros Hn s Hs Hk. destruct (Hup s Hs Hk) as (t & Ht & Hti & _). by apply (Hn t).
Qed.

(** A merge of what another map holds at an index. *)
Lemma merge_maps_top P Q k m rs o :
  map_indexed m -> (forall r, index_of r = k -> r ∈ rs <-> o = Some r) ->
  top_at P k (m !! k) -> top_at Q k o -> top_at (fun r => P r \/ Q r) k (merge_maps m rs !! k).
Proof.
  intros Hi Hrs Hm Ho. apply (top_at_union P Q k (m !! k) o); [done..|].
  apply (top_at_iff (fun r => held m r \/ r ∈ rs)).
  - intros r Hr. rewrite Hrs by done. unfold held. by rewrite Hr.
  - apply represents_top, merge_maps_represents, held_represents, Hi.
Qed.

(** Records of other indices leave an index alone. *)
Lemma merge_maps_other m rs k : (forall r, r ∈ rs -> index_of r <> k) -> merge_maps m rs !! k = m !! k.
Proof.
  unfold merge_maps. revert m. induction rs as [|r rs IH]; intros m Hk; [done|]. cbn [fold_left].
  rewrite IH by (intros s Hs; apply Hk; by right). unfold merge_map. case_match; [|done].
  apply lookup_insert_ne. apply Hk. by left.
Qed.

(** Maps that represent the same records at an index agree there, where the
    hash separates the records. *)
Lemma represents_agree P Q m n all k :
  hash_separates all -> (forall r, P r -> index_of r = k -> r ∈ all) ->
  (forall r, index_of r = k -> P r <-> Q r) -> represents P m -> represents Q n -> m !! k = n !! k.
Proof.
  intros Hsep Hall HPQ Hm Hn. apply (top_at_unique P all k); [done..| by apply represents_top |].
  apply (top_at_iff Q); [|by apply represents_top]. intros r Hr. by rewrite HPQ.
Qed.

Lemma represents_unique P Q m n all :
  hash_separates all -> (forall r, P r -> r ∈ all) -> (forall r, P r <-> Q r) ->
  represents P m -> represents Q n -> m = n.
Proof.
  intros Hsep Hall HPQ Hm Hn. apply map_eq. intros k.
  apply (represents_agree P Q m n all k); auto.
Qed.

(** A record that is already there changes nothing. *)
Lemma merge_map_held m r : held m r -> merge_map m r = m.
Proof.
  intros Hr. unfold merge_map. rewrite Hr. destruct (beats r (Some r)) eqn:E; [|done].
  apply beats_Gt in E. by apply olt_irrefl in E.
Qed.

(** A merge never replaces a winner by a smaller record. *)
Lemma merge_map_monotone m r k old :
  map_indexed m -> m !! k = Some old ->
  exists new, merge_map m r !! k = Some new /\ ole (winner_key old) (winner_key new).
Proof.
  intros Hi Hk. unfold merge_map. destruct (beats r (m !! index_of r)) eqn:Hb.
  - destruct (decide (k = index_of r)) as [->|Hne].
    + exists r. rewrite lookup_insert_eq. split; [done|]. rewrite Hk in Hb. apply beats_Gt in Hb.
      apply ole_lt_eq. by left.
    + exists old. rewrite lookup_insert_ne by done. split; [done|]. apply ole_lt_eq. by right.
  - exists old. split; [done|]. apply ole_lt_eq. by right.
Qed.
End winners.
