(* ===== verification/Roster.v ===== *)
(** roster.rs: signed membership revisions, their validation against a parent,
    their canonical form, and the deterministic choice among competing children. *)

From S2P Require Import Prelude Bytes Utf8 Cursor Canonical Identity Concrete.

Definition ROSTER_DOMAIN : bytes := lit "skillsync-roster-v1" ++ ["000"%byte].

Record RosterHash := mkRosterHash { roster_hash : array 32 }.

#[global] Instance roster_hash_Inj : Inj (=) (=) roster_hash.
Proof. intros [] []; simpl; congruence. Qed.
#[global] Instance RosterHash_eq_dec : EqDecision RosterHash.
Proof. solve_decision. Defined.
#[global] Program Instance RosterHash_countable : Countable RosterHash :=
  inj_countable' roster_hash mkRosterHash _.
Next Obligation. by intros []. Qed.
#[global] Instance RosterHash_ord : Ord RosterHash := ord_via roster_hash.
#[global] Instance RosterHash_ord_laws : OrdLaws RosterHash := ord_via_laws roster_hash.

Record RosterMember := mkMember {
  member_id : EndpointId;
  member_name : bytes;
}.

Inductive RosterChange :=
  | Initialize (member : RosterMember)
  | Admit (member : RosterMember)
  | Remove (endpoint_id : EndpointId).

Record RosterRevision := mkRevision {
  rev_group_id : GroupId;
  rev_number : Z;
  rev_parent_hash : option RosterHash;
  rev_members : gmap EndpointId bytes;
  rev_change : RosterChange;
  rev_author : EndpointId;
  rev_signature : array 64;
}.

#[global] Instance RosterMember_eq_dec : EqDecision RosterMember.
Proof. solve_decision. Defined.
#[global] Instance RosterChange_eq_dec : EqDecision RosterChange.
Proof. solve_decision. Defined.
#[global] Instance RosterRevision_eq_dec : EqDecision RosterRevision.
Proof. solve_decision. Defined.

Inductive RosterError :=
  | InvalidGenesis
  | WrongParent
  | AuthorNotActive
  | WrongMembers
  | InvalidChange
  | AlreadyActive
  | NotActive
  | InvalidDeviceName
  | MemberLimit
  | RevisionOverflow
  | InvalidSigner
  | InvalidSignature
  | RosterCanonical (e : CanonicalError).

#[global] Instance RosterError_eq_dec : EqDecision RosterError.
Proof. solve_decision. Defined.

Definition selection_priority (change : RosterChange) : Z :=
  match change with
  | Remove _ => 1
  | Admit _ => 0
  | Initialize _ => 0
  end.

Definition validate_device_name (device_name : bytes) : result unit RosterError :=
  if trim_is_empty device_name then Err InvalidDeviceName
  else let? _ := ok_or (u32_try_from (len device_name)) InvalidDeviceName in Ok tt.

(** [RosterMember::new] *)
Definition member_new (endpoint_id : EndpointId) (device_name : bytes)
    : result RosterMember RosterError :=
  let? _ := validate_device_name device_name in Ok (mkMember endpoint_id device_name).

Definition apply_change (members : gmap EndpointId bytes) (change : RosterChange)
    : result (gmap EndpointId bytes) RosterError :=
  match change with
  | Initialize _ => Err InvalidChange
  | Admit member =>
      let? _ := validate_device_name (member_name member) in
      match members !! member_id member with
      | Some _ => Err AlreadyActive
      | None => Ok (<[member_id member := member_name member]> members)
      end
  | Remove endpoint_id =>
      match members !! endpoint_id with
      | None => Err NotActive
      | Some _ => Ok (delete endpoint_id members)
      end
  end.

(** ** Canonical form *)

Definition encode_member (encoder : Encoder) (member : RosterMember) : result Encoder CanonicalError :=
  enc_string (enc_fixed encoder (arr (eid (member_id member)))) (member_name member).

Definition encode_change (encoder : Encoder) (change : RosterChange) : result Encoder CanonicalError :=
  match change with
  | Initialize member => encode_member (enc_u8 encoder 0) member
  | Admit member => encode_member (enc_u8 encoder 1) member
  | Remove endpoint_id => Ok (enc_fixed (enc_u8 encoder 2) (arr (eid endpoint_id)))
  end.

(** The loop over the members, in the order of their keys. *)
Fixpoint encode_members (encoder : Encoder) (members : list (EndpointId * bytes))
    : result Encoder CanonicalError :=
  match members with
  | [] => Ok encoder
  | (endpoint_id, device_name) :: members =>
      let? encoder := enc_string (enc_fixed encoder (arr (eid endpoint_id))) device_name in
      encode_members encoder members
  end.

Definition encode_parent_hash (encoder : Encoder) (parent_hash : option RosterHash) : Encoder :=
  match parent_hash with
  | None => enc_u8 encoder 0
  | Some parent_hash => enc_fixed (enc_u8 encoder 1) (arr (roster_hash parent_hash))
  end.

(** The steps of [unsigned_canonical_bytes]; an [Err] is the panic of an
    [expect]. *)
Definition unsigned_encode (r : RosterRevision) : result bytes CanonicalError :=
  let encoder := enc_new ROSTER_DOMAIN in
  let encoder := enc_fixed encoder (arr (gid (rev_group_id r))) in
  let encoder := enc_u64 encoder (rev_number r) in
  let encoder := encode_parent_hash encoder (rev_parent_hash r) in
  let? count := ok_or (u32_try_from (Z.of_nat (size (rev_members r)))) LengthOverflow in
  let? encoder := encode_members (enc_u32 encoder count) (items (rev_members r)) in
  let? encoder := encode_change encoder (rev_change r) in
  Ok (enc_finish (enc_fixed encoder (arr (eid (rev_author r))))).

Definition unsigned_canonical_bytes (r : RosterRevision) : bytes :=
  match unsigned_encode r with Ok l => l | Err _ => [] end.

Definition canonical_bytes (r : RosterRevision) : bytes :=
  unsigned_canonical_bytes r ++ arr (rev_signature r).

Definition up_roster {A} : decoder A -> parser RosterError A := pmap_err RosterCanonical.

Definition decode_member : parser RosterError RosterMember :=
  endpoint_id <~ up_roster (dec_fixed 32) ;;
  device_name <~ up_roster dec_string ;;
  plift (member_new (mkEndpointId endpoint_id) device_name).

Definition decode_change : parser RosterError RosterChange :=
  tag <~ up_roster dec_u8 ;;
  if tag =? 0 then member <~ decode_member ;; pret (Initialize member)
  else if tag =? 1 then member <~ decode_member ;; pret (Admit member)
  else if tag =? 2 then
    endpoint_id <~ up_roster (dec_fixed 32) ;; pret (Remove (mkEndpointId endpoint_id))
  else pfail (RosterCanonical UnknownTag).

Definition decode_parent_hash : parser RosterError (option RosterHash) :=
  tag <~ up_roster dec_u8 ;;
  if tag =? 0 then pret None
  else if tag =? 1 then hash <~ up_roster (dec_fixed 32) ;; pret (Some (mkRosterHash hash))
  else pfail (RosterCanonical UnknownTag).

(** The loop over the members, with the last key read and the map so far. *)
Fixpoint decode_members (member_count : nat) (previous : option EndpointId)
    (members : gmap EndpointId bytes) : parser RosterError (gmap EndpointId bytes) :=
  match member_count with
  | O => pret members
  | S member_count =>
      endpoint_id <~ up_roster (dec_fixed 32) ;;
      let endpoint_id := mkEndpointId endpoint_id in
      if match previous with Some previous => negb (ltb previous endpoint_id) | None => false end
      then pfail (RosterCanonical UnorderedKeys)
      else
        device_name <~ up_roster dec_string ;;
        _ <~ plift (validate_device_name device_name) ;;
        decode_members member_count (Some endpoint_id) (<[endpoint_id := device_name]> members)
  end.

Definition decode_revision (max_members : Z) : parser RosterError RosterRevision :=
  group_id <~ up_roster (dec_fixed 32) ;;
  number <~ up_roster dec_u64 ;;
  parent_hash <~ decode_parent_hash ;;
  member_count <~ up_roster dec_u32 ;;
  if max_members <? member_count then pfail MemberLimit
  else
    members <~ decode_members (Z.to_nat member_count) None ∅ ;;
    change <~ decode_change ;;
    author <~ up_roster (dec_fixed 32) ;;
    signature <~ up_roster (dec_fixed 64) ;;
    pret (mkRevision (mkGroupId group_id) number parent_hash members change
            (mkEndpointId author) signature).

Definition from_canonical_with_member_limit (l : bytes) (max_members : Z)
    : result RosterRevision RosterError :=
  let? revision := decode_with RosterCanonical ROSTER_DOMAIN (decode_revision max_members) l in
  if bool_decide (canonical_bytes revision <> l)
  then Err (RosterCanonical (Invalid "non-canonical roster revision"))
  else Ok revision.

Definition from_canonical (l : bytes) : result RosterRevision RosterError :=
  from_canonical_with_member_limit l usize_max.

(** ** Construction and validation *)

Section roster.
Context `{Crypto}.

Definition canonical_hash (r : RosterRevision) : RosterHash :=
  mkRosterHash (blake3 (canonical_bytes r)).

Definition verify_signature (r : RosterRevision) (signer : EndpointId) : result unit RosterError :=
  if negb (verifying_key_from_bytes (eid signer)) then Err InvalidSigner
  else if verify_strict (eid signer) (unsigned_canonical_bytes r) (rev_signature r) then Ok tt
  else Err InvalidSignature.

Definition validate_genesis (r : RosterRevision) : result unit RosterError :=
  if negb (rev_number r =? 0) || bool_decide (is_Some (rev_parent_hash r)) then Err InvalidGenesis
  else
    match rev_change r with
    | Initialize creator =>
        if bool_decide (rev_author r <> member_id creator)
           || negb (Z.of_nat (size (rev_members r)) =? 1)
           || bool_decide (rev_members r !! member_id creator <> Some (member_name creator))
        then Err InvalidGenesis
        else verify_signature r (rev_author r)
    | _ => Err InvalidGenesis
    end.

Definition is_initialize (change : RosterChange) : bool :=
  match change with Initialize _ => true | _ => false end.

Definition validate_child (r parent : RosterRevision) : result unit RosterError :=
  if bool_decide (rev_group_id r <> rev_group_id parent) then Err WrongParent
  else
    let? next := ok_or (u64_checked_add (rev_number parent) 1) RevisionOverflow in
    if negb (rev_number r =? next)
       || bool_decide (rev_parent_hash r <> Some (canonical_hash parent)) then Err WrongParent
    else if bool_decide (rev_members parent !! rev_author r = None) then Err AuthorNotActive
    else if is_initialize (rev_change r) then Err InvalidChange
    else
      let? expected_members := apply_change (rev_members parent) (rev_change r) in
      if bool_decide (expected_members <> rev_members r) then Err WrongMembers
      else verify_signature r (rev_author r).

Definition set_signature (r : RosterRevision) (signature : array 64) : RosterRevision :=
  mkRevision (rev_group_id r) (rev_number r) (rev_parent_hash r) (rev_members r) (rev_change r)
    (rev_author r) signature.

Definition genesis (group_id : GroupId) (creator_name : bytes) (creator : DeviceIdentity)
    : result RosterRevision RosterError :=
  let? member := member_new (endpoint_id creator) creator_name in
  let members := {[ member_id member := member_name member ]} in
  let revision := mkRevision group_id 0 None members (Initialize member) (endpoint_id creator)
                    (array_repeat 64 "000"%byte) in
  let revision := set_signature revision (sign creator (unsigned_canonical_bytes revision)) in
  let? _ := validate_genesis revision in
  Ok revision.

Definition child (parent : RosterRevision) (change : RosterChange) (author : DeviceIdentity)
    : result RosterRevision RosterError :=
  if bool_decide (rev_members parent !! endpoint_id author = None) then Err AuthorNotActive
  else if is_initialize change then Err InvalidChange
  else
    let? members := apply_change (rev_members parent) change in
    let? number := ok_or (u64_checked_add (rev_number parent) 1) RevisionOverflow in
    let revision := mkRevision (rev_group_id parent) number (Some (canonical_hash parent)) members
                      change (endpoint_id author) (array_repeat 64 "000"%byte) in
    let revision := set_signature revision (sign author (unsigned_canonical_bytes revision)) in
    let? _ := validate_child revision parent in
    Ok revision.

(** ** Selection *)

Definition selection_key (r : RosterRevision) : Z * RosterHash :=
  (selection_priority (rev_change r), canonical_hash r).

(** [max_by_key]: the last of the greatest elements. *)
Definition max_by_key (l : list RosterRevision) : option RosterRevision :=
  fold_left (fun best r =>
    match best with
    | None => Some r
    | Some b => if ltb (selection_key r) (selection_key b) then Some b else Some r
    end) l None.

Definition select_child (parent : RosterRevision) (candidates : list RosterRevision)
    : option RosterRevision :=
  max_by_key (List.filter (fun candidate => is_ok (validate_child candidate parent)) candidates).

(** The loop of [select_chain]; [None] when [fuel] is not enough. *)
Fixpoint select_chain_loop (fuel : nat) (parent : RosterRevision) (candidates : list RosterRevision)
    : option (list RosterRevision) :=
  match fuel with
  | O => None
  | S fuel =>
      match select_child parent candidates with
      | None => Some []
      | Some child =>
          match select_chain_loop fuel child candidates with
          | Some selected => Some (child :: selected)
          | None => None
          end
      end
  end.

(** As many rounds as there are candidates are enough: the numbers of the
    selected revisions increase. *)
Definition select_chain (genesis : RosterRevision) (candidates : list RosterRevision)
    : result (list RosterRevision) RosterError :=
  let? _ := validate_genesis genesis in
  Ok (default [] (select_chain_loop (S (length candidates)) genesis candidates)).
End roster.

(** ** The invariant of the type *)

(** A [String] that passed [validate_device_name]. *)
Definition name_ok (s : bytes) : Prop := utf8_valid s = true /\ validate_device_name s = Ok tt.

Definition change_ok (change : RosterChange) : Prop :=
  match change with
  | Initialize member | Admit member => name_ok (member_name member)
  | Remove _ => True
  end.

Definition roster_wf (r : RosterRevision) : Prop :=
  in_u64 (rev_number r) = true /\ in_u32 (Z.of_nat (size (rev_members r))) = true /\
  map_Forall (fun _ => name_ok) (rev_members r) /\ change_ok (rev_change r).

#[global] Instance name_ok_dec s : Decision (name_ok s).
Proof. unfold name_ok. apply _. Defined.
#[global] Instance change_ok_dec c : Decision (change_ok c).
Proof. unfold change_ok. destruct c; apply _. Defined.
#[global] Instance roster_wf_dec r : Decision (roster_wf r).
Proof. unfold roster_wf. apply _. Defined.

Lemma validate_device_name_Ok s :
  validate_device_name s = Ok tt <-> trim_is_empty s = false /\ in_u32 (len s) = true.
Proof.
  unfold validate_device_name, u32_try_from.
  destruct (trim_is_empty s), (in_u32 (len s)); simpl; naive_solver.
Qed.

Lemma name_ok_len s : name_ok s -> in_u32 (len s) = true.
Proof. by intros [_ [_ ?]%validate_device_name_Ok]. Qed.

Lemma member_new_Ok id name m :
  member_new id name = Ok m <-> validate_device_name name = Ok tt /\ m = mkMember id name.
Proof. unfold member_new. destruct (validate_device_name name) as [[]|]; simpl; naive_solver. Qed.

(** ** The codec *)

Definition member_encoding (x : EndpointId * bytes) : bytes := arr (eid x.1) ++ sized x.2.

Definition parent_encoding (h : option RosterHash) : bytes :=
  match h with
  | None => [byte_of_Z 0]
  | Some h => [byte_of_Z 1] ++ arr (roster_hash h)
  end.

Definition change_encoding (c : RosterChange) : bytes :=
  match c with
  | Initialize m => [byte_of_Z 0] ++ member_encoding (member_id m, member_name m)
  | Admit m => [byte_of_Z 1] ++ member_encoding (member_id m, member_name m)
  | Remove id => [byte_of_Z 2] ++ arr (eid id)
  end.

Definition unsigned_encoding (r : RosterRevision) : bytes :=
  arr (gid (rev_group_id r)) ++ u64_be (rev_number r) ++ parent_encoding (rev_parent_hash r) ++
  u32_be (Z.of_nat (size (rev_members r))) ++ concat (map member_encoding (items (rev_members r))) ++
  change_encoding (rev_change r) ++ arr (eid (rev_author r)).

Lemma encode_member_Ok e m :
  name_ok (member_name m) ->
  encode_member e m = Ok (mkEncoder (enc_bytes e ++ member_encoding (member_id m, member_name m))).
Proof.
  intros Hm%name_ok_len. unfold encode_member. rewrite enc_string_Ok by done.
  unfold member_encoding, enc_fixed. simpl. by rewrite <-app_assoc.
Qed.

Lemma encode_members_Ok l e :
  Forall (fun x => name_ok x.2) l ->
  encode_members e l = Ok (mkEncoder (enc_bytes e ++ concat (map member_encoding l))).
Proof.
  intros H. revert e. induction H as [|[id name] l Hx _ IH]; intros e; simpl.
  - rewrite app_nil_r. by destruct e.
  - rewrite enc_string_Ok by by apply name_ok_len. cbn [rbind]. rewrite IH.
    unfold member_encoding, enc_fixed. simpl. by rewrite <-!app_assoc.
Qed.

Lemma encode_change_Ok e c :
  change_ok c -> encode_change e c = Ok (mkEncoder (enc_bytes e ++ change_encoding c)).
Proof.
  destruct c as [m|m|id]; simpl; intros Hc; [rewrite encode_member_Ok by done..|];
    unfold enc_fixed, enc_u8; cbn [enc_bytes]; by rewrite <-app_assoc.
Qed.

Lemma items_names (m : gmap EndpointId bytes) :
  map_Forall (fun _ => name_ok) m <-> Forall (fun x => name_ok x.2) (items m).
Proof.
  rewrite Forall_forall, map_Forall_lookup. split.
  - intros Hm [k v] Hx. apply items_elem in Hx. by apply (Hm k).
  - intros Hm k v Hx. apply items_elem in Hx. by apply (Hm (k, v)).
Qed.

Lemma unsigned_encode_Ok r :
  roster_wf r -> unsigned_encode r = Ok (ROSTER_DOMAIN ++ unsigned_encoding r).
Proof.
  intros (_ & Hs & Hm & Hc). unfold unsigned_encode, u32_try_from. rewrite Hs. cbn [ok_or rbind].
  rewrite encode_members_Ok by by apply items_names. cbn [rbind].
  rewrite encode_change_Ok by done. cbn [rbind]. unfold unsigned_encoding, enc_finish.
  destruct (rev_parent_hash r); unfold encode_parent_hash, enc_fixed, enc_u32, enc_u64, enc_u8, enc_new;
    cbn [enc_bytes parent_encoding]; by rewrite <-!app_assoc.
Qed.

Lemma canonical_bytes_eq r :
  roster_wf r -> canonical_bytes r = ROSTER_DOMAIN ++ unsigned_encoding r ++ arr (rev_signature r).
Proof.
  intros Hr. unfold canonical_bytes, unsigned_canonical_bytes.
  rewrite unsigned_encode_Ok by done. by rewrite <-app_assoc.
Qed.

Lemma reads_fixed_map {E B} (up : CanonicalError -> E) n (f : array n -> B) :
  reads (x <~ pmap_err up (dec_fixed n) ;; pret (f x)) (fun b enc => exists a, enc = arr a /\ b = f a).
Proof.
  eapply reads_iff; [reads_tac|]. intros b enc; unfold R_fixed; split.
  - intros (a & e1 & e2 & -> & -> & -> & ->). exists a. by rewrite app_nil_r.
  - intros (a & -> & ->). exists a, (arr a), []. by rewrite app_nil_r.
Qed.

Lemma reads_parent_hash : reads decode_parent_hash (fun h enc => enc = parent_encoding h).
Proof.
  eapply reads_iff.
  { apply reads_bind with (S := fun t h enc =>
      t = 0 /\ h = None /\ enc = [] \/ t = 1 /\ exists a, h = Some (mkRosterHash a) /\ enc = arr a);
      [unfold up_roster; reads_tac|].
    intros t. destruct (Z.eqb_spec t 0) as [->|H0]; [|destruct (Z.eqb_spec t 1) as [->|H1]].
    - eapply reads_iff; [apply reads_ret|]. intros h enc; split.
      + intros [-> ->]. by left.
      + by intros [(_ & -> & ->)|[? _]].
    - eapply reads_iff; [apply reads_fixed_map|]. intros h enc; split.
      + intros (a & -> & ->). right. eauto.
      + intros [[? _]|(_ & a & -> & ->)]; [done|]. eauto.
    - eapply reads_iff; [apply reads_fail|]. intros h enc; split; [done|].
      by intros [[? _]|[? _]]. }
  intros h enc; split.
  - intros (t & e1 & e2 & -> & [_ ->] & [(-> & -> & ->)|(-> & a & -> & ->)]); done.
  - intros ->. destruct h as [[a]|].
    + exists 1, [byte_of_Z 1], (arr a). repeat split. right. eauto.
    + exists 0, [byte_of_Z 0], []. repeat split. by left.
Qed.

Lemma reads_member :
  reads decode_member (fun m enc => name_ok (member_name m) /\
    enc = member_encoding (member_id m, member_name m)).
Proof.
  eapply reads_iff; [unfold decode_member, up_roster; reads_tac|].
  intros m enc; unfold R_fixed, R_string, R_sized, member_encoding; split.
  - intros (a & e1 & e2 & -> & -> & s & e3 & e4 & -> & (Hu & _ & ->) & Hm & ->).
    apply member_new_Ok in Hm as [Hv ->]. rewrite app_nil_r. done.
  - intros [Hn ->]. destruct m as [[a] s]. simpl in *.
    exists a, (arr a), (sized s). split; [done|]. split; [done|].
    exists s, (sized s), []. rewrite app_nil_r. split; [done|]. split.
    + split; [apply Hn|]. split; [by apply name_ok_len | done].
    + split; [|done]. apply member_new_Ok. split; [apply Hn | done].
Qed.

Definition change_tag (c : RosterChange) : Z :=
  match c with Initialize _ => 0 | Admit _ => 1 | Remove _ => 2 end.
Definition change_body (c : RosterChange) : bytes :=
  match c with
  | Initialize m | Admit m => member_encoding (member_id m, member_name m)
  | Remove id => arr (eid id)
  end.

Lemma reads_change : reads decode_change (fun c enc => change_ok c /\ enc = change_encoding c).
Proof.
  eapply reads_iff.
  { apply reads_bind with (S := fun t c enc =>
      t = change_tag c /\ change_ok c /\ enc = change_body c);
      [unfold up_roster; reads_tac|].
    assert (forall (f : RosterMember -> RosterChange) k, (forall m, change_tag (f m) = k /\
        (change_ok (f m) <-> name_ok (member_name m)) /\
        change_body (f m) = member_encoding (member_id m, member_name m)) ->
      (forall c, change_tag c = k -> exists m, c = f m) ->
      reads (member <~ decode_member ;; pret (f member))
        (fun c enc => k = change_tag c /\ change_ok c /\ enc = change_body c)) as Hmember.
    { intros f k Hf Hk. eapply reads_iff; [apply reads_bind; [apply reads_member|intros m; apply reads_ret]|].
      intros c enc; split.
      - intros (m & e1 & e2 & -> & [Hm ->] & -> & ->). destruct (Hf m) as (-> & -> & ->).
        by rewrite app_nil_r.
      - intros (Ht & Hc & ->). destruct (Hk c (eq_sym Ht)) as [m ->]. destruct (Hf m) as (_ & Ho & ->).
        exists m, (member_encoding (member_id m, member_name m)), []. rewrite app_nil_r. naive_solver. }
    intros t. destruct (Z.eqb_spec t 0) as [->|H0]; [|destruct (Z.eqb_spec t 1) as [->|H1];
      [|destruct (Z.eqb_spec t 2) as [->|H2]]].
    - apply Hmember; [done|]. intros [m|m|id]; naive_solver.
    - apply Hmember; [done|]. intros [m|m|id]; naive_solver.
    - eapply reads_iff; [apply reads_fixed_map|]. intros c enc; split.
      + by intros (a & -> & ->).
      + intros (Ht & _ & ->). destruct c as [m|m|[a]]; [done..|]. by exists a.
    - eapply reads_iff; [apply reads_fail|]. intros c enc; split; [done|].
      intros [Ht _]. by destruct c; simpl in Ht. }
  intros c enc; split.
  - intros (t & e1 & e2 & -> & [_ ->] & -> & Hc & ->). by destruct c.
  - intros [Hc ->]. exists (change_tag c), [byte_of_Z (change_tag c)], (change_body c).
    split; [by destruct c|]. split; [by destruct c|]. done.
Qed.

(** The keys of a member list ascend, from a previous key on. *)
Fixpoint ascending (previous : option EndpointId) (l : list (EndpointId * bytes)) : Prop :=
  match l with
  | [] => True
  | (id, _) :: l =>
      match previous with Some previous => olt previous id | None => True end /\ ascending (Some id) l
  end.

Lemma ascending_sorted l p :
  ascending p l <->
  StronglySorted (key_lt fst) l /\
  Forall (fun x => match p with Some p => olt p x.1 | None => True end) l.
Proof.
  revert p. induction l as [|[id name] l IH]; intros p; simpl.
  - split; [|done]. by split; constructor.
  - rewrite IH. split.
    + intros (Hp & Hs & Hf). split; [by constructor|]. constructor; [done|].
      eapply Forall_impl; [exact Hf|]. intros x Hx. destruct p; [|done]. simpl in *. by etransitivity.
    + intros [Hs Hf]. inversion Hs as [|? ? Hs' Hl]; subst. inversion Hf; subst. done.
Qed.

Definition insert_all (l : list (EndpointId * bytes)) (m : gmap EndpointId bytes) :=
  fold_left (fun m x => <[x.1 := x.2]> m) l m.

Lemma insert_all_sorted l m :
  StronglySorted (key_lt fst) l -> insert_all l m = list_to_map l ∪ m.
Proof.
  intros Hs. revert m. induction Hs as [|[id name] l Hs IH Hf]; intros m; simpl.
  - by rewrite (left_id_L ∅ (∪)).
  - unfold insert_all in *. simpl. rewrite IH. rewrite <-insert_union_r; [by rewrite insert_union_l|].
    apply not_elem_of_list_to_map_1. intros ((id' & name') & -> & Hin)%list_elem_of_fmap.
    rewrite Forall_forall in Hf. by apply Hf, olt_irrefl in Hin.
Qed.

Lemma reads_members n p m :
  reads (decode_members n p m) (fun m' enc => exists l, length l = n /\ ascending p l /\
    Forall (fun x => name_ok x.2) l /\ enc = concat (map member_encoding l) /\ m' = insert_all l m).
Proof.
  revert p m. induction n as [|n IH]; intros p m.
  { eapply reads_iff; [apply reads_ret|]. intros m' enc; split.
    - intros [-> ->]. exists []. repeat split; constructor.
    - by intros ([|] & ? & _ & _ & -> & ->). }
  eapply reads_iff.
  { simpl. apply reads_bind with (S := fun a m' enc => exists s l, length l = n /\
      ascending p ((mkEndpointId a, s) :: l) /\ name_ok s /\ Forall (fun x => name_ok x.2) l /\
      enc = sized s ++ concat (map member_encoding l) /\ m' = insert_all ((mkEndpointId a, s) :: l) m);
      [unfold up_roster; reads_tac|].
    intros a. destruct (match p with Some _ => _ | None => _ end) eqn:Hp.
    - eapply reads_iff; [apply reads_fail|]. intros m' enc; split; [done|].
      intros (s & l & _ & [Ha _] & _). destruct p as [p|]; [|done].
      apply negb_true_iff in Hp. apply ltb_olt in Ha. congruence.
    - eapply reads_iff; [unfold up_roster; reads_tac; apply IH|]. intros m' enc; split.
      + intros (s & e1 & e2 & -> & (Hu & Hl & ->) & [] & e3 & e4 & -> & [Hv ->] & l & Hn & Ha & Hf & -> & ->).
        exists s, l. repeat split; auto. simpl. destruct p as [p|]; [|done].
        apply negb_false_iff in Hp. by apply ltb_olt.
      + intros (s & l & Hn & [_ Ha] & Hs & Hf & -> & ->).
        exists s, (sized s), (concat (map member_encoding l)). split; [done|].
        split; [split; [apply Hs|]; split; [by apply name_ok_len | done]|].
        exists tt, [], (concat (map member_encoding l)). split; [done|]. split; [split; [apply Hs|done]|].
        by exists l. }
  intros m' enc; split.
  - intros (a & e1 & e2 & -> & -> & s & l & Hn & Ha & Hs & Hf & -> & ->).
    exists ((mkEndpointId a, s) :: l). split; [simpl; lia|]. split; [done|]. split; [by constructor|].
    split; [|done]. simpl. unfold member_encoding at 2. simpl. by rewrite <-!app_assoc.
  - intros ([|[[a] s] l] & Hn & Ha & Hf & -> & ->); [done|]. inversion Hf; subst.
    exists a, (arr a), (sized s ++ concat (map member_encoding l)).
    split; [simpl; unfold member_encoding at 1; simpl; by rewrite <-!app_assoc|]. split; [done|].
    exists s, l. split; [by simpl in Hn; lia|]. done.
Qed.

(** Read from the start, the loop reads the ordered members of a map. *)
Lemma reads_all_members n :
  reads (decode_members n None ∅) (fun m enc => size m = n /\ map_Forall (fun _ => name_ok) m /\
    enc = concat (map member_encoding (items m))).
Proof.
  eapply reads_iff; [apply reads_members|]. intros m enc; split.
  - intros (l & Hn & [Hs _]%ascending_sorted & Hf & -> & ->).
    rewrite insert_all_sorted, (right_id_L ∅ (∪)) by done.
    rewrite items_names, <-items_length, items_list_to_map by done. done.
  - intros (Hn & Hm & ->). exists (items m). rewrite items_length. split; [done|].
    split; [apply ascending_sorted; split; [apply items_sorted | by apply Forall_true]|].
    split; [by apply items_names|]. split; [done|].
    by rewrite insert_all_sorted, (right_id_L ∅ (∪)), list_to_map_items by apply items_sorted.
Qed.

Lemma reads_revision limit :
  reads (decode_revision limit) (fun r enc => roster_wf r /\ Z.of_nat (size (rev_members r)) <= limit /\
    enc = unsigned_encoding r ++ arr (rev_signature r)).
Proof.
  eapply reads_iff.
  { unfold decode_revision, up_roster.
    apply reads_bind; [reads_tac|]. intros g. apply reads_bind; [reads_tac|]. intros n.
    apply reads_bind; [apply reads_parent_hash|]. intros h.
    apply reads_bind with (S := fun count r enc => exists members change author signature,
      r = mkRevision (mkGroupId g) n h members change (mkEndpointId author) signature /\
      count <= limit /\ size members = Z.to_nat count /\ map_Forall (fun _ => name_ok) members /\
      change_ok change /\ enc = concat (map member_encoding (items members)) ++
        change_encoding change ++ arr author ++ arr signature); [reads_tac|].
    intros count. destruct (Z.ltb_spec limit count) as [Hl|Hl].
    - eapply reads_iff; [apply reads_fail|]. intros r enc; split; [done|].
      intros (? & ? & ? & ? & _ & ? & _). lia.
    - eapply reads_iff.
      { apply reads_bind; [apply reads_all_members|]. intros m.
        apply reads_bind; [apply reads_change|]. intros c. reads_tac. }
      intros r enc; split.
      + intros (m & e1 & ? & -> & (Hm & Hf & ->) & c & e2 & ? & -> & (Hc & ->) &
          a & e3 & ? & -> & Ha & s & e4 & ? & -> & Hs & -> & ->).
        unfold R_fixed in *. subst. exists m, c, a, s. rewrite app_nil_r. auto 10.
      + intros (m & c & a & s & -> & _ & Hm & Hf & Hc & ->).
        exists m, (concat (map member_encoding (items m))), (change_encoding c ++ arr a ++ arr s).
        split; [done|]. split; [done|].
        exists c, (change_encoding c), (arr a ++ arr s). split; [done|]. split; [done|].
        exists a, (arr a), (arr s). split; [done|]. split; [done|].
        exists s, (arr s), []. by rewrite app_nil_r. }
  intros r enc; unfold unsigned_encoding, roster_wf; split.
  - intros (g & e1 & ? & -> & -> & n & e2 & ? & -> & [Hn ->] & h & e3 & ? & -> & -> &
      count & e4 & ? & -> & [Hcount ->] & m & c & a & s & -> & Hlim & Hm & Hf & Hc & ->).
    cbn [rev_number rev_members rev_change rev_group_id rev_parent_hash rev_author rev_signature gid eid].
    assert (Z.of_nat (size m) = count) as <- by (unfold in_u32 in Hcount; boolp; lia).
    rewrite <-!app_assoc. auto 10.
  - intros ((Hn & Hs & Hf & Hc) & Hlim & ->). destruct r as [[g] n h m c [a] s].
    cbn [rev_number rev_members rev_change rev_group_id rev_parent_hash rev_author rev_signature gid eid] in *.
    rewrite <-!app_assoc. do 3 eexists. split; [done|]. split; [done|].
    exists n, (u64_be n). eexists. split; [done|]. split; [done|].
    exists h, (parent_encoding h). eexists. split; [done|]. split; [done|].
    exists (Z.of_nat (size m)), (u32_be (Z.of_nat (size m))). eexists. split; [done|]. split; [done|].
    exists m, c, a, s. rewrite Nat2Z.id. auto 10.
Qed.

(** The revision decoder accepts exactly the canonical encodings of well-formed
    revisions within the receiver's member limit. *)
Lemma from_canonical_iff l limit r :
  addressable l ->
  from_canonical_with_member_limit l limit = Ok r <->
  roster_wf r /\ Z.of_nat (size (rev_members r)) <= limit /\ canonical_bytes r = l.
Proof.
  intros Hl. unfold from_canonical_with_member_limit. split.
  - intros H. inv_ok. boolp.
    apply (decode_with_sound _ _ _ _ _ _ (reads_revision limit)) in H0 as (enc & -> & Hw & Hlim & ->).
    by rewrite canonical_bytes_eq.
  - intros (Hw & Hlim & E). pose proof (canonical_bytes_eq r Hw) as E'.
    rewrite (proj2 (decode_with_Ok _ _ _ _ _ r (reads_revision limit) Hl)).
    + cbn [rbind]. by rewrite bool_decide_eq_false_2 by auto.
    + exists (unsigned_encoding r ++ arr (rev_signature r)). rewrite <-E, E'. auto.
Qed.

(** A decoded revision is well-formed whatever the length of the input. *)
Lemma from_canonical_sound l limit r :
  from_canonical_with_member_limit l limit = Ok r ->
  roster_wf r /\ Z.of_nat (size (rev_members r)) <= limit /\ canonical_bytes r = l.
Proof.
  unfold from_canonical_with_member_limit. intros H. inv_ok. boolp.
  apply (decode_with_sound _ _ _ _ _ _ (reads_revision limit)) in H0 as (enc & -> & Hw & Hlim & ->).
  by rewrite canonical_bytes_eq.
Qed.

(** A revision that exists in memory: its bytes fit a slice. *)
Definition revision_ok (r : RosterRevision) : Prop := roster_wf r /\ addressable (canonical_bytes r).

Lemma canonical_bytes_inj r s :
  revision_ok r -> revision_ok s -> canonical_bytes r = canonical_bytes s -> r = s.
Proof.
  intros [Hr Ha] [Hs _] E.
  set (limit := Z.max (Z.of_nat (size (rev_members r))) (Z.of_nat (size (rev_members s)))).
  assert (Ok (E := RosterError) r = Ok s) as [= ->]; [|done].
  rewrite <-(proj2 (from_canonical_iff (canonical_bytes r) limit r Ha)) by (split; [done|]; split; [lia | done]).
  apply from_canonical_iff; [done|]. split; [done|]. split; [lia | done].
Qed.

(** ** Validation *)

Section validation.
Context `{Crypto}.

(** The signature of a revision is that of its author. *)
Definition signed (r : RosterRevision) : Prop :=
  verifying_key_from_bytes (eid (rev_author r)) = true /\
  verify_strict (eid (rev_author r)) (unsigned_canonical_bytes r) (rev_signature r) = true.

Lemma verify_signature_Ok r : verify_signature r (rev_author r) = Ok tt <-> signed r.
Proof.
  unfold verify_signature, signed. destruct (verifying_key_from_bytes _); simpl; [|by split; [|intros [? _]]].
  destruct (verify_strict _ _ _); split; [done | done | done | by intros [_ ?]].
Qed.

Lemma validate_genesis_Ok r :
  validate_genesis r = Ok tt <->
  rev_number r = 0 /\ rev_parent_hash r = None /\ signed r /\
  exists creator, rev_change r = Initialize creator /\ rev_author r = member_id creator /\
    rev_members r = {[ member_id creator := member_name creator ]}.
Proof.
  unfold validate_genesis. destruct (Z.eqb_spec (rev_number r) 0) as [Hn|Hn]; simpl; [|naive_solver].
  case_bool_decide as Hh; [split; [done|]; intros (_ & E & _); rewrite E in Hh; by destruct Hh|].
  apply eq_None_not_Some in Hh. destruct (rev_change r) as [m|m|id]; [|naive_solver..].
  case_bool_decide as Ha; simpl; [naive_solver|].
  destruct (Z.eqb_spec (Z.of_nat (size (rev_members r))) 1) as [Hs|Hs]; simpl.
  - case_bool_decide as Hm; simpl.
    + split; [done|]. intros (_ & _ & _ & c & [= <-] & _ & E). rewrite E in Hm.
      by rewrite lookup_singleton_eq in Hm.
    + rewrite verify_signature_Ok.
      assert (rev_members r = {[member_id m := member_name m]}) as E.
      { rewrite <-(insert_delete_id (rev_members r) (member_id m) (member_name m)) by done.
        rewrite (map_size_empty_inv (delete (member_id m) (rev_members r))); [done|].
        rewrite map_size_delete, Hm. lia. }
      naive_solver.
  - split; [done|]. intros (_ & _ & _ & c & _ & _ & E). rewrite E in Hs.
    by rewrite map_size_singleton in Hs.
Qed.

Lemma validate_child_Ok r parent :
  validate_child r parent = Ok tt <->
  rev_group_id r = rev_group_id parent /\ 0 <= rev_number parent + 1 < 2 ^ 64 /\
  rev_number r = rev_number parent + 1 /\ rev_parent_hash r = Some (canonical_hash parent) /\
  is_Some (rev_members parent !! rev_author r) /\
  apply_change (rev_members parent) (rev_change r) = Ok (rev_members r) /\ signed r.
Proof.
  unfold validate_child. rewrite <-not_eq_None_Some. split.
  - intros Hv. apply check_not_Ok in Hv as [Hg Hv]. inv_ok. boolp.
    apply u64_checked_add_Some in H0 as [-> Hb]. apply verify_signature_Ok in Hv.
    apply dec_stable in Hg. 
    repeat match goal with H : ~ (_ <> _) |- _ => apply dec_stable in H end. subst. naive_solver.
  - intros (Hg & Hb & Hn & Hh & Ha & Hc & Hs). rewrite bool_decide_eq_false_2 by naive_solver.
    rewrite (proj2 (u64_checked_add_Some _ _ _) (conj eq_refl Hb)). simpl.
    rewrite Hn, Z.eqb_refl. simpl. rewrite bool_decide_eq_false_2 by naive_solver.
    rewrite bool_decide_eq_false_2 by done.
    assert (is_initialize (rev_change r) = false) as -> by (by destruct (rev_change r)).
    rewrite Hc. simpl. rewrite bool_decide_eq_false_2 by naive_solver. by apply verify_signature_Ok.
Qed.

(** *** Changes of membership *)

Lemma apply_change_Ok members change members' :
  apply_change members change = Ok members' <->
  match change with
  | Initialize _ => False
  | Admit m => validate_device_name (member_name m) = Ok tt /\ members !! member_id m = None /\
      members' = <[member_id m := member_name m]> members
  | Remove id => is_Some (members !! id) /\ members' = delete id members
  end.
Proof.
  destruct change as [m|m|id]; simpl; [done|..].
  - destruct (validate_device_name (member_name m)) as [[]|]; simpl; [|naive_solver].
    destruct (members !! member_id m); naive_solver.
  - destruct (members !! id) eqn:E; [|by split; [|intros [[? ?] _]]]. naive_solver.
Qed.

Lemma child_authored_by_member r parent :
  validate_child r parent = Ok tt -> is_Some (rev_members parent !! rev_author r).
Proof. rewrite validate_child_Ok. naive_solver. Qed.

Lemma removed_not_member r parent id :
  validate_child r parent = Ok tt -> rev_change r = Remove id -> rev_members r !! id = None.
Proof.
  rewrite validate_child_Ok. intros (_ & _ & _ & _ & _ & Hc & _) E.
  rewrite E in Hc. apply apply_change_Ok in Hc as [_ ->]. by apply lookup_delete_eq.
Qed.

(** *** Constructors *)

Lemma unsigned_set_signature r s :
  unsigned_canonical_bytes (set_signature r s) = unsigned_canonical_bytes r.
Proof. done. Qed.

Lemma signed_by_author `{!CryptoLaws} r author :
  identity_wf author -> rev_author r = endpoint_id author ->
  signed (set_signature r (sign author (unsigned_canonical_bytes r))).
Proof.
  intros Hw Ha. unfold signed. rewrite unsigned_set_signature.
  change (rev_author (set_signature r _)) with (rev_author r).
  assert (eid (rev_author r) = verifying_key (signing_key author)) as -> by (by rewrite Ha, Hw).
  split; [apply verifying_key_valid | apply sign_verifies].
Qed.

Definition genesis_revision (group_id : GroupId) (creator_name : bytes) (creator : DeviceIdentity) :=
  let revision := mkRevision group_id 0 None {[ endpoint_id creator := creator_name ]}
    (Initialize (mkMember (endpoint_id creator) creator_name)) (endpoint_id creator)
    (array_repeat 64 "000"%byte) in
  set_signature revision (sign creator (unsigned_canonical_bytes revision)).

(** With a working signature scheme a genesis is refused for its name only. *)
Lemma genesis_Ok `{!CryptoLaws} g name creator r :
  identity_wf creator ->
  genesis g name creator = Ok r <->
  validate_device_name name = Ok tt /\ r = genesis_revision g name creator.
Proof.
  intros Hw. unfold genesis, member_new.
  destruct (validate_device_name name) as [[]|e]; simpl; [|naive_solver].
  assert (validate_genesis (genesis_revision g name creator) = Ok tt) as Hv.
  { apply validate_genesis_Ok. split; [done|]. split; [done|]. split; [by apply signed_by_author|].
    by eexists. }
  unfold genesis_revision in *. rewrite Hv. simpl. naive_solver.
Qed.

Definition child_revision (parent : RosterRevision) (members : gmap EndpointId bytes)
    (change : RosterChange) (author : DeviceIdentity) :=
  let revision := mkRevision (rev_group_id parent) (rev_number parent + 1)
    (Some (canonical_hash parent)) members change (endpoint_id author)
    (array_repeat 64 "000"%byte) in
  set_signature revision (sign author (unsigned_canonical_bytes revision)).

(** A child is built exactly when its author is active, the change applies and
    the number fits; it validates against its parent. *)
Lemma child_Ok `{!CryptoLaws} parent change author r :
  identity_wf author ->
  child parent change author = Ok r <->
  is_Some (rev_members parent !! endpoint_id author) /\ 0 <= rev_number parent + 1 < 2 ^ 64 /\
  exists members, apply_change (rev_members parent) change = Ok members /\
    r = child_revision parent members change author.
Proof.
  intros Hw. unfold child. rewrite <-not_eq_None_Some. split.
  - intros Hc. inv_ok. boolp.
    match goal with H : u64_checked_add _ _ = Some _ |- _ => apply u64_checked_add_Some in H as [-> Hb] end.
    eauto 10.
  - intros (Ha & Hb & members & Hc & ->). rewrite bool_decide_eq_false_2 by done.
    assert (is_initialize change = false) as -> by (by destruct change).
    rewrite Hc. cbn [rbind]. rewrite (proj2 (u64_checked_add_Some _ _ _) (conj eq_refl Hb)).
    cbn [ok_or rbind]. fold (child_revision parent members change author).
    assert (validate_child (child_revision parent members change author) parent = Ok tt) as Hv.
    { apply validate_child_Ok. split; [done|]. split; [done|]. split; [done|]. split; [done|].
      split; [by apply not_eq_None_Some|]. split; [done|]. by apply signed_by_author. }
    unfold child_revision in Hv |- *. by rewrite Hv.
Qed.

Lemma child_validates `{!CryptoLaws} parent change author r :
  identity_wf author -> child parent change author = Ok r ->
  validate_child r parent = Ok tt /\ rev_change r = change /\ rev_author r = endpoint_id author.
Proof.
  intros Hw Hc. pose proof Hc as (_ & _ & members & Ha & ->)%child_Ok; [|done].
  split; [|done]. unfold child in Hc. inv_ok. done.
Qed.

Lemma apply_change_wf members change members' :
  map_Forall (fun _ => name_ok) members -> change_ok change ->
  apply_change members change = Ok members' -> map_Forall (fun _ => name_ok) members'.
Proof.
  intros Hm Hc. rewrite apply_change_Ok. destruct change as [m|m|id]; [done|..].
  - intros (_ & _ & ->). by apply map_Forall_insert_2.
  - intros (_ & ->). by apply map_Forall_delete.
Qed.

(** ** Selection *)

Lemma max_by_key_fold l best r :
  fold_left (fun best r =>
    match best with
    | None => Some r
    | Some b => if ltb (selection_key r) (selection_key b) then Some b else Some r
    end) l (Some best) = Some r ->
  r ∈ best :: l /\ forall x, x ∈ best :: l -> ole (selection_key x) (selection_key r).
Proof.
  revert best. induction l as [|y l IH]; intros best; simpl.
  - intros [= ->]. split; [left|]. intros x [->|Hx%not_elem_of_nil]%elem_of_cons; [|done].
    apply ole_lt_eq. by right.
  - destruct (ltb (selection_key y) (selection_key best)) eqn:E.
    + intros [Hr Hm]%IH. split; [set_solver|]. intros x Hx. rewrite !elem_of_cons in Hx.
      destruct Hx as [->|[->|Hx]]; [apply Hm; left | | apply Hm; by right].
      apply ltb_olt in E. transitivity (selection_key best); [|apply Hm; left].
      apply ole_lt_eq. by left.
    + intros [Hr Hm]%IH. split; [set_solver|]. intros x Hx. rewrite !elem_of_cons in Hx.
      destruct Hx as [->|[->|Hx]]; [| apply Hm; left | apply Hm; by right].
      transitivity (selection_key y); [|apply Hm; left].
      apply not_lt_le. intros Hlt%ltb_olt. congruence.
Qed.

Lemma max_by_key_Some l r :
  max_by_key l = Some r -> r ∈ l /\ forall x, x ∈ l -> ole (selection_key x) (selection_key r).
Proof. destruct l as [|b l]; [done|]. apply max_by_key_fold. Qed.

Lemma max_by_key_None l : max_by_key l = None <-> l = [].
Proof.
  split; [|by intros ->]. destruct l as [|b l]; [done|]. unfold max_by_key. simpl. intros Hs.
  exfalso. revert b Hs. induction l as [|y l IH]; intros b; simpl; [done|]. case_match; apply IH.
Qed.

Definition valid_children (parent : RosterRevision) (candidates : list RosterRevision) :=
  List.filter (fun candidate => is_ok (validate_child candidate parent)) candidates.

Lemma valid_children_elem parent candidates r :
  r ∈ valid_children parent candidates <-> r ∈ candidates /\ validate_child r parent = Ok tt.
Proof.
  unfold valid_children. rewrite !list_elem_of_In, filter_In, is_ok_true.
  split; [intros [? [[] ?]] | intros [? ?]]; eauto.
Qed.

(** The chosen child is a valid candidate, and none has a greater key. *)
Lemma select_child_Some parent candidates r :
  select_child parent candidates = Some r ->
  r ∈ candidates /\ validate_child r parent = Ok tt /\
  forall x, x ∈ candidates -> validate_child x parent = Ok tt ->
    ole (selection_key x) (selection_key r).
Proof.
  intros [Hr Hm]%max_by_key_Some. apply valid_children_elem in Hr as [Hr Hv].
  split; [done|]. split; [done|]. intros x Hx Hxv. apply Hm. by apply valid_children_elem.
Qed.

Lemma select_child_None parent candidates :
  select_child parent candidates = None <->
  forall x, x ∈ candidates -> validate_child x parent <> Ok tt.
Proof.
  unfold select_child. rewrite max_by_key_None. fold (valid_children parent candidates). split.
  - intros E x Hx Hv. assert (x ∈ valid_children parent candidates) as Hin
      by (by apply valid_children_elem). rewrite E in Hin. by apply not_elem_of_nil in Hin.
  - intros Hn. destruct (valid_children parent candidates) as [|x l] eqn:E; [done|].
    assert (x ∈ valid_children parent candidates) as Hin by (rewrite E; left).
    apply valid_children_elem in Hin as [Hx Hv]. by apply Hn in Hx.
Qed.

(** The hash separates the revisions of a set. *)
Definition roster_separates (rs : list RosterRevision) : Prop :=
  Forall revision_ok rs /\ collision_free (map canonical_bytes rs).

Lemma selection_key_inj rs r s :
  roster_separates rs -> r ∈ rs -> s ∈ rs -> selection_key r = selection_key s -> r = s.
Proof.
  intros [Hwf Hcf] Hr Hs [= _ Hh]. rewrite Forall_forall in Hwf.
  apply canonical_bytes_inj; [by apply Hwf..|].
  apply Hcf; [by apply list_elem_of_fmap_2..|]. done.
Qed.

Lemma roster_separates_subset rs rs' :
  (forall r, r ∈ rs' -> r ∈ rs) -> roster_separates rs -> roster_separates rs'.
Proof.
  intros Hsub [Hwf Hcf]. rewrite Forall_forall in Hwf. split.
  - apply Forall_forall. auto.
  - intros x y (r & -> & Hr)%list_elem_of_fmap (s & -> & Hs)%list_elem_of_fmap.
    apply Hcf; apply list_elem_of_fmap_2; auto.
Qed.

(** The choice depends on the set of candidates only. *)
Lemma select_child_set parent candidates candidates' :
  roster_separates candidates -> (forall r, r ∈ candidates <-> r ∈ candidates') ->
  select_child parent candidates = select_child parent candidates'.
Proof.
  intros Hsep Heq.
  destruct (select_child parent candidates) as [r|] eqn:E, (select_child parent candidates') as [r'|] eqn:E'.
  - apply select_child_Some in E as (Hr & Hv & Hm), E' as (Hr' & Hv' & Hm').
    f_equal. apply (selection_key_inj candidates); [done..| by apply Heq |].
    apply (anti_symm ole); [apply Hm'; [by apply Heq | done] | apply Hm; [by apply Heq | done]].
  - apply select_child_Some in E as (Hr & Hv & _). exfalso.
    rewrite select_child_None in E'. apply (E' r); [by apply Heq | done].
  - apply select_child_Some in E' as (Hr & Hv & _). exfalso.
    rewrite select_child_None in E. apply (E r'); [by apply Heq | done].
  - done.
Qed.
End validation.

(** ** Chains *)

Section chains.
Context `{Crypto}.

(** Each revision of the list validates against the one before it. *)
Fixpoint valid_chain (parent : RosterRevision) (l : list RosterRevision) : Prop :=
  match l with
  | [] => True
  | r :: l => validate_child r parent = Ok tt /\ valid_chain r l
  end.

(** What [select_chain_loop] computes, without the fuel: the greatest valid
    child, repeatedly, until there is none. *)
Inductive selected (candidates : list RosterRevision) : RosterRevision -> list RosterRevision -> Prop :=
  | selected_end parent :
      select_child parent candidates = None -> selected candidates parent []
  | selected_step parent child l :
      select_child parent candidates = Some child -> selected candidates child l ->
      selected candidates parent (child :: l).

Lemma selected_functional candidates parent l l' :
  selected candidates parent l -> selected candidates parent l' -> l = l'.
Proof.
  intros Hl. revert l'. induction Hl as [p E|p c l E Hl IH]; intros l' Hl'; inversion Hl'; subst; try congruence.
  assert (child0 = c) as -> by congruence. f_equal. auto.
Qed.

Lemma select_chain_loop_sound fuel parent candidates l :
  select_chain_loop fuel parent candidates = Some l -> selected candidates parent l.
Proof.
  revert parent l. induction fuel as [|fuel IH]; intros parent l; simpl; [done|].
  destruct (select_child parent candidates) as [c|] eqn:E; [|intros [= <-]; by constructor].
  destruct (select_chain_loop fuel c candidates) as [l'|] eqn:El; [|done].
  intros [= <-]. econstructor; eauto.
Qed.

(** The candidates that a chain from [parent] can still use. *)
Definition later (parent : RosterRevision) (candidates : list RosterRevision) : nat :=
  length (List.filter (fun r => rev_number parent <? rev_number r) candidates).

Lemma filter_length_le {A} (f g : A -> bool) l :
  (forall x, f x = true -> g x = true) -> (length (List.filter f l) <= length (List.filter g l))%nat.
Proof.
  intros Hfg. induction l as [|x l IH]; simpl; [done|].
  destruct (f x) eqn:Ef; [rewrite (Hfg x Ef); simpl; lia|]. destruct (g x); simpl; lia.
Qed.

Lemma filter_length_lt {A} (f g : A -> bool) l x :
  (forall x, f x = true -> g x = true) -> x ∈ l -> f x = false -> g x = true ->
  (length (List.filter f l) < length (List.filter g l))%nat.
Proof.
  intros Hfg Hx Hf Hg. induction l as [|y l IH]; [by apply not_elem_of_nil in Hx|].
  apply elem_of_cons in Hx as [<-|Hx]; simpl.
  - rewrite Hf, Hg. simpl. pose proof (filter_length_le f g l Hfg). lia.
  - specialize (IH Hx). destruct (f y) eqn:Ef; [rewrite (Hfg y Ef); simpl; lia|].
    destruct (g y); simpl; lia.
Qed.

Lemma select_child_later parent candidates child :
  select_child parent candidates = Some child -> (later child candidates < later parent candidates)%nat.
Proof.
  intros (Hc & Hv & _)%select_child_Some.
  apply validate_child_Ok in Hv as (_ & _ & Hn & _).
  apply (filter_length_lt _ _ _ child); [|done|..].
  - intros x Hx. boolp. apply Z.ltb_lt. lia.
  - apply Z.ltb_irrefl.
  - apply Z.ltb_lt. lia.
Qed.

Lemma select_chain_loop_enough fuel parent candidates :
  (later parent candidates < fuel)%nat -> exists l, select_chain_loop fuel parent candidates = Some l.
Proof.
  revert parent. induction fuel as [|fuel IH]; intros parent Hf; [lia|]. simpl.
  destruct (select_child parent candidates) as [c|] eqn:E; [|eauto].
  apply select_child_later in E. destruct (IH c) as [l ->]; [lia|]. eauto.
Qed.

(** The loop ends, within the rounds [select_chain] gives it. *)
Lemma select_chain_Ok g candidates :
  validate_genesis g = Ok tt ->
  exists l, select_chain g candidates = Ok l /\ selected candidates g l.
Proof.
  intros Hg. unfold select_chain. rewrite Hg. cbn [rbind].
  destruct (select_chain_loop_enough (S (length candidates)) g candidates) as [l Hl].
  { pose proof (filter_length_le (fun r => rev_number g <? rev_number r) (fun _ => true) candidates
      ltac:(done)) as Hle. rewrite filter_true in Hle. unfold later. lia. }
  rewrite Hl. exists l. split; [done|]. by apply select_chain_loop_sound in Hl.
Qed.

Lemma select_chain_iff g candidates l :
  select_chain g candidates = Ok l <-> validate_genesis g = Ok tt /\ selected candidates g l.
Proof.
  split.
  - intros Hs. assert (validate_genesis g = Ok tt) as Hg.
    { unfold select_chain in Hs. by destruct (validate_genesis g) as [[]|]. }
    split; [done|]. destruct (select_chain_Ok g candidates Hg) as (l' & Hl' & Hsel). congruence.
  - intros [Hg Hsel]. destruct (select_chain_Ok g candidates Hg) as (l' & Hl' & Hsel').
    rewrite Hl'. f_equal. by eapply selected_functional.
Qed.

Lemma selected_valid candidates parent l :
  selected candidates parent l ->
  valid_chain parent l /\ Forall (fun r => r ∈ candidates) l /\
  select_child (List.last l parent) candidates = None.
Proof.
  induction 1 as [p E|p c l E Hl (IHv & IHf & IHe)]; [done|].
  apply select_child_Some in E as (Hc & Hv & _). split; [done|]. split; [by constructor|].
  destruct l as [|c' l]; [done|]. revert IHe. clear. simpl. revert c'.
  induction l as [|c'' l IH]; intros c'; simpl; [done|]. apply IH.
Qed.

Lemma selected_set candidates candidates' parent l :
  roster_separates candidates -> (forall r, r ∈ candidates <-> r ∈ candidates') ->
  selected candidates parent l -> selected candidates' parent l.
Proof.
  intros Hsep Heq. induction 1 as [p E|p c l E Hl IH]; [apply selected_end | eapply selected_step; [|done]].
  - by rewrite <-(select_child_set p candidates candidates').
  - by rewrite <-(select_child_set p candidates candidates').
Qed.

(** Numbers along a chain count up from the parent. *)
Lemma valid_chain_number parent l i r :
  valid_chain parent l -> l !! i = Some r -> rev_number r = rev_number parent + Z.of_nat i + 1.
Proof.
  revert parent i. induction l as [|c l IH]; intros parent i; [done|].
  intros [Hv Hl]. apply validate_child_Ok in Hv as (_ & _ & Hn & _). destruct i as [|i].
  - intros [= <-]. lia.
  - intros Hr. rewrite (IH c i) by done. lia.
Qed.

Lemma valid_chain_app parent l l' :
  valid_chain parent (l ++ l') <-> valid_chain parent l /\ valid_chain (List.last l parent) l'.
Proof.
  revert parent. induction l as [|c l IH]; intros parent; simpl; [by split; [|intros [_ ?]]|].
  rewrite IH. assert (List.last l c = match l with [] => c | _ => List.last l parent end) as ->.
  { clear. destruct l as [|x l]; [done|]. revert x. induction l as [|y l IH]; intros x; [done|]. apply IH. }
  tauto.
Qed.
End chains.

(** ** Exclusion of removed devices *)

Section exclusion.
Context `{Crypto}.

Definition admits (id : EndpointId) (r : RosterRevision) : bool :=
  match rev_change r with Admit m => bool_decide (member_id m = id) | _ => false end.

Definition excludes (id : EndpointId) (r : RosterRevision) : Prop :=
  rev_author r <> id /\ rev_members r !! id = None.

Lemma excluded_step id parent r :
  rev_members parent !! id = None -> validate_child r parent = Ok tt -> admits id r = false ->
  excludes id r.
Proof.
  intros Hid (_ & _ & _ & _ & [name Ha] & Hc & _)%validate_child_Ok Hadm. split; [congruence|].
  apply apply_change_Ok in Hc. unfold admits in Hadm. destruct (rev_change r) as [m|m|id']; [done|..].
  - destruct Hc as (_ & _ & ->). boolp. by rewrite lookup_insert_ne.
  - destruct Hc as [_ ->]. apply lookup_delete_None. by right.
Qed.

Lemma excluded_chain id parent l :
  rev_members parent !! id = None -> valid_chain parent l ->
  Forall (fun r => admits id r = false) l -> Forall (excludes id) l.
Proof.
  revert parent. induction l as [|r l IH]; intros parent Hid Hl Hadm; [constructor|].
  destruct Hl as [Hv Hl]. inversion Hadm; subst.
  pose proof (excluded_step id parent r Hid Hv ltac:(done)) as Hr.
  constructor; [done|]. apply (IH r); [apply Hr | done..].
Qed.

(** What [select_child] promises, as a specification of its result. *)
Definition best_child (parent : RosterRevision) (candidates : list RosterRevision)
    (r : RosterRevision) : Prop :=
  r ∈ candidates /\ validate_child r parent = Ok tt /\
  forall x, x ∈ candidates -> validate_child x parent = Ok tt ->
    ole (selection_key x) (selection_key r).

Lemma best_child_removal parent candidates r x id :
  best_child parent candidates r -> x ∈ candidates -> validate_child x parent = Ok tt ->
  rev_change x = Remove id -> exists id', rev_change r = Remove id'.
Proof.
  intros (_ & _ & Hm) Hx Hv E. specialize (Hm x Hx Hv). unfold selection_key in Hm.
  rewrite E in Hm. destruct (rev_change r) as [m|m|id']; [..|eauto]; by destruct Hm.
Qed.
End exclusion.

(** ** Properties *)

(** Revisions have one encoding.  Every well-formed revision within the
    receiver's member limit is decoded from its canonical bytes; and the decoder
    is strict: what it accepts is the only encoding of a well-formed revision
    (ascending members, valid names, known tags, no trailing bytes) with no
    more members than the limit. *)
Theorem roster_codec l r limit :
  (revision_ok r -> Z.of_nat (size (rev_members r)) <= limit ->
   unsigned_encode r = Ok (unsigned_canonical_bytes r) /\
   from_canonical_with_member_limit (canonical_bytes r) limit = Ok r) /\
  (from_canonical_with_member_limit l limit = Ok r ->
   roster_wf r /\ Z.of_nat (size (rev_members r)) <= limit /\ canonical_bytes r = l).
Proof.
  split; [|apply from_canonical_sound]. intros [Hr Ha] Hl. split; [|by apply from_canonical_iff].
  unfold unsigned_canonical_bytes. by rewrite unsigned_encode_Ok.
Qed.


(** With a signature scheme that verifies its own signatures, a genesis and
    a child made by a device validate everywhere, and construction fails only
    for the reasons the error type names: an invalid device name; an inactive
    author, a change that does not apply, a number past [u64::MAX]. *)
Theorem roster_construction `{Crypto} `{!CryptoLaws} g name parent change author :
  identity_wf author ->
  (validate_device_name name = Ok tt <-> exists r, genesis g name author = Ok r /\
    validate_genesis r = Ok tt /\ rev_members r = {[ endpoint_id author := name ]}) /\
  (is_Some (rev_members parent !! endpoint_id author) /\ 0 <= rev_number parent + 1 < 2 ^ 64 /\
   (exists members, apply_change (rev_members parent) change = Ok members) <->
   exists r, child parent change author = Ok r /\ validate_child r parent = Ok tt /\
     rev_change r = change /\ rev_author r = endpoint_id author).
Proof.
  intros Hw. split; split.
  - intros Hn. exists (genesis_revision g name author).
    assert (genesis g name author = Ok (genesis_revision g name author)) as Hg by by apply genesis_Ok.
    split; [done|]. split; [|done]. revert Hg. unfold genesis. intros Hg. by inv_ok.
  - intros (r & Hr & _). by apply genesis_Ok in Hr as [? _].
  - intros (Ha & Hb & members & Hc). exists (child_revision parent members change author).
    assert (child parent change author = Ok (child_revision parent members change author)) as Hr
      by (apply child_Ok; eauto 10).
    split; [done|]. by apply child_validates in Hr.
  - intros (r & (Ha & Hb & members & Hc & _)%child_Ok & _); eauto.
Qed.

(** C36: Once a revision of a valid chain removes a device, no later revision of
    the chain is authored by that device or has it as a member, until one
    admits it again: a removed device cannot act on its own behalf. *)
Theorem removed_device_excluded `{Crypto} g before removal after id :
  valid_chain g (before ++ removal :: after) -> rev_change removal = Remove id ->
  Forall (fun r => admits id r = false) after ->
  rev_members removal !! id = None /\ Forall (excludes id) after.
Proof.
  intros [_ [Hv Hl]]%valid_chain_app Hr Hadm.
  assert (rev_members removal !! id = None) as Hid by by eapply removed_not_member.
  split; [done|]. by apply (excluded_chain id removal).
Qed.

(** Among the candidates that validate against a parent, [select_child]
    takes one of greatest priority and hash; it returns none only when no
    candidate validates, and a valid removal beats every admission. *)
Theorem select_child_correct `{Crypto} parent candidates :
  match select_child parent candidates with
  | Some r => best_child parent candidates r /\
      (forall x id, x ∈ candidates -> validate_child x parent = Ok tt -> rev_change x = Remove id ->
        exists id', rev_change r = Remove id')
  | None => forall x, x ∈ candidates -> validate_child x parent <> Ok tt
  end.
Proof.
  destruct (select_child parent candidates) as [r|] eqn:E.
  - apply select_child_Some in E. split; [done|]. intros x id. by apply best_child_removal.
  - by apply select_child_None.
Qed.

(** C35: From a valid genesis the selection of a chain always ends; every
    revision of it is a candidate that validates against the one before, the
    numbers count up by one, and nothing among the candidates extends its end. *)
Theorem select_chain_correct `{Crypto} g candidates :
  validate_genesis g = Ok tt ->
  exists l, select_chain g candidates = Ok l /\ valid_chain g l /\
    Forall (fun r => r ∈ candidates) l /\
    (forall i r, l !! i = Some r -> rev_number r = Z.of_nat i + 1) /\
    (forall x, x ∈ candidates -> validate_child x (List.last l g) <> Ok tt).
Proof.
  intros Hg. destruct (select_chain_Ok g candidates Hg) as (l & Hl & Hs).
  pose proof (selected_valid _ _ _ Hs) as (Hv & Hin & He).
  exists l. split; [done|]. split; [done|]. split; [done|]. split.
  - intros i r Hr. rewrite (valid_chain_number g l i r Hv Hr).
    apply validate_genesis_Ok in Hg as [-> _]. lia.
  - by apply select_child_None.
Qed.

(** Devices that hold the same set of revisions select the same chain,
    whatever the order and the multiplicity in which they hold them, as long as
    the hash separates the revisions. *)
Theorem select_chain_deterministic `{Crypto} g candidates candidates' :
  roster_separates candidates -> (forall r, r ∈ candidates <-> r ∈ candidates') ->
  select_chain g candidates = select_chain g candidates'.
Proof.
  intros Hsep Heq. destruct (select_chain g candidates) as [l|e] eqn:E.
  - apply select_chain_iff in E as [Hg Hs]. symmetry. apply select_chain_iff. split; [done|].
    by apply (selected_set candidates).
  - revert E. unfold select_chain. by destruct (validate_genesis g) as [[]|].
Qed.

(** ** Examples *)

Section examples.
#[local] Existing Instance toy_crypto.
#[local] Existing Instance toy_crypto_laws.

Definition alice : DeviceIdentity := toy_identity "010"%byte.
Definition bob : DeviceIdentity := toy_identity "020"%byte.
Definition carol : DeviceIdentity := toy_identity "030"%byte.
Definition example_group : GroupId := mkGroupId (array_repeat 32 "007"%byte).
Definition example_genesis : RosterRevision := genesis_revision example_group (lit "alice") alice.

(** The child when it is made, the parent otherwise. *)
Definition example_child (parent : RosterRevision) (change : RosterChange) (author : DeviceIdentity) :=
  match child parent change author with Ok r => r | Err _ => parent end.

Definition admit_bob : RosterRevision :=
  example_child example_genesis (Admit (mkMember (endpoint_id bob) (lit "bob"))) alice.
Definition admit_carol : RosterRevision :=
  example_child admit_bob (Admit (mkMember (endpoint_id carol) (lit "carol"))) bob.
Definition remove_bob : RosterRevision := example_child admit_bob (Remove (endpoint_id bob)) alice.
Definition rename_alice : RosterRevision :=
  example_child remove_bob (Admit (mkMember (endpoint_id carol) (lit "carol"))) alice.
Definition example_candidates : list RosterRevision :=
  [rename_alice; admit_carol; admit_bob; remove_bob; admit_bob].

#[local] Opaque example_genesis admit_bob admit_carol remove_bob rename_alice.

#[local] Instance addressable_dec l : Decision (addressable l).
Proof. unfold addressable. apply _. Defined.
#[local] Instance revision_ok_dec r : Decision (revision_ok r).
Proof. unfold revision_ok. apply _. Defined.

Lemma roster_codec_witness :
  from_canonical_with_member_limit (canonical_bytes admit_bob) 2 = Ok admit_bob.
Proof. apply (roster_codec []); [evaluate | done]. Defined.

Lemma roster_construction_witness :
  exists r, child admit_bob (Remove (endpoint_id bob)) alice = Ok r /\
    validate_child r admit_bob = Ok tt /\
    rev_change r = Remove (endpoint_id bob) /\ rev_author r = endpoint_id alice.
Proof.
  apply (roster_construction example_group (lit "alice") admit_bob (Remove (endpoint_id bob)) alice);
    [done|]. split; [evaluate|]. split; [vm_compute; split; [discriminate | reflexivity]|]. exists (rev_members remove_bob). evaluate.
Defined.

Lemma removed_device_excluded_witness :
  rev_members remove_bob !! endpoint_id bob = None /\ Forall (excludes (endpoint_id bob)) [rename_alice].
Proof.
  apply (removed_device_excluded example_genesis [admit_bob] remove_bob [rename_alice]).
  - split; [evaluate|]. split; [evaluate|]. split; [evaluate | done].
  - evaluate.
  - evaluate.
Defined.

(** The removal wins over the admission, whichever comes first. *)
Lemma select_chain_correct_witness :
  exists l, select_chain example_genesis example_candidates = Ok l /\ valid_chain example_genesis l.
Proof.
  destruct (select_chain_correct example_genesis example_candidates) as (l & Hl & Hv & _); [evaluate|].
  exists l. exact (conj Hl Hv).
Defined.

Lemma select_chain_example :
  select_chain example_genesis example_candidates = Ok [admit_bob; remove_bob; rename_alice].
Proof. evaluate. Qed.

Lemma select_chain_deterministic_witness :
  select_chain example_genesis example_candidates
  = select_chain example_genesis [admit_bob; remove_bob; rename_alice; admit_carol].
Proof.
  apply select_chain_deterministic.
  - split; [evaluate|]. apply collision_free_decide. by vm_compute.
  - intros r. unfold example_candidates. generalize rename_alice, admit_carol, admit_bob, remove_bob.
    clear. intros. rewrite !elem_of_cons, !elem_of_nil. tauto.
Defined.
End examples.
