(* ===== verification/RosterConverge.v ===== *)
(** Convergence of membership: what adding revisions to a set does to the
    selected chain, and why one exchange of selected chains makes two devices
    agree. *)

From S2P Require Import Prelude Bytes Utf8 Cursor Canonical Identity Roster.

Section converge.
Context `{Crypto}.
(** All revisions that play a part; the hash separates them. *)
Variable universe : list RosterRevision.
Hypothesis separated : roster_separates universe.

Lemma universe_hash_inj r s :
  r ∈ universe -> s ∈ universe -> canonical_hash r = canonical_hash s -> r = s.
Proof.
  intros Hr Hs E. destruct separated as [Hok Hcf]. rewrite Forall_forall in Hok.
  apply canonical_bytes_inj; [by apply Hok..|].
  apply Hcf; [by apply list_elem_of_fmap_2..|]. by injection E.
Qed.

(** A revision has one parent in the universe. *)
Lemma parent_unique r p q :
  p ∈ universe -> q ∈ universe -> validate_child r p = Ok tt -> validate_child r q = Ok tt -> p = q.
Proof.
  intros Hp Hq Hv%validate_child_Ok Hw%validate_child_Ok. apply universe_hash_inj; [done..|].
  destruct Hv as (_ & _ & _ & E & _), Hw as (_ & _ & _ & E' & _). congruence.
Qed.

(** Selection looks at the valid children only. *)
Lemma select_child_valid parent c c' :
  (forall r, r ∈ c -> r ∈ universe) -> (forall r, r ∈ c' -> r ∈ universe) ->
  (forall r, validate_child r parent = Ok tt -> r ∈ c <-> r ∈ c') ->
  select_child parent c = select_child parent c'.
Proof.
  intros Hc Hc' Heq.
  destruct (select_child parent c) as [r|] eqn:E, (select_child parent c') as [r'|] eqn:E'; [|..|done].
  - apply select_child_Some in E as (Hr & Hv & Hm), E' as (Hr' & Hv' & Hm').
    f_equal. apply (selection_key_inj universe); auto.
    apply (anti_symm ole); [apply Hm'; [by apply Heq | done] | apply Hm; [by apply Heq | done]].
  - apply select_child_Some in E as (Hr & Hv & _). exfalso.
    rewrite select_child_None in E'. apply (E' r); [by apply Heq | done].
  - apply select_child_Some in E' as (Hr & Hv & _). exfalso.
    rewrite select_child_None in E. apply (E r'); [by apply Heq | done].
Qed.

Lemma selected_valid_sets c c' parent l :
  (forall r, r ∈ c -> r ∈ universe) -> (forall r, r ∈ c' -> r ∈ universe) ->
  (forall q r, q ∈ parent :: l -> validate_child r q = Ok tt -> r ∈ c <-> r ∈ c') ->
  selected c parent l -> selected c' parent l.
Proof.
  intros Hc Hc' Heq Hs. induction Hs as [p E|p r l E Hs IH].
  - apply selected_end. rewrite <-E. symmetry. apply select_child_valid; [done..|].
    intros r Hr. by apply (Heq p r); [left|].
  - apply selected_step; [|apply IH].
    + rewrite <-E. symmetry. apply select_child_valid; [done..|]. intros s Hv. by apply (Heq p s); [left|].
    + intros q s Hq. apply Heq. by right.
Qed.

(** *** Sets closed under parents *)

Definition closed (g : RosterRevision) (X : list RosterRevision) : Prop :=
  (forall r, r ∈ X -> r ∈ universe) /\
  forall r, r ∈ X -> exists p, p ∈ g :: X /\ validate_child r p = Ok tt.

Lemma closed_app g X Y : closed g X -> closed g Y -> closed g (X ++ Y).
Proof.
  intros [HX HXp] [HY HYp]. split.
  - intros r [Hr|Hr]%elem_of_app; auto.
  - intros r [Hr|Hr]%elem_of_app; [destruct (HXp r Hr) as (p & Hp & Hv) | destruct (HYp r Hr) as (p & Hp & Hv)];
      exists p; (split; [|done]); rewrite elem_of_cons, elem_of_app in *; tauto.
Qed.

Lemma valid_chain_closed g p l X :
  valid_chain p l -> (forall r, r ∈ l -> r ∈ universe) -> p ∈ g :: X -> closed g X -> closed g (X ++ l).
Proof.
  revert p X. induction l as [|r l IH]; intros p X Hl Hu Hp HX; [by rewrite app_nil_r|].
  destruct Hl as [Hv Hl]. replace (X ++ r :: l) with ((X ++ [r]) ++ l) by by rewrite <-app_assoc.
  apply (IH r); [done | intros s Hs; apply Hu; by right | |].
  - right. apply elem_of_app. right. left.
  - destruct HX as [HXu HXp]. split.
    + intros s [Hs|Hs]%elem_of_app; [by apply HXu|]. apply Hu. apply elem_of_cons. left.
      by apply list_elem_of_singleton in Hs.
    + intros s [Hs|Hs]%elem_of_app.
      * destruct (HXp s Hs) as (q & Hq & Hqv). exists q. split; [|done].
        rewrite elem_of_cons, elem_of_app in *. tauto.
      * apply list_elem_of_singleton in Hs as ->. exists p. split; [|done].
        rewrite elem_of_cons, elem_of_app in *. tauto.
Qed.

Lemma universe_number r : r ∈ universe -> 0 <= rev_number r.
Proof.
  destruct separated as [Hok _]. rewrite Forall_forall in Hok. intros [[Hn _] _]%Hok.
  unfold in_u64 in Hn. boolp. lia.
Qed.

Lemma child_number_pos r p : p ∈ universe -> validate_child r p = Ok tt -> 0 < rev_number r.
Proof. intros Hp%universe_number (_ & Hb & -> & _)%validate_child_Ok. lia. Qed.

(** Nothing in a closed set descends from a revision outside of it. *)
Lemma no_descendants g X b l :
  g ∈ universe -> b ∈ universe -> (forall r, r ∈ l -> r ∈ universe) -> rev_number g = 0 ->
  closed g X -> b ∉ X -> 0 < rev_number b -> valid_chain b l ->
  forall q r, q ∈ b :: l -> r ∈ X -> validate_child r q <> Ok tt.
Proof.
  intros Hg Hb Hl Hg0 HX. revert b Hb Hl. induction l as [|c l IH]; intros b Hb Hl HbX Hb0 Hvl q r Hq Hr Hv.
  - apply list_elem_of_singleton in Hq as ->. destruct HX as [HXu HXp].
    destruct (HXp r Hr) as (p & Hp & Hpv). assert (p ∈ universe) as Hpu
      by (apply elem_of_cons in Hp as [->|?]; auto).
    rewrite (parent_unique r p b Hpu Hb Hpv Hv) in Hp. apply elem_of_cons in Hp as [->|?]; [lia | done].
  - destruct Hvl as [Hcv Hvl]. apply elem_of_cons in Hq as [->|Hq].
    + destruct HX as [HXu HXp]. destruct (HXp r Hr) as (p & Hp & Hpv). assert (p ∈ universe) as Hpu
        by (apply elem_of_cons in Hp as [->|?]; auto).
      rewrite (parent_unique r p b Hpu Hb Hpv Hv) in Hp. apply elem_of_cons in Hp as [->|?]; [lia | done].
    + assert (c ∈ universe) as Hcu by (apply Hl; left).
      assert (c ∉ X) as HcX.
      { intros HcX. destruct HX as [HXu HXp]. destruct (HXp c HcX) as (p & Hp & Hpv).
        assert (p ∈ universe) as Hpu by (apply elem_of_cons in Hp as [->|?]; auto).
        rewrite (parent_unique c p b Hpu Hb Hpv Hcv) in Hp. apply elem_of_cons in Hp as [->|?]; [lia | done]. }
      apply (IH c Hcu (fun s Hs => Hl s (list_elem_of_further _ _ _ Hs)) HcX
               (child_number_pos _ _ Hb Hcv) Hvl q r Hq Hr Hv).
Qed.

(** *** The chain of a union *)

Lemma select_child_max parent c r :
  (forall x, x ∈ c -> x ∈ universe) -> r ∈ c -> validate_child r parent = Ok tt ->
  (forall x, x ∈ c -> validate_child x parent = Ok tt -> ole (selection_key x) (selection_key r)) ->
  select_child parent c = Some r.
Proof.
  intros Hc Hr Hv Hm. destruct (select_child parent c) as [s|] eqn:E.
  - apply select_child_Some in E as (Hs & Hsv & Hsm). f_equal.
    apply (selection_key_inj universe); auto. apply (anti_symm ole); auto.
  - exfalso. rewrite select_child_None in E. by apply (E r).
Qed.

(** A chain selected from [B] is selected from every set that holds the chain
    and, among the children of its revisions, only such as are in [B]. *)
Lemma selected_within B X p l :
  (forall x, x ∈ X -> x ∈ universe) -> (forall x, x ∈ l -> x ∈ X) ->
  (forall q x, q ∈ p :: l -> x ∈ X -> validate_child x q = Ok tt -> x ∈ B) ->
  selected B p l -> selected X p l.
Proof.
  intros HX Hl HXB Hs. induction Hs as [p E|p r l E Hs IH].
  - apply selected_end. apply select_child_None. intros x Hx Hv.
    rewrite select_child_None in E. apply (E x); [|done]. apply (HXB p); [left | done..].
  - apply select_child_Some in E as (Hr & Hv & Hm). apply selected_step.
    + apply select_child_max; [done | apply Hl; left | done |].
      intros x Hx Hxv. apply Hm; [|done]. apply (HXB p); [left | done..].
    + apply IH; [intros x Hx; apply Hl; by right|]. intros q x Hq. apply HXB. by right.
Qed.

Lemma selected_elem c p l r : selected c p l -> r ∈ l -> r ∈ c.
Proof. intros (_ & Hf & _)%selected_valid. by rewrite Forall_forall in Hf; intros ?%Hf. Qed.

(** [b] beats everything that [A] has at [p], so [A] does not hold it. *)
Definition outdoes (A : list RosterRevision) (p b : RosterRevision) : Prop :=
  forall x, x ∈ A -> validate_child x p = Ok tt -> olt (selection_key x) (selection_key b).

Lemma outdone_selected g A B X p b l :
  g ∈ universe -> rev_number g = 0 -> closed g A -> p ∈ universe ->
  (forall x, x ∈ B -> x ∈ universe) -> (forall x, x ∈ X -> x ∈ A \/ x ∈ B) ->
  (forall x, x ∈ b :: l -> x ∈ X) ->
  selected B p (b :: l) -> outdoes A p b -> selected X p (b :: l).
Proof.
  intros Hg Hg0 HA Hp HBu HX HbX Hs Hout.
  pose proof (selected_elem _ _ _ b Hs ltac:(left)) as HbB.
  pose proof Hs as ([Hbv Hvl] & _)%selected_valid.
  assert (b ∉ A) as HbA.
  { intros Hb. by apply (olt_irrefl (selection_key b)), Hout. }
  assert (forall q r, q ∈ b :: l -> r ∈ A -> validate_child r q <> Ok tt) as Hno.
  { apply (no_descendants g); [done | by apply HBu | | done.. | by apply (child_number_pos b p) | done].
    intros r Hr. apply HBu. apply (selected_elem _ _ _ r Hs). by right. }
  assert (forall x, x ∈ X -> x ∈ universe) as HXu.
  { intros x [Hx|Hx]%HX; [by apply HA | by apply HBu]. }
  inversion Hs as [|? ? ? E Hs']; subst. apply select_child_Some in E as (_ & _ & Hm).
  apply selected_step.
  - apply select_child_max; [done | apply HbX; left | done |].
    intros x [Hx|Hx]%HX Hxv; [|by apply Hm]. apply ole_lt_eq. left. by apply Hout.
  - apply (selected_within B); [done | intros x Hx; apply HbX; by right | | done].
    intros q x Hq [Hx|Hx]%HX Hv; [|done]. by destruct (Hno q x Hq Hx).
Qed.

Lemma outdoes_none A p b : select_child p A = None -> outdoes A p b.
Proof. intros E x Hx Hv. rewrite select_child_None in E. by destruct (E x Hx). Qed.

Lemma outdoes_greater A p a b :
  select_child p A = Some a -> olt (selection_key a) (selection_key b) -> outdoes A p b.
Proof.
  intros (_ & _ & Hm)%select_child_Some Hlt x Hx Hv.
  apply Hm, ole_lt_eq in Hx as [Hx| ->]; [|done|done]. by transitivity (selection_key a).
Qed.

(** The heart of convergence: every set between the two selected chains and
    the union of the two sets selects the same chain. *)
Lemma selected_union g A B p la lb :
  g ∈ universe -> rev_number g = 0 -> closed g A -> closed g B -> p ∈ universe ->
  selected A p la -> selected B p lb ->
  exists l, (forall x, x ∈ l -> x ∈ la \/ x ∈ lb) /\
    forall X, (forall x, x ∈ la ++ lb -> x ∈ X) -> (forall x, x ∈ X -> x ∈ A \/ x ∈ B) ->
      selected X p l.
Proof.
  intros Hg Hg0 HA HB Hp Hla. revert lb.
  assert (forall x, x ∈ A -> x ∈ universe) as HAu by apply HA.
  assert (forall x, x ∈ B -> x ∈ universe) as HBu by apply HB.
  induction Hla as [p Ea|p a la Ea Hla IH]; intros lb Hlb.
  - destruct lb as [|b lb].
    + exists []. split; [by intros ? ?%not_elem_of_nil|]. intros X _ HX. apply selected_end.
      inversion Hlb as [? Eb|]; subst. rewrite select_child_None in *.
      intros x [Hx|Hx]%HX; auto.
    + exists (b :: lb). split; [by right|]. intros X Hsub HX.
      apply (outdone_selected g A B); auto using outdoes_none.
  - assert (selected A p (a :: la)) as Hla' by by apply selected_step.
    destruct lb as [|b lb].
    + exists (a :: la). split; [by left|]. intros X Hsub HX. inversion Hlb; subst.
      apply (outdone_selected g B A); auto using outdoes_none.
      -- intros x [?|?]%HX; auto.
      -- intros x Hx. apply Hsub. rewrite app_nil_r. done.
    + inversion Hlb as [|? ? ? Eb Hlb']; subst.
      destruct (decide (selection_key a = selection_key b)) as [E|Hne].
      * apply (selection_key_inj universe) in E; [|done|..].
        2: { apply HAu. by apply select_child_Some in Ea as [? _]. }
        2: { apply HBu. by apply select_child_Some in Eb as [? _]. }
        subst b. destruct (IH ltac:(apply HAu; by apply select_child_Some in Ea as [? _]) lb Hlb')
          as (l & Hl & Hsel). exists (a :: l). split.
        { intros x [->|[Hx|Hx]%Hl]%elem_of_cons; rewrite !elem_of_cons; tauto. }
        intros X Hsub HX. apply selected_step.
        -- apply select_child_Some in Ea as (Haa & Hav & Ham), Eb as (_ & _ & Hbm).
           apply select_child_max; [intros x [?|?]%HX; auto | apply Hsub; left | done |].
           intros x [Hx|Hx]%HX; auto.
        -- apply Hsel; [|done]. intros x Hx. apply Hsub.
           rewrite elem_of_app, !elem_of_cons in *. tauto.
      * destruct (olt_total (selection_key a) (selection_key b)) as [Hlt|[?|Hlt]]; [|done|].
        -- exists (b :: lb). split; [by right|]. intros X Hsub HX.
           apply (outdone_selected g A B); eauto using outdoes_greater.
           intros x Hx. apply Hsub. apply elem_of_app. by right.
        -- exists (a :: la). split; [by left|]. intros X Hsub HX.
           apply (outdone_selected g B A); eauto using outdoes_greater; [intros x [?|?]%HX; auto|].
           intros x Hx. apply Hsub. apply elem_of_app. by left.
Qed.

(** *** Chains that grow *)

Lemma chain_last_number p l :
  valid_chain p l -> rev_number (List.last l p) = rev_number p + Z.of_nat (length l).
Proof.
  revert p. induction l as [|r l IH]; intros p; [simpl; lia|]. intros [Hv Hl].
  assert (List.last (r :: l) p = List.last l r) as ->.
  { clear. destruct l as [|x l]; [done|]. simpl. revert x. induction l as [|y l IH]; intros x; [done|]. apply IH. }
  rewrite IH by done. apply validate_child_Ok in Hv as (_ & _ & -> & _). simpl. lia.
Qed.

Lemma last_of_cons (r p : RosterRevision) l : List.last (r :: l) p = List.last l r.
Proof. destruct l as [|x l]; [done|]. simpl. revert x. induction l as [|y l IH]; intros x; [done|]. apply IH. Qed.

Lemma last_elem (p : RosterRevision) l : List.last l p ∈ p :: l.
Proof.
  revert p. induction l as [|r l IH]; intros p; [left|]. rewrite last_of_cons. right. apply IH.
Qed.

(** A new child of the end of the chain, with no children of its own, extends
    the chain. *)
Lemma selected_extend c c' p l r :
  (forall x, x ∈ c' -> x ∈ universe) -> (forall x, x ∈ c' <-> x ∈ c \/ x = r) -> p ∈ universe ->
  validate_child r (List.last l p) = Ok tt -> (forall x, x ∈ c' -> validate_child x r <> Ok tt) ->
  selected c p l -> selected c' p (l ++ [r]).
Proof.
  intros Hu Heq Hp Hv Hr Hs. induction Hs as [p E|p a l E Hs IH].
  - simpl. rewrite select_child_None in E. apply selected_step; [|apply selected_end; by apply select_child_None].
    apply select_child_max; [done | apply Heq; by right | done |].
    intros x [Hx| ->]%Heq Hxv; [by destruct (E x Hx) | apply ole_lt_eq; by right].
  - rewrite last_of_cons in Hv. pose proof E as (Ha & Hav & Hm)%select_child_Some.
    assert (a ∈ universe) as Hau by (apply Hu, Heq; by left).
    pose proof (selected_valid _ _ _ Hs) as (Hvl & Hf & _). rewrite Forall_forall in Hf.
    apply selected_step; [|by apply IH].
    apply select_child_max; [done | apply Heq; by left | done |].
    intros x [Hx| ->]%Heq Hxv; [by apply Hm|]. exfalso.
    assert (List.last l a ∈ universe) as Hlu.
    { pose proof (last_elem a l) as [->|Hin]%elem_of_cons; [done|]. apply Hu, Heq. left. by apply Hf. }
    pose proof (parent_unique r p _ Hp Hlu Hxv Hv) as Epl.
    pose proof (chain_last_number a l Hvl) as Hn. rewrite <-Epl in Hn.
    apply validate_child_Ok in Hav as (_ & _ & Hna & _). lia.
Qed.

(** A chain with nothing beside it is selected whole. *)
Lemma selected_own_chain p l :
  (forall r, r ∈ l -> r ∈ universe) -> valid_chain p l -> selected l p l.
Proof.
  intros Hu Hl.
  enough (forall m pre q, l = pre ++ m -> q = List.last pre p -> selected l q m) as He by by apply (He l [] p).
  induction m as [|r m IH]; intros pre q Hsplit ->.
  - rewrite app_nil_r in Hsplit. subst pre. apply selected_end, select_child_None.
    intros x Hx Hv. apply list_elem_of_lookup in Hx as [i Hi].
    pose proof (valid_chain_number p l i x Hl Hi) as Hn. pose proof (chain_last_number p l Hl) as Hlast.
    apply validate_child_Ok in Hv as (_ & _ & Hvn & _). apply lookup_lt_Some in Hi. lia.
  - pose proof Hl as Hl'. rewrite Hsplit in Hl'. apply valid_chain_app in Hl' as [Hpre [Hv Hm]].
    assert (l !! length pre = Some r) as Hri by (rewrite Hsplit; by rewrite lookup_app_r, Nat.sub_diag).
    apply selected_step.
    + apply select_child_max; [done | by apply (list_elem_of_lookup_2 _ (length pre)) | done |].
      intros x Hx Hxv. apply ole_lt_eq. right. apply list_elem_of_lookup in Hx as [i Hi].
      pose proof (valid_chain_number p l i x Hl Hi) as Hn. pose proof (chain_last_number p pre Hpre) as Hlast.
      apply validate_child_Ok in Hxv as (_ & _ & Hvn & _).
      assert (i = length pre) as -> by lia. congruence.
    + apply (IH (pre ++ [r])); [by rewrite <-app_assoc|]. by rewrite List.last_last.
Qed.
End converge.
