(* ===== verification/Protocol.v ===== *)
(** protocol.rs: frames, and the payloads two devices exchange in a session,
    with the limits each side enforces. *)

From S2P Require Import Prelude Bytes Utf8 Cursor Canonical Path Identity Concrete Records Roster.

Definition MAX_FRAME_BYTES : Z := 8 * 1024 * 1024.
Definition MAX_MANIFEST_BYTES : Z := 8 * 1024 * 1024.
Definition MAX_MANIFEST_RECORDS : Z := 10000.
Definition MAX_ROSTER_BYTES : Z := 2 * 1024 * 1024.
Definition MAX_ROSTER_REVISIONS : Z := 1024.
Definition MAX_ROSTER_MEMBERS : Z := 1024.
Definition MAX_COLLECTIONS : Z := 64.
Definition MAX_COLLECTION_NAME_BYTES : Z := 255.
Definition MAX_PATH_BYTES : Z := 4096.
Definition MAX_FILE_BYTES : Z := 64 * 1024 * 1024.
Definition MAX_TRANSFERS : Z := 1024.
Definition MAX_SESSION_FILE_BYTES : Z := 192 * 1024 * 1024.
Definition MAX_ADDRESS_HINT_BYTES : Z := 16 * 1024.
Definition MAX_ENDPOINT_ADDRS : Z := 32.
Definition MAX_CONNECTION_BYTES : Z := 256 * 1024 * 1024.
Definition HEADER_BYTES : Z := 5.

Inductive ProtocolError :=
  | PTruncated
  | PTrailingBytes
  | UnknownFrameType
  | UnexpectedFrame
  | FrameLimit
  | ConnectionLimit
  | CountLimit
  | PLengthOverflow
  | PInvalidUtf8
  | StringLimit
  | CollectionLimit
  | UnorderedCollections
  | DuplicateCollection
  | PManifestLimit
  | RosterLimit
  | InvalidRoster
  | PathLimit
  | WrongCollection
  | FileLimit
  | TransferLimit
  | UnorderedRequests
  | UnexpectedTombstone
  | AddressHintTooLarge
  | Transport
  | Timeout
  | PIo
  | ProtocolRecord (e : RecordError)
  | ProtocolRoster (e : RosterError)
  | ProtocolPathError (e : PathError).

#[global] Instance ProtocolError_eq_dec : EqDecision ProtocolError.
Proof. solve_decision. Defined.

(** ** Frame types *)

Inductive FrameTag := FHello | FRoster | FManifests | FRequests | FFile | FDone | FFileUnavailable.

#[global] Instance FrameTag_eq_dec : EqDecision FrameTag.
Proof. solve_decision. Defined.

(** [tag as u8] *)
Definition tag_byte (tag : FrameTag) : Z :=
  match tag with
  | FHello => 1 | FRoster => 2 | FManifests => 3 | FRequests => 4 | FFile => 5 | FDone => 6
  | FFileUnavailable => 7
  end.

Definition from_byte (value : Z) : result FrameTag ProtocolError :=
  if value =? 1 then Ok FHello
  else if value =? 2 then Ok FRoster
  else if value =? 3 then Ok FManifests
  else if value =? 4 then Ok FRequests
  else if value =? 5 then Ok FFile
  else if value =? 6 then Ok FDone
  else if value =? 7 then Ok FFileUnavailable
  else Err UnknownFrameType.

Definition payload_limit (tag : FrameTag) : Z :=
  match tag with
  | FHello => 64 * 1024
  | FRoster => MAX_ROSTER_BYTES
  | FManifests => MAX_MANIFEST_BYTES
  | FRequests => MAX_FRAME_BYTES
  | FFile => 64 * 1024
  | FDone => 0
  | FFileUnavailable => 0
  end.

Definition expect_frame_tag (actual expected : FrameTag) : result unit ProtocolError :=
  if bool_decide (actual = expected) then Ok tt else Err UnexpectedFrame.

(** ** The wire writer and reader *)

Definition writer_count (writer : bytes) (count : Z) : result bytes ProtocolError :=
  let? count := ok_or (u32_try_from count) PLengthOverflow in Ok (writer ++ u32_be count).
Definition writer_bytes (writer l : bytes) : result bytes ProtocolError :=
  let? writer := writer_count writer (len l) in Ok (writer ++ l).
Definition writer_string (writer value : bytes) : result bytes ProtocolError := writer_bytes writer value.

Definition reader (A : Type) := parser ProtocolError A.

Definition reader_take (length : Z) : reader bytes := take_with PLengthOverflow PTruncated length.
Definition reader_fixed (n : nat) : reader (array n) :=
  value <~ reader_take (Z.of_nat n) ;; plift (ok_or (to_array n value) PTruncated).
Definition reader_count (limit : Z) : reader Z :=
  l <~ reader_fixed 4 ;;
  let count := from_be (arr l) in
  if limit <? count then pfail CountLimit else pret count.
Definition reader_bytes (limit : Z) : reader bytes :=
  length <~ reader_count limit ;; reader_take length.
Definition reader_string (limit : Z) : reader bytes :=
  l <~ reader_bytes limit ;;
  if utf8_valid l then pret l else pfail PInvalidUtf8.
Definition reader_finish (c : Cursor) : result unit ProtocolError :=
  if cur_position c =? len (cur_bytes c) then Ok tt else Err PTrailingBytes.

(** [WireReader::new], the fields, [finish]. *)
Definition read_all {A} (fields : reader A) (l : bytes) : result A ProtocolError :=
  let? x := fields (mkCursor l 0) in
  let? _ := reader_finish x.2 in
  Ok x.1.

(** ** Validation of names, records and requests *)

Definition validate_short_string (value : bytes) (limit : Z) : result unit ProtocolError :=
  if bool_decide (value = []) || (limit <? len value) then Err StringLimit else Ok tt.

Definition validate_collection (collection : bytes) : result unit ProtocolError :=
  validate_short_string collection MAX_COLLECTION_NAME_BYTES.

Fixpoint validate_collections_from (previous : option bytes) (collections : list bytes)
    : result unit ProtocolError :=
  match collections with
  | [] => Ok tt
  | collection :: collections =>
      let? _ := validate_collection collection in
      if match previous with Some item => negb (ltb item collection) | None => false end
      then Err UnorderedCollections
      else validate_collections_from (Some collection) collections
  end.

Definition validate_collections (collections : list bytes) : result unit ProtocolError :=
  if MAX_COLLECTIONS <? len collections then Err CollectionLimit
  else validate_collections_from None collections.

Definition validate_record (r : record) (collection : bytes) : result unit ProtocolError :=
  let? _ := validate_collection collection in
  if bool_decide (rec_collection r <> collection) then Err WrongCollection
  else if MAX_PATH_BYTES <? len (path_str (rec_path r)) then Err PathLimit
  else match rec_kind r with
       | File size _ => if MAX_FILE_BYTES <? size then Err FileLimit else Ok tt
       | Tombstone => Ok tt
       end.

Fixpoint validate_records (rs : list record) (collection : bytes) : result unit ProtocolError :=
  match rs with
  | [] => Ok tt
  | r :: rs => let? _ := validate_record r collection in validate_records rs collection
  end.

(** ** Hello *)

Record Hello := mkHello { hello_collections : list bytes; endpoint_addr_json : bytes }.

#[global] Instance Hello_eq_dec : EqDecision Hello.
Proof. solve_decision. Defined.

Fixpoint write_strings (writer : bytes) (l : list bytes) : result bytes ProtocolError :=
  match l with
  | [] => Ok writer
  | s :: l => let? writer := writer_string writer s in write_strings writer l
  end.

Definition hello_encode (h : Hello) : result bytes ProtocolError :=
  let? _ := validate_collections (hello_collections h) in
  if MAX_ADDRESS_HINT_BYTES <? len (endpoint_addr_json h) then Err AddressHintTooLarge
  else
    let? writer := writer_count [] (len (hello_collections h)) in
    let? writer := write_strings writer (hello_collections h) in
    writer_string writer (endpoint_addr_json h).

Definition read_hello : reader Hello :=
  count <~ reader_count MAX_COLLECTIONS ;;
  collections <~ prepeat (Z.to_nat count) (reader_string MAX_COLLECTION_NAME_BYTES) ;;
  _ <~ plift (validate_collections collections) ;;
  endpoint_addr_json <~ reader_string MAX_ADDRESS_HINT_BYTES ;;
  pret (mkHello collections endpoint_addr_json).

Definition hello_decode (l : bytes) : result Hello ProtocolError := read_all read_hello l.

(** ** Roster bundles *)

Fixpoint write_revisions (writer : bytes) (revisions : list RosterRevision)
    : result bytes ProtocolError :=
  match revisions with
  | [] => Ok writer
  | revision :: revisions =>
      if MAX_ROSTER_MEMBERS <? Z.of_nat (size (rev_members revision)) then Err RosterLimit
      else
        let? writer := writer_bytes writer (canonical_bytes revision) in
        write_revisions writer revisions
  end.

Definition roster_bundle_encode (revisions : list RosterRevision) : result bytes ProtocolError :=
  if bool_decide (revisions = []) || (MAX_ROSTER_REVISIONS <? len revisions) then Err RosterLimit
  else
    let? writer := writer_count [] (len revisions) in
    let? l := write_revisions writer revisions in
    if MAX_ROSTER_BYTES <? len l then Err RosterLimit else Ok l.

Definition read_revision : reader RosterRevision :=
  canonical <~ reader_bytes MAX_ROSTER_BYTES ;;
  revision <~ plift (map_err ProtocolRoster
    (from_canonical_with_member_limit canonical MAX_ROSTER_MEMBERS)) ;;
  if MAX_ROSTER_MEMBERS <? Z.of_nat (size (rev_members revision)) then pfail RosterLimit
  else pret revision.

Definition read_roster_bundle : reader (list RosterRevision) :=
  count <~ reader_count MAX_ROSTER_REVISIONS ;;
  if count =? 0 then pfail InvalidRoster
  else prepeat (Z.to_nat count) read_revision.

Section roster_bundle.
Context `{Crypto}.

Fixpoint validate_pairs (parent : RosterRevision) (revisions : list RosterRevision)
    : result unit ProtocolError :=
  match revisions with
  | [] => Ok tt
  | revision :: revisions =>
      let? _ := map_err ProtocolRoster (validate_child revision parent) in
      validate_pairs revision revisions
  end.

Definition validate_roster_chain (revisions : list RosterRevision) : result unit ProtocolError :=
  match revisions with
  | [] => Err InvalidRoster
  | genesis :: revisions =>
      let? _ := map_err ProtocolRoster (validate_genesis genesis) in
      validate_pairs genesis revisions
  end.

Definition roster_bundle_decode (l : bytes) : result (list RosterRevision) ProtocolError :=
  if MAX_ROSTER_BYTES <? len l then Err RosterLimit
  else
    let? revisions := read_all read_roster_bundle l in
    let? _ := validate_roster_chain revisions in
    Ok revisions.
End roster_bundle.

(** ** Manifest bundles *)

(** The loop of [ManifestBundle::encode]; the canonical bytes of a manifest are
    written with [expect]s, whose panic is an [Err] of [manifest_encode]. *)
Fixpoint write_manifests (seen : gset bytes) (records : Z) (writer : bytes)
    (manifests : list (bytes * Manifest)) : result bytes ProtocolError :=
  match manifests with
  | [] => Ok writer
  | (collection, manifest) :: manifests =>
      let? _ := validate_collection collection in
      if bool_decide (collection ∈ seen) then Err DuplicateCollection
      else
        let? records := ok_or (usize_checked_add records (len (manifest_records manifest))) PManifestLimit in
        if MAX_MANIFEST_RECORDS <? records then Err PManifestLimit
        else
          let? _ := validate_records (manifest_records manifest) collection in
          let? writer := writer_string writer collection in
          let? writer := writer_bytes writer (manifest_canonical_bytes manifest) in
          write_manifests ({[collection]} ∪ seen) records writer manifests
  end.

Definition manifest_bundle_encode (manifests : list (bytes * Manifest)) : result bytes ProtocolError :=
  if MAX_COLLECTIONS <? len manifests then Err CollectionLimit
  else
    let? writer := writer_count [] (len manifests) in
    let? l := write_manifests ∅ 0 writer manifests in
    if MAX_MANIFEST_BYTES <? len l then Err PManifestLimit else Ok l.

Fixpoint read_manifests (count : nat) (seen : gset bytes) (record_count : Z)
    : reader (list (bytes * Manifest)) :=
  match count with
  | O => pret []
  | S count =>
      collection <~ reader_string MAX_COLLECTION_NAME_BYTES ;;
      _ <~ plift (validate_collection collection) ;;
      if bool_decide (collection ∈ seen) then pfail DuplicateCollection
      else
        canonical <~ reader_bytes MAX_MANIFEST_BYTES ;;
        let remaining := usize_saturating_sub MAX_MANIFEST_RECORDS record_count in
        manifest <~ plift (map_err ProtocolRecord (manifest_from_canonical_with_limit canonical remaining)) ;;
        record_count <~ plift (ok_or (usize_checked_add record_count (len (manifest_records manifest)))
                                 PManifestLimit) ;;
        if MAX_MANIFEST_RECORDS <? record_count then pfail PManifestLimit
        else
          _ <~ plift (validate_records (manifest_records manifest) collection) ;;
          rest <~ read_manifests count ({[collection]} ∪ seen) record_count ;;
          pret ((collection, manifest) :: rest)
  end.

Definition read_manifest_bundle : reader (list (bytes * Manifest)) :=
  count <~ reader_count MAX_COLLECTIONS ;; read_manifests (Z.to_nat count) ∅ 0.

Definition manifest_bundle_decode (l : bytes) : result (list (bytes * Manifest)) ProtocolError :=
  if MAX_MANIFEST_BYTES <? len l then Err PManifestLimit else read_all read_manifest_bundle l.

(** ** Request bundles *)

Record FileRequest := mkRequest {
  req_collection : bytes;
  req_path : bytes;
  req_record_hash : array 32;
}.

#[global] Instance FileRequest_eq_dec : EqDecision FileRequest.
Proof. solve_decision. Defined.

(** The derived order compares the fields in turn. *)
Definition request_key (r : FileRequest) : (bytes * bytes) * array 32 :=
  ((req_collection r, req_path r), req_record_hash r).
#[global] Instance request_key_Inj : Inj (=) (=) request_key.
Proof. intros [] []; unfold request_key; simpl; congruence. Qed.
#[global] Instance FileRequest_ord : Ord FileRequest := ord_via request_key.
#[global] Instance FileRequest_ord_laws : OrdLaws FileRequest := ord_via_laws request_key.

Definition validate_request (r : FileRequest) : result unit ProtocolError :=
  let? _ := validate_collection (req_collection r) in
  if MAX_PATH_BYTES <? len (req_path r) then Err PathLimit
  else let? _ := map_err ProtocolPathError (parse (req_path r)) in Ok tt.

Definition not_after (previous : option FileRequest) (r : FileRequest) : bool :=
  match previous with Some item => negb (ltb item r) | None => false end.

Fixpoint write_requests (previous : option FileRequest) (writer : bytes) (requests : list FileRequest)
    : result bytes ProtocolError :=
  match requests with
  | [] => Ok writer
  | request :: requests =>
      let? _ := validate_request request in
      if not_after previous request then Err UnorderedRequests
      else
        let? writer := writer_string writer (req_collection request) in
        let? writer := writer_string writer (req_path request) in
        write_requests (Some request) (writer ++ arr (req_record_hash request)) requests
  end.

Definition request_bundle_encode (requests : list FileRequest) : result bytes ProtocolError :=
  if MAX_TRANSFERS <? len requests then Err TransferLimit
  else
    let? writer := writer_count [] (len requests) in
    write_requests None writer requests.

Fixpoint read_requests (count : nat) (previous : option FileRequest) : reader (list FileRequest) :=
  match count with
  | O => pret []
  | S count =>
      collection <~ reader_string MAX_COLLECTION_NAME_BYTES ;;
      path <~ reader_string MAX_PATH_BYTES ;;
      record_hash <~ reader_fixed 32 ;;
      let request := mkRequest collection path record_hash in
      _ <~ plift (validate_request request) ;;
      if not_after previous request then pfail UnorderedRequests
      else
        rest <~ read_requests count (Some request) ;;
        pret (request :: rest)
  end.

Definition read_request_bundle : reader (list FileRequest) :=
  count <~ reader_count MAX_TRANSFERS ;; read_requests (Z.to_nat count) None.

Definition request_bundle_decode (l : bytes) : result (list FileRequest) ProtocolError :=
  read_all read_request_bundle l.

(** ** File headers *)

Definition check_header_kind (r : record) : result unit ProtocolError :=
  match rec_kind r with
  | File size _ => if size <=? MAX_FILE_BYTES then Ok tt else Err FileLimit
  | Tombstone => Err UnexpectedTombstone
  end.

Definition encode_file_header (r : record) : result bytes ProtocolError :=
  let? _ := validate_record r (rec_collection r) in
  let? _ := check_header_kind r in
  Ok (record_canonical_bytes r).

Definition decode_file_header (l : bytes) : result record ProtocolError :=
  let? r := map_err ProtocolRecord (record_from_canonical l) in
  let? _ := validate_record r (rec_collection r) in
  let? _ := check_header_kind r in
  Ok r.

(** ** Frames *)

Definition encode_frame (tag : FrameTag) (payload : bytes) : result bytes ProtocolError :=
  if (payload_limit tag <? len payload) || (MAX_FRAME_BYTES <? len payload) then Err FrameLimit
  else
    let? length := ok_or (u32_try_from (len payload)) FrameLimit in
    Ok ([byte_of_Z (tag_byte tag)] ++ u32_be length ++ payload).

(** A byte source: what it still delivers, and how it ends: closed, silent until
    the idle timeout, or with an error. *)
Inductive stream_end := Closed | Stalled | Reset.
Record Stream := mkStream { stream_bytes : bytes; stream_stop : stream_end }.

Definition read_exact (n : Z) (s : Stream) : result (bytes * Stream) ProtocolError :=
  if n <=? len (stream_bytes s)
  then Ok (take (Z.to_nat n) (stream_bytes s), mkStream (drop (Z.to_nat n) (stream_bytes s)) (stream_stop s))
  else Err (match stream_stop s with Stalled => Timeout | Closed | Reset => PTruncated end).

(** [Read::read_exact] with [map_truncation]; a source that is read without a
    timeout does not stall but fails. *)
Definition read_exact_sync (n : Z) (s : Stream) : result (bytes * Stream) ProtocolError :=
  map_err (fun _ => match stream_stop s with Closed => PTruncated | Stalled | Reset => PIo end) (read_exact n s).

Definition decode_header (header : bytes) : result (FrameTag * Z) ProtocolError :=
  match header with
  | b :: rest =>
      let? tag := from_byte (byteZ b) in
      let length := from_be rest in
      if (MAX_FRAME_BYTES <? length) || (payload_limit tag <? length) then Err FrameLimit
      else Ok (tag, length)
  | [] => Err PTruncated
  end.

Definition decode_frame (s : Stream) : result ((FrameTag * bytes) * Stream) ProtocolError :=
  let? x := read_exact_sync HEADER_BYTES s in
  let '(header, s) := x in
  let? y := decode_header header in
  let '(tag, length) := y in
  let? z := read_exact_sync length s in
  let '(payload, s) := z in
  Ok ((tag, payload), s).

Definition add_received (received amount : Z) : result Z ProtocolError :=
  let? received := ok_or (u64_checked_add received amount) ConnectionLimit in
  if MAX_CONNECTION_BYTES <? received then Err ConnectionLimit else Ok received.

(** [slice.chunks(n)]; [fuel] is the length, and [n] is positive. *)
Fixpoint chunks_loop (fuel : nat) (n : nat) (l : bytes) : list bytes :=
  match fuel, l with
  | S fuel, _ :: _ => take n l :: chunks_loop fuel n (drop n l)
  | _, _ => []
  end.
Definition chunks (n : nat) (l : bytes) : list bytes := chunks_loop (length l) n l.

(** Reading the payload chunk by chunk. *)
Fixpoint read_chunks (sizes : list Z) (s : Stream) : result (bytes * Stream) ProtocolError :=
  match sizes with
  | [] => Ok ([], s)
  | n :: sizes =>
      let? x := read_exact n s in
      let '(chunk, s) := x in
      let? y := read_chunks sizes s in
      let '(rest, s) := y in
      Ok (chunk ++ rest, s)
  end.

(** The sizes of the chunks of a buffer of [length] bytes. *)
Definition CHUNK : Z := 64 * 1024.
Definition chunk_sizes (length : Z) : list Z :=
  replicate (Z.to_nat (length / CHUNK)) CHUNK ++ (if length mod CHUNK =? 0 then [] else [length mod CHUNK]).

Definition read_frame_async (s : Stream) (received : Z)
    : result ((FrameTag * bytes) * Stream * Z) ProtocolError :=
  let? x := read_exact HEADER_BYTES s in
  let '(header, s) := x in
  let? y := decode_header header in
  let '(tag, length) := y in
  let? received := add_received received (HEADER_BYTES + length) in
  let? z := read_chunks (chunk_sizes length) s in
  let '(payload, s) := z in
  Ok ((tag, payload), s, received).

(** A byte sink: what was written, and how many bytes it takes before it
    fails, with which error, if it does. *)
Record Sink := mkSink { sink_bytes : bytes; sink_room : option (Z * ProtocolError) }.

Definition write_all (l : bytes) (s : Sink) : result Sink ProtocolError :=
  match sink_room s with
  | None => Ok (mkSink (sink_bytes s ++ l) None)
  | Some (n, e) =>
      if len l <=? n then Ok (mkSink (sink_bytes s ++ l) (Some (n - len l, e))) else Err e
  end.

Fixpoint write_chunks (l : list bytes) (s : Sink) : result Sink ProtocolError :=
  match l with
  | [] => Ok s
  | chunk :: l => let? s := write_all chunk s in write_chunks l s
  end.

Definition write_frame_async (s : Sink) (tag : FrameTag) (payload : bytes) : result Sink ProtocolError :=
  let? l := encode_frame tag payload in
  write_chunks (chunks (Z.to_nat CHUNK) l) s.

(** ** The reader and the writer agree *)

Definition R_bytes (limit : Z) (l enc : bytes) : Prop := len l <= limit /\ R_sized l enc.
Definition R_name (limit : Z) (s enc : bytes) : Prop := utf8_valid s = true /\ R_bytes limit s enc.
Definition R_count (limit : Z) (n : Z) (enc : bytes) : Prop := n <= limit /\ R_u32 n enc.

Lemma read_all_sound {A} (p : reader A) R l a : reads p R -> read_all p l = Ok a -> R a l.
Proof.
  intros Hp H. unfold read_all in H. inv_ok. rename H0 into Hf, H1 into He.
  unfold reader_finish in He. inv_ok. boolp.
  match type of Hf with _ = Ok ?p => destruct p as [b c] end.
  by apply (reads_run_inv _ _ [] l _ _ Hp) in Hf as (_ & HR).
Qed.

Lemma read_all_Ok {A} (p : reader A) R l a :
  reads p R -> addressable l -> read_all p l = Ok a <-> R a l.
Proof.
  intros Hp Hl. split; [by apply read_all_sound|]. intros HR. unfold read_all.
  pose proof (reads_run p R [] l a Hp HR Hl) as E. simpl in E.
  rewrite len_nil in E. rewrite E. cbn [rbind snd]. unfold reader_finish. simpl. by rewrite Z.eqb_refl.
Qed.

Lemma reads_reader_fixed n : reads (reader_fixed n) R_fixed.
Proof.
  eapply reads_iff; [apply reads_bind; [apply reads_take; lia | intros a; apply reads_lift]|].
  intros a enc; unfold R_fixed; split.
  - intros (l & e1 & e2 & -> & [-> Hl] & Ha & ->). rewrite ok_or_Ok, to_array_Some in Ha.
    by rewrite app_nil_r.
  - intros ->. exists (arr a), (arr a), []. rewrite app_nil_r, ok_or_Ok, to_array_Some.
    repeat split. by rewrite len_arr.
Qed.

Lemma reads_reader_count limit : reads (reader_count limit) (R_count limit).
Proof.
  eapply reads_iff.
  { apply reads_bind with (S := fun (a : array 4) n enc => n = from_be (arr a) /\ n <= limit /\ enc = []);
      [apply reads_reader_fixed|].
    intros a. cbv zeta. destruct (Z.ltb_spec limit (from_be (arr a))).
    - eapply reads_iff; [apply reads_fail|]. intros n enc; split; [done | lia].
    - eapply reads_iff; [apply reads_ret|]. intros n enc; split; [intros [-> ->]; done | naive_solver]. }
  intros n enc; unfold R_count, R_u32; split.
  - intros (a & e1 & e2 & -> & -> & -> & Hl & ->). rewrite app_nil_r.
    destruct (from_be_u32 (arr a) (arr_length a)). auto.
  - intros [Hl [Hn ->]]. destruct (to_array_length 4 (u32_be n) (length_u32_be n)) as (a & _ & Ha).
    exists a, (u32_be n), []. rewrite app_nil_r. unfold R_fixed. rewrite Ha.
    rewrite u32_be_from by done. done.
Qed.

Lemma reads_reader_bytes limit : reads (reader_bytes limit) (R_bytes limit).
Proof.
  eapply reads_iff.
  { apply reads_bind with (S := fun n l enc => 0 <= n /\ l = enc /\ len l = n); [apply reads_reader_count|].
    intros n. destruct (Z_lt_le_dec n 0) as [Hn|Hn].
    - split; [by intros ? ? ? ? [? _]; lia|]. intros l pre rest c H.
      unfold reader_take, take_with in H. inv_ok.
      match goal with H : get_range _ _ _ = Some _ |- _ => unfold get_range in H; dmh H; simplify_eq end.
      match goal with H : usize_checked_add _ _ = Some _ |- _ => apply u64_checked_add_Some in H as [-> _] end.
      boolp. lia.
    - eapply reads_iff; [apply reads_take; exact Hn|]. naive_solver. }
  intros l enc; unfold R_bytes, R_sized, R_count, sized; split.
  - intros (n & e1 & e2 & -> & (Hl & Hn & ->) & _ & -> & <-). auto.
  - intros (Hlim & Hl & ->). exists (len l), (u32_be (len l)), l. repeat split; auto with skillsync.
Qed.

Lemma reads_reader_string limit : reads (reader_string limit) (R_name limit).
Proof.
  eapply reads_iff.
  { apply reads_bind with (S := fun l s enc => utf8_valid l = true /\ s = l /\ enc = []);
      [apply reads_reader_bytes|].
    intros l. destruct (utf8_valid l) eqn:E.
    - eapply reads_iff; [apply reads_ret|]. naive_solver.
    - eapply reads_iff; [apply reads_fail|]. naive_solver. }
  intros s enc; unfold R_name; split.
  - intros (l & e1 & e2 & -> & Hl & Hv & -> & ->). by rewrite app_nil_r.
  - intros [Hv Hl]. exists s, enc, []. by rewrite app_nil_r.
Qed.

Lemma writer_count_Ok w n l : writer_count w n = Ok l <-> in_u32 n = true /\ l = w ++ u32_be n.
Proof. unfold writer_count, u32_try_from. destruct (in_u32 n); simpl; naive_solver. Qed.

Lemma writer_bytes_Ok w s l : writer_bytes w s = Ok l <-> in_u32 (len s) = true /\ l = w ++ sized s.
Proof.
  unfold writer_bytes. rewrite rbind_Ok. setoid_rewrite writer_count_Ok. unfold sized. split.
  - intros (a & [Hn ->] & [= <-]). by rewrite <-app_assoc.
  - intros [Hn ->]. eexists. split; [done|]. by rewrite <-app_assoc.
Qed.

(** ** Collections and requests in order *)

Lemma validate_short_string_Ok s limit :
  validate_short_string s limit = Ok tt <-> s <> [] /\ len s <= limit.
Proof.
  unfold validate_short_string. case_bool_decide; simpl; [naive_solver|].
  destruct (Z.ltb_spec limit (len s)); naive_solver lia.
Qed.

Definition name_fits (s : bytes) : Prop := s <> [] /\ len s <= MAX_COLLECTION_NAME_BYTES.

Lemma validate_collections_from_Ok p l :
  validate_collections_from p l = Ok tt <->
  Forall name_fits l /\ StronglySorted olt l /\
  Forall (fun s => match p with Some p => olt p s | None => True end) l.
Proof.
  revert p. induction l as [|s l IH]; intros p; simpl.
  - split; [|done]. repeat split; constructor.
  - rewrite rbind_Ok. split.
    + intros ([] & Hs%validate_short_string_Ok & H). apply check_not_Ok in H as [Hp (Hf & Hso & Hlt)%IH].
      split; [by constructor|]. split; [by constructor|]. 
      assert (match p with Some p => olt p s | None => True end) as Hps.
      { destruct p; [|done]. apply negb_false_iff in Hp. by apply ltb_olt. }
      constructor; [done|]. eapply Forall_impl; [exact Hlt|]. intros x Hx.
      destruct p; [|done]. simpl in *. by etransitivity.
    + intros (Hf & Hso & Hlt). inversion Hf; inversion Hso; inversion Hlt; subst.
      exists tt. split; [by apply validate_short_string_Ok|]. apply check_not_Ok. split.
      * destruct p; [|done]. apply negb_false_iff. by apply ltb_olt.
      * by apply IH.
Qed.

Lemma validate_collections_Ok l :
  validate_collections l = Ok tt <->
  len l <= MAX_COLLECTIONS /\ Forall name_fits l /\ StronglySorted olt l.
Proof.
  unfold validate_collections. rewrite check_not_Ok, validate_collections_from_Ok.
  assert (Forall (fun _ : bytes => True) l) by by apply Forall_true.
  rewrite Z.ltb_ge. tauto.
Qed.

(** ** Hello *)

Lemma name_fits_u32 s : name_fits s -> in_u32 (len s) = true.
Proof.
  intros [_ Hs]. unfold MAX_COLLECTION_NAME_BYTES, in_u32 in *. pose proof (len_nonneg s).
  apply andb_true_iff. lia.
Qed.

Lemma write_strings_Ok w l :
  Forall name_fits l -> write_strings w l = Ok (w ++ concat (map sized l)).
Proof.
  intros H. revert w. induction H as [|s l Hs _ IH]; intros w; simpl; [by rewrite app_nil_r|].
  unfold writer_string. rewrite (proj2 (writer_bytes_Ok _ _ _) (conj (name_fits_u32 s Hs) eq_refl)).
  cbn [rbind]. by rewrite IH, <-app_assoc.
Qed.

Definition hello_ok (h : Hello) : Prop :=
  len (hello_collections h) <= MAX_COLLECTIONS /\ Forall name_fits (hello_collections h) /\
  StronglySorted olt (hello_collections h) /\ len (endpoint_addr_json h) <= MAX_ADDRESS_HINT_BYTES.

Definition hello_utf8 (h : Hello) : Prop :=
  Forall (fun s => utf8_valid s = true) (hello_collections h) /\ utf8_valid (endpoint_addr_json h) = true.

Definition hello_encoding (h : Hello) : bytes :=
  u32_be (len (hello_collections h)) ++ concat (map sized (hello_collections h)) ++ sized (endpoint_addr_json h).

Lemma small_u32 n : 0 <= n <= 8 * 1024 * 1024 -> in_u32 n = true.
Proof. intros H. unfold in_u32. apply andb_true_iff. lia. Qed.

Lemma hello_encode_Ok h l : hello_encode h = Ok l <-> hello_ok h /\ l = hello_encoding h.
Proof.
  unfold hello_encode, hello_ok. rewrite rbind_Ok. split.
  - intros ([] & (Hc & Hf & Hs)%validate_collections_Ok & H). apply check_not_Ok in H as [Ha H].
    inv_ok. apply writer_count_Ok in H0 as [_ ->]. rewrite write_strings_Ok in H1 by done. inv_ok.
    apply writer_bytes_Ok in H as [_ ->]. boolp. unfold hello_encoding. by rewrite <-app_assoc.
  - intros ((Hc & Hf & Hs & Ha) & ->). exists tt. split; [by apply validate_collections_Ok|].
    apply check_not_Ok. split; [by apply Z.ltb_ge|].
    unfold MAX_COLLECTIONS, MAX_ADDRESS_HINT_BYTES in *.
    pose proof (len_nonneg (hello_collections h)). pose proof (len_nonneg (endpoint_addr_json h)).
    rewrite (proj2 (writer_count_Ok _ _ _) (conj (small_u32 (len (hello_collections h)) ltac:(lia)) eq_refl)).
    cbn [rbind]. rewrite write_strings_Ok by done. cbn [rbind]. apply writer_bytes_Ok.
    split; [apply small_u32; lia|]. unfold hello_encoding. by rewrite <-app_assoc.
Qed.

Lemma concat_len_bound {A} (f : A -> bytes) bound l :
  0 <= bound -> Forall (fun x => len (f x) <= bound) l -> len (concat (map f l)) <= bound * len l.
Proof.
  intros Hb. induction 1 as [|x l Hx _ IH]; cbn [map concat]; [unfold len; simpl; lia|].
  rewrite len_app, len_cons. lia.
Qed.

Lemma hello_encoding_bound h : hello_ok h -> len (hello_encoding h) <= payload_limit FHello.
Proof.
  intros (Hc & Hf & _ & Ha). unfold hello_encoding. rewrite !len_app, len_u32_be, sized_len.
  pose proof (concat_len_bound sized 259 (hello_collections h) ltac:(lia)) as Hb.
  assert (Forall (fun s => len (sized s) <= 259) (hello_collections h)) as Hs.
  { eapply Forall_impl; [exact Hf|]. intros s [_ Hs]. rewrite sized_len.
    unfold MAX_COLLECTION_NAME_BYTES in Hs. lia. }
  specialize (Hb Hs). unfold payload_limit, MAX_COLLECTIONS, MAX_ADDRESS_HINT_BYTES in *.
  pose proof (len_nonneg (hello_collections h)). nia.
Qed.

Lemma reads_strings limit n :
  reads (prepeat n (reader_string limit)) (fun l enc => length l = n /\
    Forall (fun s => utf8_valid s = true /\ len s <= limit /\ in_u32 (len s) = true) l /\
    enc = concat (map sized l)).
Proof.
  apply reads_repeat_map. eapply reads_iff; [apply reads_reader_string|].
  unfold R_name, R_bytes, R_sized. tauto.
Qed.

Lemma reads_hello :
  reads read_hello (fun h enc => hello_ok h /\ hello_utf8 h /\ enc = hello_encoding h).
Proof.
  eapply reads_iff.
  { unfold read_hello. apply reads_bind; [apply reads_reader_count|]. intros n.
    apply reads_bind; [apply reads_strings|]. intros l. apply reads_bind; [apply reads_lift|]. intros u.
    apply reads_bind; [apply reads_reader_string|]. intros a. apply reads_ret. }
  intros h enc; unfold R_count, R_u32, R_name, R_bytes, R_sized, hello_ok, hello_utf8, hello_encoding; split.
  - intros (n & e1 & ? & -> & (Hlim & Hn & ->) & l & e2 & ? & -> & (Hl & Hf & ->) & [] & e3 & ? & -> &
      [(Hc & Hnf & Hs)%validate_collections_Ok ->] & a & e4 & ? & -> & (Ha & Hal & _ & ->) & -> & ->).
    cbn [hello_collections endpoint_addr_json]. rewrite app_nil_r.
    assert (n = len l) as -> by (unfold len; rewrite Hl; unfold in_u32 in Hn; boolp; lia).
    split; [done|]. split; [|done]. split; [|done]. eapply Forall_impl; [exact Hf|]. naive_solver.
  - intros ((Hc & Hnf & Hs & Hal) & (Hu & Ha) & ->). destruct h as [l a].
    cbn [hello_collections endpoint_addr_json] in *.
    exists (len l), (u32_be (len l)). eexists. split; [done|].
    split; [split; [done|]; split; [|done]; apply small_u32; unfold MAX_COLLECTIONS in Hc;
      pose proof (len_nonneg l); lia|].
    exists l, (concat (map sized l)). eexists. split; [done|]. split.
    { split; [unfold len; lia|]. split; [|done]. rewrite Forall_forall in *. intros s Hin.
      destruct (Hnf s Hin) as [? ?]. split; [by apply Hu|]. split; [done | by apply name_fits_u32]. }
    exists tt, [], (sized a). split; [done|]. split; [split; [by apply validate_collections_Ok | done]|].
    exists a, (sized a), []. rewrite app_nil_r. split; [done|]. split; [|done].
    split; [done|]. split; [done|]. split; [|done].
    apply small_u32. unfold MAX_ADDRESS_HINT_BYTES in Hal. pose proof (len_nonneg a). lia.
Qed.

Lemma small_addressable l limit : len l <= limit -> limit <= 2 ^ 62 -> addressable l.
Proof. unfold addressable. lia. Qed.

Lemma hello_decode_iff l h : hello_decode l = Ok h <-> hello_encode h = Ok l /\ hello_utf8 h.
Proof.
  unfold hello_decode. rewrite hello_encode_Ok. split.
  - intros (Ho & Hu & ->)%(read_all_sound _ _ _ _ reads_hello). done.
  - intros [[Ho ->] Hu]. pose proof (hello_encoding_bound h Ho) as Hb.
    apply (read_all_Ok _ _ _ _ reads_hello); [|done].
    apply (small_addressable _ _ Hb). by vm_compute.
Qed.

(** ** Request bundles *)

Definition request_ok (r : FileRequest) : Prop :=
  name_fits (req_collection r) /\ len (req_path r) <= MAX_PATH_BYTES /\
  exists p, parse (req_path r) = Ok p.

Lemma validate_request_Ok r : validate_request r = Ok tt <-> request_ok r.
Proof.
  unfold validate_request, request_ok. rewrite rbind_Ok. split.
  - intros ([] & Hc%validate_short_string_Ok & H). apply check_not_Ok in H as [Hp H]. inv_ok. boolp. eauto.
  - intros (Hc & Hp & p & Hparse). exists tt. split; [by apply validate_short_string_Ok|].
    apply check_not_Ok. split; [by apply Z.ltb_ge|]. by rewrite Hparse.
Qed.

Definition request_utf8 (r : FileRequest) : Prop :=
  utf8_valid (req_collection r) = true /\ utf8_valid (req_path r) = true.

Definition request_encoding (r : FileRequest) : bytes :=
  sized (req_collection r) ++ sized (req_path r) ++ arr (req_record_hash r).

(** Requests ascend, from a previous one on. *)
Fixpoint requests_ascend (previous : option FileRequest) (l : list FileRequest) : Prop :=
  match l with
  | [] => True
  | r :: l => not_after previous r = false /\ requests_ascend (Some r) l
  end.

Lemma requests_ascend_sorted p l :
  requests_ascend p l <-> StronglySorted olt l /\ Forall (fun r => not_after p r = false) l.
Proof.
  revert p. induction l as [|r l IH]; intros p; simpl.
  - split; [|done]. by split; constructor.
  - rewrite IH. split.
    + intros (Hp & Hs & Hf). split.
      * constructor; [done|]. eapply Forall_impl; [exact Hf|]. intros x Hx.
        simpl in Hx. apply negb_false_iff in Hx. by apply ltb_olt.
      * constructor; [done|]. eapply Forall_impl; [exact Hf|]. intros x Hx.
        destruct p; [|done]. simpl in *. apply negb_false_iff in Hp, Hx. apply negb_false_iff.
        apply ltb_olt. apply ltb_olt in Hp, Hx. by etransitivity.
    + intros [Hs Hf]. inversion Hs as [|? ? Hs' Hl]; inversion Hf; subst. split; [done|]. split; [done|].
      eapply Forall_impl; [exact Hl|]. intros x Hx. simpl. apply negb_false_iff. by apply ltb_olt.
Qed.

Lemma request_u32 r : request_ok r -> in_u32 (len (req_collection r)) = true /\ in_u32 (len (req_path r)) = true.
Proof.
  intros (Hc & Hp & _). split; [by apply name_fits_u32|]. apply small_u32.
  unfold MAX_PATH_BYTES in Hp. pose proof (len_nonneg (req_path r)). lia.
Qed.

Lemma write_requests_Ok p w rs l :
  write_requests p w rs = Ok l <->
  Forall request_ok rs /\ requests_ascend p rs /\ l = w ++ concat (map request_encoding rs).
Proof.
  revert p w. induction rs as [|r rs IH]; intros p w; simpl.
  - rewrite app_nil_r. split; [intros [= ->]; repeat split; constructor | by intros (_ & _ & ->)].
  - rewrite rbind_Ok. split.
    + intros ([] & Hr%validate_request_Ok & H). apply check_not_Ok in H as [Hp H].
      apply rbind_Ok in H as (w1 & [_ ->]%writer_bytes_Ok & H).
      apply rbind_Ok in H as (w2 & [_ ->]%writer_bytes_Ok & H).
      apply IH in H as (Hf & Ha & ->). split; [by constructor|]. split; [done|].
      unfold request_encoding. by rewrite <-!app_assoc.
    + intros (Hf & [Hp Ha] & ->). inversion Hf as [|? ? Hr Hf']; subst. exists tt.
      split; [by apply validate_request_Ok|]. apply check_not_Ok. split; [done|].
      destruct (request_u32 r Hr) as [Hc Ht]. unfold writer_string.
      rewrite (proj2 (writer_bytes_Ok w (req_collection r) _) (conj Hc eq_refl)). cbn [rbind].
      rewrite (proj2 (writer_bytes_Ok _ (req_path r) _) (conj Ht eq_refl)). cbn [rbind].
      apply IH. split; [done|]. split; [done|]. unfold request_encoding. by rewrite <-!app_assoc.
Qed.

Definition requests_encoding (rs : list FileRequest) : bytes :=
  u32_be (len rs) ++ concat (map request_encoding rs).

Definition requests_ok (rs : list FileRequest) : Prop :=
  len rs <= MAX_TRANSFERS /\ Forall request_ok rs /\ StronglySorted olt rs.

Lemma requests_ascend_None rs : requests_ascend None rs <-> StronglySorted olt rs.
Proof.
  rewrite requests_ascend_sorted. assert (Forall (fun r => not_after None r = false) rs)
    by by apply Forall_true. tauto.
Qed.

Lemma request_bundle_encode_Ok rs l :
  request_bundle_encode rs = Ok l <-> requests_ok rs /\ l = requests_encoding rs.
Proof.
  unfold request_bundle_encode, requests_ok, requests_encoding. rewrite check_not_Ok, rbind_Ok. split.
  - intros [Hl (w & [_ ->]%writer_count_Ok & (Hf & Ha & ->)%write_requests_Ok)]. boolp.
    apply requests_ascend_None in Ha. done.
  - intros [(Hl & Hf & Hs) ->]. split; [by apply Z.ltb_ge|]. exists (u32_be (len rs)). split.
    + apply writer_count_Ok. split; [|done]. apply small_u32. unfold MAX_TRANSFERS in Hl.
      pose proof (len_nonneg rs). lia.
    + apply write_requests_Ok. by rewrite requests_ascend_None.
Qed.

Lemma request_encoding_bound r : request_ok r -> len (request_encoding r) <= 4391.
Proof.
  intros ((_ & Hc) & Hp & _). unfold request_encoding. rewrite !len_app, !sized_len, len_arr.
  unfold MAX_COLLECTION_NAME_BYTES, MAX_PATH_BYTES in *. lia.
Qed.

Lemma requests_encoding_bound rs : requests_ok rs -> len (requests_encoding rs) <= payload_limit FRequests.
Proof.
  intros (Hl & Hf & _). unfold requests_encoding. rewrite len_app, len_u32_be.
  pose proof (concat_len_bound request_encoding 4391 rs ltac:(lia)) as Hb.
  rewrite Forall_forall in Hf. specialize (Hb ltac:(apply Forall_forall; auto using request_encoding_bound)).
  unfold payload_limit, MAX_FRAME_BYTES, MAX_TRANSFERS in *. lia.
Qed.

Lemma reads_requests n p :
  reads (read_requests n p) (fun rs enc => length rs = n /\ Forall request_ok rs /\
    Forall request_utf8 rs /\ requests_ascend p rs /\ enc = concat (map request_encoding rs)).
Proof.
  revert p. induction n as [|n IH]; intros p.
  { eapply reads_iff; [apply reads_ret|]. intros rs enc; split.
    - intros [-> ->]. repeat split; constructor.
    - by intros (Hn & _ & _ & _ & ->); destruct rs. }
  eapply reads_iff.
  { simpl. apply reads_bind; [apply reads_reader_string|]. intros c.
    apply reads_bind; [apply reads_reader_string|]. intros t.
    apply reads_bind with (S := fun h rs enc => exists rest, rs = mkRequest c t h :: rest /\
      length rest = n /\ request_ok (mkRequest c t h) /\ Forall request_ok rest /\
      Forall request_utf8 rest /\ requests_ascend p (mkRequest c t h :: rest) /\
      enc = concat (map request_encoding rest)); [apply reads_reader_fixed|].
    intros h. cbv zeta. eapply reads_iff.
    { apply reads_bind with (S := fun _ rs enc => exists rest, rs = mkRequest c t h :: rest /\
      length rest = n /\ Forall request_ok rest /\
      Forall request_utf8 rest /\ requests_ascend p (mkRequest c t h :: rest) /\
      enc = concat (map request_encoding rest)); [apply reads_lift|]. intros _.
      destruct (not_after p (mkRequest c t h)) eqn:Hp.
      - eapply reads_iff; [apply reads_fail|]. intros rs enc; split; [done|].
        intros (rest & _ & _ & _ & _ & [Hp' _] & _). congruence.
      - eapply reads_iff; [apply reads_bind; [apply IH | intros rest; apply reads_ret]|].
        intros rs enc; split.
        + intros (rest & e1 & e2 & -> & (Hn & Hf & Hu & Ha & ->) & -> & ->). rewrite app_nil_r.
          exists rest. repeat split; auto.
        + intros (rest & -> & Hn & Hf & Hu & [_ Ha] & ->).
          exists rest, (concat (map request_encoding rest)), []. rewrite app_nil_r. auto 10. }
    intros rs enc; split.
    - intros ([] & e1 & e2 & -> & [Hv%validate_request_Ok ->] & rest & H). exists rest. naive_solver.
    - intros (rest & -> & Hn & Hr & Hf & Hu & Ha & ->).
      exists tt, [], (concat (map request_encoding rest)). split; [done|].
      split; [split; [by apply validate_request_Ok | done]|]. eauto 10. }
  intros rs enc; unfold R_name, R_bytes, R_sized, R_fixed; split.
  - intros (c & e1 & ? & -> & (Hcu & _ & _ & ->) & t & e2 & ? & -> & (Htu & _ & _ & ->) &
      h & e3 & ? & -> & -> & rest & -> & Hn & Hr & Hf & Hu & Ha & ->).
    split; [simpl; lia|]. split; [by constructor|]. split; [by constructor|]. split; [done|].
    cbn [map concat]. unfold request_encoding at 2. cbn [req_collection req_path req_record_hash].
    by rewrite <-!app_assoc.
  - intros (Hn & Hf & Hu & Ha & ->). destruct rs as [|[c t h] rest]; [done|].
    inversion Hf as [|? ? Hr Hf']; inversion Hu as [|? ? [Hcu Htu] Hu']; subst.
    destruct (request_u32 _ Hr). pose proof Hr as ((_ & Hc) & Hp & _).
    cbn [map concat req_collection req_path req_record_hash] in *.
    exists c, (sized c), (sized t ++ arr h ++ concat (map request_encoding rest)).
    split; [unfold request_encoding at 1; cbn [req_collection req_path req_record_hash]; by rewrite <-!app_assoc|].
    split; [done|].
    exists t, (sized t), (arr h ++ concat (map request_encoding rest)). split; [done|]. split; [done|].
    exists h, (arr h), (concat (map request_encoding rest)). split; [done|]. split; [done|].
    exists rest. simpl in Hn. split; [done|]. split; [lia|]. done.
Qed.

Lemma reads_request_bundle :
  reads read_request_bundle (fun rs enc => requests_ok rs /\ Forall request_utf8 rs /\
    enc = requests_encoding rs).
Proof.
  eapply reads_iff.
  { apply reads_bind; [apply reads_reader_count|]. intros n. apply reads_requests. }
  intros rs enc; unfold requests_ok, requests_encoding, R_count, R_u32; split.
  - intros (n & e1 & ? & -> & (Hlim & Hn & ->) & Hl & Hf & Hu & Ha%requests_ascend_None & ->).
    assert (n = len rs) as -> by (unfold len; rewrite Hl; unfold in_u32 in Hn; boolp; lia). done.
  - intros ((Hlim & Hf & Hs) & Hu & ->). exists (len rs), (u32_be (len rs)). eexists. split; [done|].
    split; [split; [done|]; split; [|done]; apply small_u32; unfold MAX_TRANSFERS in Hlim;
      pose proof (len_nonneg rs); lia|].
    rewrite requests_ascend_None. unfold len. rewrite Nat2Z.id. done.
Qed.

Lemma request_bundle_decode_iff l rs :
  request_bundle_decode l = Ok rs <-> request_bundle_encode rs = Ok l /\ Forall request_utf8 rs.
Proof.
  unfold request_bundle_decode. rewrite request_bundle_encode_Ok. split.
  - intros (Ho & Hu & ->)%(read_all_sound _ _ _ _ reads_request_bundle). done.
  - intros [[Ho ->] Hu]. pose proof (requests_encoding_bound rs Ho) as Hb.
    apply (read_all_Ok _ _ _ _ reads_request_bundle); [|done].
    apply (small_addressable _ _ Hb). by vm_compute.
Qed.

(** ** Roster bundles *)

(** A revision as a bundle carries it. *)
Definition carried_revision (r : RosterRevision) : Prop :=
  Z.of_nat (size (rev_members r)) <= MAX_ROSTER_MEMBERS /\ in_u32 (len (canonical_bytes r)) = true.

Definition revisions_encoding (rs : list RosterRevision) : bytes :=
  u32_be (len rs) ++ concat (map (fun r => sized (canonical_bytes r)) rs).

Lemma write_revisions_Ok w rs l :
  write_revisions w rs = Ok l <->
  Forall carried_revision rs /\ l = w ++ concat (map (fun r => sized (canonical_bytes r)) rs).
Proof.
  revert w. induction rs as [|r rs IH]; intros w; simpl.
  - rewrite app_nil_r. split; [intros [= ->]; by split | by intros [_ ->]].
  - rewrite check_not_Ok, rbind_Ok, Forall_cons. setoid_rewrite writer_bytes_Ok. split.
    + intros [Hm%Z.ltb_ge (w' & [Hl ->] & [Hf ->]%IH)]. split; [by repeat split|]. by rewrite <-app_assoc.
    + intros [[[Hm Hl] Hf] ->]. split; [by apply Z.ltb_ge|]. eexists. split; [done|].
      apply IH. by rewrite <-app_assoc.
Qed.

Definition bundle_ok (rs : list RosterRevision) : Prop :=
  rs <> [] /\ len rs <= MAX_ROSTER_REVISIONS /\ Forall carried_revision rs /\
  len (revisions_encoding rs) <= MAX_ROSTER_BYTES.

Lemma roster_bundle_encode_Ok rs l :
  roster_bundle_encode rs = Ok l <-> bundle_ok rs /\ l = revisions_encoding rs.
Proof.
  unfold roster_bundle_encode, bundle_ok. rewrite check_not_Ok, rbind_Ok. split.
  - intros [Hb (w & [_ ->]%writer_count_Ok & H)]. inv_ok. boolp.
    apply write_revisions_Ok in H0 as [Hf E]. unfold revisions_encoding. simpl in E. rewrite <-E. done.
  - intros [(Hne & Hl & Hf & Hb) ->]. split.
    + apply orb_false_iff. split; [by apply bool_decide_eq_false_2 | by apply Z.ltb_ge].
    + exists (u32_be (len rs)). split.
      * apply writer_count_Ok. split; [|done]. apply small_u32. unfold MAX_ROSTER_REVISIONS in Hl.
        pose proof (len_nonneg rs). lia.
      * rewrite (proj2 (write_revisions_Ok _ _ _) (conj Hf eq_refl)). cbn [rbind].
        fold (revisions_encoding rs). apply check_not_Ok. split; [by apply Z.ltb_ge | done].
Qed.

Definition wire_revision (r : RosterRevision) : Prop :=
  roster_wf r /\ carried_revision r /\ len (canonical_bytes r) <= MAX_ROSTER_BYTES.

Lemma roster_bytes_addressable l : len l <= MAX_ROSTER_BYTES -> addressable l.
Proof. intros Hl. apply (small_addressable _ _ Hl). by vm_compute. Qed.

Lemma reads_read_revision :
  reads read_revision (fun r enc => wire_revision r /\ enc = sized (canonical_bytes r)).
Proof.
  eapply reads_iff.
  { unfold read_revision. apply reads_bind; [apply reads_reader_bytes|]. intros l.
    apply reads_bind with (S := fun r r' enc =>
      Z.of_nat (size (rev_members r)) <= MAX_ROSTER_MEMBERS /\ r' = r /\ enc = []); [apply reads_lift|].
    intros r. destruct (Z.ltb_spec MAX_ROSTER_MEMBERS (Z.of_nat (size (rev_members r)))).
    - eapply reads_iff; [apply reads_fail|]. intros r' enc; split; [done | lia].
    - eapply reads_iff; [apply reads_ret|]. intros r' enc; split; [by intros [-> ->] | by intros (_ & -> & ->)]. }
  intros r enc; unfold R_bytes, R_sized, wire_revision, carried_revision; split.
  - intros (l & e1 & ? & -> & (Hb & Hl & ->) & r' & ? & ? & -> & [Hr ->] & Hm & -> & ->).
    apply map_err_Ok, from_canonical_sound in Hr as (Hw & _ & <-). by rewrite !app_nil_r.
  - intros [(Hw & [Hm Hl] & Hb) ->].
    exists (canonical_bytes r), (sized (canonical_bytes r)), []. rewrite app_nil_r. split; [done|].
    split; [done|]. exists r, [], []. split; [done|]. split; [|done]. split; [|done].
    apply map_err_Ok, from_canonical_iff; [by apply roster_bytes_addressable | done].
Qed.

Lemma reads_roster_bundle :
  reads read_roster_bundle (fun rs enc => rs <> [] /\ len rs <= MAX_ROSTER_REVISIONS /\
    Forall wire_revision rs /\ enc = revisions_encoding rs).
Proof.
  eapply reads_iff.
  { unfold read_roster_bundle. apply reads_bind with (S := fun n rs enc => n <> 0 /\
      length rs = Z.to_nat n /\ Forall wire_revision rs /\
      enc = concat (map (fun r => sized (canonical_bytes r)) rs)); [apply reads_reader_count|].
    intros n. destruct (Z.eqb_spec n 0) as [->|Hn].
    - eapply reads_iff; [apply reads_fail|]. naive_solver.
    - eapply reads_iff; [apply reads_repeat_map, reads_read_revision|]. tauto. }
  intros rs enc; unfold R_count, R_u32, revisions_encoding; split.
  - intros (n & e1 & ? & -> & (Hlim & Hn & ->) & H0 & Hl & Hf & ->).
    assert (n = len rs) as -> by (unfold len; rewrite Hl; unfold in_u32 in Hn; boolp; lia).
    split; [by intros ->|]. done.
  - intros (Hne & Hlim & Hf & ->). exists (len rs), (u32_be (len rs)). eexists. split; [done|].
    split; [split; [done|]; split; [|done]; apply small_u32; unfold MAX_ROSTER_REVISIONS in Hlim;
      pose proof (len_nonneg rs); lia|].
    split; [destruct rs; [done | rewrite len_cons; pose proof (len_nonneg rs); lia]|].
    split; [by unfold len; rewrite Nat2Z.id | done].
Qed.

Lemma concat_elem_len {A} (f : A -> bytes) x l : x ∈ l -> len (f x) <= len (concat (map f l)).
Proof.
  induction 1 as [x l|x y l _ IH]; cbn [map concat]; rewrite len_app.
  - pose proof (len_nonneg (concat (map f l))). lia.
  - pose proof (len_nonneg (f y)). lia.
Qed.

Section chain.
Context `{Crypto}.

Lemma validate_pairs_Ok p rs : validate_pairs p rs = Ok tt <-> valid_chain p rs.
Proof.
  revert p. induction rs as [|r rs IH]; intros p; simpl; [done|].
  rewrite rbind_Ok. setoid_rewrite map_err_Ok. rewrite <-IH. split; [by intros ([] & ? & ?) | by exists tt].
Qed.

Definition genesis_chain (rs : list RosterRevision) : Prop :=
  match rs with
  | [] => False
  | g :: rs => validate_genesis g = Ok tt /\ valid_chain g rs
  end.

Lemma validate_roster_chain_Ok rs : validate_roster_chain rs = Ok tt <-> genesis_chain rs.
Proof.
  destruct rs as [|g rs]; simpl; [done|].
  rewrite rbind_Ok. setoid_rewrite map_err_Ok. rewrite <-validate_pairs_Ok.
  split; [by intros ([] & ? & ?) | by exists tt].
Qed.

(** A receiver gets a bundle exactly when a sender could have encoded it,
    its revisions are well formed, and they chain from a genesis. *)
Lemma roster_bundle_decode_iff l rs :
  roster_bundle_decode l = Ok rs <->
  roster_bundle_encode rs = Ok l /\ Forall roster_wf rs /\ genesis_chain rs.
Proof.
  unfold roster_bundle_decode. rewrite roster_bundle_encode_Ok, check_not_Ok. unfold bundle_ok. split.
  - intros [Hb%Z.ltb_ge Hr]. apply rbind_Ok in Hr as (rs' & Hr & Hv).
    apply rbind_Ok in Hv as ([] & Hv%validate_roster_chain_Ok & [= ->]).
    apply (read_all_sound _ _ _ _ reads_roster_bundle) in Hr as (Hne & Hl & Hf & ->).
    rewrite Forall_forall in Hf. repeat split; auto; apply Forall_forall; intros r Hin; by apply Hf.
  - intros ((( Hne & Hl & Hf & Hb) & ->) & Hw & Hc). split; [by apply Z.ltb_ge|].
    rewrite (proj2 (read_all_Ok _ _ _ rs reads_roster_bundle (roster_bytes_addressable _ Hb))).
    + cbn [rbind]. by rewrite (proj2 (validate_roster_chain_Ok rs)).
    + split; [done|]. split; [done|]. split; [|done]. rewrite Forall_forall in *. intros r Hin.
      split; [by apply Hw|]. split; [by apply Hf|].
      pose proof (concat_elem_len (fun r => sized (canonical_bytes r)) r rs Hin) as Hr.
      simpl in Hr. rewrite sized_len in Hr. unfold revisions_encoding in Hb.
      rewrite len_app, len_u32_be in Hb. lia.
Qed.
End chain.

(** ** Manifest bundles *)

Definition record_fits (collection : bytes) (r : record) : Prop :=
  rec_collection r = collection /\ len (path_str (rec_path r)) <= MAX_PATH_BYTES /\
  match rec_kind r with File size _ => size <= MAX_FILE_BYTES | Tombstone => True end.

Lemma validate_record_Ok r c : validate_record r c = Ok tt <-> name_fits c /\ record_fits c r.
Proof.
  unfold validate_record, record_fits. rewrite rbind_Ok. split.
  - intros ([] & Hc%validate_short_string_Ok & H). apply check_not_Ok in H as [Hn H].
    apply check_not_Ok in H as [Hp H]. boolp. apply dec_stable in Hn. split; [done|].
    split; [done|]. split; [done|]. destruct (rec_kind r); [|done].
    apply check_not_Ok in H as [Hs _]. by boolp.
  - intros (Hc & Hn & Hp & Hk). exists tt. split; [by apply validate_short_string_Ok|].
    rewrite bool_decide_eq_false_2 by naive_solver. apply check_not_Ok. split; [by apply Z.ltb_ge|].
    destruct (rec_kind r); [|done]. apply check_not_Ok. split; [by apply Z.ltb_ge | done].
Qed.

Lemma validate_records_Ok rs c :
  name_fits c -> validate_records rs c = Ok tt <-> Forall (record_fits c) rs.
Proof.
  intros Hc. induction rs as [|r rs IH]; simpl; [by split|].
  rewrite rbind_Ok, Forall_cons, <-IH. split.
  - by intros ([] & [_ ?]%validate_record_Ok & ?).
  - intros [? ?]. exists tt. by rewrite validate_record_Ok.
Qed.

Definition carried_manifest (x : bytes * Manifest) : Prop :=
  name_fits x.1 /\ Forall (record_fits x.1) (manifest_records x.2) /\
  in_u32 (len (manifest_canonical_bytes x.2)) = true.

Definition records_total (ms : list (bytes * Manifest)) : Z :=
  foldr (fun x n => len (manifest_records x.2) + n) 0 ms.

Definition manifest_item_encoding (x : bytes * Manifest) : bytes :=
  sized x.1 ++ sized (manifest_canonical_bytes x.2).

Lemma records_total_nonneg ms : 0 <= records_total ms.
Proof. induction ms as [|x ms IH]; simpl; [lia|]. pose proof (len_nonneg (manifest_records x.2)). lia. Qed.

Lemma records_add n ms m :
  0 <= n <= MAX_MANIFEST_RECORDS -> n + len (manifest_records m) + records_total ms <= MAX_MANIFEST_RECORDS ->
  usize_checked_add n (len (manifest_records m)) = Some (n + len (manifest_records m)) /\
  (MAX_MANIFEST_RECORDS <? n + len (manifest_records m)) = false.
Proof.
  intros Hn Ht. pose proof (records_total_nonneg ms). pose proof (len_nonneg (manifest_records m)).
  unfold MAX_MANIFEST_RECORDS in *. split; [|apply Z.ltb_ge; lia].
  apply u64_checked_add_Some. lia.
Qed.

(** The names of a bundle are new and distinct. *)
Definition names_fresh (seen : gset bytes) (ms : list (bytes * Manifest)) : Prop :=
  NoDup (map fst ms) /\ Forall (fun x => x.1 ∉ seen) ms.

Lemma names_fresh_cons seen c m ms :
  names_fresh seen ((c, m) :: ms) <-> (c ∉ seen) /\ names_fresh ({[c]} ∪ seen) ms.
Proof.
  unfold names_fresh. cbn [map fst]. rewrite NoDup_cons, Forall_cons. cbn [fst].
  rewrite !Forall_forall. split.
  - intros [[Hn Hd] [Hc Hf]]. split; [done|]. split; [done|]. intros x Hx.
    apply not_elem_of_union. split; [|by apply Hf]. apply not_elem_of_singleton. intros E.
    apply Hn. rewrite <-E. by apply list_elem_of_fmap_2.
  - intros [Hc [Hd Hf]]. split; [split; [|done]|split; [done|]].
    + intros (x & E & Hx)%list_elem_of_fmap. apply Hf in Hx. rewrite <-E in Hx. set_solver.
    + intros x Hx. apply Hf in Hx. set_solver.
Qed.

Lemma write_manifests_Ok seen n w ms l :
  0 <= n <= MAX_MANIFEST_RECORDS ->
  write_manifests seen n w ms = Ok l <->
  Forall carried_manifest ms /\ names_fresh seen ms /\ n + records_total ms <= MAX_MANIFEST_RECORDS /\
  l = w ++ concat (map manifest_item_encoding ms).
Proof.
  revert seen n w. induction ms as [|[c m] ms IH]; intros seen n w Hn.
  { simpl. rewrite app_nil_r, Z.add_0_r. split; [intros [= ->]|by intros (_ & _ & _ & ->)].
    split; [done|]. split; [by split; constructor|]. split; [apply Hn | done]. }
  rewrite names_fresh_cons, Forall_cons. cbn [write_manifests records_total foldr fst snd map concat]. split.
  - intros H. apply rbind_Ok in H as ([] & Hc%validate_short_string_Ok & H).
    apply check_not_Ok in H as [Hs H]. apply rbind_Ok in H as (n' & Ha & H).
    apply ok_or_Ok, u64_checked_add_Some in Ha as [-> Hb]. apply check_not_Ok in H as [Hm H].
    apply rbind_Ok in H as ([] & Hr & H). apply (validate_records_Ok _ _ Hc) in Hr.
    apply rbind_Ok in H as (w1 & [_ ->]%writer_bytes_Ok & H).
    apply rbind_Ok in H as (w2 & [Hl ->]%writer_bytes_Ok & H). boolp.
    apply IH in H as (Hf & Hfr & Ht & ->); [|lia]. fold (records_total ms).
    split; [split; [by split; [|split]|done]|]. split; [done|]. split; [lia|].
    unfold manifest_item_encoding. by rewrite <-!app_assoc.
  - fold (records_total ms). intros (((Hc & Hr & Hl) & Hf) & (Hs & Hfr) & Ht & ->). cbn [fst snd] in *.
    destruct (records_add n ms m Hn ltac:(lia)) as [Ha Hm].
    unfold validate_collection. rewrite (proj2 (validate_short_string_Ok _ _) Hc). cbn [rbind].
    rewrite bool_decide_eq_false_2 by done. rewrite Ha. cbn [ok_or rbind]. rewrite Hm.
    rewrite (proj2 (validate_records_Ok _ _ Hc) Hr). cbn [rbind]. unfold writer_string.
    rewrite (proj2 (writer_bytes_Ok w c _) (conj (name_fits_u32 c Hc) eq_refl)). cbn [rbind].
    rewrite (proj2 (writer_bytes_Ok _ (manifest_canonical_bytes m) _) (conj Hl eq_refl)). cbn [rbind].
    apply Z.ltb_ge in Hm. pose proof (len_nonneg (manifest_records m)).
    apply IH; [lia|]. split; [done|]. split; [done|]. split; [lia|].
    unfold manifest_item_encoding. by rewrite <-!app_assoc.
Qed.

Definition manifests_encoding (ms : list (bytes * Manifest)) : bytes :=
  u32_be (len ms) ++ concat (map manifest_item_encoding ms).

Definition manifests_ok (ms : list (bytes * Manifest)) : Prop :=
  len ms <= MAX_COLLECTIONS /\ Forall carried_manifest ms /\ NoDup (map fst ms) /\
  records_total ms <= MAX_MANIFEST_RECORDS /\ len (manifests_encoding ms) <= MAX_MANIFEST_BYTES.

Lemma names_fresh_empty ms : names_fresh ∅ ms <-> NoDup (map fst ms).
Proof.
  unfold names_fresh. assert (Forall (fun x : bytes * Manifest => x.1 ∉ (∅ : gset bytes)) ms)
    by (apply Forall_true; intros; apply not_elem_of_empty). tauto.
Qed.

Lemma max_records_nonneg : 0 <= 0 <= MAX_MANIFEST_RECORDS.
Proof. unfold MAX_MANIFEST_RECORDS. lia. Qed.

Lemma manifest_bundle_encode_Ok ms l :
  manifest_bundle_encode ms = Ok l <-> manifests_ok ms /\ l = manifests_encoding ms.
Proof.
  unfold manifest_bundle_encode, manifests_ok. rewrite check_not_Ok, rbind_Ok. split.
  - intros [Hc%Z.ltb_ge (w & [_ ->]%writer_count_Ok & H)]. apply rbind_Ok in H as (l' & Hw & H).
    apply (write_manifests_Ok _ _ _ _ _ max_records_nonneg) in Hw as (Hf & Hn%names_fresh_empty & Ht & ->).
    apply check_not_Ok in H as [Hb%Z.ltb_ge [= <-]]. rewrite Z.add_0_l in Ht. done.
  - intros [(Hc & Hf & Hn & Ht & Hb) ->]. split; [by apply Z.ltb_ge|].
    exists (u32_be (len ms)). split.
    + apply writer_count_Ok. split; [|done]. apply small_u32. unfold MAX_COLLECTIONS in Hc.
      pose proof (len_nonneg ms). lia.
    + rewrite (proj2 (write_manifests_Ok ∅ 0 _ ms _ max_records_nonneg)
        (conj Hf (conj (proj2 (names_fresh_empty ms) Hn) (conj Ht eq_refl)))).
      cbn [rbind]. apply check_not_Ok. split; [by apply Z.ltb_ge | done].
Qed.

(** A manifest as it comes off the wire. *)
Definition wire_manifest (x : bytes * Manifest) : Prop :=
  utf8_valid x.1 = true /\ carried_manifest x /\ manifest_wf x.2 /\
  len (manifest_canonical_bytes x.2) <= MAX_MANIFEST_BYTES.

Lemma manifest_bytes_addressable l : len l <= MAX_MANIFEST_BYTES -> addressable l.
Proof. intros Hl. apply (small_addressable _ _ Hl). by vm_compute. Qed.

Lemma reads_manifests count seen n :
  0 <= n <= MAX_MANIFEST_RECORDS ->
  reads (read_manifests count seen n) (fun ms enc => length ms = count /\ Forall wire_manifest ms /\
    names_fresh seen ms /\ n + records_total ms <= MAX_MANIFEST_RECORDS /\
    enc = concat (map manifest_item_encoding ms)).
Proof.
  revert seen n. induction count as [|count IH]; intros seen n Hn.
  { eapply reads_iff; [apply reads_ret|]. intros ms enc; split.
    - intros [-> ->]. split; [done|]. split; [done|]. split; [by split; constructor|]. simpl. split; [lia|done].
    - by intros (Hl & _ & _ & _ & ->); destruct ms. }
  eapply reads_iff.
  { simpl. apply reads_bind; [apply reads_reader_string|]. intros c.
    apply reads_lift_bind. intros u Hc. apply reads_guard. intros Hs.
    apply reads_bind; [apply reads_reader_bytes|]. intros l.
    apply reads_lift_bind. intros m Hm. apply reads_lift_bind. intros n' Hn'.
    apply reads_guard. intros Hlim. apply reads_lift_bind. intros u' Hr.
    apply reads_bind; [|intros rest; apply reads_ret]. apply IH.
    apply ok_or_Ok, u64_checked_add_Some in Hn' as [-> Hb]. boolp. lia. }
  intros ms enc; unfold R_name, R_bytes, R_sized; split.
  - intros (c & e1 & ? & -> & (Hu & Hcl & _ & ->) & [] & Hc%validate_short_string_Ok & Hs &
      l & e2 & ? & -> & (Hll & Hlu & ->) & m & Hm & n' & Hn' & Hlim & [] & Hr &
      rest & ? & ? & -> & (Hlen & Hf & Hfr & Ht & ->) & -> & ->).
    apply ok_or_Ok, u64_checked_add_Some in Hn' as [-> Hb].
    apply map_err_Ok, manifest_from_canonical_iff in Hm as (Hw & _ & <-); [|by apply manifest_bytes_addressable].
    apply (validate_records_Ok _ _ Hc) in Hr. boolp. rewrite app_nil_r.
    split; [simpl; lia|]. split.
    { constructor; [|done]. split; [done|]. split; [by split|]. done. }
    split; [by apply names_fresh_cons|]. split; [cbn [records_total foldr snd]; fold (records_total rest); lia|].
    cbn [map concat]. unfold manifest_item_encoding at 2. cbn [fst snd]. by rewrite <-!app_assoc.
  - intros (Hlen & Hf & Hfr & Ht & ->). destruct ms as [|[c m] rest]; [done|].
    inversion Hf as [|? ? (Hu & (Hc & Hr & Hl) & Hw & Hb) Hf']; subst. cbn [fst snd] in *.
    apply names_fresh_cons in Hfr as [Hs Hfr].
    cbn [records_total foldr snd] in Ht. fold (records_total rest) in Ht.
    destruct (records_add n rest m Hn ltac:(lia)) as [Ha Hlim].
    exists c, (sized c), (sized (manifest_canonical_bytes m) ++ concat (map manifest_item_encoding rest)).
    split; [cbn [map concat]; unfold manifest_item_encoding at 1; cbn [fst snd]; by rewrite <-!app_assoc|].
    split; [split; [done|]; split; [apply Hc|]; split; [by apply name_fits_u32 | done]|].
    exists tt. split; [by apply validate_short_string_Ok|]. split; [by apply bool_decide_eq_false_2|].
    exists (manifest_canonical_bytes m), (sized (manifest_canonical_bytes m)),
      (concat (map manifest_item_encoding rest)). split; [done|]. split; [done|].
    pose proof (records_total_nonneg rest).
    exists m. split; [apply map_err_Ok, manifest_from_canonical_iff; [by apply manifest_bytes_addressable|]|].
    { split; [done|]. split; [unfold usize_saturating_sub; lia | done]. }
    exists (n + len (manifest_records m)). split; [by rewrite Ha|]. split; [done|].
    exists tt. split; [by apply validate_records_Ok|].
    exists rest, (concat (map manifest_item_encoding rest)), []. rewrite app_nil_r. simpl in Hlen.
    split; [done|]. split; [|done]. split; [lia|]. split; [done|]. split; [done|]. split; [lia | done].
Qed.

Lemma reads_manifest_bundle :
  reads read_manifest_bundle (fun ms enc => len ms <= MAX_COLLECTIONS /\ Forall wire_manifest ms /\
    NoDup (map fst ms) /\ records_total ms <= MAX_MANIFEST_RECORDS /\ enc = manifests_encoding ms).
Proof.
  eapply reads_iff.
  { apply reads_bind; [apply reads_reader_count|]. intros n. apply reads_manifests, max_records_nonneg. }
  intros ms enc; unfold R_count, R_u32, manifests_encoding; split.
  - intros (n & e1 & ? & -> & (Hlim & Hn & ->) & Hl & Hf & Hfr%names_fresh_empty & Ht & ->).
    assert (n = len ms) as -> by (unfold len; rewrite Hl; unfold in_u32 in Hn; boolp; lia). done.
  - intros (Hlim & Hf & Hd & Ht & ->). exists (len ms), (u32_be (len ms)). eexists. split; [done|].
    split; [split; [done|]; split; [|done]; apply small_u32; unfold MAX_COLLECTIONS in Hlim;
      pose proof (len_nonneg ms); lia|].
    rewrite names_fresh_empty. unfold len. rewrite Nat2Z.id. done.
Qed.

Lemma manifest_bundle_decode_iff l ms :
  manifest_bundle_decode l = Ok ms <->
  manifest_bundle_encode ms = Ok l /\ Forall (fun x => utf8_valid x.1 = true /\ manifest_wf x.2) ms.
Proof.
  unfold manifest_bundle_decode. rewrite manifest_bundle_encode_Ok, check_not_Ok. unfold manifests_ok. split.
  - intros [Hb%Z.ltb_ge (Hl & Hf & Hd & Ht & ->)%(read_all_sound _ _ _ _ reads_manifest_bundle)].
    rewrite Forall_forall in Hf. assert (Forall carried_manifest ms) by
      (apply Forall_forall; intros x Hin; by apply Hf).
    split; [done|]. apply Forall_forall. intros x Hin. destruct (Hf x Hin) as (? & _ & ? & _). done.
  - intros [((Hc & Hf & Hd & Ht & Hb) & ->) Hw]. split; [by apply Z.ltb_ge|].
    apply (read_all_Ok _ _ _ ms reads_manifest_bundle (manifest_bytes_addressable _ Hb)).
    split; [done|]. split; [|done]. rewrite Forall_forall in *. intros x Hin.
    destruct (Hw x Hin) as [Hu Hm]. split; [done|]. split; [by apply Hf|]. split; [done|].
    pose proof (concat_elem_len manifest_item_encoding x ms Hin) as Hx.
    unfold manifest_item_encoding at 1 in Hx. rewrite len_app, !sized_len in Hx.
    unfold manifests_encoding in Hb. rewrite len_app, len_u32_be in Hb. pose proof (len_nonneg x.1). lia.
Qed.

(** ** Frames *)

Lemma from_byte_Ok b tag : from_byte b = Ok tag <-> b = tag_byte tag.
Proof.
  unfold from_byte. split.
  - intros H. repeat (case_match; boolp; simplify_eq; try done).
  - intros ->. by destruct tag.
Qed.

Lemma payload_limit_bound tag : 0 <= payload_limit tag <= MAX_FRAME_BYTES.
Proof. by destruct tag. Qed.

Lemma tag_byte_u8 tag : 0 <= tag_byte tag < 256.
Proof. by destruct tag. Qed.

Definition frame (tag : FrameTag) (payload : bytes) : bytes :=
  [byte_of_Z (tag_byte tag)] ++ u32_be (len payload) ++ payload.

Lemma frame_len tag payload : len (frame tag payload) = HEADER_BYTES + len payload.
Proof. unfold frame, HEADER_BYTES. autorewrite with skillsync_len. lia. Qed.

Lemma encode_frame_Ok tag payload l :
  encode_frame tag payload = Ok l <-> len payload <= payload_limit tag /\ l = frame tag payload.
Proof.
  unfold encode_frame. rewrite check_not_Ok, orb_false_iff, !Z.ltb_ge.
  pose proof (payload_limit_bound tag). pose proof (len_nonneg payload). unfold MAX_FRAME_BYTES in *. split.
  - intros [[Hl _] H']. inv_ok. match goal with H : u32_try_from _ = Some _ |- _ =>
      apply u32_try_from_Some in H as [-> _] end. done.
  - intros [Hl ->]. split; [lia|]. 
    assert (u32_try_from (len payload) = Some (len payload)) as -> by (apply u32_try_from_Some; lia). done.
Qed.

Lemma read_exact_Ok n s l s' :
  0 <= n -> read_exact n s = Ok (l, s') <->
  stream_bytes s = l ++ stream_bytes s' /\ stream_stop s' = stream_stop s /\ len l = n.
Proof.
  intros Hn. unfold read_exact. destruct s as [b e], s' as [b' e']. cbn [stream_bytes stream_stop]. split.
  - intros H. apply check_Ok in H as [Hl%Z.leb_le [= <- <- <-]]. rewrite take_drop.
    split; [done|]. split; [done|]. unfold len in *. rewrite length_take. lia.
  - intros (-> & -> & Hl). apply check_Ok. rewrite len_app. pose proof (len_nonneg b').
    split; [apply Z.leb_le; lia|]. unfold len in Hl. rewrite <-Hl, Nat2Z.id.
    by rewrite take_app_length, drop_app_length.
Qed.

Lemma decode_header_Ok header tag n :
  len header = HEADER_BYTES ->
  decode_header header = Ok (tag, n) <->
  n <= payload_limit tag /\ in_u32 n = true /\ header = [byte_of_Z (tag_byte tag)] ++ u32_be n.
Proof.
  unfold HEADER_BYTES. intros Hh. destruct header as [|b rest]; [done|].
  rewrite len_cons in Hh. assert (length rest = 4%nat) as Hr by (unfold len in Hh; lia).
  unfold decode_header. rewrite rbind_Ok. setoid_rewrite from_byte_Ok. split.
  - intros (t & Hb & H). apply check_not_Ok in H as [Hl H]. simplify_eq.
    apply orb_false_iff in Hl as [_ Hl%Z.ltb_ge]. destruct (from_be_u32 rest Hr) as [E Hn].
    rewrite E. split; [done|]. split; [done|]. by rewrite <-Hb, byte_of_byteZ.
  - intros (Hl & Hn & [= -> ->]). pose proof (payload_limit_bound tag).
    exists tag. split.
    + rewrite byteZ_of_Z, Z.mod_small by apply tag_byte_u8. done.
    + rewrite u32_be_from by done. apply check_not_Ok. split; [|done].
      apply orb_false_iff. rewrite !Z.ltb_ge. lia.
Qed.

(** A frame is read exactly when the stream starts with it. *)
Definition delivers (s : Stream) (tag : FrameTag) (payload : bytes) (s' : Stream) : Prop :=
  len payload <= payload_limit tag /\
  stream_bytes s = frame tag payload ++ stream_bytes s' /\ stream_stop s' = stream_stop s.

(** The two readers share the header and the payload. *)
Lemma delivers_split s tag payload s' :
  delivers s tag payload s' <->
  exists s1, read_exact HEADER_BYTES s = Ok ([byte_of_Z (tag_byte tag)] ++ u32_be (len payload), s1) /\
    decode_header ([byte_of_Z (tag_byte tag)] ++ u32_be (len payload)) = Ok (tag, len payload) /\
    read_exact (len payload) s1 = Ok (payload, s').
Proof.
  assert (len ([byte_of_Z (tag_byte tag)] ++ u32_be (len payload)) = HEADER_BYTES) as Hh.
  { autorewrite with skillsync_len. done. }
  pose proof (payload_limit_bound tag). pose proof (len_nonneg payload).
  unfold delivers, frame. split.
  - intros (Hl & Hb & Hs). exists (mkStream (payload ++ stream_bytes s') (stream_stop s)).
    rewrite !read_exact_Ok, (decode_header_Ok _ _ _ Hh) by done. cbn [stream_bytes stream_stop]. rewrite Hb, <-!app_assoc.
    repeat split; auto. apply small_u32. unfold MAX_FRAME_BYTES in *. lia.
  - intros (s1 & (Hb & Hs & _)%read_exact_Ok &
      (Hl & _ & _)%(decode_header_Ok _ _ _ Hh) & (Hb1 & Hs1 & _)%read_exact_Ok); [|done|done]. split; [done|].
    rewrite Hb, Hb1, <-!app_assoc. split; [done|]. congruence.
Qed.

Lemma decode_frame_Ok s tag payload s' :
  decode_frame s = Ok ((tag, payload), s') <-> delivers s tag payload s'.
Proof.
  rewrite delivers_split. unfold decode_frame. split.
  - intros H. apply rbind_Ok in H as ([header s1] & H1%map_err_Ok & H). apply rbind_Ok in H as ([t n] & H2 & H).
    apply rbind_Ok in H as ([p s2] & H3%map_err_Ok & [= -> -> ->]).
    pose proof (proj1 (read_exact_Ok HEADER_BYTES _ _ _ ltac:(done)) H1) as (_ & _ & Hh).
    pose proof (proj1 (decode_header_Ok _ _ _ Hh) H2) as (Hl & Hn & ->).
    assert (0 <= n) as Hn0 by (unfold in_u32 in Hn; boolp; lia).
    pose proof (proj1 (read_exact_Ok n _ _ _ Hn0) H3) as (_ & _ & <-). eauto.
  - intros (s1 & H1 & H2 & H3). unfold read_exact_sync. rewrite H1. cbn [rbind]. cbn [map_err rbind]. rewrite H2. cbn [rbind]. by rewrite H3.
Qed.

Lemma read_chunks_Ok sizes s l s' :
  Forall (fun n => 0 <= n) sizes ->
  read_chunks sizes s = Ok (l, s') <-> read_exact (foldr Z.add 0 sizes) s = Ok (l, s').
Proof.
  intros Hs. assert (0 <= foldr Z.add 0 sizes) as Ht by (induction Hs; simpl; lia).
  rewrite read_exact_Ok by done. revert s l Ht. induction Hs as [|n sizes Hn Hs IH]; intros s l Ht; simpl.
  - split.
    + intros [= <- <-]. done.
    + destruct s, s'; simpl. intros (E & -> & Hl). assert (l = []) as ->
        by (apply length_zero_iff_nil; unfold len in Hl; lia). simpl in E. by subst.
  - assert (0 <= foldr Z.add 0 sizes) as Ht' by (clear -Hs; induction Hs; simpl; lia). split.
    + intros H. apply rbind_Ok in H as ([c s1] & H1 & H). apply rbind_Ok in H as ([r s2] & H2 & [= <- <-]).
      apply (read_exact_Ok _ _ _ _ Hn) in H1 as (E1 & Hs1 & Hl1). apply IH in H2 as (E2 & Hs2 & Hl2); [|done].
      rewrite E1, E2, len_app, app_assoc, Hl1, Hl2. split; [done|]. split; [congruence | done].
    + intros (E & Hstop & Hl). set (c := take (Z.to_nat n) l). set (r := drop (Z.to_nat n) l).
      assert (l = c ++ r) as El by (symmetry; apply take_drop).
      assert (len c = n) as Hc by (unfold c, len in *; rewrite length_take; lia).
      assert (len r = foldr Z.add 0 sizes) as Hr by (rewrite El, len_app in Hl; lia).
      rewrite (proj2 (read_exact_Ok n s c (mkStream (r ++ stream_bytes s') (stream_stop s)) Hn)).
      * cbn [rbind]. rewrite (proj2 (IH (mkStream (r ++ stream_bytes s') (stream_stop s)) r Ht')) by done.
        cbn [rbind]. by rewrite <-El.
      * rewrite E, El, <-app_assoc. done.
Qed.

Lemma chunk_sizes_sum n : 0 <= n -> foldr Z.add 0 (chunk_sizes n) = n /\ Forall (fun n => 0 <= n) (chunk_sizes n).
Proof.
  intros Hn. unfold chunk_sizes.
  assert (forall k t, foldr Z.add 0 (replicate k CHUNK ++ t) = Z.of_nat k * CHUNK + foldr Z.add 0 t) as Hf.
  { intros k t. induction k as [|k IH]; cbn [replicate app foldr]; [done|]. rewrite IH. lia. }
  pose proof (Z.div_mod n CHUNK ltac:(done)) as E. pose proof (Z.mod_pos_bound n CHUNK ltac:(done)) as Hm.
  assert (0 <= n / CHUNK) as Hd by (by apply Z.div_pos). split.
  - rewrite Hf, Z2Nat.id by done. destruct (Z.eqb_spec (n mod CHUNK) 0); simpl; lia.
  - apply Forall_app. split; [by apply Forall_replicate|].
    destruct (Z.eqb_spec (n mod CHUNK) 0); repeat constructor. lia.
Qed.

Lemma read_frame_async_Ok s received tag payload s' received' :
  0 <= received ->
  read_frame_async s received = Ok ((tag, payload), s', received') <->
  delivers s tag payload s' /\ received' = received + len (frame tag payload) /\
  received' <= MAX_CONNECTION_BYTES.
Proof.
  intros Hrec. rewrite delivers_split, frame_len. unfold read_frame_async, add_received. split.
  - intros H. apply rbind_Ok in H as ([header s1] & H1 & H). apply rbind_Ok in H as ([t n] & H2 & H).
    apply rbind_Ok in H as (r & Hr & H). apply rbind_Ok in H as ([p s2] & H3 & [= -> -> -> <-]).
    pose proof (proj1 (read_exact_Ok HEADER_BYTES _ _ _ ltac:(done)) H1) as (_ & _ & Hh).
    pose proof (proj1 (decode_header_Ok _ _ _ Hh) H2) as (Hl & Hn & ->).
    assert (0 <= n) as Hn0 by (unfold in_u32 in Hn; boolp; lia).
    destruct (chunk_sizes_sum n Hn0) as [Hsum Hall].
    apply (read_chunks_Ok _ _ _ _ Hall) in H3. rewrite Hsum in H3.
    pose proof (proj1 (read_exact_Ok n _ _ _ Hn0) H3) as (_ & _ & <-).
    apply rbind_Ok in Hr as (r' & Ha & Hr). apply ok_or_Ok, u64_checked_add_Some in Ha as [-> _].
    apply check_not_Ok in Hr as [Hlim%Z.ltb_ge [= <-]].
    split; [by exists s1 | done].
  - intros [(s1 & H1 & H2 & H3) [-> Hlim]]. rewrite H1. cbn [rbind]. rewrite H2. cbn [rbind].
    pose proof (len_nonneg payload) as Hp. destruct (chunk_sizes_sum _ Hp) as [Hsum Hall].
    assert (u64_checked_add received (HEADER_BYTES + len payload)
      = Some (received + (HEADER_BYTES + len payload))) as ->
      by (apply u64_checked_add_Some; unfold MAX_CONNECTION_BYTES, HEADER_BYTES in *; lia).
    cbn [ok_or rbind].
    rewrite (proj2 (Z.ltb_ge _ _) Hlim). cbn [rbind].
    rewrite (proj2 (read_chunks_Ok _ _ payload s' Hall)) by by rewrite Hsum. done.
Qed.

Lemma chunks_loop_concat fuel n l : (length l <= fuel)%nat -> (0 < n)%nat -> concat (chunks_loop fuel n l) = l.
Proof.
  revert l. induction fuel as [|fuel IH]; intros l Hf Hn; simpl.
  - by destruct l; [|simpl in Hf; lia].
  - destruct l as [|b l]; [done|]. cbn [concat]. rewrite IH; [apply take_drop | | done].
    rewrite length_drop. simpl in *. lia.
Qed.

Lemma chunks_concat l : concat (chunks (Z.to_nat CHUNK) l) = l.
Proof. apply chunks_loop_concat; [done|]. unfold CHUNK. lia. Qed.

Lemma write_chunks_concat l s : write_chunks l (mkSink s None) = Ok (mkSink (s ++ concat l) None).
Proof.
  revert s. induction l as [|c l IH]; intros s; simpl; [by rewrite app_nil_r|].
  by rewrite IH, <-app_assoc.
Qed.

(** Cut into chunks or not, the sink receives the frame. *)
Lemma write_frame_async_Ok w tag payload s :
  write_frame_async (mkSink w None) tag payload = Ok s <->
  len payload <= payload_limit tag /\ s = mkSink (w ++ frame tag payload) None.
Proof.
  unfold write_frame_async. rewrite rbind_Ok. setoid_rewrite encode_frame_Ok. split.
  - intros (l & [Hl ->] & H). rewrite write_chunks_concat, chunks_concat in H. by simplify_eq.
  - intros [Hl ->]. eexists. split; [done|]. by rewrite write_chunks_concat, chunks_concat.
Qed.

(** ** File headers *)

Definition header_record (r : record) : Prop :=
  name_fits (rec_collection r) /\ len (path_str (rec_path r)) <= MAX_PATH_BYTES /\
  exists size hash, rec_kind r = File size hash /\ size <= MAX_FILE_BYTES.

Lemma header_checks_Ok r :
  validate_record r (rec_collection r) = Ok tt /\ check_header_kind r = Ok tt <-> header_record r.
Proof.
  rewrite validate_record_Ok. unfold record_fits, header_record, check_header_kind. split.
  - intros [(Hc & _ & Hp & Hk) H]. destruct (rec_kind r) as [size hash|]; [|done]. eauto 10.
  - intros (Hc & Hp & size & hash & Hk & Hs). rewrite Hk. split; [done|]. by rewrite (proj2 (Z.leb_le _ _) Hs).
Qed.

Lemma decode_file_header_Ok l r :
  decode_file_header l = Ok r <-> record_wf r /\ header_record r /\ encode_file_header r = Ok l.
Proof.
  unfold decode_file_header, encode_file_header. split.
  - intros H. apply rbind_Ok in H as (r' & Hr%map_err_Ok & H). apply rbind_Ok in H as ([] & Hv & H).
    apply rbind_Ok in H as ([] & Hk & [= ->]). apply record_from_canonical_iff in Hr as [Hw <-].
    split; [done|]. split; [by apply header_checks_Ok|]. rewrite Hv. cbn [rbind]. by rewrite Hk.
  - intros (Hw & Hh & H). apply header_checks_Ok in Hh as [Hv Hk]. rewrite Hv in H. cbn [rbind] in H.
    rewrite Hk in H. cbn [rbind] in H. injection H as <-.
    rewrite (proj2 (record_from_canonical_iff _ r) (conj Hw eq_refl)). cbn [map_err rbind].
    rewrite Hv. cbn [rbind]. by rewrite Hk.
Qed.

Lemma header_bound r : record_wf r -> header_record r -> len (record_canonical_bytes r) <= payload_limit FFile.
Proof.
  intros [Hr _] ((_ & Hc) & Hp & _). rewrite record_canonical_bytes_eq, len_app by done.
  pose proof (record_encoding_bound r). change (len RECORD_DOMAIN) with 20.
  unfold payload_limit, MAX_COLLECTION_NAME_BYTES, MAX_PATH_BYTES in *. lia.
Qed.

(** ** Properties *)

(** The hello decoder accepts exactly what the encoder produces for valid
    UTF-8 strings: at most 64 collection names, strictly ascending, each of 1 to
    255 bytes, and an address hint of at most 16 KiB; every encoded hello fits
    the payload limit of its frame. *)
Theorem hello_codec l h :
  (hello_decode l = Ok h <-> hello_encode h = Ok l /\ hello_utf8 h) /\
  (hello_encode h = Ok l -> hello_ok h /\ encode_frame FHello l = Ok (frame FHello l)).
Proof.
  split; [apply hello_decode_iff|]. intros [Ho ->]%hello_encode_Ok. split; [done|].
  apply encode_frame_Ok. split; [by apply hello_encoding_bound | done].
Qed.

(** The request decoder accepts exactly what the encoder produces for valid
    UTF-8 strings: at most 1024 requests in strictly ascending order (so none
    twice), each with a valid path of at most 4096 bytes; every encoded bundle
    fits the payload limit of its frame. *)
Theorem request_bundle_codec l rs :
  (request_bundle_decode l = Ok rs <-> request_bundle_encode rs = Ok l /\ Forall request_utf8 rs) /\
  (request_bundle_encode rs = Ok l -> requests_ok rs /\ encode_frame FRequests l = Ok (frame FRequests l)).
Proof.
  split; [apply request_bundle_decode_iff|]. intros [Ho ->]%request_bundle_encode_Ok. split; [done|].
  apply encode_frame_Ok. split; [by apply requests_encoding_bound | done].
Qed.

(** C38: A roster bundle off the wire decodes exactly when it is an encoding
    within the limits (1 to 1024 revisions, 1024 members each, 2 MiB in all) of
    well-formed revisions that form a chain from a valid genesis, each validated
    by its predecessor: an unauthorised revision never gets past the decoder. *)
Theorem roster_bundle_codec `{Crypto} l rs :
  (roster_bundle_decode l = Ok rs <->
   roster_bundle_encode rs = Ok l /\ Forall roster_wf rs /\ genesis_chain rs) /\
  (roster_bundle_encode rs = Ok l -> bundle_ok rs /\ encode_frame FRoster l = Ok (frame FRoster l)).
Proof.
  split; [apply roster_bundle_decode_iff|]. intros [Ho ->]%roster_bundle_encode_Ok. split; [done|].
  apply encode_frame_Ok. split; [apply Ho | done].
Qed.

(** A manifest bundle off the wire decodes exactly when it is an encoding
    within the limits (64 collections with distinct names, 10000 records in all,
    paths of 4096 bytes, files of 64 MiB, 8 MiB in all) of well-formed manifests
    that only name records of their own collection. *)
Theorem manifest_bundle_codec l ms :
  (manifest_bundle_decode l = Ok ms <->
   manifest_bundle_encode ms = Ok l /\ Forall (fun x => utf8_valid x.1 = true /\ manifest_wf x.2) ms) /\
  (manifest_bundle_encode ms = Ok l ->
   manifests_ok ms /\ encode_frame FManifests l = Ok (frame FManifests l)).
Proof.
  split; [apply manifest_bundle_decode_iff|]. intros [Ho ->]%manifest_bundle_encode_Ok. split; [done|].
  apply encode_frame_Ok. split; [apply Ho | done].
Qed.

(** A file header off the wire is exactly the canonical form of a
    well-formed file record within the limits, never a tombstone, and fits the
    payload limit of its frame. *)
Theorem file_header_codec l r :
  decode_file_header l = Ok r <->
  record_wf r /\ header_record r /\ encode_file_header r = Ok l /\ encode_frame FFile l = Ok (frame FFile l).
Proof.
  rewrite decode_file_header_Ok. split; [|tauto]. intros (Hw & Hh & He).
  split; [done|]. split; [done|]. split; [done|]. apply encode_frame_Ok. split; [|done].
  unfold encode_file_header in He. apply rbind_Ok in He as ([] & _ & He).
  apply rbind_Ok in He as ([] & _ & [= <-]). by apply header_bound.
Qed.

(** C39: Frames round trip over a stream: what [write_frame_async] appends to an
    open sink, in chunks, is exactly what [read_frame_async] takes off a stream
    that starts with it, leaving the rest and adding the frame's length to the
    bytes received, which never exceed the connection limit. *)
Theorem frame_roundtrip s received tag payload s' received' w :
  0 <= received ->
  read_frame_async s received = Ok ((tag, payload), s', received') <->
  (exists l, write_frame_async (mkSink w None) tag payload = Ok (mkSink (w ++ l) None) /\
    stream_bytes s = l ++ stream_bytes s' /\ stream_stop s' = stream_stop s /\
    received' = received + len l) /\ received' <= MAX_CONNECTION_BYTES.
Proof.
  intros Hr. rewrite read_frame_async_Ok by done. setoid_rewrite write_frame_async_Ok. unfold delivers. split.
  - intros ((Hl & Hb & Hs) & Hn & Hm). split; [|done]. by exists (frame tag payload).
  - intros ((l & (Hl & [= E]) & Hb & Hs & Hn) & Hm). apply app_inv_head in E as ->. done.
Qed.

(** The blocking reader of frames takes exactly the frames the encoder
    makes: same frame, same rest of the input. *)
Theorem decode_frame_exact s tag payload s' :
  decode_frame s = Ok ((tag, payload), s') <->
  exists l, encode_frame tag payload = Ok l /\ stream_bytes s = l ++ stream_bytes s' /\
    stream_stop s' = stream_stop s.
Proof.
  rewrite decode_frame_Ok. setoid_rewrite encode_frame_Ok. unfold delivers. split.
  - intros (Hl & Hb & Hs). eauto.
  - by intros (l & [Hl ->] & Hb & Hs).
Qed.

(** ** Examples *)

Definition example_payload : bytes := lit "payload".

Lemma frame_roundtrip_witness :
  read_frame_async (mkStream (frame FHello example_payload ++ lit "rest") Closed) 7
  = Ok ((FHello, example_payload), mkStream (lit "rest") Closed, 19).
Proof.
  apply (frame_roundtrip _ 7 FHello example_payload _ 19 []); [done|]. split; [|done].
  exists (frame FHello example_payload). split; [by vm_compute|]. by vm_compute.
Defined.
