(* ===== verification/Database.v ===== *)
(** The tables of state.rs, with the constraints of its schema, and the monad
    its operations run in.

    SQLite is a library; its tables are modelled as what the schema declares:
    a primary key is the key of a map, a [CHECK] a guard of the statements that
    write the row, [ON DELETE CASCADE] a deletion of the referring rows.  A
    statement that violates a constraint returns [Sqlite] and changes nothing.
    Blobs whose length a [CHECK] fixes are arrays of that length.  Faults of the
    disk and lock contention are not modelled. *)

From S2P Require Import Prelude Bytes Utf8 Cursor Canonical Path Identity Records Roster.

Inductive StateError :=
  | Sqlite
  | UnsupportedSchema (version : Z)
  | InvalidStoredState (message : string)
  | MissingCollection
  | MissingPathRecord
  | RosterTopology (message : string)
  | NumberOverflow
  | PeerHintLimit
  | RosterRetryLimit
  | StateRecord (e : RecordError)
  | StateRoster (e : RosterError)
  | StatePath (e : PathError).

#[global] Instance StateError_eq_dec : EqDecision StateError.
Proof. solve_decision. Defined.

(** ** Rows *)

Record CollectionRow := mkCollectionRow {
  col_local_path : bytes;
  col_resolved_root : option bytes;
  col_scan_status : bytes;
  col_watch_status : bytes;
}.

Record PathRow := mkPathRow {
  row_record_hash : array 32;
  row_kind : Z;
  row_canonical : bytes;
  row_materialized : bool;
  row_modified_ns : option Z;
  row_size : option Z;
  row_content_hash : option bytes;
}.

Record LogRow := mkLogRow {
  log_id : Z;
  log_created_ns : Z;
  log_payload : bytes;
}.

#[global] Instance CollectionRow_eq_dec : EqDecision CollectionRow.
Proof. solve_decision. Defined.
#[global] Instance PathRow_eq_dec : EqDecision PathRow.
Proof. solve_decision. Defined.
#[global] Instance LogRow_eq_dec : EqDecision LogRow.
Proof. solve_decision. Defined.

(** The database: its tables, and the sequence of [AUTOINCREMENT]. *)
Record Database := mkDatabase {
  collections_t : gmap bytes CollectionRow;
  path_records_t : gmap (bytes * bytes) PathRow;
  peer_hints_t : gmap EndpointId bytes;
  peer_health_t : gmap EndpointId bool;
  roster_t : gmap RosterHash bytes;
  logs_t : list LogRow;
  log_sequence : Z;
}.

#[global] Instance Database_eq_dec : EqDecision Database.
Proof. solve_decision. Defined.

Definition empty_database : Database := mkDatabase ∅ ∅ ∅ ∅ ∅ [] 0.

Definition set_collections (db : Database) t : Database :=
  mkDatabase t (path_records_t db) (peer_hints_t db) (peer_health_t db) (roster_t db) (logs_t db) (log_sequence db).
Definition set_path_records (db : Database) t : Database :=
  mkDatabase (collections_t db) t (peer_hints_t db) (peer_health_t db) (roster_t db) (logs_t db) (log_sequence db).
Definition set_peer_hints (db : Database) t : Database :=
  mkDatabase (collections_t db) (path_records_t db) t (peer_health_t db) (roster_t db) (logs_t db) (log_sequence db).
Definition set_peer_health (db : Database) t : Database :=
  mkDatabase (collections_t db) (path_records_t db) (peer_hints_t db) t (roster_t db) (logs_t db) (log_sequence db).
Definition set_roster (db : Database) t : Database :=
  mkDatabase (collections_t db) (path_records_t db) (peer_hints_t db) (peer_health_t db) t (logs_t db) (log_sequence db).
Definition set_logs (db : Database) t sequence : Database :=
  mkDatabase (collections_t db) (path_records_t db) (peer_hints_t db) (peer_health_t db) (roster_t db) t sequence.

(** ** The monad *)

Definition Db (A : Type) : Type := Database -> result A StateError * Database.

Definition dret {A} (a : A) : Db A := fun db => (Ok a, db).
Definition dfail {A} (e : StateError) : Db A := fun db => (Err e, db).
Definition dlift {A} (r : result A StateError) : Db A := fun db => (r, db).
Definition dbind {A B} (m : Db A) (f : A -> Db B) : Db B :=
  fun db =>
    match m db with
    | (Ok a, db) => f a db
    | (Err e, db) => (Err e, db)
    end.
Definition dget : Db Database := fun db => (Ok db, db).
Definition dput (db : Database) : Db unit := fun _ => (Ok tt, db).

Declare Scope db_scope.
Delimit Scope db_scope with db.
Notation "x <<- m ;; k" := (dbind m (fun x => k))
  (at level 100, m at next level, right associativity) : db_scope.
Open Scope db_scope.

(** [transaction_with_behavior] up to [commit]: a dropped transaction rolls back. *)
Definition transaction {A} (m : Db A) : Db A :=
  fun db =>
    match m db with
    | (Ok a, db') => (Ok a, db')
    | (Err e, _) => (Err e, db)
    end.

Lemma dbind_Ok {A B} (m : Db A) (f : A -> Db B) db b db' :
  dbind m f db = (Ok b, db') <-> exists a db1, m db = (Ok a, db1) /\ f a db1 = (Ok b, db').
Proof.
  unfold dbind. destruct (m db) as [[a|e] db1]; split.
  - eauto.
  - by intros (? & ? & [= -> ->] & ?).
  - done.
  - by intros (? & ? & [=] & _).
Qed.

Lemma transaction_Ok {A} (m : Db A) db a db' :
  transaction m db = (Ok a, db') <-> m db = (Ok a, db').
Proof. unfold transaction. destruct (m db) as [[b|e] db1]; naive_solver. Qed.

(** A failed transaction leaves the database as it was. *)
Lemma transaction_Err {A} (m : Db A) db e db' :
  transaction m db = (Err e, db') -> db' = db.
Proof. unfold transaction. destruct (m db) as [[b|e'] db1]; naive_solver. Qed.

(** [inv_db] takes apart a successful run. *)
Ltac inv_db_step :=
  match goal with
  | u : unit |- _ => destruct u
  | H : dbind _ _ _ = (Ok _, _) |- _ =>
      apply dbind_Ok in H; destruct H as (? & ? & ? & H)
  | H : dret _ _ = (Ok _, _) |- _ => unfold dret in H; simplify_eq
  | H : dfail _ _ = (Ok _, _) |- _ => discriminate H
  | H : dlift _ _ = (Ok _, _) |- _ => unfold dlift in H; injection H as H; try subst
  | H : dget _ = (Ok _, _) |- _ => unfold dget in H; simplify_eq
  | H : dput _ _ = (Ok _, _) |- _ => unfold dput in H; simplify_eq
  | H : transaction _ _ = (Ok _, _) |- _ => apply (proj1 (transaction_Ok _ _ _ _)) in H
  | H : (if ?b then _ else dfail _) _ = (Ok _, _) |- _ => destruct b eqn:?; [|discriminate H]
  | H : (if ?b then dfail _ else _) _ = (Ok _, _) |- _ => destruct b eqn:?; [discriminate H|]
  end.
Ltac inv_db := repeat inv_db_step.

(** ** Constraints of the schema *)

(** No column of a fingerprint is there. *)
Definition no_fingerprint (row : PathRow) : bool :=
  match row_modified_ns row, row_size row, row_content_hash row with None, None, None => true | _, _, _ => false end.

(** [CHECK] of path_records.  The kind is 0 for a tombstone and 1 for a file.  A
    row is refused when the condition is false; a comparison with NULL is not. *)
Definition path_row_check (row : PathRow) : bool :=
  (0 <? len (row_canonical row)) &&
  ((row_kind row =? 0) && no_fingerprint row
   || (row_kind row =? 1) && negb (row_materialized row) && no_fingerprint row
   || (row_kind row =? 1) && row_materialized row
      && match row_modified_ns row with Some _ => true | None => false end
      && match row_size row with Some size => 0 <=? size | None => true end
      && match row_content_hash row with Some hash => len hash =? 32 | None => true end).

(** [CHECK] of collections: the status texts are those of the enumerations. *)
Definition scan_statuses : list bytes :=
  [lit "pending"; lit "active"; lit "missing"; lit "not_directory"; lit "error"].
Definition watch_statuses : list bytes :=
  [lit "pending"; lit "active"; lit "root_unavailable"; lit "backend_error"].

Definition collection_row_check (name : bytes) (row : CollectionRow) : bool :=
  bool_decide (name <> []) && (0 <? len (col_local_path row)) &&
  bool_decide (col_scan_status row ∈ scan_statuses) &&
  bool_decide (col_watch_status row ∈ watch_statuses).

(** ** Statements *)

(** [INSERT INTO collections] *)
Definition insert_collection_row (name : bytes) (row : CollectionRow) : Db unit :=
  db <<- dget ;;
  if bool_decide (is_Some (collections_t db !! name)) || negb (collection_row_check name row)
  then dfail Sqlite
  else dput (set_collections db (<[name := row]> (collections_t db))).

(** [UPDATE collections SET .. WHERE name = ?1]: the number of rows updated. *)
Definition update_collection_row (name : bytes) (f : CollectionRow -> CollectionRow) : Db Z :=
  db <<- dget ;;
  match collections_t db !! name with
  | None => dret 0
  | Some row =>
      if negb (collection_row_check name (f row)) then dfail Sqlite
      else
        _ <<- dput (set_collections db (<[name := f row]> (collections_t db))) ;;
        dret 1
  end.

(** [DELETE FROM collections WHERE name = ?1], which cascades. *)
Definition delete_collection_row (name : bytes) : Db Z :=
  db <<- dget ;;
  match collections_t db !! name with
  | None => dret 0
  | Some _ =>
      _ <<- dput (set_path_records (set_collections db (delete name (collections_t db)))
                   (filter (fun x => x.1.1 <> name) (path_records_t db))) ;;
      dret 1
  end.

(** [INSERT .. ON CONFLICT(collection, path) DO UPDATE], with the foreign key. *)
Definition upsert_path_row (collection path : bytes) (row : PathRow) : Db unit :=
  db <<- dget ;;
  if bool_decide (collections_t db !! collection = None) || bool_decide (path = [])
     || negb (path_row_check row)
  then dfail Sqlite
  else dput (set_path_records db (<[(collection, path) := row]> (path_records_t db))).

(** [UPDATE path_records SET .. WHERE collection = ?1 AND path = ?2 AND kind = k]:
    the number of rows updated. *)
Definition update_path_row (collection path : bytes) (kind : Z) (f : PathRow -> PathRow) : Db Z :=
  db <<- dget ;;
  match path_records_t db !! (collection, path) with
  | None => dret 0
  | Some row =>
      if negb (row_kind row =? kind) then dret 0
      else if negb (path_row_check (f row)) then dfail Sqlite
      else
        _ <<- dput (set_path_records db (<[(collection, path) := f row]> (path_records_t db))) ;;
        dret 1
  end.

(** The columns of a file that has to be materialized again. *)
Definition clear_materialized (row : PathRow) : PathRow :=
  mkPathRow (row_record_hash row) (row_kind row) (row_canonical row) false None None None.

(** [UPDATE path_records SET materialized = 0, .. WHERE .. AND kind = 1] over the
    keys that satisfy a condition; the [CHECK] holds of every cleared file. *)
Definition clear_files (condition : bytes * bytes -> bool) : Db unit :=
  db <<- dget ;;
  dput (set_path_records db
    (map_imap (fun k row => Some (if condition k && (row_kind row =? 1) then clear_materialized row else row))
       (path_records_t db))).

(** [INSERT INTO operational_logs]: [AUTOINCREMENT] never reuses an identifier. *)
Definition MAX_OPERATIONAL_EVENT_BYTES : Z := 16 * 1024.

Definition insert_log_row (created_ns : Z) (payload : bytes) : Db unit :=
  db <<- dget ;;
  if (log_sequence db =? i64_max) || negb ((1 <=? len payload) && (len payload <=? 16384)) then dfail Sqlite
  else
    let id := log_sequence db + 1 in
    dput (set_logs db (logs_t db ++ [mkLogRow id created_ns payload]) id).

(** [DELETE .. WHERE id NOT IN (SELECT id .. ORDER BY id DESC LIMIT ?1)]: the
    log is kept in the order of its identifiers. *)
Definition prune_logs (max_logs : Z) : Db unit :=
  db <<- dget ;;
  dput (set_logs db (drop (length (logs_t db) - Z.to_nat max_logs) (logs_t db)) (log_sequence db)).

(** [INSERT INTO peer_hints .. ON CONFLICT DO UPDATE] *)
Definition upsert_peer_hint (endpoint_id : EndpointId) (hint : bytes) : Db unit :=
  db <<- dget ;;
  if (1 <=? len hint) && (len hint <=? 16384)
  then dput (set_peer_hints db (<[endpoint_id := hint]> (peer_hints_t db)))
  else dfail Sqlite.

(** [INSERT INTO roster_revisions]: the hash is the primary key, the bytes are
    unique. *)
Definition insert_roster_row (hash : RosterHash) (canonical : bytes) : Db unit :=
  db <<- dget ;;
  if bool_decide (is_Some (roster_t db !! hash)) || (len canonical =? 0)
     || existsb (fun x => bool_decide (x.2 = canonical)) (map_to_list (roster_t db))
  then dfail Sqlite
  else dput (set_roster db (<[hash := canonical]> (roster_t db))).
