(* ===== verification/Schema.v ===== *)
(** state.rs: opening the store, [StateStore::open] to [validate_current_schema]:
    which files of SQLite are recognized, and what a file is made into.

    The schema of a file is the list of the rows of [sqlite_schema], in the
    order of their creation; the rows of the six tables are those of
    Database.v.  SQLite's own indexes are not listed, its table
    [sqlite_sequence] is.  Faults of the disk and locks are not modelled. *)

From S2P Require Import Prelude Bytes Utf8 Cursor Canonical Path Identity Records Roster Database.

(** ** Files and connections *)

Inductive ObjectType := OTable | OIndex | OView | OTrigger.
#[global] Instance ObjectType_eq_dec : EqDecision ObjectType.
Proof. solve_decision. Defined.

Record SchemaObject := mkObject { ob_type : ObjectType; ob_name : bytes; ob_columns : list bytes }.
#[global] Instance SchemaObject_eq_dec : EqDecision SchemaObject.
Proof. solve_decision. Defined.

Record DbFile := mkFile {
  f_application_id : Z;
  f_user_version : Z;
  f_objects : list SchemaObject;
  f_rows : Database;
}.
#[global] Instance DbFile_eq_dec : EqDecision DbFile.
Proof. solve_decision. Defined.

(** A file that does not exist yet, and a database in memory. *)
Definition new_file : DbFile := mkFile 0 0 [] empty_database.

(** The file, and the two settings of the connection. *)
Record Connection := mkConn { cn_file : DbFile; cn_foreign_keys : bool; cn_busy_timeout : Z }.

Definition Sql (A : Type) : Type := Connection -> result A StateError * Connection.

#[global] Instance sql_ret : MRet Sql := fun A a c => (Ok a, c).
#[global] Instance sql_bind : MBind Sql :=
  fun A B f m c => match m c with (Ok a, c) => f a c | (Err e, c) => (Err e, c) end.
Definition sql_fail {A} (e : StateError) : Sql A := fun c => (Err e, c).
Definition sql_get : Sql DbFile := fun c => (Ok (cn_file c), c).
Definition sql_put (file : DbFile) : Sql unit := fun c => (Ok tt, mkConn file (cn_foreign_keys c) (cn_busy_timeout c)).

(** [transaction_with_behavior] up to [commit] or the drop that rolls back. *)
Definition sql_transaction {A} (m : Sql A) : Sql A :=
  fun c =>
    match m c with
    | (Ok a, c') => (Ok a, c')
    | (Err e, c') => (Err e, mkConn (cn_file c) (cn_foreign_keys c') (cn_busy_timeout c'))
    end.

(** ** Names in SQLite, compared without the case of ASCII letters *)

Definition ascii_lower (b : byte) : byte :=
  if (0x41 <=? byteZ b) && (byteZ b <=? 0x5a) then byte_of_Z (byteZ b + 0x20) else b.
Definition same_name (a b : bytes) : bool := bool_decide (map ascii_lower a = map ascii_lower b).

(** [name LIKE 'sqlite_%']: the underscore is any one character. *)
Definition like_sqlite (name : bytes) : bool :=
  same_name (take 6 name) (lit "sqlite") && (6 <? len name).

(** A table may not take the name of a table, a view or an index. *)
Definition takes_name (name : bytes) (object : SchemaObject) : bool :=
  negb (bool_decide (ob_type object = OTrigger)) && same_name name (ob_name object).

(** ** Statements *)

Inductive Statement :=
  | CreateTable (name : bytes) (columns : list bytes) (autoincrement : bool)
  | SetApplicationId (value : Z)
  | SetUserVersion (value : Z).

(** A table starts without rows. *)
Definition clear_rows (name : bytes) (rows : Database) : Database :=
  if bool_decide (name = lit "roster_revisions") then set_roster rows ∅
  else if bool_decide (name = lit "collections") then set_collections rows ∅
  else if bool_decide (name = lit "path_records") then set_path_records rows ∅
  else if bool_decide (name = lit "peer_hints") then set_peer_hints rows ∅
  else if bool_decide (name = lit "operational_logs") then set_logs rows [] 0
  else if bool_decide (name = lit "peer_health") then set_peer_health rows ∅
  else rows.

(** The first table with [AUTOINCREMENT] brings [sqlite_sequence]. *)
Definition sequence_table : SchemaObject := mkObject OTable (lit "sqlite_sequence") [lit "name"; lit "seq"].
Definition with_sequence (objects : list SchemaObject) : list SchemaObject :=
  if existsb (takes_name (ob_name sequence_table)) objects then objects else objects ++ [sequence_table].

Definition execute_statement (statement : Statement) : Sql unit :=
  file ← sql_get;
  match statement with
  | CreateTable name columns autoincrement =>
      if existsb (takes_name name) (f_objects file) then sql_fail Sqlite
      else
        let objects := f_objects file ++ [mkObject OTable name columns] in
        sql_put (mkFile (f_application_id file) (f_user_version file)
                   (if autoincrement then with_sequence objects else objects) (clear_rows name (f_rows file)))
  | SetApplicationId value => sql_put (mkFile value (f_user_version file) (f_objects file) (f_rows file))
  | SetUserVersion value => sql_put (mkFile (f_application_id file) value (f_objects file) (f_rows file))
  end.

(** [execute_batch] stops at the first error. *)
Fixpoint execute_batch (statements : list Statement) : Sql unit :=
  match statements with
  | [] => mret tt
  | statement :: statements => _ ← execute_statement statement; execute_batch statements
  end.

(** ** The schema *)

Definition SCHEMA_VERSION : Z := 1.
Definition SCHEMA_APPLICATION_ID : Z := 1397445465.

Definition SCHEMA_TABLES : list (bytes * list bytes) :=
  [(lit "collections",
    [lit "name"; lit "local_path"; lit "resolved_root"; lit "scan_status"; lit "watch_status"]);
   (lit "operational_logs", [lit "id"; lit "created_ns"; lit "payload"]);
   (lit "path_records",
    [lit "collection"; lit "path"; lit "record_hash"; lit "kind"; lit "canonical"; lit "materialized";
     lit "materialized_modified_ns"; lit "materialized_size"; lit "materialized_hash"]);
   (lit "peer_health", [lit "endpoint_id"; lit "reachable"]);
   (lit "peer_hints", [lit "endpoint_id"; lit "hint"]);
   (lit "roster_revisions", [lit "hash"; lit "canonical"])].

(** The batch of [migrate].  The constraints it declares are the guards of the
    statements of Database.v. *)
Definition migration : list Statement :=
  [CreateTable (lit "roster_revisions") [lit "hash"; lit "canonical"] false;
   CreateTable (lit "collections")
     [lit "name"; lit "local_path"; lit "resolved_root"; lit "scan_status"; lit "watch_status"] false;
   CreateTable (lit "path_records")
     [lit "collection"; lit "path"; lit "record_hash"; lit "kind"; lit "canonical"; lit "materialized";
      lit "materialized_modified_ns"; lit "materialized_size"; lit "materialized_hash"] false;
   CreateTable (lit "peer_hints") [lit "endpoint_id"; lit "hint"] false;
   CreateTable (lit "operational_logs") [lit "id"; lit "created_ns"; lit "payload"] true;
   CreateTable (lit "peer_health") [lit "endpoint_id"; lit "reachable"] false;
   SetApplicationId 1397445465;
   SetUserVersion 1].

Definition schema_version : Sql Z := file ← sql_get; mret (f_user_version file).

(** [SELECT name FROM sqlite_schema WHERE type = 'table' AND name NOT LIKE
    'sqlite_%' ORDER BY name] *)
Definition stored_tables (file : DbFile) : list bytes :=
  sort (map ob_name
    (List.filter (fun object => bool_decide (ob_type object = OTable) && negb (like_sqlite (ob_name object)))
       (f_objects file))).

(** [SELECT name FROM pragma_table_info(?1) ORDER BY cid]: of a table or a view. *)
Definition stored_columns (table : bytes) (file : DbFile) : list bytes :=
  match List.find (fun object => (bool_decide (ob_type object = OTable) || bool_decide (ob_type object = OView))
                                 && same_name table (ob_name object)) (f_objects file) with
  | Some object => ob_columns object
  | None => []
  end.

Fixpoint validate_columns (tables : list (bytes * list bytes)) : Sql unit :=
  match tables with
  | [] => mret tt
  | (table, expected_columns) :: tables =>
      file ← sql_get;
      if bool_decide (stored_columns table file <> expected_columns)
      then sql_fail (InvalidStoredState "database column shape is not recognized")
      else validate_columns tables
  end.

Definition validate_current_schema : Sql unit :=
  file ← sql_get;
  if bool_decide (f_application_id file <> SCHEMA_APPLICATION_ID)
  then sql_fail (InvalidStoredState "database schema identity is not recognized")
  else if bool_decide (stored_tables file <> map fst SCHEMA_TABLES)
  then sql_fail (InvalidStoredState "database table shape is not recognized")
  else validate_columns SCHEMA_TABLES.

Definition migrate : Sql unit :=
  version ← schema_version;
  if SCHEMA_VERSION <? version then sql_fail (UnsupportedSchema version)
  else
    _ ← (if version =? 0 then sql_transaction (execute_batch migration) else mret tt);
    validate_current_schema.

(** [pragma_update(None, "foreign_keys", true)] and [busy_timeout] *)
Definition BUSY_TIMEOUT : Z := 5 * 1000000000.
Definition configure_connection : Sql unit := fun c => (Ok tt, mkConn (cn_file c) true BUSY_TIMEOUT).

Definition from_connection : Sql unit := _ ← configure_connection; migrate.

(** [StateStore::open] on the file that [Connection::open] found or made: the
    result and the file that is left. *)
Definition open_file (file : DbFile) : result Connection StateError * DbFile :=
  let '(r, c) := from_connection (mkConn file false 0) in
  ((let? _ := r in Ok c), cn_file c).

Definition open_in_memory : result Connection StateError := (open_file new_file).1.
