(* ===== verification/SchemaProps.v ===== *)
(** Which files the store opens: the recognized ones, unchanged, and those of
    version 0 without tables, which it makes into an empty store. *)

From S2P Require Import Prelude Bytes Utf8 Cursor Canonical Path Identity Records Roster Database Schema.

(** ** Recognized files *)

(** What [validate_current_schema] asks for. *)
Record recognized (file : DbFile) : Prop := {
  rc_application_id : f_application_id file = SCHEMA_APPLICATION_ID;
  rc_tables : stored_tables file = map fst SCHEMA_TABLES;
  rc_columns : Forall (fun t => stored_columns t.1 file = t.2) SCHEMA_TABLES;
}.

Lemma sql_bind_Ok {A B} (m : Sql A) (f : A -> Sql B) c b c' :
  (m ≫= f) c = (Ok b, c') <-> exists a c1, m c = (Ok a, c1) /\ f a c1 = (Ok b, c').
Proof.
  unfold mbind, sql_bind. destruct (m c) as [[a|e] c1]; [|naive_solver].
  split; [eauto | by intros (? & ? & [= -> ->] & ?)].
Qed.

Lemma validate_columns_spec tables c :
  validate_columns tables c =
  (if bool_decide (Forall (fun t => stored_columns t.1 (cn_file c) = t.2) tables)
   then Ok tt else Err (InvalidStoredState "database column shape is not recognized"), c).
Proof.
  induction tables as [|[table columns] tables IH]; cbn [validate_columns]; [done|].
  unfold mbind, sql_bind, sql_get.
  destruct (decide (stored_columns table (cn_file c) = columns)) as [Hc|Hc].
  - rewrite (bool_decide_eq_false_2 (_ <> _)) by tauto. rewrite IH.
    repeat case_bool_decide; try done; rewrite Forall_cons in *; naive_solver.
  - rewrite (bool_decide_eq_true_2 (_ <> _)) by done.
    rewrite (bool_decide_eq_false_2 (Forall _ _)); [done|]. intros E%Forall_cons. by destruct E.
Qed.

Lemma schema_validated c c' :
  validate_current_schema c = (Ok tt, c') <-> recognized (cn_file c) /\ c' = c.
Proof.
  unfold validate_current_schema, mbind, sql_bind, sql_get. split.
  - do 2 (case_bool_decide as E'; [discriminate|revert E']).
    rewrite validate_columns_spec. case_bool_decide; [|discriminate]. intros Ht Hi [= <-]. by split.
  - intros [[Hi Ht Hc] ->]. rewrite !bool_decide_eq_false_2 by tauto.
    by rewrite validate_columns_spec, bool_decide_eq_true_2.
Qed.

Lemma validate_keeps c r c' : validate_current_schema c = (r, c') -> c' = c.
Proof.
  unfold validate_current_schema, mbind, sql_bind, sql_get.
  do 2 (case_bool_decide; [by intros [= _ <-]|]). rewrite validate_columns_spec. by intros [= _ <-].
Qed.

(** ** Creating tables *)

Definition table : Type := bytes * list bytes * bool.
Definition create (t : table) : Statement := CreateTable t.1.1 t.1.2 t.2.
Definition taken (name : bytes) (file : DbFile) : bool := existsb (takes_name name) (f_objects file).

Definition created (file : DbFile) (t : table) : DbFile :=
  let objects := f_objects file ++ [mkObject OTable t.1.1 t.1.2] in
  mkFile (f_application_id file) (f_user_version file)
    (if t.2 then with_sequence objects else objects) (clear_rows t.1.1 (f_rows file)).

Lemma create_step t c :
  execute_statement (create t) c =
  if taken t.1.1 (cn_file c) then (Err Sqlite, c)
  else (Ok tt, mkConn (created (cn_file c) t) (cn_foreign_keys c) (cn_busy_timeout c)).
Proof.
  unfold execute_statement, mbind, sql_bind, sql_get, create, taken.
  by destruct (existsb _ _).
Qed.

Lemma with_sequence_taken name objects :
  same_name name (ob_name sequence_table) = false ->
  existsb (takes_name name) (with_sequence objects) = existsb (takes_name name) objects.
Proof.
  intros Hs. unfold with_sequence. destruct (existsb _ objects) eqn:?; [done|].
  rewrite existsb_app. cbn [existsb]. unfold takes_name at 2. rewrite Hs.
  by rewrite andb_false_r, orb_false_r.
Qed.

Lemma taken_created name file t :
  same_name name (ob_name sequence_table) = false ->
  taken name (created file t) = taken name file || same_name name t.1.1.
Proof.
  intros Hs. unfold taken, created. cbn [f_objects].
  destruct t.2; rewrite ?with_sequence_taken by done; rewrite existsb_app; cbn [existsb];
    unfold takes_name at 2; by rewrite orb_false_r.
Qed.

(** Tables whose names differ from each other. *)
Fixpoint fresh_names (tables : list table) : bool :=
  match tables with
  | [] => true
  | t :: tables =>
      negb (same_name t.1.1 (ob_name sequence_table)) &&
      forallb (fun u => negb (same_name u.1.1 t.1.1)) tables && fresh_names tables
  end.

(** A batch creates all its tables, or fails on a name that is taken. *)
Lemma create_tables tables rest c :
  fresh_names tables = true ->
  let file := cn_file c in
  if existsb (fun t => taken t.1.1 file) tables
  then exists c', execute_batch (map create tables ++ rest) c = (Err Sqlite, c')
  else execute_batch (map create tables ++ rest) c
       = execute_batch rest (mkConn (foldl created file tables) (cn_foreign_keys c) (cn_busy_timeout c)).
Proof.
  revert c. induction tables as [|t tables IH]; intros c Hf; cbn -[taken create same_name].
  { by destruct c. }
  cbn -[same_name ob_name] in Hf. rewrite !andb_true_iff in Hf. destruct Hf as [[_ Hd] Hf].
  unfold mbind, sql_bind. rewrite create_step.
  destruct (taken t.1.1 (cn_file c)); cbn [orb]; [eauto|].
  assert (existsb (fun u => taken u.1.1 (cn_file c)) tables
          = existsb (fun u => taken u.1.1 (created (cn_file c) t)) tables) as ->;
    [clear IH|exact (IH (mkConn (created (cn_file c) t) (cn_foreign_keys c) (cn_busy_timeout c)) Hf)].
  induction tables as [|u tables IHt]; [done|].
  cbn -[same_name ob_name] in Hf, Hd. rewrite !andb_true_iff in Hf, Hd.
  destruct Hf as [[Hs%negb_true_iff _]%andb_true_iff Hf]. destruct Hd as [Hu%negb_true_iff Hd]. cbn [existsb].
  by rewrite taken_created, Hu, orb_false_r, IHt.
Qed.

(** ** The migration *)

Definition migration_tables : list table :=
  [(lit "roster_revisions", [lit "hash"; lit "canonical"], false);
   (lit "collections",
    [lit "name"; lit "local_path"; lit "resolved_root"; lit "scan_status"; lit "watch_status"], false);
   (lit "path_records",
    [lit "collection"; lit "path"; lit "record_hash"; lit "kind"; lit "canonical"; lit "materialized";
     lit "materialized_modified_ns"; lit "materialized_size"; lit "materialized_hash"], false);
   (lit "peer_hints", [lit "endpoint_id"; lit "hint"], false);
   (lit "operational_logs", [lit "id"; lit "created_ns"; lit "payload"], true);
   (lit "peer_health", [lit "endpoint_id"; lit "reachable"], false)].

(** A name of the schema is taken in the file. *)
Definition names_taken (file : DbFile) : bool := existsb (fun t => taken t.1.1 file) migration_tables.

(** What the migration makes of a file. *)
Definition migrated (file : DbFile) : DbFile :=
  mkFile SCHEMA_APPLICATION_ID SCHEMA_VERSION (f_objects (foldl created file migration_tables)) empty_database.

Lemma created_rows file : f_rows (foldl created file migration_tables) = empty_database.
Proof. by destruct file as [? ? ? []]. Qed.

Lemma migration_runs c :
  if names_taken (cn_file c) then exists c', execute_batch migration c = (Err Sqlite, c')
  else execute_batch migration c
       = (Ok tt, mkConn (migrated (cn_file c)) (cn_foreign_keys c) (cn_busy_timeout c)).
Proof.
  pose proof (create_tables migration_tables [SetApplicationId 1397445465; SetUserVersion 1] c
                ltac:(by vm_compute)) as H.
  cbn zeta in H. change (map create migration_tables ++ _) with migration in H.
  unfold names_taken. destruct (existsb _ _); [exact H|]. rewrite H. unfold migrated. by rewrite <-(created_rows (cn_file c)).
Qed.

(** The tables that are not SQLite's own. *)
Definition user_tables (objects : list SchemaObject) : list bytes :=
  map ob_name (List.filter (fun object => bool_decide (ob_type object = OTable) && negb (like_sqlite (ob_name object)))
                 objects).

Lemma user_tables_app l k : user_tables (l ++ k) = user_tables l ++ user_tables k.
Proof. unfold user_tables. by rewrite List.filter_app, map_app. Qed.

(** The migration adds the six tables, and [sqlite_sequence] where it is new. *)
Definition migration_objects (sequence : bool) : list SchemaObject :=
  let object (t : table) := mkObject OTable t.1.1 t.1.2 in
  map object (take 5 migration_tables) ++ (if sequence then [sequence_table] else [])
  ++ map object (drop 5 migration_tables).

Lemma migrated_objects file :
  exists sequence, f_objects (migrated file) = f_objects file ++ migration_objects sequence.
Proof.
  unfold migrated, migration_tables, created. cbn [foldl f_objects snd]. unfold with_sequence.
  destruct (existsb _ _); [exists false | exists true]; by rewrite <-!app_assoc.
Qed.

Lemma migrated_tables file :
  stored_tables (migrated file) = map fst SCHEMA_TABLES <-> stored_tables file = [].
Proof.
  unfold stored_tables. fold (user_tables (f_objects file)) (user_tables (f_objects (migrated file))).
  destruct (migrated_objects file) as [sequence ->]. rewrite user_tables_app.
  assert (user_tables (migration_objects sequence) = map (fun t => t.1.1) migration_tables) as ->
    by by destruct sequence; vm_compute.
  unfold sort. split.
  - intros E%(f_equal length). rewrite merge_sort_Permutation, length_app in E.
    destruct (user_tables (f_objects file)); [done|]. cbn [length map SCHEMA_TABLES migration_tables] in E. lia.
  - intros E. assert (user_tables (f_objects file) = []) as ->; [|by vm_compute].
    apply Permutation_nil. rewrite <-E. apply merge_sort_Permutation.
Qed.

Definition find_table (name : bytes) (objects : list SchemaObject) : option SchemaObject :=
  List.find (fun object => (bool_decide (ob_type object = OTable) || bool_decide (ob_type object = OView))
                           && same_name name (ob_name object)) objects.

Lemma find_table_app name l k :
  existsb (takes_name name) l = false -> find_table name (l ++ k) = find_table name k.
Proof.
  induction l as [|object l IH]; [done|]. cbn -[takes_name]. intros [Ho Hl]%orb_false_iff.
  unfold takes_name in Ho. destruct (same_name name (ob_name object)); [|rewrite andb_false_r; by apply IH].
  rewrite andb_true_r in Ho. apply negb_false_iff, bool_decide_eq_true in Ho. rewrite Ho. by apply IH.
Qed.

Definition columns_of (name : bytes) (objects : list SchemaObject) : list bytes :=
  match find_table name objects with Some object => ob_columns object | None => [] end.

Lemma migrated_column name file columns :
  taken name file = false -> (forall sequence, columns_of name (migration_objects sequence) = columns) ->
  stored_columns name (migrated file) = columns.
Proof.
  intros Hn Hc. destruct (migrated_objects file) as [sequence E].
  change (columns_of name (f_objects (migrated file)) = columns).
  rewrite E. unfold columns_of. rewrite find_table_app by exact Hn. apply Hc.
Qed.

Lemma migrated_columns file :
  names_taken file = false -> Forall (fun t => stored_columns t.1 (migrated file) = t.2) SCHEMA_TABLES.
Proof.
  intros Hn. cbn -[taken] in Hn. rewrite !orb_false_iff in Hn. destruct Hn as (? & ? & ? & ? & ? & ? & _).
  repeat apply Forall_cons_2; try apply Forall_nil_2; apply migrated_column; try done; intros []; by vm_compute.
Qed.

(** ** Opening *)

(** The connection that a file is opened with. *)
Definition connected (file : DbFile) : Connection := mkConn file true BUSY_TIMEOUT.

Definition validated (file : DbFile) : result Connection StateError :=
  let? _ := (validate_current_schema (connected file)).1 in Ok (connected file).

Lemma validated_Ok file c : validated file = Ok c <-> recognized file /\ c = connected file.
Proof.
  unfold validated. split.
  - destruct (validate_current_schema (connected file)) as [[[]|e] c'] eqn:E; [|done].
    apply schema_validated in E as [Hr ->]. by intros [= <-].
  - intros [Hr ->]. by rewrite (proj2 (schema_validated (connected file) (connected file))).
Qed.

(** The four ways of opening a file. *)
Lemma open_file_eq file :
  open_file file =
  if SCHEMA_VERSION <? f_user_version file then (Err (UnsupportedSchema (f_user_version file)), file)
  else if f_user_version file =? 0 then
    if names_taken file then (Err Sqlite, file) else (validated (migrated file), migrated file)
  else (validated file, file).
Proof.
  assert (forall g, (let '(r, c) := validate_current_schema (connected g) in ((let? _ := r in Ok c), cn_file c))
                    = (validated g, g)) as Hv.
  { intros g. unfold validated. destruct (validate_current_schema (connected g)) as [r c] eqn:E.
    by apply validate_keeps in E as ->. }
  pose proof (migration_runs (connected file)) as Hm.
  unfold open_file, from_connection, configure_connection, migrate, schema_version, sql_transaction, mbind, sql_bind,
    mret, sql_ret, sql_get. cbn [cn_file]. fold (connected file). change (cn_file (connected file)) with file in *.
  destruct (SCHEMA_VERSION <? f_user_version file); [done|].
  destruct (f_user_version file =? 0); [|apply Hv].
  destruct (names_taken file); [|rewrite Hm; apply Hv]. by destruct Hm as [c' ->].
Qed.

(** A recognized file of this version opens as it is. *)
Lemma open_recognized file :
  recognized file -> f_user_version file <> 0 -> f_user_version file <= SCHEMA_VERSION ->
  open_file file = (Ok (connected file), file).
Proof.
  intros Hr Hz Hv. rewrite open_file_eq, (proj2 (Z.ltb_ge _ _)) by done.
  rewrite (proj2 (Z.eqb_neq _ _)) by done. by rewrite (proj2 (validated_Ok file (connected file))).
Qed.

(** The migration leaves a recognized file exactly when no table was there. *)
Lemma migrated_recognized file :
  names_taken file = false -> recognized (migrated file) <-> stored_tables file = [].
Proof.
  intros Hn. rewrite <-migrated_tables. split; [by intros []|].
  intros Ht. split; [done | done | by apply migrated_columns].
Qed.

(** A file of version 0 is opened when it has no tables, and none of its views
    and indexes has the name of a table of the schema; what its application
    identifier was does not matter. *)
Lemma open_version_zero file :
  f_user_version file = 0 ->
  is_ok (open_file file).1 = true <-> names_taken file = false /\ stored_tables file = [].
Proof.
  intros Hv. rewrite open_file_eq, Hv. change (SCHEMA_VERSION <? 0) with false. cbn [Z.eqb].
  destruct (names_taken file) eqn:Hn; cbn [fst]; [split; [done | by intros [??]]|].
  rewrite <-(migrated_recognized file Hn). split.
  - destruct (validated (migrated file)) eqn:E; [|done]. apply validated_Ok in E as [? _]. done.
  - intros [_ Hr]. by rewrite (proj2 (validated_Ok (migrated file) (connected (migrated file)))).
Qed.

(** C19: Opening a store ends with a recognized file, of which the application
    identifier, the tables and their columns are those of the schema, with
    foreign keys enforced; opening it again changes nothing and succeeds.  The
    file is the one found, or an empty store made of a file of version 0
    without tables.  When opening fails the file is as it was found (after a
    migration that failed or for a version of the future in particular) unless
    it was of version 0 with tables of another program. *)
Theorem open_store file r file' :
  open_file file = (r, file') ->
  match r with
  | Ok c =>
      c = connected file' /\ recognized file' /\ open_file file' = (Ok c, file') /\
      (file' = file \/
       f_user_version file = 0 /\ stored_tables file = [] /\ file' = migrated file /\ f_rows file' = empty_database)
  | Err _ => file' = file \/ f_user_version file = 0 /\ stored_tables file <> [] /\ file' = migrated file
  end.
Proof.
  rewrite open_file_eq. destruct (Z.ltb_spec SCHEMA_VERSION (f_user_version file)); [intros [= <- <-]; by left|].
  destruct (Z.eqb_spec (f_user_version file) 0) as [Hz|Hz].
  - destruct (names_taken file) eqn:Hn; [intros [= <- <-]; by left|].
    destruct (validated (migrated file)) as [c|e] eqn:E; intros [= <- <-].
    + apply validated_Ok in E as [Hr ->]. rewrite (open_recognized (migrated file)) by done.
      apply (migrated_recognized file Hn) in Hr as Ht. naive_solver.
    + right. split; [done|]. split; [|done]. intros Ht%(migrated_recognized file Hn).
      by rewrite (proj2 (validated_Ok _ (connected (migrated file)))) in E.
  - destruct (validated file) as [c|e] eqn:E; intros [= <- <-]; [|by left].
    apply validated_Ok in E as [Hr ->]. rewrite open_recognized by done. naive_solver.
Qed.

Lemma open_store_witness :
  exists c, open_file new_file = (Ok c, migrated new_file) /\ recognized (migrated new_file)
            /\ f_rows (migrated new_file) = empty_database.
Proof.
  exists (connected (migrated new_file)).
  assert (open_file new_file = (Ok (connected (migrated new_file)), migrated new_file)) as E by (vm_compute; reflexivity).
  pose proof (open_store new_file _ _ E) as (_ & Hr & _). exact (conj E (conj Hr eq_refl)).
Defined.

(** ** What version 0 lets through *)

(** A file of another program: an application identifier and a table. *)
Definition foreign_file : DbFile := mkFile 7 0 [mkObject OTable (lit "notes") [lit "body"]] empty_database.

(** It is refused for its tables, after it has been made version 1 of this
    schema. *)
Example foreign_file_claimed :
  let '(r, file) := open_file foreign_file in
  r = Err (InvalidStoredState "database table shape is not recognized") /\
  f_application_id file = SCHEMA_APPLICATION_ID /\ f_user_version file = 1 /\
  lit "notes" ∈ stored_tables file /\ lit "collections" ∈ stored_tables file.
Proof. vm_compute. repeat split; apply list_elem_of_In; cbn; tauto. Qed.

(** Without a table, a file of another application is opened. *)
Example foreign_application_adopted :
  is_ok (open_file (mkFile 7 0 [mkObject OTrigger (lit "collections") []] empty_database)).1 = true.
Proof. by vm_compute. Qed.

(** A version below 0 is not refused. *)
Example negative_version_opens :
  is_ok (open_file (mkFile SCHEMA_APPLICATION_ID (-1) (f_objects (migrated new_file)) empty_database)).1 = true.
Proof. by vm_compute. Qed.
