(* ===== verification/State.v ===== *)
(** state.rs: the store of collections, path records, logs and peers, as
    operations on the tables of Database.v.  Its roster operations are in
    RosterStore.v. *)

From S2P Require Import Prelude Bytes Utf8 Cursor Canonical Path Identity Concrete Records Roster Database.

(** ** Data *)

Inductive CollectionScanStatus := ScanPending | ScanActive | ScanMissing | ScanNotDirectory | ScanError.
Inductive CollectionWatchStatus := WatchPending | WatchActive | WatchRootUnavailable | WatchBackendError.

#[global] Instance CollectionScanStatus_eq_dec : EqDecision CollectionScanStatus.
Proof. solve_decision. Defined.
#[global] Instance CollectionWatchStatus_eq_dec : EqDecision CollectionWatchStatus.
Proof. solve_decision. Defined.

Definition scan_status_as_str (s : CollectionScanStatus) : bytes :=
  match s with
  | ScanPending => lit "pending"
  | ScanActive => lit "active"
  | ScanMissing => lit "missing"
  | ScanNotDirectory => lit "not_directory"
  | ScanError => lit "error"
  end.

Definition scan_status_from_str (value : bytes) : result CollectionScanStatus StateError :=
  if bool_decide (value = lit "pending") then Ok ScanPending
  else if bool_decide (value = lit "active") then Ok ScanActive
  else if bool_decide (value = lit "missing") then Ok ScanMissing
  else if bool_decide (value = lit "not_directory") then Ok ScanNotDirectory
  else if bool_decide (value = lit "error") then Ok ScanError
  else Err (InvalidStoredState "collection scan status is unknown").

Definition watch_status_as_str (s : CollectionWatchStatus) : bytes :=
  match s with
  | WatchPending => lit "pending"
  | WatchActive => lit "active"
  | WatchRootUnavailable => lit "root_unavailable"
  | WatchBackendError => lit "backend_error"
  end.

Definition watch_status_from_str (value : bytes) : result CollectionWatchStatus StateError :=
  if bool_decide (value = lit "pending") then Ok WatchPending
  else if bool_decide (value = lit "active") then Ok WatchActive
  else if bool_decide (value = lit "root_unavailable") then Ok WatchRootUnavailable
  else if bool_decide (value = lit "backend_error") then Ok WatchBackendError
  else Err (InvalidStoredState "collection watch status is unknown").

Record CollectionState := mkCollectionState {
  cs_name : bytes;
  cs_local_path : bytes;
  cs_resolved_root : option bytes;
  cs_scan_status : CollectionScanStatus;
  cs_watch_status : CollectionWatchStatus;
}.

Record FileFingerprint := mkFingerprint {
  fp_modified_ns : Z;
  fp_size : Z;
  fp_hash : array 32;
}.

Record MaterializedFile := mkMaterialized {
  mat_resolved_root : bytes;
  mat_fingerprint : FileFingerprint;
}.

Record PathRecordState := mkPathRecordState {
  prs_record : record;
  prs_materialized : bool;
  prs_fingerprint : option FileFingerprint;
}.

Inductive LogLevel := Debug | Info | Warn.

Inductive CollectionIssue := SymlinkEscape | SymlinkCycle | PathRejected | TimestampRejected.

Inductive OperationalEvent :=
  | DaemonStarted
  | DaemonStopped
  | CollectionAttached (collection : bytes)
  | CollectionDetached (collection : bytes)
  | CollectionPaused (collection : bytes)
  | CollectionScanned (collection : bytes)
  | CollectionWarning (collection : bytes) (path : option ProtocolPath) (issue : CollectionIssue)
  | RecordAccepted (collection : bytes) (path : ProtocolPath) (source_peer : option EndpointId)
  | RecordRejected (collection : bytes) (path : ProtocolPath) (source_peer : option EndpointId)
      (candidate_modified_ns : Z) (candidate_author : EndpointId)
      (winner_modified_ns : Z) (winner_author : EndpointId)
  | FileInstalled (collection : bytes) (path : ProtocolPath)
  | FileApplyRejected (collection : bytes) (path : ProtocolPath)
  | RepairRequired (collection : bytes) (path : ProtocolPath)
  | PeerUnreachable (peer_endpoint : EndpointId)
  | PeerAttempted (peer_endpoint : EndpointId)
  | PeerSynchronized (peer_endpoint : EndpointId)
  | PeerRejected (peer_endpoint : EndpointId)
  | PeerSessionFailed (peer_endpoint : EndpointId)
  | FileSent (collection : bytes) (path : ProtocolPath) (peer_endpoint : EndpointId)
  | FileReceived (collection : bytes) (path : ProtocolPath) (peer_endpoint : EndpointId)
  | TransferRejected (collection : bytes) (path : ProtocolPath) (peer_endpoint : EndpointId).

#[global] Instance CollectionState_eq_dec : EqDecision CollectionState.
Proof. solve_decision. Defined.
#[global] Instance FileFingerprint_eq_dec : EqDecision FileFingerprint.
Proof. solve_decision. Defined.
#[global] Instance PathRecordState_eq_dec : EqDecision PathRecordState.
Proof. solve_decision. Defined.
#[global] Instance CollectionIssue_eq_dec : EqDecision CollectionIssue.
Proof. solve_decision. Defined.
#[global] Instance OperationalEvent_eq_dec : EqDecision OperationalEvent.
Proof. solve_decision. Defined.

Definition level (event : OperationalEvent) : LogLevel :=
  match event with
  | CollectionScanned _ => Debug
  | DaemonStarted | DaemonStopped | CollectionAttached _ | CollectionDetached _
  | RecordAccepted _ _ _ | FileInstalled _ _ | PeerAttempted _ | PeerSynchronized _
  | FileSent _ _ _ | FileReceived _ _ _ => Info
  | CollectionPaused _ | CollectionWarning _ _ _ | RecordRejected _ _ _ _ _ _ _
  | FileApplyRejected _ _ | RepairRequired _ _ | PeerUnreachable _ | PeerRejected _
  | PeerSessionFailed _ | TransferRejected _ _ _ => Warn
  end.

Record OperationalLog := mkOperationalLog { ol_id : Z; ol_created_ns : Z; ol_event : OperationalEvent }.
Record OperationalLogPage := mkLogPage {
  page_logs : list OperationalLog;
  page_next_after_id : Z;
  page_has_more : bool;
}.

(** [serde_json::to_vec] and [from_slice] on events. *)
Class EventJson := {
  event_to_json : OperationalEvent -> option bytes;
  event_from_json : bytes -> option OperationalEvent;
}.

(** The derived serializer and deserializer are inverse on events. *)
Class EventJsonLaws `{EventJson} : Prop := {
  event_json_roundtrip event payload :
    event_to_json event = Some payload -> event_from_json payload = Some event;
}.

(** ** Events and logs *)

Definition event_scope (event : OperationalEvent) : option bytes * option ProtocolPath :=
  match event with
  | DaemonStarted | DaemonStopped | PeerUnreachable _ | PeerAttempted _ | PeerSynchronized _
  | PeerRejected _ | PeerSessionFailed _ => (None, None)
  | CollectionAttached collection | CollectionDetached collection
  | CollectionPaused collection | CollectionScanned collection => (Some collection, None)
  | CollectionWarning collection path _ => (Some collection, path)
  | RecordAccepted collection path _
  | RecordRejected collection path _ _ _ _ _
  | FileInstalled collection path
  | FileApplyRejected collection path
  | RepairRequired collection path
  | FileSent collection path _
  | FileReceived collection path _
  | TransferRejected collection path _ => (Some collection, Some path)
  end.

Definition validate_operational_event (event : OperationalEvent) : result unit StateError :=
  let '(collection, path) := event_scope event in
  if match collection with
     | Some value => bool_decide (value = []) || (255 <? len value)
     | None => false
     end
  then Err (InvalidStoredState "operational event collection has an invalid size")
  else if match path with Some value => 4096 <? len (path_str value) | None => false end
  then Err (InvalidStoredState "operational event path exceeds its size limit")
  else Ok tt.

Section store.
Context `{Crypto, EventJson}.

Definition insert_log (created_ns : Z) (event : OperationalEvent) (max_logs : Z) : Db unit :=
  _ <<- dlift (validate_operational_event event) ;;
  payload <<- dlift (ok_or (event_to_json event)
                       (InvalidStoredState "operational event cannot be encoded")) ;;
  if MAX_OPERATIONAL_EVENT_BYTES <? len payload
  then dfail (InvalidStoredState "operational event exceeds its encoded size limit")
  else
    _ <<- insert_log_row created_ns payload ;;
    max_logs <<- dlift (ok_or (i64_try_from max_logs) NumberOverflow) ;;
    prune_logs max_logs.

Definition append_log (created_ns : Z) (event : OperationalEvent) (max_logs : Z) : Db unit :=
  transaction (insert_log created_ns event max_logs).

Definition decode_operational_event (payload : bytes) : result OperationalEvent StateError :=
  if bool_decide (payload = []) || (MAX_OPERATIONAL_EVENT_BYTES <? len payload)
  then Err (InvalidStoredState "operational event payload has an invalid size")
  else
    let? event := ok_or (event_from_json payload) (InvalidStoredState "operational event payload is invalid") in
    let? _ := validate_operational_event event in
    let? canonical := ok_or (event_to_json event) (InvalidStoredState "operational event payload is invalid") in
    if bool_decide (canonical <> payload)
    then Err (InvalidStoredState "operational event payload is invalid")
    else Ok event.

(** The [CASE] of the queries selects payloads of a valid size. *)
Definition select_payload (payload : bytes) : option bytes :=
  if (1 <=? len payload) && (len payload <=? 16384) then Some payload else None.

Definition decode_operational_log_row (row : LogRow) : result OperationalLog StateError :=
  let? payload := ok_or (select_payload (log_payload row))
                    (InvalidStoredState "operational event payload has invalid storage") in
  let? event := decode_operational_event payload in
  Ok (mkOperationalLog (log_id row) (log_created_ns row) event).

Fixpoint decode_log_rows (rows : list LogRow) : result (list OperationalLog) StateError :=
  match rows with
  | [] => Ok []
  | row :: rows =>
      let? log := decode_operational_log_row row in
      let? logs := decode_log_rows rows in
      Ok (log :: logs)
  end.

Definition logs : Db (list OperationalLog) :=
  db <<- dget ;; dlift (decode_log_rows (logs_t db)).

Definition logs_page (after_id limit : Z) : Db OperationalLogPage :=
  let limit := Z.max 1 (Z.min 64 limit) in
  query_limit <<- dlift (ok_or (i64_try_from (limit + 1)) NumberOverflow) ;;
  db <<- dget ;;
  let rows := take (Z.to_nat query_limit) (List.filter (fun row => after_id <? log_id row) (logs_t db)) in
  logs <<- dlift (decode_log_rows rows) ;;
  let has_more := limit <? len logs in
  let logs := take (Z.to_nat limit) logs in
  let next_after_id := match last logs with Some log => ol_id log | None => after_id end in
  dret (mkLogPage logs next_after_id has_more).

(** ** Collections *)

Definition add_collection (name local_path : bytes) (resolved_root : option bytes) : Db unit :=
  insert_collection_row name (mkCollectionRow local_path resolved_root (lit "pending") (lit "pending")).

Definition replace_collection_path (name local_path : bytes) : Db unit :=
  transaction (
    _ <<- update_collection_row name (fun _ =>
            mkCollectionRow local_path None (lit "pending") (lit "pending")) ;;
    clear_files (fun k => bool_decide (k.1 = name))).

Definition query_resolved_root (name : bytes) : Db (option bytes) :=
  db <<- dget ;;
  dlift (ok_or (option_map col_resolved_root (collections_t db !! name)) MissingCollection).

Definition complete_collection_scan (name local_path resolved_root : bytes) : Db bool :=
  transaction (
    previous <<- query_resolved_root name ;;
    let changed := bool_decide (previous <> Some resolved_root) in
    _ <<- update_collection_row name (fun row =>
            mkCollectionRow local_path (Some resolved_root) (lit "active") (col_watch_status row)) ;;
    _ <<- (if changed then clear_files (fun k => bool_decide (k.1 = name)) else dret tt) ;;
    dret changed).

Definition set_collection_scan_status (name : bytes) (status : CollectionScanStatus) : Db unit :=
  _ <<- update_collection_row name (fun row =>
          mkCollectionRow (col_local_path row) (col_resolved_root row) (scan_status_as_str status)
            (col_watch_status row)) ;;
  dret tt.

Definition set_collection_watch_status (name : bytes) (status : CollectionWatchStatus) : Db unit :=
  _ <<- update_collection_row name (fun row =>
          mkCollectionRow (col_local_path row) (col_resolved_root row) (col_scan_status row)
            (watch_status_as_str status)) ;;
  dret tt.

Definition remove_collection (name : bytes) : Db bool :=
  n <<- delete_collection_row name ;; dret (negb (n =? 0)).

Definition decode_collection (name : bytes) (row : CollectionRow) : result CollectionState StateError :=
  let? scan := scan_status_from_str (col_scan_status row) in
  let? watch := watch_status_from_str (col_watch_status row) in
  Ok (mkCollectionState name (col_local_path row) (col_resolved_root row) scan watch).

Fixpoint decode_collections (rows : list (bytes * CollectionRow)) : result (list CollectionState) StateError :=
  match rows with
  | [] => Ok []
  | (name, row) :: rows =>
      let? c := decode_collection name row in
      let? cs := decode_collections rows in
      Ok (c :: cs)
  end.

Definition collections : Db (list CollectionState) :=
  db <<- dget ;; dlift (decode_collections (items (collections_t db))).

Definition collection (name : bytes) : Db (option CollectionState) :=
  db <<- dget ;;
  match collections_t db !! name with
  | None => dret None
  | Some row => dlift (let? c := decode_collection name row in Ok (Some c))
  end.

(** ** Path records *)

Definition decode_stored_record (hash : array 32) (canonical : bytes) : result record StateError :=
  let? r := map_err StateRecord (record_from_canonical canonical) in
  if bool_decide (hash <> rhash (record_canonical_hash r))
  then Err (InvalidStoredState "record hash does not match canonical bytes")
  else Ok r.

Definition decode_indexed_record (hash : array 32) (canonical collection path : bytes)
    : result record StateError :=
  let? r := decode_stored_record hash canonical in
  if bool_decide (rec_collection r <> collection) || bool_decide (path_str (rec_path r) <> path)
  then Err (InvalidStoredState "record index does not match canonical bytes")
  else Ok r.

Definition load_record (collection path : bytes) : Db (option record) :=
  db <<- dget ;;
  match path_records_t db !! (collection, path) with
  | None => dret None
  | Some row =>
      dlift (let? r := decode_indexed_record (row_record_hash row) (row_canonical row) collection path in
             Ok (Some r))
  end.

(** The public query of one record reads the same row. *)
Definition query_record (collection path : bytes) : Db (option record) := load_record collection path.

Definition decode_materialized_fingerprint (modified_ns size : option Z) (hash : option bytes)
    : result (option FileFingerprint) StateError :=
  match modified_ns, size, hash with
  | None, None, None => Ok None
  | Some modified_ns, Some size, Some hash =>
      let? size := ok_or (u64_try_from size) (InvalidStoredState "materialized file size is negative") in
      let? hash := ok_or (to_array 32 hash)
                     (InvalidStoredState "materialized file hash has the wrong length") in
      Ok (Some (mkFingerprint modified_ns size hash))
  | _, _, _ => Err (InvalidStoredState "materialized fingerprint is incomplete")
  end.

Definition decode_path_record_state (row : PathRow) (collection path : bytes)
    : result PathRecordState StateError :=
  let? r := decode_indexed_record (row_record_hash row) (row_canonical row) collection path in
  let? fingerprint := decode_materialized_fingerprint (row_modified_ns row) (row_size row) (row_content_hash row) in
  Ok (mkPathRecordState r (row_materialized row) fingerprint).

(** [WHERE collection = ?1 ORDER BY path] *)
Definition select_rows (db : Database) (collection : bytes) : list ((bytes * bytes) * PathRow) :=
  List.filter (fun x => bool_decide (x.1.1 = collection)) (items (path_records_t db)).

Fixpoint decode_records (rows : list ((bytes * bytes) * PathRow)) (collection : bytes)
    : result (list record) StateError :=
  match rows with
  | [] => Ok []
  | ((_, path), row) :: rows =>
      let? r := decode_indexed_record (row_record_hash row) (row_canonical row) collection path in
      let? rs := decode_records rows collection in
      Ok (r :: rs)
  end.

Definition records (collection : bytes) : Db (list record) :=
  db <<- dget ;; dlift (decode_records (select_rows db collection) collection).

Fixpoint decode_states (rows : list ((bytes * bytes) * PathRow)) (collection : bytes)
    : result (list PathRecordState) StateError :=
  match rows with
  | [] => Ok []
  | ((_, path), row) :: rows =>
      let? r := decode_path_record_state row collection path in
      let? rs := decode_states rows collection in
      Ok (r :: rs)
  end.

Definition record_states (collection : bytes) : Db (list PathRecordState) :=
  db <<- dget ;; dlift (decode_states (select_rows db collection) collection).

Definition record_state (collection path : bytes) : Db (option PathRecordState) :=
  db <<- dget ;;
  match path_records_t db !! (collection, path) with
  | None => dret None
  | Some row => dlift (let? s := decode_path_record_state row collection path in Ok (Some s))
  end.

Definition kind_code (kind : RecordKind) : Z := match kind with Tombstone => 0 | File _ _ => 1 end.

(** The fingerprint of a record that this device has just scanned. *)
Definition own_fingerprint (r : record) (materialized : bool) : option FileFingerprint :=
  if materialized then
    match rec_kind r with
    | Tombstone => None
    | File size content_hash => Some (mkFingerprint (rec_modified_ns r) size content_hash)
    end
  else None.

Definition upsert_record (r : record) (materialized : bool) : Db unit :=
  let fingerprint := own_fingerprint r materialized in
  size <<- dlift (match fingerprint with
                  | None => Ok None
                  | Some f => let? n := ok_or (i64_try_from (fp_size f)) NumberOverflow in Ok (Some n)
                  end) ;;
  upsert_path_row (rec_collection r) (path_str (rec_path r))
    (mkPathRow (rhash (record_canonical_hash r)) (kind_code (rec_kind r)) (record_canonical_bytes r)
       materialized (option_map fp_modified_ns fingerprint) size
       (option_map (fun f => arr (fp_hash f)) fingerprint)).

Definition accepts (r : record) (current : option record) : bool :=
  match current with
  | None => true
  | Some current => match compare_winner r current with Gt => true | _ => false end
  end.

Definition merge_event (r : record) (source_peer : option EndpointId) (current : option record)
    (accepted : bool) : OperationalEvent :=
  match current with
  | Some winner =>
      if accepted then RecordAccepted (rec_collection r) (rec_path r) source_peer
      else RecordRejected (rec_collection r) (rec_path r) source_peer (rec_modified_ns r) (rec_author r)
             (rec_modified_ns winner) (rec_author winner)
  | None => RecordAccepted (rec_collection r) (rec_path r) source_peer
  end.

Definition merge_record (r : record) (observed_ns : Z) (source_peer : option EndpointId) (max_logs : Z)
    : Db bool :=
  transaction (
    current <<- load_record (rec_collection r) (path_str (rec_path r)) ;;
    let accepted := accepts r current in
    _ <<- (if accepted then upsert_record r (bool_decide (source_peer = None)) else dret tt) ;;
    _ <<- insert_log observed_ns (merge_event r source_peer current accepted) max_logs ;;
    dret accepted).

Definition mark_repair_required_and_log (collection path : bytes) (created_ns : Z)
    (event : OperationalEvent) (max_logs : Z) : Db unit :=
  transaction (
    updated <<- update_path_row collection path 1 clear_materialized ;;
    if negb (updated =? 1) then dfail MissingPathRecord
    else insert_log created_ns event max_logs).

Definition set_fingerprint (fingerprint : FileFingerprint) (size : Z) (row : PathRow) : PathRow :=
  mkPathRow (row_record_hash row) (row_kind row) (row_canonical row) true
    (Some (fp_modified_ns fingerprint)) (Some size) (Some (arr (fp_hash fingerprint))).

Definition update_materialized_fingerprint (collection path : bytes) (fingerprint : FileFingerprint) : Db unit :=
  size <<- dlift (ok_or (i64_try_from (fp_size fingerprint)) NumberOverflow) ;;
  updated <<- update_path_row collection path 1 (set_fingerprint fingerprint size) ;;
  if negb (updated =? 1) then dfail MissingPathRecord else dret tt.

Definition set_materialized_fingerprint (collection path : bytes) (fingerprint : FileFingerprint) : Db unit :=
  transaction (update_materialized_fingerprint collection path fingerprint).

Definition mark_materialized_and_log (collection path : bytes) (materialized : MaterializedFile)
    (created_ns : Z) (event : OperationalEvent) (max_logs : Z) : Db unit :=
  transaction (
    previous_root <<- query_resolved_root collection ;;
    _ <<- (if bool_decide (previous_root <> Some (mat_resolved_root materialized)) then
             _ <<- update_collection_row collection (fun row =>
                     mkCollectionRow (col_local_path row) (Some (mat_resolved_root materialized))
                       (col_scan_status row) (col_watch_status row)) ;;
             clear_files (fun k => bool_decide (k.1 = collection) && bool_decide (k.2 <> path))
           else dret tt) ;;
    _ <<- update_materialized_fingerprint collection path (mat_fingerprint materialized) ;;
    insert_log created_ns event max_logs).

Definition set_materialized (row : PathRow) : PathRow :=
  mkPathRow (row_record_hash row) (row_kind row) (row_canonical row) true (row_modified_ns row)
    (row_size row) (row_content_hash row).

Definition mark_tombstone_materialized_and_log (collection path : bytes) (created_ns : Z)
    (event : OperationalEvent) (max_logs : Z) : Db unit :=
  transaction (
    updated <<- update_path_row collection path 0 set_materialized ;;
    if negb (updated =? 1) then dfail MissingPathRecord
    else insert_log created_ns event max_logs).

Definition local_counts : Db (Z * Z) :=
  db <<- dget ;;
  let rows := map snd (map_to_list (path_records_t db)) in
  files <<- dlift (ok_or (u64_try_from
    (len (List.filter (fun row => (row_kind row =? 1) && row_materialized row) rows))) NumberOverflow) ;;
  degraded <<- dlift (ok_or (u64_try_from
    (len (List.filter (fun row => negb (row_materialized row)) rows))) NumberOverflow) ;;
  dret (files, degraded).

(** ** Peers *)

Definition MAX_PEER_HINT_BYTES : Z := 16 * 1024.

Definition validate_peer_hint (hint : bytes) : result unit StateError :=
  if bool_decide (hint = []) || (MAX_PEER_HINT_BYTES <? len hint) then Err PeerHintLimit else Ok tt.

Definition replace_peer_hint_in (endpoint_id : EndpointId) (hint : bytes) : Db unit :=
  upsert_peer_hint endpoint_id hint.

Definition replace_peer_hint (endpoint_id : EndpointId) (hint : bytes) : Db unit :=
  _ <<- dlift (validate_peer_hint hint) ;;
  transaction (replace_peer_hint_in endpoint_id hint).

(** The query filters by the length the [CHECK] guarantees. *)
Definition peer_hint (endpoint_id : EndpointId) : Db (option bytes) :=
  db <<- dget ;;
  dret (match peer_hints_t db !! endpoint_id with
        | Some hint => if (1 <=? len hint) && (len hint <=? 16384) then Some hint else None
        | None => None
        end).

Definition record_peer_health (endpoint_id : EndpointId) (reachable : bool) (observed_ns : Z)
    (event : OperationalEvent) (max_logs : Z) : Db unit :=
  transaction (
    db <<- dget ;;
    _ <<- dput (set_peer_health db (<[endpoint_id := reachable]> (peer_health_t db))) ;;
    insert_log observed_ns event max_logs).

Definition peer_reachable (endpoint_id : EndpointId) : Db bool :=
  db <<- dget ;; dret (default false (peer_health_t db !! endpoint_id)).
End store.
