(* ===== verification/StateLaws.v ===== *)
(** Invariants and functional behaviour of the store: the constraints every
    operation keeps, the refinement of the last-writer-wins map, rollback, and
    the log. *)

From S2P Require Import Prelude Bytes Utf8 Cursor Canonical Path Identity Concrete Records Winners Roster.
From S2P Require Import Database State.

Section laws.
Context `{Crypto, EventJson}.

(** ** The invariant *)

(** A row of path_records holds a well-formed record under its own key. *)
Definition holds_record (k : bytes * bytes) (row : PathRow) (r : record) : Prop :=
  record_wf r /\ index_of r = k /\ row_record_hash row = rhash (record_canonical_hash r) /\
  row_canonical row = record_canonical_bytes r /\ row_kind row = kind_code (rec_kind r).

(** The size is a 64-bit signed integer, and a fingerprint has all its columns,
    which the [CHECK] does not see to. *)
Definition columns_ok (row : PathRow) : Prop :=
  match row_size row with Some size => in_i64 size = true | None => row_modified_ns row = None end /\
  (is_Some (row_modified_ns row) -> is_Some (row_content_hash row)).

Definition row_ok (k : bytes * bytes) (row : PathRow) : Prop :=
  (exists r, holds_record k row r) /\ path_row_check row = true /\ columns_ok row.

Definition payload_ok (payload : bytes) : Prop :=
  1 <= len payload <= 16384 /\
  exists event, validate_operational_event event = Ok tt /\ event_to_json event = Some payload.

Definition logs_ok (rows : list LogRow) (sequence : Z) : Prop :=
  0 <= sequence <= i64_max /\ StronglySorted Z.lt (map log_id rows) /\
  Forall (fun row => 0 < log_id row <= sequence /\ payload_ok (log_payload row)) rows.

Definition hint_ok (hint : bytes) : Prop := 1 <= len hint <= 16384.

Definition attached (db : Database) (c : bytes) : Prop := is_Some (collections_t db !! c).
#[global] Instance attached_dec db c : Decision (attached db c).
Proof. unfold attached. apply _. Defined.

Record db_wf (db : Database) : Prop := mkDbWf {
  wf_rows : map_Forall row_ok (path_records_t db);
  wf_foreign : forall k row, path_records_t db !! k = Some row -> is_Some (collections_t db !! k.1);
  wf_collections : map_Forall (fun name row => collection_row_check name row = true) (collections_t db);
  wf_logs : logs_ok (logs_t db) (log_sequence db);
  wf_hints : map_Forall (fun _ => hint_ok) (peer_hints_t db);
}.

Lemma empty_database_wf : db_wf empty_database.
Proof.
  split; simpl.
  - apply map_Forall_empty.
  - intros k row. by rewrite lookup_empty.
  - apply map_Forall_empty.
  - split; [done|]. split; constructor.
  - apply map_Forall_empty.
Qed.

(** [m] keeps the invariant, whether it succeeds or fails. *)
Definition preserves {A} (m : Db A) : Prop :=
  forall db r db', db_wf db -> m db = (r, db') -> db_wf db'.

Lemma preserves_ret {A} (a : A) : preserves (dret a).
Proof. intros db r db' Hw [= _ <-]. done. Qed.
Lemma preserves_fail {A} e : preserves (dfail (A := A) e).
Proof. intros db r db' Hw [= _ <-]. done. Qed.
Lemma preserves_lift {A} (r : result A StateError) : preserves (dlift r).
Proof. intros db r' db' Hw [= _ <-]. done. Qed.
Lemma preserves_get : preserves dget.
Proof. intros db r db' Hw [= _ <-]. done. Qed.

Lemma preserves_bind {A B} (m : Db A) (f : A -> Db B) :
  preserves m -> (forall a, preserves (f a)) -> preserves (dbind m f).
Proof.
  intros Hm Hf db r db' Hw E. unfold dbind in E. destruct (m db) as [[a|e] db1] eqn:Em.
  - eapply Hf; [eapply Hm; eauto | exact E].
  - simplify_eq. by eapply Hm.
Qed.

Lemma preserves_lift_bind {A B} (r : result A StateError) (f : A -> Db B) :
  (forall a, r = Ok a -> preserves (f a)) -> preserves (dbind (dlift r) f).
Proof.
  intros Hf db r' db' Hw E. unfold dbind, dlift in E. destruct r as [a|e]; [|by simplify_eq].
  by eapply Hf.
Qed.

Lemma preserves_if {A} (b : bool) (m n : Db A) :
  (b = true -> preserves m) -> (b = false -> preserves n) -> preserves (if b then m else n).
Proof. destruct b; auto. Qed.

Lemma preserves_transaction {A} (m : Db A) : preserves m -> preserves (transaction m).
Proof.
  intros Hm db r db' Hw E. unfold transaction in E. destruct (m db) as [[a|e] db1] eqn:Em; simplify_eq.
  - by eapply Hm.
  - done.
Qed.

(** A statement that reads the database and writes a well-formed one. *)
Lemma preserves_write (f : Database -> Database) :
  (forall db, db_wf db -> db_wf (f db)) -> preserves (db <<- dget ;; dput (f db)).
Proof. intros Hf db r db' Hw [= _ <-]. auto. Qed.

(** ** Statements keep the invariant *)

(** A branch that returns the database it was given. *)
Ltac unchanged := unfold dfail, dret, dput in *; simplify_eq/=; done.

Lemma preserves_insert_collection name row : preserves (insert_collection_row name row).
Proof.
  intros db r db' Hw E. unfold insert_collection_row, dbind, dget in E.
  destruct (_ || _) eqn:Hc; [unchanged|]. apply orb_false_iff in Hc as [Hn Hc]. boolp.
  injection E as <- <-. destruct Hw as [Hr Hf Hcs Hl Hh]. split; simpl; try done.
  - intros k row' Hk. apply Hf in Hk. destruct (decide (name = k.1)) as [->|Hne].
    + rewrite lookup_insert_eq. eauto.
    + by rewrite lookup_insert_ne.
  - by apply map_Forall_insert_2.
Qed.

Lemma preserves_update_collection name f : preserves (update_collection_row name f).
Proof.
  intros db r db' Hw E. unfold update_collection_row, dbind, dget in E.
  destruct (collections_t db !! name) as [row|] eqn:Hn; [|unchanged].
  destruct (collection_row_check name (f row)) eqn:Hc; simpl in E; [|unchanged].
  injection E as <- <-. destruct Hw as [Hr Hf Hcs Hl Hh]. split; simpl; try done.
  - intros k row' Hk. apply Hf in Hk. destruct (decide (name = k.1)) as [->|Hne].
    + rewrite lookup_insert_eq. eauto.
    + by rewrite lookup_insert_ne.
  - by apply map_Forall_insert_2.
Qed.

Lemma preserves_delete_collection name : preserves (delete_collection_row name).
Proof.
  intros db r db' Hw E. unfold delete_collection_row, dbind, dget in E.
  destruct (collections_t db !! name) as [row|] eqn:Hn; [|unchanged].
  injection E as <- <-. destruct Hw as [Hr Hf Hcs Hl Hh]. split; simpl; try done.
  - intros k row' Hk. apply map_lookup_filter_Some in Hk as [Hk _]. by apply Hr.
  - intros k row' Hk. apply map_lookup_filter_Some in Hk as [Hk Hne]. simpl in Hne.
    apply Hf in Hk. by rewrite lookup_delete_ne.
  - by apply map_Forall_delete.
Qed.

Lemma preserves_upsert_path collection path row :
  (path_row_check row = true -> row_ok (collection, path) row) ->
  preserves (upsert_path_row collection path row).
Proof.
  intros Hrow db r db' Hw E. unfold upsert_path_row, dbind, dget in E.
  destruct (_ || _) eqn:Hc; [unchanged|].
  apply orb_false_iff in Hc as [Hc Hck]. apply orb_false_iff in Hc as [Hc _]. boolp.
  apply not_eq_None_Some in Hc.
  injection E as <- <-. destruct Hw as [Hr Hf Hcs Hl Hh]. split; simpl; try done.
  - apply map_Forall_insert_2; auto.
  - intros k row' Hk. apply lookup_insert_Some in Hk as [[<- <-]|[_ Hk]]; [done | by eapply Hf].
Qed.

Lemma preserves_update_path collection path kind f :
  (forall row, row_ok (collection, path) row -> row_kind row = kind -> path_row_check (f row) = true ->
     row_ok (collection, path) (f row)) ->
  preserves (update_path_row collection path kind f).
Proof.
  intros Hrow db r db' Hw E. unfold update_path_row, dbind, dget in E.
  destruct (path_records_t db !! (collection, path)) as [row|] eqn:Hk; [|unchanged].
  destruct (Z.eqb_spec (row_kind row) kind) as [Hkind|]; simpl in E; [|unchanged].
  destruct (path_row_check (f row)) eqn:Hc; simpl in E; [|unchanged].
  injection E as <- <-. destruct Hw as [Hr Hf Hcs Hl Hh]. split; simpl; try done.
  - apply map_Forall_insert_2; [|done]. apply Hrow; [by apply Hr | done..].
  - intros k row' Hk'. apply lookup_insert_Some in Hk' as [[<- <-]|[_ Hk']]; by eapply Hf.
Qed.

Lemma row_ok_same k row row' :
  row_ok k row -> row_record_hash row' = row_record_hash row -> row_kind row' = row_kind row ->
  row_canonical row' = row_canonical row -> path_row_check row' = true -> columns_ok row' -> row_ok k row'.
Proof.
  intros [(r & Hw & Hi & Hh & Hc & Hk) _] Eh Ek Ec Hck Hs. split; [|done]. exists r.
  split; [done|]. split; [done|]. by rewrite Eh, Ek, Ec.
Qed.

Lemma clear_materialized_check row :
  path_row_check row = true -> row_kind row = 1 -> path_row_check (clear_materialized row) = true.
Proof.
  unfold path_row_check. intros Hc Hk. apply andb_true_iff in Hc as [Hl _]. simpl.
  rewrite Hl, Hk. done.
Qed.
Lemma clear_materialized_columns row : columns_ok (clear_materialized row).
Proof. split; [done | by intros []]. Qed.

Lemma preserves_clear_files condition : preserves (clear_files condition).
Proof.
  apply preserves_write. intros db [Hr Hf Hcs Hl Hh]. split; simpl; try done.
  - intros k row' Hk. rewrite map_lookup_imap in Hk.
    destruct (path_records_t db !! k) as [row|] eqn:Hrow; [|done]. simpl in Hk. simplify_eq.
    pose proof (Hr _ _ Hrow) as Hok. case_match eqn:Hc; [|done]. boolp.
    apply (row_ok_same k row); try done; [|apply clear_materialized_columns]. apply clear_materialized_check; [apply Hok | done].
  - intros k row' Hk. rewrite map_lookup_imap in Hk.
    destruct (path_records_t db !! k) as [row|] eqn:Hrow; [|done]. by eapply Hf.
Qed.

Lemma logs_ok_snoc rows n created payload :
  logs_ok rows n -> n < i64_max -> payload_ok payload ->
  logs_ok (rows ++ [mkLogRow (n + 1) created payload]) (n + 1).
Proof.
  intros (Hn & Hs & Hf) Hlt Hp. split; [lia|]. split.
  - rewrite map_app. simpl. clear -Hs Hf. induction rows as [|row rows IH]; simpl; [repeat constructor|].
    inversion Hs as [|? ? Hs' Hlt]; inversion Hf as [|? ? Hrow Hf']; subst. constructor; [auto|].
    apply Forall_app. split; [done|]. repeat constructor. lia.
  - apply Forall_app. split.
    + eapply Forall_impl; [exact Hf|]. intros row [Hid Hpay]. split; [lia | done].
    + repeat constructor; simpl; try lia; apply Hp.
Qed.

Lemma logs_ok_drop rows n k : logs_ok rows n -> logs_ok (drop k rows) n.
Proof.
  intros (Hn & Hs & Hf). split; [done|]. split; [|by apply Forall_drop].
  revert k. induction rows as [|row rows IH]; intros k; [by rewrite drop_nil|].
  destruct k as [|k]; [done|]. inversion Hs; inversion Hf; subst. simpl. by apply IH.
Qed.

Lemma preserves_insert_log_row created payload :
  payload_ok payload -> preserves (insert_log_row created payload).
Proof.
  intros Hp db r db' Hw E. unfold insert_log_row, dbind, dget in E.
  destruct (_ || _) eqn:Hc; [unchanged|]. apply orb_false_iff in Hc as [Hc _]. boolp.
  injection E as <- <-. destruct Hw as [Hr Hf Hcs Hl Hh]. split; simpl; try done.
  apply logs_ok_snoc; [done | | done]. destruct Hl as [? _]. lia.
Qed.

Lemma preserves_prune_logs n : preserves (prune_logs n).
Proof.
  apply preserves_write. intros db [Hr Hf Hcs Hl Hh]. split; simpl; try done. by apply logs_ok_drop.
Qed.

Lemma preserves_upsert_hint e hint : preserves (upsert_peer_hint e hint).
Proof.
  intros db r db' Hw E. unfold upsert_peer_hint, dbind, dget in E.
  destruct (_ && _) eqn:Hc; [|unchanged]. boolp.
  injection E as <- <-. destruct Hw as [Hr Hf Hcs Hl Hh]. split; simpl; try done.
  apply map_Forall_insert_2; [unfold hint_ok; lia | done].
Qed.

(** [preserve] walks through an operation. *)
Ltac preserve :=
  repeat first
    [ apply preserves_ret | apply preserves_fail | apply preserves_lift | apply preserves_get
    | apply preserves_insert_collection | apply preserves_update_collection
    | apply preserves_delete_collection | apply preserves_clear_files | apply preserves_prune_logs
    | apply preserves_upsert_hint
    | apply preserves_transaction
    | apply preserves_lift_bind; intros ? ?
    | apply preserves_bind; [|intros ?]
    | apply preserves_if; intros ? ].

(** ** Operations keep the invariant *)

Lemma insert_log_payload event payload :
  validate_operational_event event = Ok tt -> event_to_json event = Some payload ->
  (MAX_OPERATIONAL_EVENT_BYTES <? len payload) = false ->
  payload_ok payload \/ len payload = 0.
Proof.
  intros Hv Hp Hl%Z.ltb_ge. unfold MAX_OPERATIONAL_EVENT_BYTES in Hl. pose proof (len_nonneg payload).
  destruct (decide (len payload = 0)); [by right|]. left. split; [lia|]. eauto.
Qed.

Lemma preserves_insert_log created event max_logs : preserves (insert_log created event max_logs).
Proof.
  unfold insert_log. apply preserves_lift_bind. intros [] Hv.
  apply preserves_lift_bind. intros payload Hp%ok_or_Ok. apply preserves_if; intros Hl; [preserve|].
  apply preserves_bind; [|intros _; preserve].
  destruct (insert_log_payload event payload Hv Hp Hl) as [Hok|Hz]; [by apply preserves_insert_log_row|].
  intros db r db' Hw E. unfold insert_log_row, dbind, dget in E. rewrite Hz, orb_true_r in E.
  unchanged.
Qed.

Definition record_row (r : record) (m : bool) : PathRow :=
  mkPathRow (rhash (record_canonical_hash r)) (kind_code (rec_kind r)) (record_canonical_bytes r) m
    (option_map fp_modified_ns (own_fingerprint r m)) (option_map fp_size (own_fingerprint r m))
    (option_map (fun f => arr (fp_hash f)) (own_fingerprint r m)).

Lemma record_bytes_nonempty r : record_wf r -> 0 < len (record_canonical_bytes r).
Proof.
  intros [Hr _]. rewrite record_canonical_bytes_eq, len_app by done. change (len RECORD_DOMAIN) with 20.
  pose proof (len_nonneg (record_encoding r)). lia.
Qed.

Lemma kind_size_i64 size : 0 <= size < 2 ^ 63 -> in_i64 size = true.
Proof. intros Hs. unfold in_i64, i64_min, i64_max. rewrite !(proj2 (Z.leb_le _ _)) by lia. done. Qed.

(** The row of a well-formed record satisfies the [CHECK]. *)
Lemma record_row_ok r m : record_wf r -> row_ok (index_of r) (record_row r m).
Proof.
  intros Hr. split; [by exists r|]. unfold path_row_check, columns_ok, record_row. simpl.
  rewrite (proj2 (Z.ltb_lt _ _) (record_bytes_nonempty r Hr)). unfold own_fingerprint.
  destruct Hr as (_ & _ & Hk). destruct m, (rec_kind r) as [size h|]; simpl in *;
    try (split; [done|]; split; [done | by intros []]).
  rewrite len_arr, (proj2 (Z.leb_le _ _)) by apply Hk. split; [done|]. split; [by apply kind_size_i64 | by eexists].
Qed.

(** Storing a record writes its row; the conversion of its size cannot fail. *)
Lemma upsert_record_eq r m :
  record_wf r ->
  forall db, upsert_record r m db = upsert_path_row (rec_collection r) (path_str (rec_path r)) (record_row r m) db.
Proof.
  intros (_ & _ & Hk) db. unfold upsert_record, record_row, own_fingerprint.
  destruct m, (rec_kind r) as [size h|]; try done.
  unfold kind_ok in Hk. cbn [fp_size option_map].
  assert (i64_try_from size = Some size) as Hs by (unfold i64_try_from; by rewrite kind_size_i64).
  by rewrite Hs.
Qed.

Lemma preserves_upsert_record r m : record_wf r -> preserves (upsert_record r m).
Proof.
  intros Hr db res db' Hw E. rewrite upsert_record_eq in E by done.
  eapply preserves_upsert_path; [|done | exact E]. intros _. by apply record_row_ok.
Qed.

Lemma preserves_load_record c p : preserves (load_record c p).
Proof. unfold load_record. apply preserves_bind; [preserve|]. intros db. case_match; preserve. Qed.

Lemma preserves_merge_record r t p n : record_wf r -> preserves (merge_record r t p n).
Proof.
  intros Hr. apply preserves_transaction, preserves_bind; [apply preserves_load_record|]. intros c.
  apply preserves_bind; [case_match; [by apply preserves_upsert_record | preserve]|]. intros _.
  apply preserves_bind; [apply preserves_insert_log | intros _; preserve].
Qed.

Lemma preserves_update_fingerprint c p f : preserves (update_materialized_fingerprint c p f).
Proof.
  apply preserves_lift_bind. intros size Hs%ok_or_Ok. apply preserves_bind; [|intros n; preserve].
  apply preserves_update_path. intros row Hok _ Hck. apply (row_ok_same _ row); try done.
  split; [|by eexists]. unfold i64_try_from in *. simpl. by destruct (in_i64 (fp_size f)) eqn:E; simplify_eq.
Qed.

Lemma preserves_mark_repair c p t e n : preserves (mark_repair_required_and_log c p t e n).
Proof.
  apply preserves_transaction, preserves_bind.
  - apply preserves_update_path. intros row Hok _ Hck. apply (row_ok_same _ row); try done. apply clear_materialized_columns.
  - intros u. apply preserves_if; intros _; [preserve | apply preserves_insert_log].
Qed.

Lemma preserves_mark_tombstone c p t e n : preserves (mark_tombstone_materialized_and_log c p t e n).
Proof.
  apply preserves_transaction, preserves_bind.
  - apply preserves_update_path. intros row Hok _ Hck. apply (row_ok_same _ row); try done. apply Hok.
  - intros u. apply preserves_if; intros _; [preserve | apply preserves_insert_log].
Qed.

Lemma preserves_query_root c : preserves (query_resolved_root c).
Proof. unfold query_resolved_root. preserve. Qed.

Lemma preserves_mark_materialized c p f t e n : preserves (mark_materialized_and_log c p f t e n).
Proof.
  apply preserves_transaction, preserves_bind; [apply preserves_query_root|]. intros root.
  apply preserves_bind; [preserve|]. intros _.
  apply preserves_bind; [apply preserves_update_fingerprint|]. intros _. apply preserves_insert_log.
Qed.

Lemma preserves_peer_health e b t ev n : preserves (record_peer_health e b t ev n).
Proof.
  apply preserves_transaction. intros db r db' Hw E. unfold dbind, dget, dput in E.
  eapply preserves_insert_log; [|exact E]. destruct Hw as [Hr Hf Hcs Hl Hh]. by split.
Qed.

(** ** The log *)

Definition logged (db : Database) (created_ns : Z) (payload : bytes) (max_logs : Z) : Database :=
  let rows := logs_t db ++ [mkLogRow (log_sequence db + 1) created_ns payload] in
  set_logs db (drop (length rows - Z.to_nat max_logs) rows) (log_sequence db + 1).

(** What an event needs to be logged. *)
Definition loggable (db : Database) (event : OperationalEvent) (max_logs : Z) (payload : bytes) : Prop :=
  validate_operational_event event = Ok tt /\ event_to_json event = Some payload /\
  1 <= len payload <= 16384 /\ log_sequence db <> i64_max /\ in_i64 max_logs = true.

Lemma insert_log_Ok created event n db db' :
  insert_log created event n db = (Ok tt, db') <->
  exists payload, loggable db event n payload /\ db' = logged db created payload n.
Proof.
  unfold insert_log, loggable. split.
  - intros E. apply dbind_Ok in E as ([] & db1 & Hv & E). injection Hv as Hv <-.
    apply dbind_Ok in E as (payload & db1 & Hp & E). injection Hp as Hp <-. apply ok_or_Ok in Hp.
    destruct (MAX_OPERATIONAL_EVENT_BYTES <? len payload) eqn:Hl; [done|].
    apply dbind_Ok in E as ([] & db1 & Hi & E). unfold insert_log_row, dbind, dget in Hi.
    destruct (_ || _) eqn:Hc; [done|]. apply orb_false_iff in Hc as [Hs Hc]. boolp.
    injection Hi as <-. apply dbind_Ok in E as (m & db1 & Hm & E). injection Hm as Hm <-.
    apply ok_or_Ok in Hm. unfold i64_try_from in Hm. destruct (in_i64 n) eqn:Hn; [|done].
    injection Hm as <-. injection E as <-. exists payload. auto 10.
  - intros (payload & (Hv & Hp & [Hl1 Hl2] & Hs & Hn) & ->). unfold dbind, dlift. rewrite Hv, Hp.
    cbn [ok_or]. assert ((MAX_OPERATIONAL_EVENT_BYTES <? len payload) = false) as -> by by apply Z.ltb_ge.
    unfold insert_log_row, dbind, dget.
    rewrite (proj2 (Z.eqb_neq _ _) Hs), (proj2 (Z.leb_le _ _) Hl1), (proj2 (Z.leb_le _ _) Hl2). simpl.
    unfold i64_try_from. by rewrite Hn.
Qed.

Lemma insert_log_frame created event n db db' :
  insert_log created event n db = (Ok tt, db') ->
  path_records_t db' = path_records_t db /\ collections_t db' = collections_t db /\
  peer_hints_t db' = peer_hints_t db /\ roster_t db' = roster_t db /\ peer_health_t db' = peer_health_t db.
Proof. intros (payload & _ & ->)%insert_log_Ok. done. Qed.

(** ** The store refines the last-writer-wins map *)

(** The abstraction: the record in each row. *)
Definition winners (db : Database) : winner_map :=
  omap (fun row => match record_from_canonical (row_canonical row) with Ok r => Some r | Err _ => None end)
    (path_records_t db).

Lemma winners_lookup db k row r :
  path_records_t db !! k = Some row -> holds_record k row r -> winners db !! k = Some r.
Proof.
  intros Hk (Hw & _ & _ & Hc & _). unfold winners. rewrite lookup_omap, Hk. simpl.
  by rewrite Hc, (proj2 (record_from_canonical_iff _ r) (conj Hw eq_refl)).
Qed.

Lemma winners_row db k :
  db_wf db ->
  match path_records_t db !! k with
  | Some row => exists r, winners db !! k = Some r /\ holds_record k row r
  | None => winners db !! k = None
  end.
Proof.
  intros Hw. destruct (path_records_t db !! k) as [row|] eqn:E.
  - pose proof (wf_rows db Hw _ _ E) as [[r Hr] _]. exists r. split; [by eapply winners_lookup | done].
  - unfold winners. by rewrite lookup_omap, E.
Qed.

Lemma winners_indexed db : db_wf db -> map_indexed (winners db).
Proof.
  intros Hw k r Hk. pose proof (winners_row db k Hw) as Hr.
  destruct (path_records_t db !! k) as [row|]; [|congruence].
  destruct Hr as (r' & E & _ & Hi & _). congruence.
Qed.

Lemma winners_wf db k r : db_wf db -> winners db !! k = Some r -> record_wf r.
Proof.
  intros Hw Hk. pose proof (winners_row db k Hw) as Hr.
  destruct (path_records_t db !! k) as [row|]; [|congruence].
  destruct Hr as (r' & E & Hr & _). congruence.
Qed.

Lemma winners_same db db' : path_records_t db' = path_records_t db -> winners db' = winners db.
Proof. intros E. unfold winners. by rewrite E. Qed.

(** A row decodes to its record. *)
Lemma decode_row k row r :
  holds_record k row r ->
  decode_indexed_record (row_record_hash row) (row_canonical row) k.1 k.2 = Ok r.
Proof.
  intros (Hw & <- & Hh & Hc & _). unfold decode_indexed_record, decode_stored_record.
  rewrite Hc, Hh, (proj2 (record_from_canonical_iff _ r) (conj Hw eq_refl)). cbn [map_err rbind].
  rewrite bool_decide_eq_false_2 by naive_solver. cbn [rbind].
  by rewrite !bool_decide_eq_false_2 by naive_solver.
Qed.

Lemma load_record_wf db c p :
  db_wf db -> load_record c p db = (Ok (winners db !! (c, p)), db).
Proof.
  intros Hw. pose proof (winners_row db (c, p) Hw) as Hr. unfold load_record, dbind, dget.
  destruct (path_records_t db !! (c, p)) as [row|]; [|by rewrite Hr].
  destruct Hr as (r & -> & Hr). apply decode_row in Hr. simpl in Hr. unfold dlift. by rewrite Hr.
Qed.

(** A successful merge takes the step of the map, and returns whether it
    changed; an accepted record comes with its own row. *)
Lemma merge_record_refines r t p n db b db' :
  db_wf db -> record_wf r -> merge_record r t p n db = (Ok b, db') ->
  b = beats r (winners db !! index_of r) /\
  winners db' = merge_map (winners db) r /\
  path_records_t db' = (if b then <[index_of r := record_row r (bool_decide (p = None))]> (path_records_t db)
                        else path_records_t db) /\
  collections_t db' = collections_t db.
Proof.
  intros Hw Hr E. unfold merge_record in E. apply (proj1 (transaction_Ok _ _ _ _)) in E.
  apply dbind_Ok in E as (current & db1 & Hl & E). rewrite load_record_wf in Hl by done.
  injection Hl as <- <-. cbv zeta in E.
  change (accepts r (winners db !! (rec_collection r, path_str (rec_path r))))
    with (beats r (winners db !! index_of r)) in E.
  apply dbind_Ok in E as ([] & db1 & Hu & E). apply dbind_Ok in E as ([] & db2 & Hlog & E).
  injection E as Eb <-. destruct (insert_log_frame _ _ _ _ _ Hlog) as (Hp & Hc & _).
  unfold merge_map. rewrite (winners_same db1 db2 Hp), Hp, Hc. clear Hlog Hp Hc.
  destruct (beats r (winners db !! index_of r)) eqn:Hb; subst b.
  - rewrite upsert_record_eq in Hu by done. unfold upsert_path_row, dbind, dget in Hu.
    destruct (_ || _) in Hu; [done|]. injection Hu as <-. split; [done|]. split; [|done].
    unfold winners. cbn [path_records_t set_path_records]. 
    rewrite omap_insert. cbn [row_canonical record_row].
    by rewrite (proj2 (record_from_canonical_iff _ r) (conj Hr eq_refl)).
  - injection Hu as <-. done.
Qed.

(** The merge succeeds when its collection is attached and its event can be
    logged. *)
Lemma merge_record_succeeds r t p n db payload :
  db_wf db -> record_wf r -> is_Some (collections_t db !! rec_collection r) ->
  loggable db (merge_event r p (winners db !! index_of r) (beats r (winners db !! index_of r))) n payload ->
  exists db', merge_record r t p n db = (Ok (beats r (winners db !! index_of r)), db').
Proof.
  intros Hw Hr Hc Hl. pose proof (record_row_ok r (bool_decide (p = None)) Hr) as (_ & Hck & _).
  assert (path_str (rec_path r) <> []) as Hpath.
  { destruct Hr as [(_ & _ & [Hv _] & _) _]. by apply validate_Ok in Hv as [? _]. }
  unfold merge_record, transaction. unfold dbind at 1. rewrite load_record_wf by done. cbv zeta.
  change (accepts r (winners db !! (rec_collection r, path_str (rec_path r))))
    with (beats r (winners db !! index_of r)).
  change (winners db !! (rec_collection r, path_str (rec_path r))) with (winners db !! index_of r).
  set (e := merge_event _ _ _ _) in *. set (b := beats _ _) in *.
  assert (exists db1, (if b then upsert_record r (bool_decide (p = None)) else dret tt) db = (Ok tt, db1)
    /\ log_sequence db1 = log_sequence db) as (db1 & Hu & Hs).
  { destruct b; [|by exists db]. rewrite upsert_record_eq by done. unfold upsert_path_row, dbind, dget.
    rewrite Hck, bool_decide_eq_false_2 by (by apply not_eq_None_Some).
    rewrite bool_decide_eq_false_2 by done. simpl. by eexists. }
  unfold dbind at 1. rewrite Hu. unfold dbind at 1.
  rewrite (proj2 (insert_log_Ok t e n db1 (logged db1 t payload n))); [by eexists|].
  exists payload. split; [|done]. unfold loggable in *. by rewrite Hs.
Qed.

(** ** Sequences of merges *)

Record merge_call := mkMerge { mc_record : record; mc_observed_ns : Z; mc_source : option EndpointId }.

Fixpoint merge_all (calls : list merge_call) (max_logs : Z) : Db unit :=
  match calls with
  | [] => dret tt
  | c :: calls =>
      _ <<- merge_record (mc_record c) (mc_observed_ns c) (mc_source c) max_logs ;;
      merge_all calls max_logs
  end.

Lemma merge_all_refines calls n db db' :
  db_wf db -> Forall (fun c => record_wf (mc_record c)) calls -> merge_all calls n db = (Ok tt, db') ->
  db_wf db' /\ winners db' = merge_maps (winners db) (map mc_record calls).
Proof.
  intros Hw Hc. revert db Hw. induction Hc as [|c calls Hr _ IH]; intros db Hw E; simpl in E.
  - injection E as <-. done.
  - apply dbind_Ok in E as (b & db1 & Hm & E).
    pose proof (preserves_merge_record _ _ _ _ Hr _ _ _ Hw Hm) as Hw1.
    destruct (merge_record_refines _ _ _ _ _ _ _ Hw Hr Hm) as (_ & Hwin & _).
    destruct (IH db1 Hw1 E) as [Hw' Hwin']. split; [done|]. by rewrite Hwin', Hwin.
Qed.

(** The records of a store, and those of a store and a sequence of merges. *)
Definition stored (db : Database) (r : record) : Prop := winners db !! index_of r = Some r.
Definition seen (db : Database) (calls : list merge_call) (r : record) : Prop :=
  stored db r \/ r ∈ map mc_record calls.

Lemma merge_all_represents calls n db db' :
  db_wf db -> Forall (fun c => record_wf (mc_record c)) calls -> merge_all calls n db = (Ok tt, db') ->
  represents (seen db calls) (winners db').
Proof.
  intros Hw Hc E. destruct (merge_all_refines _ _ _ _ Hw Hc E) as [_ ->].
  apply merge_maps_represents, held_represents. by apply winners_indexed.
Qed.

(** ** Every operation that writes *)

Inductive store_op :=
  | OpAddCollection (name local_path : bytes) (resolved_root : option bytes)
  | OpReplacePath (name local_path : bytes)
  | OpCompleteScan (name local_path resolved_root : bytes)
  | OpScanStatus (name : bytes) (status : CollectionScanStatus)
  | OpWatchStatus (name : bytes) (status : CollectionWatchStatus)
  | OpRemoveCollection (name : bytes)
  | OpMergeRecord (r : record) (observed_ns : Z) (source : option EndpointId) (max_logs : Z)
  | OpRepair (collection path : bytes) (created_ns : Z) (event : OperationalEvent) (max_logs : Z)
  | OpFingerprint (collection path : bytes) (fingerprint : FileFingerprint)
  | OpMaterialized (collection path : bytes) (file : MaterializedFile) (created_ns : Z)
      (event : OperationalEvent) (max_logs : Z)
  | OpTombstone (collection path : bytes) (created_ns : Z) (event : OperationalEvent) (max_logs : Z)
  | OpPeerHint (endpoint : EndpointId) (hint : bytes)
  | OpPeerHealth (endpoint : EndpointId) (reachable : bool) (observed_ns : Z)
      (event : OperationalEvent) (max_logs : Z)
  | OpAppendLog (created_ns : Z) (event : OperationalEvent) (max_logs : Z).

Definition forget {A} (m : Db A) : Db unit := _ <<- m ;; dret tt.

Definition run_op (op : store_op) : Db unit :=
  match op with
  | OpAddCollection n p r => add_collection n p r
  | OpReplacePath n p => replace_collection_path n p
  | OpCompleteScan n p r => forget (complete_collection_scan n p r)
  | OpScanStatus n s => set_collection_scan_status n s
  | OpWatchStatus n s => set_collection_watch_status n s
  | OpRemoveCollection n => forget (remove_collection n)
  | OpMergeRecord r t p n => forget (merge_record r t p n)
  | OpRepair c p t e n => mark_repair_required_and_log c p t e n
  | OpFingerprint c p f => set_materialized_fingerprint c p f
  | OpMaterialized c p f t e n => mark_materialized_and_log c p f t e n
  | OpTombstone c p t e n => mark_tombstone_materialized_and_log c p t e n
  | OpPeerHint e h => replace_peer_hint e h
  | OpPeerHealth e b t ev n => record_peer_health e b t ev n
  | OpAppendLog t e n => append_log t e n
  end.

(** The records handed to the store are values of their type. *)
Definition op_ok (op : store_op) : Prop :=
  match op with OpMergeRecord r _ _ _ => record_wf r | _ => True end.

(** The database after a sequence of operations, of which any may fail. *)
Definition run_ops (ops : list store_op) (db : Database) : Database :=
  fold_left (fun db op => (run_op op db).2) ops db.

Lemma preserves_run_op op : op_ok op -> preserves (run_op op).
Proof.
  intros Hop. destruct op; simpl in *; unfold forget.
  - preserve.
  - unfold replace_collection_path. preserve.
  - unfold complete_collection_scan. apply preserves_bind; [|intros ?; preserve].
    apply preserves_transaction, preserves_bind; [apply preserves_query_root|]. intros ?. cbv zeta. preserve.
  - unfold set_collection_scan_status. preserve.
  - unfold set_collection_watch_status. preserve.
  - unfold remove_collection. preserve.
  - apply preserves_bind; [by apply preserves_merge_record | intros ?; preserve].
  - apply preserves_mark_repair.
  - apply preserves_transaction, preserves_update_fingerprint.
  - apply preserves_mark_materialized.
  - apply preserves_mark_tombstone.
  - unfold replace_peer_hint, replace_peer_hint_in. preserve.
  - apply preserves_peer_health.
  - apply preserves_transaction, preserves_insert_log.
Qed.

Lemma preserves_run_ops ops db : Forall op_ok ops -> db_wf db -> db_wf (run_ops ops db).
Proof.
  intros Hops. revert db. induction Hops as [|op ops Hop _ IH]; intros db Hw; simpl; [done|].
  apply IH. destruct (run_op op db) as [res db1] eqn:E. by eapply preserves_run_op.
Qed.

(** *** Failure changes nothing *)

Definition atomic {A} (m : Db A) : Prop := forall db e db', m db = (Err e, db') -> db' = db.

Lemma atomic_transaction {A} (m : Db A) : atomic (transaction m).
Proof. intros db e db'. apply transaction_Err. Qed.

Lemma atomic_forget {A} (m : Db A) : atomic m -> atomic (forget m).
Proof.
  intros Hm db e db' E. unfold forget, dbind in E. destruct (m db) as [[a|e'] db1] eqn:Em; [done|].
  injection E as _ <-. by eapply Hm.
Qed.

Lemma atomic_lift_bind {A B} (r : result A StateError) (f : A -> Db B) :
  (forall a, atomic (f a)) -> atomic (dbind (dlift r) f).
Proof.
  intros Hf db e db' E. unfold dbind, dlift in E. destruct r as [a|e']; [by eapply Hf|]. by injection E.
Qed.

Lemma atomic_insert_collection n r : atomic (insert_collection_row n r).
Proof. intros db e db' E. unfold insert_collection_row, dbind, dget in E. case_match; unchanged. Qed.

Lemma atomic_update_collection n f : atomic (update_collection_row n f).
Proof.
  intros db e db' E. unfold update_collection_row, dbind, dget in E.
  destruct (collections_t db !! n); [|unchanged]. case_match; unchanged.
Qed.

Lemma atomic_delete_collection n : atomic (delete_collection_row n).
Proof.
  intros db e db' E. unfold delete_collection_row, dbind, dget in E.
  destruct (collections_t db !! n); unchanged.
Qed.

Lemma atomic_run_op op : atomic (run_op op).
Proof.
  destruct op; simpl; try apply atomic_forget; try apply atomic_transaction.
  - apply atomic_insert_collection.
  - apply atomic_update_collection.
  - apply atomic_update_collection.
  - intros db e db' E. unfold remove_collection, dbind in E.
    destruct (delete_collection_row name db) as [[a|e'] db1] eqn:Ed; [done|]. injection E as _ <-.
    by eapply atomic_delete_collection.
  - apply atomic_lift_bind. intros _. apply atomic_transaction.
Qed.

(** ** Reading a well-formed store *)

Lemma decode_collection_ok name row :
  collection_row_check name row = true -> exists c, decode_collection name row = Ok c /\ cs_name c = name.
Proof.
  unfold collection_row_check, decode_collection. intros Hc. boolp.
  assert (exists s, scan_status_from_str (col_scan_status row) = Ok s) as [s Hs].
  { destruct row as [lp rr ss ws]. simpl in *. unfold scan_statuses in *.
    repeat match goal with H : _ ∈ _ :: _ |- _ => apply elem_of_cons in H as [->|H] end;
      try (by eexists); match goal with H : _ ∈ [] |- _ => by apply not_elem_of_nil in H end. }
  assert (exists s, watch_status_from_str (col_watch_status row) = Ok s) as [s' Hs'].
  { destruct row as [lp rr ss ws]. simpl in *. unfold watch_statuses in *.
    repeat match goal with H : _ ∈ _ :: _ |- _ => apply elem_of_cons in H as [->|H] end;
      try (by eexists); match goal with H : _ ∈ [] |- _ => by apply not_elem_of_nil in H end. }
  rewrite Hs. cbn [rbind]. rewrite Hs'. cbn [rbind]. by eexists.
Qed.

Lemma decode_collections_ok rows :
  Forall (fun x => collection_row_check x.1 x.2 = true) rows ->
  exists cs, decode_collections rows = Ok cs /\ map cs_name cs = map fst rows.
Proof.
  induction 1 as [|[name row] rows Hrow _ (cs & E & Hn)]; simpl; [by exists []|].
  destruct (decode_collection_ok name row Hrow) as (c & Ec & Hc). rewrite Ec. cbn [rbind]. rewrite E.
  cbn [rbind]. eexists. split; [done|]. simpl. by rewrite Hc, Hn.
Qed.

Lemma select_rows_ok db c :
  db_wf db -> Forall (fun x => x.1.1 = c /\ row_ok x.1 x.2) (select_rows db c).
Proof.
  intros Hw. apply Forall_forall. intros [[c' p] row] Hin. unfold select_rows in Hin.
  apply list_elem_of_In, filter_In in Hin as [Hin Hc]. apply list_elem_of_In, items_elem in Hin.
  boolp. split; [done|]. by apply (wf_rows db Hw).
Qed.

(** The fingerprint columns the [CHECK] admits: of a file that is materialized,
    and of no other row. *)
Lemma decode_fingerprint_ok row :
  path_row_check row = true -> columns_ok row ->
  exists f, decode_materialized_fingerprint (row_modified_ns row) (row_size row) (row_content_hash row) = Ok f
    /\ (is_Some f <-> row_kind row = 1 /\ row_materialized row = true).
Proof.
  unfold path_row_check, no_fingerprint, decode_materialized_fingerprint, columns_ok. intros Hc [Hs Hh].
  apply andb_true_iff in Hc as [_ Hc].
  destruct (row_modified_ns row) as [modified|].
  - destruct (row_size row) as [size|]; [|done]. destruct (row_content_hash row) as [hash|]; [|by destruct Hh; [by eexists|]].
    rewrite !andb_false_r in Hc. cbn [orb] in Hc. boolp.
    assert (u64_try_from size = Some size) as ->.
    { unfold u64_try_from, in_u64, in_i64, i64_max in *. boolp.
      rewrite (proj2 (Z.leb_le _ _)), (proj2 (Z.ltb_lt _ _)) by lia. done. }
    simpl. destruct (to_array_length 32 hash) as (a & Ha & _); [unfold len in *; lia|]. rewrite Ha. simpl.
    eexists. split; [done|]. by split.
  - rewrite (andb_false_r (_ && _)) in Hc. cbn [andb] in Hc. rewrite orb_false_r in Hc.
    destruct (row_size row), (row_content_hash row); rewrite ?andb_false_r in Hc; try done. exists None. split; [done|].
    split; [by intros []|]. intros [Hk Hm]. by rewrite Hk, Hm in Hc.
Qed.

(** What the [CHECK] does not refuse: a size or a hash that is NULL in the row of
    a materialized file, since the comparison is then NULL.  No operation writes
    such a row; the code refuses it when it is read. *)
Lemma check_misses_null hash canonical modified :
  0 < len canonical ->
  path_row_check (mkPathRow hash 1 canonical true (Some modified) None None) = true /\
  decode_materialized_fingerprint (Some modified) None None
  = Err (InvalidStoredState "materialized fingerprint is incomplete").
Proof. intros Hl. split; [|done]. unfold path_row_check. cbn. by rewrite (proj2 (Z.ltb_lt _ _) Hl). Qed.

Lemma decode_states_ok rows c :
  Forall (fun x => x.1.1 = c /\ row_ok x.1 x.2) rows ->
  exists ss, decode_states rows c = Ok ss /\
    Forall2 (fun x s => holds_record x.1 x.2 (prs_record s) /\ prs_materialized s = row_materialized x.2 /\
      (is_Some (prs_fingerprint s) <->
       rec_kind (prs_record s) <> Tombstone /\ prs_materialized s = true)) rows ss.
Proof.
  induction 1 as [|[[c' p] row] rows (Hc & [r Hr] & Hck & Hs) _ (ss & E & Hf)]; simpl; [by exists []|].
  simpl in Hc. subst c'. apply decode_row in Hr as Hd. simpl in Hd. unfold decode_path_record_state.
  rewrite Hd. cbn [rbind]. destruct (decode_fingerprint_ok row Hck Hs) as (f & -> & Hfp). cbn [rbind].
  rewrite E. cbn [rbind]. eexists. split; [done|]. constructor; [|done].
  split; [done|]. split; [done|]. simpl. rewrite Hfp. simpl in Hr. destruct Hr as (_ & _ & _ & _ & ->).
  destruct (rec_kind r); simpl; split; intros [? ?]; done.
Qed.

Lemma decode_records_ok rows c :
  Forall (fun x => x.1.1 = c /\ row_ok x.1 x.2) rows ->
  exists rs, decode_records rows c = Ok rs /\
    Forall2 (fun x r => holds_record x.1 x.2 r) rows rs.
Proof.
  induction 1 as [|[[c' p] row] rows (Hc & [r Hr] & _) _ (rs & E & Hf)]; simpl; [by exists []|].
  simpl in Hc. subst c'. apply decode_row in Hr as Hd. simpl in Hd. rewrite Hd. cbn [rbind].
  rewrite E. cbn [rbind]. eexists. split; [done|]. by constructor.
Qed.

Lemma decode_log_rows_ok `{!EventJsonLaws} rows :
  Forall (fun row => payload_ok (log_payload row)) rows ->
  exists ls, decode_log_rows rows = Ok ls /\ map ol_id ls = map log_id rows.
Proof.
  induction 1 as [|row rows ((Hl1 & Hl2) & e & Hv & He) _ (ls & E & Hi)]; simpl; [by exists []|].
  assert (decode_operational_log_row row = Ok (mkOperationalLog (log_id row) (log_created_ns row) e)) as ->.
  { unfold decode_operational_log_row, select_payload.
    rewrite (proj2 (Z.leb_le _ _) Hl1), (proj2 (Z.leb_le _ _) Hl2). cbn [andb ok_or rbind].
    unfold decode_operational_event. rewrite bool_decide_eq_false_2 by (intros E0; by rewrite E0 in Hl1).
    assert ((MAX_OPERATIONAL_EVENT_BYTES <? len (log_payload row)) = false) as -> by by apply Z.ltb_ge.
    cbn [orb]. rewrite (event_json_roundtrip _ _ He). cbn [ok_or rbind]. rewrite Hv. cbn [rbind].
    rewrite He. cbn [ok_or rbind]. by rewrite bool_decide_eq_false_2 by naive_solver. }
  cbn [rbind]. rewrite E. cbn [rbind]. eexists. split; [done|]. simpl. by rewrite Hi.
Qed.

(** ** What leaves the records alone *)

(** [m] changes no record: rows keep their canonical bytes. *)
Definition keeps_records {A} (m : Db A) : Prop :=
  forall db r db', m db = (r, db') ->
    forall k, row_canonical <$> path_records_t db' !! k = row_canonical <$> path_records_t db !! k.

Lemma keeps_winners {A} (m : Db A) db r db' :
  keeps_records m -> m db = (r, db') -> winners db' = winners db.
Proof.
  intros Hm E. apply map_eq. intros k. specialize (Hm _ _ _ E k). unfold winners. rewrite !lookup_omap.
  destruct (path_records_t db' !! k), (path_records_t db !! k); simplify_eq/=; try done.
  by match goal with E : row_canonical _ = row_canonical _ |- _ => rewrite E end.
Qed.

Lemma keeps_bind {A B} (m : Db A) (f : A -> Db B) :
  keeps_records m -> (forall a, keeps_records (f a)) -> keeps_records (dbind m f).
Proof.
  intros Hm Hf db r db' E k. unfold dbind in E. destruct (m db) as [[a|e] db1] eqn:Em.
  - rewrite (Hf a _ _ _ E k). by eapply Hm.
  - simplify_eq. by eapply Hm.
Qed.

Lemma keeps_if {A} (b : bool) (m n : Db A) :
  keeps_records m -> keeps_records n -> keeps_records (if b then m else n).
Proof. by destruct b. Qed.

Lemma keeps_transaction {A} (m : Db A) : keeps_records m -> keeps_records (transaction m).
Proof.
  intros Hm db r db' E. unfold transaction in E. destruct (m db) as [[a|e] db1] eqn:Em; simplify_eq.
  - by eapply Hm.
  - done.
Qed.

Lemma keeps_tables {A} (m : Db A) :
  (forall db r db', m db = (r, db') -> path_records_t db' = path_records_t db) -> keeps_records m.
Proof. intros Hm db r db' E k. by rewrite (Hm _ _ _ E). Qed.

Lemma keeps_update_path c p kind f :
  (forall row, row_canonical (f row) = row_canonical row) -> keeps_records (update_path_row c p kind f).
Proof.
  intros Hf db r db' E k. unfold update_path_row, dbind, dget in E.
  destruct (path_records_t db !! (c, p)) as [row|] eqn:Hrow; [|unchanged].
  case_match; [unchanged|]. case_match; [unchanged|]. injection E as _ <-. simpl.
  destruct (decide (k = (c, p))) as [->|Hk].
  - rewrite lookup_insert_eq, Hrow. simpl. by rewrite Hf.
  - by rewrite lookup_insert_ne.
Qed.

Lemma keeps_clear_files condition : keeps_records (clear_files condition).
Proof.
  intros db r db' E k. injection E as _ <-. simpl. rewrite map_lookup_imap.
  destruct (path_records_t db !! k) as [row|]; simpl; [|done]. by case_match.
Qed.

(** A statement on another table. *)
Ltac other_table :=
  let E := fresh in
  apply keeps_tables; intros ??? E;
  repeat (unfold dbind, dget, dput, dret, dfail in E; case_match; simplify_eq/=); done.

Lemma keeps_insert_collection n r : keeps_records (insert_collection_row n r).
Proof. unfold insert_collection_row. other_table. Qed.
Lemma keeps_update_collection n f : keeps_records (update_collection_row n f).
Proof. unfold update_collection_row. other_table. Qed.
Lemma keeps_insert_log_row t p : keeps_records (insert_log_row t p).
Proof. unfold insert_log_row. other_table. Qed.
Lemma keeps_prune_logs n : keeps_records (prune_logs n).
Proof. apply keeps_tables. by intros ??? [= _ <-]. Qed.
Lemma keeps_upsert_hint e h : keeps_records (upsert_peer_hint e h).
Proof. unfold upsert_peer_hint. other_table. Qed.
Lemma keeps_lift {A} (r : result A StateError) : keeps_records (dlift r).
Proof. apply keeps_tables. by intros ??? [= _ <-]. Qed.
Lemma keeps_ret {A} (a : A) : keeps_records (dret a).
Proof. apply keeps_tables. by intros ??? [= _ <-]. Qed.
Lemma keeps_fail {A} e : keeps_records (dfail (A := A) e).
Proof. apply keeps_tables. by intros ??? [= _ <-]. Qed.
Lemma keeps_get : keeps_records dget.
Proof. apply keeps_tables. by intros ??? [= _ <-]. Qed.

Ltac keep :=
  repeat first
    [ apply keeps_ret | apply keeps_fail | apply keeps_lift | apply keeps_get
    | apply keeps_insert_collection | apply keeps_update_collection | apply keeps_clear_files
    | apply keeps_insert_log_row | apply keeps_prune_logs | apply keeps_upsert_hint
    | apply keeps_update_path; [done]
    | apply keeps_transaction | apply keeps_if
    | apply keeps_bind; [|intros ?] ].

Lemma keeps_insert_log t e n : keeps_records (insert_log t e n).
Proof. unfold insert_log. keep. Qed.

(** An operation that is neither a merge nor a detachment. *)
Definition other_op (op : store_op) : Prop :=
  match op with OpRemoveCollection _ | OpMergeRecord _ _ _ _ => False | _ => True end.

Lemma keeps_run_op op : other_op op -> keeps_records (run_op op).
Proof.
  intros Hop. destruct op; simpl in *; try done;
    unfold forget, add_collection, replace_collection_path, complete_collection_scan, query_resolved_root,
      set_collection_scan_status, set_collection_watch_status, mark_repair_required_and_log,
      set_materialized_fingerprint, update_materialized_fingerprint, mark_materialized_and_log,
      mark_tombstone_materialized_and_log, replace_peer_hint, replace_peer_hint_in, append_log;
    try (keep; apply keeps_insert_log).
  apply keeps_transaction. intros db r db' E. unfold dbind, dget, dput in E.
  intros k. by rewrite (keeps_insert_log _ _ _ _ _ _ E k).
Qed.

(** The winners after any operation but a detachment. *)
Lemma run_op_winners op db res db' :
  db_wf db -> op_ok op -> run_op op db = (res, db') ->
  match op with
  | OpRemoveCollection _ => True
  | OpMergeRecord r _ _ _ => winners db' = merge_map (winners db) r \/ winners db' = winners db
  | _ => winners db' = winners db
  end.
Proof.
  intros Hw Hop E. destruct op; simpl in Hop; try done;
    try (by eapply (keeps_winners (run_op _)); [apply keeps_run_op | exact E]).
  simpl in E. unfold forget, dbind in E.
  destruct (merge_record r observed_ns source max_logs db) as [[b|e] db1] eqn:Em.
  - injection E as _ <-. left. by destruct (merge_record_refines _ _ _ _ _ _ _ Hw Hop Em) as (_ & ? & _).
  - injection E as _ <-. apply transaction_Err in Em as ->. by right.
Qed.

(** ** Queries *)

Lemma select_rows_sorted db c : StronglySorted (key_lt fst) (select_rows db c).
Proof.
  unfold select_rows. pose proof (items_sorted (path_records_t db)) as Hs.
  induction Hs as [|x l Hl IH Hx]; simpl; [constructor|]. case_match; [|done].
  constructor; [done|]. rewrite Forall_forall in *. intros y Hy.
  apply list_elem_of_In, filter_In in Hy as [Hy _]. apply Hx. by apply list_elem_of_In.
Qed.

(** The records of a collection, in path order. *)
Lemma records_ok db c :
  db_wf db ->
  exists rs, records c db = (Ok rs, db) /\
    (forall r, r ∈ rs <-> rec_collection r = c /\ winners db !! index_of r = Some r) /\
    StronglySorted (key_lt index_of) rs.
Proof.
  intros Hw. pose proof (select_rows_ok db c Hw) as Hrows.
  destruct (decode_records_ok _ _ Hrows) as (rs & E & Hf). exists rs.
  split; [unfold records, dbind, dget, dlift; by rewrite E|]. split.
  - intros r. split.
    + intros Hr. apply list_elem_of_lookup in Hr as [i Hi].
      destruct (Forall2_lookup_r _ _ _ _ _ Hf Hi) as ([k row] & Hk & Hh). simpl in Hh.
      assert ((k, row) ∈ select_rows db c) as Hin by by eapply list_elem_of_lookup_2.
      rewrite Forall_forall in Hrows. pose proof (Hrows _ Hin) as [Hc _]. simpl in Hc.
      unfold select_rows in Hin. apply list_elem_of_In, filter_In in Hin as [Hin _].
      apply list_elem_of_In, items_elem in Hin.
      pose proof Hh as (_ & Hidx & _). rewrite Hidx. split; [by rewrite <-Hc, <-Hidx|].
      by eapply winners_lookup.
    + intros [Hc Hwin]. pose proof (winners_row db (index_of r) Hw) as Hrow.
      destruct (path_records_t db !! index_of r) as [row|] eqn:Erow; [|congruence].
      destruct Hrow as (r' & E' & Hh). assert (r' = r) as -> by congruence.
      assert ((index_of r, row) ∈ select_rows db c) as Hin.
      { unfold select_rows. apply list_elem_of_In, filter_In. split.
        - by apply list_elem_of_In, items_elem.
        - by apply bool_decide_eq_true. }
      apply list_elem_of_lookup in Hin as [i Hi].
      destruct (Forall2_lookup_l _ _ _ _ _ Hf Hi) as (r' & Hr' & Hh').
      assert (r' = r) as ->; [|by eapply list_elem_of_lookup_2].
      pose proof (winners_lookup db _ _ _ Erow Hh'). simpl in *. congruence.
  - pose proof (select_rows_sorted db c) as Hs. clear -Hs Hf. revert rs Hf.
    induction Hs as [|x l Hl IH Hx]; intros rs Hf; inversion Hf as [|? r ? rs' Hr Hf']; subst; constructor; auto.
    rewrite Forall_forall in Hx. apply Forall_forall. intros r' Hr'.
    apply list_elem_of_lookup in Hr' as [i Hi].
    destruct (Forall2_lookup_r _ _ _ _ _ Hf' Hi) as (y & Hy & Hh).
    apply list_elem_of_lookup_2, Hx in Hy. unfold key_lt in *.
    destruct Hr as (_ & -> & _), Hh as (_ & -> & _). done.
Qed.

(** ** Pages of the log *)

Lemma decode_log_rows_iff rows ls :
  decode_log_rows rows = Ok ls <-> Forall2 (fun row l => decode_operational_log_row row = Ok l) rows ls.
Proof.
  revert ls. induction rows as [|row rows IH]; intros ls; simpl.
  - split; [intros [= <-]; constructor | by inversion 1].
  - rewrite rbind_Ok. split.
    + intros (l & Hl & E). apply rbind_Ok in E as (ls' & E & [= <-]). constructor; [done|]. by apply IH.
    + inversion 1 as [|? l ? ls' Hl Hls]; subst. exists l. split; [done|]. apply IH in Hls. by rewrite Hls.
Qed.

Lemma decode_log_id row l : decode_operational_log_row row = Ok l -> ol_id l = log_id row.
Proof. unfold decode_operational_log_row. intros E. by inv_ok. Qed.

Lemma decode_log_filter (f : Z -> bool) rows ls :
  decode_log_rows rows = Ok ls ->
  decode_log_rows (List.filter (fun row => f (log_id row)) rows)
  = Ok (List.filter (fun l => f (ol_id l)) ls).
Proof.
  rewrite !decode_log_rows_iff. induction 1 as [|row l rows ls Hl _ IH]; simpl; [constructor|].
  rewrite (decode_log_id _ _ Hl). destruct (f (log_id row)); [by constructor | done].
Qed.

Lemma decode_log_take n rows ls :
  decode_log_rows rows = Ok ls -> decode_log_rows (take n rows) = Ok (take n ls).
Proof. rewrite !decode_log_rows_iff. apply Forall2_take. Qed.

Definition ids_ascend (ls : list OperationalLog) : Prop := StronglySorted Z.lt (map ol_id ls).

Lemma ids_ascend_filter f ls : ids_ascend ls -> ids_ascend (List.filter f ls).
Proof.
  unfold ids_ascend. induction ls as [|l ls IH]; simpl; [done|]. inversion 1 as [|? ? Hs Hf]; subst.
  destruct (f l); [|auto]. simpl. constructor; [auto|]. rewrite Forall_forall in *. intros i Hi.
  apply Hf. apply list_elem_of_fmap in Hi as (l' & -> & Hl'). apply list_elem_of_fmap_2.
  apply list_elem_of_In, filter_In in Hl' as [? _]. by apply list_elem_of_In.
Qed.

(** What comes after the last entry of a prefix is the rest. *)
Lemma filter_after_last T D l :
  ids_ascend (T ++ D) -> last T = Some l -> List.filter (fun x => ol_id l <? ol_id x) (T ++ D) = D.
Proof.
  revert T. assert (forall D, Forall (fun x => ol_id l < ol_id x) D ->
    List.filter (fun x => ol_id l <? ol_id x) D = D) as Hall.
  { induction 1 as [|x D' Hx _ IH]; simpl; [done|]. by rewrite (proj2 (Z.ltb_lt _ _) Hx), IH. }
  unfold ids_ascend. induction T as [|x T IH]; intros Hs Hl; [done|]. simpl in Hs.
  inversion Hs as [|? ? Hs' Hf]; subst. destruct T as [|y T].
  - injection Hl as ->. simpl in *. rewrite Z.ltb_irrefl. apply Hall.
    clear -Hf. induction D as [|d D IHD]; inversion Hf; subst; constructor; auto.
  - rewrite last_cons_cons in Hl. specialize (IH Hs' Hl). cbn [app List.filter].
    assert (ol_id x < ol_id l) as Hx.
    { rewrite Forall_forall in Hf. apply Hf. apply last_Some_elem_of in Hl.
      rewrite map_app. apply elem_of_app. left. by apply (list_elem_of_fmap_2 ol_id). }
    rewrite (proj2 (Z.ltb_ge _ _)) by lia. exact IH.
Qed.

Lemma filter_filter_after after next ls :
  after <= next ->
  List.filter (fun x : OperationalLog => next <? ol_id x)
    (List.filter (fun x => after <? ol_id x) ls)
  = List.filter (fun x => next <? ol_id x) ls.
Proof.
  intros Hle. induction ls as [|l ls IH]; simpl; [done|].
  destruct (Z.ltb_spec after (ol_id l)); simpl.
  - by rewrite IH.
  - rewrite IH, (proj2 (Z.ltb_ge _ _)) by lia. done.
Qed.

Lemma page_rest after n ls :
  ids_ascend ls -> (0 < n)%nat ->
  let rest := List.filter (fun x => after <? ol_id x) ls in
  let next := match last (take n rest) with Some l => ol_id l | None => after end in
  List.filter (fun x => next <? ol_id x) ls = drop n rest.
Proof.
  intros Hs Hn rest next. assert (ids_ascend rest) as Hr by by apply ids_ascend_filter.
  destruct (last (take n rest)) as [l|] eqn:El.
  - rewrite <-(filter_filter_after after next).
    + fold rest. rewrite <-(take_drop n rest) at 1. apply filter_after_last; [by rewrite take_drop | done].
    + apply last_Some_elem_of in El. assert (l ∈ rest) as Hin.
      { rewrite <-(take_drop n rest). apply elem_of_app. by left. }
      apply list_elem_of_In, filter_In in Hin as [_ Hlt]. subst next. boolp. lia.
  - apply last_None in El. subst next. fold rest. destruct rest as [|x rest']; [by rewrite drop_nil|].
    destruct n; [lia | done].
Qed.
End laws.
