(* ===== verification/StateProps.v ===== *)
(** The properties of the store, each from the lemmas of StateLaws.v, and
    examples of them on a small database. *)

From S2P Require Import Prelude Bytes Utf8 Cursor Canonical Path Identity Concrete Records Winners Roster.
From S2P Require Import Database State StateLaws.

Section properties.
Context `{Crypto, EventJson}.

(** C5: Stores converge.  Two devices that start from well-formed stores and
    merge records in any order and any number of times end with the same record
    for every path as soon as they have seen the same records, whatever each
    had stored before, when the hash separates the records involved. *)
Theorem stores_converge all db1 calls1 n1 db1' db2 calls2 n2 db2' :
  db_wf db1 -> Forall (fun c => record_wf (mc_record c)) calls1 -> merge_all calls1 n1 db1 = (Ok tt, db1') ->
  db_wf db2 -> Forall (fun c => record_wf (mc_record c)) calls2 -> merge_all calls2 n2 db2 = (Ok tt, db2') ->
  hash_separates all -> (forall r, seen db1 calls1 r -> r ∈ all) ->
  (forall r, seen db1 calls1 r <-> seen db2 calls2 r) ->
  winners db1' = winners db2'.
Proof.
  intros Hw1 Hc1 E1 Hw2 Hc2 E2 Hsep Hall Hseen.
  apply (represents_unique (seen db1 calls1) (seen db2 calls2) _ _ all); auto.
  - by apply (merge_all_represents _ n1 _ _ Hw1 Hc1).
  - by apply (merge_all_represents _ n2 _ _ Hw2 Hc2).
Qed.

(** [merge_record] refines the step of the last-writer-wins map: it reports
    whether the record beats the current one, and exactly then stores it, with
    its fingerprint when this device made it and to be materialized when a peer
    sent it; everything else of the records stays. *)
Theorem merge_record_refines_winner r t p n db b db' :
  db_wf db -> record_wf r -> merge_record r t p n db = (Ok b, db') ->
  db_wf db' /\ b = beats r (winners db !! index_of r) /\ winners db' = merge_map (winners db) r /\
  path_records_t db' = (if b then <[index_of r := record_row r (bool_decide (p = None))]> (path_records_t db)
                        else path_records_t db) /\
  collections_t db' = collections_t db.
Proof.
  intros Hw Hr E. split; [by eapply (preserves_merge_record r t p n) |].
  by apply (merge_record_refines r t p n).
Qed.

(** A merge into an attached collection succeeds whenever its event can be
    logged; otherwise it fails and changes nothing. *)
Theorem merge_record_total r t p n db :
  db_wf db -> record_wf r -> is_Some (collections_t db !! rec_collection r) ->
  let event := merge_event r p (winners db !! index_of r) (beats r (winners db !! index_of r)) in
  ((exists payload, loggable db event n payload) ->
   exists db', merge_record r t p n db = (Ok (beats r (winners db !! index_of r)), db')) /\
  (forall e db', merge_record r t p n db = (Err e, db') -> db' = db).
Proof.
  intros Hw Hr Hc event. split.
  - intros [payload Hl]. by apply (merge_record_succeeds r t p n db payload).
  - intros e db'. apply transaction_Err.
Qed.


(** Every operation of the store is atomic: when it returns an error the
    database is unchanged. *)
Theorem store_atomic op db e db' : run_op op db = (Err e, db') -> db' = db.
Proof. apply atomic_run_op. Qed.

(** Until its collection is detached, a path never loses its record, and
    the record only ever changes to one that is greater in the winner order. *)
Theorem store_winners_monotone op db res db' k old :
  db_wf db -> op_ok op -> run_op op db = (res, db') ->
  (forall name, op <> OpRemoveCollection name) -> winners db !! k = Some old ->
  exists new, winners db' !! k = Some new /\ ole (winner_key old) (winner_key new).
Proof.
  intros Hw Hop E Hrm Hk. pose proof (run_op_winners op db res db' Hw Hop E) as Hwin.
  assert (winners db' = winners db -> exists new, winners db' !! k = Some new /\
    ole (winner_key old) (winner_key new)) as Hsame.
  { intros ->. exists old. split; [done|]. apply ole_lt_eq. by right. }
  destruct op; auto; [by destruct (Hrm name)|]. destruct Hwin as [->|?]; [|by apply Hsame].
  apply merge_map_monotone; [by apply winners_indexed | done].
Qed.

(** A well-formed store can be read: the records of a collection are its
    winners in strict path order, states say of each whether it is materialized
    and carry a fingerprint exactly for materialized files, and the collections
    are listed under their names. *)
Theorem store_reads db c :
  db_wf db ->
  (exists rs, records c db = (Ok rs, db) /\
    (forall r, r ∈ rs <-> rec_collection r = c /\ winners db !! index_of r = Some r) /\
    StronglySorted (key_lt index_of) rs) /\
  (exists ss, record_states c db = (Ok ss, db) /\
    Forall (fun s => is_Some (prs_fingerprint s) <->
      rec_kind (prs_record s) <> Tombstone /\ prs_materialized s = true) ss) /\
  (exists cs, collections db = (Ok cs, db) /\ map cs_name cs = map fst (items (collections_t db))).
Proof.
  intros Hw. split; [by apply records_ok|]. split.
  - destruct (decode_states_ok _ _ (select_rows_ok db c Hw)) as (ss & E & Hf). exists ss.
    split; [unfold record_states, dbind, dget, dlift; by rewrite E|].
    apply Forall_forall. intros s Hs. apply list_elem_of_lookup in Hs as [i Hi].
    by destruct (Forall2_lookup_r _ _ _ _ _ Hf Hi) as (x & _ & _ & _ & ?).
  - destruct (decode_collections_ok (items (collections_t db))) as (cs & E & Hn).
    { apply Forall_forall. intros [name row] Hin%items_elem. by apply (wf_collections db Hw). }
    exists cs. split; [unfold collections, dbind, dget, dlift; by rewrite E | done].
Qed.

(** Logging appends one entry with a fresh identifier and keeps the last
    [max_logs] entries: the log is bounded, the new entry is the last one when
    the bound is positive, and what is dropped is oldest first. *)
Theorem log_bounded t e n db db' :
  append_log t e n db = (Ok tt, db') -> 0 <= n ->
  len (logs_t db') <= n /\
  exists payload dropped,
    event_to_json e = Some payload /\
    dropped ++ logs_t db' = logs_t db ++ [mkLogRow (log_sequence db + 1) t payload] /\
    (0 < n -> last (logs_t db') = Some (mkLogRow (log_sequence db + 1) t payload)).
Proof.
  intros (payload & (_ & Hp & _) & ->)%transaction_Ok%insert_log_Ok Hn. unfold logged.
  set (rows := logs_t db ++ _). cbn [logs_t set_logs]. split.
  - unfold len. rewrite length_drop. lia.
  - exists payload, (take (length rows - Z.to_nat n) rows). split; [done|].
    split; [apply take_drop|]. intros Hpos. unfold rows. rewrite drop_app_le; [apply last_snoc|].
    rewrite length_app. simpl. lia.
Qed.

(** A scan that finds the collection at another root leaves none of its
    files materialized; a scan that finds the same root leaves the records as
    they were.  Either way the collection is active at that root. *)
Theorem scan_root_change name local_path root db changed db' :
  complete_collection_scan name local_path root db = (Ok changed, db') ->
  (exists row, collections_t db !! name = Some row /\
    changed = bool_decide (col_resolved_root row <> Some root) /\
    collections_t db' !! name = Some (mkCollectionRow local_path (Some root) (lit "active") (col_watch_status row))) /\
  (changed = false -> path_records_t db' = path_records_t db) /\
  (changed = true -> forall path row, path_records_t db' !! (name, path) = Some row ->
    row_kind row = 1 -> row_materialized row = false) /\
  (forall k, k.1 <> name -> path_records_t db' !! k = path_records_t db !! k).
Proof.
  intros E. unfold complete_collection_scan in E. apply (proj1 (transaction_Ok _ _ _ _)) in E.
  apply dbind_Ok in E as (previous & db1 & Hq & E). unfold query_resolved_root, dbind, dget, dlift in Hq.
  injection Hq as Hq <-. apply ok_or_Ok in Hq. destruct (collections_t db !! name) as [row|] eqn:Erow; [|done].
  injection Hq as <-. cbv zeta in E. apply dbind_Ok in E as (u & db2 & Hu & E).
  unfold update_collection_row, dbind, dget in Hu. rewrite Erow in Hu. cbv beta iota in Hu.
  destruct (negb _) in Hu; [done|].
  injection Hu as _ <-. apply dbind_Ok in E as ([] & db3 & Hc & E). injection E as <- <-.
  destruct (bool_decide _) eqn:Hb.
  - injection Hc as <-. cbn [collections_t path_records_t set_path_records set_collections].
    split; [exists row; by rewrite lookup_insert_eq|]. split; [done|]. split.
    + intros _ path row' Hk Hkind. rewrite map_lookup_imap in Hk.
      destruct (path_records_t db !! (name, path)) as [row0|]; [|done]. simpl in Hk.
      rewrite bool_decide_eq_true_2 in Hk by done. simpl in Hk. simplify_eq.
      destruct (row_kind row0 =? 1) eqn:Ek; [done|]. boolp. congruence.
    + intros k Hk. rewrite map_lookup_imap. rewrite bool_decide_eq_false_2 by done.
      by destruct (path_records_t db !! k).
  - injection Hc as <-. cbn [collections_t path_records_t set_collections].
    split; [exists row; by rewrite lookup_insert_eq|]. split; [done|]. split; [done|]. done.
Qed.

(** Reading the log page by page loses nothing: a page holds the first
    entries after the cursor, at most 64 of them, says whether there are more,
    and the entries after the cursor it returns are exactly those that follow
    the page. *)
Theorem logs_page_exact `{!EventJsonLaws} after limit db :
  db_wf db ->
  exists ls page, logs db = (Ok ls, db) /\ logs_page after limit db = (Ok page, db) /\
    let size := Z.to_nat (Z.max 1 (Z.min 64 limit)) in
    let rest := List.filter (fun l => after <? ol_id l) ls in
    page_logs page = take size rest /\
    page_has_more page = bool_decide (drop size rest <> []) /\
    List.filter (fun l => page_next_after_id page <? ol_id l) ls = drop size rest.
Proof.
  intros Hw. destruct (wf_logs db Hw) as (_ & Hs & Hf).
  destruct (decode_log_rows_ok (logs_t db)) as (ls & E & Hids).
  { eapply Forall_impl; [exact Hf|]. by intros row [_ ?]. }
  set (lim := Z.max 1 (Z.min 64 limit)). assert (1 <= lim <= 64) as Hlim by lia.
  set (rest := List.filter (fun l => after <? ol_id l) ls).
  assert (decode_log_rows (take (Z.to_nat (lim + 1))
    (List.filter (fun row => after <? log_id row) (logs_t db))) = Ok (take (Z.to_nat (lim + 1)) rest)) as Ed
    by by apply decode_log_take, (decode_log_filter (fun i => after <? i)).
  assert (take (Z.to_nat lim) (take (Z.to_nat (lim + 1)) rest) = take (Z.to_nat lim) rest) as Et
    by (rewrite take_take; f_equal; lia).
  eexists ls, (mkLogPage _ _ _). split; [unfold logs, dbind, dget, dlift; by rewrite E|]. split.
  { unfold logs_page, dbind, dget, dlift, dret. fold lim. unfold i64_try_from.
    rewrite kind_size_i64 by lia. cbn [ok_or]. rewrite Ed. reflexivity. }
  cbn [page_logs page_has_more page_next_after_id]. rewrite Et. split; [done|]. split.
  - apply eq_bool_prop_intro. rewrite bool_decide_spec, Is_true_true, Z.ltb_lt. unfold len.
    rewrite length_take. rewrite <-length_zero_iff_nil, length_drop. fold rest. lia.
  - apply page_rest; [|lia]. unfold ids_ascend. by rewrite Hids.
Qed.
End properties.

(** ** Examples *)

Section examples.
#[local] Existing Instance toy_crypto.

(** A serializer that suffices to log: one byte per event. *)
Definition terse_json : EventJson := {|
  event_to_json := fun _ => Some (lit "x");
  event_from_json := fun _ => None;
|}.

(** A lawful one, for the events of the daemon. *)
Definition daemon_json : EventJson := {|
  event_to_json := fun e => match e with DaemonStarted => Some (lit "1") | DaemonStopped => Some (lit "0") | _ => None end;
  event_from_json := fun p =>
    if bool_decide (p = lit "1") then Some DaemonStarted
    else if bool_decide (p = lit "0") then Some DaemonStopped else None;
|}.

Lemma daemon_json_laws : @EventJsonLaws daemon_json.
Proof. split. intros [] payload Hp; simpl in Hp; try done; injection Hp as <-; reflexivity. Qed.

#[local] Existing Instance terse_json.

Definition attach_docs : store_op := OpAddCollection (lit "docs") (lit "/docs") (Some (lit "/docs")).
Definition docs_db : Database := run_ops [attach_docs] empty_database.

Lemma docs_db_wf : db_wf docs_db.
Proof. apply preserves_run_ops; [by repeat constructor | apply empty_database_wf]. Qed.

Definition call (r : record) : merge_call := mkMerge r 0 (Some (toy_endpoint "009"%byte)).
Definition calls_1 : list merge_call := [call example_a; call example_b; call example_a'].
Definition calls_2 : list merge_call := [call example_a'; call example_a; call example_b; call example_a].
Definition final (calls : list merge_call) : Database := (merge_all calls 10 docs_db).2.

Lemma example_records_wf : Forall record_wf [example_a; example_b; example_a'].
Proof. evaluate. Qed.

Lemma calls_wf calls :
  map mc_record calls ⊆ [example_a; example_b; example_a'] -> Forall (fun c => record_wf (mc_record c)) calls.
Proof.
  intros Hsub. apply Forall_forall. intros c Hc. pose proof example_records_wf as Hr.
  rewrite Forall_forall in Hr. apply Hr, Hsub. by apply list_elem_of_fmap_2.
Qed.

Lemma merge_all_runs calls :
  bool_decide ((merge_all calls 10 docs_db).1 = Ok tt) = true ->
  merge_all calls 10 docs_db = (Ok tt, final calls).
Proof. intros E%bool_decide_eq_true. unfold final. destruct (merge_all calls 10 docs_db). simpl in *. by subst. Qed.

Lemma docs_seen calls r : seen docs_db calls r <-> r ∈ map mc_record calls.
Proof.
  assert (winners docs_db = ∅) as E by evaluate.
  unfold seen, stored. rewrite E, lookup_empty. naive_solver.
Qed.

Lemma stores_converge_witness : winners (final calls_1) = winners (final calls_2).
Proof.
  apply (stores_converge [example_a; example_b; example_a'] docs_db calls_1 10 _ docs_db calls_2 10).
  - apply docs_db_wf.
  - apply calls_wf. set_solver.
  - apply merge_all_runs. vm_compute. reflexivity.
  - apply docs_db_wf.
  - apply calls_wf. set_solver.
  - apply merge_all_runs. vm_compute. reflexivity.
  - split; [apply example_records_wf|]. apply collision_free_decide. by vm_compute.
  - intros r. rewrite docs_seen. cbn [map calls_1 call mc_record]. tauto.
  - intros r. rewrite !docs_seen. cbn [map calls_1 calls_2 call mc_record].
    generalize example_a, example_a', example_b. clear. intros. rewrite !elem_of_cons, !elem_of_nil. tauto.
Defined.

Definition merged_db : Database := final [call example_a].

Lemma merged_db_wf : db_wf merged_db.
Proof.
  apply (merge_all_refines [call example_a] 10 docs_db); [apply docs_db_wf | |].
  - apply Forall_singleton. evaluate.
  - apply merge_all_runs. vm_compute. reflexivity.
Qed.

(** A run that succeeds, by its result alone. *)
Lemma runs {A} (m : Db A) db : is_ok (m db).1 = true -> exists a, m db = (Ok a, (m db).2).
Proof. destruct (m db) as [[a|e] db']; [by exists a | done]. Qed.

Lemma merge_record_refines_winner_witness :
  winners merged_db = merge_map (winners docs_db) example_a.
Proof.
  destruct (runs (merge_all [call example_a] 10) docs_db) as [[] E]; [vm_compute; reflexivity|].
  unfold merged_db, final. revert E. generalize (merge_all [call example_a] 10 docs_db).2. intros db' E.
  cbn [merge_all call mc_record mc_source mc_observed_ns] in E. apply dbind_Ok in E as (b & db1 & E & [= ->]).
  apply (merge_record_refines_winner example_a 0 (Some (toy_endpoint "009"%byte)) 10 docs_db b).
  - apply docs_db_wf.
  - evaluate.
  - exact E.
Defined.

Lemma merge_record_total_witness :
  exists db', merge_record example_a 0 None 10 docs_db = (Ok (beats example_a (winners docs_db !! index_of example_a)), db').
Proof.
  apply (merge_record_total example_a 0 None 10 docs_db).
  - apply docs_db_wf.
  - evaluate.
  - vm_compute. by eexists.
  - exists (lit "x"). split; [evaluate|]. split; [done|]. split; [done|]. by split; vm_compute.
Defined.


Lemma store_atomic_witness : (run_op (OpReplacePath (lit "docs") []) docs_db).2 = docs_db.
Proof.
  destruct (run_op (OpReplacePath (lit "docs") []) docs_db) as [[[]|e] db'] eqn:E.
  - exfalso. assert (is_ok (run_op (OpReplacePath (lit "docs") []) docs_db).1 = false) as Hf by (vm_compute; reflexivity).
    by rewrite E in Hf.
  - apply (store_atomic (OpReplacePath (lit "docs") []) docs_db e db' E).
Defined.

Lemma store_winners_monotone_witness :
  exists new, winners (run_op (OpMergeRecord example_a' 1 None 10) merged_db).2 !! index_of example_a = Some new /\
    ole (winner_key example_a) (winner_key new).
Proof.
  apply (store_winners_monotone (OpMergeRecord example_a' 1 None 10) merged_db
    (run_op (OpMergeRecord example_a' 1 None 10) merged_db).1).
  - apply merged_db_wf.
  - apply (decide_run (record_wf example_a')). by vm_compute.
  - apply surjective_pairing.
  - done.
  - evaluate.
Defined.

Lemma store_reads_witness : exists rs, records (lit "docs") merged_db = (Ok rs, merged_db).
Proof.
  destruct (store_reads merged_db (lit "docs") merged_db_wf) as [(rs & E & _) _]. by exists rs.
Defined.

Lemma log_bounded_witness : len (logs_t (append_log 5 DaemonStarted 1 merged_db).2) <= 1.
Proof.
  destruct (runs (append_log 5 DaemonStarted 1) merged_db) as [[] E]; [vm_compute; reflexivity|].
  apply (log_bounded 5 DaemonStarted 1 merged_db _ E). done.
Defined.

Lemma scan_root_change_witness :
  path_records_t (complete_collection_scan (lit "docs") (lit "/docs") (lit "/docs") merged_db).2
    !! (lit "notes", lit "a.md")
  = path_records_t merged_db !! (lit "notes", lit "a.md").
Proof.
  destruct (runs (complete_collection_scan (lit "docs") (lit "/docs") (lit "/docs")) merged_db) as [changed E];
    [vm_compute; reflexivity|].
  apply (scan_root_change (lit "docs") (lit "/docs") (lit "/docs") merged_db changed _ E). by vm_compute.
Defined.

Lemma logs_page_exact_witness :
  exists ls page, @logs daemon_json docs_db = (Ok ls, docs_db) /\
    @logs_page daemon_json 0 5 docs_db = (Ok page, docs_db).
Proof.
  destruct (@logs_page_exact toy_crypto daemon_json daemon_json_laws 0 5 docs_db) as (ls & page & El & Ep & _).
  - apply (@preserves_run_ops toy_crypto daemon_json [attach_docs]); [by repeat constructor|].
    apply (@empty_database_wf toy_crypto daemon_json).
  - exists ls, page. exact (conj El Ep).
Defined.
End examples.
