(* ===== verification/RosterStore.v ===== *)
(** state.rs: the stored roster revisions: insertion, the selected chain, and
    the changes of membership a device makes or learns. *)

From S2P Require Import Prelude Bytes Utf8 Cursor Canonical Path Identity Concrete Records Roster Database.
From S2P Require Import State.

Definition MAX_ROSTER_RETRY_DEPTH : nat := Z.to_nat 1024.

Section roster_store.
Context `{Crypto}.

Definition load_roster_revision (hash : RosterHash) : Db (option RosterRevision) :=
  db <<- dget ;;
  match roster_t db !! hash with
  | None => dret None
  | Some l =>
      dlift (
        let? revision := map_err StateRoster (from_canonical l) in
        if bool_decide (canonical_hash revision <> hash)
        then Err (InvalidStoredState "roster hash does not match canonical bytes")
        else Ok (Some revision))
  end.

Definition roster_revision (hash : RosterHash) : Db (option RosterRevision) := load_roster_revision hash.

Definition insert_roster_revision_row (revision : RosterRevision) : Db unit :=
  insert_roster_row (canonical_hash revision) (canonical_bytes revision).

Definition insert_roster_revision (revision : RosterRevision) : Db unit :=
  transaction (
    _ <<- (if rev_number revision =? 0 then
             db <<- dget ;;
             if negb (Z.of_nat (size (roster_t db)) =? 0)
             then dfail (RosterTopology "the database already contains a roster genesis")
             else dlift (map_err StateRoster (validate_genesis revision))
           else
             parent_hash <<- dlift (ok_or (rev_parent_hash revision)
                               (RosterTopology "roster child does not name a parent")) ;;
             loaded <<- load_roster_revision parent_hash ;;
             parent <<- dlift (ok_or loaded (RosterTopology "roster child parent is not stored")) ;;
             dlift (map_err StateRoster (validate_child revision parent))) ;;
    insert_roster_revision_row revision).

(** The rows, decoded into a map ordered by hash. *)
Fixpoint decode_revisions (rows : list (RosterHash * bytes)) : result (list (RosterHash * RosterRevision)) StateError :=
  match rows with
  | [] => Ok []
  | (hash, l) :: rows =>
      let? revision := map_err StateRoster (from_canonical l) in
      if bool_decide (canonical_hash revision <> hash)
      then Err (InvalidStoredState "roster hash does not match canonical bytes")
      else
        let? revisions := decode_revisions rows in
        Ok ((hash, revision) :: revisions)
  end.

Definition is_root (revision : RosterRevision) : bool :=
  (rev_number revision =? 0) && bool_decide (rev_parent_hash revision = None).

(** The loop that validates every revision but the genesis against its parent. *)
Fixpoint check_topology (revisions : gmap RosterHash RosterRevision) (genesis : RosterRevision)
    (rest : list RosterRevision) : result unit StateError :=
  match rest with
  | [] => Ok tt
  | revision :: rest =>
      if bool_decide (canonical_hash revision = canonical_hash genesis)
      then check_topology revisions genesis rest
      else if bool_decide (rev_group_id revision <> rev_group_id genesis)
      then Err (RosterTopology "database contains more than one group")
      else
        let? parent_hash := ok_or (rev_parent_hash revision)
                              (RosterTopology "non-genesis roster revision has no parent") in
        let? parent := ok_or (revisions !! parent_hash)
                         (RosterTopology "roster revision parent is missing") in
        let? _ := map_err StateRoster (validate_child revision parent) in
        check_topology revisions genesis rest
  end.

Definition select_stored (rows : list (RosterHash * bytes)) : result (list RosterRevision) StateError :=
  let? pairs := decode_revisions rows in
  let revisions := list_to_map pairs : gmap RosterHash RosterRevision in
  let values := map snd pairs in
  if bool_decide (values = []) then Ok []
  else
    match List.filter is_root values with
    | [] => Err (RosterTopology "roster genesis is missing")
    | genesis :: others =>
        if bool_decide (others <> []) then Err (RosterTopology "database contains more than one roster genesis")
        else
          let? _ := map_err StateRoster (validate_genesis genesis) in
          let? _ := check_topology revisions genesis values in
          let candidates := List.filter
            (fun revision => bool_decide (canonical_hash revision <> canonical_hash genesis)) values in
          let? selected := map_err StateRoster (select_chain genesis candidates) in
          Ok (genesis :: selected)
    end.

Definition selected_roster_chain : Db (list RosterRevision) :=
  db <<- dget ;; dlift (select_stored (items (roster_t db))).

(** [for pair in revisions.windows(2)] *)
Fixpoint validate_windows (parent : RosterRevision) (revisions : list RosterRevision) : result unit StateError :=
  match revisions with
  | [] => Ok tt
  | revision :: revisions =>
      let? _ := map_err StateRoster (validate_child revision parent) in
      validate_windows revision revisions
  end.

Fixpoint merge_revisions (revisions : list RosterRevision) : Db unit :=
  match revisions with
  | [] => dret tt
  | revision :: revisions =>
      present <<- roster_revision (canonical_hash revision) ;;
      _ <<- (if bool_decide (present = None) then insert_roster_revision revision else dret tt) ;;
      merge_revisions revisions
  end.

Definition merge_selected_roster_chain (revisions : list RosterRevision) : Db unit :=
  match revisions with
  | [] => dfail (RosterTopology "remote roster is empty")
  | remote_genesis :: rest =>
      _ <<- dlift (map_err StateRoster (validate_genesis remote_genesis)) ;;
      _ <<- dlift (validate_windows remote_genesis rest) ;;
      local <<- selected_roster_chain ;;
      match local with
      | [] => dfail (RosterTopology "local roster genesis is missing")
      | local_genesis :: _ =>
          if bool_decide (canonical_hash remote_genesis <> canonical_hash local_genesis)
          then dfail (RosterTopology "remote roster genesis differs")
          else merge_revisions rest
      end
  end.

Definition roster_change_is_satisfied (revision : RosterRevision) (change : RosterChange) : bool :=
  match change with
  | Initialize member => bool_decide (rev_members revision !! member_id member = Some (member_name member))
  | Admit member => bool_decide (is_Some (rev_members revision !! member_id member))
  | Remove endpoint_id => bool_decide (rev_members revision !! endpoint_id = None)
  end.

Definition insert_if_absent (revision : RosterRevision) : Db unit :=
  present <<- load_roster_revision (canonical_hash revision) ;;
  if bool_decide (present = None) then insert_roster_revision_row revision else dret tt.

Definition replace_hint (peer_hint : option (EndpointId * bytes)) : Db unit :=
  match peer_hint with
  | Some (endpoint, hint) => replace_peer_hint_in endpoint hint
  | None => dret tt
  end.

(** One round of the loop: [Some] is a return, [None] another round. *)
Definition change_round (identity : DeviceIdentity) (change : RosterChange)
    (peer_hint : option (EndpointId * bytes)) : Db (option RosterRevision) :=
  chain <<- selected_roster_chain ;;
  parent <<- dlift (ok_or (last chain) (RosterTopology "roster genesis is missing")) ;;
  if roster_change_is_satisfied parent change then
    _ <<- (match peer_hint with Some _ => transaction (replace_hint peer_hint) | None => dret tt end) ;;
    dret (Some parent)
  else
    revision <<- dlift (map_err StateRoster (child parent change identity)) ;;
    _ <<- transaction (
            _ <<- insert_if_absent revision ;;
            replace_hint peer_hint) ;;
    selected <<- selected_roster_chain ;;
    selected_tip <<- dlift (ok_or (last selected) (RosterTopology "roster genesis is missing")) ;;
    if roster_change_is_satisfied selected_tip change then dret (Some selected_tip) else dret None.

Fixpoint change_rounds (rounds : nat) (identity : DeviceIdentity) (change : RosterChange)
    (peer_hint : option (EndpointId * bytes)) : Db RosterRevision :=
  match rounds with
  | O => dfail RosterRetryLimit
  | S rounds =>
      outcome <<- change_round identity change peer_hint ;;
      match outcome with
      | Some revision => dret revision
      | None => change_rounds rounds identity change peer_hint
      end
  end.

Definition apply_roster_change_inner (identity : DeviceIdentity) (change : RosterChange)
    (peer_hint : option (EndpointId * bytes)) : Db RosterRevision :=
  change_rounds (S MAX_ROSTER_RETRY_DEPTH) identity change peer_hint.

Definition apply_roster_change (identity : DeviceIdentity) (change : RosterChange) : Db RosterRevision :=
  apply_roster_change_inner identity change None.

Definition apply_roster_change_with_peer_hint (identity : DeviceIdentity) (change : RosterChange)
    (hint_endpoint : EndpointId) (hint : bytes) : Db RosterRevision :=
  _ <<- dlift (validate_peer_hint hint) ;;
  apply_roster_change_inner identity change (Some (hint_endpoint, hint)).

Fixpoint validate_hints (peer_hints : list (EndpointId * bytes)) : result unit StateError :=
  match peer_hints with
  | [] => Ok tt
  | (_, hint) :: peer_hints => let? _ := validate_peer_hint hint in validate_hints peer_hints
  end.

Fixpoint insert_all_absent (revisions : list RosterRevision) : Db unit :=
  match revisions with
  | [] => dret tt
  | revision :: revisions => _ <<- insert_if_absent revision ;; insert_all_absent revisions
  end.

Fixpoint replace_hints (peer_hints : list (EndpointId * bytes)) : Db unit :=
  match peer_hints with
  | [] => dret tt
  | (endpoint, hint) :: peer_hints => _ <<- replace_peer_hint_in endpoint hint ;; replace_hints peer_hints
  end.

(** A local name that is given and not the one the revision has. *)
Definition name_differs (local_name : option bytes) (tip : RosterRevision) (local_endpoint : EndpointId) : bool :=
  match local_name with
  | Some name => bool_decide (rev_members tip !! local_endpoint <> Some name)
  | None => false
  end.
Definition cannot_resume (local_name : option bytes) (tip : RosterRevision) (local_endpoint : EndpointId) : bool :=
  match local_name with
  | Some name => bool_decide (rev_members tip !! local_endpoint <> Some name)
  | None => true
  end.

Definition install_joined_state_inner (revisions : list RosterRevision) (local_endpoint : EndpointId)
    (local_name : option bytes) (peer_hints : list (EndpointId * bytes)) (allow_resume : bool) : Db unit :=
  match revisions with
  | [] => dfail (RosterTopology "joined roster is empty")
  | genesis :: rest =>
      _ <<- dlift (map_err StateRoster (validate_genesis genesis)) ;;
      _ <<- dlift (validate_windows genesis rest) ;;
      let tip := List.last rest genesis in
      if bool_decide (rev_members tip !! local_endpoint = None)
      then dfail (RosterTopology "joined roster does not contain this device")
      else if name_differs local_name tip local_endpoint
      then dfail (RosterTopology "joined roster has a different local device name")
      else
        existing <<- selected_roster_chain ;;
        if negb allow_resume && bool_decide (existing <> [])
        then dfail (RosterTopology "local state already belongs to a group")
        else if match existing with
                | existing_genesis :: _ => bool_decide (canonical_hash existing_genesis <> canonical_hash genesis)
                | [] => false
                end
        then dfail (RosterTopology "joined roster belongs to a different group")
        else if allow_resume && match last existing with
                                | Some tip => cannot_resume local_name tip local_endpoint
                                | None => false
                                end
        then dfail (RosterTopology "local membership cannot resume this join")
        else
          _ <<- dlift (validate_hints peer_hints) ;;
          _ <<- transaction (
                  _ <<- insert_all_absent revisions ;;
                  replace_hints peer_hints) ;;
          if negb allow_resume then dret tt
          else
            selected <<- selected_roster_chain ;;
            if match last selected with
               | Some tip => cannot_resume local_name tip local_endpoint
               | None => true
               end
            then dfail (RosterTopology "selected roster cannot resume this join")
            else dret tt
  end.

Definition install_joined_state (revisions : list RosterRevision) (local_endpoint : EndpointId)
    (peer_hints : list (EndpointId * bytes)) : Db unit :=
  install_joined_state_inner revisions local_endpoint None peer_hints false.

Definition install_joined_roster_chain (revisions : list RosterRevision) (local_endpoint : EndpointId) : Db unit :=
  install_joined_state revisions local_endpoint [].

Definition install_or_resume_joined_state (revisions : list RosterRevision) (local_endpoint : EndpointId)
    (local_name : bytes) (peer_hints : list (EndpointId * bytes)) : Db unit :=
  install_joined_state_inner revisions local_endpoint (Some local_name) peer_hints true.
End roster_store.
