(* ===== verification/RosterLaws.v ===== *)
(** The stored roster: what a well-formed set of revisions is, what the store
    selects from it, and that insertion, merging, changing and joining keep it
    well-formed.  The properties are in RosterProps.v. *)

From S2P Require Import Prelude Bytes Utf8 Cursor Canonical Path Identity Concrete Records Roster.
From S2P Require Import RosterConverge Database State RosterStore.

(** The revisions of the table, in the order of their hashes. *)
Definition table_revisions (db : Database) : list RosterRevision :=
  omap (fun x => match from_canonical x.2 with Ok r => Some r | Err _ => None end) (items (roster_t db)).

Section laws.
Context `{Crypto}.
Variable universe : list RosterRevision.
Hypothesis separated : roster_separates universe.
Variable g : RosterRevision.
Hypothesis genesis_universe : g ∈ universe.
Hypothesis genesis_valid : validate_genesis g = Ok tt.

Definition holds (db : Database) (r : RosterRevision) : Prop :=
  roster_t db !! canonical_hash r = Some (canonical_bytes r).

#[global] Instance holds_dec db r : Decision (holds db r).
Proof. unfold holds. apply _. Defined.

(** A store of the group of [g]: every row is a revision under its hash, the
    genesis is there, and every other revision has its parent there. *)
Record roster_ok (db : Database) : Prop := mkRosterOk {
  ro_rows : forall h l, roster_t db !! h = Some l ->
    exists r, r ∈ universe /\ h = canonical_hash r /\ l = canonical_bytes r;
  ro_genesis : holds db g;
  ro_parents : forall r, r ∈ universe -> holds db r -> r <> g ->
    exists p, p ∈ universe /\ holds db p /\ validate_child r p = Ok tt;
  ro_group : forall r, r ∈ universe -> holds db r -> rev_group_id r = rev_group_id g;
}.

Lemma universe_ok r : r ∈ universe -> revision_ok r.
Proof. destruct separated as [Hok _]. rewrite Forall_forall in Hok. apply Hok. Qed.

Lemma genesis_number : rev_number g = 0.
Proof. by apply validate_genesis_Ok in genesis_valid as [? _]. Qed.

Lemma from_canonical_universe r : r ∈ universe -> from_canonical (canonical_bytes r) = Ok r.
Proof.
  intros [Hw Ha]%universe_ok. apply from_canonical_iff; [done|]. split; [done|]. split; [|done].
  destruct Hw as (_ & Hs & _). unfold in_u32 in Hs. boolp. unfold usize_max. lia.
Qed.

Lemma canonical_nonempty r : r ∈ universe -> (len (canonical_bytes r) =? 0) = false.
Proof.
  intros [Hw _]%universe_ok. rewrite canonical_bytes_eq, len_app by done.
  change (len ROSTER_DOMAIN) with 20. pose proof (len_nonneg (unsigned_encoding r ++ arr (rev_signature r))).
  apply Z.eqb_neq. lia.
Qed.

(** A child is not the genesis. *)
Lemma child_not_genesis r p : p ∈ universe -> validate_child r p = Ok tt -> r <> g.
Proof.
  intros Hp Hv ->. pose proof (child_number_pos universe separated g p Hp Hv) as Hn.
  rewrite genesis_number in Hn. lia.
Qed.

(** ** Decoding the table *)

Definition row_of (r : RosterRevision) : RosterHash * bytes := (canonical_hash r, canonical_bytes r).
Definition keyed (r : RosterRevision) : RosterHash * RosterRevision := (canonical_hash r, r).

Lemma decode_rows rs :
  (forall r, r ∈ rs -> r ∈ universe) -> decode_revisions (map row_of rs) = Ok (map keyed rs).
Proof.
  induction rs as [|r rs IH]; intros Hu; [done|]. cbn [map row_of decode_revisions].
  rewrite from_canonical_universe by (apply Hu; left). cbn [map_err rbind].
  rewrite bool_decide_eq_false_2 by auto. rewrite IH; [done|]. intros s Hs. apply Hu. by right.
Qed.

Lemma omap_rows rs :
  (forall r, r ∈ rs -> r ∈ universe) ->
  omap (fun x : RosterHash * bytes => match from_canonical x.2 with Ok r => Some r | Err _ => None end)
    (map row_of rs) = rs.
Proof.
  induction rs as [|r rs IH]; intros Hu; [done|]. cbn [map omap list_omap row_of snd].
  rewrite from_canonical_universe by (apply Hu; left). f_equal. apply IH. intros s Hs. apply Hu. by right.
Qed.

Lemma rows_exist (l : list (RosterHash * bytes)) :
  (forall x, x ∈ l -> exists r, r ∈ universe /\ x = row_of r) ->
  exists rs, l = map row_of rs /\ forall r, r ∈ rs -> r ∈ universe.
Proof.
  induction l as [|x l IH]; intros Hl.
  - exists []. split; [done|]. by intros r ?%not_elem_of_nil.
  - destruct (Hl x ltac:(left)) as (r & Hr & ->). destruct IH as (rs & -> & Hrs).
    { intros y Hy. apply Hl. by right. }
    exists (r :: rs). split; [done|]. intros s [->|Hs]%elem_of_cons; auto.
Qed.

Lemma table_rows db :
  roster_ok db ->
  items (roster_t db) = map row_of (table_revisions db) /\
  forall r, r ∈ table_revisions db <-> r ∈ universe /\ holds db r.
Proof.
  intros Hdb. destruct (rows_exist (items (roster_t db))) as (rs & E & Hrs).
  { intros [h l] (r & Hr & -> & ->)%items_elem%(ro_rows db Hdb). by exists r. }
  assert (table_revisions db = rs) as -> by (unfold table_revisions; rewrite E; by apply omap_rows).
  split; [done|]. intros r. split.
  - intros Hr. split; [auto|]. apply items_elem. rewrite E. by apply (list_elem_of_fmap_2 row_of rs r).
  - intros [Hr Hh]. apply items_elem in Hh. rewrite E in Hh.
    apply list_elem_of_fmap in Hh as (s & Hs & Hin). apply (f_equal fst) in Hs. cbn in Hs.
    apply (universe_hash_inj universe separated) in Hs as ->; auto.
Qed.

Lemma table_nodup db : roster_ok db -> NoDup (map canonical_hash (table_revisions db)).
Proof.
  intros [E _]%table_rows. pose proof (strict_NoDup fst _ (items_sorted (roster_t db))) as Hn.
  rewrite E, map_map in Hn. exact Hn.
Qed.

(** ** Selection from the table *)

(** The stored revisions besides the genesis, as [select_stored] filters them. *)
Definition descendants (db : Database) : list RosterRevision :=
  List.filter (fun r => bool_decide (canonical_hash r <> canonical_hash g)) (table_revisions db).

Lemma descendants_elem db r :
  roster_ok db -> r ∈ descendants db <-> r ∈ universe /\ holds db r /\ r <> g.
Proof.
  intros Hdb. unfold descendants. rewrite list_elem_of_In, filter_In, <-list_elem_of_In.
  rewrite (proj2 (table_rows db Hdb)), bool_decide_eq_true. split.
  - intros [[Hr Hh] Hne]. split; [done|]. split; [done|]. by intros ->.
  - intros (Hr & Hh & Hne). split; [done|]. intros E. apply Hne.
    by apply (universe_hash_inj universe separated).
Qed.

Lemma descendants_closed db : roster_ok db -> closed universe g (descendants db).
Proof.
  intros Hdb. split; [by intros r [? _]%descendants_elem|].
  intros r (Hr & Hh & Hne)%descendants_elem; [|done].
  destruct (ro_parents db Hdb r Hr Hh Hne) as (p & Hp & Hph & Hv). exists p. split; [|done].
  destruct (decide (p = g)) as [->|Hpg]; [left|]. right. by apply descendants_elem.
Qed.

Lemma is_root_genesis db r : roster_ok db -> r ∈ table_revisions db -> is_root r = true <-> r = g.
Proof.
  intros Hdb Hr. apply table_rows in Hr as [Hr Hh]; [|done]. split.
  - unfold is_root. intros Hroot. boolp. destruct (decide (r = g)) as [|Hne]; [done|].
    destruct (ro_parents db Hdb r Hr Hh Hne) as (p & Hp & _ & Hv).
    pose proof (child_number_pos universe separated r p Hp Hv). lia.
  - intros ->. apply validate_genesis_Ok in genesis_valid as (Hn & Hp & _).
    unfold is_root. by rewrite Hn, Hp.
Qed.

(** Filtering a list without repetition for one of its elements. *)
Lemma filter_unique (f : RosterRevision -> bool) l x :
  NoDup l -> x ∈ l -> (forall y, y ∈ l -> f y = true <-> y = x) -> List.filter f l = [x].
Proof.
  induction l as [|y l IH]; intros Hn Hx Hf; [by apply not_elem_of_nil in Hx|].
  inversion Hn as [|? ? Hy Hn']; subst. simpl.
  destruct (f y) eqn:E.
  - apply Hf in E as ->; [|left]. f_equal. clear IH Hx Hn. revert Hf Hy. induction l as [|z l IH]; intros Hf Hy; [done|].
    simpl. destruct (f z) eqn:Ez.
    + apply Hf in Ez as ->; [|right; left]. destruct Hy. left.
    + apply IH; [by inversion Hn' | |].
      * intros w Hw. apply Hf. rewrite !elem_of_cons in *. tauto.
      * intros Hin. apply Hy. by right.
  - apply IH; [done| |].
    + apply elem_of_cons in Hx as [->|]; [|done]. assert (f y = true) by (apply Hf; [left | done]). congruence.
    + intros z Hz. apply Hf. by right.
Qed.

Lemma roots_of_table db : roster_ok db -> List.filter is_root (table_revisions db) = [g].
Proof.
  intros Hdb. apply filter_unique.
  - eapply NoDup_fmap_1, (table_nodup db Hdb).
  - apply table_rows; [done|]. split; [done | apply (ro_genesis db Hdb)].
  - intros r. by apply is_root_genesis.
Qed.

Lemma table_lookup db r :
  roster_ok db -> r ∈ universe -> holds db r ->
  (list_to_map (map keyed (table_revisions db)) : gmap RosterHash RosterRevision) !! canonical_hash r = Some r.
Proof.
  intros Hdb Hr Hh. apply elem_of_list_to_map_1.
  - rewrite <-list_fmap_compose. by apply table_nodup.
  - apply (list_elem_of_fmap_2 keyed). by apply table_rows.
Qed.

Lemma topology_ok db rest :
  roster_ok db -> (forall r, r ∈ rest -> r ∈ table_revisions db) ->
  check_topology (list_to_map (map keyed (table_revisions db))) g rest = Ok tt.
Proof.
  intros Hdb. induction rest as [|r rest IH]; intros Hsub; [done|]. cbn [check_topology].
  pose proof (Hsub r ltac:(left)) as [Hr Hh]%table_rows; [|done].
  specialize (IH (fun s Hs => Hsub s (list_elem_of_further _ _ _ Hs))).
  case_bool_decide as Hg; [done|]. rewrite bool_decide_eq_false_2 by (intros E; apply E, (ro_group db); done).
  destruct (ro_parents db Hdb r Hr Hh) as (p & Hp & Hph & Hv); [by intros ->|].
  pose proof Hv as (_ & _ & _ & -> & _)%validate_child_Ok. cbn [ok_or rbind].
  rewrite table_lookup by done. cbn [ok_or rbind]. by rewrite Hv.
Qed.

(** The stored chain is the genesis and the chain selected from the rest. *)
Lemma selected_roster_chain_ok db :
  roster_ok db ->
  exists l, selected (descendants db) g l /\ selected_roster_chain db = (Ok (g :: l), db).
Proof.
  intros Hdb. destruct (select_chain_Ok g (descendants db) genesis_valid) as (l & Hl & Hs).
  exists l. split; [done|]. unfold selected_roster_chain, dbind, dget, dlift. f_equal.
  unfold select_stored. destruct (table_rows db Hdb) as [-> Htab].
  rewrite decode_rows by (intros r Hr; by apply Htab in Hr as [? _]). cbn [rbind].
  assert (map snd (map keyed (table_revisions db)) = table_revisions db) as ->
    by (rewrite map_map; apply map_id).
  rewrite bool_decide_eq_false_2.
  2: { intros E. pose proof (proj2 (Htab g) (conj genesis_universe (ro_genesis db Hdb))) as Hin.
       rewrite E in Hin. by apply not_elem_of_nil in Hin. }
  rewrite roots_of_table by done. rewrite bool_decide_eq_false_2 by auto.
  rewrite genesis_valid. cbn [map_err rbind]. rewrite topology_ok by done. cbn [rbind].
  fold (descendants db). by rewrite Hl.
Qed.

(** ** Insertion *)

(** [db'] is [db] with the revision [r] in its table. *)
Definition with_revision (db : Database) (r : RosterRevision) : Database :=
  set_roster db (<[canonical_hash r := canonical_bytes r]> (roster_t db)).

Lemma holds_with db r s :
  r ∈ universe -> s ∈ universe -> holds (with_revision db r) s <-> s = r \/ holds db s.
Proof.
  intros Hr Hs. unfold holds, with_revision. cbn [roster_t set_roster].
  destruct (decide (r = s)) as [->|Hne].
  - rewrite lookup_insert_eq. tauto.
  - rewrite lookup_insert_ne by by intros ?%(universe_hash_inj universe separated).
    split; [by right | by intros [->|]].
Qed.

Lemma with_revision_ok db r p :
  roster_ok db -> r ∈ universe -> p ∈ universe -> holds db p -> validate_child r p = Ok tt ->
  roster_ok (with_revision db r).
Proof.
  intros Hdb Hr Hp Hph Hv. split.
  - intros h l Hl. unfold with_revision in Hl. cbn [roster_t set_roster] in Hl.
    apply lookup_insert_Some in Hl as [[<- <-]|[_ Hh]]; [by exists r | by apply (ro_rows db Hdb)].
  - apply holds_with; [done..|]. right. apply (ro_genesis db Hdb).
  - intros s Hs [->|Hsh]%holds_with Hne; [| |done..].
    + exists p. split; [done|]. split; [|done]. apply holds_with; auto.
    + destruct (ro_parents db Hdb s Hs Hsh Hne) as (q & Hq & Hqh & Hqv).
      exists q. split; [done|]. split; [|done]. apply holds_with; auto.
  - intros s Hs [->|Hsh]%holds_with; [| |done..]; [|by apply (ro_group db Hdb)].
    apply validate_child_Ok in Hv as [-> _]. by apply (ro_group db Hdb).
Qed.

Lemma insert_row_absent db r :
  roster_ok db -> r ∈ universe -> ~ holds db r ->
  insert_roster_revision_row r db = (Ok tt, with_revision db r).
Proof.
  intros Hdb Hr Hn. unfold insert_roster_revision_row, insert_roster_row, dbind, dget.
  rewrite canonical_nonempty, orb_false_r by done.
  assert (roster_t db !! canonical_hash r = None) as E.
  { apply eq_None_not_Some. intros [l Hl]. pose proof Hl as (s & Hs & Hh & ->)%(ro_rows db Hdb).
    apply (universe_hash_inj universe separated) in Hh as <-; [by apply Hn | done..]. }
  rewrite E. simpl. destruct (existsb _ _) eqn:Ex; [|done]. exfalso.
  apply existsb_exists in Ex as ([h l] & Hin & El). apply bool_decide_eq_true in El. simpl in El. subst l.
  apply list_elem_of_In, elem_of_map_to_list in Hin. apply Hn. unfold holds.
  pose proof Hin as (s & Hs & -> & Hb)%(ro_rows db Hdb).
  apply canonical_bytes_inj in Hb as <-; [done | by apply universe_ok..].
Qed.

(** Loading by hash finds exactly what is held. *)
Lemma load_held db r :
  roster_ok db -> r ∈ universe ->
  load_roster_revision (canonical_hash r) db = (Ok (if bool_decide (holds db r) then Some r else None), db).
Proof.
  intros Hdb Hr. unfold load_roster_revision, dbind, dget.
  destruct (roster_t db !! canonical_hash r) as [l|] eqn:E.
  - assert (holds db r) as Hh.
    { pose proof E as (s & Hs & Hh & ->)%(ro_rows db Hdb).
      by apply (universe_hash_inj universe separated) in Hh as <-. }
    unfold holds in Hh. rewrite Hh in E. injection E as <-. unfold dlift. f_equal.
    rewrite from_canonical_universe by done. cbn [map_err rbind].
    rewrite bool_decide_eq_false_2 by auto. by rewrite bool_decide_eq_true_2.
  - unfold dret. rewrite bool_decide_eq_false_2; [done|]. unfold holds. by rewrite E.
Qed.

(** [db'] is [db] with exactly the revisions of [rs] added to its table. *)
Definition adds (db : Database) (rs : list RosterRevision) (db' : Database) : Prop :=
  roster_ok db' /\ db' = set_roster db (roster_t db') /\
  forall s, s ∈ universe -> holds db' s <-> s ∈ rs \/ holds db s.

Lemma set_roster_same db : set_roster db (roster_t db) = db.
Proof. by destruct db. Qed.

Lemma adds_nil db rs :
  roster_ok db -> (forall r, r ∈ rs -> holds db r) -> adds db rs db.
Proof.
  intros Hdb Hrs. split; [done|]. split; [by rewrite set_roster_same|]. intros s _. split; [by right|].
  intros [Hs|]; auto.
Qed.

Lemma adds_trans db rs db1 rs' db2 : adds db rs db1 -> adds db1 rs' db2 -> adds db (rs ++ rs') db2.
Proof.
  intros (_ & E1 & H1) (Hok & E2 & H2). split; [done|]. split; [by rewrite E2, E1|].
  intros s Hs. rewrite H2, H1, elem_of_app by done. tauto.
Qed.

Lemma adds_with db r p :
  roster_ok db -> r ∈ universe -> p ∈ universe -> holds db p -> validate_child r p = Ok tt ->
  adds db [r] (with_revision db r).
Proof.
  intros Hdb Hr Hp Hph Hv. split; [by apply (with_revision_ok db r p)|]. split; [done|].
  intros s Hs. rewrite holds_with, list_elem_of_singleton by done. done.
Qed.

(** A new child of a stored revision is inserted. *)
Lemma insert_child db r p :
  roster_ok db -> r ∈ universe -> p ∈ universe -> holds db p -> validate_child r p = Ok tt ->
  ~ holds db r -> insert_roster_revision r db = (Ok tt, with_revision db r).
Proof.
  intros Hdb Hr Hp Hph Hv Hn. unfold insert_roster_revision, transaction.
  rewrite (proj2 (Z.eqb_neq _ _)) by (pose proof (child_number_pos universe separated r p Hp Hv); lia).
  pose proof Hv as (_ & _ & _ & Hh & _)%validate_child_Ok. rewrite Hh.
  unfold dbind at 1 2 3 4. unfold dlift at 1. cbn [ok_or]. rewrite load_held by done.
  rewrite bool_decide_eq_true_2 by done. unfold dlift. cbn [ok_or]. rewrite Hv. cbn [map_err].
  by rewrite insert_row_absent.
Qed.

Lemma insert_if_absent_child db r p :
  roster_ok db -> r ∈ universe -> p ∈ universe -> holds db p -> validate_child r p = Ok tt ->
  exists db', insert_if_absent r db = (Ok tt, db') /\ adds db [r] db'.
Proof.
  intros Hdb Hr Hp Hph Hv. unfold insert_if_absent, dbind. rewrite load_held by done.
  destruct (decide (holds db r)) as [Hh|Hh].
  - rewrite (bool_decide_eq_true_2 _ Hh), bool_decide_eq_false_2 by done. exists db. split; [done|].
    apply adds_nil; [done|]. by intros s ->%list_elem_of_singleton.
  - rewrite (bool_decide_eq_false_2 _ Hh), bool_decide_eq_true_2 by done.
    exists (with_revision db r). split; [by apply insert_row_absent | by apply (adds_with db r p)].
Qed.

Lemma merge_revisions_chain l p db :
  roster_ok db -> p ∈ universe -> holds db p -> (forall r, r ∈ l -> r ∈ universe) -> valid_chain p l ->
  exists db', merge_revisions l db = (Ok tt, db') /\ adds db l db'.
Proof.
  revert p db. induction l as [|r l IH]; intros p db Hdb Hp Hph Hu Hl.
  - exists db. split; [done|]. apply adds_nil; [done|]. by intros s ?%not_elem_of_nil.
  - destruct Hl as [Hv Hl]. assert (r ∈ universe) as Hr by (apply Hu; left).
    assert (exists db1, (present <<- roster_revision (canonical_hash r) ;;
      if bool_decide (present = None) then insert_roster_revision r else dret tt) db = (Ok tt, db1) /\
      adds db [r] db1) as (db1 & E & Ha).
    { unfold dbind, roster_revision. rewrite load_held by done. destruct (decide (holds db r)) as [Hh|Hh].
      - rewrite (bool_decide_eq_true_2 _ Hh), bool_decide_eq_false_2 by done. exists db. split; [done|].
        apply adds_nil; [done|]. by intros s ->%list_elem_of_singleton.
      - rewrite (bool_decide_eq_false_2 _ Hh), bool_decide_eq_true_2 by done.
        exists (with_revision db r). split; [by apply (insert_child db r p) | by apply (adds_with db r p)]. }
    destruct (IH r db1) as (db2 & E2 & Ha2); [apply Ha | done | | | done |].
    + apply Ha; [done|]. left. left.
    + intros s Hs. apply Hu. by right.
    + exists db2. split; [|by apply (adds_trans db [r] db1)].
      cbn [merge_revisions]. unfold dbind in E |- *. destruct (roster_revision (canonical_hash r) db) as [[present|] db0]; [|done].
      rewrite E. done.
Qed.

Lemma windows_chain p l : valid_chain p l -> validate_windows p l = Ok tt.
Proof.
  revert p. induction l as [|r l IH]; intros p; [done|]. intros [Hv Hl]. cbn [validate_windows].
  rewrite Hv. cbn [map_err rbind]. by apply IH.
Qed.

Lemma windows_chain_inv p l : validate_windows p l = Ok tt -> valid_chain p l.
Proof.
  revert p. induction l as [|r l IH]; intros p; [done|]. cbn [validate_windows]. intros Hw. inv_ok. split; auto.
Qed.

(** Merging a chain of the group stores it, and the rest stays. *)
Lemma merge_chain_ok l db :
  roster_ok db -> (forall r, r ∈ l -> r ∈ universe) -> valid_chain g l ->
  exists db', merge_selected_roster_chain (g :: l) db = (Ok tt, db') /\ adds db l db'.
Proof.
  intros Hdb Hu Hl. destruct (merge_revisions_chain l g db) as (db' & E & Ha); [done..| | done | done |].
  { apply (ro_genesis db Hdb). }
  exists db'. split; [|done]. destruct (selected_roster_chain_ok db Hdb) as (local & _ & El).
  unfold merge_selected_roster_chain, dbind, dlift. rewrite genesis_valid. cbn [map_err].
  rewrite windows_chain by done. rewrite El. by rewrite bool_decide_eq_false_2 by auto.
Qed.

(** ** Selection after an insertion *)

Lemma selected_universe db l r : roster_ok db -> selected (descendants db) g l -> r ∈ g :: l -> r ∈ universe.
Proof.
  intros Hdb Hs [->|Hr]%elem_of_cons; [done|].
  apply (selected_elem _ _ _ r Hs) in Hr. by apply descendants_elem in Hr as [? _].
Qed.

Lemma selected_held db l r : roster_ok db -> selected (descendants db) g l -> r ∈ g :: l -> holds db r.
Proof.
  intros Hdb Hs [->|Hr]%elem_of_cons; [apply (ro_genesis db Hdb)|].
  apply (selected_elem _ _ _ r Hs) in Hr. by apply descendants_elem in Hr as (_ & ? & _).
Qed.

(** The selected chain of a store is a function of what it holds. *)
Lemma selected_sound db c :
  roster_ok db -> selected_roster_chain db = (Ok c, db) -> exists l, c = g :: l /\ selected (descendants db) g l.
Proof.
  intros Hdb E. destruct (selected_roster_chain_ok db Hdb) as (l & Hs & E'). exists l. split; [congruence | done].
Qed.

Lemma selected_complete db l :
  roster_ok db -> selected (descendants db) g l -> selected_roster_chain db = (Ok (g :: l), db).
Proof.
  intros Hdb Hs. destruct (selected_roster_chain_ok db Hdb) as (l' & Hs' & E).
  by rewrite (selected_functional _ _ _ _ Hs Hs').
Qed.

(** A new child of the selected tip becomes the new tip. *)
Lemma selected_new_tip db l r db' :
  roster_ok db -> selected (descendants db) g l -> r ∈ universe ->
  validate_child r (List.last l g) = Ok tt -> adds db [r] db' ->
  selected (descendants db') g (l ++ [r]).
Proof.
  intros Hdb Hs Hr Hv (Hdb' & _ & Hadd). pose proof (selected_valid _ _ _ Hs) as (Hvl & _ & Hend).
  rewrite select_child_None in Hend.
  assert (List.last l g ∈ universe) as Htip by apply (selected_universe db l _ Hdb Hs), last_elem.
  assert (r ∉ descendants db) as Hnew by (intros Hin; by apply (Hend r)).
  assert (forall x, x ∈ descendants db' <-> x ∈ descendants db \/ x = r) as Heq.
  { intros x. rewrite !descendants_elem by done. split.
    - intros (Hx & Hxh & Hne). apply Hadd in Hxh as [->%list_elem_of_singleton|Hxh]; [by right | by left | done].
    - intros [(Hx & Hxh & Hne)| ->]; [split; [done|]; split; [apply Hadd; auto | done]|].
      split; [done|]. split; [apply Hadd; [done|]; left; left|]. by apply (child_not_genesis r (List.last l g)). }
  apply (selected_extend universe separated (descendants db)); [|done..| |done].
  - intros x Hx. by apply descendants_elem in Hx as [? _].
  - intros x [Hx| ->]%Heq.
    + apply (no_descendants universe separated g (descendants db) r []); try done.
      * intros y Hy. by apply not_elem_of_nil in Hy.
      * apply genesis_number.
      * by apply descendants_closed.
      * by apply (child_number_pos universe separated r (List.last l g)).
      * left.
    + intros (_ & _ & Hn & _)%validate_child_Ok. lia.
Qed.

(** ** Changes *)

Lemma last_of_chain (p : RosterRevision) l : last (p :: l) = Some (List.last l p).
Proof.
  revert p. induction l as [|r l IH]; intros p; [done|]. rewrite last_of_cons.
  change (last (p :: r :: l)) with (last (r :: l)). apply IH.
Qed.

Lemma child_satisfies r p change :
  validate_child r p = Ok tt -> rev_change r = change -> roster_change_is_satisfied r change = true.
Proof.
  intros (_ & _ & _ & _ & _ & Ha & _)%validate_child_Ok <-. apply apply_change_Ok in Ha.
  unfold roster_change_is_satisfied. destruct (rev_change r) as [m|m|id]; [done|..].
  - destruct Ha as (_ & _ & ->). apply bool_decide_eq_true. rewrite lookup_insert_eq. eauto.
  - destruct Ha as (_ & ->). apply bool_decide_eq_true, lookup_delete_eq.
Qed.

(** What is true of a database with the hint written. *)
Definition hint_db (peer_hint : option (EndpointId * bytes)) (db : Database) : Database :=
  match peer_hint with
  | Some (endpoint, hint) => set_peer_hints db (<[endpoint := hint]> (peer_hints_t db))
  | None => db
  end.
Definition hint_valid (peer_hint : option (EndpointId * bytes)) : Prop :=
  match peer_hint with Some (_, hint) => validate_peer_hint hint = Ok tt | None => True end.

Lemma upsert_hint_ok e hint db :
  validate_peer_hint hint = Ok tt ->
  replace_peer_hint_in e hint db = (Ok tt, set_peer_hints db (<[e := hint]> (peer_hints_t db))).
Proof.
  unfold validate_peer_hint, MAX_PEER_HINT_BYTES. intros Hv. inv_ok. boolp.
  unfold replace_peer_hint_in, upsert_peer_hint, dbind, dget.
  assert (0 < len hint) as Hpos by (destruct hint; [done|]; rewrite len_cons; pose proof (len_nonneg hint); lia).
  assert ((1 <=? len hint) && (len hint <=? 16384) = true) as ->; [|done].
  apply andb_true_iff. split; apply Z.leb_le; lia.
Qed.

Lemma replace_hint_ok peer_hint db :
  hint_valid peer_hint -> replace_hint peer_hint db = (Ok tt, hint_db peer_hint db).
Proof. destruct peer_hint as [[e hint]|]; [|done]. apply upsert_hint_ok. Qed.

Lemma roster_ok_same db db' : roster_t db' = roster_t db -> roster_ok db -> roster_ok db'.
Proof. intros E [Hr Hg Hp Hgr]. unfold holds in *. split; unfold holds; by rewrite E. Qed.

Lemma roster_hint_db peer_hint db : roster_t (hint_db peer_hint db) = roster_t db.
Proof. by destruct peer_hint as [[e hint]|]. Qed.

Lemma select_same db db' c :
  roster_t db' = roster_t db -> selected_roster_chain db = (Ok c, db) -> selected_roster_chain db' = (Ok c, db').
Proof.
  intros E. unfold selected_roster_chain, dbind, dget, dlift. rewrite E. intros [= ->]. done.
Qed.

(** A change that already holds returns the tip and writes the hint only. *)
Lemma change_satisfied db l identity change peer_hint :
  roster_ok db -> selected (descendants db) g l -> hint_valid peer_hint ->
  roster_change_is_satisfied (List.last l g) change = true ->
  apply_roster_change_inner identity change peer_hint db = (Ok (List.last l g), hint_db peer_hint db).
Proof.
  intros Hdb Hs Hh Hsat. unfold apply_roster_change_inner. cbn [change_rounds]. unfold dbind at 1.
  unfold change_round, dbind, dlift. rewrite (selected_complete db l) by done.
  rewrite last_of_chain. cbn [ok_or]. rewrite Hsat. destruct peer_hint as [[e hint]|]; [|done].
  unfold transaction. by rewrite replace_hint_ok.
Qed.

(** A change whose child cannot be made fails with the reason, and changes nothing. *)
Lemma change_refused db l identity change peer_hint e :
  roster_ok db -> selected (descendants db) g l ->
  roster_change_is_satisfied (List.last l g) change = false ->
  child (List.last l g) change identity = Err e ->
  apply_roster_change_inner identity change peer_hint db = (Err (StateRoster e), db).
Proof.
  intros Hdb Hs Hsat Hc. unfold apply_roster_change_inner. cbn [change_rounds]. unfold dbind at 1.
  unfold change_round, dbind, dlift. rewrite (selected_complete db l) by done.
  rewrite last_of_chain. cbn [ok_or]. by rewrite Hsat, Hc.
Qed.

(** Otherwise the new child is stored and selected, in the first round. *)
Lemma change_applied `{!CryptoLaws} db l identity change peer_hint r :
  roster_ok db -> selected (descendants db) g l -> hint_valid peer_hint -> identity_wf identity ->
  roster_change_is_satisfied (List.last l g) change = false ->
  child (List.last l g) change identity = Ok r -> r ∈ universe ->
  exists db1, adds db [r] db1 /\ selected (descendants db1) g (l ++ [r]) /\
    apply_roster_change_inner identity change peer_hint db = (Ok r, hint_db peer_hint db1).
Proof.
  intros Hdb Hs Hh Hid Hsat Hc Hr.
  pose proof (child_validates _ _ _ _ Hid Hc) as (Hv & Hch & _).
  assert (List.last l g ∈ g :: l) as Hin by apply last_elem.
  destruct (insert_if_absent_child db r (List.last l g)) as (db1 & Ei & Ha);
    [done | done | by eapply selected_universe | by eapply selected_held | done |].
  pose proof (selected_new_tip db l r db1 Hdb Hs Hr Hv Ha) as Hs1.
  exists db1. split; [done|]. split; [done|].
  assert (selected_roster_chain (hint_db peer_hint db1) = (Ok (g :: l ++ [r]), hint_db peer_hint db1)) as Esel.
  { apply (select_same db1); [apply roster_hint_db|]. apply selected_complete; [apply Ha | done]. }
  unfold apply_roster_change_inner. cbn [change_rounds]. unfold dbind at 1.
  unfold change_round. unfold dbind at 1. rewrite (selected_complete db l) by done.
  unfold dbind at 1. unfold dlift at 1. rewrite last_of_chain. cbn [ok_or]. rewrite Hsat.
  unfold dbind at 1. unfold dlift at 1. rewrite Hc. cbn [map_err].
  unfold dbind at 1. unfold transaction, dbind at 1. rewrite Ei, replace_hint_ok by done.
  unfold dbind at 1. rewrite Esel. unfold dbind, dlift. rewrite last_of_chain, List.last_last. cbn [ok_or].
  by rewrite (child_satisfies r (List.last l g)).
Qed.

(** ** Joining *)

Lemma insert_all_absent_chain l p db :
  roster_ok db -> p ∈ universe -> holds db p -> (forall r, r ∈ l -> r ∈ universe) -> valid_chain p l ->
  exists db', insert_all_absent l db = (Ok tt, db') /\ adds db l db'.
Proof.
  revert p db. induction l as [|r l IH]; intros p db Hdb Hp Hph Hu Hl.
  - exists db. split; [done|]. apply adds_nil; [done|]. by intros s ?%not_elem_of_nil.
  - destruct Hl as [Hv Hl]. assert (r ∈ universe) as Hr by (apply Hu; left).
    destruct (insert_if_absent_child db r p) as (db1 & E & Ha); [done..|].
    destruct (IH r db1) as (db2 & E2 & Ha2); [apply Ha | done | | | done |].
    + apply Ha; [done|]. left. left.
    + intros s Hs. apply Hu. by right.
    + exists db2. split; [|by apply (adds_trans db [r] db1)].
      cbn [insert_all_absent]. unfold dbind at 1. by rewrite E.
Qed.

Lemma empty_select db : roster_t db = ∅ -> selected_roster_chain db = (Ok [], db).
Proof. intros E. unfold selected_roster_chain, dbind, dget, dlift. by rewrite E. Qed.

(** The genesis alone is a store of its group. *)
Lemma genesis_db_ok db : roster_t db = ∅ -> roster_ok (with_revision db g).
Proof.
  intros E. assert (forall r, r ∈ universe -> holds (with_revision db g) r -> r = g) as Honly.
  { intros r Hr [->|Hh]%holds_with; [done| |done..]. unfold holds in Hh. by rewrite E, lookup_empty in Hh. }
  split.
  - intros h l Hl. unfold with_revision in Hl. cbn [roster_t set_roster] in Hl. rewrite E in Hl.
    apply lookup_insert_Some in Hl as [[<- <-]|[_ Hl]]; [by exists g | by rewrite lookup_empty in Hl].
  - apply holds_with; auto.
  - intros r Hr Hh Hne. by destruct Hne; apply Honly.
  - intros r Hr Hh. by rewrite (Honly r).
Qed.

Lemma insert_genesis db : roster_t db = ∅ -> insert_if_absent g db = (Ok tt, with_revision db g).
Proof.
  intros E. unfold insert_if_absent, load_roster_revision, dbind, dget. rewrite E, lookup_empty.
  unfold dret. rewrite bool_decide_eq_true_2 by done.
  unfold insert_roster_revision_row, insert_roster_row, dbind, dget, with_revision. rewrite E, lookup_empty.
  rewrite canonical_nonempty by done. simpl. by rewrite map_to_list_empty.
Qed.

Fixpoint hints_db (peer_hints : list (EndpointId * bytes)) (db : Database) : Database :=
  match peer_hints with
  | [] => db
  | hint :: peer_hints => hints_db peer_hints (hint_db (Some hint) db)
  end.

Lemma replace_hints_ok hints db :
  validate_hints hints = Ok tt -> replace_hints hints db = (Ok tt, hints_db hints db).
Proof.
  revert db. induction hints as [|[e hint] hints IH]; intros db; [done|]. cbn [validate_hints]. intros Hv. inv_ok.
  cbn [replace_hints hints_db]. unfold dbind. by rewrite upsert_hint_ok, IH.
Qed.

Lemma roster_hints_db hints db : roster_t (hints_db hints db) = roster_t db.
Proof. revert db. induction hints as [|hint hints IH]; intros db; [done|]. cbn [hints_db]. by rewrite IH, roster_hint_db. Qed.

(** A chain installed into an empty table is the whole table. *)
Lemma insert_chain_empty db l :
  roster_t db = ∅ -> (forall r, r ∈ l -> r ∈ universe) -> valid_chain g l ->
  exists db1, insert_all_absent (g :: l) db = (Ok tt, db1) /\ roster_ok db1 /\
    db1 = set_roster db (roster_t db1) /\ selected (descendants db1) g l.
Proof.
  intros E Hu Hl. destruct (insert_all_absent_chain l g (with_revision db g)) as (db1 & E1 & Hok & Hdb1 & Hadd);
    [by apply genesis_db_ok | done | apply holds_with; auto | done | done |].
  exists db1. split; [cbn [insert_all_absent]; unfold dbind at 1; by rewrite insert_genesis|].
  split; [done|]. split; [by rewrite Hdb1|].
  apply (selected_within universe separated l); [| | |by apply (selected_own_chain universe separated)].
  - intros x Hx. by apply descendants_elem in Hx as [? _].
  - intros x Hx. apply descendants_elem; [done|]. split; [by apply Hu|]. split; [apply Hadd; auto|].
    apply list_elem_of_lookup in Hx as [i Hi]. intros ->.
    pose proof (valid_chain_number g l i g Hl Hi). lia.
  - intros q x _ (Hx & Hh & Hne)%descendants_elem _; [|done]. apply Hadd in Hh as [Hh|Hh]; [done| |done].
    apply holds_with in Hh as [?|Hh]; [done | | done..]. unfold holds in Hh. by rewrite E, lookup_empty in Hh.
Qed.

(** A device without a group that is given a chain it is a member of takes on
    exactly that chain, and the hints. *)
Lemma install_fresh db l local hints :
  roster_t db = ∅ -> (forall r, r ∈ l -> r ∈ universe) -> valid_chain g l ->
  is_Some (rev_members (List.last l g) !! local) -> validate_hints hints = Ok tt ->
  exists db1, roster_ok db1 /\ db1 = set_roster db (roster_t db1) /\ selected (descendants db1) g l /\
    install_joined_state (g :: l) local hints db = (Ok tt, hints_db hints db1).
Proof.
  intros E Hu Hl Hm Hh. destruct (insert_chain_empty db l E Hu Hl) as (db1 & E1 & Hok & Hdb1 & Hs).
  exists db1. split; [done|]. split; [done|]. split; [done|].
  unfold install_joined_state, install_joined_state_inner. unfold dbind at 1. unfold dlift at 1.
  rewrite genesis_valid. cbn [map_err]. unfold dbind at 1. unfold dlift at 1. rewrite windows_chain by done.
  rewrite bool_decide_eq_false_2 by (by rewrite <-not_eq_None_Some in Hm).
  cbn [name_differs]. unfold dbind at 1. rewrite empty_select by done.
  cbn [negb andb]. rewrite bool_decide_eq_false_2 by auto.
  unfold dbind at 1. unfold dlift at 1. rewrite Hh. unfold dbind at 1. unfold transaction, dbind at 1.
  rewrite E1, replace_hints_ok by done. done.
Qed.

(** Joining, or resuming a join that stored nothing yet, does the same. *)
Lemma install_first db l local name hints :
  roster_t db = ∅ -> (forall r, r ∈ l -> r ∈ universe) -> valid_chain g l ->
  rev_members (List.last l g) !! local = Some name -> validate_hints hints = Ok tt ->
  exists db1, roster_ok db1 /\ selected (descendants db1) g l /\
    install_or_resume_joined_state (g :: l) local name hints db = (Ok tt, hints_db hints db1).
Proof.
  intros E Hu Hl Hm Hh. destruct (insert_chain_empty db l E Hu Hl) as (db1 & E1 & Hok & Hdb1 & Hs).
  exists db1. split; [done|]. split; [done|].
  unfold install_or_resume_joined_state, install_joined_state_inner. unfold dbind at 1. unfold dlift at 1.
  rewrite genesis_valid. cbn [map_err]. unfold dbind at 1. unfold dlift at 1. rewrite windows_chain by done.
  rewrite bool_decide_eq_false_2 by (rewrite Hm; done).
  unfold name_differs. rewrite bool_decide_eq_false_2 by (rewrite Hm; auto).
  unfold dbind at 1. rewrite empty_select by done. cbn [negb andb List.last last].
  unfold dbind at 1. unfold dlift at 1. rewrite Hh. unfold dbind at 1. unfold transaction, dbind at 1.
  rewrite E1, replace_hints_ok by done. unfold dbind at 1.
  rewrite (select_same db1 (hints_db hints db1) (g :: l)) by (apply roster_hints_db || by apply selected_complete).
  rewrite last_of_chain. unfold cannot_resume. rewrite bool_decide_eq_false_2 by (rewrite Hm; auto). done.
Qed.

(** Resuming stores the chain beside what was there; it reports whether the
    device is still a member, under its name, of the tip then selected. *)
Lemma install_resume db l0 l local name hints :
  roster_ok db -> selected (descendants db) g l0 -> rev_members (List.last l0 g) !! local = Some name ->
  (forall r, r ∈ l -> r ∈ universe) -> valid_chain g l ->
  rev_members (List.last l g) !! local = Some name -> validate_hints hints = Ok tt ->
  exists db1 l1, adds db (g :: l) db1 /\ selected (descendants db1) g l1 /\
    install_or_resume_joined_state (g :: l) local name hints db =
      (if bool_decide (rev_members (List.last l1 g) !! local = Some name) then Ok tt
       else Err (RosterTopology "selected roster cannot resume this join"), hints_db hints db1).
Proof.
  intros Hdb Hs0 Hm0 Hu Hl Hm Hh.
  destruct (insert_all_absent_chain l g db) as (db1 & E1 & Ha); [done..|apply (ro_genesis db Hdb)|done|done|].
  destruct (selected_roster_chain_ok db1) as (l1 & Hs1 & Esel); [apply Ha|].
  exists db1, l1. split.
  { apply (adds_trans db [g] db); [|done]. apply adds_nil; [done|].
    intros r ->%list_elem_of_singleton. apply (ro_genesis db Hdb). }
  split; [done|].
  assert (insert_all_absent (g :: l) db = (Ok tt, db1)) as Eins.
  { cbn [insert_all_absent]. unfold dbind, insert_if_absent, dbind. rewrite load_held by done.
    rewrite (bool_decide_eq_true_2 (holds db g)) by apply (ro_genesis db Hdb). done. }
  unfold install_or_resume_joined_state, install_joined_state_inner. unfold dbind at 1. unfold dlift at 1.
  rewrite genesis_valid. cbn [map_err]. unfold dbind at 1. unfold dlift at 1. rewrite windows_chain by done.
  rewrite bool_decide_eq_false_2 by (rewrite Hm; done).
  unfold name_differs. rewrite bool_decide_eq_false_2 by (rewrite Hm; auto).
  unfold dbind at 1. rewrite (selected_complete db l0) by done. cbn [negb andb].
  rewrite bool_decide_eq_false_2 by auto. rewrite last_of_chain. unfold cannot_resume at 1.
  rewrite bool_decide_eq_false_2 by (rewrite Hm0; auto).
  unfold dbind at 1. unfold dlift at 1. rewrite Hh. unfold dbind at 1. unfold transaction, dbind at 1.
  rewrite Eins, replace_hints_ok by done. unfold dbind at 1.
  rewrite (select_same db1 (hints_db hints db1) (g :: l1)) by (apply roster_hints_db || exact Esel).
  rewrite last_of_chain. unfold cannot_resume.
  destruct (decide (rev_members (List.last l1 g) !! local = Some name)) as [Hm1|Hm1].
  - rewrite bool_decide_eq_false_2 by auto. by rewrite bool_decide_eq_true_2.
  - rewrite bool_decide_eq_true_2 by done. by rewrite bool_decide_eq_false_2.
Qed.

(** What [insert_roster_revision] accepts. *)
Lemma insert_accepts db r db' :
  roster_ok db -> r ∈ universe -> insert_roster_revision r db = (Ok tt, db') ->
  ~ holds db r /\ (exists p, p ∈ universe /\ holds db p /\ validate_child r p = Ok tt) /\ adds db [r] db'.
Proof.
  intros Hdb Hr E. unfold insert_roster_revision in E. apply (proj1 (transaction_Ok _ _ _ _)) in E.
  apply dbind_Ok in E as (u & db1 & Hc & Hrow). destruct (Z.eqb_spec (rev_number r) 0) as [Hz|Hz].
  - exfalso. unfold dbind, dget in Hc. destruct (negb _) eqn:Hs in Hc; [done|]. boolp.
    pose proof (ro_genesis db Hdb) as Hg. unfold holds in Hg.
    rewrite (map_size_empty_inv (roster_t db)) in Hg by lia. by rewrite lookup_empty in Hg.
  - apply dbind_Ok in Hc as (h & db2 & Hh & Hc). unfold dlift in Hh. injection Hh as Hh <-. apply ok_or_Ok in Hh.
    apply dbind_Ok in Hc as (loaded & db3 & Hload & Hc). apply dbind_Ok in Hc as (p & db4 & Hp & Hc).
    unfold dlift in Hp, Hc. injection Hp as Hp <-. injection Hc as Hv <-. apply ok_or_Ok in Hp as ->.
    apply map_err_Ok in Hv. destruct u. unfold load_roster_revision, dbind, dget in Hload.
    destruct (roster_t db !! h) as [l|] eqn:El; [|done].
    pose proof El as (q & Hq & -> & ->)%(ro_rows db Hdb).
    unfold dlift in Hload. rewrite from_canonical_universe in Hload by done. cbn [map_err rbind] in Hload.
    rewrite bool_decide_eq_false_2 in Hload by auto. injection Hload as <- <-.
    assert (~ holds db r) as Hn.
    { intros Hhr. unfold insert_roster_revision_row, insert_roster_row, dbind, dget in Hrow.
      unfold holds in Hhr. rewrite Hhr in Hrow. done. }
    split; [done|]. split; [by exists q|]. rewrite insert_row_absent in Hrow by done. injection Hrow as <-.
    by apply (adds_with db r q).
Qed.

Lemma hints_same hints db db' :
  peer_hints_t db' = peer_hints_t db -> peer_hints_t (hints_db hints db') = peer_hints_t (hints_db hints db).
Proof.
  revert db db'. induction hints as [|[e hint] hints IH]; intros db db' E; [done|]. cbn [hints_db].
  apply IH. unfold hint_db. cbn [peer_hints_t set_peer_hints]. by rewrite E.
Qed.

(** A store that took in the chain of another selects what the chains and the
    two stores determine. *)
Lemma merged_selected a b la lb a' l :
  roster_ok a -> roster_ok b -> selected (descendants a) g la -> selected (descendants b) g lb ->
  adds a lb a' ->
  (forall X, (forall x, x ∈ la ++ lb -> x ∈ X) ->
     (forall x, x ∈ X -> x ∈ descendants a \/ x ∈ descendants b) -> selected X g l) ->
  selected (descendants a') g l.
Proof.
  intros Ha Hb Hla Hlb (Ha' & _ & Hadd) Hl. apply Hl; intros x; rewrite ?elem_of_app, !descendants_elem by done.
  - intros [Hx|Hx].
    + apply (selected_elem _ _ _ x Hla), descendants_elem in Hx as (Hu & Hh & Hne); [|done].
      split; [done|]. split; [apply Hadd; auto | done].
    + pose proof (selected_elem _ _ _ x Hlb Hx) as (Hu & Hh & Hne)%descendants_elem; [|done].
      split; [done|]. split; [apply Hadd; auto | done].
  - intros (Hu & [Hx|Hx]%Hadd & Hne); [| |done]; [right | by left].
    by apply (selected_elem _ _ _ x Hlb), descendants_elem in Hx.
Qed.
End laws.
