(* ===== verification/RosterProps.v ===== *)
(** The properties of the stored roster, each from the lemmas of RosterLaws.v,
    and examples of them on the small group of Roster.v. *)

From S2P Require Import Prelude Bytes Utf8 Cursor Canonical Path Identity Concrete Records Roster.
From S2P Require Import RosterConverge Database State RosterStore RosterLaws.

Section properties.
Context `{Crypto}.

(** C6: Membership converges after one exchange.  Two devices of a group, whatever
    valid revisions each has stored, send each other their selected chains;
    both merges succeed, keep everything stored before, and leave both devices
    with the same selected chain, which is the chain selected from all that
    the two devices held. *)
Theorem rosters_converge universe g a b chain_a chain_b :
  roster_separates universe -> g ∈ universe -> validate_genesis g = Ok tt ->
  roster_ok universe g a -> roster_ok universe g b ->
  selected_roster_chain a = (Ok chain_a, a) -> selected_roster_chain b = (Ok chain_b, b) ->
  exists a' b' l,
    merge_selected_roster_chain chain_b a = (Ok tt, a') /\ roster_ok universe g a' /\
    merge_selected_roster_chain chain_a b = (Ok tt, b') /\ roster_ok universe g b' /\
    (forall r, r ∈ universe -> holds a r -> holds a' r) /\
    (forall r, r ∈ universe -> holds b r -> holds b' r) /\
    selected_roster_chain a' = (Ok (g :: l), a') /\ selected_roster_chain b' = (Ok (g :: l), b') /\
    select_chain g (descendants g a ++ descendants g b) = Ok l.
Proof.
  intros Hsep Hgu Hg Ha Hb Ea Eb.
  destruct (selected_sound universe Hsep g Hgu Hg a chain_a Ha Ea) as (la & -> & Hla).
  destruct (selected_sound universe Hsep g Hgu Hg b chain_b Hb Eb) as (lb & -> & Hlb).
  destruct (merge_chain_ok universe Hsep g Hgu Hg lb a Ha) as (a' & Ema & Hadda);
    [intros r Hr; apply (selected_universe universe Hsep g Hgu b lb r Hb Hlb); by right | by eapply selected_valid |].
  destruct (merge_chain_ok universe Hsep g Hgu Hg la b Hb) as (b' & Emb & Haddb);
    [intros r Hr; apply (selected_universe universe Hsep g Hgu a la r Ha Hla); by right | by eapply selected_valid |].
  destruct (selected_union universe Hsep g (descendants g a) (descendants g b) g la lb) as (l & _ & Hl);
    [done | by apply genesis_number | by apply descendants_closed.. | done | done | done |].
  exists a', b', l. split; [done|]. split; [apply Hadda|]. split; [done|]. split; [apply Haddb|].
  split; [intros r Hr Hh; apply Hadda; auto|]. split; [intros r Hr Hh; apply Haddb; auto|].
  pose proof (fun r => selected_elem _ _ _ r Hla) as Hsa. pose proof (fun r => selected_elem _ _ _ r Hlb) as Hsb.
  split; [|split].
  - apply (selected_complete universe Hsep g Hgu Hg); [apply Hadda|]. by apply (merged_selected universe Hsep g Hgu a b la lb).
  - apply (selected_complete universe Hsep g Hgu Hg); [apply Haddb|]. apply (merged_selected universe Hsep g Hgu b a lb la); auto.
    intros X HX1 HX2. apply Hl; [|intros x [?|?]%HX2; auto]. intros x Hx. apply HX1.
    rewrite elem_of_app in *. tauto.
  - apply select_chain_iff. split; [done|]. apply Hl; intros x; rewrite !elem_of_app; [|done].
    intros [?|?]; auto.
Qed.

(** C12: A change of membership needs one round.  Over a store of the group it
    returns the tip when the change holds of it, fails without changing
    anything when no child can be made, and otherwise stores a new child of
    the tip that carries the change, is signed by this device, and is the new
    tip; the hint is written with it.  The retry limit is not reached. *)
Theorem roster_change_total `{!CryptoLaws} universe g db l identity change peer_hint :
  roster_separates universe -> g ∈ universe -> validate_genesis g = Ok tt ->
  roster_ok universe g db -> selected_roster_chain db = (Ok (g :: l), db) ->
  hint_valid peer_hint -> identity_wf identity ->
  (forall r, child (List.last l g) change identity = Ok r -> r ∈ universe) ->
  let run := apply_roster_change_inner identity change peer_hint db in
  if roster_change_is_satisfied (List.last l g) change
  then run = (Ok (List.last l g), hint_db peer_hint db)
  else match child (List.last l g) change identity with
       | Err e => run = (Err (StateRoster e), db)
       | Ok r => exists db', run = (Ok r, db') /\ roster_ok universe g db' /\
           rev_change r = change /\ rev_author r = endpoint_id identity /\
           roster_change_is_satisfied r change = true /\
           selected_roster_chain db' = (Ok (g :: l ++ [r]), db') /\
           peer_hints_t db' = peer_hints_t (hint_db peer_hint db)
       end.
Proof.
  intros Hsep Hgu Hg Hdb E Hh Hid Hu run.
  destruct (selected_sound universe Hsep g Hgu Hg db _ Hdb E) as (l' & [= <-] & Hs).
  destruct (roster_change_is_satisfied _ _) eqn:Hsat.
  { by apply (change_satisfied universe Hsep g Hgu Hg). }
  destruct (child _ _ _) as [r|e] eqn:Hc; [|by apply (change_refused universe Hsep g Hgu Hg _ l)].
  destruct (change_applied universe Hsep g Hgu Hg db l identity change peer_hint r)
    as (db1 & Ha & Hs1 & Hrun); auto.
  pose proof (child_validates _ _ _ _ Hid Hc) as (Hv & Hch & Hau).
  exists (hint_db peer_hint db1). split; [done|].
  assert (roster_ok universe g (hint_db peer_hint db1)) as Hok
    by (apply (roster_ok_same universe g db1); [apply roster_hint_db | apply Ha]).
  split; [done|]. split; [done|]. split; [done|]. split; [by eapply child_satisfies|]. split.
  - apply (select_same db1); [apply roster_hint_db|]. by apply (selected_complete universe Hsep g Hgu Hg); [apply Ha|].
  - destruct Ha as (_ & -> & _). by destruct peer_hint as [[e hint]|].
Qed.

(** C33: Joining.  A device without a group that is given a valid chain it is a
    member of takes on exactly that chain and its hints; a device of the group
    that resumes adds the chain to what it had, and the join succeeds exactly
    when it is still a member, under its name, of the tip then selected. *)
Theorem install_joined universe g db l local name hints :
  roster_separates universe -> g ∈ universe -> validate_genesis g = Ok tt ->
  (forall r, r ∈ l -> r ∈ universe) -> valid_chain g l ->
  rev_members (List.last l g) !! local = Some name -> validate_hints hints = Ok tt ->
  (roster_t db = ∅ ->
   exists db', install_joined_state (g :: l) local hints db = (Ok tt, db') /\ roster_ok universe g db' /\
     selected_roster_chain db' = (Ok (g :: l), db') /\ peer_hints_t db' = peer_hints_t (hints_db hints db)) /\
  (forall l0, roster_ok universe g db -> selected_roster_chain db = (Ok (g :: l0), db) ->
   rev_members (List.last l0 g) !! local = Some name ->
   exists res db' l', install_or_resume_joined_state (g :: l) local name hints db = (res, db') /\
     roster_ok universe g db' /\ selected_roster_chain db' = (Ok (g :: l'), db') /\
     (forall r, r ∈ universe -> holds db' r <-> r ∈ g :: l \/ holds db r) /\
     (res = Ok tt <-> rev_members (List.last l' g) !! local = Some name)).
Proof.
  intros Hsep Hgu Hg Hu Hl Hm Hh. split.
  - intros E. destruct (install_fresh universe Hsep g Hgu Hg db l local hints) as (db1 & Hok & Hdb1 & Hs & Hrun);
      [done..| by rewrite Hm | done |].
    exists (hints_db hints db1). split; [done|].
    split; [apply (roster_ok_same universe g db1); [apply roster_hints_db | done]|]. split.
    + apply (select_same db1); [apply roster_hints_db|]. by apply (selected_complete universe Hsep g Hgu Hg).
    + apply hints_same. by rewrite Hdb1.
  - intros l0 Hdb E0 Hm0. destruct (selected_sound universe Hsep g Hgu Hg db _ Hdb E0) as (l0' & [= <-] & Hs0).
    destruct (install_resume universe Hsep g Hgu Hg db l0 l local name hints)
      as (db1 & l1 & (Hok & _ & Hadd) & Hs1 & Hrun); [done..|].
    eexists _, (hints_db hints db1), l1. split; [exact Hrun|].
    split; [apply (roster_ok_same universe g db1); [apply roster_hints_db | done]|].
    split; [apply (select_same db1); [apply roster_hints_db|]; by apply (selected_complete universe Hsep g Hgu Hg)|].
    split; [intros r Hr; unfold holds; rewrite roster_hints_db; by apply Hadd|].
    case_bool_decide; by split.
Qed.

(** A store of the group takes in a revision exactly when it is new and a
    valid child of a stored one; it then holds that revision besides the old
    ones and is still a store of the group, and a refusal changes nothing. *)
Theorem insert_revision_exact universe g db r :
  roster_separates universe -> g ∈ universe -> validate_genesis g = Ok tt ->
  roster_ok universe g db -> r ∈ universe ->
  ((exists db', insert_roster_revision r db = (Ok tt, db')) <->
   ~ holds db r /\ exists p, p ∈ universe /\ holds db p /\ validate_child r p = Ok tt) /\
  (forall db', insert_roster_revision r db = (Ok tt, db') ->
     roster_ok universe g db' /\ forall s, s ∈ universe -> holds db' s <-> s = r \/ holds db s) /\
  (forall e db', insert_roster_revision r db = (Err e, db') -> db' = db).
Proof.
  intros Hsep Hgu Hg Hdb Hr. split; [split|split].
  - intros [db' E]. by pose proof (insert_accepts universe Hsep g Hgu db r db' Hdb Hr E) as (? & ? & _).
  - intros (Hn & p & Hp & Hph & Hv). exists (with_revision db r). by apply (insert_child universe Hsep g db r p).
  - intros db' E. pose proof (insert_accepts universe Hsep g Hgu db r db' Hdb Hr E) as (_ & _ & Hok & _ & Hadd).
    split; [done|]. intros s Hs. by rewrite Hadd, list_elem_of_singleton.
  - intros e db'. apply transaction_Err.
Qed.
End properties.

(** ** Examples *)

Section examples.
#[local] Existing Instance toy_crypto.
#[local] Existing Instance toy_crypto_laws.

Definition example_universe : list RosterRevision :=
  [example_genesis; admit_bob; admit_carol; remove_bob; rename_alice].

Lemma example_separated : roster_separates example_universe.
Proof.
  split; [|apply collision_free_decide; by vm_compute].
  unfold example_universe. repeat apply Forall_cons_2; try apply Forall_nil_2;
    (split; [evaluate | unfold addressable; evaluate]).
Qed.

Lemma example_genesis_valid : validate_genesis example_genesis = Ok tt.
Proof. evaluate. Qed.

#[local] Opaque example_genesis admit_bob admit_carol remove_bob rename_alice.

Lemma example_in_universe r : bool_decide (r ∈ example_universe) = true -> r ∈ example_universe.
Proof. apply bool_decide_eq_true. Qed.

(** Both devices know that bob was admitted; one has removed him, he has admitted carol. *)
Definition base_db : Database := with_revision (with_revision empty_database example_genesis) admit_bob.
Definition alice_db : Database := with_revision base_db remove_bob.
Definition bob_db : Database := with_revision base_db admit_carol.

Lemma example_genesis_in : example_genesis ∈ example_universe.
Proof. left. Qed.

Lemma base_db_ok : roster_ok example_universe example_genesis base_db.
Proof.
  apply (with_revision_ok _ example_separated _ example_genesis_in
           (with_revision empty_database example_genesis) admit_bob example_genesis).
  - exact (genesis_db_ok _ example_separated _ example_genesis_in empty_database eq_refl).
  - apply example_in_universe. by vm_compute.
  - apply example_genesis_in.
  - evaluate.
  - evaluate.
Qed.

Lemma base_child_ok r :
  bool_decide (r ∈ example_universe) = true -> bool_decide (validate_child r admit_bob = Ok tt) = true ->
  roster_ok example_universe example_genesis (with_revision base_db r).
Proof.
  intros Hr Hv. apply (with_revision_ok _ example_separated _ example_genesis_in base_db r admit_bob).
  - apply base_db_ok.
  - by apply example_in_universe.
  - apply example_in_universe. by vm_compute.
  - evaluate.
  - by apply bool_decide_eq_true in Hv.
Qed.

Lemma rosters_converge_witness :
  exists a' b' l,
    merge_selected_roster_chain [example_genesis; admit_bob; admit_carol] alice_db = (Ok tt, a') /\
    merge_selected_roster_chain [example_genesis; admit_bob; remove_bob] bob_db = (Ok tt, b') /\
    selected_roster_chain a' = (Ok (example_genesis :: l), a') /\
    selected_roster_chain b' = (Ok (example_genesis :: l), b').
Proof.
  destruct (rosters_converge example_universe example_genesis alice_db bob_db
    [example_genesis; admit_bob; remove_bob] [example_genesis; admit_bob; admit_carol])
    as (a' & b' & l & Ea & _ & Eb & _ & _ & _ & Sa & Sb & _).
  - apply example_separated.
  - apply example_genesis_in.
  - apply example_genesis_valid.
  - apply base_child_ok; by vm_compute.
  - apply base_child_ok; by vm_compute.
  - evaluate.
  - evaluate.
  - exists a', b', l. exact (conj Ea (conj Eb (conj Sa Sb))).
Defined.

Lemma Ok_inj {A E} (a b : A) : Ok (E := E) a = Ok b -> a = b.
Proof. by intros [= ->]. Qed.

Lemma roster_change_total_witness :
  exists r db', apply_roster_change_inner alice (Remove (endpoint_id bob)) None base_db = (Ok r, db') /\
    rev_change r = Remove (endpoint_id bob).
Proof.
  pose proof (roster_change_total example_universe example_genesis base_db [admit_bob] alice
    (Remove (endpoint_id bob)) None example_separated example_genesis_in example_genesis_valid base_db_ok
    ltac:(evaluate) I) as Ht.
  assert (child admit_bob (Remove (endpoint_id bob)) alice = Ok remove_bob) as Hc by evaluate.
  assert (roster_change_is_satisfied admit_bob (Remove (endpoint_id bob)) = false) as Hs by evaluate.
  cbn [List.last] in Ht. cbv zeta in Ht. rewrite Hs, Hc in Ht. destruct Ht as (db' & Hrun & _ & Hch & _).
  - apply from_secret_wf.
  - intros r Hr%(Ok_inj remove_bob). rewrite <-Hr. apply example_in_universe. by vm_compute.
  - exists remove_bob, db'. exact (conj Hrun Hch).
Defined.

Lemma install_joined_witness :
  exists db', install_joined_state [example_genesis; admit_bob] (endpoint_id bob) [] empty_database = (Ok tt, db') /\
    selected_roster_chain db' = (Ok [example_genesis; admit_bob], db').
Proof.
  destruct (install_joined example_universe example_genesis empty_database [admit_bob] (endpoint_id bob)
    (lit "bob") []) as [Hi _].
  - apply example_separated.
  - apply example_genesis_in.
  - apply example_genesis_valid.
  - intros r ->%list_elem_of_singleton. apply example_in_universe. by vm_compute.
  - split; [evaluate | exact I].
  - vm_compute. reflexivity.
  - reflexivity.
  - destruct (Hi eq_refl) as (db' & E & _ & Es & _). exists db'. exact (conj E Es).
Defined.

Lemma insert_revision_exact_witness :
  exists db', insert_roster_revision remove_bob base_db = (Ok tt, db').
Proof.
  apply (insert_revision_exact example_universe example_genesis base_db remove_bob).
  - apply example_separated.
  - apply example_genesis_in.
  - apply example_genesis_valid.
  - apply base_db_ok.
  - apply example_in_universe. by vm_compute.
  - split; [evaluate|]. exists admit_bob. split; [apply example_in_universe; by vm_compute|].
    split; evaluate.
Defined.
End examples.
