(* ===== verification/Platform.v ===== *)
(** The world the program runs in beside its database: the file system, the
    clock and the random numbers of the operating system, through the calls
    the sources make of cap_std, std::fs, filetime, tempfile and getrandom.

    [Platform] has one operation per call, over an abstract state of the file
    system; every call may fail with an [io::Error], of which the sources look
    at the kind only.  What is read of a file, and in which pieces, is the
    platform's.  [PlatformLaws] in InstallLaws.v says what the documentation
    promises of these calls.  Handles are not closed explicitly. *)

From S2P Require Import Prelude Bytes Identity Database.

Inductive IoError := NotFound | NotADirectory | InvalidInput | AlreadyExists | OtherIo.
#[global] Instance IoError_eq_dec : EqDecision IoError.
Proof. solve_decision. Defined.

(** [std::fs::Metadata] of an open file. *)
Record Metadata := mkMetadata {
  md_is_file : bool;
  md_len : Z;
  md_mtime : Z;
  md_mtime_nsec : Z;
  md_dev : Z;
  md_ino : Z;
  md_ctime : Z;
  md_ctime_nsec : Z;
}.

(** [FileType] of a directory entry. *)
Inductive FileType := FtSymlink | FtDir | FtFile | FtOther.

Class Platform := {
  FS : Type;
  Dir : Type;
  Handle : Type;
  (** the readings of [SystemTime::now()], in nanoseconds from the epoch *)
  clock : nat -> Z;
  process_id : Z;
  (** [Dir::open_ambient_dir], [fs::canonicalize] *)
  open_ambient_dir : bytes -> FS -> result Dir IoError * FS;
  canonicalize : bytes -> FS -> result bytes IoError * FS;
  (** the device and inode of [Dir::dir_metadata] *)
  dir_metadata : Dir -> FS -> result (Z * Z) IoError * FS;
  (** [Dir::try_clone], [Dir::entries] with the result of each entry,
      [DirEntry::file_type], [Dir::open_dir] and [Dir::open] at a relative path *)
  try_clone : Dir -> FS -> result Dir IoError * FS;
  entries : Dir -> FS -> result (list (result bytes IoError)) IoError * FS;
  entry_file_type : Dir -> bytes -> FS -> result FileType IoError * FS;
  open_dir : Dir -> list bytes -> FS -> result Dir IoError * FS;
  open_at : Dir -> list bytes -> FS -> result Handle IoError * FS;
  symlink_metadata : Dir -> bytes -> FS -> result unit IoError * FS;
  create_dir : Dir -> bytes -> FS -> result unit IoError * FS;
  remove_file : Dir -> bytes -> FS -> result unit IoError * FS;
  rename : Dir -> bytes -> Dir -> list bytes -> FS -> result unit IoError * FS;
  (** [open_with] and [create_new] *)
  open_new : Dir -> bytes -> FS -> result Handle IoError * FS;
  (** [directory.open(".")?.sync_all()] *)
  sync_directory : Dir -> FS -> result unit IoError * FS;
  file_read : Handle -> Z -> FS -> result bytes IoError * FS;
  file_write_all : Handle -> bytes -> FS -> result unit IoError * FS;
  file_flush : Handle -> FS -> result unit IoError * FS;
  file_sync_all : Handle -> FS -> result unit IoError * FS;
  file_metadata : Handle -> FS -> result Metadata IoError * FS;
  file_seek_start : Handle -> FS -> result unit IoError * FS;
  set_file_mtime : Handle -> Z -> Z -> FS -> result unit IoError * FS;
  tempfile_in : bytes -> FS -> result Handle IoError * FS;
  (** eight bytes of [getrandom::fill], as a [u64] *)
  random_u64 : FS -> option Z * FS;
}.

Section world.
Context `{Platform}.

Record World := mkWorld {
  w_db : Database;
  w_fs : FS;
  w_tick : nat;
}.

Definition set_db (w : World) db : World := mkWorld db (w_fs w) (w_tick w).
Definition set_fs (w : World) fs : World := mkWorld (w_db w) fs (w_tick w).

(** ** The monad *)

Definition IO (E A : Type) : Type := World -> result A E * World.

Definition iret {E A} (a : A) : IO E A := fun w => (Ok a, w).
Definition ifail {E A} (e : E) : IO E A := fun w => (Err e, w).
Definition ilift {E A} (r : result A E) : IO E A := fun w => (r, w).
Definition ibind {E A B} (m : IO E A) (f : A -> IO E B) : IO E B :=
  fun w =>
    match m w with
    | (Ok a, w) => f a w
    | (Err e, w) => (Err e, w)
    end.
Definition imap_err {E F A} (f : E -> F) (m : IO E A) : IO F A :=
  fun w => let '(r, w) := m w in (map_err f r, w).
(** The result of a call as a value, for a [match] on it. *)
Definition iresult {E F A} (m : IO E A) : IO F (result A E) :=
  fun w => let '(r, w) := m w in (Ok r, w).

(** A call of the state store, and of the platform. *)
Definition on_db {A} (m : Db A) : IO StateError A :=
  fun w => let '(r, db) := m (w_db w) in (r, set_db w db).
Definition on_fs {A} (m : FS -> result A IoError * FS) : IO IoError A :=
  fun w => let '(r, fs) := m (w_fs w) in (r, set_fs w fs).

(** [setup::now_ns]: nanoseconds on either side of the epoch, saturated. *)
Definition clock_ns (t : Z) : Z := if 0 <=? t then Z.min t i64_max else - Z.min (- t) i64_max.

Definition now_ns {E} : IO E Z :=
  fun w => (Ok (clock_ns (clock (w_tick w))), mkWorld (w_db w) (w_fs w) (S (w_tick w))).
End world.

Declare Scope io_scope.
Delimit Scope io_scope with io.
Notation "x <== m ;; k" := (ibind m (fun x => k))
  (at level 100, m at next level, right associativity) : io_scope.
Open Scope io_scope.

Section laws.
Context `{Platform}.

Lemma ibind_Ok {E A B} (m : IO E A) (f : A -> IO E B) w b w' :
  ibind m f w = (Ok b, w') <-> exists a w1, m w = (Ok a, w1) /\ f a w1 = (Ok b, w').
Proof.
  unfold ibind. destruct (m w) as [[a|e] w1]; split.
  - eauto.
  - by intros (? & ? & [= -> ->] & ?).
  - done.
  - by intros (? & ? & [=] & _).
Qed.

Lemma imap_err_Ok {E F A} (f : E -> F) (m : IO E A) w a w' :
  imap_err f m w = (Ok a, w') <-> m w = (Ok a, w').
Proof. unfold imap_err. destruct (m w) as [[b|e] w1]; simpl; naive_solver. Qed.

Lemma on_db_Ok {A} (m : Db A) w a w' :
  on_db m w = (Ok a, w') <-> exists db', m (w_db w) = (Ok a, db') /\ w' = set_db w db'.
Proof. unfold on_db. destruct (m (w_db w)) as [[b|e] db1]; simpl; naive_solver. Qed.

Lemma on_fs_Ok {A} (m : FS -> result A IoError * FS) w a w' :
  on_fs m w = (Ok a, w') <-> exists fs', m (w_fs w) = (Ok a, fs') /\ w' = set_fs w fs'.
Proof. unfold on_fs. destruct (m (w_fs w)) as [[b|e] fs1]; simpl; naive_solver. Qed.

(** [m] moves the world along [R], whatever it returns. *)
Definition respects (R : World -> World -> Prop) {E A} (m : IO E A) : Prop :=
  forall w r w', m w = (r, w') -> R w w'.

Section respects.
Variable R : World -> World -> Prop.
Context `{!PreOrder R}.

Lemma respects_ret {E A} (a : A) : respects R (iret (E := E) a).
Proof. by intros w r w' [= _ <-]. Qed.
Lemma respects_fail {E A} (e : E) : respects R (ifail (A := A) e).
Proof. by intros w r w' [= _ <-]. Qed.
Lemma respects_lift {E A} (x : result A E) : respects R (ilift x).
Proof. by intros w r w' [= _ <-]. Qed.
Lemma respects_bind {E A B} (m : IO E A) (f : A -> IO E B) :
  respects R m -> (forall a, respects R (f a)) -> respects R (ibind m f).
Proof.
  intros Hm Hf w r w' E'. unfold ibind in E'. destruct (m w) as [[a|e] w1] eqn:Em.
  - transitivity w1; [by apply (Hm w (Ok a)) | by apply (Hf a w1 r)].
  - injection E' as _ <-. by apply (Hm w (Err e)).
Qed.
Lemma respects_map_err {E F A} (f : E -> F) (m : IO E A) : respects R m -> respects R (imap_err f m).
Proof. intros Hm w r w'. unfold imap_err. destruct (m w) as [x w1] eqn:Em. intros [= _ <-]. by apply (Hm w x). Qed.
Lemma respects_result {E F A} (m : IO E A) : respects R m -> respects R (iresult (F := F) m).
Proof. intros Hm w r w'. unfold iresult. destruct (m w) as [x w1] eqn:Em. intros [= _ <-]. by apply (Hm w x). Qed.
Lemma respects_if {E A} (b : bool) (m n : IO E A) : respects R m -> respects R n -> respects R (if b then m else n).
Proof. by destruct b. Qed.
End respects.

(** The database stays. *)
Definition same_db (w w' : World) : Prop := w_db w' = w_db w.
#[global] Instance same_db_preorder : PreOrder same_db.
Proof. unfold same_db. split; [done | intros x y z Hxy Hyz; congruence]. Qed.

Lemma leaves_db_fs {A} (m : FS -> result A IoError * FS) : respects same_db (on_fs m).
Proof. intros w r w'. unfold on_fs. destruct (m (w_fs w)). by intros [= _ <-]. Qed.
Lemma leaves_db_now {E} : respects same_db (now_ns (E := E)).
Proof. by intros w r w' [= _ <-]. Qed.
End laws.

(** A run that succeeds, without its result. *)
Lemma run_ok {A E W} (x : result A E * W) : is_ok x.1 = true -> exists a, x = (Ok a, x.2).
Proof. destruct x as [[a|e] w]; [by exists a | done]. Qed.

(** [inv_io] takes apart a successful run. *)
Ltac inv_io_step :=
  match goal with
  | u : unit |- _ => destruct u
  | H : ibind _ _ _ = (Ok _, _) |- _ =>
      apply ibind_Ok in H; destruct H as (? & ? & ? & H)
  | H : imap_err _ _ _ = (Ok _, _) |- _ => apply (proj1 (imap_err_Ok _ _ _ _ _)) in H
  | H : iret _ _ = (Ok _, _) |- _ => unfold iret in H; simplify_eq
  | H : ifail _ _ = (Ok _, _) |- _ => discriminate H
  | H : ilift _ _ = (Ok _, _) |- _ => unfold ilift in H; injection H as H; try subst
  | H : on_db _ _ = (Ok _, _) |- _ =>
      apply (proj1 (on_db_Ok _ _ _ _)) in H; destruct H as (? & H & ->)
  | H : on_fs _ _ = (Ok _, _) |- _ =>
      apply (proj1 (on_fs_Ok _ _ _ _)) in H; destruct H as (? & H & ->)
  | H : (if ?b then _ else ifail _) _ = (Ok _, _) |- _ => destruct b eqn:?; [|discriminate H]
  | H : (if ?b then ifail _ else _) _ = (Ok _, _) |- _ => destruct b eqn:?; [discriminate H|]
  end.
Ltac inv_io := repeat inv_io_step.

(** [walk leaf] goes through a computation, with [leaf] for the calls. *)
Ltac walk leaf :=
  repeat first
    [ leaf
    | match goal with
      | |- respects _ (iret _) => apply respects_ret; exact _
      | |- respects _ (ifail _) => apply respects_fail; exact _
      | |- respects _ (ilift _) => apply respects_lift; exact _
      | |- respects _ (imap_err _ _) => apply respects_map_err
      | |- respects _ (iresult _) => apply respects_result
      | |- respects _ (ibind _ _) => apply respects_bind; [exact _| |intros ?]
      | |- respects _ (if _ then _ else _) => apply respects_if
      | |- respects _ (match ?x with _ => _ end) => destruct x
      end ].

(** [leave] shows that a computation leaves the database alone. *)
Abbreviation leaves_db := (respects same_db).
Ltac leave := walk ltac:(first [apply leaves_db_fs | apply leaves_db_now]).
