(* ===== verification/Installer.v ===== *)
(** installer.rs and root.rs: acquiring a stable root, installing a received
    file below it, opening a file to send, materializing a tombstone, and what
    each records in the state store.

    The hooks of the sources exist for their tests and do nothing in the
    program; they are left out. *)

From S2P Require Import Prelude Bytes Utf8 Cursor Canonical Path Identity Records Roster Database State.
From S2P Require Import Platform.

Inductive StableRootError :=
  | RootIo (e : IoError)
  | RootUnstable.

Section root.
Context `{Platform}.

Record StableRoot := mkStableRoot { root_directory : Dir; root_resolved_path : bytes }.

Definition OPEN_ATTEMPTS : nat := 8.

(** The loop: only a failure to open the configured path is tried again. *)
Fixpoint open_stable_root_loop (attempts : nat) (path : bytes) (last_open_error : option IoError)
    : IO StableRootError StableRoot :=
  match attempts with
  | O => ifail (match last_open_error with Some e => RootIo e | None => RootUnstable end)
  | S attempts =>
      opened <== iresult (on_fs (open_ambient_dir path)) ;;
      match opened with
      | Err e => open_stable_root_loop attempts path (Some e)
      | Ok configured =>
          configured_metadata <== imap_err RootIo (on_fs (dir_metadata configured)) ;;
          resolved_path <== imap_err (fun _ => RootUnstable) (on_fs (canonicalize path)) ;;
          resolved_directory <== imap_err (fun _ => RootUnstable) (on_fs (open_ambient_dir resolved_path)) ;;
          resolved_metadata <== imap_err (fun _ => RootUnstable) (on_fs (dir_metadata resolved_directory)) ;;
          resolved_after <== imap_err (fun _ => RootUnstable) (on_fs (canonicalize path)) ;;
          if bool_decide (resolved_path = resolved_after)
             && bool_decide (configured_metadata = resolved_metadata)
          then iret (mkStableRoot configured resolved_path)
          else ifail RootUnstable
      end
  end.

Definition open_stable_root (path : bytes) : IO StableRootError StableRoot :=
  open_stable_root_loop OPEN_ATTEMPTS path None.
End root.

(** ** Installation *)

Record InstalledFile := mkInstalled {
  inst_path : bytes;
  inst_resolved_root : bytes;
  inst_fingerprint : FileFingerprint;
}.

Inductive InstallError :=
  | InstallIo (e : IoError)
  | InstallTombstone
  | NotTombstone
  | UnsafeDestination
  | LocalNameCollision
  | UnstableRoot
  | SizeMismatch
  | HashMismatch
  | RandomFailure
  | TemporaryName
  | TimestampFailure
  | PostRenameDurability (installed : InstalledFile) (source : IoError)
  | PostRenameState (installed : InstalledFile) (source : StateError)
  | InstallState (e : StateError).

(** [Component::Normal] *)
Definition is_normal (component : bytes) : bool :=
  negb (bool_decide (component = [])) && negb (bool_decide (component = lit "."))
  && negb (bool_decide (component = lit "..")).

(** [relative.parent()] and [relative.file_name()] of a protocol path, as
    components. *)
Definition parent_components (p : ProtocolPath) : list bytes := removelast (split_slash (path_str p)).
Definition file_name (p : ProtocolPath) : option bytes :=
  match last (split_slash (path_str p)) with
  | Some name => if is_normal name then Some name else None
  | None => None
  end.

Section installer.
Context `{Crypto, Platform}.

(** [?] on an [io::Result] *)
Definition io {A} (m : FS -> result A IoError * FS) : IO InstallError A := imap_err InstallIo (on_fs m).

(** [match open_stable_root(..)] of the three operations. *)
Definition acquire_root (root : bytes) : IO InstallError StableRoot :=
  imap_err (fun e => match e with RootIo e => InstallIo e | RootUnstable => UnstableRoot end)
    (open_stable_root root).

(** The loop over the entries stops at the name or at the first entry that
    cannot be read. *)
Fixpoint find_entry (listed : list (result bytes IoError)) (name : bytes) : result bool InstallError :=
  match listed with
  | [] => Ok false
  | Err e :: _ => Err (InstallIo e)
  | Ok entry :: listed => if bool_decide (entry = name) then Ok true else find_entry listed name
  end.

Definition exact_entry_exists (parent : Dir) (name : bytes) : IO InstallError bool :=
  listed <== io (entries parent) ;; ilift (find_entry listed name).

Definition open_relative_dir (root : Dir) (relative : list bytes) : FS -> result Dir IoError * FS :=
  if bool_decide (relative = []) then try_clone root else open_dir root relative.

Fixpoint ensure_components (root current : Dir) (logical : list bytes) (components : list bytes)
    : IO InstallError unit :=
  match components with
  | [] => iret tt
  | component :: components =>
      if negb (is_normal component) then ifail UnsafeDestination
      else
        let logical := logical ++ [component] in
        exists_ <== exact_entry_exists current component ;;
        if exists_ then
          current <== imap_err (fun _ => UnsafeDestination) (on_fs (open_dir root logical)) ;;
          ensure_components root current logical components
        else
          found <== iresult (on_fs (symlink_metadata current component)) ;;
          match found with
          | Ok _ => ifail LocalNameCollision
          | Err NotFound =>
              _ <== io (create_dir current component) ;;
              created <== io (open_dir current [component]) ;;
              _ <== io (sync_directory created) ;;
              _ <== io (sync_directory current) ;;
              ensure_components root created logical components
          | Err e => ifail (InstallIo e)
          end
  end.

Definition ensure_safe_parent (root : Dir) (relative : list bytes) : IO InstallError unit :=
  current <== io (try_clone root) ;;
  ensure_components root current [] relative.

Fixpoint open_components (root current : Dir) (logical : list bytes) (components : list bytes)
    : IO InstallError (option Dir) :=
  match components with
  | [] => iret (Some current)
  | component :: components =>
      if negb (is_normal component) then ifail UnsafeDestination
      else
        let logical := logical ++ [component] in
        exists_ <== exact_entry_exists current component ;;
        if negb exists_ then iret None
        else
          current <== imap_err (fun _ => UnsafeDestination) (on_fs (open_dir root logical)) ;;
          open_components root current logical components
  end.

Definition open_existing_safe_parent (root : Dir) (relative : list bytes) : IO InstallError (option Dir) :=
  current <== io (try_clone root) ;;
  open_components root current [] relative.

Definition reject_concrete_collision (root : Dir) (parent_relative : list bytes) (name : bytes)
    : IO InstallError unit :=
  parent <== io (open_relative_dir root parent_relative) ;;
  exists_ <== exact_entry_exists parent name ;;
  if exists_ then iret tt
  else
    found <== iresult (on_fs (symlink_metadata parent name)) ;;
    match found with
    | Ok _ => ifail LocalNameCollision
    | Err NotFound => iret tt
    | Err e => ifail (InstallIo e)
    end.

(** Decimal digits of a non-negative integer, as [format!] prints them. *)
Fixpoint decimal_loop (fuel : nat) (n : Z) (acc : bytes) : bytes :=
  match fuel with
  | O => acc
  | S fuel =>
      let acc := byte_of_Z (0x30 + n mod 10) :: acc in
      if n <? 10 then acc else decimal_loop fuel (n / 10) acc
  end.
Definition decimal (n : Z) : bytes := decimal_loop 20 n [].

Definition INTERNAL_PREFIX : bytes := lit ".skillsync-tmp-".

Definition temporary_file_name (random : Z) : bytes :=
  INTERNAL_PREFIX ++ decimal process_id ++ lit "-" ++ decimal random.

Fixpoint temporary_name_loop (attempts : nat) (root : Dir) : IO InstallError bytes :=
  match attempts with
  | O => ifail TemporaryName
  | S attempts =>
      random <== (fun w => let '(r, fs) := random_u64 (w_fs w) in (ok_or r RandomFailure, set_fs w fs)) ;;
      let name := temporary_file_name random in
      found <== iresult (on_fs (symlink_metadata root name)) ;;
      match found with
      | Err NotFound => iret name
      | Ok _ => temporary_name_loop attempts root
      | Err e => ifail (InstallIo e)
      end
  end.
Definition temporary_name (root : Dir) : IO InstallError bytes := temporary_name_loop 16 root.

Definition BUFFER : Z := 64 * 1024.

(** The loop that copies at most [declared_size + 1] bytes; [limit] is what the
    [Take] adaptor has left.  It returns what was hashed, which is what was
    written; [None] when the fuel is not enough. *)
Fixpoint copy_loop (fuel : nat) (reader : Z -> FS -> result bytes IoError * FS) (temporary : Handle)
    (declared_size limit : Z) (hashed : bytes) : IO InstallError (option bytes) :=
  match fuel with
  | O => iret None
  | S fuel =>
      chunk <== (if limit =? 0 then iret [] else io (reader (Z.min BUFFER limit))) ;;
      if len chunk =? 0 then iret (Some hashed)
      else
        written <== ilift (ok_or (u64_checked_add (len hashed) (len chunk)) SizeMismatch) ;;
        if declared_size <? written then ifail SizeMismatch
        else
          _ <== io (file_write_all temporary chunk) ;;
          copy_loop fuel reader temporary declared_size (limit - len chunk) (hashed ++ chunk)
  end.

Definition take_limit (declared_size : Z) : Z := Z.min (2 ^ 64 - 1) (declared_size + 1).

(** Every round but the last reads at least one byte. *)
Definition copy_fuel (declared_size : Z) : nat := Z.to_nat (declared_size + 2).

Definition set_mtime (file : Handle) (modified_ns : Z) : IO InstallError unit :=
  let seconds := modified_ns / 1000000000 in
  nanos <== ilift (ok_or (u32_try_from (modified_ns mod 1000000000)) TimestampFailure) ;;
  io (set_file_mtime file seconds nanos).

Definition metadata_time_ns (metadata : Metadata) : Z :=
  i64_saturating_add (i64_saturating_mul (md_mtime metadata) 1000000000) (md_mtime_nsec metadata).

(** The closure between the choice of the temporary name and its removal. *)
Definition install_body (root_dir : Dir) (resolved_root : bytes) (p : ProtocolPath) (name : bytes)
    (temporary : bytes) (modified_ns declared_size : Z) (declared_hash : array 32)
    (reader : Z -> FS -> result bytes IoError * FS) : IO InstallError InstalledFile :=
  let parent_relative := parent_components p in
  temporary_file <== io (open_new root_dir temporary) ;;
  copied <== copy_loop (copy_fuel declared_size) reader temporary_file declared_size
               (take_limit declared_size) [] ;;
  let hashed := default [] copied in
  if negb (len hashed =? declared_size) then ifail SizeMismatch
  else if bool_decide (blake3 hashed <> declared_hash) then ifail HashMismatch
  else
    _ <== io (file_flush temporary_file) ;;
    _ <== set_mtime temporary_file modified_ns ;;
    _ <== io (file_sync_all temporary_file) ;;
    metadata <== io (file_metadata temporary_file) ;;
    let fingerprint := mkFingerprint (metadata_time_ns metadata) (md_len metadata) declared_hash in
    _ <== ensure_safe_parent root_dir parent_relative ;;
    _ <== reject_concrete_collision root_dir parent_relative name ;;
    _ <== io (rename root_dir temporary root_dir (parent_relative ++ [name])) ;;
    let installed := mkInstalled (under resolved_root p) resolved_root fingerprint in
    synced <== iresult (parent <== on_fs (open_relative_dir root_dir parent_relative) ;;
                        on_fs (sync_directory parent)) ;;
    match synced with
    | Err source => ifail (PostRenameDurability installed source)
    | Ok _ => iret installed
    end.

Definition is_durability (r : result InstalledFile InstallError) : bool :=
  match r with Err (PostRenameDurability _ _) => true | _ => false end.

Definition install_file (root : bytes) (r : record) (reader : Z -> FS -> result bytes IoError * FS)
    : IO InstallError InstalledFile :=
  match rec_kind r with
  | Tombstone => ifail InstallTombstone
  | File declared_size declared_hash =>
      stable <== acquire_root root ;;
      let root_dir := root_directory stable in
      let parent_relative := parent_components (rec_path r) in
      _ <== ensure_safe_parent root_dir parent_relative ;;
      name <== ilift (ok_or (file_name (rec_path r)) UnsafeDestination) ;;
      _ <== reject_concrete_collision root_dir parent_relative name ;;
      temporary <== temporary_name root_dir ;;
      outcome <== iresult (install_body root_dir (root_resolved_path stable) (rec_path r) name temporary
                             (rec_modified_ns r) declared_size declared_hash reader) ;;
      _ <== (if is_durability outcome then iret tt
             else _ <== iresult (F := InstallError) (on_fs (remove_file root_dir temporary)) ;; iret tt) ;;
      ilift outcome
  end.

(** ** Opening a file to send *)

Fixpoint hash_loop (fuel : nat) (file : Handle) (hashed : bytes) : IO InstallError (option bytes) :=
  match fuel with
  | O => iret None
  | S fuel =>
      chunk <== io (file_read file BUFFER) ;;
      if len chunk =? 0 then iret (Some hashed) else hash_loop fuel file (hashed ++ chunk)
  end.

(** [fuel] bounds the number of reads: the sources read until the end of the
    file, however often it grows; [None] when the file did not end. *)
Definition open_verified_file (fuel : nat) (root : bytes) (r : record) : IO InstallError (option Handle) :=
  match rec_kind r with
  | Tombstone => ifail InstallTombstone
  | File declared_size declared_hash =>
      stable <== acquire_root root ;;
      let root_dir := root_directory stable in
      let parent_relative := parent_components (rec_path r) in
      parent <== open_existing_safe_parent root_dir parent_relative ;;
      match parent with
      | None => ifail UnsafeDestination
      | Some _ =>
          file <== io (open_at root_dir (split_slash (path_str (rec_path r)))) ;;
          metadata <== io (file_metadata file) ;;
          if negb (md_is_file metadata) || negb (md_len metadata =? declared_size)
          then ifail SizeMismatch
          else
            hashed <== hash_loop fuel file [] ;;
            match hashed with
            | None => iret None
            | Some hashed =>
                if bool_decide (blake3 hashed <> declared_hash) then ifail HashMismatch
                else
                  _ <== io (file_seek_start file) ;;
                  iret (Some file)
            end
      end
  end.

Context `{EventJson}.

(** ** What the state store records *)

(** [?] on a call of the state store *)
Definition st {A} (m : Db A) : IO InstallError A := imap_err InstallState (on_db m).

Definition materialize_tombstone (root : bytes) (r : record) (max_logs : Z) : IO InstallError unit :=
  match rec_kind r with
  | File _ _ => ifail NotTombstone
  | Tombstone =>
      stable <== acquire_root root ;;
      parent <== open_existing_safe_parent (root_directory stable) (parent_components (rec_path r)) ;;
      _ <== (match parent with
             | None => iret tt
             | Some parent =>
                 name <== ilift (ok_or (file_name (rec_path r)) UnsafeDestination) ;;
                 removed <== iresult (on_fs (remove_file parent name)) ;;
                 match removed with
                 | Ok _ => io (sync_directory parent)
                 | Err NotFound => iret tt
                 | Err e => ifail (InstallIo e)
                 end
             end) ;;
      now <== now_ns ;;
      st (mark_tombstone_materialized_and_log (rec_collection r) (path_str (rec_path r)) now
            (FileInstalled (rec_collection r) (rec_path r)) max_logs)
  end.

Definition mark_installed (r : record) (installed : InstalledFile) (event : OperationalEvent)
    (max_logs : Z) : IO InstallError unit :=
  now <== now_ns ;;
  imap_err (PostRenameState installed)
    (on_db (mark_materialized_and_log (rec_collection r) (path_str (rec_path r))
       (mkMaterialized (inst_resolved_root installed) (inst_fingerprint installed)) now event max_logs)).

Definition apply_file_fixture (root : bytes) (r : record) (reader : Z -> FS -> result bytes IoError * FS)
    (max_logs : Z) : IO InstallError InstalledFile :=
  outcome <== iresult (install_file root r reader) ;;
  match outcome with
  | Ok installed =>
      _ <== mark_installed r installed (FileInstalled (rec_collection r) (rec_path r)) max_logs ;;
      iret installed
  | Err (PostRenameDurability installed source) =>
      _ <== mark_installed r installed (FileApplyRejected (rec_collection r) (rec_path r)) max_logs ;;
      ifail (PostRenameDurability installed source)
  | Err UnstableRoot => ifail UnstableRoot
  | Err error =>
      now <== now_ns ;;
      _ <== st (mark_repair_required_and_log (rec_collection r) (path_str (rec_path r)) now
                  (FileApplyRejected (rec_collection r) (rec_path r)) max_logs) ;;
      ifail error
  end.
End installer.
