(* ===== verification/InstallLaws.v ===== *)
(** Installation: what an installed file holds, what a failed installation
    leaves alone, and what the state store says of each outcome. *)

From S2P Require Import Prelude Bytes Utf8 Cursor Canonical Path Identity Records Winners Roster Database.
From S2P Require Import State StateLaws Platform Installer.

(** ** What the documentation of the calls promises

    [data] is the content of a file, [entry] the regular file that a path below
    a directory names without following a symbolic link at its end.  Nothing
    else changes the file system during a call.  The laws are stated for the
    calls of the sources and say more than the documentation where these never
    get to: a handle is written from the start on and not moved in between, the
    file that is renamed has no other name, and what is removed is a name that
    was created as a file, not a symbolic link to a directory. *)
Class PlatformLaws `{Platform} := {
  FileId : Type;
  id_of : Handle -> FileId;
  data : FS -> FileId -> bytes;
  entry : FS -> Dir -> list bytes -> option FileId;
  same_fs : FS -> FS -> Prop :=
    fun fs fs' => (forall i, data fs' i = data fs i) /\ (forall d p, entry fs' d p = entry fs d p);
  (** calls that look, and calls that fail *)
  law_open_ambient path fs r fs' : open_ambient_dir path fs = (r, fs') -> same_fs fs fs';
  law_canonicalize path fs r fs' : canonicalize path fs = (r, fs') -> same_fs fs fs';
  law_dir_metadata d fs r fs' : dir_metadata d fs = (r, fs') -> same_fs fs fs';
  law_try_clone d fs r fs' : try_clone d fs = (r, fs') -> same_fs fs fs';
  law_entries d fs r fs' : entries d fs = (r, fs') -> same_fs fs fs';
  law_open_dir d p fs r fs' : open_dir d p fs = (r, fs') -> same_fs fs fs';
  law_open_at d p fs r fs' : open_at d p fs = (r, fs') -> same_fs fs fs';
  law_symlink_metadata d n fs r fs' : symlink_metadata d n fs = (r, fs') -> same_fs fs fs';
  law_sync_directory d fs r fs' : sync_directory d fs = (r, fs') -> same_fs fs fs';
  law_read h n fs r fs' : file_read h n fs = (r, fs') -> same_fs fs fs';
  law_flush h fs r fs' : file_flush h fs = (r, fs') -> same_fs fs fs';
  law_sync_all h fs r fs' : file_sync_all h fs = (r, fs') -> same_fs fs fs';
  law_metadata h fs r fs' : file_metadata h fs = (r, fs') -> same_fs fs fs';
  law_seek h fs r fs' : file_seek_start h fs = (r, fs') -> same_fs fs fs';
  law_set_mtime h s n fs r fs' : set_file_mtime h s n fs = (r, fs') -> same_fs fs fs';
  law_random fs r fs' : random_u64 fs = (r, fs') -> same_fs fs fs';
  law_open_new_Err d n fs e fs' : open_new d n fs = (Err e, fs') -> same_fs fs fs';
  law_rename_Err d n d' p fs e fs' : rename d n d' p fs = (Err e, fs') -> same_fs fs fs';
  (** a name that is not found names no file *)
  law_not_found d n fs fs' : symlink_metadata d n fs = (Err NotFound, fs') -> entry fs d [n] = None;
  (** a new directory hides nothing *)
  law_create_dir d n fs r fs' : create_dir d n fs = (r, fs') ->
    (forall i, data fs' i = data fs i) /\ forall d' p i, entry fs d' p = Some i -> entry fs' d' p = Some i;
  (** a new file is empty, has its name, and is none of the files there were *)
  law_open_new d n fs h fs' : open_new d n fs = (Ok h, fs') ->
    data fs' (id_of h) = [] /\ entry fs' d [n] = Some (id_of h) /\
    forall d' p i, entry fs d' p = Some i ->
      i <> id_of h /\ entry fs' d' p = Some i /\ data fs' i = data fs i;
  (** writing appends, to that file only; a failed write may have written a part *)
  law_write h l fs r fs' : file_write_all h l fs = (r, fs') ->
    (r = Ok tt -> data fs' (id_of h) = data fs (id_of h) ++ l) /\
    (forall i, i <> id_of h -> data fs' i = data fs i) /\ forall d p, entry fs' d p = entry fs d p;
  (** renaming moves the file to the path, over what was there, and no other name *)
  law_rename d n d' p fs fs' : rename d n d' p fs = (Ok tt, fs') -> last p <> Some n ->
    (forall i, data fs' i = data fs i) /\ entry fs' d' p = entry fs d [n] /\ entry fs' d [n] = None;
  (** removing a regular file leaves the names of other files; removing nothing changes nothing *)
  law_remove d n fs r fs' : remove_file d n fs = (r, fs') ->
    (forall i, data fs' i = data fs i) /\
    forall t d' p i, entry fs d [n] = Some t -> entry fs d' p = Some i -> i <> t -> entry fs' d' p = Some i;
  law_remove_none d n fs r fs' : remove_file d n fs = (r, fs') -> entry fs d [n] = None -> same_fs fs fs';
}.

Section laws.
Context `{PlatformLaws}.

#[global] Instance same_fs_refl : Reflexive same_fs.
Proof. by split. Qed.
#[global] Instance same_fs_trans : Transitive same_fs.
Proof. intros a b c [D1 E1] [D2 E2]. split; intros; [by rewrite D2 | by rewrite E2]. Qed.

(** [quiet m]: every name of a file quiet naming that file, with its content. *)
Definition kept (fs fs' : FS) : Prop :=
  (forall i, data fs' i = data fs i) /\ forall d p i, entry fs d p = Some i -> entry fs' d p = Some i.
#[global] Instance kept_refl : Reflexive kept.
Proof. by split. Qed.
#[global] Instance kept_trans : Transitive kept.
Proof. intros a b c [D1 E1] [D2 E2]. split; intros; [by rewrite D2 | by apply E2, E1]. Qed.

Lemma same_kept fs fs' : same_fs fs fs' -> kept fs fs'.
Proof. intros [D E]. split; [done|]. intros d p i. by rewrite E. Qed.

Definition kept_files (w w' : World) : Prop := kept (w_fs w) (w_fs w').
#[global] Instance kept_files_preorder : PreOrder kept_files.
Proof. unfold kept_files. split; [by intros w | intros x y z; apply kept_trans]. Qed.
Abbreviation quiet := (respects kept_files).

Lemma quiet_fs {A} (m : FS -> result A IoError * FS) :
  (forall fs r fs', m fs = (r, fs') -> kept fs fs') -> quiet (on_fs m).
Proof. intros Hm w r w'. unfold on_fs. destruct (m (w_fs w)) eqn:E. intros [= _ <-]. by apply Hm in E. Qed.
Lemma quiet_now {E} : quiet (now_ns (E := E)).
Proof. by intros w r w' [= _ <-]. Qed.

Lemma kept_call {A} (m : FS -> result A IoError * FS) :
  (forall fs r fs', m fs = (r, fs') -> same_fs fs fs') -> quiet (on_fs m).
Proof. intros Hm. apply quiet_fs. intros fs r fs' E. by eapply same_kept, Hm. Qed.

Ltac quiet_call :=
  first
    [ apply quiet_now
    | apply kept_call; first
        [ exact (law_open_ambient _) | exact (law_canonicalize _) | exact (law_dir_metadata _)
        | exact (law_try_clone _) | exact (law_entries _) | exact (law_open_dir _ _) | exact (law_open_at _ _)
        | exact (law_symlink_metadata _ _) | exact (law_sync_directory _) | exact (law_read _ _)
        | exact (law_flush _) | exact (law_sync_all _) | exact (law_metadata _) | exact (law_seek _)
        | exact (law_set_mtime _ _ _) ]
    | apply quiet_fs; exact (law_create_dir _ _) ].
(** [quieten] walks through an operation made of calls that keep names and contents. *)
Ltac quieten := walk quiet_call.

Context `{Crypto}.

Lemma quiet_stable_root n path e : quiet (open_stable_root_loop n path e).
Proof. revert e. induction n as [|n IH]; intros e; simpl; quieten. apply IH. Qed.

Lemma quiet_acquire root : quiet (acquire_root root).
Proof. apply respects_map_err, quiet_stable_root. Qed.

Lemma quiet_exact parent n : quiet (exact_entry_exists parent n).
Proof. unfold exact_entry_exists, io. quieten. Qed.

Lemma quiet_ensure_components root current logical cs : quiet (ensure_components root current logical cs).
Proof.
  revert current logical. induction cs as [|c cs IH]; intros current logical; simpl; unfold io; quieten;
    first [apply quiet_exact | apply IH].
Qed.

Lemma quiet_ensure root p : quiet (ensure_safe_parent root p).
Proof. unfold ensure_safe_parent, io. quieten. apply quiet_ensure_components. Qed.

Lemma quiet_open_relative root p : quiet (on_fs (open_relative_dir root p)).
Proof. unfold open_relative_dir. case_bool_decide; quieten. Qed.

Lemma quiet_reject root p n : quiet (reject_concrete_collision root p n).
Proof.
  unfold reject_concrete_collision, io. apply (respects_bind kept_files); [apply respects_map_err, quiet_open_relative|].
  intros d. apply (respects_bind kept_files); [apply quiet_exact|]. intros b. quieten.
Qed.

Lemma quiet_temporary_loop n root : quiet (temporary_name_loop n root).
Proof.
  induction n as [|n IH]; [by apply (respects_fail kept_files)|]. cbn [temporary_name_loop]. apply (respects_bind kept_files).
  - intros w r w' E. destruct (random_u64 (w_fs w)) as [x fs] eqn:Er. injection E as _ <-.
    apply same_kept, law_random in Er || eapply same_kept, law_random, Er.
  - intros random. unfold io. quieten. apply IH.
Qed.

(** ** The copy loop *)

(** The reader is another file: reading it changes no file and no name. *)
Definition reader_quiet (reader : Z -> FS -> result bytes IoError * FS) : Prop :=
  forall n fs r fs', reader n fs = (r, fs') -> same_fs fs fs'.

(** [fs] is [fs0] with the new file [t] under the name [tmp] of [root]. *)
Definition staged (fs0 fs : FS) (root : Dir) (tmp : bytes) (t : FileId) : Prop :=
  entry fs root [tmp] = Some t /\
  forall d p i, entry fs0 d p = Some i -> i <> t /\ entry fs d p = Some i /\ data fs i = data fs0 i.

Lemma staged_kept fs0 fs fs' root tmp t :
  kept fs fs' -> staged fs0 fs root tmp t -> staged fs0 fs' root tmp t /\ data fs' t = data fs t.
Proof.
  intros [D E] [Ht Hold]. split; [|done]. split; [by apply E|]. intros d p i Hi.
  destruct (Hold d p i Hi) as (? & ? & ?). rewrite D. auto.
Qed.

Lemma staged_write fs0 fs fs' root tmp h l r :
  file_write_all h l fs = (r, fs') -> staged fs0 fs root tmp (id_of h) ->
  staged fs0 fs' root tmp (id_of h) /\ (r = Ok tt -> data fs' (id_of h) = data fs (id_of h) ++ l).
Proof.
  intros (Hw & D & E)%law_write [Ht Hold]. split; [|done]. split; [by rewrite E|].
  intros d p i Hi. destruct (Hold d p i Hi) as (? & ? & ?). rewrite E, D by done. auto.
Qed.

Lemma quiet_reader reader n : reader_quiet reader -> quiet (io (reader n)).
Proof. intros Hr. apply respects_map_err, kept_call. intros fs r fs'. apply Hr. Qed.

Lemma copy_loop_staged fs0 root tmp fuel reader h size limit hashed w r w' :
  reader_quiet reader -> staged fs0 (w_fs w) root tmp (id_of h) -> data (w_fs w) (id_of h) = hashed ->
  copy_loop fuel reader h size limit hashed w = (r, w') ->
  staged fs0 (w_fs w') root tmp (id_of h) /\
  forall content, r = Ok (Some content) -> data (w_fs w') (id_of h) = content.
Proof.
  intros Hr. revert limit hashed w. induction fuel as [|fuel IH]; intros limit hashed w Hs Hd E.
  { injection E as <- <-. by split. }
  cbn [copy_loop] in E. unfold ibind at 1 in E.
  destruct ((if limit =? 0 then iret [] else io (reader (Z.min BUFFER limit))) w) as [[chunk|e] w1] eqn:Er.
  2: { injection E as <- <-. split; [|done]. eapply staged_kept; [|exact Hs].
       destruct (limit =? 0); [done|]. by apply (quiet_reader _ _ Hr) in Er. }
  assert (kept (w_fs w) (w_fs w1)) as Hk.
  { destruct (limit =? 0); [by injection Er as _ <-|]. by apply (quiet_reader _ _ Hr) in Er. }
  apply (staged_kept _ _ _ _ _ _ Hk) in Hs as [Hs Hd1]. rewrite Hd in Hd1.
  destruct (len chunk =? 0); [injection E as <- <-; split; [done|]; by intros ? [= <-]|].
  unfold ibind at 1, ilift in E. destruct (ok_or _ _) as [written|e]; [|injection E as <- <-; by split].
  destruct (size <? written); [injection E as <- <-; by split|].
  unfold ibind, io, imap_err, on_fs in E. destruct (file_write_all h chunk (w_fs w1)) as [x fs2] eqn:Ew.
  pose proof (staged_write _ _ _ _ _ _ _ _ Ew Hs) as [Hs2 Hd2].
  destruct x as [[]|e]; cbn [map_err] in E; [|injection E as <- <-; by split].
  apply (IH _ (hashed ++ chunk)) in E; [done | done |]. cbn [w_fs set_fs]. rewrite Hd2 by done. by rewrite Hd1.
Qed.

(** The fuel is enough: every round but the last reads at least one byte. *)
Lemma copy_loop_ends fuel reader h size limit hashed w r w' :
  (Z.to_nat (size - len hashed) + 1 < fuel)%nat -> len hashed <= size ->
  copy_loop fuel reader h size limit hashed w = (r, w') -> r <> Ok None.
Proof.
  revert limit hashed w. induction fuel as [|fuel IH]; intros limit hashed w Hf Hl E; [lia|].
  cbn [copy_loop] in E. unfold ibind at 1 in E.
  destruct ((if limit =? 0 then iret [] else io (reader (Z.min BUFFER limit))) w) as [[chunk|e] w1]; [|by injection E as <- _].
  destruct (Z.eqb_spec (len chunk) 0) as [Hz|Hz]; [by injection E as <- _|].
  pose proof (len_nonneg chunk).
  unfold ibind at 1, ilift in E. destruct (u64_checked_add _ _) as [written|] eqn:Ew; cbn [ok_or] in E; [|by injection E as <- _].
  apply u64_checked_add_Some in Ew as [-> _].
  destruct (Z.ltb_spec size (len hashed + len chunk)); [by injection E as <- _|].
  unfold ibind in E. destruct (io (file_write_all h chunk) w1) as [[u|e] w2]; [|by injection E as <- _].
  apply IH in E; [done | |]; rewrite len_app; lia.
Qed.

(** ** Installation *)

(** The file that [p] names below [d] holds [content]. *)
Definition file_holds (fs : FS) (d : Dir) (p : list bytes) (content : bytes) : Prop :=
  exists i, entry fs d p = Some i /\ data fs i = content.

(** Every file that had a name has it still, and its content. *)
Definition intact (fs fs' : FS) : Prop :=
  forall d p i, entry fs d p = Some i -> entry fs' d p = Some i /\ data fs' i = data fs i.

Lemma kept_intact fs fs' : kept fs fs' -> intact fs fs'.
Proof. intros [D E] d p i Hi. auto. Qed.
Lemma intact_trans a b c : intact a b -> intact b c -> intact a c.
Proof. intros Hab Hbc d p i Hi. destruct (Hab d p i Hi) as [Hb <-]. by apply Hbc. Qed.
Lemma staged_intact fs0 fs root tmp t : staged fs0 fs root tmp t -> intact fs0 fs.
Proof. intros [_ Hold] d p i Hi. by destruct (Hold d p i Hi) as (_ & ? & ?). Qed.

Lemma kept_holds fs fs' d p content : kept fs fs' -> file_holds fs d p content -> file_holds fs' d p content.
Proof. intros [D E] (i & Hi & Hd). exists i. split; [by apply E | by rewrite D]. Qed.

Definition good_content (size : Z) (hash : array 32) (content : bytes) : Prop :=
  len content = size /\ blake3 content = hash.

(** What an outcome of the body of the installation says of the files. *)
Definition body_post (fs fs' : FS) (root : Dir) (p : list bytes) (tmp : bytes) (size : Z) (hash : array 32)
    (r : result InstalledFile InstallError) : Prop :=
  match r with
  | Ok inst | Err (PostRenameDurability inst _) =>
      fp_hash (inst_fingerprint inst) = hash /\ entry fs' root [tmp] = None /\
      exists content, good_content size hash content /\ file_holds fs' root p content
  | Err _ => (exists t, staged fs fs' root tmp t) \/ (intact fs fs' /\ entry fs' root [tmp] = None)
  end.

(** The calls between the copy and the rename keep the files. *)
Definition before_rename (root_dir : Dir) (p : ProtocolPath) (name : bytes)
    (modified_ns : Z) (declared_hash : array 32) (h : Handle) : IO InstallError FileFingerprint :=
  _ <== io (file_flush h) ;;
  _ <== set_mtime h modified_ns ;;
  _ <== io (file_sync_all h) ;;
  metadata <== io (file_metadata h) ;;
  _ <== ensure_safe_parent root_dir (parent_components p) ;;
  _ <== reject_concrete_collision root_dir (parent_components p) name ;;
  iret (mkFingerprint (metadata_time_ns metadata) (md_len metadata) declared_hash).

Definition rename_and_sync (root_dir : Dir) (resolved_root : bytes) (p : ProtocolPath) (name tmp : bytes)
    (fingerprint : FileFingerprint) : IO InstallError InstalledFile :=
  _ <== io (rename root_dir tmp root_dir (parent_components p ++ [name])) ;;
  let installed := mkInstalled (under resolved_root p) resolved_root fingerprint in
  synced <== iresult (parent <== on_fs (open_relative_dir root_dir (parent_components p)) ;;
                      on_fs (sync_directory parent)) ;;
  match synced with
  | Err source => ifail (PostRenameDurability installed source)
  | Ok _ => iret installed
  end.

Lemma ibind_assoc {E A B C} (m : IO E A) (f : A -> IO E B) (k : B -> IO E C) w :
  ibind (ibind m f) k w = ibind m (fun a => ibind (f a) k) w.
Proof. unfold ibind. by destruct (m w) as [[a|e] w1]. Qed.

Lemma ibind_ext {E A B} (m : IO E A) (f f' : A -> IO E B) w :
  (forall a w1, f a w1 = f' a w1) -> ibind m f w = ibind m f' w.
Proof. intros Hf. unfold ibind. destruct (m w) as [[a|e] w1]; [apply Hf | done]. Qed.

Lemma install_body_split root_dir resolved p name tmp mtime size hash reader w :
  install_body root_dir resolved p name tmp mtime size hash reader w =
  (h <== io (open_new root_dir tmp) ;;
   copied <== copy_loop (copy_fuel size) reader h size (take_limit size) [] ;;
   if negb (len (default [] copied) =? size) then ifail SizeMismatch
   else if bool_decide (blake3 (default [] copied) <> hash) then ifail HashMismatch
   else ibind (before_rename root_dir p name mtime hash h) (rename_and_sync root_dir resolved p name tmp)) w.
Proof.
  unfold install_body. apply ibind_ext. intros h w1. apply ibind_ext. intros c w2.
  destruct (negb _); [done|]. case_bool_decide; [done|]. symmetry. unfold before_rename.
  repeat (rewrite ibind_assoc; apply ibind_ext; intros ? ?). done.
Qed.

Lemma quiet_before_rename root p name mtime hash h : quiet (before_rename root p name mtime hash h).
Proof. unfold before_rename, set_mtime, io. quieten; first [apply quiet_ensure | apply quiet_reject]. Qed.

Lemma sync_parent_same root p w r w' :
  (parent <== on_fs (open_relative_dir root p) ;; on_fs (sync_directory parent)) w = (r, w') ->
  same_fs (w_fs w) (w_fs w').
Proof.
  unfold ibind, on_fs. destruct (open_relative_dir root p (w_fs w)) as [x fs1] eqn:Eo.
  assert (same_fs (w_fs w) fs1) as Hs.
  { revert Eo. unfold open_relative_dir. case_bool_decide; [apply law_try_clone | apply law_open_dir]. }
  destruct x as [d|e]; [|by intros [= _ <-]]. cbn [w_fs set_fs].
  destruct (sync_directory d fs1) as [y fs2] eqn:Es. intros [= _ <-]. transitivity fs1; [done|].
  by apply law_sync_directory in Es.
Qed.

Lemma rename_and_sync_post fs0 root resolved p name tmp fp hash size content t w r w' :
  name <> tmp -> fp_hash fp = hash -> good_content size hash content ->
  staged fs0 (w_fs w) root tmp t -> data (w_fs w) t = content ->
  rename_and_sync root resolved p name tmp fp w = (r, w') ->
  body_post fs0 (w_fs w') root (parent_components p ++ [name]) tmp size hash r.
Proof.
  intros Hne Hfp Hgood Hs Hd E. unfold rename_and_sync in E. unfold ibind at 1 in E.
  destruct (io (rename root tmp root (parent_components p ++ [name])) w) as [[[]|e] w1] eqn:Er;
    unfold io, imap_err, on_fs in Er; destruct (rename _ _ _ _ _) as [[[]|x] fs1] eqn:Ex; try done.
  - injection Er as <-. apply law_rename in Ex as (D & Ep & En); [|rewrite last_snoc; congruence].
    unfold ibind at 1, iresult in E.
    destruct ((parent <== on_fs (open_relative_dir root (parent_components p)) ;;
               on_fs (sync_directory parent)) (set_fs w fs1)) as [synced w2] eqn:Esync.
    apply sync_parent_same in Esync as [D2 E2]. cbn [w_fs set_fs] in D2, E2.
    assert (fp_hash fp = hash /\ entry (w_fs w2) root [tmp] = None /\
      exists content, good_content size hash content /\
        file_holds (w_fs w2) root (parent_components p ++ [name]) content) as Hpost.
    { split; [done|]. split; [by rewrite E2|]. exists content. split; [done|]. exists t.
      rewrite E2, D2, Ep, D. destruct Hs as [Ht _]. by split. }
    destruct synced as [u|e]; injection E as <- <-; exact Hpost.
  - injection Er as <- <-. injection E as <- <-. left. exists t. apply law_rename_Err in Ex.
    by eapply staged_kept; [apply same_kept|].
Qed.

(** Before the rename no error says that the file was installed. *)
Definition before (e : InstallError) : bool :=
  match e with PostRenameDurability _ _ | PostRenameState _ _ | InstallState _ => false | _ => true end.
Definition fails_before {A} (m : IO InstallError A) : Prop :=
  forall w e w', m w = (Err e, w') -> before e = true.

Lemma fails_ret {A} (a : A) : fails_before (iret a).
Proof. by intros w e w'. Qed.
Lemma fails_fail {A} e : before e = true -> fails_before (ifail (A := A) e).
Proof. by intros He w e' w' [= <- _]. Qed.
Lemma fails_lift_find listed n : fails_before (ilift (find_entry listed n)).
Proof.
  intros w e w' [= E _]. revert E. induction listed as [|[x|x] l IH]; simpl; [done| |by intros [= <-]].
  case_bool_decide; [done | apply IH].
Qed.
Lemma fails_ok_or {A} (o : option A) e : before e = true -> fails_before (ilift (ok_or o e)).
Proof. intros He w e' w' [= E _]. destruct o; [done|]. by injection E as <-. Qed.
Lemma fails_io {A} (m : FS -> result A IoError * FS) : fails_before (io m).
Proof. intros w e w'. unfold io, imap_err, on_fs. destruct (m (w_fs w)) as [[a|x] fs]; [done|]. by intros [= <- _]. Qed.
Lemma fails_unsafe {A} (m : IO IoError A) : fails_before (imap_err (fun _ => UnsafeDestination) m).
Proof. intros w e w'. unfold imap_err. destruct (m w) as [[a|x] w1]; [done|]. by intros [= <- _]. Qed.
Lemma fails_result {E A} (m : IO E A) : fails_before (iresult m).
Proof. intros w e w'. unfold iresult. by destruct (m w) as [x w1]. Qed.
Lemma fails_bind {A B} (m : IO InstallError A) (f : A -> IO InstallError B) :
  fails_before m -> (forall a, fails_before (f a)) -> fails_before (ibind m f).
Proof.
  intros Hm Hf w e w' E. unfold ibind in E. destruct (m w) as [[a|x] w1] eqn:Em; [by apply Hf in E|].
  injection E as <- _. by apply Hm in Em.
Qed.
Lemma fails_if {A} (b : bool) (m n : IO InstallError A) :
  fails_before m -> fails_before n -> fails_before (if b then m else n).
Proof. by destruct b. Qed.

Ltac failing :=
  repeat first
    [ apply fails_ret | apply fails_fail; reflexivity | apply fails_io | apply fails_unsafe
    | apply fails_lift_find | apply fails_ok_or; reflexivity | apply fails_result
    | apply fails_bind; [|intros ?] | apply fails_if
    | match goal with |- fails_before (match ?x with _ => _ end) => destruct x end ].

Lemma fails_ensure_components root d l cs : fails_before (ensure_components root d l cs).
Proof.
  revert d l. induction cs as [|c cs IH]; intros d l; cbn [ensure_components]; unfold exact_entry_exists;
    failing; apply IH.
Qed.

Lemma fails_ensure_parent root cs : fails_before (ensure_safe_parent root cs).
Proof. unfold ensure_safe_parent. failing. apply fails_ensure_components. Qed.

Lemma fails_reject root cs n : fails_before (reject_concrete_collision root cs n).
Proof. unfold reject_concrete_collision, exact_entry_exists. failing. Qed.

Lemma fails_before_rename root p name mtime hash h : fails_before (before_rename root p name mtime hash h).
Proof. unfold before_rename, set_mtime. failing. apply fails_ensure_components. Qed.

Lemma fails_copy fuel reader h size limit hashed : fails_before (copy_loop fuel reader h size limit hashed).
Proof.
  revert limit hashed. induction fuel as [|fuel IH]; intros limit hashed; cbn [copy_loop]; failing. apply IH.
Qed.

Lemma body_post_error fs fs' root p tmp size hash (e : InstallError) :
  before e = true -> (exists t, staged fs fs' root tmp t) \/ (intact fs fs' /\ entry fs' root [tmp] = None) ->
  body_post fs fs' root p tmp size hash (Err e).
Proof. by destruct e. Qed.

Lemma install_body_post root resolved p name tmp mtime size hash reader w r w' :
  reader_quiet reader -> name <> tmp -> entry (w_fs w) root [tmp] = None -> 0 <= size ->
  install_body root resolved p name tmp mtime size hash reader w = (r, w') ->
  body_post (w_fs w) (w_fs w') root (parent_components p ++ [name]) tmp size hash r.
Proof.
  intros Hr Hne Hnone Hsize E. rewrite install_body_split in E. unfold ibind at 1 in E.
  destruct (io (open_new root tmp) w) as [[h|e] w1] eqn:Eo.
  2: { injection E as <- <-. pose proof Eo as Hb%fails_io. apply body_post_error; [done|]. right.
       unfold io, imap_err, on_fs in Eo. destruct (open_new root tmp (w_fs w)) as [[h|x] fs1] eqn:Ex; [done|].
       injection Eo as _ <-. apply law_open_new_Err in Ex. split; [by apply kept_intact, same_kept|].
       destruct Ex as [_ ->]. done. }
  unfold io, imap_err, on_fs in Eo. destruct (open_new root tmp (w_fs w)) as [[h'|x] fs1] eqn:Ex; [|done].
  injection Eo as -> <-. apply law_open_new in Ex as (Hempty & Hent & Hold).
  assert (staged (w_fs w) fs1 root tmp (id_of h)) as Hs by by split.
  unfold ibind at 1 in E. destruct (copy_loop _ _ _ _ _ _ _) as [[copied|e] w2] eqn:Ec.
  2: { injection E as <- <-. pose proof Ec as Hb%fails_copy. apply body_post_error; [done|]. left.
       eapply copy_loop_staged in Ec as [Hs2 _]; eauto. }
  assert (copied <> None) as Hsome.
  { intros ->. eapply copy_loop_ends in Ec; [done | |done]. unfold copy_fuel. rewrite len_nil. lia. }
  destruct copied as [content|]; [|done]. clear Hsome. change (default [] (Some content)) with content in E.
  eapply copy_loop_staged in Ec as [Hs2 Hdata]; [|done|exact Hs|done]. specialize (Hdata content eq_refl).
  destruct (Z.eqb_spec (len content) size) as [Hlen|]; cbn [negb] in E;
    [|injection E as <- <-; by apply body_post_error; eauto].
  case_bool_decide as Hhash; [injection E as <- <-; by apply body_post_error; eauto|].
  unfold ibind in E.
  destruct (before_rename _ _ _ _ _ _ w2) as [[fp|e] w3] eqn:Eb.
  - pose proof (quiet_before_rename _ _ _ _ _ _ _ _ _ Eb) as Hk.
    apply (staged_kept _ _ _ _ _ _ Hk) in Hs2 as [Hs3 Hd3].
    eapply rename_and_sync_post; [done | | | exact Hs3 | | exact E].
    + unfold before_rename in Eb. inv_io. done.
    + by split.
    + congruence.
  - injection E as <- <-. pose proof (quiet_before_rename _ _ _ _ _ _ _ _ _ Eb) as Hk.
    apply body_post_error; [by apply fails_before_rename in Eb|]. left.
    exists (id_of h). by eapply staged_kept.
Qed.

(** ** The whole installation *)

Lemma fails_acquire root : fails_before (acquire_root root).
Proof.
  intros w e w'. unfold acquire_root, imap_err. destruct (open_stable_root root w) as [[s|[x|]] w1]; [done|..];
    by intros [= <- _].
Qed.

Lemma temporary_loop_None n root w tmp w' :
  temporary_name_loop n root w = (Ok tmp, w') ->
  entry (w_fs w') root [tmp] = None /\ exists random, tmp = temporary_file_name random.
Proof.
  revert w. induction n as [|n IH]; intros w E; [done|]. cbn [temporary_name_loop] in E. unfold ibind at 1 in E.
  destruct (random_u64 (w_fs w)) as [[random|] fs] eqn:Er; cbn [ok_or] in E; [|done].
  unfold ibind, iresult, on_fs in E. cbn [w_fs set_fs] in E.
  destruct (symlink_metadata root (temporary_file_name random) fs) as [found fs1] eqn:Es.
  destruct found as [u|[]]; try done; [by apply IH in E|]. injection E as <- <-.
  split; [|by exists random]. pose proof Es as Hnone%law_not_found. apply law_symlink_metadata in Es as [_ He].
  cbn [w_fs set_fs]. by rewrite He.
Qed.

Lemma fails_temporary n root : fails_before (temporary_name_loop n root).
Proof.
  induction n as [|n IH]; [by apply fails_fail|]. cbn [temporary_name_loop]. apply fails_bind.
  - intros w e w'. destruct (random_u64 (w_fs w)) as [[random|] fs]; [done|]. by intros [= <- _].
  - intros random. failing. apply IH.
Qed.

Lemma file_name_split p name :
  file_name p = Some name -> parent_components p ++ [name] = split_slash (path_str p).
Proof.
  unfold file_name, parent_components. destruct (last _) as [x|] eqn:E; [|done].
  destruct (is_normal x); [|done]. intros [= ->].
  apply last_Some in E as [l ->]. by rewrite removelast_last.
Qed.

(** What an outcome of [install_file] says of the files. *)
Definition install_post (fs fs' : FS) (root_dir : option Dir) (p : ProtocolPath) (size : Z) (hash : array 32)
    (r : result InstalledFile InstallError) : Prop :=
  match r with
  | Ok inst | Err (PostRenameDurability inst _) =>
      fp_hash (inst_fingerprint inst) = hash /\
      exists d content, root_dir = Some d /\ good_content size hash content /\
        file_holds fs' d (split_slash (path_str p)) content
  | Err e => before e = true /\ intact fs fs'
  end.

(** The directory that acquiring the root yields. *)
Definition acquired (root : bytes) (w : World) : option Dir :=
  match (acquire_root root w).1 with Ok stable => Some (root_directory stable) | Err _ => None end.

Lemma install_post_error fs fs' d p size hash (e : InstallError) :
  before e = true -> intact fs fs' -> install_post fs fs' d p size hash (Err e).
Proof. by destruct e. Qed.

Lemma remove_staged fs0 fs root tmp fs' r t :
  staged fs0 fs root tmp t -> remove_file root tmp fs = (r, fs') -> intact fs0 fs'.
Proof.
  intros [Ht Hold] (D & Hkeep)%law_remove d p i Hi. destruct (Hold d p i Hi) as (Hne & He & Hd).
  rewrite D. split; [|done]. by apply (Hkeep t).
Qed.

Lemma body_install_post fs fs1 root p tmp size hash r fs' rr :
  body_post fs fs1 root (split_slash (path_str p)) tmp size hash r ->
  (is_durability r = false -> remove_file root tmp fs1 = (rr, fs')) ->
  (is_durability r = true -> fs' = fs1) -> (forall e, r = Err e -> is_durability r = false -> before e = true) ->
  install_post fs fs' (Some root) p size hash r.
Proof.
  intros Hb Hrm Hdur Hbef. destruct r as [inst|e].
  - destruct Hb as (Hh & Hnone & content & Hgood & Hfile). split; [done|]. exists root, content.
    split; [done|]. split; [done|]. pose proof (law_remove_none _ _ _ _ _ (Hrm eq_refl) Hnone) as Hs.
    by eapply kept_holds; [apply same_kept|].
  - destruct (is_durability (Err e)) eqn:Ed.
    + destruct e; try done. specialize (Hdur eq_refl) as ->. destruct Hb as (Hh & _ & content & Hgood & Hfile).
      split; [done|]. by exists root, content.
    + apply install_post_error; [by apply Hbef|]. specialize (Hrm eq_refl).
      assert ((exists t, staged fs fs1 root tmp t) \/ (intact fs fs1 /\ entry fs1 root [tmp] = None)) as [[t Ht]|[Hi Hn]]
        by (destruct e; done).
      * by eapply remove_staged.
      * eapply intact_trans; [done|]. apply kept_intact, same_kept. by eapply law_remove_none.
Qed.

Lemma fails_install_body root resolved p name tmp mtime size hash reader w e w' :
  install_body root resolved p name tmp mtime size hash reader w = (Err e, w') ->
  is_durability (Err e) = false -> before e = true.
Proof.
  rewrite install_body_split. intros E Hd. unfold ibind at 1 in E.
  destruct (io (open_new root tmp) w) as [[h|x] w1] eqn:Eo; [|injection E as <- _; by apply fails_io in Eo].
  unfold ibind at 1 in E. destruct (copy_loop _ _ _ _ _ _ _) as [[copied|x] w2] eqn:Ec;
    [|injection E as <- _; by apply fails_copy in Ec].
  destruct (negb _); [by injection E as <- _|]. case_bool_decide; [by injection E as <- _|].
  unfold ibind at 1 in E. destruct (before_rename _ _ _ _ _ _ _) as [[fp|x] w3] eqn:Eb;
    [|injection E as <- _; by apply fails_before_rename in Eb].
  unfold rename_and_sync in E. unfold ibind at 1 in E.
  destruct (io (rename _ _ _ _) w3) as [[u|x] w4] eqn:Er; [|injection E as <- _; by apply fails_io in Er].
  unfold ibind at 1, iresult in E. destruct ((parent <== _ ;; _) w4) as [[v|x] w5]; [done|].
  injection E as <- _. done.
Qed.

Definition internal_name (name : bytes) : Prop := exists rest, name = INTERNAL_PREFIX ++ rest.

Lemma install_file_post root r reader size hash w res w' :
  rec_kind r = File size hash -> 0 <= size -> reader_quiet reader ->
  (forall name, file_name (rec_path r) = Some name -> ~ internal_name name) ->
  install_file root r reader w = (res, w') ->
  install_post (w_fs w) (w_fs w') (acquired root w) (rec_path r) size hash res.
Proof.
  intros Hk Hsize Hr Hname E. unfold install_file in E. rewrite Hk in E. unfold ibind at 1 in E.
  unfold acquired. destruct (acquire_root root w) as [[stable|e] w1] eqn:Ea; cbn [fst];
    pose proof (quiet_acquire _ _ _ _ Ea) as K1;
    [|injection E as <- <-; apply install_post_error; [by apply fails_acquire in Ea | by apply kept_intact]].
  set (d := root_directory stable) in *. set (p := rec_path r) in *. unfold ibind at 1 in E.
  destruct (ensure_safe_parent d (parent_components p) w1) as [[u|e] w2] eqn:Ee;
    pose proof (kept_trans _ _ _ K1 (quiet_ensure _ _ _ _ _ Ee)) as K2;
    [|injection E as <- <-; apply install_post_error; [by apply fails_ensure_parent in Ee | by apply kept_intact]].
  unfold ibind at 1, ilift at 1 in E. destruct (file_name p) as [name|] eqn:En; cbn [ok_or] in E;
    [|injection E as <- <-; apply install_post_error; [done | by apply kept_intact]].
  unfold ibind at 1 in E.
  destruct (reject_concrete_collision d (parent_components p) name w2) as [[v|e] w3] eqn:Erj;
    pose proof (kept_trans _ _ _ K2 (quiet_reject _ _ _ _ _ _ Erj)) as K3;
    [|injection E as <- <-; apply install_post_error; [by apply fails_reject in Erj | by apply kept_intact]].
  unfold ibind at 1 in E. destruct (temporary_name d w3) as [[tmp|e] w4] eqn:Et;
    pose proof (kept_trans _ _ _ K3 (quiet_temporary_loop _ _ _ _ _ Et)) as K4;
    [|injection E as <- <-; apply install_post_error; [by apply fails_temporary in Et | by apply kept_intact]].
  apply temporary_loop_None in Et as (Hnone & random & Htmp).
  unfold ibind at 1, iresult at 1 in E.
  destruct (install_body _ _ _ _ _ _ _ _ _ w4) as [outcome w5] eqn:Eb.
  pose proof Eb as Hbody%install_body_post; [|done| |done|done].
  2: { intros ->. apply (Hname tmp); [done|]. rewrite Htmp. by eexists. }
  rewrite (file_name_split _ _ En) in Hbody.
  unfold ibind at 1 in E. destruct (is_durability outcome) eqn:Edur.
  - unfold iret, ilift in E. injection E as <- <-.
    assert (install_post (w_fs w4) (w_fs w5) (Some d) p size hash outcome) as Hp
      by (apply (body_install_post _ (w_fs w5) d p tmp size hash outcome (w_fs w5) (Ok tt));
          [exact Hbody | by rewrite Edur | done |]; intros e ->; by eapply fails_install_body).
    destruct outcome as [inst|e]; [done|]. by destruct e.
  - unfold ibind, iresult, on_fs in E. destruct (remove_file d tmp (w_fs w5)) as [rr fs6] eqn:Erm.
    unfold iret, ilift in E. injection E as <- <-. cbn [w_fs set_fs].
    assert (install_post (w_fs w4) fs6 (Some d) p size hash outcome) as Hp
      by (eapply body_install_post; [exact Hbody | done | by rewrite Edur |];
          intros e -> ?; by eapply fails_install_body).
    destruct outcome as [inst|e]; [done|]. unfold install_post in Hp |- *.
    destruct e; try done; (destruct Hp as [? Hi]; split; [done|]; eapply intact_trans; [by apply kept_intact | done]).
Qed.

Lemma fails_install root r reader w e w' :
  install_file root r reader w = (Err e, w') -> is_durability (Err e) = false -> before e = true.
Proof.
  intros E Hd. unfold install_file in E. destruct (rec_kind r) as [size hash|]; [|by injection E as <- _].
  unfold ibind at 1 in E. destruct (acquire_root root w) as [[stable|x] w1] eqn:Ea;
    [|injection E as <- _; by apply fails_acquire in Ea].
  unfold ibind at 1 in E. destruct (ensure_safe_parent _ _ w1) as [[u|x] w2] eqn:Ee;
    [|injection E as <- _; by apply fails_ensure_parent in Ee].
  unfold ibind at 1, ilift at 1 in E. destruct (file_name _) as [name|]; cbn [ok_or] in E; [|by injection E as <- _].
  unfold ibind at 1 in E. destruct (reject_concrete_collision _ _ _ w2) as [[v|x] w3] eqn:Erj;
    [|injection E as <- _; by apply fails_reject in Erj].
  unfold ibind at 1 in E. destruct (temporary_name _ w3) as [[tmp|x] w4] eqn:Et;
    [|injection E as <- _; by apply fails_temporary in Et].
  unfold ibind at 1, iresult at 1 in E.
  destruct (install_body _ _ _ _ _ _ _ _ _ w4) as [outcome w5] eqn:Eb.
  assert (outcome = Err e) as ->; [|by apply fails_install_body in Eb].
  unfold ibind at 1 in E. destruct (is_durability outcome); [by injection E|].
  unfold ibind, iresult, on_fs in E. destruct (remove_file _ _ _). by injection E.
Qed.
End laws.

(** ** What the state store says afterwards *)

Section store.
Context `{Crypto, EventJson, Platform}.

Definition shows_materialized (db : Database) (r : record) (fp : FileFingerprint) : Prop :=
  exists row, path_records_t db !! index_of r = Some row /\ row_kind row = 1 /\
    row_materialized row = true /\ row_modified_ns row = Some (fp_modified_ns fp) /\
    row_size row = Some (fp_size fp) /\ row_content_hash row = Some (arr (fp_hash fp)).

Definition shows_missing (db : Database) (r : record) : Prop :=
  exists row, path_records_t db !! index_of r = Some row /\ row_kind row = 1 /\ row_materialized row = false.

Lemma update_row_Ok c p k f db n db' :
  update_path_row c p k f db = (Ok n, db') -> n = 1 ->
  exists row, path_records_t db !! (c, p) = Some row /\ row_kind row = k /\
    path_records_t db' = <[(c, p) := f row]> (path_records_t db) /\ collections_t db' = collections_t db.
Proof.
  unfold update_path_row, dbind, dget. destruct (path_records_t db !! (c, p)) as [row|] eqn:E;
    [|by intros [= <- _]]. destruct (Z.eqb_spec (row_kind row) k); cbn [negb]; [|by intros [= <- _]].
  destruct (path_row_check (f row)); cbn [negb]; [|done]. intros [= <- <-] _. by exists row.
Qed.

Lemma mark_repair_shows c p t e n db db' r :
  mark_repair_required_and_log c p t e n db = (Ok tt, db') -> index_of r = (c, p) -> shows_missing db' r.
Proof.
  intros E Hi. unfold mark_repair_required_and_log in E. inv_db. apply negb_false_iff, Z.eqb_eq in Heqb as ->.
  match goal with Hu : update_path_row _ _ _ _ _ = _ |- _ => apply update_row_Ok in Hu as (row & _ & Hk & Hr & _) end;
    [|done]. match goal with Hl : insert_log _ _ _ _ = _ |- _ => apply insert_log_frame in Hl as (Hp & _) end.
  exists (clear_materialized row). by rewrite Hi, Hp, Hr, lookup_insert_eq.
Qed.

Lemma mark_materialized_shows c p m t e n db db' r :
  mark_materialized_and_log c p m t e n db = (Ok tt, db') -> index_of r = (c, p) ->
  shows_materialized db' r (mat_fingerprint m) /\
  exists col, collections_t db' !! c = Some col /\ col_resolved_root col = Some (mat_resolved_root m).
Proof.
  intros E Hi. unfold mark_materialized_and_log in E. apply (proj1 (transaction_Ok _ _ _ _)) in E.
  apply dbind_Ok in E as (prev & db1 & Hq & E). unfold query_resolved_root, dbind, dget, dlift in Hq.
  injection Hq as Hq <-. apply ok_or_Ok in Hq. destruct (collections_t db !! c) as [col|] eqn:Ec; [|done].
  injection Hq as <-. apply dbind_Ok in E as ([] & db2 & Hroot & E).
  assert (exists col', collections_t db2 !! c = Some col' /\ col_resolved_root col' = Some (mat_resolved_root m))
    as (col' & Hcol & Hres).
  { case_bool_decide as Hb.
    - apply dbind_Ok in Hroot as (u & db3 & Hu & Hc). injection Hc as <-.
      unfold update_collection_row, dbind, dget in Hu. rewrite Ec in Hu. cbv beta iota in Hu.
      destruct (negb _) in Hu; [done|]. injection Hu as _ <-.
      cbn [collections_t set_path_records set_collections]. rewrite lookup_insert_eq. by eexists.
    - injection Hroot as <-. by exists col. }
  apply dbind_Ok in E as ([] & db3 & Hf & E). unfold update_materialized_fingerprint in Hf.
  apply dbind_Ok in Hf as (size & db4 & Hs & Hf). injection Hs as Hs <-. apply ok_or_Ok in Hs.
  unfold i64_try_from in Hs. destruct (in_i64 _); [|done]. injection Hs as <-.
  apply dbind_Ok in Hf as (u & db4 & Hu & Hf). destruct (Z.eqb_spec u 1) as [->|]; [|done]. injection Hf as <-.
  apply update_row_Ok in Hu as (row & _ & Hk & Hrows & Hcols); [|done].
  apply insert_log_frame in E as (Hp & Hc & _). split.
  - eexists. rewrite Hi, Hp, Hrows, lookup_insert_eq. split; [reflexivity|]. by rewrite <-Hk.
  - exists col'. by rewrite Hc, Hcols.
Qed.

Lemma st_Err_db {A} (m : Db A) (e : StateError -> InstallError) w e' w' :
  (forall x db', m (w_db w) = (Err x, db') -> db' = w_db w) ->
  imap_err e (on_db m) w = (Err e', w') -> w_db w' = w_db w /\ exists x, e' = e x.
Proof.
  intros Hm. unfold imap_err, on_db. destruct (m (w_db w)) as [[a|x] db'] eqn:E; [done|].
  intros [= <- <-]. split; [by apply (Hm x) | eauto].
Qed.

Lemma leaves_stable_root n path e : leaves_db (open_stable_root_loop n path e).
Proof. revert e. induction n as [|n IH]; intros e; simpl; leave. apply IH. Qed.
Lemma leaves_acquire root : leaves_db (acquire_root root).
Proof. apply respects_map_err, leaves_stable_root. Qed.
Lemma leaves_ensure_components root d l cs : leaves_db (ensure_components root d l cs).
Proof.
  revert d l. induction cs as [|c cs IH]; intros d l; simpl; unfold exact_entry_exists, io; leave; apply IH.
Qed.
Lemma leaves_open_components root d l cs : leaves_db (open_components root d l cs).
Proof.
  revert d l. induction cs as [|c cs IH]; intros d l; simpl; unfold exact_entry_exists, io; leave; apply IH.
Qed.
Lemma leaves_random :
  leaves_db (fun w => let '(r, fs) := random_u64 (w_fs w) in (ok_or r RandomFailure, set_fs w fs)).
Proof. intros w r w' E. destruct (random_u64 (w_fs w)) as [x fs]. by injection E as _ <-. Qed.
Lemma leaves_temporary n root : leaves_db (temporary_name_loop n root).
Proof.
  induction n as [|n IH]; cbn [temporary_name_loop]; leave; [apply leaves_random | apply IH].
Qed.
Lemma leaves_copy fuel reader h size limit hashed : leaves_db (copy_loop fuel reader h size limit hashed).
Proof.
  revert limit hashed. induction fuel as [|fuel IH]; intros limit hashed; cbn [copy_loop]; unfold io; leave. apply IH.
Qed.
Lemma leaves_install root r reader : leaves_db (install_file root r reader).
Proof.
  unfold install_file, install_body, ensure_safe_parent, reject_concrete_collision, exact_entry_exists,
    temporary_name, set_mtime, io.
  repeat first [ apply leaves_acquire | apply leaves_ensure_components | apply leaves_temporary
               | apply leaves_copy | progress leave ].
Qed.

(** The two ends of [apply_file_fixture]. *)
Lemma mark_installed_outcome r inst event n w (last : result InstalledFile InstallError) res w' :
  (_ <== mark_installed r inst event n ;; ilift last) w = (res, w') ->
  (res = last /\ shows_materialized (w_db w') r (inst_fingerprint inst) /\
   exists col, collections_t (w_db w') !! rec_collection r = Some col /\
     col_resolved_root col = Some (inst_resolved_root inst)) \/
  (w_db w' = w_db w /\ exists x, res = Err (PostRenameState inst x)).
Proof.
  intros E. unfold mark_installed in E. rewrite ibind_assoc in E. unfold ibind at 1, now_ns in E.
  unfold ibind at 1 in E. destruct (imap_err _ _ _) as [[[]|e] w1] eqn:Em.
  - injection E as <- <-. left. split; [done|]. apply (proj1 (imap_err_Ok _ _ _ _ _)) in Em.
    apply (proj1 (on_db_Ok _ _ _ _)) in Em as (db' & Em & ->).
    by apply (mark_materialized_shows _ _ _ _ _ _ _ _ r) in Em.
  - injection E as <- <-. right. apply st_Err_db in Em as [Hdb [x ->]]; [eauto|].
    intros x db'. apply transaction_Err.
Qed.

Lemma mark_repair_outcome r event n w (error : InstallError) (res : result InstalledFile InstallError) w' :
  (now <== now_ns ;;
   _ <== st (mark_repair_required_and_log (rec_collection r) (path_str (rec_path r)) now event n) ;;
   ifail error) w = (res, w') ->
  (res = Err error /\ shows_missing (w_db w') r) \/ (w_db w' = w_db w /\ exists x, res = Err (InstallState x)).
Proof.
  intros E. unfold ibind at 1, now_ns in E. unfold ibind at 1 in E.
  destruct (st _ _) as [[[]|e] w1] eqn:Em; unfold st in Em.
  - injection E as <- <-. left. split; [done|]. apply (proj1 (imap_err_Ok _ _ _ _ _)) in Em.
    apply (proj1 (on_db_Ok _ _ _ _)) in Em as (db' & Em & ->). by apply (mark_repair_shows _ _ _ _ _ _ _ r) in Em.
  - injection E as <- <-. right. apply st_Err_db in Em as [Hdb [x ->]]; [eauto|].
    intros x db'. apply transaction_Err.
Qed.
End store.
