(* ===== verification/ToyFs.v ===== *)
(** A file system in memory, as a concrete instance of the platform: it shows
    that the promises of InstallLaws.v can be kept, and the examples run on it. *)

From S2P Require Import Prelude Bytes Platform InstallLaws.

Record ToyFs := mkToy {
  t_dirs : gset (list bytes);
  t_names : gmap (list bytes) nat;
  t_data : gmap nat bytes;
  t_position : gmap nat nat;
  t_times : gmap nat (Z * Z);
  t_random : Z;
}.

Definition toy_empty : ToyFs := mkToy ∅ ∅ ∅ ∅ ∅ 1.

Definition toy_exists (fs : ToyFs) (p : list bytes) : bool :=
  bool_decide (is_Some (t_names fs !! p)) || bool_decide (p ∈ t_dirs fs).
Definition toy_data (fs : ToyFs) (i : nat) : bytes := default [] (t_data fs !! i).
Definition toy_fresh (fs : ToyFs) : nat := fresh (map_img (SA := gset nat) (t_names fs) ∪ dom (t_data fs)).

Definition toy_set_names (fs : ToyFs) t : ToyFs :=
  mkToy (t_dirs fs) t (t_data fs) (t_position fs) (t_times fs) (t_random fs).
Definition toy_set_data (fs : ToyFs) t : ToyFs :=
  mkToy (t_dirs fs) (t_names fs) t (t_position fs) (t_times fs) (t_random fs).
Definition toy_set_position (fs : ToyFs) i n : ToyFs :=
  mkToy (t_dirs fs) (t_names fs) (t_data fs) (<[i := n]> (t_position fs)) (t_times fs) (t_random fs).

Definition toy_children (fs : ToyFs) (d : list bytes) : list bytes :=
  omap (fun p => match last p with
                 | Some n => if bool_decide (p = d ++ [n]) then Some n else None
                 | None => None
                 end) (map fst (map_to_list (t_names fs)) ++ elements (t_dirs fs)).

Definition toy_read (i : nat) (n : Z) (fs : ToyFs) : result bytes IoError * ToyFs :=
  let position := default 0%nat (t_position fs !! i) in
  let chunk := take (Z.to_nat n) (drop position (toy_data fs i)) in
  (Ok chunk, toy_set_position fs i (position + length chunk)).

Definition toy_identity_of (d : list bytes) : Z * Z := (1, Z.pos (encode d)).

Definition toy_platform : Platform := {|
  FS := ToyFs;
  Dir := list bytes;
  Handle := nat;
  clock := fun n => Z.of_nat n * 1000;
  process_id := 7;
  open_ambient_dir := fun _ fs => (Ok [], fs);
  canonicalize := fun path fs => (Ok path, fs);
  dir_metadata := fun d fs =>
    if bool_decide (d ∈ {[ [] ]} ∪ t_dirs fs) then (Ok (toy_identity_of d), fs) else (Err NotFound, fs);
  try_clone := fun d fs => (Ok d, fs);
  entries := fun d fs => (Ok (map Ok (toy_children fs d)), fs);
  entry_file_type := fun d n fs =>
    if bool_decide (d ++ [n] ∈ t_dirs fs) then (Ok FtDir, fs)
    else if bool_decide (is_Some (t_names fs !! (d ++ [n]))) then (Ok FtFile, fs) else (Err NotFound, fs);
  open_dir := fun d p fs => if bool_decide (d ++ p ∈ t_dirs fs) then (Ok (d ++ p), fs) else (Err NotFound, fs);
  open_at := fun d p fs =>
    match t_names fs !! (d ++ p) with Some i => (Ok i, toy_set_position fs i 0) | None => (Err NotFound, fs) end;
  symlink_metadata := fun d n fs => if toy_exists fs (d ++ [n]) then (Ok tt, fs) else (Err NotFound, fs);
  create_dir := fun d n fs =>
    if toy_exists fs (d ++ [n]) then (Err AlreadyExists, fs)
    else (Ok tt, mkToy ({[ d ++ [n] ]} ∪ t_dirs fs) (t_names fs) (t_data fs) (t_position fs) (t_times fs) (t_random fs));
  remove_file := fun d n fs =>
    match t_names fs !! (d ++ [n]) with
    | Some _ => (Ok tt, toy_set_names fs (delete (d ++ [n]) (t_names fs)))
    | None => (Err NotFound, fs)
    end;
  rename := fun d n d' p fs =>
    match t_names fs !! (d ++ [n]) with
    | Some i =>
        if bool_decide (p = []) || bool_decide (d' ++ p ∈ t_dirs fs) then (Err OtherIo, fs)
        else (Ok tt, toy_set_names fs (<[d' ++ p := i]> (delete (d ++ [n]) (t_names fs))))
    | None => (Err NotFound, fs)
    end;
  open_new := fun d n fs =>
    if toy_exists fs (d ++ [n]) then (Err AlreadyExists, fs)
    else
      let i := toy_fresh fs in
      (Ok i, toy_set_names (toy_set_data fs (<[i := []]> (t_data fs))) (<[d ++ [n] := i]> (t_names fs)));
  sync_directory := fun _ fs => (Ok tt, fs);
  file_read := toy_read;
  file_write_all := fun i l fs => (Ok tt, toy_set_data fs (<[i := toy_data fs i ++ l]> (t_data fs)));
  file_flush := fun _ fs => (Ok tt, fs);
  file_sync_all := fun _ fs => (Ok tt, fs);
  file_metadata := fun i fs =>
    let '(s, n) := default (0, 0) (t_times fs !! i) in
    (Ok (mkMetadata true (Z.min usize_max (len (toy_data fs i))) s n 1 (Z.of_nat i) s n), fs);
  file_seek_start := fun i fs => (Ok tt, toy_set_position fs i 0);
  set_file_mtime := fun i s n fs =>
    (Ok tt, mkToy (t_dirs fs) (t_names fs) (t_data fs) (t_position fs) (<[i := (s, n)]> (t_times fs)) (t_random fs));
  tempfile_in := fun _ fs =>
    let i := toy_fresh fs in (Ok i, toy_set_data fs (<[i := []]> (t_data fs)));
  random_u64 := fun fs =>
    (Some (t_random fs),
     mkToy (t_dirs fs) (t_names fs) (t_data fs) (t_position fs) (t_times fs) (t_random fs + 1));
|}.

#[local] Existing Instance toy_platform.

Lemma toy_fresh_names fs p i : t_names fs !! p = Some i -> i <> toy_fresh fs.
Proof.
  intros Hp ->. pose proof (is_fresh (map_img (SA := gset nat) (t_names fs) ∪ dom (t_data fs))) as Hf.
  apply Hf, elem_of_union. left. by apply (elem_of_map_img_2 (SA := gset nat)) in Hp.
Qed.

#[local] Obligation Tactic := idtac.
#[global] Program Instance toy_platform_laws : @PlatformLaws toy_platform := {|
  FileId := nat;
  id_of := fun i : nat => i;
  data := toy_data;
  entry := fun (fs : ToyFs) d p => t_names fs !! (d ++ p);
|}.
Next Obligation. by intros path fs r fs' [= _ <-]. Qed.
Next Obligation. by intros path fs r fs' [= _ <-]. Qed.
Next Obligation. intros d fs r fs'. simpl. case_bool_decide; by intros [= _ <-]. Qed.
Next Obligation. by intros d fs r fs' [= _ <-]. Qed.
Next Obligation. by intros d fs r fs' [= _ <-]. Qed.
Next Obligation. intros d p fs r fs'. simpl. case_bool_decide; by intros [= _ <-]. Qed.
Next Obligation. intros d p fs r fs'. simpl. destruct (t_names fs !! _); by intros [= _ <-]. Qed.
Next Obligation. intros d n fs r fs'. simpl. destruct (toy_exists _ _); by intros [= _ <-]. Qed.
Next Obligation. by intros d fs r fs' [= _ <-]. Qed.
Next Obligation. by intros h n fs r fs' [= _ <-]. Qed.
Next Obligation. by intros h fs r fs' [= _ <-]. Qed.
Next Obligation. by intros h fs r fs' [= _ <-]. Qed.
Next Obligation. intros h fs r fs'. simpl. destruct (default _ _). by intros [= _ <-]. Qed.
Next Obligation. by intros h fs r fs' [= _ <-]. Qed.
Next Obligation. by intros h s n fs r fs' [= _ <-]. Qed.
Next Obligation. by intros fs r fs' [= _ <-]. Qed.
Next Obligation. intros d n fs e fs'. simpl. destruct (toy_exists _ _); [by intros [= _ <-] | done]. Qed.
Next Obligation.
  intros d n d' p fs e fs'. simpl. destruct (t_names fs !! _); [|by intros [= _ <-]].
  destruct (_ || _); [by intros [= _ <-] | done].
Qed.
Next Obligation.
  intros d n fs fs'. simpl. unfold toy_exists. case_bool_decide as Hn; [done|]. intros _.
  by apply eq_None_not_Some.
Qed.
Next Obligation. intros d n fs r fs'. simpl. destruct (toy_exists _ _); by intros [= _ <-]. Qed.
Next Obligation.
  intros d n fs h fs'. simpl. unfold toy_exists. case_bool_decide as Hn; [done|]. simpl.
  destruct (bool_decide _); [done|]. intros [= <- <-]. apply eq_None_not_Some in Hn.
  unfold toy_data. simpl. rewrite !lookup_insert_eq. split; [done|]. split; [done|].
  intros d' p i Hi. pose proof (toy_fresh_names _ _ _ Hi) as Hne. split; [done|].
  rewrite !lookup_insert_ne; [done | done |]. intros E. rewrite E in Hn. congruence.
Qed.
Next Obligation.
  intros h l fs r fs' [= <- <-]. unfold toy_data. simpl. rewrite lookup_insert_eq.
  split; [done|]. split; [|done]. intros i Hi. by rewrite lookup_insert_ne.
Qed.
Next Obligation.
  intros d n d' p fs fs'. simpl. destruct (t_names fs !! (d ++ [n])) as [i|] eqn:E; [|done].
  case_bool_decide as Hp; [done|]. case_bool_decide; [done|]. intros [= <-] Hl. simpl. split; [done|].
  rewrite lookup_insert_eq. split; [done|]. rewrite lookup_insert_ne; [apply lookup_delete_eq|].
  intros Ep. apply Hl. destruct p as [|x p] using rev_ind; [done|]. rewrite last_snoc. rewrite app_assoc in Ep.
  by apply app_inj_tail in Ep as [_ ->].
Qed.
Next Obligation.
  intros d n fs r fs'. simpl. destruct (t_names fs !! (d ++ [n])) as [i|] eqn:E; intros [= _ <-].
  - split; [done|]. intros t d' p j [= <-] Hj Hne. simpl. rewrite lookup_delete_ne; [done|].
    intros Ep. rewrite Ep in E. congruence.
  - split; [done|]. congruence.
Qed.
Next Obligation.
  intros d n fs r fs'. simpl. intros E Hn. rewrite Hn in E. by injection E as _ <-.
Qed.
