(* ===== verification/InstallProps.v ===== *)
(** The properties of installation, and an example on the file system in
    memory. *)

From S2P Require Import Prelude Bytes Utf8 Cursor Canonical Path Identity Concrete Records Winners Roster.
From S2P Require Import Database State StateLaws StateProps Platform Installer InstallLaws ToyFs.

(** C14: An installed file is the recorded file.  When [install_file] reports the
    file installed, durably or not, the path below the acquired root names a
    file of the recorded size and hash; on every other outcome each file that
    had a name still has it with its content: no file is overwritten in part.
    The state store is not touched. *)
Theorem install_file_safe `{Crypto, PlatformLaws} root r reader size hash w res w' :
  rec_kind r = File size hash -> 0 <= size -> reader_quiet reader ->
  (forall name, file_name (rec_path r) = Some name -> ~ internal_name name) ->
  install_file root r reader w = (res, w') ->
  w_db w' = w_db w /\
  match res with
  | Ok inst | Err (PostRenameDurability inst _) =>
      fp_hash (inst_fingerprint inst) = hash /\
      exists d content, acquired root w = Some d /\ len content = size /\ blake3 content = hash /\
        file_holds (w_fs w') d (split_slash (path_str (rec_path r))) content
  | Err _ => intact (w_fs w) (w_fs w')
  end.
Proof.
  intros Hk Hs Hr Hn E. split; [by apply leaves_install in E|].
  pose proof (install_file_post root r reader size hash w res w' Hk Hs Hr Hn E) as Hp.
  destruct res as [inst|e]; [|destruct e; try by destruct Hp];
    (destruct Hp as (Hh & d & content & Hd & [Hl Hb] & Hf); split; [done|]; exists d, content; auto).
Qed.

(** C15: The store says of an applied file what happened to it.  It is shown
    materialized, with the fingerprint and the root of the installation, exactly
    when the file was renamed into place and the store accepted the change; a
    failure before the rename leaves it to be repaired; and when the root was
    unstable, or the store itself failed, the store is unchanged. *)
Theorem apply_file_outcome `{Crypto, EventJson, Platform} root r reader n w res w' :
  apply_file_fixture root r reader n w = (res, w') ->
  match res with
  | Ok inst | Err (PostRenameDurability inst _) =>
      shows_materialized (w_db w') r (inst_fingerprint inst) /\
      exists col, collections_t (w_db w') !! rec_collection r = Some col /\
        col_resolved_root col = Some (inst_resolved_root inst)
  | Err UnstableRoot | Err (PostRenameState _ _) | Err (InstallState _) => w_db w' = w_db w
  | Err _ => shows_missing (w_db w') r
  end.
Proof.
  intros E. unfold apply_file_fixture in E. unfold ibind at 1, iresult in E.
  destruct (install_file root r reader w) as [outcome w1] eqn:Ei. pose proof Ei as Hdb%leaves_install.
  destruct outcome as [inst|e]; [|destruct e eqn:Ee];
    first
      [ by injection E as <- <-
      | by apply fails_install in Ei
      | change (iret inst) with (ilift (E := InstallError) (Ok inst)) in E;
        apply mark_installed_outcome in E as [(-> & Hm)|(Hw & x & ->)]; [done | congruence]
      | change (ifail (PostRenameDurability installed source)) with
          (ilift (A := InstalledFile) (Err (PostRenameDurability installed source))) in E;
        apply mark_installed_outcome in E as [(-> & Hm)|(Hw & x & ->)]; [done | congruence]
      | apply mark_repair_outcome in E as [(-> & Hm)|(Hw & x & ->)]; [done | congruence] ].
Qed.

(** ** Examples *)

Section examples.
#[local] Existing Instance toy_crypto.
#[local] Existing Instance terse_json.
#[local] Existing Instance toy_platform.

Definition hello : bytes := lit "hello".
Definition hello_record : record :=
  mkRecord (lit "docs") (mkPath (lit "notes/hello.txt")) 2000000005 (toy_endpoint "009"%byte)
    (File 5 (blake3 hello)).

(** A device that has merged the record of a peer, and the received bytes in a
    staged file. *)
Definition staged_fs : ToyFs := toy_set_data toy_empty {[ 9%nat := hello ]}.
Definition received_db : Database := (merge_record hello_record 0 (Some (toy_endpoint "009"%byte)) 10 docs_db).2.
Definition received : World := mkWorld received_db staged_fs 0.
Definition staged_reader := file_read (9%nat : Handle).
Definition installed : World := (install_file (lit "/docs") hello_record staged_reader received).2.

Lemma staged_reader_quiet : reader_quiet staged_reader.
Proof. exact (law_read (9%nat : Handle)). Qed.

Lemma install_file_safe_witness :
  exists d content, acquired (lit "/docs") received = Some d /\ blake3 content = blake3 hello /\
    file_holds (w_fs installed) d [lit "notes"; lit "hello.txt"] content.
Proof.
  destruct (run_ok (install_file (lit "/docs") hello_record staged_reader received))
    as [inst E]; [vm_compute; reflexivity|].
  destruct (install_file_safe (lit "/docs") hello_record staged_reader 5 (blake3 hello)
    received _ _ eq_refl ltac:(done) staged_reader_quiet
    ltac:(intros name [= <-] [rest [=]]) E) as (_ & _ & d & content & Hd & _ & Hh & Hf).
  exists d, content. exact (conj Hd (conj Hh Hf)).
Defined.

Lemma apply_file_outcome_witness :
  exists inst, shows_materialized
    (w_db (apply_file_fixture (lit "/docs") hello_record staged_reader 10 received).2)
    hello_record (inst_fingerprint inst).
Proof.
  destruct (run_ok (apply_file_fixture (lit "/docs") hello_record staged_reader 10 received))
    as [inst E]; [vm_compute; reflexivity|].
  exists inst. apply (apply_file_outcome (lit "/docs") hello_record staged_reader 10 received _ _ E).
Defined.
End examples.
