(* ===== verification/Sync.v ===== *)
(** sync.rs: a synchronization session between two members of a group. *)

From S2P Require Import Prelude Bytes Utf8 Cursor Canonical Path Identity Records Roster Protocol Database.
From S2P Require Import State RosterStore Platform Installer.

Inductive ConnectionSide := Dialer | Acceptor.

Inductive SyncError :=
  | SyncTimeout
  | SyncTransport
  | MissingRoster
  | UnauthorizedPeer
  | RosterChangedAndUnauthorizedPeer
  | WrongGroup
  | WrongCollections
  | HintIdentityMismatch
  | HintAddressLimit
  | UnsolicitedFile
  | InterruptedFile
  | CorruptFile
  | FileSize
  | UnexpectedState
  | InvalidEndpoint
  | JoinRejected
  | SyncProtocol (e : ProtocolError)
  | SyncState (e : StateError)
  | SyncRecord (e : RecordError)
  | SyncInstall (e : InstallError)
  | SyncJson
  | SyncIo (e : IoError).

Definition is_connectivity_failure (e : SyncError) : bool :=
  match e with
  | SyncTimeout | SyncTransport | InterruptedFile
  | SyncProtocol Timeout | SyncProtocol Transport | SyncProtocol PTruncated => true
  | _ => false
  end.

Definition is_local_failure (e : SyncError) : bool :=
  match e with
  | SyncState _ | SyncIo _ | SyncInstall _ | SyncProtocol PIo => true
  | _ => false
  end.

(** [EndpointAddr] of iroh, and its form in JSON. *)
Class Iroh := {
  EndpointAddr : Type;
  addr_id : EndpointAddr -> EndpointId;
  addr_count : EndpointAddr -> Z;
  addr_to_json : EndpointAddr -> option bytes;
  addr_from_json : bytes -> option EndpointAddr;
}.

Section sync.
Context `{Crypto, EventJson, Platform, Iroh}.

(** [read_rounds] bounds the reads of a file that is opened to be sent, as in
    [open_verified_file]; [stored_identity] is what the identity store of the
    data directory yields. *)
Record SessionConfig := mkSessionConfig {
  sc_data_dir : bytes;
  sc_local_endpoint : EndpointId;
  sc_local_addr : EndpointAddr;
  sc_max_future_clock_skew : Z;
  sc_max_logs : Z;
  sc_stored_identity : option DeviceIdentity;
  sc_read_rounds : nat;
}.

(** [?] on calls of the state store, of the platform and of the protocol. *)
Definition state {A} (m : Db A) : IO SyncError A := imap_err SyncState (on_db m).
Definition disk {A} (m : FS -> result A IoError * FS) : IO SyncError A := imap_err SyncIo (on_fs m).
Definition proto {A} (r : result A ProtocolError) : IO SyncError A := ilift (map_err SyncProtocol r).

Definition both_members (tip : RosterRevision) (local remote : EndpointId) : bool :=
  bool_decide (is_Some (rev_members tip !! local)) && bool_decide (is_Some (rev_members tip !! remote)).

Definition authorize_local_roster (local remote : EndpointId) : IO SyncError unit :=
  chain <== state selected_roster_chain ;;
  tip <== ilift (ok_or (last chain) MissingRoster) ;;
  if both_members tip local remote then iret tt else ifail UnauthorizedPeer.

Definition local_session_state : IO SyncError (list RosterRevision * list bytes) :=
  chain <== state selected_roster_chain ;;
  cs <== state collections ;;
  iret (chain, map cs_name cs).

(** ** Membership *)

(** The loop that makes again, on the selected tip, the local changes that the
    merge displaced; it stops once this device is no longer a member. *)
Fixpoint reapply_changes (identity : DeviceIdentity) (local : EndpointId) (displaced : list RosterRevision)
    : IO SyncError unit :=
  match displaced with
  | [] => iret tt
  | revision :: displaced =>
      chain <== state selected_roster_chain ;;
      if match last chain with Some tip => bool_decide (is_Some (rev_members tip !! local)) | None => false end
      then
        _ <== state (apply_roster_change identity (rev_change revision)) ;;
        reapply_changes identity local displaced
      else iret tt
  end.

Definition displaced_changes (previous : list RosterRevision) (selected_hashes : list RosterHash)
    (local : EndpointId) : list RosterRevision :=
  List.filter (fun revision => bool_decide (rev_author revision = local))
    (List.filter (fun revision => negb (bool_decide (canonical_hash revision ∈ selected_hashes))) previous).

Definition merge_and_authorize_remote_roster (stored_identity : option DeviceIdentity)
    (revisions : list RosterRevision) (local remote : EndpointId) : IO SyncError bool :=
  previous <== state selected_roster_chain ;;
  let previous_tip := option_map canonical_hash (last previous) in
  _ <== state (merge_selected_roster_chain revisions) ;;
  selected_after_merge <== state selected_roster_chain ;;
  let selected_hashes := map canonical_hash selected_after_merge in
  _ <== (if match last previous with
            | Some tip => negb (bool_decide (canonical_hash tip ∈ selected_hashes))
            | None => false
            end
         then
           identity <== ilift (ok_or stored_identity MissingRoster) ;;
           reapply_changes identity local (displaced_changes previous selected_hashes local)
         else iret tt) ;;
  selected <== state selected_roster_chain ;;
  tip <== ilift (ok_or (last selected) MissingRoster) ;;
  let roster_changed := bool_decide (previous_tip <> Some (canonical_hash tip)) in
  if both_members tip local remote then iret roster_changed
  else ifail (if roster_changed then RosterChangedAndUnauthorizedPeer else UnauthorizedPeer).

Definition accept_remote_roster_and_hint (stored_identity : option DeviceIdentity)
    (revisions : list RosterRevision) (local_genesis_hash : RosterHash) (local remote : EndpointId)
    (encoded : bytes) : IO SyncError bool :=
  if match revisions with
     | revision :: _ => bool_decide (canonical_hash revision <> local_genesis_hash)
     | [] => true
     end
  then ifail WrongGroup
  else if bool_decide (encoded = []) || (MAX_ADDRESS_HINT_BYTES <? len encoded)
  then ifail (SyncProtocol AddressHintTooLarge)
  else
    addr <== ilift (ok_or (addr_from_json encoded) SyncJson) ;;
    if bool_decide (addr_id addr <> remote) then ifail HintIdentityMismatch
    else if MAX_ENDPOINT_ADDRS <? addr_count addr then ifail HintAddressLimit
    else
      roster_changed <== merge_and_authorize_remote_roster stored_identity revisions local remote ;;
      _ <== state (replace_peer_hint remote encoded) ;;
      iret roster_changed.

(** ** Manifests *)

Fixpoint build_manifests (shared : list bytes) : IO SyncError (list (bytes * Manifest)) :=
  match shared with
  | [] => iret []
  | collection :: shared =>
      rs <== state (records collection) ;;
      manifest <== ilift (map_err SyncRecord (manifest_new rs)) ;;
      rest <== build_manifests shared ;;
      iret ((collection, manifest) :: rest)
  end.

Definition duration_ns (nanos : Z) : Z := default i64_max (i64_try_from nanos).

(** One record of a remote manifest. *)
Definition merge_candidate (remote : EndpointId) (max_logs future_limit : Z) (local_path collection : bytes)
    (candidate : record) : IO SyncError unit :=
  let path := path_str (rec_path candidate) in
  if future_limit <? rec_modified_ns candidate then
    now <== now_ns ;;
    state (append_log now (CollectionWarning collection (Some (rec_path candidate)) TimestampRejected) max_logs)
  else
    current <== state (query_record collection path) ;;
    _ <== (if bool_decide (current <> Some candidate) then
             now <== now_ns ;;
             _ <== state (merge_record candidate now (Some remote) max_logs) ;;
             iret tt
           else iret tt) ;;
    winner <== state (query_record collection path) ;;
    if bool_decide (winner = Some candidate) && bool_decide (rec_kind candidate = Tombstone) then
      item <== state (record_state collection path) ;;
      if match item with Some item => negb (prs_materialized item) | None => false end then
        outcome <== iresult (materialize_tombstone local_path candidate max_logs) ;;
        match outcome with
        | Ok _ => iret tt
        | Err _ =>
            now <== now_ns ;;
            state (append_log now (RepairRequired collection (rec_path candidate)) max_logs)
        end
      else iret tt
    else iret tt.

Fixpoint merge_candidates (remote : EndpointId) (max_logs future_limit : Z) (local_path collection : bytes)
    (candidates : list record) : IO SyncError unit :=
  match candidates with
  | [] => iret tt
  | candidate :: candidates =>
      _ <== merge_candidate remote max_logs future_limit local_path collection candidate ;;
      merge_candidates remote max_logs future_limit local_path collection candidates
  end.

Fixpoint merge_bundle (remote : EndpointId) (max_logs future_limit : Z) (bundle : list (bytes * Manifest))
    : IO SyncError unit :=
  match bundle with
  | [] => iret tt
  | (name, manifest) :: bundle =>
      found <== state (collection name) ;;
      local_collection <== ilift (ok_or found WrongCollections) ;;
      _ <== merge_candidates remote max_logs future_limit (cs_local_path local_collection) name
              (manifest_records manifest) ;;
      merge_bundle remote max_logs future_limit bundle
  end.

(** A remote file that won here and is not on disk. *)
Definition wanted (states : gmap ProtocolPath PathRecordState) (future_limit : Z) (remote : record) : bool :=
  negb (future_limit <? rec_modified_ns remote) &&
  match states !! rec_path remote with
  | None => false
  | Some winner =>
      bool_decide (prs_record winner = remote)
      && match rec_kind remote with File _ _ => true | Tombstone => false end
      && negb (prs_materialized winner)
  end.

Definition request_for (collection : bytes) (remote : record) : FileRequest :=
  mkRequest collection (path_str (rec_path remote)) (rhash (record_canonical_hash remote)).

Fixpoint collect_requests (future_limit : Z) (bundle : list (bytes * Manifest)) : IO SyncError (list FileRequest) :=
  match bundle with
  | [] => iret []
  | (name, manifest) :: bundle =>
      items_ <== state (record_states name) ;;
      let states := list_to_map (rev (map (fun item => (rec_path (prs_record item), item)) items_))
        : gmap ProtocolPath PathRecordState in
      let requests := map (request_for name)
        (List.filter (wanted states future_limit) (manifest_records manifest)) in
      rest <== collect_requests future_limit bundle ;;
      iret (requests ++ rest)
  end.

(** The selection of requests, up to the number of transfers and of bytes of a
    session. *)
Fixpoint select_requests (requests : list FileRequest) (selected : list FileRequest) (selected_bytes : Z)
    : IO SyncError (list FileRequest) :=
  match requests with
  | [] => iret selected
  | request :: requests =>
      if len selected =? MAX_TRANSFERS then iret selected
      else
        found <== state (query_record (req_collection request) (req_path request)) ;;
        match found with
        | None => select_requests requests selected selected_bytes
        | Some r =>
            match rec_kind r with
            | Tombstone => select_requests requests selected selected_bytes
            | File size _ =>
                match u64_checked_add selected_bytes size with
                | None => iret selected
                | Some next_bytes =>
                    if MAX_SESSION_FILE_BYTES <? next_bytes then iret selected
                    else select_requests requests (selected ++ [request]) next_bytes
                end
            end
        end
  end.

Definition merge_remote_manifests (config : SessionConfig) (remote : EndpointId) (shared : list bytes)
    (bundle : list (bytes * Manifest)) : IO SyncError (list FileRequest) :=
  if bool_decide ((list_to_set (map fst bundle) : gset bytes) <> list_to_set shared)
  then ifail WrongCollections
  else
    now <== now_ns ;;
    let future_limit := i64_saturating_add now (duration_ns (sc_max_future_clock_skew config)) in
    _ <== merge_bundle remote (sc_max_logs config) future_limit bundle ;;
    requests <== collect_requests future_limit bundle ;;
    select_requests (dedup (sort requests)) [] 0.
End sync.
