(* ===== verification/Session.v ===== *)
(** sync.rs: the transfer of files and the whole of a session, over the two
    directions of a stream. *)

From S2P Require Import Prelude Bytes Utf8 Cursor Canonical Path Identity Records Roster Protocol Database.
From S2P Require Import State RosterStore Platform Installer Sync.

Section session.
Context `{Crypto, EventJson, Platform, Iroh}.

(** The world and the connection: what the peer still delivers, what was sent
    to it, and the bytes received so far. *)
Record Session := mkSession {
  ss_world : World;
  ss_recv : Stream;
  ss_send : Sink;
  ss_received : Z;
}.

Definition SIO (A : Type) : Type := Session -> result A SyncError * Session.

Definition sret {A} (a : A) : SIO A := fun s => (Ok a, s).
Definition sfail {A} (e : SyncError) : SIO A := fun s => (Err e, s).
Definition sbind {A B} (m : SIO A) (f : A -> SIO B) : SIO B :=
  fun s =>
    match m s with
    | (Ok a, s) => f a s
    | (Err e, s) => (Err e, s)
    end.
(** A computation on the world. *)
Definition world {A} (m : IO SyncError A) : SIO A :=
  fun s =>
    let '(r, w) := m (ss_world s) in
    (r, mkSession w (ss_recv s) (ss_send s) (ss_received s)).
Definition sresult {A} (m : SIO A) : SIO (result A SyncError) :=
  fun s => let '(r, s) := m s in (Ok r, s).
End session.

Declare Scope session_scope.
Delimit Scope session_scope with session.
Notation "x <<= m ;; k" := (sbind m (fun x => k))
  (at level 100, m at next level, right associativity) : session_scope.
Open Scope session_scope.

Section transfer.
Context `{Crypto, EventJson, Platform, Iroh}.

(** ** Frames *)

Definition send_frame (tag : FrameTag) (payload : bytes) : SIO unit :=
  fun s =>
    match write_frame_async (ss_send s) tag payload with
    | Ok sink => (Ok tt, mkSession (ss_world s) (ss_recv s) sink (ss_received s))
    | Err e => (Err (SyncProtocol e), s)
    end.

Definition receive_frame : SIO (FrameTag * bytes) :=
  fun s =>
    match read_frame_async (ss_recv s) (ss_received s) with
    | Ok (frame, recv, received) => (Ok frame, mkSession (ss_world s) recv (ss_send s) received)
    | Err e => (Err (SyncProtocol e), s)
    end.

Definition add_received_bytes (amount : Z) : SIO unit :=
  fun s =>
    match add_received (ss_received s) amount with
    | Ok received => (Ok tt, mkSession (ss_world s) (ss_recv s) (ss_send s) received)
    | Err e => (Err (SyncProtocol e), s)
    end.

Definition read_expected (expected : FrameTag) : SIO bytes :=
  frame <<= receive_frame ;;
  _ <<= world (proto (expect_frame_tag frame.1 expected)) ;;
  sret frame.2.

(** [try_join!] of writing and reading: the directions are independent, and
    when both fail the error of the writer is taken. *)
Definition exchange_frame (tag : FrameTag) (local_payload : bytes) : SIO bytes :=
  _ <<= send_frame tag local_payload ;;
  read_expected tag.

(** ** Raw bytes *)

Definition transport_error (e : ProtocolError) : SyncError :=
  match e with Timeout => SyncTimeout | _ => SyncTransport end.

Definition send_raw (l : bytes) : SIO unit :=
  fun s =>
    match write_all l (ss_send s) with
    | Ok sink => (Ok tt, mkSession (ss_world s) (ss_recv s) sink (ss_received s))
    | Err e => (Err (transport_error e), s)
    end.

Definition receive_raw (n : Z) : SIO bytes :=
  fun s =>
    match read_exact n (ss_recv s) with
    | Ok (l, recv) => (Ok l, mkSession (ss_world s) recv (ss_send s) (ss_received s))
    | Err Timeout => (Err SyncTimeout, s)
    | Err _ => (Err InterruptedFile, s)
    end.

(** Every round reads at least one byte: as many rounds as bytes are enough. *)
Fixpoint stream_loop (fuel : nat) (file : Handle) (remaining : Z) : SIO unit :=
  match fuel with
  | O => sret tt
  | S fuel =>
      if remaining <=? 0 then sret tt
      else
        chunk <<= world (disk (file_read file (Z.min remaining BUFFER))) ;;
        if len chunk =? 0 then sfail InterruptedFile
        else
          _ <<= send_raw chunk ;;
          stream_loop fuel file (remaining - len chunk)
  end.
Definition stream_file (file : Handle) (size : Z) : SIO unit := stream_loop (S (Z.to_nat size)) file size.

(** Every round takes a full buffer or what remains. *)
Fixpoint receive_loop (fuel : nat) (staged : Handle) (remaining : Z) (hashed : bytes) : SIO bytes :=
  match fuel with
  | O => sret hashed
  | S fuel =>
      if remaining <=? 0 then sret hashed
      else
        let wanted := Z.min remaining BUFFER in
        chunk <<= receive_raw wanted ;;
        _ <<= world (disk (file_write_all staged chunk)) ;;
        receive_loop fuel staged (remaining - wanted) (hashed ++ chunk)
  end.

Definition receive_raw_file (staged : Handle) (size : Z) (expected_hash : array 32) : SIO unit :=
  hashed <<= receive_loop (S (Z.to_nat (size / BUFFER + 1))) staged size [] ;;
  if bool_decide (blake3 hashed <> expected_hash) then sfail CorruptFile
  else
    _ <<= world (disk (file_flush staged)) ;;
    world (disk (file_sync_all staged)).

(** ** Sending *)

Definition log_unavailable (config : SessionConfig) (remote : EndpointId) (request : FileRequest)
    (mark_repair : bool) : IO SyncError unit :=
  path <== ilift (map_err (fun e => SyncProtocol (ProtocolPathError e)) (parse (req_path request))) ;;
  let event := TransferRejected (req_collection request) path remote in
  now <== now_ns ;;
  if mark_repair
  then state (mark_repair_required_and_log (req_collection request) (req_path request) now event
                (sc_max_logs config))
  else state (append_log now event (sc_max_logs config)).

Definition unavailable {A} (config : SessionConfig) (remote : EndpointId) (request : FileRequest)
    (mark_repair : bool) : IO SyncError (option A) :=
  _ <== log_unavailable config remote request mark_repair ;;
  iret None.

Definition prepare_requested_file (config : SessionConfig) (remote : EndpointId) (request : FileRequest)
    : IO SyncError (option (record * Handle * Z)) :=
  found <== state (query_record (req_collection request) (req_path request)) ;;
  match found with
  | None => unavailable config remote request false
  | Some r =>
      if bool_decide (rhash (record_canonical_hash r) <> req_record_hash request)
      then unavailable config remote request false
      else
        item <== state (record_state (req_collection request) (req_path request)) ;;
        match item with
        | None => unavailable config remote request false
        | Some item =>
            if negb (prs_materialized item) then unavailable config remote request false
            else
              found <== state (collection (req_collection request)) ;;
              match found with
              | None => unavailable config remote request false
              | Some local =>
                  match rec_kind r with
                  | Tombstone => unavailable config remote request false
                  | File size _ =>
                      opened <== iresult (open_verified_file (sc_read_rounds config) (cs_local_path local) r) ;;
                      match opened with
                      | Ok (Some file) => iret (Some (r, file, size))
                      | _ => unavailable config remote request true
                      end
                  end
              end
        end
  end.

Definition validate_requested_collections (shared : list bytes) (requests : list FileRequest)
    : result unit SyncError :=
  if existsb (fun request => negb (bool_decide (req_collection request ∈ shared))) requests
  then Err WrongCollections else Ok tt.

Fixpoint send_requested (config : SessionConfig) (remote : EndpointId) (requests : list FileRequest)
    (sent_bytes : Z) : SIO unit :=
  match requests with
  | [] => sret tt
  | request :: requests =>
      prepared <<= world (prepare_requested_file config remote request) ;;
      match prepared with
      | None =>
          _ <<= send_frame FFileUnavailable [] ;;
          send_requested config remote requests sent_bytes
      | Some (r, file, size) =>
          match u64_checked_add sent_bytes size with
          | Some next_sent =>
              if MAX_SESSION_FILE_BYTES <? next_sent then
                _ <<= world (log_unavailable config remote request false) ;;
                _ <<= send_frame FFileUnavailable [] ;;
                send_requested config remote requests sent_bytes
              else
                header <<= world (proto (encode_file_header r)) ;;
                _ <<= send_frame FFile header ;;
                _ <<= stream_file file size ;;
                now <<= world now_ns ;;
                _ <<= world (state (append_log now (FileSent (req_collection request) (rec_path r) remote)
                                      (sc_max_logs config))) ;;
                send_requested config remote requests next_sent
          | None =>
              _ <<= world (log_unavailable config remote request false) ;;
              _ <<= send_frame FFileUnavailable [] ;;
              send_requested config remote requests sent_bytes
          end
      end
  end.

Definition send_files (config : SessionConfig) (remote : EndpointId) (shared : list bytes)
    (requests : list FileRequest) : SIO unit :=
  _ <<= world (ilift (validate_requested_collections shared requests)) ;;
  send_requested config remote requests 0.

(** ** Receiving *)

Definition matches_request (r : record) (request : FileRequest) : bool :=
  bool_decide (rec_collection r = req_collection request) &&
  bool_decide (path_str (rec_path r) = req_path request) &&
  bool_decide (rhash (record_canonical_hash r) = req_record_hash request).

(** The end of one transfer: the staged file is applied when its record is
    still the winner of an attached collection. *)
Definition apply_received (config : SessionConfig) (remote : EndpointId) (request : FileRequest)
    (r : record) (staged : Handle) : IO SyncError unit :=
  current <== state (query_record (req_collection request) (req_path request)) ;;
  if bool_decide (current <> Some r) then log_unavailable config remote request false
  else
    found <== state (collection (req_collection request)) ;;
    match found with
    | None => log_unavailable config remote request false
    | Some local =>
        outcome <== iresult (apply_file_fixture (cs_local_path local) r (file_read staged)
                               (sc_max_logs config)) ;;
        match outcome with
        | Err UnstableRoot | Err (PostRenameState _ _) =>
            now <== now_ns ;;
            _ <== iresult (F := SyncError) (state (append_log now
                    (FileApplyRejected (req_collection request) (rec_path r)) (sc_max_logs config))) ;;
            iret tt
        | Err _ => iret tt
        | Ok _ =>
            now <== now_ns ;;
            state (append_log now (FileReceived (req_collection request) (rec_path r) remote)
                     (sc_max_logs config))
        end
    end.

Definition receive_file (config : SessionConfig) (remote : EndpointId) (request : FileRequest) : SIO unit :=
  frame <<= receive_frame ;;
  let '(tag, header) := frame in
  if bool_decide (tag = FFileUnavailable) then
    if negb (bool_decide (header = [])) then sfail (SyncProtocol UnexpectedFrame)
    else world (log_unavailable config remote request false)
  else if bool_decide (tag <> FFile) then sfail (SyncProtocol UnexpectedFrame)
  else
    r <<= world (proto (decode_file_header header)) ;;
    if negb (matches_request r request) then sfail UnsolicitedFile
    else
      match rec_kind r with
      | Tombstone => sfail UnsolicitedFile
      | File size content_hash =>
          _ <<= add_received_bytes size ;;
          staged <<= world (disk (tempfile_in (sc_data_dir config))) ;;
          outcome <<= sresult (receive_raw_file staged size content_hash) ;;
          match outcome with
          | Err error =>
              now <<= world now_ns ;;
              _ <<= world (state (append_log now (TransferRejected (req_collection request) (rec_path r) remote)
                                    (sc_max_logs config))) ;;
              sfail error
          | Ok _ =>
              _ <<= world (disk (file_seek_start staged)) ;;
              world (apply_received config remote request r staged)
          end
      end.

Fixpoint receive_files (config : SessionConfig) (remote : EndpointId) (requests : list FileRequest) : SIO unit :=
  match requests with
  | [] => sret tt
  | request :: requests =>
      _ <<= receive_file config remote request ;;
      receive_files config remote requests
  end.

(** ** A session *)

Record SessionOutcome := mkOutcome { remote_endpoint : EndpointId; roster_changed : bool }.

(** What the transport reports of opening the stream, of finishing it and of
    waiting until the peer has taken everything. *)
Record Connection := mkConnection {
  conn_remote : EndpointId;
  conn_opened : result unit SyncError;
  conn_finished : result unit SyncError;
  conn_stopped : result unit SyncError;
}.

(** The peer must close its direction after [Done]. *)
Definition expect_end : SIO unit :=
  fun s =>
    match stream_bytes (ss_recv s), stream_stop (ss_recv s) with
    | [], Closed => (Ok tt, s)
    | [], Stalled => (Err SyncTimeout, s)
    | [], Reset => (Err SyncTransport, s)
    | _ :: _, _ => (Err UnexpectedState, s)
    end.

Definition exchange_files (side : ConnectionSide) (config : SessionConfig) (remote : EndpointId)
    (shared : list bytes) (local_requests remote_requests : list FileRequest) : SIO unit :=
  match side with
  | Dialer =>
      _ <<= send_files config remote shared remote_requests ;;
      receive_files config remote local_requests
  | Acceptor =>
      _ <<= receive_files config remote local_requests ;;
      send_files config remote shared remote_requests
  end.

Definition run_session_with_outcome (connection : Connection) (side : ConnectionSide)
    (config : SessionConfig) : SIO SessionOutcome :=
  let remote := conn_remote connection in
  let local := sc_local_endpoint config in
  _ <<= world (authorize_local_roster local remote) ;;
  _ <<= world (ilift (conn_opened connection)) ;;
  local_state <<= world local_session_state ;;
  let '(local_chain, local_collections) := local_state in
  local_genesis <<= world (ilift (ok_or (head local_chain) MissingRoster)) ;;
  if MAX_ENDPOINT_ADDRS <? addr_count (sc_local_addr config) then sfail HintAddressLimit
  else
    local_addr_json <<= world (ilift (ok_or (addr_to_json (sc_local_addr config)) SyncJson)) ;;
    hello <<= world (proto (hello_encode (mkHello local_collections local_addr_json))) ;;
    remote_hello <<= exchange_frame FHello hello ;;
    remote_hello <<= world (proto (hello_decode remote_hello)) ;;
    local_roster <<= world (proto (roster_bundle_encode local_chain)) ;;
    remote_roster <<= exchange_frame FRoster local_roster ;;
    remote_roster <<= world (proto (roster_bundle_decode remote_roster)) ;;
    changed <<= world (accept_remote_roster_and_hint (sc_stored_identity config) remote_roster
                         (canonical_hash local_genesis) local remote (endpoint_addr_json remote_hello)) ;;
    let shared := List.filter (fun c => bool_decide (c ∈ hello_collections remote_hello)) local_collections in
    local_manifests <<= world (build_manifests shared) ;;
    local_manifests <<= world (proto (manifest_bundle_encode local_manifests)) ;;
    remote_manifests <<= exchange_frame FManifests local_manifests ;;
    remote_manifests <<= world (proto (manifest_bundle_decode remote_manifests)) ;;
    requests <<= world (merge_remote_manifests config remote shared remote_manifests) ;;
    local_requests <<= world (proto (request_bundle_encode requests)) ;;
    remote_requests <<= exchange_frame FRequests local_requests ;;
    remote_requests <<= world (proto (request_bundle_decode remote_requests)) ;;
    _ <<= exchange_files side config remote shared requests remote_requests ;;
    done_payload <<= exchange_frame FDone [] ;;
    if negb (bool_decide (done_payload = [])) then sfail UnexpectedState
    else
      _ <<= world (ilift (conn_finished connection)) ;;
      _ <<= expect_end ;;
      _ <<= world (ilift (conn_stopped connection)) ;;
      sret (mkOutcome remote changed).

Definition run_session (connection : Connection) (side : ConnectionSide) (config : SessionConfig)
    : SIO EndpointId :=
  outcome <<= run_session_with_outcome connection side config ;;
  sret (remote_endpoint outcome).
End transfer.
