(* ===== verification/SyncLaws.v ===== *)
(** Merging a remote manifest: it refines the last-writer-wins map, and the
    requests it selects are within the limits of a session. *)

From S2P Require Import Prelude Bytes Utf8 Cursor Canonical Path Identity Records Winners Roster Protocol.
From S2P Require Import Database State RosterStore StateLaws Platform Installer InstallLaws Sync.

Section laws.
Context `{Crypto, EventJson, Platform, Iroh}.

(** ** What leaves the records alone *)

Definition same_records (w w' : World) : Prop :=
  db_wf (w_db w) -> db_wf (w_db w') /\ winners (w_db w') = winners (w_db w).
#[global] Instance same_records_preorder : PreOrder same_records.
Proof.
  split.
  - by intros w Hw.
  - intros x y z Hxy Hyz Hx. destruct (Hxy Hx) as [Hy Exy]. destruct (Hyz Hy) as [Hz Eyz].
    split; [done | congruence].
Qed.

Lemma same_db_records w w' : same_db w w' -> same_records w w'.
Proof. intros E Hw. by rewrite E. Qed.

Lemma leaves_records {E A} (m : IO E A) : respects same_db m -> respects same_records m.
Proof. intros Hm w r w' Hr. by eapply same_db_records, Hm. Qed.

Lemma db_records {A} (m : Db A) : preserves m -> keeps_records m -> respects same_records (on_db m).
Proof.
  intros Hp Hk w r w' E Hw. unfold on_db in E. destruct (m (w_db w)) as [x db'] eqn:Em.
  injection E as _ <-. split; [by eapply Hp | by eapply keeps_winners].
Qed.

Lemma op_records op : op_ok op -> other_op op -> respects same_records (on_db (run_op op)).
Proof. intros Hok Ho. apply db_records; [by apply preserves_run_op | by apply keeps_run_op]. Qed.

Lemma log_records t e n : respects same_records (state (append_log t e n)).
Proof. apply respects_map_err. by apply (op_records (OpAppendLog t e n)). Qed.

Lemma fs_records {A} (m : FS -> result A IoError * FS) : respects same_records (on_fs m).
Proof. apply leaves_records, leaves_db_fs. Qed.
Lemma now_records {E} : respects same_records (now_ns (E := E)).
Proof. apply leaves_records, leaves_db_now. Qed.

Lemma tombstone_records root r n : respects same_records (materialize_tombstone root r n).
Proof.
  unfold materialize_tombstone, st, open_existing_safe_parent, io.
  walk ltac:(first
    [ apply leaves_records, leaves_acquire | apply leaves_records, leaves_open_components
    | apply fs_records | apply now_records
    | match goal with |- respects _ (on_db (mark_tombstone_materialized_and_log ?c ?p ?t ?e ?n)) =>
        exact (op_records (OpTombstone c p t e n) I I) end ]).
Qed.

Ltac calm_call :=
  idtac; match goal with
  | |- respects _ now_ns => apply now_records
  | |- respects _ (on_fs _) => apply fs_records
  | |- respects _ (state (append_log _ _ _)) => apply log_records
  | |- respects _ (materialize_tombstone _ _ _) => apply tombstone_records
  end.

(** A query of one record. *)
Lemma query_winner w collection path :
  db_wf (w_db w) ->
  state (query_record collection path) w = (Ok (winners (w_db w) !! (collection, path)), w).
Proof.
  intros Hw. unfold state, imap_err, on_db, query_record. rewrite load_record_wf by done.
  by destruct w.
Qed.

(** ** One candidate *)

Definition timely (future_limit : Z) (r : record) : bool := negb (future_limit <? rec_modified_ns r).

Lemma merge_candidate_refines remote n limit root c r w w' :
  db_wf (w_db w) -> record_wf r -> rec_collection r = c ->
  merge_candidate remote n limit root c r w = (Ok tt, w') ->
  db_wf (w_db w') /\
  winners (w_db w') = (if timely limit r then merge_map (winners (w_db w)) r else winners (w_db w)).
Proof.
  intros Hw Hr Hc E. unfold merge_candidate in E. unfold timely. destruct (limit <? rec_modified_ns r).
  { apply (respects_bind same_records _ _ now_records (fun t => log_records t _ n)) in E. by apply E. }
  cbn [negb]. apply ibind_Ok in E as (current & w0 & Hq & E). rewrite query_winner in Hq by done.
  injection Hq as <- <-.
  assert ((c, path_str (rec_path r)) = index_of r) as Hi by (unfold index_of; by rewrite Hc).
  rewrite Hi in E. apply ibind_Ok in E as ([] & w1 & Em & E).
  assert (db_wf (w_db w1) /\ winners (w_db w1) = merge_map (winners (w_db w)) r) as [Hw1 <-].
  { clear E. case_bool_decide as Hcur.
    - inv_io. unfold now_ns in *. simplify_eq/=. unfold state in *.
      match goal with Hx : imap_err _ (on_db _) _ = (Ok _, _) |- _ => rename Hx into Hm end.
      apply (proj1 (imap_err_Ok _ _ _ _ _)) in Hm. apply (proj1 (on_db_Ok _ _ _ _)) in Hm as (db' & Hm & ->).
      cbn [w_db set_db] in *. split; [by apply (preserves_merge_record _ _ _ _ Hr _ _ _ Hw Hm)|].
      apply (merge_record_refines _ _ _ _ _ _ _ Hw Hr Hm).
    - injection Em as <-. split; [done|]. symmetry. by apply merge_map_held. }
  apply ibind_Ok in E as (winner & w2 & Hq & E). rewrite query_winner in Hq by done.
  injection Hq as <- <-.
  assert (respects same_records
    (if bool_decide (winners (w_db w1) !! (c, path_str (rec_path r)) = Some r) && bool_decide (rec_kind r = Tombstone)
     then item <== state (record_state c (path_str (rec_path r))) ;;
       if match item with Some item => negb (prs_materialized item) | None => false end then
         outcome <== iresult (materialize_tombstone root r n) ;;
         match outcome with
         | Ok _ => iret tt
         | Err _ => now <== now_ns ;; state (append_log now (RepairRequired c (rec_path r)) n)
         end
       else iret tt
     else iret tt)) as Hs; [|by apply (Hs _ _ _ E)].
  walk calm_call.
  apply leaves_records, respects_map_err. intros w2 x w3. unfold on_db, record_state, dbind, dget.
  destruct (path_records_t (w_db w2) !! _); by intros [= _ <-].
Qed.

(** ** The bundle *)

Definition timely_records (limit : Z) (rs : list record) : list record := List.filter (timely limit) rs.

Lemma merge_candidates_refine remote n limit root c rs w w' :
  db_wf (w_db w) -> Forall (fun r => record_wf r /\ rec_collection r = c) rs ->
  merge_candidates remote n limit root c rs w = (Ok tt, w') ->
  db_wf (w_db w') /\ winners (w_db w') = merge_maps (winners (w_db w)) (timely_records limit rs).
Proof.
  intros Hw Hrs. revert w Hw. induction Hrs as [|r rs [Hr Hc] _ IH]; intros w Hw E.
  { injection E as <-. done. }
  cbn [merge_candidates] in E. apply ibind_Ok in E as ([] & w1 & E1 & E).
  apply merge_candidate_refines in E1 as [Hw1 Hwin1]; [|done..].
  apply IH in E as [Hw' ->]; [|done]. split; [done|]. unfold timely_records. cbn [List.filter].
  rewrite Hwin1. by destruct (timely limit r).
Qed.

(** A manifest names records of its collection. *)
Definition bundle_wf (bundle : list (bytes * Manifest)) : Prop :=
  Forall (fun x => Forall (fun r => record_wf r /\ rec_collection r = x.1) (manifest_records x.2)) bundle.
Definition bundle_records (bundle : list (bytes * Manifest)) : list record :=
  concat (map (fun x => manifest_records x.2) bundle).

Lemma timely_app limit rs rs' : timely_records limit (rs ++ rs') = timely_records limit rs ++ timely_records limit rs'.
Proof. apply List.filter_app. Qed.

Lemma timely_all limit rs : Forall (fun r => timely limit r = true) rs -> timely_records limit rs = rs.
Proof. unfold timely_records. induction 1 as [|r rs Hr _ IH]; simpl; [done|]. by rewrite Hr, IH. Qed.

Lemma merge_maps_app m rs rs' : merge_maps m (rs ++ rs') = merge_maps (merge_maps m rs) rs'.
Proof. apply fold_left_app. Qed.

Lemma state_collection w name x w' :
  state (collection name) w = (Ok x, w') -> w' = w.
Proof.
  unfold state, imap_err, on_db, collection, dbind, dget. destruct (collections_t (w_db w) !! name) as [row|];
    [|intros [= _ <-]; by destruct w]. unfold dlift. destruct (decode_collection name row); [|done].
  intros [= _ <-]. by destruct w.
Qed.

Lemma merge_bundle_refines remote n limit bundle w w' :
  db_wf (w_db w) -> bundle_wf bundle -> merge_bundle remote n limit bundle w = (Ok tt, w') ->
  db_wf (w_db w') /\
  winners (w_db w') = merge_maps (winners (w_db w)) (timely_records limit (bundle_records bundle)).
Proof.
  intros Hw Hb. revert w Hw. induction Hb as [|[name m] bundle Hrs _ IH]; intros w Hw E.
  { injection E as <-. done. }
  cbn [merge_bundle] in E. apply ibind_Ok in E as (found & w1 & Ec & E). apply state_collection in Ec as ->.
  apply ibind_Ok in E as (local & w1 & Hl & E). injection Hl as _ <-.
  apply ibind_Ok in E as ([] & w1 & Em & E). apply merge_candidates_refine in Em as [Hw1 Hwin]; [|done..].
  apply IH in E as [Hw' ->]; [|done]. split; [done|].
  unfold bundle_records. cbn [map concat snd]. by rewrite timely_app, merge_maps_app, Hwin.
Qed.

(** ** Requests *)

Definition unmaterialized (db : Database) (k : bytes * bytes) : Prop :=
  exists row, path_records_t db !! k = Some row /\ row_materialized row = false.

Definition is_file (r : record) : bool := match rec_kind r with File _ _ => true | Tombstone => false end.

(** A record of the bundle that this device lacks: it won here, and is a file
    that is not on disk. *)
Definition lacks (db : Database) (limit : Z) (r : record) : Prop :=
  timely limit r = true /\ winners db !! index_of r = Some r /\ is_file r = true /\
  unmaterialized db (index_of r).

(** Reading the states of a collection: one for each row, under its path. *)
Lemma states_read db c :
  db_wf db ->
  exists ss, record_states c db = (Ok ss, db) /\
    NoDup (map (fun s => index_of (prs_record s)) ss) /\
    (forall s, s ∈ ss -> rec_collection (prs_record s) = c /\ exists row,
       path_records_t db !! index_of (prs_record s) = Some row /\ row_materialized row = prs_materialized s /\
       winners db !! index_of (prs_record s) = Some (prs_record s)) /\
    (forall k row, path_records_t db !! k = Some row -> k.1 = c ->
       exists s, s ∈ ss /\ index_of (prs_record s) = k).
Proof.
  intros Hw. pose proof (select_rows_ok db c Hw) as Hrows.
  destruct (decode_states_ok _ _ Hrows) as (ss & E & Hf). exists ss.
  split; [unfold record_states, dbind, dget, dlift; by rewrite E|]. split; [|split].
  - pose proof (strict_NoDup fst _ (select_rows_sorted db c)) as Hn.
    assert (map (fun s => index_of (prs_record s)) ss = map fst (select_rows db c)) as ->; [|done].
    clear -Hf. induction Hf as [|x s rows ss (Hh & _) _ IH]; simpl; [done|]. f_equal; [|done].
    by destruct Hh as (_ & ? & _).
  - intros s Hs. apply list_elem_of_lookup in Hs as [i Hi].
    destruct (Forall2_lookup_r _ _ _ _ _ Hf Hi) as ([k row] & Hk & Hh & Hm & _). simpl in *.
    apply list_elem_of_lookup_2 in Hk. rewrite Forall_forall in Hrows. destruct (Hrows _ Hk) as [Hc _]. simpl in Hc.
    unfold select_rows in Hk. apply list_elem_of_In, filter_In in Hk as [Hk _]. apply list_elem_of_In, items_elem in Hk.
    pose proof Hh as (_ & Hidx & _). split; [by rewrite <-Hc, <-Hidx|]. exists row. rewrite Hidx.
    split; [done|]. split; [done|]. by eapply winners_lookup.
  - intros k row Hk Hc. assert ((k, row) ∈ select_rows db c) as Hin.
    { unfold select_rows. apply list_elem_of_In, filter_In. split; [by apply list_elem_of_In, items_elem|].
      by apply bool_decide_eq_true. }
    apply list_elem_of_lookup in Hin as [i Hi].
    destruct (Forall2_lookup_l _ _ _ _ _ Hf Hi) as (s & Hs & Hh & _).
    exists s. split; [by apply list_elem_of_lookup_2 in Hs|]. by destruct Hh as (_ & ? & _).
Qed.

Lemma index_inj r s : rec_collection r = rec_collection s -> rec_path r = rec_path s -> index_of r = index_of s.
Proof. unfold index_of. by intros -> ->. Qed.

(** The lookup by path finds the state of the record's own index. *)
Lemma wanted_lacks db c ss limit r :
  db_wf db -> record_states c db = (Ok ss, db) -> rec_collection r = c ->
  wanted (list_to_map (rev (map (fun item => (rec_path (prs_record item), item)) ss))) limit r = true
  <-> lacks db limit r.
Proof.
  intros Hw E Hc. destruct (states_read db c Hw) as (ss' & E' & Hn & Hss & Hrows).
  assert (ss' = ss) as -> by congruence. unfold wanted, lacks, timely, is_file.
  set (l := rev _). assert (forall item, (list_to_map l : gmap ProtocolPath PathRecordState) !! rec_path r = Some item
    <-> item ∈ ss /\ index_of (prs_record item) = index_of r) as Hlook.
  { intros item. rewrite <-elem_of_list_to_map.
    - unfold l. rewrite list_elem_of_In, <-in_rev, <-list_elem_of_In, list_elem_of_fmap. split.
      + intros (item' & [= Hp ->] & Hin). split; [done|]. apply index_inj; [|done].
        by destruct (Hss item' Hin) as [-> _].
      + intros [Hin Hidx]. exists item. split; [|done]. f_equal. injection Hidx as _ Hp. by apply (inj path_str).
    - unfold l. rewrite <-map_rev, map_map. cbn [fst]. 
      assert (NoDup (map (fun x => rec_path (prs_record x)) ss)) as Hnp.
      { clear -Hn Hss. induction ss as [|s ss IH]; [constructor|]. inversion Hn as [|? ? Hs Hn']; subst.
        constructor; [|apply IH; [intros x Hx; apply Hss; by right | done]].
        intros Hin. apply list_elem_of_fmap in Hin as (x & Hp & Hx). apply Hs.
        apply list_elem_of_fmap. exists x. split; [|done]. apply index_inj; [|done].
        destruct (Hss s ltac:(left)) as [-> _], (Hss x ltac:(by right)) as [-> _]. done. }
      rewrite map_rev. rewrite <-Permutation_rev. exact Hnp. }
  destruct (limit <? rec_modified_ns r); cbn [negb andb]; [by split; [|intros [? _]]|].
  destruct (list_to_map l !! rec_path r) as [item|] eqn:El.
  - destruct (proj1 (Hlook item) eq_refl) as [Hin Hidx]. destruct (Hss item Hin) as (_ & row & Hrow & Hmat & Hwin).
    rewrite !andb_true_iff, bool_decide_eq_true, negb_true_iff. split.
    + intros [[<- Hk] Hm]. split; [done|]. split; [done|]. split; [done|]. exists row. by rewrite Hmat.
    + intros (_ & Hwr & Hk & row' & Hrow' & Hm'). rewrite Hidx in *. split; [split; [congruence | done]|].
      rewrite <-Hmat. congruence.
  - split; [done|]. intros (_ & _ & _ & row & Hrow & _). exfalso.
    destruct (Hrows _ _ Hrow) as (s & Hs & Hidx); [done|].
    by pose proof (proj2 (Hlook s) (conj Hs Hidx)) as [=].
Qed.

Lemma state_record_states w name ss :
  record_states name (w_db w) = (Ok ss, w_db w) -> state (record_states name) w = (Ok ss, w).
Proof. intros E. unfold state, imap_err, on_db. rewrite E. by destruct w. Qed.

(** Collecting reads only, and collects exactly what is lacking. *)
Lemma collect_requests_spec limit bundle w :
  db_wf (w_db w) -> bundle_wf bundle ->
  exists qs, collect_requests limit bundle w = (Ok qs, w) /\
    forall q, q ∈ qs <-> exists r, r ∈ bundle_records bundle /\ lacks (w_db w) limit r /\
      q = request_for (rec_collection r) r.
Proof.
  intros Hw. induction 1 as [|[name m] bundle Hrs _ (qs & E & Hqs)].
  { exists []. split; [done|]. intros q. split; [by intros ?%not_elem_of_nil|].
    by intros (r & ?%not_elem_of_nil & _). }
  destruct (states_read (w_db w) name Hw) as (ss & Es & _). cbn [collect_requests]. eexists. split.
  { unfold ibind at 1. rewrite (state_record_states w name ss Es). cbv zeta.
    unfold ibind. rewrite E. reflexivity. }
  intros q. rewrite elem_of_app, Hqs, list_elem_of_fmap. unfold bundle_records. cbn [map concat snd].
  rewrite Forall_forall in Hrs. cbn [fst snd] in Hrs. split.
  - intros [(r & -> & Hin)|(r & Hin & Hl & ->)].
    + apply list_elem_of_In, filter_In in Hin as [Hin Hwant]. apply list_elem_of_In in Hin.
      destruct (Hrs r Hin) as [_ Hc]. exists r. rewrite elem_of_app. split; [by left|].
      split; [by apply (wanted_lacks (w_db w) name ss) in Hwant | by rewrite Hc].
    + exists r. rewrite elem_of_app. auto.
  - intros (r & Hin & Hl & ->). apply elem_of_app in Hin as [Hin|Hin]; [left | right; by exists r].
    destruct (Hrs r Hin) as [_ Hc]. exists r. split; [by rewrite Hc|].
    apply list_elem_of_In, filter_In. split; [by apply list_elem_of_In|].
    by apply (wanted_lacks (w_db w) name ss).
Qed.

(** Sorting and removing repetitions gives the strictly sorted list of the same requests. *)
Lemma dedup_sorted (l : list FileRequest) :
  StronglySorted ole l -> StronglySorted olt (dedup l) /\ forall q, q ∈ dedup l <-> q ∈ l.
Proof.
  induction 1 as [|x l Hl [IHs IHe] Hx]; [split; [constructor | done]|].
  cbn [dedup]. destruct l as [|y l]; [by split; [repeat constructor|]|].
  destruct (decide (x = y)) as [->|Hne].
  - split; [done|]. intros q. rewrite IHe, !elem_of_cons. tauto.
  - split.
    + constructor; [done|]. apply Forall_forall. intros q Hq%IHe.
      rewrite Forall_forall in Hx. pose proof (Hx q Hq) as Hle. apply ole_lt_eq in Hle as [?| ->]; [done|].
      exfalso. apply Hne. apply (anti_symm ole); [apply Hx; left|].
      apply elem_of_cons in Hq as [->|Hq]; [apply ole_lt_eq; by right|].
      inversion Hl as [|? ? _ Hy]; subst. rewrite Forall_forall in Hy. by apply Hy.
    + intros q. rewrite elem_of_cons, IHe, !elem_of_cons. tauto.
Qed.

Lemma sort_requests (l : list FileRequest) :
  StronglySorted olt (dedup (sort l)) /\ forall q, q ∈ dedup (sort l) <-> q ∈ l.
Proof.
  destruct (dedup_sorted (sort l)) as [Hs He]; [apply StronglySorted_merge_sort; apply _|].
  split; [done|]. intros q. rewrite He. unfold sort. by rewrite (merge_sort_Permutation ole l).
Qed.

(** ** The selection *)

Definition request_size (db : Database) (q : FileRequest) : Z :=
  match winners db !! (req_collection q, req_path q) with
  | Some r => match rec_kind r with File size _ => size | Tombstone => 0 end
  | None => 0
  end.
Definition total_size (db : Database) (qs : list FileRequest) : Z :=
  fold_right (fun q n => request_size db q + n) 0 qs.

(** The request names a file that won. *)
Definition names_file (db : Database) (q : FileRequest) : Prop :=
  exists r, winners db !! (req_collection q, req_path q) = Some r /\ is_file r = true.

Lemma total_size_app db qs qs' : total_size db (qs ++ qs') = total_size db qs + total_size db qs'.
Proof. induction qs as [|q qs IH]; simpl; [done|]. rewrite IH. lia. Qed.

Lemma request_size_nonneg db q : db_wf db -> 0 <= request_size db q.
Proof.
  intros Hw. unfold request_size. destruct (winners db !! _) as [r|] eqn:E; [|done].
  apply (winners_wf db _ r Hw) in E as (_ & _ & Hk). destruct (rec_kind r); [apply Hk | done].
Qed.

(** The selection takes requests from the front while they fit. *)
Definition fits (db : Database) (qs : list FileRequest) : Prop :=
  len qs <= MAX_TRANSFERS /\ total_size db qs <= MAX_SESSION_FILE_BYTES.

Lemma select_requests_spec qs selected w :
  db_wf (w_db w) -> Forall (names_file (w_db w)) qs -> fits (w_db w) selected ->
  exists n, select_requests qs selected (total_size (w_db w) selected) w = (Ok (selected ++ take n qs), w) /\
    fits (w_db w) (selected ++ take n qs) /\
    forall q rest, drop n qs = q :: rest -> ~ fits (w_db w) (selected ++ take n qs ++ [q]).
Proof.
  intros Hw Hqs. revert selected. induction Hqs as [|q qs (r & Hr & Hf) Hqs IH]; intros selected Hfit.
  { exists 0%nat. rewrite app_nil_r. split; [done|]. by split. }
  cbn [select_requests]. destruct (Z.eqb_spec (len selected) MAX_TRANSFERS) as [Hlen|Hlen].
  { exists 0%nat. cbn [take drop]. rewrite app_nil_r. split; [done|]. split; [done|].
    intros q' rest [= <- <-] [Hl _]. cbn [app] in Hl. rewrite len_app in Hl. unfold len in Hl at 2. simpl in Hl. lia. }
  unfold ibind. rewrite query_winner, Hr by done. unfold is_file in Hf.
  destruct (rec_kind r) as [size hash|] eqn:Hk; [|done].
  assert (request_size (w_db w) q = size) as Hsize by (unfold request_size; by rewrite Hr, Hk).
  assert (total_size (w_db w) (selected ++ [q]) = total_size (w_db w) selected + size) as Htot
    by (rewrite total_size_app; simpl; lia).
  pose proof (request_size_nonneg (w_db w) q Hw). 
  assert (MAX_SESSION_FILE_BYTES < total_size (w_db w) selected + size ->
    exists n, (Ok (E := SyncError) selected, w) = (Ok (selected ++ take n (q :: qs)), w) /\
      fits (w_db w) (selected ++ take n (q :: qs)) /\
      forall q' rest, drop n (q :: qs) = q' :: rest -> ~ fits (w_db w) (selected ++ take n (q :: qs) ++ [q'])) as Hstop.
  { intros Hbig. exists 0%nat. cbn [take drop]. rewrite app_nil_r. split; [done|]. split; [done|].
    intros q' rest [= <- <-] [_ Ht]. cbn [app] in Ht. lia. }
  assert (0 <= total_size (w_db w) selected) as Hpos.
  { clear -Hw. induction selected as [|x l IHl]; simpl; [done|]. pose proof (request_size_nonneg (w_db w) x Hw). lia. }
  destruct (u64_checked_add (total_size (w_db w) selected) size) as [next|] eqn:En.
  - apply u64_checked_add_Some in En as [-> _].
    destruct (Z.ltb_spec MAX_SESSION_FILE_BYTES (total_size (w_db w) selected + size)) as [Hb|Hb]; [by apply Hstop|].
    rewrite <-Htot. destruct (IH (selected ++ [q])) as (n & En & Hfit' & Hmax).
    { destruct Hfit. split; [rewrite len_app; unfold len at 2; simpl; lia | lia]. }
    exists (S n). rewrite En. cbn [take drop]. rewrite <-!app_assoc in *. cbn [app] in *. split; [done|].
    split; [done|]. intros q' rest Hd. specialize (Hmax q' rest Hd). by rewrite <-app_assoc in Hmax.
  - apply Hstop. unfold u64_checked_add, u64_try_from, in_u64 in En.
    destruct (Z.leb_spec 0 (total_size (w_db w) selected + size)); [|lia].
    destruct (Z.ltb_spec (total_size (w_db w) selected + size) (2 ^ 64)); [done|].
    unfold MAX_SESSION_FILE_BYTES. lia.
Qed.

(** ** The merge of a bundle *)

Definition future_limit (config : SessionConfig) (w : World) : Z :=
  i64_saturating_add (clock_ns (clock (w_tick w))) (duration_ns (sc_max_future_clock_skew config)).

(** What a merge of manifests asks for: of the strictly sorted list of what is
    lacking, the longest beginning that fits a session. *)
Definition requests_of (limit : Z) (bundle : list (bytes * Manifest)) (db : Database)
    (requests : list FileRequest) : Prop :=
  exists (all : list FileRequest) (n : nat),
    StronglySorted olt all /\
    (forall q, q ∈ all <-> exists r, r ∈ bundle_records bundle /\ lacks db limit r /\
       q = request_for (rec_collection r) r) /\
    requests = take n all /\ fits db requests /\
    forall q rest, drop n all = q :: rest -> ~ fits db (requests ++ [q]).

Lemma fits_nil db : fits db [].
Proof. by split; vm_compute. Qed.

Lemma merge_manifests_refine config remote shared bundle w requests w' :
  db_wf (w_db w) -> bundle_wf bundle ->
  merge_remote_manifests config remote shared bundle w = (Ok requests, w') ->
  (forall c, c ∈ map fst bundle <-> c ∈ shared) /\ db_wf (w_db w') /\
  winners (w_db w') =
    merge_maps (winners (w_db w)) (timely_records (future_limit config w) (bundle_records bundle)) /\
  requests_of (future_limit config w) bundle (w_db w') requests.
Proof.
  intros Hw Hb E. unfold merge_remote_manifests in E. case_bool_decide as Hset; [done|].
  apply ibind_Ok in E as (now & w0 & Hnow & E). injection Hnow as <- <-.
  cbv zeta in E. fold (future_limit config w) in E.
  apply ibind_Ok in E as ([] & w1 & Em & E). apply merge_bundle_refines in Em as [Hw1 Hwin]; [|done..].
  cbn [w_db] in Hwin. apply ibind_Ok in E as (qs & w2 & Ec & E).
  destruct (collect_requests_spec (future_limit config w) bundle w1 Hw1 Hb) as (qs' & Ec' & Hqs).
  rewrite Ec' in Ec. injection Ec as -> ->. destruct (sort_requests qs) as [Hs He].
  destruct (select_requests_spec (dedup (sort qs)) [] w2) as (n & En & Hfit & Hmax);
    [done | | by apply fits_nil |].
  { apply Forall_forall. intros q (r & _ & (_ & Hr & Hk & _) & ->)%He%Hqs. by exists r. }
  cbn [total_size foldr app] in En, Hfit, Hmax. unfold total_size in En. cbn [fold_right] in En.
  rewrite En in E. injection E as <- <-.
  split; [|split; [done|]; split; [done|]].
  - intros c. assert (c ∈ (list_to_set (map fst bundle) : gset bytes) <-> c ∈ (list_to_set shared : gset bytes))
      as Hc by by rewrite Hset. by rewrite !elem_of_list_to_set in Hc.
  - exists (dedup (sort qs)), n. split; [done|]. split; [intros q; by rewrite He, Hqs|]. split; [done|].
    by split.
Qed.

(** ** Manifests of the store *)

(** The manifest lists the winners of its collection. *)
Definition lists_winners (db : Database) (x : bytes * Manifest) : Prop :=
  manifest_ordered x.2 /\
  forall r, r ∈ manifest_records x.2 <-> rec_collection r = x.1 /\ winners db !! index_of r = Some r.

Lemma build_manifests_ok shared w :
  db_wf (w_db w) ->
  exists bundle, build_manifests shared w = (Ok bundle, w) /\ map fst bundle = shared /\
    Forall (lists_winners (w_db w)) bundle.
Proof.
  intros Hw. induction shared as [|c shared (bundle & E & Hn & Hb)]; [by exists []|].
  destruct (records_ok (w_db w) c Hw) as (rs & Er & Hrs & Hs).
  assert (manifest_new rs = Ok (mkManifest (sort_by record_key rs))) as Em.
  { apply manifest_new_Ok. split; [done|]. apply strict_NoDup in Hs.
    apply (NoDup_fmap_1 (fun k : bytes * ProtocolPath => (k.1, path_str k.2))). by rewrite <-list_fmap_compose. }
  exists ((c, mkManifest (sort_by record_key rs)) :: bundle). split; [|split; [by cbn [map fst]; rewrite Hn|]].
  - cbn [build_manifests]. unfold ibind at 1, state, imap_err, on_db. rewrite Er. cbn [map_err].
    unfold ibind at 1, ilift. rewrite Em. cbn [map_err]. unfold ibind at 1.
    assert (set_db w (w_db w) = w) as -> by (by destruct w). by rewrite E.
  - constructor; [|done]. split; [by apply (manifest_new_ordered rs)|].
    intros r. cbn [snd fst manifest_records]. rewrite sort_by_perm. apply Hrs.
Qed.

Lemma bundle_lists db bundle r :
  Forall (lists_winners db) bundle ->
  r ∈ bundle_records bundle <-> rec_collection r ∈ map fst bundle /\ winners db !! index_of r = Some r.
Proof.
  induction 1 as [|x bundle [_ Hx] _ IH]; cbn [bundle_records map concat fst].
  - unfold bundle_records. cbn [map concat]. rewrite !elem_of_nil. tauto.
  - unfold bundle_records in *. cbn [map concat]. rewrite elem_of_app, elem_of_cons, IH, Hx. tauto.
Qed.

Lemma lists_winners_wf db bundle : db_wf db -> Forall (lists_winners db) bundle -> bundle_wf bundle.
Proof.
  intros Hw Hl. eapply Forall_impl; [exact Hl|]. intros x [_ Hx]. apply Forall_forall. intros r [Hc Hr]%Hx.
  split; [by eapply winners_wf | done].
Qed.

(** A bundle of the store that can be encoded arrives as it is. *)
Lemma bundle_arrives db bundle l :
  db_wf db -> Forall (lists_winners db) bundle -> Forall (fun x => utf8_valid x.1 = true) bundle ->
  manifest_bundle_encode bundle = Ok l -> manifest_bundle_decode l = Ok bundle.
Proof.
  intros Hw Hl Hu E. apply manifest_bundle_decode_iff. split; [done|].
  apply manifest_bundle_encode_Ok in E as [(_ & Hc & _ & Ht & _) _].
  assert (Forall (fun x => len (manifest_records x.2) <= MAX_MANIFEST_RECORDS) bundle) as Hlen.
  { clear -Ht. revert Ht. generalize MAX_MANIFEST_RECORDS. induction bundle as [|x bundle IH]; intros z Ht; constructor.
    - unfold records_total in *. cbn [foldr] in Ht. pose proof (records_total_nonneg bundle).
      unfold records_total in *. lia.
    - apply IH. unfold records_total in *. cbn [foldr] in Ht. pose proof (len_nonneg (manifest_records x.2)). lia. }
  rewrite !Forall_forall in *. intros x Hx. split; [by apply Hu|]. destruct (Hl x Hx) as [Ho Hr].
  destruct (Hc x Hx) as ([_ Hname] & Hfit & _). rewrite Forall_forall in Hfit. split; [|split; [done|]].
  - apply Forall_forall. intros r Hin. pose proof (Hfit r Hin) as (Hcol & Hp & _). apply Hr in Hin as [_ Hwin].
    pose proof (winners_wf _ _ _ Hw Hwin) as Hrw. split; [done|]. pose proof Hrw as [Hre _].
    apply small_u32. split; [apply len_nonneg|]. rewrite record_canonical_bytes_eq, len_app by done.
    pose proof (record_encoding_bound r). change (len RECORD_DOMAIN) with 20.
    unfold MAX_COLLECTION_NAME_BYTES, MAX_PATH_BYTES in *. rewrite Hcol in *. lia.
  - apply small_u32. split; [apply len_nonneg|]. specialize (Hlen x Hx). unfold MAX_MANIFEST_RECORDS in Hlen. lia.
Qed.
End laws.
