(* ===== verification/SyncProps.v ===== *)
(** The properties of the merge of manifests, each from the lemmas of
    SyncLaws.v, and examples of them between two small devices. *)

From S2P Require Import Prelude Bytes Utf8 Cursor Canonical Path Identity Concrete Records Winners Roster.
From S2P Require Import Protocol Database State StateLaws StateProps RosterStore Platform Installer.
From S2P Require Import InstallLaws ToyFs Sync SyncLaws.

Section properties.
Context `{Crypto, EventJson, Platform, Iroh}.

(** C11: Merging the manifests of a peer refines the last-writer-wins map.  When
    it succeeds, the peer's manifests name exactly the shared collections, the
    store is well formed, its winners are those of before merged with every
    record that is not too far in the future, and the requests are the longest
    beginning, within the number of transfers and of bytes of a session, of the
    strictly sorted list of the files that won here and are not on disk. *)
Theorem merge_remote_manifests_correct config remote shared bundle w requests w' :
  db_wf (w_db w) -> bundle_wf bundle ->
  merge_remote_manifests config remote shared bundle w = (Ok requests, w') ->
  (forall c, c ∈ map fst bundle <-> c ∈ shared) /\ db_wf (w_db w') /\
  winners (w_db w') =
    merge_maps (winners (w_db w)) (timely_records (future_limit config w) (bundle_records bundle)) /\
  requests_of (future_limit config w) bundle (w_db w') requests.
Proof. apply merge_manifests_refine. Qed.

(** Collections converge after one exchange.  Two devices send each other
    the manifests of the collections they share; each arrives as it was built,
    and when both merges succeed the devices hold the same record for every
    path of a shared collection, provided no record is too far in the future
    of a device and the hash separates the records involved. *)
Theorem collections_converge conf_a conf_b a b wa wb shared_a shared_b bundle_a bundle_b la lb
    requests_a wa' requests_b wb' all c path :
  db_wf (w_db wa) -> db_wf (w_db wb) -> (forall c, c ∈ shared_a <-> c ∈ shared_b) ->
  Forall (fun c => utf8_valid c = true) shared_a -> Forall (fun c => utf8_valid c = true) shared_b ->
  build_manifests shared_a wa = (Ok bundle_a, wa) -> manifest_bundle_encode bundle_a = Ok la ->
  build_manifests shared_b wb = (Ok bundle_b, wb) -> manifest_bundle_encode bundle_b = Ok lb ->
  merge_remote_manifests conf_a b shared_a bundle_b wa = (Ok requests_a, wa') ->
  merge_remote_manifests conf_b a shared_b bundle_a wb = (Ok requests_b, wb') ->
  Forall (fun r => timely (future_limit conf_b wb) r = true) (bundle_records bundle_a) ->
  Forall (fun r => timely (future_limit conf_a wa) r = true) (bundle_records bundle_b) ->
  hash_separates all -> (forall r, stored (w_db wa) r \/ stored (w_db wb) r -> rec_collection r ∈ shared_a -> r ∈ all) ->
  c ∈ shared_a ->
  manifest_bundle_decode la = Ok bundle_a /\ manifest_bundle_decode lb = Ok bundle_b /\
  winners (w_db wa') !! (c, path) = winners (w_db wb') !! (c, path).
Proof.
  intros Hwa Hwb Hsame Hua Hub Ea Eea Eb Eeb Ma Mb Ta Tb Hsep Hall Hc.
  destruct (build_manifests_ok shared_a wa Hwa) as (ba & Ea' & Hna & Hla).
  rewrite Ea in Ea'. injection Ea' as <-.
  destruct (build_manifests_ok shared_b wb Hwb) as (bb & Eb' & Hnb & Hlb).
  rewrite Eb in Eb'. injection Eb' as <-.
  assert (forall bundle : list (bytes * Manifest), Forall (fun c => utf8_valid c = true) (map fst bundle) ->
    Forall (fun x => utf8_valid x.1 = true) bundle) as Hu by (intros bundle; apply Forall_map).
  split; [apply (bundle_arrives (w_db wa)); auto; apply Hu; by rewrite Hna|].
  split; [apply (bundle_arrives (w_db wb)); auto; apply Hu; by rewrite Hnb|].
  apply (merge_manifests_refine conf_a b) in Ma as (_ & _ & -> & _); [|done | by apply (lists_winners_wf (w_db wb))].
  apply (merge_manifests_refine conf_b a) in Mb as (_ & _ & -> & _); [|done | by apply (lists_winners_wf (w_db wa))].
  rewrite !timely_all by done.
  apply (represents_agree (fun r => held (winners (w_db wa)) r \/ r ∈ bundle_records bundle_b)
    (fun r => held (winners (w_db wb)) r \/ r ∈ bundle_records bundle_a) _ _ all); [done | | | | ].
  - intros r Hr [= <- _]. apply Hall; [|done]. destruct Hr as [Hr|Hr]; [by left | right].
    by apply (bundle_lists (w_db wb)) in Hr as [_ Hr].
  - intros r [= <- _]. rewrite (bundle_lists (w_db wb)), (bundle_lists (w_db wa)), Hna, Hnb by done.
    unfold held. apply Hsame in Hc as Hc'. tauto.
  - apply merge_maps_represents, held_represents. by apply winners_indexed.
  - apply merge_maps_represents, held_represents. by apply winners_indexed.
Qed.
End properties.

(** ** Examples *)

Section examples.
#[local] Existing Instance toy_crypto.
#[local] Existing Instance terse_json.
#[local] Existing Instance toy_platform.

(** Addresses that are the identifier alone. *)
Definition toy_iroh : Iroh := {|
  EndpointAddr := EndpointId;
  addr_id := fun a => a;
  addr_count := fun _ => 1;
  addr_to_json := fun a => Some (arr (eid a));
  addr_from_json := fun l => mkEndpointId <$> to_array 32 l;
|}.
#[local] Existing Instance toy_iroh.

Definition device_a : EndpointId := toy_endpoint "001"%byte.
Definition device_b : EndpointId := toy_endpoint "002"%byte.
Definition toy_config (local : EndpointId) : SessionConfig :=
  mkSessionConfig (lit "/data") local local 1000000000 10 None 10.

(** Two devices that attached the same collection and scanned other files. *)
Definition world_of (rs : list record) : World := mkWorld (final (map call rs)) toy_empty 0.
Definition world_a : World := world_of [example_a].
Definition world_b : World := world_of [example_b; example_a'].
Definition built (w : World) : list (bytes * Manifest) :=
  match build_manifests [lit "docs"] w with (Ok bundle, _) => bundle | _ => [] end.

Lemma world_of_wf rs :
  rs ⊆ [example_a; example_b; example_a'] ->
  bool_decide ((merge_all (map call rs) 10 docs_db).1 = Ok tt) = true -> db_wf (w_db (world_of rs)).
Proof.
  intros Hsub Hrun. apply (merge_all_refines (map call rs) 10 docs_db); [apply docs_db_wf | |].
  - apply calls_wf. by rewrite map_map, map_id.
  - by apply merge_all_runs.
Qed.

Lemma world_a_wf : db_wf (w_db world_a).
Proof. apply world_of_wf; [set_solver | by vm_compute]. Qed.
Lemma world_b_wf : db_wf (w_db world_b).
Proof. apply world_of_wf; [set_solver | by vm_compute]. Qed.

Lemma built_ok w : db_wf (w_db w) -> build_manifests [lit "docs"] w = (Ok (built w), w).
Proof.
  intros Hw. unfold built. destruct (build_manifests_ok [lit "docs"] w Hw) as (bundle & -> & _). done.
Qed.

Lemma built_wf w : db_wf (w_db w) -> bundle_wf (built w).
Proof.
  intros Hw. unfold built. destruct (build_manifests_ok [lit "docs"] w Hw) as (bundle & -> & _ & Hb).
  by apply (lists_winners_wf (w_db w)).
Qed.

Lemma merge_remote_manifests_correct_witness :
  winners (w_db (merge_remote_manifests (toy_config device_a) device_b [lit "docs"] (built world_b) world_a).2)
  = merge_maps (winners (w_db world_a))
      (timely_records (future_limit (toy_config device_a) world_a) (bundle_records (built world_b))).
Proof.
  destruct (run_ok (merge_remote_manifests (toy_config device_a) device_b [lit "docs"] (built world_b) world_a))
    as [qs E]; [vm_compute; reflexivity|].
  apply (merge_remote_manifests_correct (toy_config device_a) device_b [lit "docs"] (built world_b) world_a qs _
    world_a_wf (built_wf _ world_b_wf) E).
Defined.

Definition merged_a : World :=
  (merge_remote_manifests (toy_config device_a) device_b [lit "docs"] (built world_b) world_a).2.
Definition merged_b : World :=
  (merge_remote_manifests (toy_config device_b) device_a [lit "docs"] (built world_a) world_b).2.

Lemma stored_examples w r :
  bool_decide (map_Forall (fun _ r => r ∈ [example_a; example_b; example_a']) (winners (w_db w))) = true ->
  stored (w_db w) r -> r ∈ [example_a; example_b; example_a'].
Proof. intros Hall%bool_decide_eq_true Hr. by apply (Hall (index_of r)). Qed.

Lemma encodes (bundle : list (bytes * Manifest)) :
  is_ok (manifest_bundle_encode bundle) = true -> exists l, manifest_bundle_encode bundle = Ok l.
Proof. destruct (manifest_bundle_encode bundle) as [l|]; [by exists l | done]. Qed.

Lemma collections_converge_witness :
  winners (w_db merged_a) !! (lit "docs", lit "a.txt") = winners (w_db merged_b) !! (lit "docs", lit "a.txt").
Proof.
  destruct (run_ok (merge_remote_manifests (toy_config device_a) device_b [lit "docs"] (built world_b) world_a))
    as [qa Ma]; [vm_compute; reflexivity|].
  destruct (run_ok (merge_remote_manifests (toy_config device_b) device_a [lit "docs"] (built world_a) world_b))
    as [qb Mb]; [vm_compute; reflexivity|].
  destruct (encodes (built world_a)) as [la Ea]; [vm_compute; reflexivity|].
  destruct (encodes (built world_b)) as [lb Eb]; [vm_compute; reflexivity|].
  apply (collections_converge (toy_config device_a) (toy_config device_b) device_a device_b world_a world_b
    [lit "docs"] [lit "docs"] (built world_a) (built world_b) la lb qa _ qb _ [example_a; example_b; example_a']
    (lit "docs") (lit "a.txt") world_a_wf world_b_wf).
  - done.
  - by repeat constructor.
  - by repeat constructor.
  - apply built_ok, world_a_wf.
  - exact Ea.
  - apply built_ok, world_b_wf.
  - exact Eb.
  - exact Ma.
  - exact Mb.
  - evaluate.
  - evaluate.
  - split; [apply example_records_wf|]. apply collision_free_decide. by vm_compute.
  - intros r [Hr|Hr] _; revert Hr; apply stored_examples; vm_compute; reflexivity.
  - left.
Defined.
End examples.
