(* ===== verification/SessionLaws.v ===== *)
(** A session: what every step of it leaves alone, and who takes part in it. *)

From S2P Require Import Prelude Bytes Utf8 Cursor Canonical Path Identity Records Winners Roster Protocol.
From S2P Require Import Database State StateLaws RosterStore Platform Installer InstallLaws Sync SyncLaws.
From S2P Require Import Session.

Section laws.
Context `{Crypto, EventJson, Platform, Iroh}.

(** ** The stored roster *)

Definition keeps_roster {A} (m : Db A) : Prop :=
  forall db r db', m db = (r, db') -> roster_t db' = roster_t db.

Lemma roster_bind {A B} (m : Db A) (f : A -> Db B) :
  keeps_roster m -> (forall a, keeps_roster (f a)) -> keeps_roster (dbind m f).
Proof.
  intros Hm Hf db r db' E. unfold dbind in E. destruct (m db) as [[a|e] db1] eqn:Em.
  - rewrite (Hf a _ _ _ E). by eapply Hm.
  - simplify_eq. by eapply Hm.
Qed.
Lemma roster_transaction {A} (m : Db A) : keeps_roster m -> keeps_roster (transaction m).
Proof.
  intros Hm db r db' E. unfold transaction in E. destruct (m db) as [[a|e] db1] eqn:Em; simplify_eq; [by eapply Hm | done].
Qed.
Lemma roster_if {A} (b : bool) (m n : Db A) : keeps_roster m -> keeps_roster n -> keeps_roster (if b then m else n).
Proof. by destruct b. Qed.
Lemma roster_step {A} (r : result A StateError) : keeps_roster (dlift r).
Proof. by intros db x db' [= _ <-]. Qed.
Lemma roster_get : keeps_roster dget.
Proof. by intros db x db' [= _ <-]. Qed.
Lemma roster_ret {A} (a : A) : keeps_roster (dret a).
Proof. by intros db x db' [= _ <-]. Qed.
Lemma roster_fail {A} e : keeps_roster (dfail (A := A) e).
Proof. by intros db x db' [= _ <-]. Qed.
Lemma roster_write (f : Database -> Database) :
  (forall db, roster_t (f db) = roster_t db) -> keeps_roster (db <<- dget ;; dput (f db)).
Proof. intros Hf db x db' [= _ <-]. apply Hf. Qed.

(** A statement that reads the database and writes another table. *)
Ltac other_roster :=
  let E := fresh in
  intros ??? E; repeat (unfold dbind, dget, dput, dret, dfail in E; case_match; simplify_eq/=); done.

Lemma roster_insert_collection n r : keeps_roster (insert_collection_row n r).
Proof. unfold insert_collection_row. other_roster. Qed.
Lemma roster_update_collection n f : keeps_roster (update_collection_row n f).
Proof. unfold update_collection_row. other_roster. Qed.
Lemma roster_delete_collection n : keeps_roster (delete_collection_row n).
Proof. unfold delete_collection_row. other_roster. Qed.
Lemma roster_upsert_path c p row : keeps_roster (upsert_path_row c p row).
Proof. unfold upsert_path_row. other_roster. Qed.
Lemma roster_update_path c p k f : keeps_roster (update_path_row c p k f).
Proof. unfold update_path_row. other_roster. Qed.
Lemma roster_clear_files condition : keeps_roster (clear_files condition).
Proof. by apply roster_write. Qed.
Lemma roster_insert_log_row t p : keeps_roster (insert_log_row t p).
Proof. unfold insert_log_row. other_roster. Qed.
Lemma roster_prune n : keeps_roster (prune_logs n).
Proof. by apply roster_write. Qed.
Lemma roster_upsert_hint e h : keeps_roster (upsert_peer_hint e h).
Proof. unfold upsert_peer_hint. other_roster. Qed.

Ltac roster_calm :=
  repeat first
    [ apply roster_ret | apply roster_fail | apply roster_step | apply roster_get
    | apply roster_insert_collection | apply roster_update_collection | apply roster_delete_collection
    | apply roster_upsert_path | apply roster_update_path | apply roster_clear_files
    | apply roster_insert_log_row | apply roster_prune | apply roster_upsert_hint
    | apply roster_transaction | apply roster_if
    | match goal with |- keeps_roster (match ?x with _ => _ end) => destruct x end
    | apply roster_bind; [|intros ?] ].

Lemma roster_insert_log t e n : keeps_roster (insert_log t e n).
Proof. unfold insert_log. roster_calm. Qed.

(** No operation of the records, the log or the hints touches the roster. *)
Lemma roster_run_op op : keeps_roster (run_op op).
Proof.
  destruct op; simpl; unfold forget, add_collection, replace_collection_path, complete_collection_scan,
    query_resolved_root, set_collection_scan_status, set_collection_watch_status, remove_collection,
    merge_record, upsert_record, load_record, mark_repair_required_and_log, set_materialized_fingerprint,
    update_materialized_fingerprint, mark_materialized_and_log, mark_tombstone_materialized_and_log,
    replace_peer_hint, replace_peer_hint_in, append_log;
    try (by repeat first [apply roster_insert_log | progress roster_calm]).
  apply roster_transaction. intros db r db' E. unfold dbind, dget, dput in E. by rewrite (roster_insert_log _ _ _ _ _ _ E).
Qed.

(** ** Worlds *)

(** The roster, the records and the invariant stay. *)
Definition calm (w w' : World) : Prop :=
  same_records w w' /\ roster_t (w_db w') = roster_t (w_db w).
#[global] Instance calm_preorder : PreOrder calm.
Proof.
  split; [by intros w; split|]. intros x y z [Hxy Rxy] [Hyz Ryz]. split; [by etransitivity | congruence].
Qed.

Lemma calm_same_db w w' : same_db w w' -> calm w w'.
Proof. intros E. split; [by apply same_db_records | by rewrite E]. Qed.
Lemma calm_leaves {E A} (m : IO E A) : respects same_db m -> respects calm m.
Proof. intros Hm w r w' Hr. by eapply calm_same_db, Hm. Qed.

Lemma calm_op op : op_ok op -> other_op op -> respects calm (on_db (run_op op)).
Proof.
  intros Hok Ho w r w' E. split; [by apply (op_records op Hok Ho w r)|]. unfold on_db in E.
  destruct (run_op op (w_db w)) as [x db'] eqn:Em. injection E as _ <-. by apply (roster_run_op op _ _ _ Em).
Qed.

Lemma calm_fs {A} (m : FS -> result A IoError * FS) : respects calm (on_fs m).
Proof. apply calm_leaves, leaves_db_fs. Qed.
Lemma calm_now {E} : respects calm (now_ns (E := E)).
Proof. apply calm_leaves, leaves_db_now. Qed.

(** A read of the database. *)
Definition reads {A} (m : Db A) : Prop := forall db r db', m db = (r, db') -> db' = db.
Lemma calm_read {A} (m : Db A) : reads m -> respects calm (on_db m).
Proof.
  intros Hm. apply calm_leaves. intros w r w' E. unfold on_db in E. destruct (m (w_db w)) as [x db'] eqn:Em.
  injection E as _ <-. by apply (Hm _ _ _ Em).
Qed.

Lemma reads_query c p : reads (query_record c p).
Proof.
  intros db r db'. unfold query_record, load_record, dbind, dget, dlift.
  destruct (path_records_t db !! (c, p)); by intros [= _ <-].
Qed.
Lemma reads_state c p : reads (record_state c p).
Proof. intros db r db'. unfold record_state, dbind, dget. destruct (path_records_t db !! _); by intros [= _ <-]. Qed.
Lemma reads_collection n : reads (collection n).
Proof. intros db r db'. unfold collection, dbind, dget. destruct (collections_t db !! n); by intros [= _ <-]. Qed.
Lemma reads_chain : reads selected_roster_chain.
Proof. by intros db r db' [= _ <-]. Qed.
Lemma reads_collections : reads collections.
Proof. by intros db r db' [= _ <-]. Qed.
Lemma reads_records c : reads (records c).
Proof. by intros db r db' [= _ <-]. Qed.
Lemma reads_states c : reads (record_states c).
Proof. by intros db r db' [= _ <-]. Qed.

End laws.

(** The calls that keep calm. *)
Ltac calm_step :=
  idtac; match goal with
  | |- respects _ now_ns => apply calm_now
  | |- respects _ (on_fs _) => apply calm_fs
  | |- respects _ (on_db (append_log ?t ?e ?n)) => exact (calm_op (OpAppendLog t e n) I I)
  | |- respects _ (on_db (mark_repair_required_and_log ?c ?p ?t ?e ?n)) => exact (calm_op (OpRepair c p t e n) I I)
  | |- respects _ (on_db (mark_tombstone_materialized_and_log ?c ?p ?t ?e ?n)) =>
      exact (calm_op (OpTombstone c p t e n) I I)
  | |- respects _ (on_db (mark_materialized_and_log ?c ?p ?f ?t ?e ?n)) =>
      exact (calm_op (OpMaterialized c p f t e n) I I)
  | |- respects _ (on_db (query_record _ _)) => apply calm_read, reads_query
  | |- respects _ (on_db (record_state _ _)) => apply calm_read, reads_state
  | |- respects _ (on_db (collection _)) => apply calm_read, reads_collection
  | |- respects _ (on_db selected_roster_chain) => apply calm_read, reads_chain
  | |- respects _ (on_db collections) => apply calm_read, reads_collections
  | |- respects _ (on_db (records _)) => apply calm_read, reads_records
  | |- respects _ (on_db (record_states _)) => apply calm_read, reads_states
  | |- respects _ (acquire_root _) => apply calm_leaves, leaves_acquire
  | |- respects _ (open_components _ _ _ _) => apply calm_leaves, leaves_open_components
  | |- respects _ (install_file _ _ _) => apply calm_leaves, leaves_install
  end.

Section worlds.
Context `{Crypto, EventJson, Platform, Iroh}.

Lemma calm_tombstone root r n : respects calm (materialize_tombstone root r n).
Proof. unfold materialize_tombstone, st, open_existing_safe_parent, io. walk calm_step. Qed.

Lemma calm_apply root r reader n : respects calm (apply_file_fixture root r reader n).
Proof. unfold apply_file_fixture, mark_installed, st. walk calm_step. Qed.

Lemma calm_hash fuel file hashed : respects calm (hash_loop fuel file hashed).
Proof. revert hashed. induction fuel as [|fuel IH]; intros hashed; cbn [hash_loop]; unfold io; walk calm_step. apply IH. Qed.

Lemma calm_open fuel root r : respects calm (open_verified_file fuel root r).
Proof.
  unfold open_verified_file, open_existing_safe_parent, io. walk ltac:(first [apply calm_hash | calm_step]).
Qed.

(** ** The roster operations leave the records *)

(** [m] keeps the invariant and every record. *)
Definition off_records {A} (m : Db A) : Prop :=
  forall db r db', m db = (r, db') -> db_wf db -> db_wf db' /\ winners db' = winners db.

Lemma off_bind {A B} (m : Db A) (f : A -> Db B) :
  off_records m -> (forall a, off_records (f a)) -> off_records (dbind m f).
Proof.
  intros Hm Hf db r db' E Hw. unfold dbind in E. destruct (m db) as [[a|e] db1] eqn:Em.
  - destruct (Hm _ _ _ Em Hw) as [Hw1 E1]. destruct (Hf a _ _ _ E Hw1) as [Hw' E']. split; [done | congruence].
  - simplify_eq. by eapply Hm.
Qed.
Lemma off_if {A} (b : bool) (m n : Db A) : off_records m -> off_records n -> off_records (if b then m else n).
Proof. by destruct b. Qed.
Lemma off_transaction {A} (m : Db A) : off_records m -> off_records (transaction m).
Proof.
  intros Hm db r db' E Hw. unfold transaction in E. destruct (m db) as [[a|e] db1] eqn:Em; simplify_eq; [by eapply Hm | done].
Qed.
Lemma off_reads {A} (m : Db A) : reads m -> off_records m.
Proof. intros Hm db r db' E Hw. by rewrite (Hm _ _ _ E). Qed.
Lemma off_keeps {A} (m : Db A) : preserves m -> keeps_records m -> off_records m.
Proof. intros Hp Hk db r db' E Hw. split; [by eapply Hp | by eapply keeps_winners]. Qed.
Lemma reads_dlift {A} (r : result A StateError) : reads (dlift r).
Proof. by intros db x db' [= _ <-]. Qed.
Lemma reads_dret {A} (a : A) : reads (dret a).
Proof. by intros db x db' [= _ <-]. Qed.
Lemma reads_dfail {A} e : reads (dfail (A := A) e).
Proof. by intros db x db' [= _ <-]. Qed.
Lemma reads_get : reads dget.
Proof. by intros db x db' [= _ <-]. Qed.

Lemma set_roster_wf db t : db_wf db -> db_wf (set_roster db t).
Proof. intros [Hr Hf Hc Hl Hh]. by split. Qed.

Lemma off_insert_roster h l : off_records (insert_roster_row h l).
Proof.
  intros db r db' E Hw. unfold insert_roster_row, dbind, dget in E. destruct (_ || _); [by injection E as _ <-|].
  injection E as _ <-. split; [by apply set_roster_wf | done].
Qed.

Lemma reads_load h : reads (load_roster_revision h).
Proof.
  intros db r db'. unfold load_roster_revision, dbind, dget. destruct (roster_t db !! h); by intros [= _ <-].
Qed.

Lemma off_replace_hint e h : off_records (replace_peer_hint e h).
Proof.
  apply off_keeps; [exact (preserves_run_op (OpPeerHint e h) I) | exact (keeps_run_op (OpPeerHint e h) I)].
Qed.

Lemma off_hint_in e h : off_records (replace_peer_hint_in e h).
Proof.
  unfold replace_peer_hint_in. apply off_keeps; [apply preserves_upsert_hint | apply keeps_upsert_hint].
Qed.

Ltac off :=
  repeat first
    [ apply off_reads, reads_dret | apply off_reads, reads_dfail | apply off_reads, reads_dlift
    | apply off_reads, reads_get | apply off_reads, reads_chain | apply off_reads, reads_load
    | apply off_insert_roster | apply off_hint_in
    | apply off_transaction | apply off_if
    | match goal with |- off_records (match ?x with _ => _ end) => destruct x end
    | apply off_bind; [|intros ?] ].

Lemma off_insert_revision r : off_records (insert_roster_revision r).
Proof. unfold insert_roster_revision, insert_roster_revision_row. off. Qed.

Lemma off_merge_revisions rs : off_records (merge_revisions rs).
Proof.
  induction rs as [|r rs IH]; cbn [merge_revisions]; unfold roster_revision; [off|].
  apply off_bind; [off|]. intros present. apply off_bind; [|done]. apply off_if; [apply off_insert_revision | off].
Qed.

Lemma off_merge_chain rs : off_records (merge_selected_roster_chain rs).
Proof.
  unfold merge_selected_roster_chain. destruct rs as [|g rs]; [off|].
  repeat (apply off_bind; [off|intros ?]). case_match; [off|]. apply off_if; [off | apply off_merge_revisions].
Qed.

Lemma off_change identity change hint : off_records (apply_roster_change_inner identity change hint).
Proof.
  unfold apply_roster_change_inner. induction (S MAX_ROSTER_RETRY_DEPTH) as [|n IH]; cbn [change_rounds]; [off|].
  apply off_bind; [|intros [?|]; [off | done]].
  unfold change_round, insert_if_absent, insert_roster_revision_row, replace_hint. off.
Qed.

Lemma off_world {A} (m : Db A) : off_records m -> respects same_records (on_db m).
Proof.
  intros Hm w r w' E Hw. unfold on_db in E. destruct (m (w_db w)) as [x db'] eqn:Em. injection E as _ <-.
  by apply (Hm _ _ _ Em).
Qed.

Lemma reapply_records identity local rs : respects same_records (reapply_changes identity local rs).
Proof.
  unfold reapply_changes, state. induction rs as [|r rs IH]; [by walk fail|].
  walk ltac:(first [ apply IH | idtac; match goal with
    | |- respects _ (on_db selected_roster_chain) => apply off_world, off_reads, reads_chain
    | |- respects _ (on_db (apply_roster_change _ _)) => apply off_world, off_change end ]).
Qed.

Lemma accept_records identity rs genesis local remote encoded :
  respects same_records (accept_remote_roster_and_hint identity rs genesis local remote encoded).
Proof.
  unfold accept_remote_roster_and_hint, merge_and_authorize_remote_roster, state.
  walk ltac:(first [ apply reapply_records | idtac; match goal with
    | |- respects _ (on_db selected_roster_chain) => apply off_world, off_reads, reads_chain
    | |- respects _ (on_db (merge_selected_roster_chain _)) => apply off_world, off_merge_chain
    | |- respects _ (on_db (replace_peer_hint _ _)) => apply off_world, off_replace_hint end ]).
Qed.

(** ** Membership *)

(** Both devices are members of the tip of the selected chain. *)
Definition authorized (db : Database) (local remote : EndpointId) : Prop :=
  exists chain tip, select_stored (items (roster_t db)) = Ok chain /\ last chain = Some tip /\
    is_Some (rev_members tip !! local) /\ is_Some (rev_members tip !! remote).

Lemma both_members_true tip local remote :
  both_members tip local remote = true <->
  is_Some (rev_members tip !! local) /\ is_Some (rev_members tip !! remote).
Proof. unfold both_members. by rewrite andb_true_iff, !bool_decide_eq_true. Qed.

Lemma authorized_same db db' local remote :
  roster_t db' = roster_t db -> authorized db local remote -> authorized db' local remote.
Proof. unfold authorized. by intros ->. Qed.

Lemma chain_run w x w' :
  state selected_roster_chain w = (x, w') -> w' = w /\ x = map_err SyncState (select_stored (items (roster_t (w_db w)))).
Proof. intros [= <- <-]. by destruct w. Qed.

Lemma authorize_local_iff w local remote r w' :
  authorize_local_roster local remote w = (r, w') ->
  w' = w /\ (r = Ok tt <-> authorized (w_db w) local remote).
Proof.
  unfold authorize_local_roster, authorized, ibind. destruct (state selected_roster_chain w) as [x w1] eqn:E.
  apply chain_run in E as [-> ->]. destruct (select_stored _) as [chain|e]; cbn [map_err].
  - unfold ilift. destruct (last chain) as [tip|] eqn:Hlast; cbn [ok_or].
    + destruct (both_members tip local remote) eqn:Hb.
      * intros [= <- <-]. split; [done|]. split; [|done]. intros _. exists chain, tip.
        by rewrite <-both_members_true.
      * intros [= <- <-]. split; [done|]. split; [done|]. intros (c & t & [= <-] & Hl & Hb'%both_members_true).
        rewrite Hl in Hlast. congruence.
    + intros [= <- <-]. split; [done|]. split; [done|]. intros (c & t & [= <-] & Hl & _). congruence.
  - intros [= <- <-]. split; [done|]. split; [done|]. by intros (c & t & [=] & _).
Qed.

Lemma accept_authorizes identity rs genesis local remote encoded w b w' :
  accept_remote_roster_and_hint identity rs genesis local remote encoded w = (Ok b, w') ->
  authorized (w_db w') local remote /\ peer_hints_t (w_db w') !! remote = Some encoded.
Proof.
  intros E. unfold accept_remote_roster_and_hint in E. case_match; [done|]. case_match; [done|].
  apply ibind_Ok in E as (addr & w0 & Ha & E). injection Ha as _ <-. case_bool_decide; [done|].
  case_match; [done|]. apply ibind_Ok in E as (changed & w1 & Em & E).
  apply ibind_Ok in E as ([] & w2 & Eh & E). injection E as _ <-.
  assert (authorized (w_db w1) local remote) as Hau.
  { clear Eh. unfold merge_and_authorize_remote_roster in Em.
    apply ibind_Ok in Em as (previous & v0 & _ & Em). apply ibind_Ok in Em as ([] & v1 & _ & Em).
    apply ibind_Ok in Em as (after & v2 & _ & Em). apply ibind_Ok in Em as ([] & v3 & _ & Em).
    apply ibind_Ok in Em as (selected & v4 & Es & Em). apply chain_run in Es as [-> Es].
    apply ibind_Ok in Em as (tip & v5 & Ht & Em). injection Ht as Ht <-. apply ok_or_Ok in Ht.
    destruct (both_members tip local remote) eqn:Hb; [|done]. injection Em as _ <-.
    symmetry in Es. apply map_err_Ok in Es. exists selected, tip. by rewrite <-both_members_true. }
  unfold state in Eh. apply (proj1 (imap_err_Ok _ _ _ _ _)) in Eh. apply (proj1 (on_db_Ok _ _ _ _)) in Eh as (db' & Eh & ->).
  cbn [w_db set_db]. unfold replace_peer_hint in Eh. apply dbind_Ok in Eh as (u & db1 & Hv & Eh). injection Hv as _ <-.
  apply (proj1 (transaction_Ok _ _ _ _)) in Eh. unfold replace_peer_hint_in, upsert_peer_hint, dbind, dget in Eh.
  case_match; [|done]. injection Eh as <-. split; [by apply (authorized_same (w_db w1))|].
  cbn [peer_hints_t set_peer_hints]. apply lookup_insert_eq.
Qed.

(** ** The merge leaves the roster *)

Definition same_roster (w w' : World) : Prop := roster_t (w_db w') = roster_t (w_db w).
#[global] Instance same_roster_preorder : PreOrder same_roster.
Proof. unfold same_roster. split; [done | intros x y z Hxy Hyz; congruence]. Qed.

Lemma calm_roster {E A} (m : IO E A) : respects calm m -> respects same_roster m.
Proof. intros Hm w r w' Hr. by apply (Hm w r w'). Qed.

Lemma roster_op op : respects same_roster (on_db (run_op op)).
Proof.
  intros w r w' E. unfold on_db in E. destruct (run_op op (w_db w)) as [x db'] eqn:Em. injection E as _ <-.
  by apply (roster_run_op op _ _ _ Em).
Qed.

Lemma roster_merge r t p n : respects same_roster (on_db (merge_record r t p n)).
Proof.
  intros w x w' E. unfold on_db in E. destruct (merge_record r t p n (w_db w)) as [y db'] eqn:Em. injection E as _ <-.
  destruct (run_op (OpMergeRecord r t p n) (w_db w)) as [z db1] eqn:Eo. pose proof (roster_run_op _ _ _ _ Eo) as Hr.
  unfold run_op, forget, dbind in Eo. rewrite Em in Eo. unfold same_roster. cbn [w_db set_db]. rewrite <-Hr.
  by destruct y; injection Eo as _ <-.
Qed.

Ltac roster_call :=
  idtac; match goal with
  | |- respects _ (on_db (merge_record _ _ _ _)) => apply roster_merge
  | |- respects _ (materialize_tombstone _ _ _) => apply calm_roster, calm_tombstone
  | |- respects _ _ => apply calm_roster; solve [calm_step]
  end.

Lemma roster_merge_candidate remote n limit root c r : respects same_roster (merge_candidate remote n limit root c r).
Proof. unfold merge_candidate, state. walk roster_call. Qed.

Lemma roster_merge_bundle remote n limit bundle : respects same_roster (merge_bundle remote n limit bundle).
Proof.
  induction bundle as [|[c m] bundle IH]; cbn [merge_bundle]; unfold state; walk ltac:(first [apply IH | roster_call]).
  generalize (manifest_records m). intros rs. induction rs as [|r rs IHr]; cbn [merge_candidates];
    walk ltac:(first [apply IHr | apply roster_merge_candidate]).
Qed.

Lemma calm_collect limit bundle : respects calm (collect_requests limit bundle).
Proof.
  induction bundle as [|[c m] bundle IH]; cbn [collect_requests]; unfold state; walk ltac:(first [apply IH | calm_step]).
Qed.

Lemma calm_select qs selected n : respects calm (select_requests qs selected n).
Proof.
  revert selected n. induction qs as [|q qs IH]; intros selected n; cbn [select_requests]; unfold state;
    walk ltac:(first [apply IH | calm_step]).
Qed.

Lemma roster_merge_manifests config remote shared bundle :
  respects same_roster (merge_remote_manifests config remote shared bundle).
Proof.
  unfold merge_remote_manifests.
  walk ltac:(first [ apply roster_merge_bundle | apply calm_roster, calm_collect | apply calm_roster, calm_select
    | roster_call ]).
Qed.

Lemma calm_build shared : respects calm (build_manifests shared).
Proof.
  induction shared as [|c shared IH]; cbn [build_manifests]; unfold state; walk ltac:(first [apply IH | calm_step]).
Qed.

(** ** Computations of a session *)

Definition moves (R : World -> World -> Prop) {A} (m : SIO A) : Prop :=
  forall s r s', m s = (r, s') -> R (ss_world s) (ss_world s').

Section moves.
Variable R : World -> World -> Prop.
Context `{!PreOrder R}.

Lemma moves_ret {A} (a : A) : moves R (sret a).
Proof. by intros s r s' [= _ <-]. Qed.
Lemma moves_fail {A} e : moves R (sfail (A := A) e).
Proof. by intros s r s' [= _ <-]. Qed.
Lemma moves_bind {A B} (m : SIO A) (f : A -> SIO B) :
  moves R m -> (forall a, moves R (f a)) -> moves R (sbind m f).
Proof.
  intros Hm Hf s r s' E. unfold sbind in E. destruct (m s) as [[a|e] s1] eqn:Em.
  - transitivity (ss_world s1); [by apply (Hm s (Ok a)) | by apply (Hf a s1 r)].
  - injection E as _ <-. by apply (Hm s (Err e)).
Qed.
Lemma moves_world {A} (m : IO SyncError A) : respects R m -> moves R (world m).
Proof.
  intros Hm s r s'. unfold world. destruct (m (ss_world s)) as [x w] eqn:E. intros [= _ <-].
  by apply (Hm _ _ _ E).
Qed.
Lemma moves_result {A} (m : SIO A) : moves R m -> moves R (sresult m).
Proof. intros Hm s r s'. unfold sresult. destruct (m s) as [x s1] eqn:E. intros [= _ <-]. by apply (Hm s x). Qed.
Lemma moves_if {A} (b : bool) (m n : SIO A) : moves R m -> moves R n -> moves R (if b then m else n).
Proof. by destruct b. Qed.

(** What touches the connection only. *)
Lemma moves_send tag l : moves R (send_frame tag l).
Proof. intros s r s'. unfold send_frame. destruct (write_frame_async _ _ _); by intros [= _ <-]. Qed.
Lemma moves_receive : moves R receive_frame.
Proof. intros s r s'. unfold receive_frame. destruct (read_frame_async _ _) as [[[f c] n]|e]; by intros [= _ <-]. Qed.
Lemma moves_add n : moves R (add_received_bytes n).
Proof. intros s r s'. unfold add_received_bytes. destruct (add_received _ _); by intros [= _ <-]. Qed.
Lemma moves_send_raw l : moves R (send_raw l).
Proof. intros s r s'. unfold send_raw. destruct (write_all _ _); by intros [= _ <-]. Qed.
Lemma moves_receive_raw n : moves R (receive_raw n).
Proof. intros s r s'. unfold receive_raw. destruct (read_exact _ _) as [[l c]|[]]; by intros [= _ <-]. Qed.
Lemma moves_end : moves R expect_end.
Proof. intros s r s'. unfold expect_end. destruct (stream_bytes (ss_recv s)), (stream_stop (ss_recv s)); by intros [= _ <-]. Qed.
End moves.

End worlds.

(** [swalk leaf] goes through a computation of a session. *)
Ltac swalk leaf :=
  repeat first
    [ match goal with
      | |- moves _ (sret _) => apply moves_ret; exact _
      | |- moves _ (sfail _) => apply moves_fail; exact _
      | |- moves _ (sbind _ _) => apply moves_bind; [exact _| |intros ?]
      | |- moves _ (sresult _) => apply moves_result
      | |- moves _ (send_frame _ _) => apply moves_send; exact _
      | |- moves _ receive_frame => apply moves_receive; exact _
      | |- moves _ (add_received_bytes _) => apply moves_add; exact _
      | |- moves _ (send_raw _) => apply moves_send_raw; exact _
      | |- moves _ (receive_raw _) => apply moves_receive_raw; exact _
      | |- moves _ expect_end => apply moves_end; exact _
      | |- moves _ (world _) => apply moves_world; walk calm_step
      | |- moves _ (if _ then _ else _) => apply moves_if
      | |- moves _ (match ?x with _ => _ end) => destruct x
      end
    | leaf ].

Section sessions.
Context `{Crypto, EventJson, Platform, Iroh}.

Lemma calm_log_unavailable config remote q b : respects calm (log_unavailable config remote q b).
Proof. unfold log_unavailable, state. walk calm_step. Qed.

Lemma calm_prepare config remote q : respects calm (prepare_requested_file config remote q).
Proof.
  unfold prepare_requested_file, unavailable, state.
  walk ltac:(first [apply calm_log_unavailable | apply calm_open | calm_step]).
Qed.

Lemma calm_stream fuel file n : moves calm (stream_loop fuel file n).
Proof. revert n. induction fuel as [|fuel IH]; intros n; cbn [stream_loop]; unfold disk; swalk ltac:(apply IH). Qed.

Lemma calm_send config remote shared qs : moves calm (send_files config remote shared qs).
Proof.
  unfold send_files. apply moves_bind; [exact _ | swalk fail | intros _]. generalize 0.
  induction qs as [|q qs IH]; intros n; cbn [send_requested]; unfold stream_file, proto, state;
    swalk ltac:(first [ apply IH | apply calm_stream | apply moves_world, calm_prepare
                      | apply moves_world, calm_log_unavailable | apply calm_log_unavailable | apply calm_prepare ]).
Qed.

Lemma calm_receive_raw staged n h : moves calm (receive_raw_file staged n h).
Proof.
  unfold receive_raw_file, disk. apply moves_bind; [exact _ | | intros hashed; swalk fail].
  generalize (S (Z.to_nat (n / BUFFER + 1))). intros fuel. generalize n, (@nil byte).
  induction fuel as [|fuel IH]; intros m l;
    cbn [receive_loop]; unfold disk; swalk ltac:(apply IH).
Qed.

Lemma calm_apply_received config remote q r staged : respects calm (apply_received config remote q r staged).
Proof.
  unfold apply_received, state.
  walk ltac:(first [apply calm_log_unavailable | apply calm_apply | calm_step]).
Qed.

Lemma calm_receive config remote qs : moves calm (receive_files config remote qs).
Proof.
  induction qs as [|q qs IH]; cbn [receive_files]; [swalk fail|].
  apply moves_bind; [exact _ | | intros _; apply IH]. unfold receive_file, proto, disk, state.
  swalk ltac:(first [ apply calm_receive_raw | apply calm_log_unavailable | apply calm_apply_received ]).
Qed.

Lemma calm_exchange_files side config remote shared qs rs : moves calm (exchange_files side config remote shared qs rs).
Proof. unfold exchange_files. swalk ltac:(first [apply calm_send | apply calm_receive]). Qed.

(** ** Exchanges *)

Lemma sbind_cases {A B} (m : SIO A) (f : A -> SIO B) s r s' :
  sbind m f s = (r, s') ->
  (exists e, r = Err e /\ m s = (Err e, s')) \/ exists a s1, m s = (Ok a, s1) /\ f a s1 = (r, s').
Proof. unfold sbind. destruct (m s) as [[a|e] s1]; [eauto 6 | intros [= <- <-]; eauto]. Qed.

Lemma sbind_Ok {A B} (m : SIO A) (f : A -> SIO B) s b s' :
  sbind m f s = (Ok b, s') <-> exists a s1, m s = (Ok a, s1) /\ f a s1 = (Ok b, s').
Proof.
  split.
  - intros [(e & [=] & _)|?]%sbind_cases. done.
  - intros (a & s1 & E & E'). unfold sbind. by rewrite E.
Qed.

(** What [world] does to the connection: nothing. *)
Definition same_connection (s s' : Session) : Prop :=
  ss_recv s' = ss_recv s /\ ss_send s' = ss_send s /\ ss_received s' = ss_received s.

Lemma world_run {A} (m : IO SyncError A) s r s' :
  world m s = (r, s') -> same_connection s s' /\ m (ss_world s) = (r, ss_world s').
Proof. unfold world. destruct (m (ss_world s)) as [x w]. by intros [= <- <-]. Qed.

Lemma write_chunks_bytes l k k' : write_chunks l k = Ok k' -> sink_bytes k' = sink_bytes k ++ concat l.
Proof.
  revert k. induction l as [|c l IH]; intros k; cbn [write_chunks concat]; [intros [= ->]; by rewrite app_nil_r|].
  intros (k1 & E1 & E)%rbind_Ok. apply IH in E as ->. unfold write_all in E1.
  destruct (sink_room k) as [[n e]|]; [case_match; [|done]|]; injection E1 as <-; cbn [sink_bytes]; by rewrite <-app_assoc.
Qed.

Lemma send_frame_run tag l s r s' :
  send_frame tag l s = (r, s') ->
  ss_world s' = ss_world s /\ ss_recv s' = ss_recv s /\ ss_received s' = ss_received s /\
  match r with
  | Ok _ => sink_bytes (ss_send s') = sink_bytes (ss_send s) ++ frame tag l
  | Err _ => ss_send s' = ss_send s
  end.
Proof.
  unfold send_frame. destruct (write_frame_async (ss_send s) tag l) as [k|e] eqn:E; intros [= <- <-]; [|done].
  cbn. do 3 (split; [done|]). unfold write_frame_async in E. apply rbind_Ok in E as (x & Ex & E).
  apply encode_frame_Ok in Ex as [_ ->]. apply write_chunks_bytes in E. by rewrite chunks_concat in E.
Qed.

(** The bytes received so far only grow. *)
Definition counted (s : Session) : Prop := 0 <= ss_received s.

Lemma read_expected_run tag s q s' :
  counted s -> read_expected tag s = (Ok q, s') ->
  ss_world s' = ss_world s /\ ss_send s' = ss_send s /\ counted s' /\ delivers (ss_recv s) tag q (ss_recv s').
Proof.
  intros Hc E. unfold read_expected in E. apply sbind_Ok in E as ([t l] & s1 & E1 & E).
  unfold receive_frame in E1. destruct (read_frame_async _ _) as [[[f c] n]|e] eqn:Er; [|done].
  injection E1 as -> <-. apply read_frame_async_Ok in Er as (Hd & -> & _); [|done].
  apply sbind_Ok in E as ([] & s2 & Ew & E). apply world_run in Ew as [(Hr & Hs & Hn) Ew]. injection E as <- <-.
  unfold proto, ilift in Ew. injection Ew as Ew Hw. apply map_err_Ok in Ew. unfold expect_frame_tag in Ew.
  case_bool_decide as Ht; [|done]. cbn [fst snd ss_world ss_recv ss_send ss_received] in *. subst t.
  rewrite <-Hw, Hs, Hr. unfold counted in *. rewrite Hn. cbn [ss_received]. rewrite frame_len. unfold HEADER_BYTES.
  pose proof (len_nonneg l). split; [done|]. split; [done|]. split; [lia | done].
Qed.

Lemma read_expected_any tag s r s' :
  read_expected tag s = (r, s') -> ss_world s' = ss_world s /\ ss_send s' = ss_send s.
Proof.
  unfold read_expected. intros E. apply sbind_cases in E as [(e & -> & E)|([t l] & s1 & E1 & E)].
  - unfold receive_frame in E. destruct (read_frame_async _ _) as [[[? ?] ?]|]; by injection E as _ <-.
  - unfold receive_frame in E1. destruct (read_frame_async _ _) as [[[f c] n]|e] eqn:Er; [|done].
    injection E1 as -> <-. apply sbind_cases in E as [(e & -> & E)|([] & s2 & E1 & E)].
    + apply world_run in E as [(_ & -> & _) E]. by injection E as _ <-.
    + injection E as _ <-. apply world_run in E1 as [(_ & -> & _) E1]. by injection E1 as _ <-.
Qed.

(** An exchange moves nothing but the connection; whatever it returns, at most
    the frame was sent. *)
Lemma exchange_any tag l s r s' :
  exchange_frame tag l s = (r, s') ->
  ss_world s' = ss_world s /\
  (sink_bytes (ss_send s') = sink_bytes (ss_send s) \/ sink_bytes (ss_send s') = sink_bytes (ss_send s) ++ frame tag l).
Proof.
  unfold exchange_frame. intros E. apply sbind_cases in E as [(e & -> & E)|([] & s1 & E1 & E)].
  - apply send_frame_run in E as (-> & _ & _ & ->). auto.
  - apply send_frame_run in E1 as (Hw & _ & _ & Hs). apply read_expected_any in E as [-> ->]. auto.
Qed.

Lemma exchange_Ok tag l s q s' :
  counted s -> exchange_frame tag l s = (Ok q, s') ->
  ss_world s' = ss_world s /\ counted s' /\ delivers (ss_recv s) tag q (ss_recv s') /\
  sink_bytes (ss_send s') = sink_bytes (ss_send s) ++ frame tag l.
Proof.
  unfold exchange_frame. intros Hc E. apply sbind_Ok in E as ([] & s1 & E1 & E).
  apply send_frame_run in E1 as (Hw & Hr & Hn & Hs).
  apply read_expected_run in E as (Hw1 & Hs1 & Hc1 & Hd); [|unfold counted in *; congruence].
  rewrite Hr in Hd. rewrite Hs1, Hw1. auto.
Qed.

(** ** Before the roster of the peer is accepted *)

(** The world is that of [s], and [sent] was sent since. *)
Definition quiet_since (s : Session) (sent : bytes) (s1 : Session) : Prop :=
  ss_world s1 = ss_world s /\ sink_bytes (ss_send s1) = sink_bytes (ss_send s) ++ sent.

Lemma quiet_start s : quiet_since s [] s.
Proof. split; [done|]. by rewrite app_nil_r. Qed.

(** A step that only looks at the world. *)
Definition looks {A} (m : IO SyncError A) : Prop := forall w r w', m w = (r, w') -> w' = w.

Lemma looks_lift {A} (x : result A SyncError) : looks (ilift x).
Proof. by intros w r w' [= _ <-]. Qed.
Lemma looks_authorize local remote : looks (authorize_local_roster local remote).
Proof. intros w r w' E. by apply authorize_local_iff in E as [-> _]. Qed.
Lemma looks_session_state : looks local_session_state.
Proof.
  intros w r w'. unfold local_session_state, ibind. destruct (state selected_roster_chain w) as [x w1] eqn:E1.
  apply chain_run in E1 as [-> _]. destruct x as [chain|e]; [|by intros [= _ <-]].
  unfold state, imap_err, on_db, collections, dbind, dget, dlift. destruct (decode_collections _); cbn [map_err];
    intros [= _ <-]; by destruct w.
Qed.

Lemma session_state_reads w chain names w' :
  local_session_state w = (Ok (chain, names), w') ->
  select_stored (items (roster_t (w_db w))) = Ok chain /\
  exists cs, collections (w_db w) = (Ok cs, w_db w) /\ names = map cs_name cs.
Proof.
  unfold local_session_state. intros E. apply ibind_Ok in E as (c & w1 & E1 & E). apply chain_run in E1 as [-> E1].
  apply ibind_Ok in E as (cs & w2 & E2 & E). injection E as <- <- _. symmetry in E1. apply map_err_Ok in E1.
  split; [done|]. exists cs. split; [|done]. unfold state in E2. apply (proj1 (imap_err_Ok _ _ _ _ _)) in E2.
  apply (proj1 (on_db_Ok _ _ _ _)) in E2 as (db & E2 & _). rewrite E2. f_equal. by apply reads_collections in E2.
Qed.

Lemma quiet_world {A B} (m : IO SyncError A) (f : A -> SIO B) s sent s1 r s' :
  looks m -> quiet_since s sent s1 -> sbind (world m) f s1 = (r, s') ->
  (exists e, r = Err e /\ quiet_since s sent s') \/
  exists a s2, m (ss_world s) = (Ok a, ss_world s) /\ quiet_since s sent s2 /\ f a s2 = (r, s').
Proof.
  intros Hm [Hw Hs] E. apply sbind_cases in E as [(e & -> & E)|(a & s2 & E1 & E)].
  - left. exists e. split; [done|]. apply world_run in E as [(_ & Hk & _) E]. apply Hm in E.
    split; [congruence | by rewrite Hk].
  - right. exists a, s2. apply world_run in E1 as [(_ & Hk & _) E1]. pose proof (Hm _ _ _ E1) as Hw2.
    rewrite Hw2, Hw in E1. split; [done|]. split; [|done]. split; [congruence | by rewrite Hk].
Qed.

Lemma quiet_exchange {B} tag l (f : bytes -> SIO B) s sent s1 r s' :
  quiet_since s sent s1 -> sbind (exchange_frame tag l) f s1 = (r, s') ->
  (exists e, r = Err e /\ (quiet_since s sent s' \/ quiet_since s (sent ++ frame tag l) s')) \/
  exists a s2, quiet_since s (sent ++ frame tag l) s2 /\ f a s2 = (r, s').
Proof.
  intros [Hw Hs] E. apply sbind_cases in E as [(e & -> & E)|(a & s2 & E1 & E)].
  - left. exists e. split; [done|]. apply exchange_any in E as [Hw1 [Hk|Hk]]; [left | right];
      (split; [congruence|]); [congruence | by rewrite Hk, Hs, app_assoc].
  - right. exists a, s2. split; [|done]. unfold exchange_frame in E1.
    apply sbind_Ok in E1 as ([] & s3 & E3 & E1). apply send_frame_run in E3 as (Hw3 & _ & _ & Hk).
    apply read_expected_any in E1 as [Hw2 Hk2]. split; [congruence | by rewrite Hk2, Hk, Hs, app_assoc].
Qed.

(** After it, the roster stays. *)
Lemma roster_exchange tag l : moves same_roster (exchange_frame tag l).
Proof. intros s r s' E. apply exchange_any in E as [-> _]. reflexivity. Qed.

Lemma calm_exchange tag l : moves calm (exchange_frame tag l).
Proof. intros s r s' E. apply exchange_any in E as [-> _]. reflexivity. Qed.

Lemma moves_calm {A} (m : SIO A) : moves calm m -> moves same_roster m.
Proof. intros Hm s r s' E. by apply (Hm s r s'). Qed.

Lemma decoded_bundle_wf l bundle : manifest_bundle_decode l = Ok bundle -> bundle_wf bundle.
Proof.
  intros [He Hw]%manifest_bundle_decode_iff. apply manifest_bundle_encode_Ok in He as [(_ & Hc & _) _].
  unfold bundle_wf. rewrite Forall_forall in *. intros x Hx. destruct (Hw x Hx) as [_ [Hf _]].
  destruct (Hc x Hx) as (_ & Hfit & _). rewrite Forall_forall in *. intros r Hr.
  split; [apply (Hf r Hr) | apply (Hfit r Hr)].
Qed.
End sessions.
