(* ===== verification/SessionEnds.v ===== *)
(** A session that succeeds, as a conversation: what the device said, what it
    was told, and what it did with it; and two such conversations over one
    connection. *)

From S2P Require Import Prelude Bytes Utf8 Cursor Canonical Path Identity Records Winners Roster Protocol.
From S2P Require Import RosterConverge Database State StateLaws RosterStore RosterLaws Platform Installer InstallLaws.
From S2P Require Import Sync SyncLaws Session SessionLaws.

(** ** Frames in a row *)

Definition frames (l : list (FrameTag * bytes)) : bytes := concat (map (fun f => frame f.1 f.2) l).
Definition frame_ok (f : FrameTag * bytes) : Prop := len f.2 <= payload_limit f.1.

Lemma frames_snoc l f : frames (l ++ [f]) = frames l ++ frame f.1 f.2.
Proof. unfold frames. rewrite map_app, concat_app. cbn [map concat]. by rewrite app_nil_r. Qed.

Lemma frame_app_inj f f' x x' :
  frame_ok f -> frame_ok f' -> frame f.1 f.2 ++ x = frame f'.1 f'.2 ++ x' -> f = f' /\ x = x'.
Proof.
  destruct f as [t l], f' as [t' l']. unfold frame_ok, frame. cbn [fst snd]. intros Hl Hl' E.
  assert (forall u (m : bytes), len m <= payload_limit u -> in_u32 (len m) = true) as Hu.
  { intros u m Hm. pose proof (payload_limit_bound u). apply small_u32.
    split; [apply len_nonneg | unfold MAX_FRAME_BYTES in *; lia]. }
  rewrite <-!app_assoc in E. apply app_inj_1 in E as [Et E]; [|done]. apply app_inj_1 in E as [En E]; [|done].
  assert (t = t') as ->.
  { apply (f_equal (map byteZ)) in Et. cbn [map] in Et. apply (inj (fun z => [z])) in Et. rewrite !byteZ_of_Z, !Z.mod_small in Et by apply tag_byte_u8.
    by destruct t, t'. }
  apply (f_equal from_be) in En. rewrite !u32_be_from in En by eauto.
  apply app_inj_1 in E as [-> ->]; [done|]. unfold len in En. lia.
Qed.

(** A byte string begins with at most one sequence of so many frames. *)
Lemma frames_app_inj l l' x x' :
  Forall frame_ok l -> Forall frame_ok l' -> length l = length l' -> frames l ++ x = frames l' ++ x' ->
  l = l' /\ x = x'.
Proof.
  intros Hl. revert l' x x'. induction Hl as [|f l Hf _ IH]; intros [|f' l'] x x' Hl' Hn E; try done.
  unfold frames in E. cbn [map concat] in E. rewrite <-!app_assoc in E.
  apply Forall_cons in Hl' as [Hf' Hl']. apply frame_app_inj in E as [-> E]; [|done..].
  injection Hn as Hn. by destruct (IH l' x x' Hl' Hn E) as [-> ->].
Qed.

Lemma sized_app_inj (a b x y : bytes) :
  in_u32 (len a) = true -> in_u32 (len b) = true -> sized a ++ x = sized b ++ y -> a = b /\ x = y.
Proof.
  unfold sized. intros Ha Hb E. rewrite <-!app_assoc in E. apply app_inj_1 in E as [En E]; [|done].
  apply (f_equal from_be) in En. rewrite !u32_be_from in En by done.
  apply app_inj_1 in E; [done|]. unfold len in En. lia.
Qed.

(** A hello says what it was made of, whatever the text is. *)
Lemma hello_encode_inj h h' l : hello_encode h = Ok l -> hello_encode h' = Ok l -> h = h'.
Proof.
  intros [(Hc & Hf & _ & Ha) E]%hello_encode_Ok [(Hc' & Hf' & _ & Ha') E']%hello_encode_Ok.
  rewrite E in E'. clear E. unfold hello_encoding in E'. apply app_inj_1 in E' as [En E]; [|done].
  assert (forall h : Hello, len (hello_collections h) <= MAX_COLLECTIONS -> in_u32 (len (hello_collections h)) = true) as Hn.
  { intros h0 Hh. unfold MAX_COLLECTIONS in Hh. apply small_u32. split; [apply len_nonneg | lia]. }
  assert (forall h : Hello, len (endpoint_addr_json h) <= MAX_ADDRESS_HINT_BYTES -> in_u32 (len (endpoint_addr_json h)) = true) as Hd.
  { intros h0 Hh. unfold MAX_ADDRESS_HINT_BYTES in Hh. apply small_u32. split; [apply len_nonneg | lia]. }
  apply (f_equal from_be) in En. rewrite !u32_be_from in En by auto.
  assert (length (hello_collections h) = length (hello_collections h')) as Hlen by (unfold len in En; lia).
  apply Hd in Ha, Ha'. destruct h as [cs a], h' as [cs' a']. cbn [hello_collections endpoint_addr_json] in *.
  clear Hc Hc' En Hn Hd. revert cs' Hf' Hlen E. induction Hf as [|c cs Hfc _ IH]; intros [|c' cs'] Hf' Hlen E; try done.
  - cbn [map concat app] in E. rewrite <-(app_nil_r (sized a)), <-(app_nil_r (sized a')) in E.
    apply sized_app_inj in E as [-> _]; done.
  - cbn [map concat] in E. rewrite <-!app_assoc in E. apply Forall_cons in Hf' as [Hfc' Hf'].
    assert (forall s, name_fits s -> in_u32 (len s) = true) as Hs.
    { intros s [_ Hs]. pose proof (len_nonneg s). apply small_u32. unfold MAX_COLLECTION_NAME_BYTES in Hs. lia. }
    apply sized_app_inj in E as [-> E]; [|by apply Hs..]. injection Hlen as Hlen.
    by injection (IH cs' Hf' Hlen E) as -> ->.
Qed.

(** ** What was said and heard *)

Section transfers.
Context `{Crypto, EventJson, Platform, Iroh}.

(** From [s] to [s1], [sent] was sent and [got] was read. *)
Definition talks (s : Session) (sent got : bytes) (s1 : Session) : Prop :=
  counted s1 /\ stream_bytes (ss_recv s) = got ++ stream_bytes (ss_recv s1) /\
  sink_bytes (ss_send s1) = sink_bytes (ss_send s) ++ sent.

Lemma talks_nothing s : counted s -> talks s [] [] s.
Proof. intros Hc. split; [done|]. by rewrite app_nil_r. Qed.

Lemma talks_trans s a b s1 c d s2 : talks s a b s1 -> talks s1 c d s2 -> talks s (a ++ c) (b ++ d) s2.
Proof. intros (_ & R1 & S1) (C2 & R2 & S2). split; [done|]. rewrite R1, R2, S2, S1, !app_assoc. done. Qed.

Lemma talks_world {A} (m : IO SyncError A) s r s' :
  counted s -> world m s = (r, s') -> talks s [] [] s' /\ m (ss_world s) = (r, ss_world s').
Proof.
  intros Hc E. apply world_run in E as [(Hr & Hs & Hn) E]. split; [|done].
  unfold talks, counted in *. rewrite Hr, Hs, Hn, app_nil_r. done.
Qed.

Lemma talks_send tag l s u s' :
  counted s -> send_frame tag l s = (Ok u, s') ->
  talks s (frame tag l) [] s' /\ frame_ok (tag, l) /\ ss_world s' = ss_world s.
Proof.
  intros Hc E. pose proof (send_frame_run _ _ _ _ _ E) as (Hw & Hr & Hn & Hs).
  split; [|split; [|done]].
  - unfold talks, counted in *. by rewrite Hr, Hs, Hn.
  - unfold send_frame, write_frame_async in E. destruct (encode_frame tag l) as [x|e] eqn:Ex; [|done].
    by apply encode_frame_Ok in Ex as [Hl _].
Qed.

Lemma talks_receive s t l s' :
  counted s -> receive_frame s = (Ok (t, l), s') ->
  talks s [] (frame t l) s' /\ frame_ok (t, l) /\ ss_world s' = ss_world s.
Proof.
  intros Hc E. unfold receive_frame in E. destruct (read_frame_async _ _) as [[[f c] n]|e] eqn:Er; [|done].
  injection E as -> <-. apply read_frame_async_Ok in Er as ((Hl & Hb & _) & -> & _); [|done].
  split; [|done]. unfold talks, counted in *. cbn [ss_recv ss_send ss_received].
  rewrite frame_len, app_nil_r. pose proof (len_nonneg l). unfold HEADER_BYTES. split; [lia | done].
Qed.

Lemma talks_expected tag s q s' :
  counted s -> read_expected tag s = (Ok q, s') ->
  talks s [] (frame tag q) s' /\ frame_ok (tag, q) /\ ss_world s' = ss_world s.
Proof.
  intros Hc E. unfold read_expected in E. apply sbind_Ok in E as ([t l] & s1 & E1 & E).
  apply talks_receive in E1 as (T1 & Hl & Hw); [|done]. apply sbind_Ok in E as ([] & s2 & Ew & E).
  apply talks_world in Ew as [T2 Ew]; [|apply T1]. injection E as <- <-. cbn [fst snd] in *.
  unfold proto, ilift in Ew. injection Ew as Ew Hww. apply map_err_Ok in Ew. unfold expect_frame_tag in Ew.
  case_bool_decide as Ht; [|done]. subst t. split; [|by rewrite <-Hww].
  rewrite <-(app_nil_r (frame tag l)). by apply (talks_trans _ [] _ _ [] [] _ T1).
Qed.

Lemma talks_exchange tag l s q s' :
  counted s -> exchange_frame tag l s = (Ok q, s') ->
  talks s (frame tag l) (frame tag q) s' /\ frame_ok (tag, l) /\ frame_ok (tag, q) /\ ss_world s' = ss_world s.
Proof.
  unfold exchange_frame. intros Hc E. apply sbind_Ok in E as ([] & s1 & E1 & E).
  apply talks_send in E1 as (T1 & Hl & W1); [|done]. apply talks_expected in E as (T2 & Hq & W2); [|apply T1].
  split; [|by rewrite W2]. rewrite <-(app_nil_r (frame tag l)). by apply (talks_trans _ _ [] _ [] _ _ T1).
Qed.

(** ** Raw bytes *)

(** [Read::read] returns at most what there is room for. *)
Definition reads_bounded : Prop :=
  forall file n fs chunk fs', 0 <= n -> file_read file n fs = (Ok chunk, fs') -> len chunk <= n.

Lemma stream_loop_run fuel file n s u s' :
  counted s -> stream_loop fuel file n s = (Ok u, s') ->
  exists content, talks s content [] s' /\ (reads_bounded -> Z.to_nat n <= fuel -> len content = Z.max 0 n)%nat.
Proof.
  revert n s. induction fuel as [|fuel IH]; intros n s Hc E; cbn [stream_loop] in E.
  - injection E as _ <-. exists []. split; [by apply talks_nothing|]. intros _ Hf. change (len []) with 0. lia.
  - destruct (n <=? 0) eqn:Hn.
    { injection E as _ <-. exists []. split; [by apply talks_nothing|]. intros _ _. change (len []) with 0. lia. }
    apply sbind_Ok in E as (chunk & s1 & E1 & E). apply talks_world in E1 as [T1 E1]; [|done].
    destruct (len chunk =? 0) eqn:Hl; [done|]. apply sbind_Ok in E as ([] & s2 & E2 & E).
    assert (talks s1 chunk [] s2) as T2.
    { unfold send_raw in E2. destruct (write_all chunk (ss_send s1)) as [k|] eqn:Ek; [|done]. injection E2 as <-.
      split; [apply T1|]. split; [done|]. cbn [ss_send]. unfold write_all in Ek.
      destruct (sink_room (ss_send s1)) as [[m e]|]; [case_match; [|done]|]; by injection Ek as <-. }
    apply IH in E as (content & T3 & Hlen); [|apply T2]. exists (chunk ++ content). split.
    + apply (talks_trans _ [] [] _ _ [] _ T1), (talks_trans _ _ [] _ _ [] _ T2), T3.
    + intros Hb Hf. unfold disk in E1. apply (proj1 (imap_err_Ok _ _ _ _ _)) in E1. unfold on_fs in E1.
      destruct (file_read _ _ _) as [x fs] eqn:Er. injection E1 as -> _. apply Hb in Er; [|unfold BUFFER; lia].
      pose proof (len_nonneg chunk). rewrite len_app, Hlen by (done || lia). lia.
Qed.

Lemma receive_loop_run fuel staged n hashed s l s' :
  counted s -> 0 <= n <= Z.of_nat fuel * BUFFER -> receive_loop fuel staged n hashed s = (Ok l, s') ->
  exists content, l = hashed ++ content /\ len content = n /\ talks s [] content s'.
Proof.
  revert n hashed s. induction fuel as [|fuel IH]; intros n hashed s Hc Hn E; cbn [receive_loop] in E.
  - injection E as <- <-. exists []. rewrite app_nil_r. split; [done|]. split; [unfold len; simpl; lia | by apply talks_nothing].
  - destruct (n <=? 0) eqn:Hz.
    { injection E as <- <-. exists []. rewrite app_nil_r. split; [done|]. split; [unfold len; simpl; lia | by apply talks_nothing]. }
    apply sbind_Ok in E as (chunk & s1 & E1 & E). unfold receive_raw in E1.
    assert (0 <= Z.min n BUFFER) as Hw by (unfold BUFFER; lia).
    destruct (read_exact _ _) as [[c recv]|[]] eqn:Er; try done. injection E1 as -> <-.
    apply read_exact_Ok in Er as (Hb & _ & Hlen); [|done].
    apply sbind_Ok in E as ([] & s2 & E2 & E). apply talks_world in E2 as [T2 _]; [|done].
    apply IH in E as (content & -> & Hl & T3); [|apply T2 | unfold BUFFER in *; lia].
    exists (chunk ++ content). rewrite app_assoc, len_app. split; [done|]. split; [lia|].
    pose proof (talks_trans _ _ _ _ _ _ _ T2 T3) as (C & R & K). split; [done|].
    cbn [ss_recv ss_send app] in *. by rewrite Hb, R, app_assoc.
Qed.
End transfers.

(** ** Files *)

(** What is sent for a request: that there is no file, or its header and bytes. *)
Inductive Item := Missing | Sent (header content : bytes).

Definition item_bytes (i : Item) : bytes :=
  match i with
  | Missing => frame FFileUnavailable []
  | Sent header content => frame FFile header ++ content
  end.
Definition items_bytes (l : list Item) : bytes := concat (map item_bytes l).

Section items.
Context `{Crypto, EventJson, Platform, Iroh}.

Definition item_ok (i : Item) : Prop :=
  match i with
  | Missing => True
  | Sent header content => frame_ok (FFile, header) /\
      exists r hash, decode_file_header header = Ok r /\ rec_kind r = File (len content) hash
  end.

Lemma item_app_inj i i' x x' :
  item_ok i -> item_ok i' -> item_bytes i ++ x = item_bytes i' ++ x' -> i = i' /\ x = x'.
Proof.
  assert (frame_ok (FFileUnavailable, [])) as Hu by done.
  destruct i as [|h c], i' as [|h' c']; cbn [item_ok item_bytes]; intros Hi Hi'; rewrite <-?app_assoc; intros E.
  - by apply (frame_app_inj (FFileUnavailable, []) (FFileUnavailable, [])) in E as [_ ->].
  - destruct Hi' as [Hf _]. by apply (frame_app_inj (FFileUnavailable, []) (FFile, h')) in E as [[=] _].
  - destruct Hi as [Hf _]. by apply (frame_app_inj (FFile, h) (FFileUnavailable, [])) in E as [[=] _].
  - destruct Hi as (Hf & r & hash & Hd & Hk), Hi' as (Hf' & r' & hash' & Hd' & Hk').
    apply (frame_app_inj (FFile, h) (FFile, h')) in E as [[= <-] E]; [|done..].
    assert (r' = r) as -> by congruence. rewrite Hk in Hk'.
    assert (len c = len c') as Hl by congruence. apply app_inj_1 in E as [-> ->]; [done | unfold len in Hl; lia].
Qed.

Lemma items_app_inj l l' x x' :
  Forall item_ok l -> Forall item_ok l' -> length l = length l' -> items_bytes l ++ x = items_bytes l' ++ x' ->
  l = l' /\ x = x'.
Proof.
  intros Hl. revert l' x x'. induction Hl as [|i l Hi _ IH]; intros [|i' l'] x x' Hl' Hn E; try done.
  unfold items_bytes in E. cbn [map concat] in E. rewrite <-!app_assoc in E.
  apply Forall_cons in Hl' as [Hi' Hl']. apply item_app_inj in E as [-> E]; [|done..].
  injection Hn as Hn. by destruct (IH l' x x' Hl' Hn E) as [-> ->].
Qed.

(** What a device offers for a request, and what it takes for one of its own. *)
Definition offered (q : FileRequest) (i : Item) : Prop :=
  match i with
  | Missing => True
  | Sent header content => exists r, decode_file_header header = Ok r /\
      rhash (record_canonical_hash r) = req_record_hash q
  end.
Definition taken (q : FileRequest) (i : Item) : Prop :=
  match i with
  | Missing => True
  | Sent header content => exists r, decode_file_header header = Ok r /\ matches_request r q = true /\
      rec_kind r = File (len content) (blake3 content)
  end.

Lemma prepare_run config remote q w r file size w' :
  db_wf (w_db w) -> prepare_requested_file config remote q w = (Ok (Some (r, file, size)), w') ->
  record_wf r /\ rhash (record_canonical_hash r) = req_record_hash q /\ exists hash, rec_kind r = File size hash.
Proof.
  intros Hw E. assert (forall (A : Type) b (v : World) x v', unavailable (A := A) config remote q b v = (Ok (Some x), v') -> False) as Hno.
  { intros A b v x v' Eu. unfold unavailable in Eu. apply ibind_Ok in Eu as (? & ? & _ & Eu). done. }
  unfold prepare_requested_file in E. apply ibind_Ok in E as (found & w1 & E1 & E).
  rewrite query_winner in E1 by done. injection E1 as <- <-.
  destruct (winners (w_db w) !! _) as [r'|] eqn:Hk; [|by apply Hno in E]. case_bool_decide as Hh; [by apply Hno in E|].
  apply ibind_Ok in E as ([item|] & w2 & _ & E); [|by apply Hno in E]. destruct (negb _); [by apply Hno in E|].
  apply ibind_Ok in E as ([local|] & w3 & _ & E); [|by apply Hno in E].
  destruct (rec_kind r') as [sz hash|] eqn:Hkind; [|by apply Hno in E].
  apply ibind_Ok in E as (opened & w4 & _ & E). destruct opened as [[f|]|]; [|by apply Hno in E..].
  injection E as <- _ <- _. split; [by eapply winners_wf|]. split; [done | by exists hash].
Qed.

Lemma sent_item r header q content size hash :
  record_wf r -> encode_file_header r = Ok header -> rec_kind r = File size hash ->
  rhash (record_canonical_hash r) = req_record_hash q -> frame_ok (FFile, header) ->
  offered q (Sent header content) /\ (len content = size -> item_ok (Sent header content)).
Proof.
  intros Hw He Hk Hq Hf. assert (decode_file_header header = Ok r) as Hd.
  { apply decode_file_header_Ok. split; [done|]. split; [|done]. unfold encode_file_header in He.
    apply rbind_Ok in He as ([] & Hv & He). apply rbind_Ok in He as ([] & Hc & _). by apply header_checks_Ok. }
  split; [by exists r|]. intros <-. split; [done|]. by exists r, hash.
Qed.

Lemma calm_wf w w' : calm w w' -> db_wf (w_db w) -> db_wf (w_db w').
Proof. intros [Hc _] Hw. by apply Hc. Qed.

Lemma calm_append t e n : respects calm (state (append_log t e n)).
Proof. unfold state. walk calm_step. Qed.

(** From [s] to [s'], something was sent for each of the requests. *)
Definition sends (qs : list FileRequest) (s s' : Session) : Prop :=
  exists l, talks s (items_bytes l) [] s' /\ Forall2 offered qs l /\ (reads_bounded -> Forall item_ok l).

Lemma sends_cons q qs i s s1 s' :
  talks s (item_bytes i) [] s1 -> offered q i -> (reads_bounded -> item_ok i) -> sends qs s1 s' -> sends (q :: qs) s s'.
Proof.
  intros T1 Hi Hok (l & T & Hl & Hoks). exists (i :: l). split; [by apply (talks_trans _ _ [] _ _ [] _ T1)|].
  split; [by constructor|]. intros Hb. constructor; auto.
Qed.

(** The rest of the requests, after an answer that there is no file. *)
Lemma sends_missing {A} (rest : A -> SIO unit) q qs s s1 u s' m :
  (forall a s2, db_wf (w_db (ss_world s2)) -> counted s2 -> rest a s2 = (Ok u, s') -> sends qs s2 s') ->
  talks s [] [] s1 -> db_wf (w_db (ss_world s1)) ->
  (forall s2 a, m s1 = (Ok a, s2) -> talks s1 (frame FFileUnavailable []) [] s2 /\ ss_world s2 = ss_world s1) ->
  sbind m rest s1 = (Ok u, s') -> sends (q :: qs) s s'.
Proof.
  intros Hrest T1 Hw Hm (a & s2 & E1 & E)%sbind_Ok. apply Hm in E1 as [T2 W2].
  apply (sends_cons q qs Missing s s2 s'); [|done..| eapply Hrest; [by rewrite W2 | apply T2 | exact E]].
  by apply (talks_trans _ [] [] _ _ [] _ T1).
Qed.

Lemma send_requested_run config remote qs n s u s' :
  db_wf (w_db (ss_world s)) -> counted s -> send_requested config remote qs n s = (Ok u, s') -> sends qs s s'.
Proof.
  revert n s. induction qs as [|q qs IH]; intros n s Hw Hc E; cbn [send_requested] in E.
  { injection E as _ <-. exists []. split; [by apply talks_nothing | by split; constructor]. }
  apply sbind_Ok in E as (prepared & s1 & E1 & E). apply talks_world in E1 as [T1 E1]; [|done].
  pose proof (calm_wf _ _ (calm_prepare _ _ _ _ _ _ E1) Hw) as Hw1.
  assert (forall s2 n2, talks s [] [] s2 -> db_wf (w_db (ss_world s2)) ->
    sbind (send_frame FFileUnavailable []) (fun _ => send_requested config remote qs n2) s2 = (Ok u, s') ->
    sends (q :: qs) s s') as Hmissing.
  { intros s2 n2 T2 Hw2. apply sends_missing; [intros _ s3; apply IH | done..|].
    intros s3 a E3. by apply talks_send in E3 as (T3 & _ & W3); [|apply T2]. }
  assert (forall n2, sbind (world (log_unavailable config remote q false))
      (fun _ => sbind (send_frame FFileUnavailable []) (fun _ => send_requested config remote qs n2)) s1 = (Ok u, s') ->
    sends (q :: qs) s s') as Hrefused.
  { intros n2 ([] & s2 & E3 & E2)%sbind_Ok. apply talks_world in E3 as [T3 E3]; [|apply T1].
    apply (Hmissing s2 n2); [by apply (talks_trans _ [] [] _ [] [] _ T1) | | done].
    by apply (calm_wf _ _ (calm_log_unavailable _ _ _ _ _ _ _ E3)). }
  destruct prepared as [[[r file] size]|]; [|by apply (Hmissing s1 n)].
  destruct (prepare_run _ _ _ _ _ _ _ _ Hw E1) as (Hr & Hh & hash & Hk).
  destruct (u64_checked_add n size) as [next|]; [|by apply (Hrefused n)].
  destruct (MAX_SESSION_FILE_BYTES <? next); [by apply (Hrefused n)|]. clear Hrefused Hmissing.
  apply sbind_Ok in E as (header & s2 & E2 & E). apply talks_world in E2 as [T2 E2]; [|apply T1].
  injection E2 as E2 W2. apply map_err_Ok in E2.
  apply sbind_Ok in E as ([] & s3 & E3 & E). apply talks_send in E3 as (T3 & Hf & W3); [|apply T2].
  apply sbind_Ok in E as ([] & s4 & E4 & E). pose proof (calm_stream _ _ _ _ _ _ E4) as M4.
  apply stream_loop_run in E4 as (content & T4 & Hlen); [|apply T3].
  apply sbind_Ok in E as (now & s5 & E5 & E). apply talks_world in E5 as [T5 E5]; [|apply T4]. injection E5 as _ W5.
  apply sbind_Ok in E as ([] & s6 & E6 & E). apply talks_world in E6 as [T6 E6]; [|apply T5].
  destruct (sent_item r header q content size hash) as [Ho Hok]; [done..|].
  apply (sends_cons q qs (Sent header content) s s6 s'); [|done| | eapply IH; [|apply T6 | exact E]].
  - rewrite <-(app_nil_l (item_bytes _)). cbn [item_bytes]. rewrite <-(app_nil_r content).
    apply (talks_trans _ [] [] _ _ [] _ T1), (talks_trans _ [] [] _ _ [] _ T2), (talks_trans _ _ [] _ _ [] _ T3).
    apply (talks_trans _ _ [] _ _ [] _ T4). by apply (talks_trans _ [] [] _ [] [] _ T5).
  - intros Hb. apply Hok. rewrite Hlen by (done || lia). destruct Hr as (_ & _ & Hkind). rewrite Hk in Hkind.
    unfold kind_ok in Hkind. lia.
  - apply (calm_wf _ _ (calm_append _ _ _ _ _ _ E6)). rewrite <-W5. apply (calm_wf _ _ M4). by rewrite W3, <-W2.
Qed.

Lemma receive_raw_file_run staged size hash s u s' :
  counted s -> 0 <= size -> receive_raw_file staged size hash s = (Ok u, s') ->
  exists content, len content = size /\ blake3 content = hash /\ talks s [] content s'.
Proof.
  intros Hc Hs E. unfold receive_raw_file in E. apply sbind_Ok in E as (hashed & s1 & E1 & E).
  apply receive_loop_run in E1 as (content & -> & Hl & T1); [|done|].
  2:{ pose proof (Z.div_mod size BUFFER ltac:(done)). pose proof (Z.mod_pos_bound size BUFFER ltac:(done)).
      assert (0 <= size / BUFFER) by (by apply Z.div_pos). unfold BUFFER in *. lia. }
  cbn [app] in E. case_bool_decide as Hh; [done|]. apply sbind_Ok in E as ([] & s2 & E2 & E).
  apply talks_world in E2 as [T2 _]; [|apply T1]. apply talks_world in E as [T3 _]; [|apply T2].
  exists content. split; [done|]. split; [by destruct (decide (blake3 content = hash))|].
  rewrite <-(app_nil_r content). apply (talks_trans _ [] _ _ [] [] _ T1). by apply (talks_trans _ [] [] _ [] [] _ T2).
Qed.

Lemma receive_file_run config remote q s u s' :
  counted s -> receive_file config remote q s = (Ok u, s') ->
  exists i, talks s [] (item_bytes i) s' /\ taken q i /\ item_ok i.
Proof.
  intros Hc E. unfold receive_file in E. apply sbind_Ok in E as ([tag header] & s1 & E1 & E).
  apply talks_receive in E1 as (T1 & Hf & W1); [|done]. case_bool_decide as Ht.
  { subst tag. case_bool_decide as Hh; [|done]. subst header. cbn [negb] in E. apply talks_world in E as [T2 _]; [|apply T1].
    exists Missing. split; [|done]. rewrite <-(app_nil_r (item_bytes _)). by apply (talks_trans _ [] _ _ [] [] _ T1). }
  case_bool_decide as Ht'; [done|]. assert (tag = FFile) as -> by (by destruct (decide (tag = FFile))).
  apply sbind_Ok in E as (r & s2 & E2 & E). apply talks_world in E2 as [T2 E2]; [|apply T1].
  injection E2 as Hd _. apply map_err_Ok in Hd. destruct (matches_request r q) eqn:Hm; [|done]. cbn [negb] in E.
  destruct (rec_kind r) as [size hash|] eqn:Hk; [|done].
  assert (0 <= size) as Hs.
  { apply decode_file_header_Ok in Hd as ((_ & _ & Hkind) & _). rewrite Hk in Hkind. unfold kind_ok in Hkind. lia. }
  apply sbind_Ok in E as ([] & s3 & E3 & E). assert (talks s2 [] [] s3) as T3.
  { unfold add_received_bytes in E3. destruct (add_received _ _) as [n|] eqn:Ea; [|done]. injection E3 as <-.
    destruct T2 as (C2 & _). split; [|by rewrite app_nil_r]. unfold counted in *. cbn [ss_received].
    unfold add_received in Ea. apply rbind_Ok in Ea as (m & Ea & Eb). apply ok_or_Ok, u64_checked_add_Some in Ea as [-> Ea].
    case_match; [done|]. injection Eb as <-. lia. }
  apply sbind_Ok in E as (staged & s4 & E4 & E). apply talks_world in E4 as [T4 _]; [|apply T3].
  apply sbind_Ok in E as (outcome & s5 & E5 & E). unfold sresult in E5.
  destruct (receive_raw_file staged size hash s4) as [x s5'] eqn:Er. injection E5 as -> ->. destruct outcome as [v|e].
  2:{ apply sbind_Ok in E as (? & ? & _ & E). by apply sbind_Ok in E as (? & ? & _ & E). }
  apply receive_raw_file_run in Er as (content & Hl & Hhash & T5); [|apply T4 | done].
  apply sbind_Ok in E as ([] & s6 & E6 & E). apply talks_world in E6 as [T6 _]; [|apply T5].
  apply talks_world in E as [T7 _]; [|apply T6]. exists (Sent header content).
  split; [|split; [exists r; by rewrite Hk, Hl, Hhash | split; [done|]; exists r, hash; by rewrite Hk, Hl]].
  cbn [item_bytes]. apply (talks_trans _ [] _ _ [] _ _ T1), (talks_trans _ [] [] _ [] _ _ T2).
  apply (talks_trans _ [] [] _ [] _ _ T3), (talks_trans _ [] [] _ [] _ _ T4). rewrite <-(app_nil_r content).
  apply (talks_trans _ [] _ _ [] [] _ T5). by apply (talks_trans _ [] [] _ [] [] _ T6).
Qed.

Lemma receive_files_run config remote qs s u s' :
  counted s -> receive_files config remote qs s = (Ok u, s') ->
  exists l, talks s [] (items_bytes l) s' /\ Forall2 taken qs l /\ Forall item_ok l.
Proof.
  revert s. induction qs as [|q qs IH]; intros s Hc E; cbn [receive_files] in E.
  { injection E as _ <-. exists []. split; [by apply talks_nothing | by split; constructor]. }
  apply sbind_Ok in E as ([] & s1 & E1 & E). apply receive_file_run in E1 as (i & T1 & Ht & Hi); [|done].
  apply IH in E as (l & T2 & Hl & Hoks); [|apply T1]. exists (i :: l).
  split; [by apply (talks_trans _ [] _ _ [] _ _ T1) | by split; constructor].
Qed.
End items.

(** ** A whole session *)

Section session.
Context `{Crypto, EventJson, Platform, Iroh}.

Lemma exchange_files_run side config remote shared mine theirs s u s' :
  db_wf (w_db (ss_world s)) -> counted s -> exchange_files side config remote shared mine theirs s = (Ok u, s') ->
  exists given got, talks s (items_bytes given) (items_bytes got) s' /\
    Forall2 offered theirs given /\ (reads_bounded -> Forall item_ok given) /\
    Forall2 taken mine got /\ Forall item_ok got.
Proof.
  intros Hw Hc E. assert (forall s1 s2, db_wf (w_db (ss_world s1)) -> counted s1 ->
    send_files config remote shared theirs s1 = (Ok u, s2) -> sends theirs s1 s2) as Hsend.
  { intros s1 s2 Hw1 Hc1 E1. unfold send_files in E1. apply sbind_Ok in E1 as ([] & s3 & E3 & E1).
    apply talks_world in E3 as [T3 E3]; [|done]. injection E3 as _ W3.
    apply send_requested_run in E1 as (l & T1 & Hl); [|by rewrite <-W3 | apply T3].
    exists l. split; [|done]. by apply (talks_trans _ [] [] _ _ [] _ T3). }
  destruct side; cbn [exchange_files] in E; apply sbind_Ok in E as ([] & s1 & E1 & E).
  - pose proof (calm_wf _ _ (calm_send _ _ _ _ _ _ _ E1) Hw) as Hw1. destruct u.
    apply Hsend in E1 as (given & T1 & Hg & Hok); [|done..].
    apply receive_files_run in E as (got & T2 & Ht & Hok'); [|apply T1]. exists given, got.
    split; [|done]. rewrite <-(app_nil_r (items_bytes given)). by apply (talks_trans _ _ [] _ [] _ _ T1).
  - pose proof (calm_wf _ _ (calm_receive _ _ _ _ _ _ E1) Hw) as Hw1.
    apply receive_files_run in E1 as (got & T1 & Ht & Hok'); [|done].
    apply Hsend in E as (given & T2 & Hg & Hok); [|done | apply T1]. exists given, got.
    split; [|done]. rewrite <-(app_nil_r (items_bytes got)). by apply (talks_trans _ [] _ _ _ [] _ T1).
Qed.

(** What a device sent, what it was sent, and the worlds in between. *)
Record Talk := mkTalk {
  tk_chain : list RosterRevision;
  tk_hello : Hello;
  tk_bundle : list (bytes * Manifest);
  tk_requests : list FileRequest;
  tk_given : list Item;
  tk_peer_chain : list RosterRevision;
  tk_peer : Hello;
  tk_peer_bundle : list (bytes * Manifest);
  tk_peer_requests : list FileRequest;
  tk_taken : list Item;
  tk_accepted : World;
  tk_merged : World;
}.

Definition shared (t : Talk) : list bytes :=
  List.filter (fun c => bool_decide (c ∈ hello_collections (tk_peer t))) (hello_collections (tk_hello t)).

(** The frames that say so, as they are made and as they are read. *)
Definition spoken hello chain bundle requests (l : list (FrameTag * bytes)) : Prop :=
  exists a b c d, hello_encode hello = Ok a /\ roster_bundle_encode chain = Ok b /\
    manifest_bundle_encode bundle = Ok c /\ request_bundle_encode requests = Ok d /\
    l = [(FHello, a); (FRoster, b); (FManifests, c); (FRequests, d)] /\ Forall frame_ok l.
Definition understood hello chain bundle requests (l : list (FrameTag * bytes)) : Prop :=
  exists a b c d, hello_decode a = Ok hello /\ roster_bundle_decode b = Ok chain /\
    manifest_bundle_decode c = Ok bundle /\ request_bundle_decode d = Ok requests /\
    l = [(FHello, a); (FRoster, b); (FManifests, c); (FRequests, d)] /\ Forall frame_ok l.

Record talked (config : SessionConfig) (remote : EndpointId) (s s' : Session) (outcome : SessionOutcome) (t : Talk)
    : Prop := mkTalked {
  td_authorized : authorized (w_db (ss_world s)) (sc_local_endpoint config) remote;
  td_chain : select_stored (items (roster_t (w_db (ss_world s)))) = Ok (tk_chain t);
  td_names : exists cs, collections (w_db (ss_world s)) = (Ok cs, w_db (ss_world s)) /\
    hello_collections (tk_hello t) = map cs_name cs;
  td_address : addr_to_json (sc_local_addr config) = Some (endpoint_addr_json (tk_hello t));
  td_accept : exists genesis, head (tk_chain t) = Some genesis /\
    accept_remote_roster_and_hint (sc_stored_identity config) (tk_peer_chain t) (canonical_hash genesis)
      (sc_local_endpoint config) remote (endpoint_addr_json (tk_peer t)) (ss_world s)
    = (Ok (roster_changed outcome), tk_accepted t);
  td_build : build_manifests (shared t) (tk_accepted t) = (Ok (tk_bundle t), tk_accepted t);
  td_merge : merge_remote_manifests config remote (shared t) (tk_peer_bundle t) (tk_accepted t)
    = (Ok (tk_requests t), tk_merged t);
  td_given : Forall2 offered (tk_peer_requests t) (tk_given t) /\ (reads_bounded -> Forall item_ok (tk_given t));
  td_taken : Forall2 taken (tk_requests t) (tk_taken t) /\ Forall item_ok (tk_taken t);
  td_calm : calm (tk_merged t) (ss_world s');
  td_said : exists said, spoken (tk_hello t) (tk_chain t) (tk_bundle t) (tk_requests t) said /\
    sink_bytes (ss_send s') = sink_bytes (ss_send s) ++ frames said ++ items_bytes (tk_given t) ++ frame FDone [];
  td_heard : exists heard, understood (tk_peer t) (tk_peer_chain t) (tk_peer_bundle t) (tk_peer_requests t) heard /\
    stream_bytes (ss_recv s) = frames heard ++ items_bytes (tk_taken t) ++ frame FDone [];
  td_remote : remote_endpoint outcome = remote;
}.

(** One step of a session that succeeds; [T] says what was said and heard. *)
Ltac hear T E x W :=
  let s1 := fresh "s" in let E1 := fresh "E" in let T1 := fresh "T" in
  apply sbind_Ok in E as (x & s1 & E1 & E);
  first [ apply talks_world in E1 as [T1 W]; [|apply T] | apply talks_exchange in E1 as (T1 & W); [|apply T] ];
  apply (talks_trans _ _ _ _ _ _ _ T) in T1; rewrite ?app_nil_r in T1; clear T; rename T1 into T.

Lemma session_ends connection side config remote shared mine theirs changed s outcome s' :
  db_wf (w_db (ss_world s)) -> counted s ->
  (_ <<= exchange_files side config remote shared mine theirs ;;
   done_payload <<= exchange_frame FDone [] ;;
   if negb (bool_decide (done_payload = [])) then sfail UnexpectedState
   else
     _ <<= world (ilift (conn_finished connection)) ;;
     _ <<= expect_end ;;
     _ <<= world (ilift (conn_stopped connection)) ;;
     sret (mkOutcome remote changed)) s = (Ok outcome, s') ->
  outcome = mkOutcome remote changed /\ calm (ss_world s) (ss_world s') /\ stream_bytes (ss_recv s') = [] /\
  exists given got, talks s (items_bytes given ++ frame FDone []) (items_bytes got ++ frame FDone []) s' /\
    Forall2 offered theirs given /\ (reads_bounded -> Forall item_ok given) /\
    Forall2 taken mine got /\ Forall item_ok got.
Proof.
  intros Hw Hc E. apply sbind_Ok in E as (u & s1 & E1 & E). pose proof (calm_exchange_files _ _ _ _ _ _ _ _ _ E1) as C1.
  apply exchange_files_run in E1 as (given & got & T & Hitems); [|done..].
  hear T E ack W2. destruct W2 as (_ & _ & W2). case_bool_decide as Hl; [|done]. subst ack. cbn [negb] in E.
  hear T E u3 W3. injection W3 as _ W3. apply sbind_Ok in E as (u4 & s4 & E4 & E).
  assert (s4 = s2 /\ stream_bytes (ss_recv s4) = []) as [-> Hend].
  { unfold expect_end in E4. destruct (stream_bytes (ss_recv s2)) eqn:Es, (stream_stop (ss_recv s2)); try done.
    by injection E4 as _ <-. }
  apply sbind_Ok in E as (u5 & s5 & E5 & E). pose proof (world_run _ _ _ _ E5) as [(Hr & _ & _) _].
  apply talks_world in E5 as [T5 W5]; [|apply T]. injection W5 as _ W5. injection E as <- <-.
  apply (talks_trans _ _ _ _ _ _ _ T) in T5. rewrite !app_nil_r in T5.
  split; [done|]. split; [by rewrite <-W5, <-W3, W2|]. split; [by rewrite Hr|]. by exists given, got.
Qed.

Lemma session_talked connection side config s outcome s' :
  db_wf (w_db (ss_world s)) -> counted s -> run_session_with_outcome connection side config s = (Ok outcome, s') ->
  exists t, talked config (conn_remote connection) s s' outcome t.
Proof.
  intros Hw Hc E. unfold run_session_with_outcome in E. cbv zeta in E.
  pose proof (talks_nothing s Hc) as T.
  hear T E u1 W1. apply authorize_local_iff in W1 as [W1 [A1 _]]. destruct u1. specialize (A1 eq_refl).
  hear T E u2 W2. injection W2 as _ W2. hear T E u3 W3. pose proof (looks_session_state _ _ _ W3) as V3.
  destruct u3 as [chain names]. apply session_state_reads in W3 as (Hchain & cs & Hcs & ->).
  hear T E g0 W4. injection W4 as Hg W4. apply ok_or_Ok in Hg.
  destruct (MAX_ENDPOINT_ADDRS <? addr_count (sc_local_addr config)); [done|].
  hear T E address W5. injection W5 as Ha W5. apply ok_or_Ok in Ha.
  hear T E hello W6. injection W6 as Hh W6. apply map_err_Ok in Hh.
  hear T E rh W7. destruct W7 as (F7 & F7' & W7). hear T E peer W8. injection W8 as Hp W8. apply map_err_Ok in Hp.
  hear T E roster W9. injection W9 as Hr W9. apply map_err_Ok in Hr.
  hear T E rr W10. destruct W10 as (F10 & F10' & W10).
  hear T E revisions W11. injection W11 as Hv W11. apply map_err_Ok in Hv.
  hear T E changed W12. hear T E mine W13. pose proof W13 as C13. apply calm_build in C13.
  hear T E lm W14. injection W14 as Hlm W14. apply map_err_Ok in Hlm.
  hear T E rm W15. destruct W15 as (F15 & F15' & W15).
  hear T E bundle W16. injection W16 as Hrm W16. apply map_err_Ok in Hrm.
  hear T E requests W17. hear T E lr W18. injection W18 as Hlr W18. apply map_err_Ok in Hlr.
  hear T E rq W19. destruct W19 as (F19 & F19' & W19).
  hear T E theirs W20. injection W20 as Hrq W20. apply map_err_Ok in Hrq.
  assert (ss_world s1 = ss_world s) as V1 by congruence.
  assert (ss_world s10 = ss_world s) as V10 by congruence. rewrite V10 in W12. rewrite V1 in Hchain, Hcs.
  pose proof (accept_records _ _ _ _ _ _ _ _ _ W12 Hw) as [Hw11 _].
  destruct (build_manifests_ok (List.filter (fun c => bool_decide (c ∈ hello_collections peer)) (map cs_name cs))
    (ss_world s11) Hw11) as (b & Hb & _). rewrite Hb in W13. injection W13 as <- V12.
  assert (ss_world s15 = ss_world s11) as V15 by congruence. rewrite V15 in W17.
  assert (db_wf (w_db (ss_world s16))) as Hw16.
  { apply (merge_manifests_refine _ _ _ _ _ _ _ Hw11 (decoded_bundle_wf _ _ Hrm) W17). }
  assert (ss_world s19 = ss_world s16) as V19 by congruence.
  apply session_ends in E as (-> & Ct & Hend & given & got & T' & Hitems); [|by rewrite V19 | apply T].
  destruct (talks_trans _ _ _ _ _ _ _ T T') as (_ & R & K). rewrite Hend, app_nil_r in R.
  exists (mkTalk chain (mkHello (map cs_name cs) address) b requests given revisions peer bundle theirs got
            (ss_world s11) (ss_world s16)).
  destruct Hitems as (Hg1 & Hg2 & Ht). split; cbn; try done.
  - by exists cs.
  - by exists g0.
  - by rewrite <-V19.
  - exists [(FHello, hello); (FRoster, roster); (FManifests, lm); (FRequests, lr)]. split.
    + exists hello, roster, lm, lr. do 5 (split; [done|]). by repeat constructor.
    + rewrite K. unfold frames. cbn [map concat fst snd]. by rewrite app_nil_r, <-!app_assoc.
  - exists [(FHello, rh); (FRoster, rr); (FManifests, rm); (FRequests, rq)]. split.
    + exists rh, rr, rm, rq. do 5 (split; [done|]). by repeat constructor.
    + rewrite R. unfold frames. cbn [map concat fst snd]. by rewrite app_nil_r, <-!app_assoc.
Qed.
End session.

(** ** The two ends of a connection *)

Section arrivals.
Context `{Crypto, EventJson, Platform, Iroh}.

(** What was said is what is heard. *)
Lemma spoken_understood h c b r l h' c' b' r' l' x x' :
  spoken h c b r l -> understood h' c' b' r' l' -> frames l ++ x = frames l' ++ x' ->
  h' = h /\ x' = x /\ roster_bundle_encode c = roster_bundle_encode c' /\
  (Forall (fun c => utf8_valid c = true) (map fst b) ->
   forall db, db_wf db -> Forall (lists_winners db) b -> b' = b) /\
  (Forall request_utf8 r -> r' = r).
Proof.
  intros (a1 & a2 & a3 & a4 & E1 & E2 & E3 & E4 & -> & F) (d1 & d2 & d3 & d4 & D1 & D2 & D3 & D4 & -> & F') E.
  apply frames_app_inj in E as [El ->]; [|done..]. assert (d1 = a1 /\ d2 = a2 /\ d3 = a3 /\ d4 = a4) as (-> & -> & -> & ->).
  { by injection El. }
  apply hello_decode_iff in D1 as [D1 _]. apply roster_bundle_decode_iff in D2 as [D2 _].
  split; [by apply (hello_encode_inj _ _ a1)|]. split; [done|]. split; [by rewrite E2|]. split.
  - intros Hu db Hw Hl. assert (manifest_bundle_decode a3 = Ok b) as D by (apply (bundle_arrives db); auto; by apply Forall_map in Hu).
    congruence.
  - intros Hu. assert (request_bundle_decode a4 = Ok r) as D by by apply request_bundle_decode_iff. congruence.
Qed.

Lemma heard_text config remote s s' outcome t :
  talked config remote s s' outcome t -> Forall (fun c => utf8_valid c = true) (hello_collections (tk_peer t)).
Proof.
  intros T. destruct (td_heard _ _ _ _ _ _ T) as (heard & (a & b & c & d & Ha & _) & _).
  by apply hello_decode_iff in Ha as [_ [Hu _]].
Qed.

Lemma shared_elem t c :
  c ∈ shared t <-> c ∈ hello_collections (tk_hello t) /\ c ∈ hello_collections (tk_peer t).
Proof.
  unfold shared. by rewrite !list_elem_of_In, filter_In, bool_decide_eq_true, !list_elem_of_In.
Qed.

Lemma talked_accepted config remote s s' outcome t :
  db_wf (w_db (ss_world s)) -> talked config remote s s' outcome t ->
  db_wf (w_db (tk_accepted t)) /\ winners (w_db (tk_accepted t)) = winners (w_db (ss_world s)) /\
  map fst (tk_bundle t) = shared t /\ Forall (lists_winners (w_db (tk_accepted t))) (tk_bundle t).
Proof.
  intros Hw T. destruct (td_accept _ _ _ _ _ _ T) as (g & _ & Ha).
  pose proof (accept_records _ _ _ _ _ _ _ _ _ Ha Hw) as [Hw1 Hwin].
  destruct (build_manifests_ok (shared t) (tk_accepted t) Hw1) as (b & Hb & Hn & Hl).
  rewrite (td_build _ _ _ _ _ _ T) in Hb. injection Hb as <-. done.
Qed.

Lemma talked_requests config remote s s' outcome t :
  db_wf (w_db (ss_world s)) -> bundle_wf (tk_peer_bundle t) -> talked config remote s s' outcome t ->
  Forall request_utf8 (tk_requests t).
Proof.
  intros Hw Hb T. destruct (talked_accepted _ _ _ _ _ _ Hw T) as (Hw1 & _).
  destruct (merge_manifests_refine _ _ _ _ _ _ _ Hw1 Hb (td_merge _ _ _ _ _ _ T)) as (_ & _ & _ & all & n & _ & Hall & -> & _).
  apply Forall_forall. intros q Hq. apply elem_of_take in Hq as (i & Hq & _). apply list_elem_of_lookup_2, Hall in Hq as (r & Hr & _ & ->).
  unfold bundle_records in Hr. apply list_elem_of_In, in_concat in Hr as (rs & Hrs & Hr).
  apply in_map_iff in Hrs as (x & <- & Hx). unfold bundle_wf in Hb. rewrite Forall_forall in Hb.
  apply list_elem_of_In in Hx, Hr. specialize (Hb x Hx). cbn in Hb. rewrite Forall_forall in Hb.
  destruct (Hb r Hr) as [((Hc & _ & [_ Hp] & _) & _) _]. done.
Qed.

Lemma heard_bundle config remote s s' outcome t : talked config remote s s' outcome t -> bundle_wf (tk_peer_bundle t).
Proof.
  intros T. destruct (td_heard _ _ _ _ _ _ T) as (heard & (a & b & c & d & _ & _ & Hc & _) & _).
  by apply decoded_bundle_wf in Hc.
Qed.

(** The roster of the peer was merged; when the device's own tip is still
    selected, no change was made again. *)
Lemma accept_merged identity rs genesis local remote encoded w b w' :
  accept_remote_roster_and_hint identity rs genesis local remote encoded w = (Ok b, w') ->
  exists previous db1 after,
    select_stored (items (roster_t (w_db w))) = Ok previous /\
    merge_selected_roster_chain rs (w_db w) = (Ok tt, db1) /\
    select_stored (items (roster_t db1)) = Ok after /\
    forall tip, last previous = Some tip -> canonical_hash tip ∈ map canonical_hash after ->
      roster_t (w_db w') = roster_t db1.
Proof.
  intros E. unfold accept_remote_roster_and_hint in E. case_match; [done|]. case_match; [done|].
  apply ibind_Ok in E as (addr & w0 & Ha & E). injection Ha as _ <-. case_bool_decide; [done|].
  case_match; [done|]. apply ibind_Ok in E as (changed & w1 & Em & E).
  apply ibind_Ok in E as ([] & w2 & Eh & E). injection E as _ <-.
  assert (roster_t (w_db w2) = roster_t (w_db w1)) as ->.
  { unfold state in Eh. apply (proj1 (imap_err_Ok _ _ _ _ _)), (calm_op (OpPeerHint remote encoded) I I) in Eh. apply Eh. }
  unfold merge_and_authorize_remote_roster in Em.
  apply ibind_Ok in Em as (previous & v0 & E0 & Em). apply chain_run in E0 as [-> E0]. symmetry in E0. apply map_err_Ok in E0.
  apply ibind_Ok in Em as ([] & v1 & E1 & Em). unfold state in E1. apply (proj1 (imap_err_Ok _ _ _ _ _)) in E1.
  apply (proj1 (on_db_Ok _ _ _ _)) in E1 as (db1 & E1 & ->).
  apply ibind_Ok in Em as (after & v2 & E2 & Em). apply chain_run in E2 as [-> E2]. symmetry in E2. apply map_err_Ok in E2.
  exists previous, db1, after. do 3 (split; [done|]). intros tip Htip Hin. rewrite Htip in Em.
  rewrite bool_decide_eq_true_2 in Em by done. cbn [negb] in Em. apply ibind_Ok in Em as (? & v3 & E3 & Em).
  injection E3 as _ <-. apply ibind_Ok in Em as (selected & v4 & E4 & Em). apply chain_run in E4 as [-> _].
  apply ibind_Ok in Em as (tip' & v5 & E5 & Em). injection E5 as _ <-. case_match; [|done]. by injection Em as _ <-.
Qed.

(** What follows leaves the roster. *)
Lemma talked_roster config remote s s' outcome t :
  talked config remote s s' outcome t -> roster_t (w_db (ss_world s')) = roster_t (w_db (tk_accepted t)).
Proof.
  intros T. destruct (td_calm _ _ _ _ _ _ T) as [_ ->].
  by apply (roster_merge_manifests _ _ _ _ _ _ _ (td_merge _ _ _ _ _ _ T)).
Qed.

(** The records afterwards: those of before, merged with those that arrived. *)
Lemma talked_winners config remote s s' outcome t :
  db_wf (w_db (ss_world s)) -> talked config remote s s' outcome t ->
  db_wf (w_db (ss_world s')) /\
  winners (w_db (ss_world s')) = merge_maps (winners (w_db (ss_world s)))
    (timely_records (future_limit config (tk_accepted t)) (bundle_records (tk_peer_bundle t))).
Proof.
  intros Hw T. destruct (talked_accepted _ _ _ _ _ _ Hw T) as (Hw1 & Hwin1 & _).
  destruct (merge_manifests_refine _ _ _ _ _ _ _ Hw1 (heard_bundle _ _ _ _ _ _ T) (td_merge _ _ _ _ _ _ T))
    as (_ & Hw2 & Hwin2 & _).
  destruct (td_calm _ _ _ _ _ _ T) as [C _]. destruct (C Hw2) as [Hw3 Hwin3]. split; [done | congruence].
Qed.
Lemma names_attached db cs c :
  db_wf db -> collections db = (Ok cs, db) -> c ∈ map cs_name cs <-> attached db c.
Proof.
  intros Hw E. unfold collections, dbind, dget, dlift in E. injection E as E.
  destruct (decode_collections_ok (items (collections_t db))) as (cs' & E' & Hn).
  { apply Forall_forall. intros [name row] Hin. apply items_elem in Hin. by apply (wf_collections db Hw). }
  rewrite E in E'. injection E' as <-. rewrite Hn. unfold attached. split.
  - intros Hc. apply list_elem_of_In, in_map_iff in Hc as ([name row] & <- & Hin).
    apply list_elem_of_In, items_elem in Hin. cbn [fst]. by rewrite Hin.
  - intros [row Hr]. apply list_elem_of_In, in_map_iff. exists (c, row). split; [done|]. by apply list_elem_of_In, items_elem.
Qed.
End arrivals.

Section ends.
Context `{Crypto, EventJson, Iroh}.
Context {PA PB : Platform}.

(** What one device reads is what the other wrote, from the first byte on. *)
Definition hears {P Q : Platform} (s : @Session P) (peer peer' : @Session Q) : Prop :=
  counted s /\ sink_bytes (ss_send peer) = [] /\ stream_bytes (ss_recv s) = sink_bytes (ss_send peer').

Lemma arrives conf_a conf_b a b (sa sa' : @Session PA) (sb sb' : @Session PB) oa ob ta tb :
  db_wf (w_db (ss_world sb)) -> hears sa sb sb' ->
  talked conf_a b sa sa' oa ta -> talked conf_b a sb sb' ob tb ->
  tk_peer ta = tk_hello tb /\ roster_bundle_encode (tk_chain tb) = roster_bundle_encode (tk_peer_chain ta) /\
  tk_peer_bundle ta = tk_bundle tb /\ tk_peer_requests ta = tk_requests tb /\
  items_bytes (tk_taken ta) ++ frame FDone [] = items_bytes (tk_given tb) ++ frame FDone [].
Proof.
  intros Hw (_ & Hempty & Hwire) Ta Tb.
  destruct (td_heard _ _ _ _ _ _ Ta) as (heard & Hu & Hr). destruct (td_said _ _ _ _ _ _ Tb) as (said & Hs & Hk).
  rewrite Hwire, Hk, Hempty in Hr. cbn [app] in Hr.
  destruct (spoken_understood _ _ _ _ _ _ _ _ _ _ _ _ Hs Hu Hr) as (Hh & Hi & Hc & Hb & Hq).
  destruct (talked_accepted _ _ _ _ _ _ Hw Tb) as (Hw1 & _ & Hn & Hl). split; [done|]. split; [done|]. split; [|split; [|done]].
  - apply (Hb) with (db := w_db (tk_accepted tb)); [|done..]. rewrite Hn. apply Forall_forall. intros c [Hc' _]%shared_elem.
    pose proof (heard_text _ _ _ _ _ _ Ta) as Ht. rewrite Hh, Forall_forall in Ht. by apply Ht.
  - apply Hq. apply (talked_requests _ _ _ _ _ _ Hw) in Tb; [done|]. by apply (heard_bundle _ _ _ _ _ _ Tb).
Qed.

(** The records that arrive at A are what B holds of the collections of both. *)
Lemma arrived_records conf_a conf_b a b (sa sa' : @Session PA) (sb sb' : @Session PB) oa ob ta tb r :
  db_wf (w_db (ss_world sa)) -> db_wf (w_db (ss_world sb)) -> hears sa sb sb' -> hears sb sa sa' ->
  talked conf_a b sa sa' oa ta -> talked conf_b a sb sb' ob tb ->
  r ∈ bundle_records (tk_peer_bundle ta) <->
  attached (w_db (ss_world sa)) (rec_collection r) /\ attached (w_db (ss_world sb)) (rec_collection r) /\
  held (winners (w_db (ss_world sb))) r.
Proof.
  intros Hwa Hwb Hab Hba Ta Tb.
  destruct (arrives _ _ _ _ _ _ _ _ _ _ _ _ Hwb Hab Ta Tb) as (Hp & _ & -> & _).
  assert (tk_peer tb = tk_hello ta) as Hp'.
  { destruct (td_heard _ _ _ _ _ _ Tb) as (heard & Hu & Hr). destruct (td_said _ _ _ _ _ _ Ta) as (said & Hs & Hk).
    destruct Hba as (_ & He & Hwire). rewrite Hwire, Hk, He in Hr. by apply (spoken_understood _ _ _ _ _ _ _ _ _ _ _ _ Hs Hu Hr). }
  destruct (talked_accepted _ _ _ _ _ _ Hwb Tb) as (Hw1 & Hwin & Hn & Hl).
  rewrite (bundle_lists _ _ _ Hl), Hn, shared_elem, Hp', Hwin.
  destruct (td_names _ _ _ _ _ _ Ta) as (csa & Hca & ->). destruct (td_names _ _ _ _ _ _ Tb) as (csb & Hcb & ->).
  rewrite (names_attached _ _ _ Hwa Hca), (names_attached _ _ _ Hwb Hcb). unfold held. tauto.
Qed.
(** The records of A afterwards, one path at a time. *)
Lemma met_winners conf_a conf_b a b (sa sa' : @Session PA) (sb sb' : @Session PB) oa ob ta tb k :
  db_wf (w_db (ss_world sa)) -> db_wf (w_db (ss_world sb)) -> hears sa sb sb' -> hears sb sa sa' ->
  talked conf_a b sa sa' oa ta -> talked conf_b a sb sb' ob tb ->
  (~ (attached (w_db (ss_world sa)) k.1 /\ attached (w_db (ss_world sb)) k.1) ->
   winners (w_db (ss_world sa')) !! k = winners (w_db (ss_world sa)) !! k) /\
  (attached (w_db (ss_world sa)) k.1 -> attached (w_db (ss_world sb)) k.1 ->
   (forall r, winners (w_db (ss_world sb)) !! k = Some r -> forall w : @World PA, timely (future_limit conf_a w) r = true) ->
   forall P Q, top_at P k (winners (w_db (ss_world sa)) !! k) -> top_at Q k (winners (w_db (ss_world sb)) !! k) ->
   top_at (fun r => P r \/ Q r) k (winners (w_db (ss_world sa')) !! k)).
Proof.
  intros Hwa Hwb Hab Hba Ta Tb. destruct (talked_winners _ _ _ _ _ _ Hwa Ta) as [_ ->].
  pose proof (fun r => arrived_records _ _ _ _ _ _ _ _ _ _ _ _ r Hwa Hwb Hab Hba Ta Tb) as Hr.
  assert (forall r, r ∈ timely_records (future_limit conf_a (tk_accepted ta)) (bundle_records (tk_peer_bundle ta)) <->
    r ∈ bundle_records (tk_peer_bundle ta) /\ timely (future_limit conf_a (tk_accepted ta)) r = true) as Ht.
  { intros r. unfold timely_records. by rewrite !list_elem_of_In, filter_In. }
  split.
  - intros Hn. apply merge_maps_other. intros r [Hin _]%Ht <-. apply Hn. by apply Hr in Hin as (? & ? & _).
  - intros Ha Hb Hfuture P Q HP HQ. apply (merge_maps_top P Q k _ _ (winners (w_db (ss_world sb)) !! k)); [by apply winners_indexed| |done..].
    intros r Hk. rewrite Ht, Hr. unfold held. rewrite Hk. split; [tauto|].
    intros Hw. split; [|by apply Hfuture]. subst k. cbn [fst index_of] in *. auto.
Qed.

(** ** Membership *)

Section membership.
Variable universe : list RosterRevision.
Hypothesis separated : roster_separates universe.
Variable g : RosterRevision.
Hypothesis genesis_universe : g ∈ universe.
Hypothesis genesis_valid : validate_genesis g = Ok tt.

Lemma talked_chain {P : Platform} config remote (s s' : @Session P) outcome t :
  roster_ok universe g (w_db (ss_world s)) -> talked config remote s s' outcome t ->
  exists l, tk_chain t = g :: l /\ selected (descendants g (w_db (ss_world s))) g l.
Proof.
  intros Hok T. apply (selected_sound universe separated g genesis_universe genesis_valid); [done|].
  unfold selected_roster_chain, dbind, dget, dlift. by rewrite (td_chain _ _ _ _ _ _ T).
Qed.

(** The selected chain of a device arrives as it is. *)
Lemma chain_arrives {P Q : Platform} config remote (s s' : @Session P) outcome t config' remote' (r r' : @Session Q) outcome' u :
  roster_ok universe g (w_db (ss_world r)) -> talked config remote s s' outcome t -> talked config' remote' r r' outcome' u ->
  roster_bundle_encode (tk_chain u) = roster_bundle_encode (tk_peer_chain t) -> tk_peer_chain t = tk_chain u.
Proof.
  intros Hok T U E. destruct (td_heard _ _ _ _ _ _ T) as (heard & (a & b & c & d & _ & Hb & _) & _).
  pose proof Hb as [Hb' _]%roster_bundle_decode_iff.
  assert (roster_bundle_decode b = Ok (tk_chain u)) as Hb2; [|congruence].
  destruct (talked_chain _ _ _ _ _ _ Hok U) as (l & El & Hl). apply roster_bundle_decode_iff. rewrite E. split; [done|].
  rewrite El. split; [|split; [done | by apply selected_valid in Hl as [Hl _]]].
  apply Forall_forall. intros x Hx. by apply (universe_ok universe separated), (selected_universe universe separated g genesis_universe (w_db (ss_world r)) l x Hok Hl).
Qed.

(** The device adds the revisions it was told of; when its own tip is still
    selected then, it ends with exactly these. *)
Lemma talked_merges {P : Platform} config remote (s s' : @Session P) outcome t la lb :
  roster_ok universe g (w_db (ss_world s)) -> talked config remote s s' outcome t ->
  tk_chain t = g :: la -> tk_peer_chain t = g :: lb -> (forall r, r ∈ lb -> r ∈ universe) -> valid_chain g lb ->
  exists db1, adds universe g (w_db (ss_world s)) lb db1 /\
    forall l, selected (descendants g db1) g l -> List.last la g ∈ g :: l ->
      roster_t (w_db (ss_world s')) = roster_t db1.
Proof.
  intros Hok T Ea Eb Hu Hv. destruct (td_accept _ _ _ _ _ _ T) as (g' & _ & Hacc).
  apply accept_merged in Hacc as (previous & db1 & after & Hp & Hm & Haf & Hsame).
  assert (previous = g :: la) as -> by (pose proof (td_chain _ _ _ _ _ _ T); congruence).
  destruct (merge_chain_ok universe separated g genesis_universe genesis_valid lb (w_db (ss_world s)) Hok Hu Hv)
    as (db1' & Hm' & Hadd). rewrite Eb, Hm' in Hm. injection Hm as ->. exists db1. split; [done|].
  intros l Hl Htip. rewrite (talked_roster _ _ _ _ _ _ T). apply (Hsame (List.last la g)); [apply last_of_chain|].
  assert (after = g :: l) as ->.
  { apply (selected_complete universe separated g genesis_universe genesis_valid) in Hl; [|apply Hadd].
    unfold selected_roster_chain, dbind, dget, dlift in Hl. rewrite Haf in Hl. by injection Hl. }
  apply list_elem_of_fmap. by exists (List.last la g).
Qed.
End membership.

(** ** Files *)

(** What arrives is what was sent, item by item. *)
Lemma met_items conf_a conf_b a b (sa sa' : @Session PA) (sb sb' : @Session PB) oa ob ta tb :
  reads_bounded (H1 := PB) -> tk_peer_requests tb = tk_requests ta ->
  items_bytes (tk_taken ta) ++ frame FDone [] = items_bytes (tk_given tb) ++ frame FDone [] ->
  talked conf_a b sa sa' oa ta -> talked conf_b a sb sb' ob tb -> tk_taken ta = tk_given tb.
Proof.
  intros Hb Hq E Ta Tb. destruct (td_taken _ _ _ _ _ _ Ta) as [Ht Hoka].
  destruct (td_given _ _ _ _ _ _ Tb) as [Hg Hokb]. rewrite Hq in Hg.
  apply items_app_inj in E as [-> _]; [done..| by apply Hokb |]. apply Forall2_length in Ht, Hg. congruence.
Qed.
End ends.
