(* ===== verification/SessionProps.v ===== *)
(** The properties of a whole session, each from the lemmas of SessionLaws.v,
    and an example of two devices that run one. *)

From S2P Require Import Prelude Bytes Utf8 Cursor Canonical Path Identity Concrete Records Winners Roster.
From S2P Require Import Protocol Database State StateLaws StateProps RosterStore Platform Installer InstallLaws ToyFs.
From S2P Require Import RosterConverge RosterLaws RosterProps Sync SyncLaws SyncProps Session SessionLaws SessionEnds.

Section properties.
Context `{Crypto, EventJson, Platform, Iroh}.

Abbreviation db_of s := (w_db (ss_world s)).

(** What a device says before it has accepted the roster of the peer: the
    names of its collections and its address, then its roster. *)
Definition introduction (config : SessionConfig) (db : Database) (sent : bytes) : Prop :=
  exists cs address hello chain,
    collections db = (Ok cs, db) /\ addr_to_json (sc_local_addr config) = Some address /\
    hello_encode (mkHello (map cs_name cs) address) = Ok hello /\
    select_stored (items (roster_t db)) = Ok chain /\
    (sent = frame FHello hello \/
     exists roster, roster_bundle_encode chain = Ok roster /\ sent = frame FHello hello ++ frame FRoster roster).

(** One step before the roster of the peer is accepted: an error leaves what was
    sent so far; [Q] and [E] move on to the value [x] of [Ex]. *)
Ltac look leaf Q E x Ex :=
  let e := fresh "e" in let Q' := fresh "Q" in
  eapply quiet_world in E as [(e & -> & Q')|(x & ? & Ex & Q' & E)]; [ | | leaf | exact Q]; clear Q; rename Q' into Q.

(** C8: Nothing is disclosed to strangers.  A device that does not know the peer
    as a member of its own tip stops before it sends or changes anything.
    Otherwise, however the session ends, either both devices are members of
    the tip that the device then selects, or the device has sent at most its
    introduction and has kept its records. *)
Theorem session_private connection side config s r s' :
  let local := sc_local_endpoint config in
  let remote := conn_remote connection in
  db_wf (db_of s) -> run_session_with_outcome connection side config s = (r, s') ->
  (~ authorized (db_of s) local remote -> (exists e, r = Err e) /\ ss_world s' = ss_world s /\
     sink_bytes (ss_send s') = sink_bytes (ss_send s)) /\
  (authorized (db_of s') local remote \/
   (exists sent, sink_bytes (ss_send s') = sink_bytes (ss_send s) ++ sent /\
      (sent <> [] -> introduction config (db_of s) sent)) /\
   db_wf (db_of s') /\ winners (db_of s') = winners (db_of s)).
Proof.
  intros local remote Hw E. unfold run_session_with_outcome in E. cbv zeta in E. fold local remote in E.
  pose proof (quiet_start s) as Q. assert (forall s1 sent, quiet_since s sent s1 ->
    (sent <> [] -> introduction config (db_of s) sent) -> authorized (db_of s1) local remote \/
    (exists sent, sink_bytes (ss_send s1) = sink_bytes (ss_send s) ++ sent /\
      (sent <> [] -> introduction config (db_of s) sent)) /\
   db_wf (db_of s1) /\ winners (db_of s1) = winners (db_of s)) as Hquiet.
  { intros s1 sent [Hw1 Hs1] Hi. right. rewrite Hw1. split; [by exists sent | done]. }
  look ltac:(apply looks_authorize) Q E u Ea.
  { split; [|by apply (Hquiet s' [] Q)]. intros _. destruct Q as [Hw1 Hs1]. rewrite app_nil_r in Hs1. eauto. }
  destruct u. apply authorize_local_iff in Ea as [_ [Ha _]]. split; [by intros Hn; destruct (Hn (Ha eq_refl))|]. clear Ha.
  look ltac:(apply looks_lift) Q E uo Eo; [by apply (Hquiet s' [] Q)|].
  look ltac:(apply looks_session_state) Q E us Els; [by apply (Hquiet s' [] Q)|]. destruct us as [chain names].
  apply session_state_reads in Els as (Hchain & cs & Hcs & ->).
  look ltac:(apply looks_lift) Q E g0 Eg; [by apply (Hquiet s' [] Q)|].
  destruct (MAX_ENDPOINT_ADDRS <? addr_count (sc_local_addr config)); [injection E as _ <-; by eapply Hquiet|].
  look ltac:(apply looks_lift) Q E address Ead; [by apply (Hquiet s' [] Q)|].
  look ltac:(apply looks_lift) Q E hello Eh; [by apply (Hquiet s' [] Q)|].
  injection Ead as Ead. apply ok_or_Ok in Ead. injection Eh as Eh. apply map_err_Ok in Eh.
  assert (introduction config (db_of s) (frame FHello hello)) as I1.
  { exists cs, address, hello, chain. auto 6. }
  apply (quiet_exchange _ _ _ _ _ _ _ _ Q) in E as [(e & -> & [Q1|Q1])|(rh & s1 & Q1 & E)];
    [by apply (Hquiet s' [] Q1) | by eapply Hquiet |]. cbn [app] in Q1. clear Q. rename Q1 into Q.
  look ltac:(apply looks_lift) Q E rh' Erh; [by eapply Hquiet|].
  look ltac:(apply looks_lift) Q E roster Er; [by eapply Hquiet|].
  injection Er as Er. apply map_err_Ok in Er.
  assert (introduction config (db_of s) (frame FHello hello ++ frame FRoster roster)) as I2.
  { exists cs, address, hello, chain. do 4 (split; [done|]). right. by exists roster. }
  apply (quiet_exchange _ _ _ _ _ _ _ _ Q) in E as [(e & -> & [Q1|Q1])|(rr & s2 & Q1 & E)];
    [by eapply Hquiet | by eapply Hquiet |]. clear Q. rename Q1 into Q.
  look ltac:(apply looks_lift) Q E revisions Erv; [by eapply Hquiet|].
  destruct Q as [Qw Qs]. apply sbind_cases in E as [(e & -> & E)|(changed & s3 & Eac & E)].
  - right. apply world_run in E as [(_ & Hk & _) E]. rewrite Qw in E. rewrite Hk.
    split; [by exists (frame FHello hello ++ frame FRoster roster)|]. by apply (accept_records _ _ _ _ _ _ _ _ _ E).
  - left. apply world_run in Eac as [_ Eac]. apply accept_authorizes in Eac as [Hau _].
    apply (authorized_same (db_of s3)); [|done].
    match type of E with ?m ?s = _ => assert (moves same_roster m) as Hm; [clear E | by apply (Hm _ _ _ E)] end.
    swalk ltac:(first [ apply roster_exchange | apply roster_merge_manifests | apply calm_roster, calm_build
      | apply moves_calm, calm_exchange_files | progress unfold proto | apply respects_lift; exact _ ]).
Qed.

(** C7: A session that succeeds synchronizes.  Both devices were and are members
    of the device's tip; the peer's frames were read in order from the
    stream; and the records afterwards are those of before, merged with the
    records of the manifests that arrived, but for those too far in the
    future. *)
Theorem session_synchronizes connection side config s outcome s' :
  let local := sc_local_endpoint config in
  let remote := conn_remote connection in
  db_wf (db_of s) -> counted s -> run_session_with_outcome connection side config s = (Ok outcome, s') ->
  remote_endpoint outcome = remote /\ db_wf (db_of s') /\
  authorized (db_of s) local remote /\ authorized (db_of s') local remote /\
  exists hello roster manifests requests rest bundle w,
    stream_bytes (ss_recv s) =
      frame FHello hello ++ frame FRoster roster ++ frame FManifests manifests ++ frame FRequests requests ++ rest /\
    manifest_bundle_decode manifests = Ok bundle /\
    winners (db_of s') =
      merge_maps (winners (db_of s)) (timely_records (future_limit config w) (bundle_records bundle)).
Proof.
  intros local remote Hw Hc E. destruct (session_talked _ _ _ _ _ _ Hw Hc E) as [t T].
  destruct (td_heard _ _ _ _ _ _ T) as (heard & (h & r & m & q & _ & _ & Hm & _ & -> & _) & Hr).
  destruct (talked_winners _ _ _ _ _ _ Hw T) as [Hw' Hwin].
  split; [apply T|]. split; [done|]. split; [apply T|]. split.
  - destruct (td_accept _ _ _ _ _ _ T) as (g & _ & Ha). apply accept_authorizes in Ha as [Ha _].
    apply (authorized_same (w_db (tk_accepted t))); [by apply (talked_roster _ _ _ _ _ _ T) | done].
  - exists h, r, m, q, (items_bytes (tk_taken t) ++ frame FDone []), (tk_peer_bundle t), (tk_accepted t).
    split; [|done]. rewrite Hr. unfold frames. cbn [map concat fst snd]. by rewrite app_nil_r, <-!app_assoc.
Qed.
End properties.

(** ** Both ends *)

Section ends.
Context `{Crypto, EventJson, Iroh}.
Context {PA PB : Platform}.
Variables (sa sa' : @Session PA) (sb sb' : @Session PB).
Variables (conn_a conn_b : Connection) (side_a side_b : ConnectionSide) (conf_a conf_b : SessionConfig).
Variables (oa ob : SessionOutcome).
Abbreviation db_a := (w_db (ss_world sa)).
Abbreviation db_b := (w_db (ss_world sb)).

(** Two sessions that succeed, each of which heard the other. *)
Definition both_succeed : Prop :=
  db_wf db_a /\ db_wf db_b /\ hears sa sb sb' /\ hears sb sa sa' /\
  run_session_with_outcome conn_a side_a conf_a sa = (Ok oa, sa') /\
  run_session_with_outcome conn_b side_b conf_b sb = (Ok ob, sb').

Lemma both_talked :
  both_succeed -> exists ta tb,
    talked conf_a (conn_remote conn_a) sa sa' oa ta /\ talked conf_b (conn_remote conn_b) sb sb' ob tb.
Proof.
  intros (Hwa & Hwb & Hab & Hba & Ea & Eb).
  destruct (session_talked _ _ _ _ _ _ Hwa (proj1 Hab) Ea) as [ta Ta].
  destruct (session_talked _ _ _ _ _ _ Hwb (proj1 Hba) Eb) as [tb Tb]. by exists ta, tb.
Qed.

(** C2: Two devices that complete a session with each other agree.  Each runs
    the session on its own world and reads what the other writes.  Afterwards
    both hold the same record of every path of a collection that both have
    attached, namely the greatest that either held before, when no record of
    the collection is too far in the future and the hash separates them; and the
    records of every other collection are untouched. *)
Theorem sessions_agree all c path :
  both_succeed ->
  (attached db_a c -> attached db_b c ->
   hash_separates all -> (forall r, stored db_a r \/ stored db_b r -> rec_collection r = c -> r ∈ all) ->
   (forall r (w : @World PA), stored db_b r -> rec_collection r = c -> timely (future_limit conf_a w) r = true) ->
   (forall r (w : @World PB), stored db_a r -> rec_collection r = c -> timely (future_limit conf_b w) r = true) ->
   winners (w_db (ss_world sa')) !! (c, path) = winners (w_db (ss_world sb')) !! (c, path) /\
   top_at (fun r => stored db_a r \/ stored db_b r) (c, path) (winners (w_db (ss_world sa')) !! (c, path))) /\
  (~ (attached db_a c /\ attached db_b c) ->
   winners (w_db (ss_world sa')) !! (c, path) = winners db_a !! (c, path) /\
   winners (w_db (ss_world sb')) !! (c, path) = winners db_b !! (c, path)).
Proof.
  intros Hboth. destruct (both_talked Hboth) as (ta & tb & Ta & Tb).
  destruct Hboth as (Hwa & Hwb & Hab & Hba & _).
  destruct (met_winners _ _ _ _ _ _ _ _ _ _ _ _ (c, path) Hwa Hwb Hab Hba Ta Tb) as [Hla Hta].
  destruct (met_winners _ _ _ _ _ _ _ _ _ _ _ _ (c, path) Hwb Hwa Hba Hab Tb Ta) as [Hlb Htb].
  cbn [fst] in *. split; [|intros Hn; split; [by apply Hla | apply Hlb; tauto]].
  intros Ha Hb Hsep Hall Hfa Hfb.
  assert (forall P (s : @Session P), db_wf (w_db (ss_world s)) ->
    top_at (stored (w_db (ss_world s))) (c, path) (winners (w_db (ss_world s)) !! (c, path))) as Htop.
  { intros P s Hw. by apply represents_top, held_represents, winners_indexed. }
  assert (forall P (s : @Session P) r, db_wf (w_db (ss_world s)) -> winners (w_db (ss_world s)) !! (c, path) = Some r ->
    stored (w_db (ss_world s)) r /\ rec_collection r = c) as Hst.
  { intros P s r Hw Hr. pose proof (winners_indexed _ Hw _ _ Hr) as Hi. unfold stored. rewrite Hi. split; [done|].
    by injection Hi. }
  assert (top_at (fun r => stored db_a r \/ stored db_b r) (c, path) (winners (w_db (ss_world sa')) !! (c, path))) as HA.
  { apply Hta; [done|done| |by apply Htop..]. intros r Hr w. by apply Hst in Hr as [? ?]; [apply Hfa|]. }
  split; [|done]. apply (top_at_unique _ all _ _ _ Hsep) with (2 := HA); [intros r Hr [= <- _]; by apply Hall|].
  apply (top_at_iff (fun r => stored db_b r \/ stored db_a r)); [tauto|].
  apply Htb; [done|done| |by apply Htop..]. intros r Hr w. by apply Hst in Hr as [? ?]; [apply Hfb|].
Qed.

(** C4: What one device says in a session is what the other hears.  When two
    sessions that heard each other succeed, the hello, the manifests and the
    requests of each device are those the other worked with, and every answer
    to a request, that there is no file or its header and its bytes, is taken
    as it was given: a file is the one that was asked for, with the size and
    the hash its record states. *)
Theorem sessions_transfer :
  both_succeed -> reads_bounded (H1 := PA) -> reads_bounded (H1 := PB) ->
  exists ta tb,
    talked conf_a (conn_remote conn_a) sa sa' oa ta /\ talked conf_b (conn_remote conn_b) sb sb' ob tb /\
    tk_peer ta = tk_hello tb /\ tk_peer tb = tk_hello ta /\
    tk_peer_bundle ta = tk_bundle tb /\ tk_peer_bundle tb = tk_bundle ta /\
    tk_peer_requests ta = tk_requests tb /\ tk_peer_requests tb = tk_requests ta /\
    tk_taken ta = tk_given tb /\ tk_taken tb = tk_given ta /\
    Forall2 taken (tk_requests ta) (tk_given tb) /\ Forall2 taken (tk_requests tb) (tk_given ta).
Proof.
  intros Hboth Ba Bb. destruct (both_talked Hboth) as (ta & tb & Ta & Tb). exists ta, tb.
  destruct Hboth as (Hwa & Hwb & Hab & Hba & _).
  destruct (arrives _ _ _ _ _ _ _ _ _ _ _ _ Hwb Hab Ta Tb) as (Hpa & _ & Hma & Hqa & Hia).
  destruct (arrives _ _ _ _ _ _ _ _ _ _ _ _ Hwa Hba Tb Ta) as (Hpb & _ & Hmb & Hqb & Hib).
  pose proof (met_items _ _ _ _ _ _ _ _ _ _ _ _ Bb Hqb Hia Ta Tb) as Hga.
  pose proof (met_items _ _ _ _ _ _ _ _ _ _ _ _ Ba Hqa Hib Tb Ta) as Hgb.
  do 10 (split; [done|]). rewrite <-Hga, <-Hgb. split; [apply (td_taken _ _ _ _ _ _ Ta) | apply (td_taken _ _ _ _ _ _ Tb)].
Qed.

(** C3: Two devices of a group that complete a session agree on its members.
    There is one chain that the revisions of both devices select; a device
    whose own tip is on it, so that no change of its own was displaced, selects
    exactly that chain after the session. *)
Theorem sessions_share_roster universe g :
  roster_separates universe -> g ∈ universe -> validate_genesis g = Ok tt ->
  both_succeed -> roster_ok universe g db_a -> roster_ok universe g db_b ->
  exists la lb l,
    selected_roster_chain db_a = (Ok (g :: la), db_a) /\ selected_roster_chain db_b = (Ok (g :: lb), db_b) /\
    select_chain g (descendants g db_a ++ descendants g db_b) = Ok l /\
    (List.last la g ∈ g :: l ->
     selected_roster_chain (w_db (ss_world sa')) = (Ok (g :: l), w_db (ss_world sa'))) /\
    (List.last lb g ∈ g :: l ->
     selected_roster_chain (w_db (ss_world sb')) = (Ok (g :: l), w_db (ss_world sb'))).
Proof.
  intros Hsep Hgu Hg Hboth Hra Hrb. destruct (both_talked Hboth) as (ta & tb & Ta & Tb).
  destruct Hboth as (Hwa & Hwb & Hab & Hba & _).
  destruct (arrives _ _ _ _ _ _ _ _ _ _ _ _ Hwb Hab Ta Tb) as (_ & Ea & _).
  destruct (arrives _ _ _ _ _ _ _ _ _ _ _ _ Hwa Hba Tb Ta) as (_ & Eb & _).
  destruct (talked_chain universe Hsep g Hgu Hg _ _ _ _ _ _ Hra Ta) as (la & Hca & Hla).
  destruct (talked_chain universe Hsep g Hgu Hg _ _ _ _ _ _ Hrb Tb) as (lb & Hcb & Hlb).
  assert (tk_peer_chain ta = g :: lb) as Pa
    by (rewrite <-Hcb; by apply (chain_arrives universe Hsep g Hgu Hg _ _ _ _ _ _ _ _ _ _ _ _ Hrb Ta Tb)).
  assert (tk_peer_chain tb = g :: la) as Pb
    by (rewrite <-Hca; by apply (chain_arrives universe Hsep g Hgu Hg _ _ _ _ _ _ _ _ _ _ _ _ Hra Tb Ta)).
  destruct (talked_merges universe Hsep g Hgu Hg _ _ _ _ _ _ la lb Hra Ta Hca Pa) as (da & Hadda & Ha);
    [intros r Hr; apply (selected_universe universe Hsep g Hgu db_b lb r Hrb Hlb); by right | by eapply selected_valid |].
  destruct (talked_merges universe Hsep g Hgu Hg _ _ _ _ _ _ lb la Hrb Tb Hcb Pb) as (db & Haddb & Hb);
    [intros r Hr; apply (selected_universe universe Hsep g Hgu db_a la r Hra Hla); by right | by eapply selected_valid |].
  destruct (selected_union universe Hsep g (descendants g db_a) (descendants g db_b) g la lb) as (l & _ & Hl);
    [done | by apply genesis_number | by apply (descendants_closed universe Hsep g) .. | done | done | done |].
  exists la, lb, l. split; [by apply (selected_complete universe Hsep g Hgu Hg)|].
  split; [by apply (selected_complete universe Hsep g Hgu Hg)|].
  pose proof (fun r => selected_elem _ _ _ r Hla) as Hsa. pose proof (fun r => selected_elem _ _ _ r Hlb) as Hsb. split; [|split].
  - apply select_chain_iff. split; [done|]. apply Hl; intros x; rewrite !elem_of_app; [|done]. intros [?|?]; auto.
  - intros Htip. assert (selected (descendants g da) g l) as Hs.
    { apply (merged_selected universe Hsep g Hgu db_a db_b la lb); auto. }
    apply (select_same da); [by apply (Ha l)|]. by apply (selected_complete universe Hsep g Hgu Hg); [apply Hadda|].
  - intros Htip. assert (selected (descendants g db) g l) as Hs.
    { apply (merged_selected universe Hsep g Hgu db_b db_a lb la); auto.
      intros X HX1 HX2. apply Hl; [|intros x [?|?]%HX2; auto]. intros x Hx. apply HX1. rewrite elem_of_app in *. tauto. }
    apply (select_same db); [by apply (Hb l)|]. by apply (selected_complete universe Hsep g Hgu Hg); [apply Haddb|].
Qed.
End ends.

(** ** An example *)

Section examples.
#[local] Existing Instance toy_crypto.
#[local] Existing Instance terse_json.
#[local] Existing Instance toy_platform.
#[local] Existing Instance toy_iroh.

(** Alice dials Bob, who has a newer record of a file than she has, and who
    cannot send the file. *)
Definition alice_world : World :=
  mkWorld (set_roster (w_db world_a) (roster_t base_db)) toy_empty 0.
Definition alice_config : SessionConfig :=
  mkSessionConfig (lit "/data") (endpoint_id alice) (endpoint_id alice) 1000000000 10 (Some alice) 10.
Definition bob_connection : Connection := mkConnection (endpoint_id bob) (Ok tt) (Ok tt) (Ok tt).
Definition or_empty {E} (r : result bytes E) : bytes := match r with Ok l => l | Err _ => [] end.
Definition bob_says : bytes :=
  frame FHello (or_empty (hello_encode (mkHello [lit "docs"] (arr (eid (endpoint_id bob)))))) ++
  frame FRoster (or_empty (roster_bundle_encode [example_genesis; admit_bob])) ++
  frame FManifests (or_empty (manifest_bundle_encode (built world_b))) ++
  frame FRequests (or_empty (request_bundle_encode [])) ++
  frame FFileUnavailable [] ++ frame FFileUnavailable [] ++ frame FDone [].
Definition alice_session : Session := mkSession alice_world (mkStream bob_says Closed) (mkSink [] None) 0.
Definition alice_run := run_session_with_outcome bob_connection Dialer alice_config alice_session.

Lemma alice_world_wf : db_wf (w_db alice_world).
Proof. apply set_roster_wf, world_a_wf. Qed.

Lemma session_synchronizes_witness :
  authorized (w_db (ss_world alice_run.2)) (endpoint_id alice) (endpoint_id bob).
Proof.
  destruct (run_ok alice_run) as [outcome E]; [vm_compute; reflexivity|].
  apply (session_synchronizes bob_connection Dialer alice_config alice_session outcome _ alice_world_wf
    ltac:(done) E).
Defined.

(** A device without a roster tells nobody anything. *)
Definition lonely_session : Session := mkSession world_a (mkStream bob_says Closed) (mkSink [] None) 0.

Lemma session_private_witness :
  sink_bytes (ss_send (run_session_with_outcome bob_connection Dialer alice_config lonely_session).2) = [].
Proof.
  apply (session_private bob_connection Dialer alice_config lonely_session _ _ world_a_wf (surjective_pairing _)).
  intros (chain & tip & E & Hl & _). vm_compute in E. injection E as <-. done.
Defined.

(** Bob's end of such a session.  He has admitted Carol, which Alice learns. *)
Definition bob_world : World := mkWorld (set_roster (w_db world_b) (roster_t bob_db)) toy_empty 0.
Definition bob_config : SessionConfig :=
  mkSessionConfig (lit "/data") (endpoint_id bob) (endpoint_id bob) 1000000000 10 (Some bob) 10.
Definition alice_connection : Connection := mkConnection (endpoint_id alice) (Ok tt) (Ok tt) (Ok tt).
Definition bob_session : Session := mkSession bob_world (mkStream (sink_bytes (ss_send alice_run.2)) Closed) (mkSink [] None) 0.
Definition bob_run := run_session_with_outcome alice_connection Acceptor bob_config bob_session.
Definition alice_learns : Session :=
  mkSession alice_world (mkStream (sink_bytes (ss_send bob_run.2)) Closed) (mkSink [] None) 0.
Definition alice_learned := run_session_with_outcome bob_connection Dialer alice_config alice_learns.

Lemma bob_world_wf : db_wf (w_db bob_world).
Proof. apply set_roster_wf, world_b_wf. Qed.

Definition same_bytes (a b : bytes) : bool := bool_decide (a = b).
Lemma same_bytes_true a b : same_bytes a b = true -> a = b.
Proof. apply bool_decide_eq_true. Qed.

Lemma alice_and_bob : exists oa ob,
  both_succeed alice_learns alice_learned.2 bob_session bob_run.2 bob_connection alice_connection Dialer Acceptor
    alice_config bob_config oa ob.
Proof.
  destruct (run_ok alice_learned) as [oa Ea]; [vm_compute; reflexivity|].
  destruct (run_ok bob_run) as [ob Eb]; [vm_compute; reflexivity|]. exists oa, ob.
  split; [exact alice_world_wf|]. split; [exact bob_world_wf|].
  split; [split; [done|]; split; reflexivity|]. split; [split; [done|]; split; [reflexivity|]|].
  - apply same_bytes_true. vm_compute. reflexivity.
  - exact (conj Ea Eb).
Qed.

Lemma example_timely r (conf : SessionConfig) w :
  sc_max_future_clock_skew conf = 1000000000 -> r ∈ [example_a; example_b; example_a'] -> timely (future_limit conf w) r = true.
Proof.
  intros Hs Hr. unfold timely, future_limit. rewrite Hs. change (duration_ns 1000000000) with 1000000000.
  assert (rec_modified_ns r <= 5) as Hm.
  { assert (Forall (fun r => rec_modified_ns r <= 5) [example_a; example_b; example_a']) as Hall by (by repeat constructor).
    rewrite Forall_forall in Hall. by apply Hall. }
  apply negb_true_iff, Z.ltb_ge. etransitivity; [exact Hm|]. unfold i64_saturating_add, clock_ns. cbn [clock toy_platform].
  change i64_min with (-9223372036854775808). change i64_max with 9223372036854775807. case_match; boolp; lia.
Qed.

Lemma alice_stored r : stored (w_db alice_world) r -> r ∈ [example_a; example_b; example_a'].
Proof. apply (stored_examples alice_world). vm_compute. reflexivity. Qed.
Lemma bob_stored r : stored (w_db bob_world) r -> r ∈ [example_a; example_b; example_a'].
Proof. apply (stored_examples bob_world). vm_compute. reflexivity. Qed.

Lemma sessions_agree_witness :
  winners (w_db (ss_world alice_learned.2)) !! (lit "docs", lit "a.txt")
  = winners (w_db (ss_world bob_run.2)) !! (lit "docs", lit "a.txt").
Proof.
  destruct alice_and_bob as (oa & ob & Hboth).
  destruct (sessions_agree alice_learns alice_learned.2 bob_session bob_run.2 bob_connection alice_connection Dialer Acceptor
    alice_config bob_config oa ob [example_a; example_b; example_a'] (lit "docs") (lit "a.txt") Hboth) as [Hagree _].
  refine (proj1 (Hagree _ _ _ _ _ _)).
  - apply (proj1 (bool_decide_eq_true (attached _ _))). vm_compute. reflexivity.
  - apply (proj1 (bool_decide_eq_true (attached _ _))). vm_compute. reflexivity.
  - split; [apply example_records_wf|]. apply collision_free_decide. by vm_compute.
  - intros r [Hr|Hr] _; [by apply alice_stored | by apply bob_stored].
  - intros r w Hr _. apply example_timely; [reflexivity | by apply bob_stored].
  - intros r w Hr _. apply example_timely; [reflexivity | by apply alice_stored].
Defined.

Lemma toy_reads : reads_bounded.
Proof.
  intros file n fs chunk fs' Hn E. cbn [file_read toy_platform] in E. unfold toy_read in E. injection E as <- _.
  unfold len. rewrite length_take. lia.
Qed.

Lemma sessions_transfer_witness : exists ta tb : Talk, tk_taken ta = tk_given tb /\ tk_taken tb = tk_given ta.
Proof.
  destruct alice_and_bob as (oa & ob & Hboth).
  destruct (sessions_transfer alice_learns alice_learned.2 bob_session bob_run.2 bob_connection alice_connection Dialer Acceptor
    alice_config bob_config oa ob Hboth toy_reads toy_reads) as (ta & tb & Ta & Tb & Hrest).
  exists ta, tb. split; apply Hrest.
Defined.

Lemma alice_roster : roster_ok example_universe example_genesis (w_db alice_world).
Proof. apply (roster_ok_same example_universe example_genesis base_db); [done | apply base_db_ok]. Qed.
Lemma bob_roster : roster_ok example_universe example_genesis (w_db bob_world).
Proof.
  apply (roster_ok_same example_universe example_genesis bob_db); [done|].
  apply base_child_ok; vm_compute; reflexivity.
Qed.

(** Alice learns that Carol is a member. *)
Lemma sessions_share_roster_witness :
  selected_roster_chain (w_db (ss_world alice_learned.2))
  = (Ok [example_genesis; admit_bob; admit_carol], w_db (ss_world alice_learned.2)).
Proof.
  destruct alice_and_bob as (oa & ob & Hboth).
  destruct (sessions_share_roster alice_learns alice_learned.2 bob_session bob_run.2 bob_connection alice_connection Dialer Acceptor
    alice_config bob_config oa ob example_universe example_genesis example_separated example_genesis_in example_genesis_valid
    Hboth alice_roster bob_roster) as (la & lb & l & Ha & _ & Hl & Hs & _).
  assert (select_chain example_genesis
    (descendants example_genesis (w_db (ss_world alice_learns)) ++ descendants example_genesis (w_db (ss_world bob_session)))
    = Ok [admit_bob; admit_carol]) as Hl' by evaluate.
  rewrite Hl in Hl'. apply Ok_inj in Hl' as ->. apply Hs.
  assert (selected_roster_chain (w_db (ss_world alice_learns)) = (Ok [example_genesis; admit_bob], w_db (ss_world alice_learns)))
    as Ha' by evaluate.
  rewrite Ha in Ha'. apply (f_equal fst), Ok_inj, (f_equal tail) in Ha'. cbn [tail fst] in Ha'. rewrite Ha'.
  right. left.
Defined.
End examples.
