(* ===== verification/Join.v ===== *)
(** join.rs: joining a group.  The coordinator of invitations, the payload of an
    approval, and the two ends of a join over a stream.

    Base64 and serde_json are crates: [JoinCodec] has an operation per call the
    sources make, [JoinCodecLaws] that what was written is read back.  Times
    are in nanoseconds; every reading of [Instant::now] is an argument. *)

From S2P Require Import Prelude Bytes Utf8 Cursor Canonical Path Identity Records Roster Protocol.
From S2P Require Import Database State RosterStore Platform Installer Sync.

Definition JOIN_REQUEST_LIMIT : Z := 32 * 1024.
Definition JOIN_RESPONSE_LIMIT : Z := MAX_ROSTER_BYTES * 4 / 3 + 1 + 512 * 1024.
Definition MAX_JOIN_HINT_TEXT_BYTES : Z := 200 * 1024.
Definition MAX_DEVICE_NAME_BYTES : Z := 255.
Definition SECOND : Z := 1000000000.
Definition MAX_INVITATION_LIFETIME : Z := 900 * SECOND.

Inductive JoinError :=
  | InvalidInvitationLifetime
  | InvitationBusy
  | InvitationUnavailable
  | UnknownJoinRequest
  | JoinerGone
  | InvalidJoinDeviceName
  | WrongInviter
  | JRejected
  | JInvalidRoster
  | InvalidAddress
  | InvalidFrame
  | FrameTooLarge
  | JTimeout
  | JTransport
  | JCoordinator     (* a poisoned lock, which no operation leaves *)
  | JInvalidTicket
  | JBind
  | JState (e : StateError).

(** ** The nonce of an invitation *)

(** [SecretNonce::matches] looks at all 32 bytes: it collects their differences
    and compares at the end. *)
Fixpoint nonce_difference (a b : bytes) (difference : Z) : Z :=
  match a, b with
  | x :: a, y :: b => nonce_difference a b (Z.lor difference (Z.lxor (byteZ x) (byteZ y)))
  | _, _ => difference
  end.
Definition nonce_matches (nonce other : array 32) : bool := nonce_difference (arr nonce) (arr other) 0 =? 0.

(** ** Device names *)

Definition terminal_unsafe_character (c : Z) : bool :=
  is_control c || (c =? 0x61C) || (c =? 0x200E) || (c =? 0x200F) || (c =? 0x2028) || (c =? 0x2029)
  || between 0x202A 0x202E c || between 0x2066 0x2069 c.

Definition validate_join_device_name (device_name : bytes) : result unit JoinError :=
  if trim_is_empty device_name || (MAX_DEVICE_NAME_BYTES <? len device_name)
     || existsb terminal_unsafe_character (chars device_name)
  then Err InvalidJoinDeviceName else Ok tt.

(** The lower case hexadecimal digits of a scalar value, as [{:x}] prints them;
    scalar values have at most six. *)
Fixpoint hex_loop (fuel : nat) (n : Z) (acc : list Z) : list Z :=
  match fuel with
  | O => acc
  | S fuel =>
      let acc := byteZ (hex_digit (n mod 16)) :: acc in
      if n <? 16 then acc else hex_loop fuel (n / 16) acc
  end.
Definition hex_text (n : Z) : list Z := hex_loop 6 n [].

(** The characters of [terminal_safe_device_name]. *)
Definition render_character (c : Z) : list Z :=
  if terminal_unsafe_character c
  then [0x5C; 0x75; 0x7B] ++ hex_text c ++ [0x7D]
  else [c].
Definition terminal_safe_device_name (device_name : bytes) : list Z :=
  flat_map render_character (chars device_name).

(** ** Messages *)

Record JoinRequest := mkJoinRequest { jr_nonce : array 32; jr_device_name : bytes; jr_endpoint_addr_json : bytes }.
Record JoinResponse := mkJoinResponse {
  jp_approved : bool;
  jp_roster : bytes;
  jp_peer_hints : gmap bytes bytes;
}.
Record JoinAck := mkJoinAck { ja_accepted : bool }.

Class JoinCodec := {
  base64_encode : bytes -> bytes;
  base64_decode : bytes -> option bytes;
  request_to_json : JoinRequest -> option bytes;
  request_from_json : bytes -> option JoinRequest;
  response_to_json : JoinResponse -> option bytes;
  response_from_json : bytes -> option JoinResponse;
  ack_to_json : JoinAck -> option bytes;
  ack_from_json : bytes -> option JoinAck;
}.

Class JoinCodecLaws `{JoinCodec} : Prop := {
  base64_roundtrip l : base64_decode (base64_encode l) = Some l;
  base64_nonempty l : l <> [] -> base64_encode l <> [];
  request_roundtrip x l : request_to_json x = Some l -> request_from_json l = Some x;
  response_roundtrip x l : response_to_json x = Some l -> response_from_json l = Some x;
  ack_roundtrip x l : ack_to_json x = Some l -> ack_from_json l = Some x;
}.

(** What the coordinator hands to the waiting end. *)
Inductive JoinDecision :=
  | DRejected
  | DApproved (roster : bytes) (peer_hints : gmap bytes bytes).

Section payload.
Context `{Crypto, Iroh, JoinCodec}.

Definition validate_endpoint_addr (encoded : bytes) (endpoint : EndpointId) : result unit JoinError :=
  if bool_decide (encoded = []) || (16 * 1024 <? len encoded) then Err InvalidAddress
  else
    let? addr := ok_or (addr_from_json encoded) InvalidAddress in
    if bool_decide (addr_id addr <> endpoint) || (MAX_ENDPOINT_ADDRS <? addr_count addr)
    then Err InvalidAddress else Ok tt.

Definition encode_roster (revisions : list RosterRevision) : result bytes JoinError :=
  let? canonical := map_err (fun _ => JInvalidRoster) (roster_bundle_encode revisions) in
  Ok (base64_encode canonical).

Definition decode_roster (encoded : bytes) : result (list RosterRevision) JoinError :=
  if bool_decide (encoded = []) then Err JInvalidRoster
  else
    let? canonical := ok_or (base64_decode encoded) JInvalidRoster in
    if MAX_ROSTER_BYTES <? len canonical then Err JInvalidRoster
    else map_err (fun _ => JInvalidRoster) (roster_bundle_decode canonical).

(** The loop over the hints: the bytes of their text. *)
Fixpoint validate_hint_texts (tip : RosterRevision) (hints : list (bytes * bytes)) (hint_text_bytes : Z)
    : result Z JoinError :=
  match hints with
  | [] => Ok hint_text_bytes
  | (endpoint, hint) :: hints =>
      let? endpoint_id := map_err (fun _ => InvalidAddress) (eid_from_str endpoint) in
      if bool_decide (rev_members tip !! endpoint_id = None) then Err InvalidAddress
      else
        let? n := ok_or (u64_checked_add hint_text_bytes (len endpoint)) FrameTooLarge in
        let? _ := validate_endpoint_addr hint endpoint_id in
        let? n := ok_or (u64_checked_add n (len hint)) FrameTooLarge in
        validate_hint_texts tip hints n
  end.

Definition validate_approval_payload (roster : list RosterRevision) (encoded_roster : bytes)
    (peer_hints : gmap bytes bytes) : result unit JoinError :=
  let? tip := ok_or (last roster) JInvalidRoster in
  let? hint_text_bytes := validate_hint_texts tip (items peer_hints) 0 in
  if MAX_JOIN_HINT_TEXT_BYTES <? hint_text_bytes then Err FrameTooLarge
  else
    let? text := ok_or (response_to_json (mkJoinResponse true encoded_roster peer_hints)) InvalidFrame in
    if JOIN_RESPONSE_LIMIT <? len text then Err FrameTooLarge else Ok tt.

(** [JoinDecision::approved] *)
Definition decision_approved (roster : list RosterRevision) (peer_hints : gmap bytes bytes)
    : result JoinDecision JoinError :=
  let? encoded_roster := encode_roster roster in
  let? _ := validate_approval_payload roster encoded_roster peer_hints in
  Ok (DApproved encoded_roster peer_hints).
End payload.

(** ** The coordinator *)

Record PendingJoinInfo := mkPendingInfo {
  pi_request_id : bytes;
  pi_endpoint_id : EndpointId;
  pi_device_name : bytes;
}.

(** The oneshot channel of a claim is named by a number. *)
Record PendingJoin := mkPending {
  pj_info : PendingJoinInfo;
  pj_endpoint_addr_json : bytes;
  pj_decision : nat;
  pj_deadline : Z;
}.

Inductive JoinState :=
  | JIdle
  | JActive (nonce : array 32) (deadline : Z)
  | JPending (pending : PendingJoin).

Definition expire_locked (now : Z) (st : JoinState) : JoinState :=
  let expired :=
    match st with
    | JIdle => false
    | JActive _ deadline => deadline <=? now
    | JPending pending => pj_deadline pending <=? now
    end in
  if expired then JIdle else st.

Definition activate (t1 t2 : Z) (nonce : array 32) (lifetime : Z) (st : JoinState)
    : result unit JoinError * JoinState :=
  if negb ((60 * SECOND <=? lifetime) && (lifetime <=? MAX_INVITATION_LIFETIME))
  then (Err InvalidInvitationLifetime, st)
  else
    match expire_locked t1 st with
    | JIdle => (Ok tt, JActive nonce (t2 + lifetime))
    | st => (Err InvitationBusy, st)
    end.

Definition pending (t : Z) (st : JoinState) : option PendingJoinInfo * JoinState :=
  match expire_locked t st with
  | JPending p => (Some (pj_info p), JPending p)
  | st => (None, st)
  end.

Definition pending_addr (t : Z) (request_id : bytes) (st : JoinState)
    : result (PendingJoinInfo * bytes) JoinError * JoinState :=
  match expire_locked t st with
  | JPending p =>
      if bool_decide (pi_request_id (pj_info p) <> request_id) then (Err UnknownJoinRequest, JPending p)
      else (Ok (pj_info p, pj_endpoint_addr_json p), JPending p)
  | st => (Err UnknownJoinRequest, st)
  end.

(** The channel and the decision sent on it, besides the result; the receiver
    may be gone. *)
Definition decide_join (t : Z) (request_id : bytes) (decision : JoinDecision) (receiver_alive : bool)
    (st : JoinState) : result unit JoinError * option (nat * JoinDecision) * JoinState :=
  match expire_locked t st with
  | JPending p =>
      if bool_decide (pi_request_id (pj_info p) <> request_id) then (Err UnknownJoinRequest, None, JPending p)
      else if receiver_alive then (Ok tt, Some (pj_decision p, decision), JIdle)
      else (Err JoinerGone, None, JIdle)
  | st => (Err UnknownJoinRequest, None, st)
  end.

Definition cancel (request_id : bytes) (st : JoinState) : JoinState :=
  match st with
  | JPending p => if bool_decide (pi_request_id (pj_info p) = request_id) then JIdle else JPending p
  | st => st
  end.

Section coordinator.
Context `{Iroh}.

(** [fresh_id] is the generated identifier, [channel] the new channel. *)
Definition claim (t1 t2 : Z) (nonce : array 32) (remote_endpoint : EndpointId) (device_name endpoint_addr_json : bytes)
    (fresh_id : bytes) (channel : nat) (st : JoinState) : result (nat * Z * bytes) JoinError * JoinState :=
  match (let? _ := validate_join_device_name device_name in validate_endpoint_addr endpoint_addr_json remote_endpoint)
  with
  | Err e => (Err e, st)
  | Ok _ =>
      match expire_locked t1 st with
      | JActive expected deadline =>
          if negb (nonce_matches expected nonce) then (Err InvitationUnavailable, JActive expected deadline)
          else
            let remaining := Z.max 0 (deadline - t2) in
            if remaining =? 0 then (Err InvitationUnavailable, JActive expected deadline)
            else
              (Ok (channel, remaining, fresh_id),
               JPending (mkPending (mkPendingInfo fresh_id remote_endpoint device_name) endpoint_addr_json channel deadline))
      | st => (Err InvitationUnavailable, st)
      end
  end.
End coordinator.
