(* ===== verification/Joining.v ===== *)
(** join.rs: the two ends of a join over a stream, and network.rs: the approval a
    member of the group builds for a joining device. *)

From S2P Require Import Prelude Bytes Utf8 Cursor Canonical Path Identity Records Roster Protocol.
From S2P Require Import Database State RosterStore Platform Installer Sync Join.

(** ** One end of a stream, with the state store *)

Record JoinEnd := mkEnd { je_db : Database; je_recv : Stream; je_send : Sink }.

Definition JIO (A : Type) : Type := JoinEnd -> result A JoinError * JoinEnd.

Definition jret {A} (a : A) : JIO A := fun s => (Ok a, s).
Definition jlift {A} (r : result A JoinError) : JIO A := fun s => (r, s).
Definition jbind {A B} (m : JIO A) (f : A -> JIO B) : JIO B :=
  fun s =>
    match m s with
    | (Ok a, s) => f a s
    | (Err e, s) => (Err e, s)
    end.
Definition jdb {A} (m : Db A) : JIO A :=
  fun s => let '(r, db) := m (je_db s) in (map_err JState r, mkEnd db (je_recv s) (je_send s)).

Declare Scope join_scope.
Delimit Scope join_scope with join.
Notation "x <~~ m ;; k" := (jbind m (fun x => k))
  (at level 100, m at next level, right associativity) : join_scope.
Open Scope join_scope.

Definition join_transport (e : ProtocolError) : JoinError :=
  match e with Timeout => JTimeout | _ => JTransport end.

Definition join_write (l : bytes) : JIO unit :=
  fun s =>
    match write_all l (je_send s) with
    | Ok sink => (Ok tt, mkEnd (je_db s) (je_recv s) sink)
    | Err e => (Err (join_transport e), s)
    end.
Fixpoint join_write_chunks (l : list bytes) : JIO unit :=
  match l with
  | [] => jret tt
  | chunk :: l => _ <~~ join_write chunk ;; join_write_chunks l
  end.

Definition join_read (n : Z) : JIO bytes :=
  fun s =>
    match read_exact n (je_recv s) with
    | Ok (l, recv) => (Ok l, mkEnd (je_db s) recv (je_send s))
    | Err e => (Err (join_transport e), s)
    end.
Fixpoint join_read_chunks (sizes : list Z) : JIO bytes :=
  match sizes with
  | [] => jret []
  | n :: sizes => chunk <~~ join_read n ;; rest <~~ join_read_chunks sizes ;; jret (chunk ++ rest)
  end.

(** [text] is what serde_json makes of the value. *)
Definition write_json (text : option bytes) (limit : Z) : JIO unit :=
  l <~~ jlift (ok_or text InvalidFrame) ;;
  if limit <? len l then jlift (Err FrameTooLarge)
  else
    length <~~ jlift (ok_or (u32_try_from (len l)) FrameTooLarge) ;;
    _ <~~ join_write (u32_be length) ;;
    join_write_chunks (chunks (Z.to_nat CHUNK) l).

Definition read_json {T} (parse : bytes -> option T) (limit : Z) : JIO T :=
  first <~~ join_read 1 ;;
  rest <~~ join_read 3 ;;
  let length := from_be (first ++ rest) in
  if limit <? length then jlift (Err FrameTooLarge)
  else
    l <~~ join_read_chunks (chunk_sizes length) ;;
    jlift (ok_or (parse l) InvalidFrame).

Definition expect_stream_end : JIO unit :=
  fun s =>
    match stream_bytes (je_recv s), stream_stop (je_recv s) with
    | [], Closed => (Ok tt, s)
    | [], Stalled => (Err JTimeout, s)
    | [], Reset => (Err JTransport, s)
    | _ :: _, _ => (Err InvalidFrame, s)
    end.

Section ends.
Context `{Crypto, Iroh, JoinCodec}.

(** ** The joining device *)

Fixpoint validate_hints_of (tip : RosterRevision) (local : EndpointId) (hints : list (bytes * bytes))
    : result (list (EndpointId * bytes)) JoinError :=
  match hints with
  | [] => Ok []
  | (endpoint, hint) :: hints =>
      let? endpoint := map_err (fun _ => InvalidAddress) (eid_from_str endpoint) in
      if bool_decide (rev_members tip !! endpoint = None) || bool_decide (endpoint = local) then Err InvalidAddress
      else
        let? _ := validate_endpoint_addr hint endpoint in
        let? validated_hints := validate_hints_of tip local hints in
        Ok ((endpoint, hint) :: validated_hints)
  end.

(** The checks of an approving response. *)
Definition check_approval (local inviter : EndpointId) (device_name : bytes) (response : JoinResponse)
    : result (list RosterRevision * list (EndpointId * bytes)) JoinError :=
  let? roster := decode_roster (jp_roster response) in
  let? tip := ok_or (last roster) JInvalidRoster in
  if bool_decide (rev_members tip !! local <> Some device_name) || bool_decide (rev_members tip !! inviter = None)
  then Err JInvalidRoster
  else
    let? validated_hints := validate_hints_of tip local (items (jp_peer_hints response)) in
    if negb (existsb (fun x => bool_decide (x.1 = inviter)) validated_hints) then Err InvalidAddress
    else Ok (roster, validated_hints).

(** [connected] and [opened] are what the transport reports: the identifier of
    the peer, and the opening of the stream; [finished] the end of sending. *)
Definition run_joiner_on_endpoint (local inviter : EndpointId) (local_addr : EndpointAddr)
    (connected : result EndpointId JoinError) (opened finished : result unit JoinError)
    (nonce : array 32) (device_name : bytes) : JIO EndpointId :=
  remote <~~ jlift connected ;;
  if bool_decide (remote <> inviter) then jlift (Err WrongInviter)
  else
    _ <~~ jlift opened ;;
    endpoint_addr_json <~~ jlift (ok_or (addr_to_json local_addr) InvalidAddress) ;;
    _ <~~ write_json (request_to_json (mkJoinRequest nonce device_name endpoint_addr_json)) JOIN_REQUEST_LIMIT ;;
    response <~~ read_json response_from_json JOIN_RESPONSE_LIMIT ;;
    if negb (jp_approved response) then
      _ <~~ expect_stream_end ;;
      jlift (Err JRejected)
    else
      checked <~~ jlift (check_approval local inviter device_name response) ;;
      let '(roster, validated_hints) := checked in
      _ <~~ jdb (install_or_resume_joined_state roster local device_name validated_hints) ;;
      _ <~~ write_json (ack_to_json (mkJoinAck true)) JOIN_REQUEST_LIMIT ;;
      _ <~~ jlift finished ;;
      _ <~~ expect_stream_end ;;
      jret inviter.

(** [run_joiner]: the device name is checked first; the ticket and the endpoint
    are iroh's.  Binding the endpoint is part of [connected], which nothing
    separates from it. *)
Definition run_joiner (local : EndpointId) (ticket : result EndpointId JoinError) (local_addr : EndpointAddr)
    (connected : result EndpointId JoinError) (opened finished : result unit JoinError)
    (nonce : array 32) (device_name : bytes) : JIO EndpointId :=
  _ <~~ jlift (validate_join_device_name device_name) ;;
  inviter <~~ jlift ticket ;;
  run_joiner_on_endpoint local inviter local_addr connected opened finished nonce device_name.

(** ** The inviting device *)

(** What [select!] yields while the decision is awaited. *)
Inductive Waited :=
  | WDecided (decision : JoinDecision)
  | WSenderGone
  | WElapsed
  | WClosed.

Definition response_of (decision : JoinDecision) : JoinResponse :=
  match decision with
  | DApproved roster peer_hints => mkJoinResponse true roster peer_hints
  | DRejected => mkJoinResponse false [] ∅
  end.

(** The acknowledgement of the joining device. *)
Definition read_ack : JIO unit :=
  ack <~~ read_json ack_from_json JOIN_REQUEST_LIMIT ;;
  if negb (ja_accepted ack) then jlift (Err InvalidFrame) else expect_stream_end.

(** The answer, from the decision on. *)
Definition answer_join (decision : JoinDecision) (finished : result unit JoinError) (remote_endpoint : EndpointId)
    : JIO EndpointId :=
  let response := response_of decision in
  _ <~~ write_json (response_to_json response) JOIN_RESPONSE_LIMIT ;;
  if negb (jp_approved response) then
    _ <~~ jlift finished ;;
    jlift (Err JRejected)
  else
    _ <~~ read_ack ;;
    _ <~~ jlift finished ;;
    jret remote_endpoint.

(** The end and the coordinator; [waited] and [meanwhile] say what the wait
    yields and what others made of the coordinator until then. *)
Definition run_inviter (remote_endpoint : EndpointId) (opened finished : result unit JoinError)
    (t1 t2 : Z) (fresh_id : bytes) (channel : nat) (waited : Waited) (meanwhile : JoinState -> JoinState)
    (s : JoinEnd) (coordinator : JoinState) : result EndpointId JoinError * JoinEnd * JoinState :=
  match (_ <~~ jlift opened ;; read_json request_from_json JOIN_REQUEST_LIMIT) s with
  | (Err e, s) => (Err e, s, coordinator)
  | (Ok request, s) =>
      match claim t1 t2 (jr_nonce request) remote_endpoint (jr_device_name request) (jr_endpoint_addr_json request)
              fresh_id channel coordinator with
      | (Err e, coordinator) => (Err e, s, coordinator)
      | (Ok (_, _, request_id), coordinator) =>
          let coordinator := meanwhile coordinator in
          match waited with
          | WSenderGone => (Err JoinerGone, s, coordinator)
          | WElapsed => (Err InvitationUnavailable, s, cancel request_id coordinator)
          | WClosed => (Err JoinerGone, s, cancel request_id coordinator)
          | WDecided decision =>
              let '(r, s) := answer_join decision finished remote_endpoint s in
              (r, s, coordinator)
          end
      end
  end.
End ends.
