(* ===== verification/Network.v ===== *)
(** network.rs: the approval of a joining device, membership changes, and the
    outcome of sessions.  The loop that runs them is in NetworkLoop.v. *)

From S2P Require Import Prelude Bytes Utf8 Cursor Canonical Path Identity Records Roster Protocol.
From S2P Require Import Database State RosterStore Platform Installer Sync Join.

Inductive NetworkError :=
  | NRuntime (e : IoError)
  | StartupTimeout
  | NStopped
  | NBusy
  | NSyncTimeout
  | ThreadPanicked
  | IdentityMismatch
  | InvalidRelayUrl
  | InvalidAddressLookupUrl
  | NBind
  | ConnectTimeout
  | NMissingRoster
  | CannotRemoveSelf
  | MemberNameMismatch
  | RemovedMember
  | NState (e : StateError)
  | NSync (e : SyncError)
  | NJson
  | NJoin (e : JoinError)
  | NRoster (e : RosterError)
  | NSetup
  | NConnect
  | NIo (e : IoError).

Section network.
Context `{Crypto, EventJson, Platform, Iroh, JoinCodec}.

Definition nstate {A} (m : Db A) : IO NetworkError A := imap_err NState (on_db m).

Definition decode_peer_hint (encoded : bytes) (peer : EndpointId) : option EndpointAddr :=
  if bool_decide (encoded = []) || (MAX_ADDRESS_HINT_BYTES <? len encoded) then None
  else
    addr ← addr_from_json encoded;
    if bool_decide (addr_id addr <> peer) || (MAX_ENDPOINT_ADDRS <? addr_count addr) then None else Some addr.

(** ** Approving a join *)

(** The loop over the members, in the order of their identifiers. *)
Fixpoint collect_hints (joiner local : EndpointId) (local_addr_json : bytes) (members : list EndpointId)
    (peer_hints : gmap bytes bytes) : IO NetworkError (gmap bytes bytes) :=
  match members with
  | [] => iret peer_hints
  | endpoint :: members =>
      if bool_decide (endpoint = joiner) then collect_hints joiner local local_addr_json members peer_hints
      else
        hint <== (if bool_decide (endpoint = local) then iret (Some local_addr_json)
                  else
                    stored <== nstate (peer_hint endpoint) ;;
                    iret (hint ← stored; _ ← decode_peer_hint hint endpoint; Some hint)) ;;
        collect_hints joiner local local_addr_json members
          (match hint with
           | Some hint => <[eid_to_string endpoint := hint]> peer_hints
           | None => peer_hints
           end)
  end.

Definition approval_peer_hints (info : PendingJoinInfo) (identity : DeviceIdentity) (local_addr_json : bytes)
    : IO NetworkError (gmap bytes bytes) :=
  roster <== nstate selected_roster_chain ;;
  tip <== ilift (ok_or (last roster) NMissingRoster) ;;
  collect_hints (pi_endpoint_id info) (endpoint_id identity) local_addr_json (map fst (items (rev_members tip))) ∅.

Definition build_join_approval_in (stored_identity : option DeviceIdentity) (local_addr_json : bytes)
    (info : PendingJoinInfo) (joiner_addr : bytes) : IO NetworkError JoinDecision :=
  identity <== ilift (ok_or stored_identity NSetup) ;;
  roster <== nstate selected_roster_chain ;;
  tip <== ilift (ok_or (last roster) NMissingRoster) ;;
  let active_name := rev_members tip !! pi_endpoint_id info in
  if match active_name with Some name => bool_decide (name <> pi_device_name info) | None => false end
  then ifail MemberNameMismatch
  else if bool_decide (active_name = None)
          && existsb (fun revision => bool_decide (is_Some (rev_members revision !! pi_endpoint_id info))) roster
  then ifail RemovedMember
  else
    peer_hints <== approval_peer_hints info identity local_addr_json ;;
    _ <== (if bool_decide (active_name = None) then
             member <== ilift (map_err NRoster (member_new (pi_endpoint_id info) (pi_device_name info))) ;;
             let change := Admit member in
             candidate <== ilift (map_err NRoster (child tip change identity)) ;;
             _ <== ilift (map_err NJoin (decision_approved (roster ++ [candidate]) peer_hints)) ;;
             _ <== nstate (apply_roster_change_with_peer_hint identity change (pi_endpoint_id info) joiner_addr) ;;
             iret tt
           else nstate (replace_peer_hint (pi_endpoint_id info) joiner_addr)) ;;
    roster <== nstate selected_roster_chain ;;
    if bool_decide ((tip ← last roster; rev_members tip !! pi_endpoint_id info) <> Some (pi_device_name info))
    then ifail MemberNameMismatch
    else
      peer_hints <== approval_peer_hints info identity local_addr_json ;;
      ilift (map_err NJoin (decision_approved roster peer_hints)).

(** ** Whom to synchronize with, and where *)

(** [peer_target]: the stored hint, or the identifier alone, made by iroh. *)
Definition peer_target (bare : EndpointId -> result EndpointAddr NetworkError) (peer : EndpointId)
    : IO NetworkError EndpointAddr :=
  hint <== nstate (peer_hint peer) ;;
  match (hint ← hint; decode_peer_hint hint peer) with
  | Some addr => iret addr
  | None => ilift (bare peer)
  end.

Definition active_peers (local_endpoint : EndpointId) : IO NetworkError (list EndpointId) :=
  chain <== nstate selected_roster_chain ;;
  tip <== ilift (ok_or (last chain) NMissingRoster) ;;
  iret (List.filter (fun peer => bool_decide (peer <> local_endpoint)) (map fst (items (rev_members tip)))).

(** ** The outcome of a session *)

Inductive TaskDirection := Incoming | Outgoing.

Inductive TaskOutcome :=
  | Synchronized (reconcile : bool)
  | Unreachable
  | Rejected (reconcile : bool)
  | LocalFailure.

Definition outcome_from_sync (r : result bool SyncError) : TaskOutcome :=
  match r with
  | Ok reconcile => Synchronized reconcile
  | Err RosterChangedAndUnauthorizedPeer => Rejected true
  | Err error =>
      if is_local_failure error then LocalFailure
      else if negb (is_connectivity_failure error) then Rejected false
      else Unreachable
  end.

Definition outcome_succeeded (o : TaskOutcome) : bool := match o with Synchronized _ => true | _ => false end.

Definition outcome_reconcile_again (o : TaskOutcome) : bool :=
  match o with Synchronized true | Rejected true => true | _ => false end.

Definition outcome_event (o : TaskOutcome) (peer : EndpointId) : OperationalEvent :=
  match o with
  | Synchronized _ => PeerSynchronized peer
  | Unreachable => PeerUnreachable peer
  | Rejected _ => PeerRejected peer
  | LocalFailure => PeerSessionFailed peer
  end.

(** [record_attempt]; the failure of the log is ignored. *)
Definition record_attempt (max_logs : Z) (peer : EndpointId) : IO NetworkError unit :=
  now <== now_ns ;;
  _ <== iresult (F := NetworkError) (nstate (append_log now (PeerAttempted peer) max_logs)) ;;
  iret tt.

(** The outcome of an outgoing task: the errors of the session are judged, the
    others count as unreachable. *)
Definition outgoing_outcome (result : result bool NetworkError) : TaskOutcome :=
  match result with
  | Ok reconcile_again => outcome_from_sync (Ok reconcile_again)
  | Err (NSync error) => outcome_from_sync (Err error)
  | Err _ => Unreachable
  end.

Record TaskResult := mkTaskResult {
  tr_peer : option EndpointId;
  tr_direction : TaskDirection;
  tr_outcome : TaskOutcome;
}.

(** [spawn_outgoing] up to the connection, and its result after the session. *)
Definition outgoing_result (peer : EndpointId) (result : result bool NetworkError) : TaskResult :=
  mkTaskResult (Some peer) Outgoing (outgoing_outcome result).

(** [spawn_incoming]: which protocol the peer asked for, and how it ended. *)
Inductive IncomingProtocol :=
  | JoinProtocol (result : result EndpointId JoinError)
  | SyncProtocol (result : result bool SyncError)
  | OtherProtocol.
Definition incoming_result (connection : option (EndpointId * IncomingProtocol)) : TaskResult :=
  match connection with
  | Some (peer, JoinProtocol result) =>
      mkTaskResult (Some peer) Incoming (if is_ok result then Synchronized false else Rejected false)
  | Some (peer, SyncProtocol result) => mkTaskResult (Some peer) Incoming (outcome_from_sync result)
  | Some (peer, OtherProtocol) => mkTaskResult (Some peer) Incoming (Rejected false)
  | None => mkTaskResult None Incoming Unreachable
  end.

(** The health and the log after a session; every failure is ignored. *)
Definition record_result (max_logs : Z) (peer : option EndpointId) (outcome : TaskOutcome) : IO NetworkError unit :=
  match peer with
  | None => iret tt
  | Some peer =>
      let event := outcome_event outcome peer in
      let rejected := match outcome with Rejected _ => true | _ => false end in
      chain <== iresult (nstate selected_roster_chain) ;;
      let active :=
        match chain with
        | Ok chain => match last chain with Some tip => bool_decide (is_Some (rev_members tip !! peer)) | None => false end
        | Err _ => false
        end in
      if active then
        now <== now_ns ;;
        _ <== iresult (F := NetworkError) (nstate (record_peer_health peer (outcome_succeeded outcome) now event max_logs)) ;;
        iret tt
      else if rejected then
        now <== now_ns ;;
        _ <== iresult (F := NetworkError) (nstate (append_log now event max_logs)) ;;
        iret tt
      else iret tt
  end.
End network.
