(* ===== verification/NetworkLoop.v ===== *)
(** network.rs: the loop of the network thread.

    One turn of [run_network_loop] takes the commands that have arrived, starts
    a round when one is pending and answers the waiting requests when nothing
    is outgoing any more; then [select!] yields one event.  The tasks, the
    channels and the timers are the environment: it chooses the commands, the
    readings of the clock and the events, and it sees the effects.  Between two
    steps of the loop others may write the database. *)

From S2P Require Import Prelude Bytes Utf8 Cursor Canonical Path Identity Records Roster Protocol.
From S2P Require Import Database State RosterStore Platform Installer Sync Join Network.

(** ** The state of the loop *)

Record SyncSummary := mkSummary { attempted : Z; succeeded : Z }.
#[global] Instance SyncSummary_eq_dec : EqDecision SyncSummary.
Proof. solve_decision. Defined.
Definition summary_default : SyncSummary := mkSummary 0 0.

(** The channel a command is completed on is named by a number. *)
Inductive NetworkCommand :=
  | CTrigger
  | CSync (completed : nat)
  | CShutdown (completed : nat).

Record LoopState := mkLoop {
  outgoing : gset EndpointId;
  waiters : list nat;
  pending_trigger : bool;
  deferred_trigger : bool;
  summary : SyncSummary;
  stopping : option nat;
  next_periodic : Z;
}.

#[global] Instance LoopState_eq_dec : EqDecision LoopState.
Proof. solve_decision. Defined.

Definition loop_init (now interval : Z) : LoopState :=
  mkLoop ∅ [] true false summary_default None (now + interval).

Inductive LoopEffect :=
  | ESpawnOutgoing (peer : EndpointId)
  | ESpawnIncoming
  | EAnswer (waiter : nat) (answer : SyncSummary)
  | EAborted (completed : nat).

#[global] Instance LoopEffect_eq_dec : EqDecision LoopEffect.
Proof. solve_decision. Defined.

(** ** One turn *)

Definition set_pending (b : bool) (st : LoopState) : LoopState :=
  mkLoop (outgoing st) (waiters st) b (deferred_trigger st) (summary st) (stopping st) (next_periodic st).

Definition handle_command (st : LoopState) (command : NetworkCommand) : LoopState :=
  match command with
  | CTrigger =>
      if bool_decide (waiters st = []) then set_pending true st
      else mkLoop (outgoing st) (waiters st) (pending_trigger st) true (summary st) (stopping st) (next_periodic st)
  | CSync completed =>
      let st :=
        if bool_decide (waiters st = [])
        then mkLoop (outgoing st) (waiters st) true (deferred_trigger st)
               (mkSummary (Z.of_nat (size (outgoing st))) 0) (stopping st) (next_periodic st)
        else st in
      mkLoop (outgoing st) (waiters st ++ [completed]) (pending_trigger st) (deferred_trigger st) (summary st)
        (stopping st) (next_periodic st)
  | CShutdown completed =>
      mkLoop (outgoing st) (waiters st) (pending_trigger st) (deferred_trigger st) (summary st) (Some completed)
        (next_periodic st)
  end.

(** [t1] and [t2] are the two readings of the clock. *)
Definition check_periodic (t1 t2 interval : Z) (st : LoopState) : LoopState :=
  if next_periodic st <=? t1 then
    mkLoop (outgoing st) (waiters st) (if bool_decide (waiters st = []) then true else pending_trigger st)
      (deferred_trigger st) (summary st) (stopping st) (t2 + interval)
  else st.

(** The loop over the peers of a round. *)
Fixpoint start_peers (peers : list EndpointId) (st : LoopState) : list LoopEffect * LoopState :=
  match peers with
  | [] => ([], st)
  | peer :: peers =>
      if bool_decide (peer ∈ outgoing st) then start_peers peers st
      else
        let summary :=
          if bool_decide (waiters st = []) then summary st
          else mkSummary (usize_saturating_add (attempted (summary st)) 1) (succeeded (summary st)) in
        let '(effects, st) :=
          start_peers peers
            (mkLoop ({[peer]} ∪ outgoing st) (waiters st) (pending_trigger st) (deferred_trigger st) summary
               (stopping st) (next_periodic st)) in
        (ESpawnOutgoing peer :: effects, st)
  end.

Definition drain_waiters (st : LoopState) : list LoopEffect * LoopState :=
  if bool_decide (outgoing st = ∅) && bool_decide (waiters st <> []) then
    (map (fun waiter => EAnswer waiter (summary st)) (waiters st),
     mkLoop (outgoing st) [] (if deferred_trigger st then true else pending_trigger st) false summary_default
       (stopping st) (next_periodic st))
  else ([], st).

Section loop.
Context `{Crypto, EventJson, Platform, Iroh, JoinCodec}.

Definition start_round (local_endpoint : EndpointId) (st : LoopState) : IO NetworkError (list LoopEffect * LoopState) :=
  if pending_trigger st then
    let st := set_pending false st in
    peers <== iresult (active_peers local_endpoint) ;;
    match peers with
    | Ok peers => iret (start_peers peers st)
    | Err _ => iret ([], st)
    end
  else iret ([], st).

(** [None] is the end of the loop. *)
Definition loop_turn (local_endpoint : EndpointId) (interval : Z) (commands : list NetworkCommand) (t1 t2 : Z)
    (st : LoopState) : IO NetworkError (list LoopEffect * option LoopState) :=
  let st := foldl handle_command st commands in
  match stopping st with
  | Some completed => iret ([EAborted completed], None)
  | None =>
      let st := check_periodic t1 t2 interval st in
      started <== start_round local_endpoint st ;;
      let '(spawned, st) := started in
      let '(answered, st) := drain_waiters st in
      iret (spawned ++ answered, Some st)
  end.

(** ** What [select!] yields *)

(** [SAccepted]: an incoming connection; a permit may be missing, and the
    connection may fail.  [SCompleted None] is a task that panicked. *)
Inductive Selected :=
  | SAccepted (permit accepted : bool)
  | SCompleted (result : option TaskResult)
  | STick.

Definition note_result (result : TaskResult) (st : LoopState) : LoopState :=
  let st :=
    match tr_direction result, tr_peer result with
    | Outgoing, Some peer =>
        mkLoop (outgoing st ∖ {[peer]}) (waiters st) (pending_trigger st) (deferred_trigger st)
          (if outcome_succeeded (tr_outcome result) && bool_decide (waiters st <> [])
           then mkSummary (attempted (summary st)) (usize_saturating_add (succeeded (summary st)) 1)
           else summary st)
          (stopping st) (next_periodic st)
    | _, _ => st
    end in
  if outcome_reconcile_again (tr_outcome result) then set_pending true st else st.

Definition loop_select (max_logs : Z) (selected : Selected) (st : LoopState)
    : IO NetworkError (list LoopEffect * LoopState) :=
  match selected with
  | SAccepted permit accepted => iret (if permit && accepted then [ESpawnIncoming] else [], st)
  | SCompleted (Some result) =>
      _ <== record_result max_logs (tr_peer result) (tr_outcome result) ;;
      iret ([], note_result result st)
  | SCompleted None | STick => iret ([], st)
  end.
End loop.

(** ** Runs of the loop and its tasks

    Beside the loop runs the list of outgoing tasks that have neither finished
    nor panicked. *)

Inductive LoopEvent :=
  | LCommand (command : NetworkCommand)
  | LEffect (effect : LoopEffect)
  | LSelected (selected : Selected).

Definition spawned_peers (effects : list LoopEffect) : list EndpointId :=
  omap (fun e => match e with ESpawnOutgoing peer => Some peer | _ => None end) effects.

(** The outgoing task of a result is one that runs; a task that panics runs no
    more. *)
Inductive tasks_after : Selected -> list EndpointId -> list EndpointId -> Prop :=
  | tasks_outgoing peer outcome tasks tasks' :
      tasks ≡ₚ peer :: tasks' ->
      tasks_after (SCompleted (Some (mkTaskResult (Some peer) Outgoing outcome))) tasks tasks'
  | tasks_incoming peer outcome tasks :
      tasks_after (SCompleted (Some (mkTaskResult peer Incoming outcome))) tasks tasks
  | tasks_panicked tasks tasks' :
      tasks' ⊆+ tasks -> tasks_after (SCompleted None) tasks tasks'
  | tasks_accepted permit accepted tasks : tasks_after (SAccepted permit accepted) tasks tasks
  | tasks_tick tasks : tasks_after STick tasks tasks.

Section runs.
Context `{Crypto, EventJson, Platform, Iroh, JoinCodec}.
Variables (local_endpoint : EndpointId) (interval max_logs : Z).

Inductive loop_step : LoopState * list EndpointId -> list LoopEvent -> LoopState * list EndpointId -> Prop :=
  | loop_step_intro st tasks commands t1 t2 w effects st1 w1 selected tasks' w2 more st2 w3 :
      loop_turn local_endpoint interval commands t1 t2 st w = (Ok (effects, Some st1), w1) ->
      tasks_after selected (tasks ++ spawned_peers effects) tasks' ->
      loop_select max_logs selected st1 w2 = (Ok (more, st2), w3) ->
      loop_step (st, tasks)
        (map LCommand commands ++ map LEffect effects ++ LSelected selected :: map LEffect more) (st2, tasks').

Inductive loop_run : LoopState * list EndpointId -> list LoopEvent -> LoopState * list EndpointId -> Prop :=
  | loop_run_nil x : loop_run x [] x
  | loop_run_cons x tr y trace z : loop_step x tr y -> loop_run y trace z -> loop_run x (tr ++ trace) z.
End runs.
