(* ===== verification/NetworkHandle.v ===== *)
(** network.rs: the handle of the network thread, through which the daemon
    triggers rounds, decides joins and removes peers. *)

From S2P Require Import Prelude Bytes Utf8 Cursor Canonical Path Identity Records Roster Protocol.
From S2P Require Import Database State RosterStore Platform Installer Sync Join Network NetworkLoop.

Definition COMMAND_CAPACITY : Z := 8.

(** The bounded queue of commands and whether the thread still receives, the
    coordinator, and the published address in JSON: [None] before there is one,
    an inner [None] when it has no JSON. *)
Record Handle := mkHandle {
  h_commands : list NetworkCommand;
  h_receiving : bool;
  h_joins : JoinState;
  h_endpoint_addr : option (option bytes);
}.

Definition set_joins (joins : JoinState) (h : Handle) : Handle :=
  mkHandle (h_commands h) (h_receiving h) joins (h_endpoint_addr h).

(** [SyncSender::try_send] *)
Definition try_send (command : NetworkCommand) (h : Handle) : result unit NetworkError * Handle :=
  if negb (h_receiving h) then (Err NStopped, h)
  else if COMMAND_CAPACITY <=? len (h_commands h) then (Err NBusy, h)
  else (Ok tt, mkHandle (h_commands h ++ [command]) (h_receiving h) (h_joins h) (h_endpoint_addr h)).

Definition trigger (h : Handle) : Handle := (try_send CTrigger h).2.
Definition start_sync (completed : nat) (h : Handle) : result unit NetworkError * Handle :=
  try_send (CSync completed) h.

Definition endpoint_addr_json (h : Handle) : result bytes NetworkError :=
  let? addr := ok_or (h_endpoint_addr h) NStopped in
  ok_or addr NJson.

Definition activate_invitation (t1 t2 : Z) (nonce : array 32) (lifetime : Z) (h : Handle)
    : result unit NetworkError * Handle :=
  let '(r, joins) := activate t1 t2 nonce lifetime (h_joins h) in (map_err NJoin r, set_joins joins h).

Definition pending_join (t : Z) (h : Handle) : option PendingJoinInfo * Handle :=
  let '(p, joins) := pending t (h_joins h) in (p, set_joins joins h).

Section handle.
Context `{Crypto, EventJson, Platform, Iroh, JoinCodec}.

(** What a decision leaves: its result, what the waiting end is sent, and the
    handle. *)
Record Decided := mkDecided {
  dd_result : result unit NetworkError;
  dd_sent : option (nat * JoinDecision);
  dd_handle : Handle;
}.

(** [joins.decide] *)
Definition decide_on (t : Z) (request_id : bytes) (decision : JoinDecision) (receiver_alive : bool) (h : Handle)
    : result unit JoinError * option (nat * JoinDecision) * Handle :=
  let '(r, sent, joins) := decide_join t request_id decision receiver_alive (h_joins h) in
  (r, sent, set_joins joins h).

Definition build_join_approval (stored_identity : option DeviceIdentity) (t : Z) (request_id : bytes) (h : Handle) (w : World)
    : result JoinDecision NetworkError * Handle * World :=
  let '(found, joins) := pending_addr t request_id (h_joins h) in
  let h := set_joins joins h in
  match found with
  | Err e => (Err (NJoin e), h, w)
  | Ok (info, joiner_addr) =>
      match endpoint_addr_json h with
      | Err e => (Err e, h, w)
      | Ok local_addr_json =>
          let '(r, w) := build_join_approval_in stored_identity local_addr_json info joiner_addr w in (r, h, w)
      end
  end.

(** [NetworkHandle::decide_join]; [t1] and [t2] are the readings of the clock. *)
Definition decide_request (stored_identity : option DeviceIdentity) (t1 t2 : Z) (request_id : bytes) (approve : bool)
    (receiver_alive : bool) (h : Handle) (w : World) : Decided * World :=
  if negb approve then
    let '(r, sent, h) := decide_on t1 request_id DRejected receiver_alive h in
    (mkDecided (map_err NJoin r) sent h, w)
  else
    let '(built, h, w) := build_join_approval stored_identity t1 request_id h w in
    match built with
    | Err error =>
        let '(_, sent, h) := decide_on t2 request_id DRejected receiver_alive h in
        (mkDecided (Err error) sent h, w)
    | Ok decision =>
        let '(r, sent, h) := decide_on t2 request_id decision receiver_alive h in
        match r with
        | Err e => (mkDecided (Err (NJoin e)) sent h, w)
        | Ok _ => (mkDecided (Ok tt) sent (trigger h), w)
        end
    end.

(** Whether a peer was removed, and the handle. *)
Definition remove_peer (stored_identity : option DeviceIdentity) (peer : EndpointId) (h : Handle)
    : IO NetworkError (bool * Handle) :=
  identity <== ilift (ok_or stored_identity NSetup) ;;
  if bool_decide (peer = endpoint_id identity) then ifail CannotRemoveSelf
  else
    chain <== nstate selected_roster_chain ;;
    tip <== ilift (ok_or (last chain) NMissingRoster) ;;
    if bool_decide (rev_members tip !! peer = None) then iret (false, h)
    else
      _ <== nstate (apply_roster_change identity (Remove peer)) ;;
      iret (true, trigger h).
End handle.
