(* ===== verification/ToyJoin.v ===== *)
(** A concrete [JoinCodec] for the examples: text is a countable encoding in
    bits, one to a byte. *)

From S2P Require Import Prelude Bytes Identity Database Protocol Sync Join.

Fixpoint bits_of (p : positive) : bytes :=
  match p with
  | xH => []
  | xO p => "0"%byte :: bits_of p
  | xI p => "1"%byte :: bits_of p
  end.
Fixpoint of_bits (l : bytes) : option positive :=
  match l with
  | [] => Some xH
  | b :: l =>
      p ← of_bits l;
      if bool_decide (b = "0"%byte) then Some (xO p) else if bool_decide (b = "1"%byte) then Some (xI p) else None
  end.

Lemma of_bits_of p : of_bits (bits_of p) = Some p.
Proof. induction p as [p IH|p IH|]; simpl; rewrite ?IH; done. Qed.

Definition text_of {A B} `{Countable B} (f : A -> B) (x : A) : bytes := bits_of (encode (f x)).
Definition of_text {A B} `{Countable B} (g : B -> A) (l : bytes) : option A := g <$> (of_bits l ≫= decode).

Lemma of_text_of {A B} `{Countable B} (f : A -> B) (g : B -> A) x : g (f x) = x -> of_text g (text_of f x) = Some x.
Proof. intros E. unfold of_text, text_of. rewrite of_bits_of. simpl. rewrite decode_encode. simpl. by rewrite E. Qed.

Definition request_tuple (r : JoinRequest) : bytes * bytes * bytes :=
  (arr (jr_nonce r), jr_device_name r, jr_endpoint_addr_json r).
Definition tuple_request (t : bytes * bytes * bytes) : JoinRequest :=
  mkJoinRequest (default (array_repeat 32 "000"%byte) (to_array 32 t.1.1)) t.1.2 t.2.
Definition response_tuple (r : JoinResponse) : bool * bytes * gmap bytes bytes :=
  (jp_approved r, jp_roster r, jp_peer_hints r).
Definition tuple_response (t : bool * bytes * gmap bytes bytes) : JoinResponse := mkJoinResponse t.1.1 t.1.2 t.2.

Definition toy_join : JoinCodec := {|
  base64_encode := fun l => l;
  base64_decode := Some;
  request_to_json := fun r => Some (text_of request_tuple r);
  request_from_json := of_text tuple_request;
  response_to_json := fun r => Some (text_of response_tuple r);
  response_from_json := of_text tuple_response;
  ack_to_json := fun a => Some (text_of ja_accepted a);
  ack_from_json := of_text mkJoinAck;
|}.

#[global] Instance toy_join_laws : @JoinCodecLaws toy_join.
Proof.
  split; simpl; try done.
  - intros [nonce name addr] l [= <-]. apply of_text_of. unfold request_tuple, tuple_request. simpl.
    by rewrite to_array_arr.
  - intros [approved roster hints] l [= <-]. by apply of_text_of.
  - intros [accepted] l [= <-]. by apply of_text_of.
Qed.
