(* ===== verification/NetworkLoopLaws.v ===== *)
(** The invariant of the loop of network.rs, and how a turn moves it. *)

From S2P Require Import Prelude Bytes Utf8 Cursor Canonical Path Identity Records Roster Protocol.
From S2P Require Import Database State RosterStore Platform Installer Sync Join Network NetworkLoop.

(** ** What a trace says *)

Definition requests_in (trace : list LoopEvent) : list nat :=
  omap (fun e => match e with LCommand (CSync completed) => Some completed | _ => None end) trace.
Definition answers_in (trace : list LoopEvent) : list (nat * SyncSummary) :=
  omap (fun e => match e with LEffect (EAnswer waiter answer) => Some (waiter, answer) | _ => None end) trace.
Definition spawns_in (trace : list LoopEvent) : list EndpointId :=
  omap (fun e => match e with LEffect (ESpawnOutgoing peer) => Some peer | _ => None end) trace.
Definition results_in (trace : list LoopEvent) : list TaskResult :=
  omap (fun e => match e with LSelected (SCompleted (Some result)) => Some result | _ => None end) trace.
Definition reported (trace : list LoopEvent) : list EndpointId :=
  omap (fun r => match tr_direction r with Outgoing => tr_peer r | Incoming => None end) (results_in trace).

(** No session asks for another round. *)
Definition calm (trace : list LoopEvent) : bool :=
  forallb (fun r => negb (outcome_reconcile_again (tr_outcome r))) (results_in trace).

(** ** The invariant *)

(** The true counts may exceed what the summary can hold. *)
Record counted (st : LoopState) (attempts successes : Z) : Prop := {
  counted_successes : 0 <= successes;
  counted_attempts : successes + Z.of_nat (size (outgoing st)) <= attempts;
  counted_succeeded : succeeded (summary st) = Z.min usize_max successes;
  counted_attempted : Z.min usize_max attempts <= attempted (summary st);
}.

Record loop_inv (st : LoopState) (tasks : list EndpointId) : Prop := {
  inv_tasks_nodup : NoDup tasks;
  inv_tasks_outgoing : forall p, p ∈ tasks -> p ∈ outgoing st;
  inv_deferred : deferred_trigger st = true -> waiters st <> [];
  inv_counted : waiters st <> [] -> exists attempts successes, counted st attempts successes;
}.

Lemma counted_succeeded_le st a s : counted st a s -> 0 <= succeeded (summary st) <= attempted (summary st).
Proof. intros [Hs Ha Es Et]. rewrite Es. unfold usize_max in *. lia. Qed.

(** Only the pending round and the timer differ. *)
Lemma loop_inv_ext st st' tasks :
  outgoing st' = outgoing st -> waiters st' = waiters st -> deferred_trigger st' = deferred_trigger st ->
  summary st' = summary st -> loop_inv st tasks -> loop_inv st' tasks.
Proof.
  intros Eo Ew Ed Es [Hn Ho Hd Hc]. split; rewrite ?Ew, ?Ed, ?Eo; try done.
  intros Hw. destruct (Hc Hw) as (a & s & [? ? ? ?]). exists a, s. by split; rewrite ?Eo, ?Es.
Qed.

Lemma loop_inv_tasks st tasks tasks' :
  loop_inv st tasks -> NoDup tasks' -> (forall p, p ∈ tasks' -> p ∈ tasks) -> loop_inv st tasks'.
Proof. intros [Hn Ho Hd Hc] Hn' Hs. split; auto. Qed.

(** ** The commands *)

Definition command_requests (commands : list NetworkCommand) : list nat :=
  omap (fun c => match c with CSync completed => Some completed | _ => None end) commands.

Lemma handle_command_inv st tasks c : loop_inv st tasks -> loop_inv (handle_command st c) tasks.
Proof.
  intros Hi. pose proof Hi as [Hn Ho Hd Hc]. destruct c as [|completed|completed]; simpl.
  - case_bool_decide as Ew; [by apply (loop_inv_ext st)|]. split; simpl; try done.
    intros _. destruct (Hc Ew) as (a & s & [? ? ? ?]). exists a, s. by split.
  - case_bool_decide as Ew; split; simpl; auto.
    + intros _. by destruct (waiters st).
    + intros _. exists (Z.of_nat (size (outgoing st))), 0. split; simpl; unfold usize_max; lia.
    + intros _. by destruct (waiters st).
    + intros _. destruct (Hc Ew) as (a & s & [? ? ? ?]). exists a, s. by split.
  - split; simpl; auto.
    intros Hw. destruct (Hc Hw) as (a & s & [? ? ? ?]). exists a, s. by split.
Qed.

Lemma handle_commands_inv commands st tasks :
  loop_inv st tasks -> loop_inv (foldl handle_command st commands) tasks.
Proof. revert st. induction commands as [|c l IH]; [done|]. intros st Hi. by apply IH, handle_command_inv. Qed.

Lemma handle_commands_waiters commands st :
  waiters (foldl handle_command st commands) = waiters st ++ command_requests commands.
Proof.
  revert st. induction commands as [|c l IH]; intros st; simpl; [by rewrite app_nil_r|].
  rewrite IH. destruct c as [|completed|completed]; simpl; try done.
  - by case_bool_decide.
  - by case_bool_decide; simpl; rewrite <-app_assoc.
Qed.

Lemma handle_commands_outgoing commands st : outgoing (foldl handle_command st commands) = outgoing st.
Proof.
  revert st. induction commands as [|c l IH]; intros st; simpl; [done|].
  rewrite IH. destruct c as [|completed|completed]; simpl; try done; by case_bool_decide.
Qed.

(** A trigger does not start a round while a request waits. *)
Lemma handle_commands_pending commands st :
  waiters st <> [] -> pending_trigger (foldl handle_command st commands) = pending_trigger st.
Proof.
  revert st. induction commands as [|c l IH]; intros st Hw; simpl; [done|].
  destruct c as [|completed|completed]; simpl; rewrite ?bool_decide_eq_false_2 by done.
  - by rewrite IH.
  - rewrite IH; simpl; [done|]. by destruct (waiters st).
  - by rewrite IH.
Qed.

(** ** The periodic round *)

Lemma check_periodic_keeps t1 t2 i st :
  outgoing (check_periodic t1 t2 i st) = outgoing st /\ waiters (check_periodic t1 t2 i st) = waiters st
  /\ deferred_trigger (check_periodic t1 t2 i st) = deferred_trigger st
  /\ summary (check_periodic t1 t2 i st) = summary st
  /\ (waiters st <> [] -> pending_trigger (check_periodic t1 t2 i st) = pending_trigger st).
Proof.
  unfold check_periodic. destruct (next_periodic st <=? t1); simpl; [|done].
  repeat split; try done. intros Hw. by rewrite bool_decide_eq_false_2.
Qed.

(** ** The round *)

Lemma start_peers_waiters peers st :
  let '(_, st') := start_peers peers st in
  waiters st' = waiters st /\ pending_trigger st' = pending_trigger st /\ deferred_trigger st' = deferred_trigger st.
Proof.
  revert st. induction peers as [|p l IH]; intros st; simpl; [done|].
  case_bool_decide; [apply IH|].
  match goal with |- context [start_peers l ?s] => specialize (IH s); destruct (start_peers l s) as [eff st'] end.
  by simpl in *.
Qed.

Lemma start_peers_outgoing peers st :
  let '(effects, st') := start_peers peers st in
  outgoing st' = outgoing st ∪ list_to_set (spawned_peers effects)
  /\ answers_in (map LEffect effects) = [].
Proof.
  revert st. induction peers as [|p l IH]; intros st; simpl; [set_solver|].
  case_bool_decide; [apply IH|].
  match goal with |- context [start_peers l ?s] => specialize (IH s); destruct (start_peers l s) as [eff st'] end.
  simpl in *. destruct IH as [-> ?]. split; [set_solver | done].
Qed.

Lemma start_peers_inv peers st tasks :
  loop_inv st tasks ->
  let '(effects, st') := start_peers peers st in loop_inv st' (tasks ++ spawned_peers effects).
Proof.
  revert st tasks. induction peers as [|p l IH]; intros st tasks Hi; simpl; [by rewrite app_nil_r|].
  case_bool_decide as Hp; [by apply IH|].
  match goal with |- context [start_peers l ?s] => specialize (IH s (tasks ++ [p])); destruct (start_peers l s) as [eff st'] end.
  simpl in *. rewrite <-app_assoc in IH. apply IH. destruct Hi as [Hn Ho Hd Hc]. split; simpl; try done.
  - apply NoDup_app. split; [done|]. split; [|apply NoDup_singleton].
    intros q Hq ?%list_elem_of_singleton; subst. by apply Hp, Ho.
  - intros q [Hq|Hq%list_elem_of_singleton]%elem_of_app; [|set_solver]. apply Ho in Hq. set_solver.
  - intros Hw. destruct (Hc Hw) as (a & s & [Hs Ha Es Et]). exists (a + 1), s.
    rewrite bool_decide_eq_false_2 by done. split; simpl; try done.
    + rewrite size_union, size_singleton by set_solver. lia.
    + unfold usize_saturating_add, usize_max in *. lia.
Qed.

(** ** The answers *)

Lemma answering l x :
  let effects := map (fun waiter => EAnswer waiter x) l in
  spawned_peers effects = [] /\ answers_in (map LEffect effects) = map (fun waiter => (waiter, x)) l.
Proof. induction l as [|y l [IH1 IH2]]; simpl in *; [done | split; [done | by f_equal]]. Qed.

Lemma drain_waiters_spec st :
  let '(effects, st') := drain_waiters st in
  spawned_peers effects = [] /\ outgoing st' = outgoing st
  /\ map fst (answers_in (map LEffect effects)) ++ waiters st' = waiters st
  /\ (forall x, x ∈ answers_in (map LEffect effects) -> x.2 = summary st /\ waiters st <> [] /\ outgoing st = ∅)
  /\ (outgoing st = ∅ -> waiters st' = [])
  /\ (waiters st' <> [] -> st' = st).
Proof.
  unfold drain_waiters. destruct (bool_decide (outgoing st = ∅) && bool_decide (waiters st <> [])) eqn:E; simpl.
  - boolp. destruct (answering (waiters st) (summary st)) as [-> ->]. split; [done|]. split; [done|].
    split; [rewrite app_nil_r, map_map; apply map_id|]. split; [|done].
    intros x (y & -> & _)%list_elem_of_fmap. done.
  - repeat split; try done; try set_solver. intros Ho. rewrite bool_decide_eq_true_2 in E by done. simpl in E.
    apply bool_decide_eq_false in E. by destruct (waiters st); [|destruct E].
Qed.

Lemma drain_waiters_inv st tasks : loop_inv st tasks -> loop_inv (drain_waiters st).2 tasks.
Proof.
  intros Hi. pose proof (drain_waiters_spec st) as Hd. destruct (drain_waiters st) as [effects st'] eqn:E.
  destruct Hd as (_ & Eo & _ & _ & _ & Hk). simpl. destruct (decide (waiters st' = [])) as [Ew|Ew].
  - destruct Hi as [Hn Ho Hd Hc]. split; rewrite ?Ew, ?Eo; try done.
    unfold drain_waiters in E. case_match; simplify_eq; simpl in *; [done|]. intros Ht. by destruct (Hd Ht).
  - by rewrite (Hk Ew).
Qed.

(** ** A turn and an event *)

Section turns.
Context `{Crypto, EventJson, Platform, Iroh, JoinCodec}.
Variables (local_endpoint : EndpointId) (interval max_logs : Z).

Definition commanded (commands : list NetworkCommand) (t1 t2 : Z) (st : LoopState) : LoopState :=
  check_periodic t1 t2 interval (foldl handle_command st commands).

Lemma commanded_spec commands t1 t2 st :
  let st' := commanded commands t1 t2 st in
  outgoing st' = outgoing st /\ waiters st' = waiters st ++ command_requests commands
  /\ (waiters st <> [] -> pending_trigger st' = pending_trigger st).
Proof.
  unfold commanded.
  destruct (check_periodic_keeps t1 t2 interval (foldl handle_command st commands)) as (-> & -> & _ & _ & Hp).
  rewrite handle_commands_outgoing, handle_commands_waiters in *. split; [done|]. split; [done|].
  intros Hw. rewrite Hp, handle_commands_pending; [done | done|]. by destruct (waiters st).
Qed.

Lemma commanded_inv commands t1 t2 st tasks : loop_inv st tasks -> loop_inv (commanded commands t1 t2 st) tasks.
Proof.
  intros Hi. unfold commanded.
  destruct (check_periodic_keeps t1 t2 interval (foldl handle_command st commands)) as (? & ? & ? & ? & _).
  eapply loop_inv_ext; [..|by apply handle_commands_inv]; done.
Qed.

(** A turn that goes on: which peers it starts, and what it answers. *)
Lemma loop_turn_inv commands t1 t2 st w effects st' w' :
  loop_turn local_endpoint interval commands t1 t2 st w = (Ok (effects, Some st'), w') ->
  exists spawned st1 answered peers,
    effects = spawned ++ answered /\
    ((spawned, st1) = start_peers peers (set_pending false (commanded commands t1 t2 st))
     \/ (spawned = [] /\ pending_trigger st1 = false /\ outgoing st1 = outgoing (commanded commands t1 t2 st)
         /\ waiters st1 = waiters (commanded commands t1 t2 st)
         /\ deferred_trigger st1 = deferred_trigger (commanded commands t1 t2 st)
         /\ summary st1 = summary (commanded commands t1 t2 st)))
    /\ (pending_trigger (commanded commands t1 t2 st) = false -> spawned = [])
    /\ drain_waiters st1 = (answered, st').
Proof.
  unfold loop_turn. fold (commanded commands t1 t2 st). destruct (stopping _); [done|].
  intros ([spawned st1] & w1 & Es & E)%ibind_Ok.
  destruct (drain_waiters st1) as [answered st2] eqn:Ed. injection E as <- <- _.
  unfold start_round in Es. destruct (pending_trigger (commanded commands t1 t2 st)) eqn:Ep.
  - apply ibind_Ok in Es as (r & w2 & _ & Es). destruct r as [peers|e].
    + injection Es as Es _. exists spawned, st1, answered, peers. split; [done|]. split; [by left | done].
    + injection Es as <- <- _. exists [], (set_pending false (commanded commands t1 t2 st)), answered, [].
      split; [done|]. split; [by left | done].
  - injection Es as <- <- _. exists [], (commanded commands t1 t2 st), answered, []. split; [done|].
    split; [right | done]. done.
Qed.

Lemma answers_app a b : answers_in (a ++ b) = answers_in a ++ answers_in b.
Proof. apply omap_app. Qed.
Lemma requests_commands commands : requests_in (map LCommand commands) = command_requests commands.
Proof.
  unfold requests_in, command_requests. induction commands as [|c l IH]; [done|]. destruct c; [exact IH | | exact IH].
  change (completed :: omap (fun e => match e with LCommand (CSync n) => Some n | _ => None end) (map LCommand l)
    = completed :: omap (fun c => match c with CSync n => Some n | _ => None end) l). by f_equal.
Qed.
Lemma nothing_commanded commands : answers_in (map LCommand commands) = [].
Proof. by induction commands. Qed.
Lemma nothing_requested effects : requests_in (map LEffect effects) = [].
Proof. by induction effects. Qed.

Lemma loop_turn_spec commands t1 t2 st w effects st' w' tasks :
  loop_turn local_endpoint interval commands t1 t2 st w = (Ok (effects, Some st'), w') ->
  loop_inv st tasks ->
  loop_inv st' (tasks ++ spawned_peers effects)
  /\ waiters st ++ command_requests commands = map fst (answers_in (map LEffect effects)) ++ waiters st'
  /\ (forall x, x ∈ answers_in (map LEffect effects) -> 0 <= succeeded x.2 <= attempted x.2)
  /\ outgoing st' = outgoing st ∪ list_to_set (spawned_peers effects)
  /\ (outgoing st' = ∅ -> waiters st' = [])
  /\ (waiters st' <> [] -> pending_trigger st' = false)
  /\ (pending_trigger st = false -> waiters st <> [] -> spawned_peers effects = []).
Proof.
  intros (spawned & st1 & answered & peers & -> & Hs & Hn & Ed)%loop_turn_inv Hi.
  destruct (commanded_spec commands t1 t2 st) as (Eo & Ew & Ep).
  apply (commanded_inv commands t1 t2) in Hi. set (st0 := commanded commands t1 t2 st) in *.
  assert (Hround : loop_inv st1 (tasks ++ spawned_peers spawned) /\ waiters st1 = waiters st0 /\
    pending_trigger st1 = false /\ outgoing st1 = outgoing st0 ∪ list_to_set (spawned_peers spawned) /\
    answers_in (map LEffect spawned) = []).
  { destruct Hs as [Hs|(-> & ? & Eo1 & Ew1 & ? & ?)].
    - pose proof (start_peers_inv peers (set_pending false st0) tasks) as Hp.
      pose proof (start_peers_waiters peers (set_pending false st0)) as Hq.
      pose proof (start_peers_outgoing peers (set_pending false st0)) as Hr. rewrite <-Hs in *.
      destruct Hq as (? & ? & ?), Hr as (? & ?). split; [|done]. by apply Hp, (loop_inv_ext st0).
    - simpl. rewrite app_nil_r. split; [by apply (loop_inv_ext st0)|]. repeat split; try done. set_solver. }
  destruct Hround as (Hi1 & Ew1 & Ep1 & Eo1 & En1).
  pose proof (drain_waiters_spec st1) as Hd. pose proof (drain_waiters_inv st1 _ Hi1) as Hi2. rewrite Ed in *.
  destruct Hd as (En & Eo2 & Ew2 & Hx & He & Hk).
  assert (spawned_peers (spawned ++ answered) = spawned_peers spawned) as Esp.
  { unfold spawned_peers in *. by rewrite omap_app, En, app_nil_r. }
  rewrite Esp, map_app, answers_app, En1. simpl. rewrite Ew2, Ew1, Ew, Eo2, Eo1, Eo.
  split; [done|]. split; [done|]. split.
  { intros x Hin. destruct (Hx x Hin) as (-> & Hw & _).
    destruct (inv_counted _ _ Hi1 Hw) as (a & s & Hc). by apply counted_succeeded_le in Hc. }
  split; [done|]. split; [intros Hempty; apply He; by rewrite Eo1, Eo|]. split.
  - intros Hw. by rewrite (Hk Hw).
  - intros Hp Hw. rewrite Hn; [done|]. by rewrite Ep.
Qed.

(** The result of a session: the peer is free again, a success is counted. *)
Lemma note_result_inv peer outcome st tasks tasks' :
  tasks ≡ₚ peer :: tasks' -> loop_inv st tasks ->
  loop_inv (note_result (mkTaskResult (Some peer) Outgoing outcome) st) tasks'.
Proof.
  intros Hp [Hn Ho Hd Hc]. assert (peer ∈ outgoing st) as Hin. { apply Ho. rewrite Hp. set_solver. }
  rewrite Hp in Hn. apply NoDup_cons in Hn as [Hnot Hn].
  assert (Hi' : loop_inv (mkLoop (outgoing st ∖ {[peer]}) (waiters st) (pending_trigger st) (deferred_trigger st)
      (if outcome_succeeded outcome && bool_decide (waiters st <> [])
       then mkSummary (attempted (summary st)) (usize_saturating_add (succeeded (summary st)) 1)
       else summary st) (stopping st) (next_periodic st)) tasks').
  { split; simpl; try done.
    - intros q Hq. assert (q <> peer) by (by intros ->). assert (q ∈ outgoing st); [|set_solver].
      apply Ho. rewrite Hp. set_solver.
    - intros Hw. destruct (Hc Hw) as (a & s & [Hs Ha Es Et]).
      assert (size (outgoing st) = S (size (outgoing st ∖ {[peer]}))) as Esize.
      { rewrite size_difference, size_singleton by set_solver.
        assert (size (outgoing st) <> 0%nat); [|lia]. rewrite size_non_empty_iff. set_solver. }
      rewrite (bool_decide_eq_true_2 (waiters st <> [])) by done. rewrite andb_true_r.
      exists a, (if outcome_succeeded outcome then s + 1 else s).
      destruct (outcome_succeeded outcome); split; simpl; try lia.
      unfold usize_saturating_add, usize_max in *. lia. }
  unfold note_result. simpl. destruct (outcome_reconcile_again outcome); [|done]. eapply loop_inv_ext; [..|exact Hi']; done.
Qed.

Definition freed (result : TaskResult) : list EndpointId :=
  match tr_direction result, tr_peer result with Outgoing, Some peer => [peer] | _, _ => [] end.

Lemma note_result_keeps result st :
  waiters (note_result result st) = waiters st
  /\ outgoing (note_result result st) = outgoing st ∖ list_to_set (freed result)
  /\ (outcome_reconcile_again (tr_outcome result) = false ->
      pending_trigger (note_result result st) = pending_trigger st)
  /\ (tr_direction result = Incoming -> deferred_trigger (note_result result st) = deferred_trigger st
      /\ summary (note_result result st) = summary st).
Proof.
  assert (forall p : EndpointId, outgoing st ∖ {[p]} = outgoing st ∖ ({[p]} ∪ ∅)) as E1 by (intros; f_equal; set_solver).
  assert (outgoing st = outgoing st ∖ ∅) as E2 by set_solver.
  unfold note_result, freed. destruct (tr_direction result), (tr_peer result) as [peer|], (outcome_reconcile_again _);
    simpl; rewrite <-?E1, <-?E2; done.
Qed.

Lemma reported_result result : reported [LSelected (SCompleted (Some result))] = freed result.
Proof. destruct result as [[peer|] []]; reflexivity. Qed.

(** The event leaves the requests alone, and asks for a round only when the
    session did. *)
Lemma loop_select_spec selected st w effects st' w' tasks tasks' :
  loop_select max_logs selected st w = (Ok (effects, st'), w') ->
  tasks_after selected tasks tasks' -> loop_inv st tasks ->
  loop_inv st' tasks' /\ waiters st' = waiters st /\ answers_in (map LEffect effects) = []
  /\ spawned_peers effects = []
  /\ outgoing st' = outgoing st ∖ list_to_set (reported [LSelected selected])
  /\ (calm [LSelected selected] = true -> pending_trigger st' = pending_trigger st).
Proof.
  intros E Ht Hi.
  assert (Hnote : forall r, loop_select max_logs (SCompleted (Some r)) st w = (Ok (effects, st'), w') ->
    loop_inv (note_result r st) tasks' ->
    loop_inv st' tasks' /\ waiters st' = waiters st /\ answers_in (map LEffect effects) = []
    /\ spawned_peers effects = []
    /\ outgoing st' = outgoing st ∖ list_to_set (reported [LSelected (SCompleted (Some r))])
    /\ (calm [LSelected (SCompleted (Some r))] = true -> pending_trigger st' = pending_trigger st)).
  { intros r Er Hr. apply ibind_Ok in Er as (u & w1 & _ & Er). injection Er as <- <- _.
    destruct (note_result_keeps r st) as (Ew & Eo & Ep & _). rewrite reported_result.
    split; [done|]. split; [done|]. split; [done|]. split; [done|]. split; [done|].
    intros Hc. apply Ep. unfold calm in Hc. simpl in Hc. by destruct (outcome_reconcile_again (tr_outcome r)). }
  assert (outgoing st = outgoing st ∖ ∅) as E0 by set_solver.
  destruct Ht as [peer outcome tasks tasks' Hp | peer outcome tasks | tasks tasks' Hsub | permit accepted tasks | tasks].
  - apply Hnote; [done|]. by eapply note_result_inv.
  - apply Hnote; [done|]. destruct (note_result_keeps (mkTaskResult peer Incoming outcome) st) as (Ew & Eo & _ & Ed).
    destruct (Ed eq_refl) as [Ed1 Ed2]. apply (loop_inv_ext st); try done. rewrite Eo. simpl. set_solver.
  - injection E as <- <- _. split; [|done]. apply (loop_inv_tasks st tasks); [done | |].
    + apply submseteq_Permutation in Hsub as (k & Hk). pose proof (inv_tasks_nodup _ _ Hi) as Hn.
      rewrite Hk in Hn. by apply NoDup_app in Hn as [? _].
    + intros p Hp. by eapply elem_of_submseteq.
  - injection E as <- <- _. by destruct (permit && accepted).
  - by injection E as <- <- _.
Qed.

(** ** A step *)

Lemma spawns_effects effects : spawns_in (map LEffect effects) = spawned_peers effects.
Proof.
  unfold spawns_in, spawned_peers. induction effects as [|e l IH]; [done|]. destruct e; try exact IH.
  change (peer :: omap (fun e => match e with LEffect (ESpawnOutgoing p) => Some p | _ => None end) (map LEffect l)
    = peer :: omap (fun e => match e with ESpawnOutgoing p => Some p | _ => None end) l). by f_equal.
Qed.
Lemma spawns_commands commands : spawns_in (map LCommand commands) = [].
Proof. by induction commands. Qed.
Lemma results_commands commands : results_in (map LCommand commands) = [].
Proof. by induction commands. Qed.
Lemma results_effects effects : results_in (map LEffect effects) = [].
Proof. by induction effects. Qed.

(** The trace of a step, seen by each reader. *)
Definition step_trace (commands : list NetworkCommand) (effects : list LoopEffect) (selected : Selected)
    (more : list LoopEffect) : list LoopEvent :=
  map LCommand commands ++ map LEffect effects ++ LSelected selected :: map LEffect more.

Lemma step_trace_reads commands effects selected more :
  let trace := step_trace commands effects selected more in
  requests_in trace = command_requests commands
  /\ answers_in trace = answers_in (map LEffect effects) ++ answers_in (map LEffect more)
  /\ spawns_in trace = spawned_peers effects ++ spawned_peers more
  /\ results_in trace = results_in [LSelected selected].
Proof.
  unfold step_trace. change (LSelected selected :: map LEffect more) with ([LSelected selected] ++ map LEffect more).
  split; [|split; [|split]].
  - unfold requests_in. rewrite !omap_app. fold requests_in. fold (requests_in (map LCommand commands)).
    fold (requests_in (map LEffect effects)) (requests_in (map LEffect more)).
    by rewrite requests_commands, !nothing_requested, app_nil_r.
  - by rewrite !answers_app, nothing_commanded.
  - unfold spawns_in. rewrite !omap_app. fold (spawns_in (map LCommand commands)).
    fold (spawns_in (map LEffect effects)) (spawns_in (map LEffect more)). by rewrite spawns_commands, !spawns_effects.
  - unfold results_in. rewrite !omap_app. fold (results_in (map LCommand commands)).
    fold (results_in (map LEffect effects)) (results_in (map LEffect more)) (results_in [LSelected selected]).
    by rewrite results_commands, !results_effects, app_nil_r.
Qed.

Lemma loop_step_spec st tasks trace st' tasks' :
  loop_step local_endpoint interval max_logs (st, tasks) trace (st', tasks') -> loop_inv st tasks ->
  loop_inv st' tasks'
  /\ waiters st ++ requests_in trace = map fst (answers_in trace) ++ waiters st'
  /\ (forall x, x ∈ answers_in trace -> 0 <= succeeded x.2 <= attempted x.2)
  /\ outgoing st' = (outgoing st ∪ list_to_set (spawns_in trace)) ∖ list_to_set (reported trace)
  /\ (waiters st' <> [] -> calm trace = true -> pending_trigger st' = false)
  /\ (pending_trigger st = false -> waiters st <> [] -> spawns_in trace = []).
Proof.
  intros Hs Hi. inversion Hs as [? ? commands t1 t2 w effects st1 w1 selected ? w2 more ? w3 Et Ht Es]; subst.
  fold (step_trace commands effects selected more).
  destruct (step_trace_reads commands effects selected more) as (Er & Ea & Esp & Eres).
  destruct (loop_turn_spec _ _ _ _ _ _ _ _ _ Et Hi) as (Hi1 & Ew & Hx & Eo & _ & Hp & Hn).
  destruct (loop_select_spec _ _ _ _ _ _ _ _ Es Ht Hi1) as (Hi2 & Ew2 & Ea2 & En2 & Eo2 & Hp2).
  assert (reported (step_trace commands effects selected more) = reported [LSelected selected]) as Erep.
  { unfold reported. by rewrite Eres. }
  assert (calm (step_trace commands effects selected more) = calm [LSelected selected]) as Ecalm.
  { unfold calm. by rewrite Eres. }
  rewrite Er, Ea, Ea2, Esp, En2, !app_nil_r, Erep, Ecalm, Ew2, Eo2, Eo.
  refine (conj _ (conj _ (conj _ (conj _ (conj _ _))))); try done. intros Hw Hc. by rewrite Hp2, Hp.
Qed.

Lemma loop_run_spec x trace y :
  loop_run local_endpoint interval max_logs x trace y -> loop_inv x.1 x.2 ->
  loop_inv y.1 y.2
  /\ waiters x.1 ++ requests_in trace = map fst (answers_in trace) ++ waiters y.1
  /\ (forall a, a ∈ answers_in trace -> 0 <= succeeded a.2 <= attempted a.2).
Proof.
  induction 1 as [x | [st tasks] tr [st1 tasks1] trace y Hs Hr IH]; simpl; intros Hi.
  - split; [done|]. split; [by rewrite app_nil_r|]. set_solver.
  - destruct (loop_step_spec _ _ _ _ _ Hs Hi) as (Hi1 & Ew & Ha & _). destruct (IH Hi1) as (Hi2 & Ew2 & Ha2).
    split; [done|]. rewrite answers_app. unfold requests_in. rewrite omap_app.
    fold (requests_in tr) (requests_in trace). rewrite map_app, <-app_assoc, <-Ew2, !app_assoc. simpl. rewrite Ew.
    split; [done|]. intros a [|]%elem_of_app; auto.
Qed.

(** ** Every request is answered *)

Lemma reported_app a b : reported (a ++ b) = reported a ++ reported b.
Proof. unfold reported, results_in. by rewrite !omap_app. Qed.
Lemma spawns_app a b : spawns_in (a ++ b) = spawns_in a ++ spawns_in b.
Proof. apply omap_app. Qed.
Lemma calm_app a b : calm (a ++ b) = calm a && calm b.
Proof. unfold calm, results_in. by rewrite omap_app, forallb_app. Qed.

(** No round starts while a request waits, so what is outgoing shrinks. *)
Lemma waiting_run x trace y :
  loop_run local_endpoint interval max_logs x trace y -> loop_inv x.1 x.2 ->
  pending_trigger x.1 = false -> calm trace = true ->
  (forall p, p ∈ outgoing x.1 -> p ∈ reported trace) ->
  waiters x.1 ⊆ map fst (answers_in trace)
  \/ (pending_trigger y.1 = false /\ outgoing y.1 = ∅).
Proof.
  induction 1 as [x | [st tasks] tr [st1 tasks1] trace y Hs Hr IH]; simpl; intros Hi Hp Hc Ho.
  - right. split; [done|]. apply set_eq. intros p. split; [|set_solver]. intros Hq. by apply Ho in Hq; set_solver.
  - destruct (decide (waiters st = [])) as [Ew0|Ew0]; [left; rewrite Ew0; set_solver|].
    destruct (loop_step_spec _ _ _ _ _ Hs Hi) as (Hi1 & Ew & _ & Eo & Hpend & Hn).
    rewrite calm_app in Hc. apply andb_true_iff in Hc as [Hc1 Hc2]. rewrite answers_app, map_app.
    assert (Hsub : waiters st ⊆ map fst (answers_in tr) ++ waiters st1) by (rewrite <-Ew; set_solver).
    destruct (decide (waiters st1 = [])) as [Ew1|Ew1].
    { left. rewrite Ew1, app_nil_r in Hsub. set_solver. }
    destruct IH as [Hans|?]; simpl; auto.
    + intros p. rewrite Eo, Hn by done. intros Hq. specialize (Ho p). rewrite reported_app in Ho. set_solver.
    + left. set_solver.
Qed.
End turns.
