(* ===== verification/NetworkProps.v ===== *)
(** The loop of the network thread: one session per peer, honest summaries, and
    an answer for every request. *)

From S2P Require Import Prelude Bytes Utf8 Cursor Canonical Path Identity Concrete Records Roster Protocol.
From S2P Require Import Database State StateProps RosterStore RosterProps Platform ToyFs Installer Sync SyncProps Session.
From S2P Require Import SessionProps Join ToyJoin Network NetworkLoop NetworkLoopLaws.

Section properties.
Context `{Crypto, EventJson, Platform, Iroh, JoinCodec}.
Variables (local_endpoint : EndpointId) (interval max_logs : Z).

Lemma loop_init_inv now : loop_inv (loop_init now interval) [].
Proof. split; simpl; try done; [constructor | set_solver]. Qed.

(** C20: At every point of every run of the loop, at most one outgoing session
    per peer is running, each to a peer the loop knows as outgoing; the
    requests to synchronize are answered in the order they came, each once,
    those not answered yet are the waiting ones; every summary says at most as
    many successes as attempts; and a deferred trigger has a waiting request
    that will release it. *)
Theorem network_loop_safe now trace st tasks :
  loop_run local_endpoint interval max_logs (loop_init now interval, []) trace (st, tasks) ->
  NoDup tasks /\ (forall peer, peer ∈ tasks -> peer ∈ outgoing st) /\
  requests_in trace = map fst (answers_in trace) ++ waiters st /\
  (forall waiter answer, (waiter, answer) ∈ answers_in trace -> 0 <= succeeded answer <= attempted answer) /\
  (deferred_trigger st = true -> waiters st <> []).
Proof.
  intros Hr. destruct (loop_run_spec _ _ _ _ _ _ Hr (loop_init_inv now)) as ([Hn Ho Hd _] & Ew & Ha).
  split; [done|]. split; [done|]. split; [done|]. split; [|done]. intros waiter answer. apply Ha.
Qed.

(** C21: Every request is answered.  Take any turn of a run, and the turns
    after it: when no session asks for another round and every session that
    was outgoing or that the first turn started has ended, the next turn
    answers all who waited at the first, whatever commands, incoming
    connections and timers came in between. *)
Theorem sync_requests_answered now before st tasks first mid trace last commands t1 t2 w effects st' w' waiter :
  loop_run local_endpoint interval max_logs (loop_init now interval, []) before (st, tasks) ->
  loop_step local_endpoint interval max_logs (st, tasks) first mid ->
  loop_run local_endpoint interval max_logs mid trace last ->
  calm (first ++ trace) = true ->
  (forall peer, peer ∈ outgoing st \/ peer ∈ spawns_in first -> peer ∈ reported (first ++ trace)) ->
  loop_turn local_endpoint interval commands t1 t2 last.1 w = (Ok (effects, Some st'), w') ->
  waiter ∈ waiters st \/ waiter ∈ requests_in first ->
  waiter ∈ map fst (answers_in (first ++ trace ++ map LEffect effects)).
Proof.
  intros Hb Hs Hr Hc Ho Et Hwaiter. destruct (loop_run_spec _ _ _ _ _ _ Hb (loop_init_inv now)) as [Hi _].
  destruct mid as [st1 tasks1]. destruct (loop_step_spec _ _ _ _ _ _ _ _ Hs Hi) as (Hi1 & Ew & _ & Eo & Hp & _).
  rewrite calm_app in Hc. apply andb_true_iff in Hc as [Hc1 Hc2].
  destruct (loop_run_spec _ _ _ _ _ _ Hr Hi1) as (Hi2 & Ew2 & _).
  rewrite !answers_app, !map_app.
  assert (waiter ∈ map fst (answers_in first) ++ waiters st1) as [Hin|Hin]%elem_of_app
    by (rewrite <-Ew, elem_of_app; tauto); [rewrite !elem_of_app; tauto|].
  assert (waiters st1 <> []) as Hne by (by intros E; rewrite E in Hin; set_solver).
  destruct (waiting_run _ _ _ _ _ _ Hr Hi1) as [Ha|[Hpl Hol]]; simpl; auto.
  - intros p. rewrite Eo. intros Hq. specialize (Ho p). rewrite reported_app in Ho. set_solver.
  - apply Ha in Hin. rewrite !elem_of_app. tauto.
  - assert (waiter ∈ map fst (answers_in trace) ++ waiters last.1) as [Hin2|Hin2]%elem_of_app
      by (rewrite <-Ew2, elem_of_app; tauto); [rewrite !elem_of_app; tauto|].
    destruct (loop_turn_spec _ _ _ _ _ _ _ _ _ _ _ Et Hi2) as (_ & Ew3 & _ & Eo3 & He & _ & Hn).
    rewrite Hn in Eo3; [|done|intros E; rewrite E in Hin2; by apply not_elem_of_nil in Hin2].
    rewrite Hol in Eo3. simpl in Eo3. rewrite He, app_nil_r in Ew3 by (rewrite Eo3; set_solver).
    rewrite !elem_of_app, <-Ew3, elem_of_app. by right; right; left.
Qed.
End properties.

(** ** Examples *)

Section examples.
#[local] Existing Instance toy_crypto.
#[local] Existing Instance terse_json.
#[local] Existing Instance toy_platform.
#[local] Existing Instance toy_iroh.
#[local] Existing Instance toy_join.

(** Alice's thread is asked to synchronize; Bob cannot be reached. *)
Definition alice_id : EndpointId := endpoint_id alice.
Definition bob_id : EndpointId := endpoint_id bob.
Definition idle_loop : LoopState := loop_init 0 1000.
Definition waiting_loop : LoopState := mkLoop {[bob_id]} [7%nat] false false (mkSummary 1 0) None 1000.
Definition unreached_loop : LoopState := mkLoop ∅ [7%nat] false false (mkSummary 1 0) None 1000.
Definition bob_unreachable : Selected := SCompleted (Some (mkTaskResult (Some bob_id) Outgoing Unreachable)).
Definition first_turn : list LoopEvent :=
  map LCommand [CSync 7] ++ map LEffect [ESpawnOutgoing bob_id] ++ [LSelected bob_unreachable].

(** Runs compared by decision, since arrays carry a proof of their length. *)
Lemma run_as {A E W} `{EqDecision A} (x : result A E * W) a :
  match x.1 with Ok b => bool_decide (b = a) | Err _ => false end = true -> x = (Ok a, x.2).
Proof. destruct x as [[b|e] w]; simpl; [by intros ->%bool_decide_eq_true | done]. Qed.

Definition alice_turns := loop_turn alice_id 1000 [CSync 7] 0 0 idle_loop alice_world.
Definition alice_selects := loop_select 10 bob_unreachable waiting_loop world_a.
Definition alice_answers := loop_turn alice_id 1000 [] 0 0 unreached_loop world_a.

Lemma alice_steps :
  loop_step alice_id 1000 10 (idle_loop, []) first_turn (unreached_loop, []).
Proof.
  apply (loop_step_intro alice_id 1000 10 idle_loop [] [CSync 7] 0 0 alice_world [ESpawnOutgoing bob_id] waiting_loop
    alice_turns.2 bob_unreachable [] world_a [] unreached_loop alice_selects.2).
  - apply run_as. vm_compute. reflexivity.
  - by apply tasks_outgoing.
  - apply run_as. vm_compute. reflexivity.
Qed.

Lemma network_loop_safe_witness : waiters unreached_loop = requests_in first_turn.
Proof.
  destruct (network_loop_safe alice_id 1000 10 0 (first_turn ++ []) unreached_loop []) as (_ & _ & E & _).
  - eapply loop_run_cons; [apply alice_steps | apply loop_run_nil].
  - exact (eq_sym E).
Defined.

Lemma sync_requests_answered_witness :
  7%nat ∈ map fst (answers_in (first_turn ++ [] ++ map LEffect [EAnswer 7 (mkSummary 1 0)])).
Proof.
  apply (sync_requests_answered alice_id 1000 10 0 [] idle_loop [] first_turn (unreached_loop, []) []
    (unreached_loop, []) [] 0 0 world_a [EAnswer 7 (mkSummary 1 0)]
    (mkLoop ∅ [] false false summary_default None 1000) alice_answers.2 7).
  - apply loop_run_nil.
  - apply alice_steps.
  - apply loop_run_nil.
  - reflexivity.
  - intros peer [Hp|Hp]; [by apply not_elem_of_empty in Hp | exact Hp].
  - apply run_as. vm_compute. reflexivity.
  - right. left.
Defined.
End examples.
