(* ===== verification/JoinLaws.v ===== *)
(** Invitations: the comparison of nonces, the rendering of device names, and
    what a coordinator can do, as a log of events; then the frames of a join,
    and the approval: what a member of the group sends is what the joining
    device accepts. *)

From S2P Require Import Prelude Bytes Utf8 Cursor Canonical Path Identity Concrete Records Roster RosterConverge Protocol.
From S2P Require Import Database State RosterStore RosterLaws Platform Installer Sync Join Joining Network.

(** ** Nonces *)

Lemma nonce_difference_zero a b d :
  length a = length b -> nonce_difference a b d = 0 <-> d = 0 /\ a = b.
Proof.
  revert b d. induction a as [|x a IH]; intros [|y b] d El; simpl in *; try done; [tauto|].
  rewrite IH by lia. rewrite Z.lor_eq_0_iff, Z.lxor_eq_0_iff. split.
  - by intros [[-> ->%byteZ_inj] ->].
  - by intros [-> [= -> ->]].
Qed.

Lemma nonce_matches_true a b : nonce_matches a b = true <-> a = b.
Proof.
  unfold nonce_matches. rewrite Z.eqb_eq, nonce_difference_zero by (by rewrite !arr_length).
  split; [intros [_ ?]; by apply arr_inj | by intros ->].
Qed.

(** ** Device names *)

Lemma hex_digit_safe n : 0 <= n < 16 -> terminal_unsafe_character (byteZ (hex_digit n)) = false.
Proof.
  intros Hn. assert (n ∈ seqZ 0 16) as Hin by (apply elem_of_seqZ; lia). revert n Hn Hin.
  assert (Forall (fun n => terminal_unsafe_character (byteZ (hex_digit n)) = false) (seqZ 0 16)) as Hall by evaluate.
  rewrite Forall_forall in Hall. auto.
Qed.

Lemma hex_loop_safe fuel n acc :
  Forall (fun c => terminal_unsafe_character c = false) acc ->
  Forall (fun c => terminal_unsafe_character c = false) (hex_loop fuel n acc).
Proof.
  revert n acc. induction fuel as [|fuel IH]; intros n acc Ha; simpl; [done|].
  assert (Forall (fun c => terminal_unsafe_character c = false) (byteZ (hex_digit (n mod 16)) :: acc)).
  { constructor; [|done]. apply hex_digit_safe, Z.mod_pos_bound. lia. }
  destruct (n <? 16); auto.
Qed.

Lemma render_safe c : Forall (fun c => terminal_unsafe_character c = false) (render_character c).
Proof.
  unfold render_character. destruct (terminal_unsafe_character c) eqn:E; [|by repeat constructor].
  apply Forall_app. split; [evaluate|]. apply Forall_app. split; [apply hex_loop_safe; constructor | evaluate].
Qed.

Lemma render_same l :
  Forall (fun c => terminal_unsafe_character c = false) l -> flat_map render_character l = l.
Proof.
  induction 1 as [|c l Hc _ IH]; simpl; [done|]. rewrite IH. unfold render_character. by rewrite Hc.
Qed.

(** ** The log of a coordinator *)

Inductive JoinEvent :=
  | EvActivated (nonce : array 32) (from lifetime : Z)
  | EvClaimed (nonce : array 32) (channel : nat) (time : Z)
  | EvDecided (channel : nat) (decision : JoinDecision) (time : Z)
  | EvDropped
  | EvExpired (time : Z).

(** The deadline of the invitation that is open at the end of a log, newest
    event first. *)
Definition open_until (log : list JoinEvent) : option Z :=
  match log with
  | EvActivated _ from lifetime :: _ => Some (from + lifetime)
  | EvClaimed _ _ _ :: EvActivated _ from lifetime :: _ => Some (from + lifetime)
  | _ => None
  end.

(** What the coordinator promises of its log, newest event first: an invitation
    is opened only when none is, for one minute to fifteen; it is claimed at
    most once, by its nonce, before its deadline; a claim is decided at most
    once, over its own channel, before the deadline; it expires only then. *)
Inductive invitation_log : list JoinEvent -> Prop :=
  | log_nil : invitation_log []
  | log_activated log nonce from lifetime :
      invitation_log log -> open_until log = None -> 60 * SECOND <= lifetime <= 900 * SECOND ->
      invitation_log (EvActivated nonce from lifetime :: log)
  | log_claimed log nonce from lifetime channel time :
      invitation_log (EvActivated nonce from lifetime :: log) -> time < from + lifetime ->
      invitation_log (EvClaimed nonce channel time :: EvActivated nonce from lifetime :: log)
  | log_decided log nonce channel claimed decision time deadline :
      invitation_log (EvClaimed nonce channel claimed :: log) ->
      open_until (EvClaimed nonce channel claimed :: log) = Some deadline -> time < deadline ->
      invitation_log (EvDecided channel decision time :: EvClaimed nonce channel claimed :: log)
  | log_dropped log nonce channel claimed :
      invitation_log (EvClaimed nonce channel claimed :: log) ->
      invitation_log (EvDropped :: EvClaimed nonce channel claimed :: log)
  | log_expired log deadline time :
      invitation_log log -> open_until log = Some deadline -> deadline <= time ->
      invitation_log (EvExpired time :: log).

Inductive CoordinatorOp `{Iroh} :=
  | OpActivate (t1 t2 : Z) (nonce : array 32) (lifetime : Z)
  | OpPending (t : Z)
  | OpPendingAddr (t : Z) (request_id : bytes)
  | OpClaim (t1 t2 : Z) (nonce : array 32) (remote : EndpointId) (device_name addr : bytes) (id : bytes) (channel : nat)
  | OpDecide (t : Z) (request_id : bytes) (decision : JoinDecision) (receiver_alive : bool)
  | OpCancel (request_id : bytes).

Section coordinator.
Context `{Iroh}.

(** The events of [expire_locked]. *)
Definition expiry (now : Z) (st : JoinState) : list JoinEvent :=
  match st, expire_locked now st with
  | JIdle, _ => []
  | _, JIdle => [EvExpired now]
  | _, _ => []
  end.

(** A call, with the events it makes, newest first. *)
Definition coordinator_step (op : CoordinatorOp) (st : JoinState) : list JoinEvent * JoinState :=
  match op with
  | OpActivate t1 t2 nonce lifetime =>
      match activate t1 t2 nonce lifetime st with
      | (Ok _, st') => (EvActivated nonce t2 lifetime :: expiry t1 st, st')
      | (Err InvalidInvitationLifetime, st') => ([], st')
      | (Err _, st') => (expiry t1 st, st')
      end
  | OpPending t => (expiry t st, (pending t st).2)
  | OpPendingAddr t id => (expiry t st, (pending_addr t id st).2)
  | OpClaim t1 t2 nonce remote name addr id channel =>
      match (let? _ := validate_join_device_name name in validate_endpoint_addr addr remote) with
      | Err _ => ([], (claim t1 t2 nonce remote name addr id channel st).2)
      | Ok _ =>
          match claim t1 t2 nonce remote name addr id channel st with
          | (Ok _, st') => (EvClaimed nonce channel t2 :: expiry t1 st, st')
          | (Err _, st') => (expiry t1 st, st')
          end
      end
  | OpDecide t id decision alive =>
      match decide_join t id decision alive st with
      | (_, Some (channel, sent), st') => (EvDecided channel sent t :: expiry t st, st')
      | (Err JoinerGone, None, st') => (EvDropped :: expiry t st, st')
      | (_, None, st') => (expiry t st, st')
      end
  | OpCancel id =>
      match st, cancel id st with
      | JPending _, JIdle => ([EvDropped], JIdle)
      | _, st' => ([], st')
      end
  end.

Fixpoint coordinator_log (ops : list CoordinatorOp) (log : list JoinEvent) (st : JoinState)
    : list JoinEvent * JoinState :=
  match ops with
  | [] => (log, st)
  | op :: ops =>
      let '(events, st) := coordinator_step op st in
      coordinator_log ops (events ++ log) st
  end.

(** The state is what the log says. *)
Definition tracks (log : list JoinEvent) (st : JoinState) : Prop :=
  match st with
  | JIdle => open_until log = None
  | JActive nonce deadline =>
      exists from lifetime rest, log = EvActivated nonce from lifetime :: rest /\ deadline = from + lifetime
  | JPending p =>
      exists nonce time from lifetime rest,
        log = EvClaimed nonce (pj_decision p) time :: EvActivated nonce from lifetime :: rest /\
        pj_deadline p = from + lifetime
  end.

Lemma tracks_open log st : tracks log st ->
  open_until log = match st with JIdle => None | JActive _ d => Some d | JPending p => Some (pj_deadline p) end.
Proof.
  destruct st as [|nonce d|p]; simpl; [done | |].
  - by intros (from & life & rest & -> & ->).
  - by intros (nonce & time & from & life & rest & -> & ->).
Qed.

Lemma expire_tracks now log st :
  invitation_log log -> tracks log st ->
  invitation_log (expiry now st ++ log) /\ tracks (expiry now st ++ log) (expire_locked now st)
  /\ match expire_locked now st with
     | JIdle => True
     | JActive _ d => now < d /\ expiry now st = []
     | JPending p => now < pj_deadline p /\ expiry now st = []
     end.
Proof.
  intros Hl Ht. pose proof (tracks_open _ _ Ht) as Ho. unfold expiry, expire_locked.
  destruct st as [|nonce d|p]; simpl in *; [done | |].
  - destruct (d <=? now) eqn:E; boolp; simpl; [|done]. split; [by eapply log_expired | done].
  - destruct (pj_deadline p <=? now) eqn:E; boolp; simpl; [|done]. split; [by eapply log_expired | done].
Qed.

Lemma step_tracks op log st :
  invitation_log log -> tracks log st ->
  let '(events, st') := coordinator_step op st in invitation_log (events ++ log) /\ tracks (events ++ log) st'.
Proof.
  intros Hl Ht. destruct op as [t1 t2 nonce lifetime|t|t id|t1 t2 nonce remote name addr id channel|t id decision alive|id];
    simpl.
  - unfold activate. destruct (negb _) eqn:Elife; [done|]. boolp.
    destruct (expire_tracks t1 log st Hl Ht) as (Hl' & Ht' & _). destruct (expire_locked t1 st); try done.
    split; [|simpl; eauto 6]. apply log_activated; [done | done |]. unfold MAX_INVITATION_LIFETIME in *. lia.
  - unfold pending. destruct (expire_tracks t log st Hl Ht) as (Hl' & Ht' & _). by destruct (expire_locked t st).
  - unfold pending_addr. destruct (expire_tracks t log st Hl Ht) as (Hl' & Ht' & _).
    destruct (expire_locked t st); try done. by case_bool_decide.
  - unfold claim. destruct (let? _ := _ in _) as [u|e]; [|done].
    destruct (expire_tracks t1 log st Hl Ht) as (Hl' & Ht' & Hd). destruct (expire_locked t1 st) as [|expected d|p]; try done.
    destruct (nonce_matches expected nonce) eqn:En; simpl; [|done]. destruct (Z.max 0 (d - t2) =? 0) eqn:Er; [done|]. boolp.
    apply nonce_matches_true in En. subst expected.
    destruct Hd as [Hd Ee]. rewrite Ee in *. simpl in *. destruct Ht' as (from & life & rest & -> & ->).
    split; [|simpl; eauto 8]. apply log_claimed; [done | lia].
  - unfold decide_join. destruct (expire_tracks t log st Hl Ht) as (Hl' & Ht' & Hd).
    destruct (expire_locked t st) as [|expected d|p]; try done. case_bool_decide; [done|].
    destruct Hd as [Hd Ee]. rewrite Ee in *. simpl in *. destruct Ht' as (nonce & time & from & life & rest & -> & Hp).
    destruct alive; (split; [|done]).
    + eapply log_decided; [done | reflexivity | lia].
    + by apply log_dropped.
  - destruct st as [|nonce d|p]; simpl in *; try done. case_bool_decide; [|done]. simpl.
    destruct Ht as (nonce & time & from & life & rest & -> & Hp). split; [by apply log_dropped | done].
Qed.

Lemma log_tracks ops log st :
  invitation_log log -> tracks log st ->
  invitation_log (coordinator_log ops log st).1 /\ tracks (coordinator_log ops log st).1 (coordinator_log ops log st).2.
Proof.
  revert log st. induction ops as [|op ops IH]; intros log st Hl Ht; simpl; [done|].
  pose proof (step_tracks op log st Hl Ht) as Hs. destruct (coordinator_step op st) as [events st'].
  destruct Hs. by apply IH.
Qed.
End coordinator.

(** ** Frames *)

Lemma jbind_Ok {A B} (m : JIO A) (f : A -> JIO B) s b s' :
  jbind m f s = (Ok b, s') <-> exists a s1, m s = (Ok a, s1) /\ f a s1 = (Ok b, s').
Proof.
  unfold jbind. destruct (m s) as [[a|e] s1]; split.
  - eauto.
  - by intros (? & ? & [= -> ->] & ?).
  - done.
  - by intros (? & ? & [=] & _).
Qed.

Lemma join_read_Ok n s l s' : 0 <= n ->
  join_read n s = (Ok l, s') <->
  read_exact n (je_recv s) = Ok (l, je_recv s') /\ je_db s' = je_db s /\ je_send s' = je_send s.
Proof.
  intros Hn. unfold join_read. destruct (read_exact n (je_recv s)) as [[k recv]|e]; split.
  - by intros [= -> <-].
  - destruct s' as [db' recv' send']. simpl. by intros ([= -> ->] & -> & ->).
  - done.
  - by intros ([=] & _).
Qed.

Lemma join_read_chunks_Ok sizes s l s' : Forall (fun n => 0 <= n) sizes ->
  join_read_chunks sizes s = (Ok l, s') <->
  read_chunks sizes (je_recv s) = Ok (l, je_recv s') /\ je_db s' = je_db s /\ je_send s' = je_send s.
Proof.
  intros Hs. revert s l s'. induction Hs as [|n sizes Hn Hs IH]; intros s l s'; simpl.
  - split; [by intros [= <- <-]|]. destruct s as [db recv send], s' as [db' recv' send']. simpl.
    by intros ([= <- <-] & -> & ->).
  - rewrite jbind_Ok. setoid_rewrite jbind_Ok. setoid_rewrite (join_read_Ok n); [|done]. setoid_rewrite IH. split.
    + intros (c & s1 & (E1 & D1 & S1) & r & s2 & (E2 & D2 & S2) & [= <- <-]). rewrite E1. simpl. rewrite E2. simpl.
      split; [done|]. split; congruence.
    + intros (E & D & S). apply rbind_Ok in E as ([c recv1] & E1 & E). apply rbind_Ok in E as ([r recv2] & E2 & E).
      injection E as <- ->. exists c, (mkEnd (je_db s) recv1 (je_send s)). split; [done|]. by exists r, s'.
Qed.

Definition json_frame (l : bytes) : bytes := u32_be (len l) ++ l.

(** What a reader of a frame takes off the stream. *)
Definition takes (s : JoinEnd) (l : bytes) (s' : JoinEnd) : Prop :=
  stream_bytes (je_recv s) = json_frame l ++ stream_bytes (je_recv s') /\
  stream_stop (je_recv s') = stream_stop (je_recv s) /\ je_db s' = je_db s /\ je_send s' = je_send s.

Lemma read_json_Ok {T} (parse : bytes -> option T) limit s x s' : limit < 2 ^ 32 ->
  read_json parse limit s = (Ok x, s') <-> exists l, takes s l s' /\ parse l = Some x /\ len l <= limit.
Proof.
  intros Hlimit. unfold read_json. rewrite jbind_Ok. setoid_rewrite jbind_Ok.
  setoid_rewrite (join_read_Ok 1); [|done]. setoid_rewrite (join_read_Ok 3); [|done].
  setoid_rewrite (read_exact_Ok 1); [|done]. setoid_rewrite (read_exact_Ok 3); [|done]. unfold takes, json_frame. split.
  - intros (a & s1 & ((B1 & T1 & L1) & D1 & S1) & b & s2 & ((B2 & T2 & L2) & D2 & S2) & E).
    assert (length (a ++ b) = 4%nat) as L4 by (rewrite length_app; unfold len in *; lia).
    destruct (from_be_u32 (a ++ b) L4) as [E4 R4]. set (n := from_be (a ++ b)) in *.
    assert (0 <= n) as Hn by (unfold in_u32 in R4; boolp; lia).
    destruct (chunk_sizes_sum n Hn) as [Hsum Hall]. cbv zeta in E. destruct (limit <? n) eqn:El; [done|]. boolp.
    apply jbind_Ok in E as (l & s3 & (Er & D3 & S3)%(join_read_chunks_Ok _ _ _ _ Hall) & E).
    apply (read_chunks_Ok _ _ _ _ Hall) in Er. rewrite Hsum in Er. apply (read_exact_Ok _ _ _ _ Hn) in Er as (B3 & T3 & L3).
    unfold jlift in E. injection E as E <-. apply ok_or_Ok in E. exists l.
    rewrite L3, E4, B1, B2, B3, <-!app_assoc. split; [|done]. split; [done|]. split; [|split]; congruence.
  - intros (l & (B & Et & D & S) & Hp & Hl). pose proof (len_nonneg l) as Hn.
    assert (Z.of_nat (length (u32_be (len l))) = 4) as L4 by apply len_u32_be.
    destruct (u32_be (len l)) as [|c [|c1 [|c2 [|c3 [|]]]]] eqn:Eu; try done. clear L4.
    destruct s as [db recv send]; simpl in *.
    exists [c], (mkEnd db (mkStream ([c1; c2; c3] ++ l ++ stream_bytes (je_recv s')) (stream_stop recv)) send).
    split; [done|].
    exists [c1; c2; c3], (mkEnd db (mkStream (l ++ stream_bytes (je_recv s')) (stream_stop recv)) send).
    split; [done|]. change ([c] ++ [c1; c2; c3]) with [c; c1; c2; c3]. rewrite <-Eu.
    assert (in_u32 (len l) = true) as R4 by (unfold in_u32; apply andb_true_iff; split; [apply Z.leb_le | apply Z.ltb_lt]; lia).
    rewrite u32_be_from by done. cbv zeta. rewrite (proj2 (Z.ltb_ge limit (len l))) by done.
    destruct (chunk_sizes_sum (len l) Hn) as [Hsum Hall]. apply jbind_Ok. exists l, s'.
    split; [|unfold jlift; by rewrite Hp]. apply join_read_chunks_Ok; [done|]. split; [|done].
    apply read_chunks_Ok; [done|]. rewrite Hsum. by apply read_exact_Ok.
Qed.

Lemma join_write_chunks_all l db recv sent :
  join_write_chunks l (mkEnd db recv (mkSink sent None)) = (Ok tt, mkEnd db recv (mkSink (sent ++ concat l) None)).
Proof.
  revert sent. induction l as [|c l IH]; intros sent; simpl; [by rewrite app_nil_r|].
  unfold jbind, join_write. simpl. by rewrite IH, <-app_assoc.
Qed.

Lemma write_json_all l limit db recv sent : len l <= limit < 2 ^ 32 ->
  write_json (Some l) limit (mkEnd db recv (mkSink sent None))
  = (Ok tt, mkEnd db recv (mkSink (sent ++ json_frame l) None)).
Proof.
  intros Hl. unfold write_json, jbind, jlift. simpl. rewrite (proj2 (Z.ltb_ge limit (len l))) by lia.
  assert (u32_try_from (len l) = Some (len l)) as -> by (apply u32_try_from_Some; pose proof (len_nonneg l); lia).
  simpl. unfold join_write. simpl. by rewrite join_write_chunks_all, chunks_concat, <-app_assoc.
Qed.
