(* ===== verification/ApprovalLaws.v ===== *)
(** The approval of a join: what [build_join_approval_in] hands out, and what
    [check_approval] makes of it at the joining device. *)

From S2P Require Import Prelude Bytes Utf8 Cursor Canonical Path Identity Concrete Records Roster RosterConverge Protocol.
From S2P Require Import Database State RosterStore RosterLaws Platform Installer Sync Session SessionLaws.
From S2P Require Import Join Joining JoinLaws Network.

Section approval.
Context `{Crypto, EventJson, Platform, Iroh, JoinCodec, !JoinCodecLaws}.

(** ** The payload *)

Lemma decode_encode_roster rs encoded :
  encode_roster rs = Ok encoded -> Forall roster_wf rs -> genesis_chain rs -> decode_roster encoded = Ok rs.
Proof.
  intros E Hw Hc. unfold encode_roster in E. apply rbind_Ok in E as (l & El%map_err_Ok & [= <-]).
  assert (l <> [] /\ len l <= MAX_ROSTER_BYTES) as [Hl Hn].
  { apply roster_bundle_encode_Ok in El as [(Hne & _ & _ & Hb) ->]. split; [|done].
    unfold revisions_encoding. by destruct (u32_be (len rs)) eqn:Eu; [apply (f_equal len) in Eu; rewrite len_u32_be in Eu|]. }
  unfold decode_roster. rewrite bool_decide_eq_false_2 by (by apply base64_nonempty).
  rewrite base64_roundtrip. cbn [ok_or rbind]. rewrite (proj2 (Z.ltb_ge _ _)) by done.
  by rewrite (proj2 (roster_bundle_decode_iff l rs)).
Qed.

Lemma decision_approved_Ok roster hints d :
  decision_approved roster hints = Ok d ->
  exists encoded tip n text,
    d = DApproved encoded hints /\ encode_roster roster = Ok encoded /\ last roster = Some tip /\
    validate_hint_texts tip (items hints) 0 = Ok n /\
    response_to_json (mkJoinResponse true encoded hints) = Some text /\ len text <= JOIN_RESPONSE_LIMIT.
Proof.
  unfold decision_approved, validate_approval_payload. intros E. inv_ok. boolp. eauto 10.
Qed.

Lemma endpoint_addr_hint h e : validate_endpoint_addr h e = Ok tt -> validate_peer_hint h = Ok tt.
Proof.
  unfold validate_endpoint_addr, validate_peer_hint. intros E. apply check_not_Ok in E as [E _].
  change MAX_PEER_HINT_BYTES with (16 * 1024). by rewrite E.
Qed.

(** The hints that a member checked are the hints the joining device keeps. *)
Lemma validate_hints_ok tip local hints n m :
  validate_hint_texts tip hints n = Ok m ->
  (forall k h, (k, h) ∈ hints -> exists e, e <> local /\ k = eid_to_string e) ->
  exists v, validate_hints_of tip local hints = Ok v /\ validate_hints v = Ok tt /\
    forall e h, (eid_to_string e, h) ∈ hints -> (e, h) ∈ v.
Proof.
  revert n. induction hints as [|[k h] hints IH]; intros n E Hk; simpl in *.
  - exists []. split; [done|]. split; [done|]. by intros e h ?%not_elem_of_nil.
  - apply rbind_Ok in E as (x & Ex%map_err_Ok & E). apply check_not_Ok in E as [Hm E].
    apply rbind_Ok in E as (n1 & _ & E). apply rbind_Ok in E as ([] & Ea & E). apply rbind_Ok in E as (n2 & _ & E).
    destruct (Hk k h ltac:(left)) as (e & Hne & ->). rewrite eid_from_to_string in *. injection Ex as ->.
    destruct (IH _ E) as (v & Ev & Hv & Hin); [intros k0 h0 Hin0; apply (Hk k0 h0); by right|].
    exists ((x, h) :: v). cbn [map_err rbind]. rewrite (bool_decide_eq_false_2 (x = local)) by done.
    rewrite Hm. cbn [orb]. rewrite Ea. cbn [rbind]. rewrite Ev. cbn [rbind]. split; [done|]. split.
    + simpl. by rewrite (endpoint_addr_hint _ _ Ea).
    + intros e' h' [Heq|?]%elem_of_cons; [|right; auto]. injection Heq as Heq ->.
      apply (f_equal eid_from_str) in Heq. rewrite !eid_from_to_string in Heq. injection Heq as ->. left.
Qed.

(** ** Building it *)

Lemma nstate_reads {A} (m : Db A) : reads m -> respects same_db (nstate m).
Proof.
  intros Hm. unfold nstate. apply respects_map_err. intros w r w'. unfold on_db.
  destruct (m (w_db w)) as [x db] eqn:E. apply Hm in E as ->. by intros [= _ <-].
Qed.

Lemma reads_hint e : reads (peer_hint e).
Proof. by intros db r db' [= _ <-]. Qed.

Lemma collect_hints_keeps joiner local json members acc :
  respects same_db (collect_hints joiner local json members acc).
Proof.
  revert acc. induction members as [|e members IH]; intros acc; simpl;
    walk ltac:(first [apply IH | apply nstate_reads, reads_hint]).
Qed.

Lemma collect_hints_spec joiner local json members acc w hints w' :
  collect_hints joiner local json members acc w = (Ok hints, w') ->
  (forall k h, hints !! k = Some h ->
     is_Some (acc !! k) \/ exists e, e <> joiner /\ k = eid_to_string e) /\
  (forall k, is_Some (acc !! k) -> is_Some (hints !! k)) /\
  (local ∈ members -> local <> joiner -> is_Some (hints !! eid_to_string local)).
Proof.
  revert acc w. induction members as [|e members IH]; intros acc w E; simpl in E.
  - injection E as <- _. split; [|split; [done|]]; [eauto | by intros ?%not_elem_of_nil].
  - case_bool_decide as Hj.
    + apply IH in E as (H1' & H2' & H3'). split; [done|]. split; [done|]. intros [->|?]%elem_of_cons; auto. done.
    + apply ibind_Ok in E as (hint & w1 & Eh & E). apply IH in E as (H1' & H2' & H3').
      assert (e = local -> is_Some hint) as Hlocal.
      { intros ->. rewrite bool_decide_eq_true_2 in Eh by done. by injection Eh as <- _. }
      split; [|split].
      * intros k h Hk. destruct (H1' k h Hk) as [Hs|?]; [|by right]. destruct hint as [hint|]; [|by left].
        destruct (decide (k = eid_to_string e)) as [->|Hne]; [right; by exists e|].
        rewrite lookup_insert_ne in Hs by done. by left.
      * intros k Hk. apply H2'. destruct hint as [hint|]; [|done].
        destruct (decide (k = eid_to_string e)) as [->|Hne]; [by rewrite lookup_insert_eq | by rewrite lookup_insert_ne].
      * intros [->|?]%elem_of_cons Hne; [|auto]. apply H2'. destruct (Hlocal eq_refl) as [hint' ->].
        by rewrite lookup_insert_eq.
Qed.

Lemma approval_hints_spec info identity json w hints w' roster tip :
  approval_peer_hints info identity json w = (Ok hints, w') ->
  selected_roster_chain (w_db w) = (Ok roster, w_db w) -> last roster = Some tip ->
  w_db w' = w_db w /\
  (forall k h, hints !! k = Some h -> exists e, e <> pi_endpoint_id info /\ k = eid_to_string e) /\
  (rev_members tip !! endpoint_id identity <> None -> endpoint_id identity <> pi_endpoint_id info ->
   is_Some (hints !! eid_to_string (endpoint_id identity))).
Proof.
  intros E Er El. unfold approval_peer_hints in E.
  apply ibind_Ok in E as (roster' & w1 & E1 & E). pose proof (nstate_reads _ reads_chain _ _ _ E1) as D1.
  unfold nstate in E1. apply imap_err_Ok, on_db_Ok in E1 as (db1 & E1 & _). rewrite Er in E1. injection E1 as <- _.
  apply ibind_Ok in E as (tip' & w2 & E2 & E). injection E2 as E2 ->. rewrite El in E2. injection E2 as <-.
  split; [etransitivity; [apply (collect_hints_keeps _ _ _ _ _ _ _ _ E) | done]|].
  apply collect_hints_spec in E as (Hk & _ & Hl). split.
  - intros k h Hin. destruct (Hk k h Hin) as [[? ?]|?]; [done | done].
  - intros Hm Hne. apply Hl; [|done]. apply not_eq_None_Some in Hm as [name Hm].
    apply list_elem_of_fmap. exists (endpoint_id identity, name). split; [done|]. by apply items_elem.
Qed.

(** ** In a group *)

Section group.
Context `{!CryptoLaws}.
Variables (universe : list RosterRevision) (g : RosterRevision).
Hypotheses (separated : roster_separates universe) (genesis_in : g ∈ universe) (genesis_valid : validate_genesis g = Ok tt).

(** A member of the group of [g], whose tip is the end of [l]. *)
Definition store_at (db : Database) (l : list RosterRevision) : Prop :=
  roster_ok universe g db /\ selected (descendants g db) g l.

Lemma store_selects db l : store_at db l -> selected_roster_chain db = (Ok (g :: l), db).
Proof. intros [Hok Hs]. by apply (selected_complete universe separated g genesis_in genesis_valid). Qed.

Lemma store_same db db' l : roster_t db' = roster_t db -> store_at db l -> store_at db' l.
Proof.
  intros E Hdb. pose proof (store_selects db l Hdb) as Es. destruct Hdb as [Hok Hs].
  assert (roster_ok universe g db') as Hok' by by apply (roster_ok_same universe g db). split; [done|].
  apply (select_same db db') in Es; [|done].
  destruct (selected_sound universe separated g genesis_in genesis_valid db' _ Hok' Es) as (l' & [= <-] & ?). done.
Qed.

Lemma admit_keeps r p member e :
  validate_child r p = Ok tt -> rev_change r = Admit member -> rev_members p !! e <> None -> rev_members r !! e <> None.
Proof.
  intros (_ & _ & _ & _ & _ & Ha & _)%validate_child_Ok Hc Hm. rewrite Hc in Ha.
  apply apply_change_Ok in Ha as (_ & _ & ->). destruct (decide (e = member_id member)) as [->|Hne].
  - by rewrite lookup_insert_eq.
  - by rewrite lookup_insert_ne.
Qed.

(** Admitting a device that is not a member stores a new tip. *)
Lemma admit_applies db l identity member hint_endpoint hint revision db' :
  store_at db l -> identity_wf identity -> rev_members (List.last l g) !! member_id member = None ->
  (forall r, child (List.last l g) (Admit member) identity = Ok r -> r ∈ universe) ->
  apply_roster_change_with_peer_hint identity (Admit member) hint_endpoint hint db = (Ok revision, db') ->
  store_at db' (l ++ [revision]) /\ validate_child revision (List.last l g) = Ok tt /\
  rev_change revision = Admit member.
Proof.
  intros [Hok Hs] Hid Hm Hu E. unfold apply_roster_change_with_peer_hint in E.
  apply dbind_Ok in E as ([] & db1 & Ev & E). injection Ev as Ev ->.
  assert (roster_change_is_satisfied (List.last l g) (Admit member) = false) as Hsat.
  { simpl. rewrite Hm. by apply bool_decide_eq_false_2. }
  destruct (child (List.last l g) (Admit member) identity) as [r|e] eqn:Hc.
  - pose proof (child_validates _ _ _ _ Hid Hc) as (Hv & Hch & _).
    destruct (change_applied universe separated g genesis_in genesis_valid db1 l identity (Admit member)
      (Some (hint_endpoint, hint)) r) as (db2 & (Hok2 & _) & Hs2 & Hrun); [done..|auto|].
    rewrite Hrun in E. injection E as <- <-. split; [|done].
    by apply (store_same db2); [apply (roster_hint_db (Some (hint_endpoint, hint)))|].
  - rewrite (change_refused universe separated g genesis_in genesis_valid db1 l identity (Admit member)
      (Some (hint_endpoint, hint)) e) in E by done. done.
Qed.

Lemma replace_hint_same e hint db db' : replace_peer_hint e hint db = (Ok tt, db') -> roster_t db' = roster_t db.
Proof.
  unfold replace_peer_hint. intros ([] & db1 & Ev & E)%dbind_Ok. injection Ev as Ev ->.
  apply (proj1 (transaction_Ok _ _ _ _)) in E. rewrite upsert_hint_ok in E by done. by injection E as <-.
Qed.

Lemma build_approval_spec identity json info addr w d w' l :
  store_at (w_db w) l -> identity_wf identity ->
  rev_members (List.last l g) !! endpoint_id identity <> None ->
  (forall r, child (List.last l g) (Admit (mkMember (pi_endpoint_id info) (pi_device_name info))) identity = Ok r ->
     r ∈ universe) ->
  build_join_approval_in (Some identity) json info addr w = (Ok d, w') ->
  exists l' hints,
    store_at (w_db w') l' /\ rev_members (List.last l' g) !! pi_endpoint_id info = Some (pi_device_name info) /\
    rev_members (List.last l' g) !! endpoint_id identity <> None /\
    decision_approved (g :: l') hints = Ok d /\
    (forall k h, hints !! k = Some h -> exists e, e <> pi_endpoint_id info /\ k = eid_to_string e) /\
    (endpoint_id identity <> pi_endpoint_id info -> is_Some (hints !! eid_to_string (endpoint_id identity))).
Proof.
  intros Hw Hid Hinviter Hu E. unfold build_join_approval_in in E.
  apply ibind_Ok in E as (i0 & w0 & E0 & E). injection E0 as <- <-.
  apply ibind_Ok in E as (chain & w1 & E1 & E). apply imap_err_Ok, on_db_Ok in E1 as (db1 & E1 & ->).
  rewrite (store_selects _ _ Hw) in E1. injection E1 as <- <-.
  apply ibind_Ok in E as (tip & w2 & E2 & E). rewrite last_of_chain in E2. injection E2 as <- <-. cbv zeta in E.
  destruct (match rev_members (List.last l g) !! pi_endpoint_id info with Some _ => _ | None => _ end) in E; [done|].
  destruct (bool_decide _ && existsb _ _) in E; [done|].
  set (w1 := set_db w (w_db w)) in E.
  assert (store_at (w_db w1) l) as Hw1 by done.
  apply ibind_Ok in E as (hints0 & w3 & E3 & E).
  destruct (approval_hints_spec _ _ _ _ _ _ _ _ E3 (store_selects _ _ Hw1) (last_of_chain _ _)) as [D3 _].
  apply ibind_Ok in E as (u & w4 & E4 & E).
  assert (exists l', store_at (w_db w4) l' /\ rev_members (List.last l' g) !! endpoint_id identity <> None)
    as (l' & Hw4 & Hi4).
  { clear E. case_bool_decide as Ha.
    - apply ibind_Ok in E4 as (member & w5 & E5 & E4). injection E5 as E5 <-. apply map_err_Ok in E5.
      apply ibind_Ok in E4 as (candidate & w6 & E6 & E4). injection E6 as E6 <-. apply map_err_Ok in E6.
      apply ibind_Ok in E4 as (u1 & w7 & E7 & E4). injection E7 as E7 <-.
      apply ibind_Ok in E4 as (revision & w8 & E8 & E4). injection E4 as _ <-.
      apply imap_err_Ok, on_db_Ok in E8 as (db8 & E8 & ->). rewrite D3 in E8.
      destruct (admit_applies _ l identity member (pi_endpoint_id info) addr revision db8 Hw1 Hid) as (Hs8 & Hv & Hch); [| |exact E8|].
      + apply member_new_Ok in E5 as [_ ->]; exact Ha.
      + apply member_new_Ok in E5 as [_ ->]. exact Hu.
      + exists (l ++ [revision]). split; [exact Hs8|]. rewrite List.last_last. by eapply admit_keeps.
    - destruct u. apply imap_err_Ok, on_db_Ok in E4 as (db8 & E8 & ->). exists l. split; [|done].
      apply replace_hint_same in E8. rewrite D3 in E8. by apply (store_same (w_db w1)). }
  clear E4. apply ibind_Ok in E as (chain & w5 & E5 & E). apply imap_err_Ok, on_db_Ok in E5 as (db5 & E5 & ->).
  rewrite (store_selects _ _ Hw4) in E5. injection E5 as <- <-. rewrite last_of_chain in E. simpl in E.
  case_bool_decide as Hname; [done|].
  apply ibind_Ok in E as (hints & w6 & E6 & E). injection E as E <-. apply map_err_Ok in E.
  set (w5 := set_db w4 (w_db w4)) in E6. assert (store_at (w_db w5) l') as Hw5 by done.
  destruct (approval_hints_spec _ _ _ _ _ _ _ _ E6 (store_selects _ _ Hw5) (last_of_chain _ _)) as (D6 & Hk & Hl).
  exists l', hints. rewrite D6. auto 10.
Qed.

(** The joining device accepts such an approval, whole. *)
Lemma approval_checks db l hints d joiner inviter name :
  store_at db l -> rev_members (List.last l g) !! joiner = Some name -> rev_members (List.last l g) !! inviter <> None ->
  decision_approved (g :: l) hints = Ok d ->
  (forall k h, hints !! k = Some h -> exists e, e <> joiner /\ k = eid_to_string e) ->
  is_Some (hints !! eid_to_string inviter) ->
  exists text v,
    response_to_json (response_of d) = Some text /\ len text <= JOIN_RESPONSE_LIMIT /\
    response_from_json text = Some (response_of d) /\ jp_approved (response_of d) = true /\
    check_approval joiner inviter name (response_of d) = Ok (g :: l, v) /\ validate_hints v = Ok tt.
Proof.
  intros [Hok Hs] Hj Hi (encoded & tip & n & text & -> & Eenc & Elast & Ehints & Etext & Hlen)%decision_approved_Ok Hk [h Hh].
  exists text. rewrite last_of_chain in Elast. injection Elast as <-.
  destruct (validate_hints_ok _ joiner _ _ _ Ehints) as (v & Ev & Hv & Hin).
  { intros k h' Hkh. apply (Hk k h'). by apply items_elem. }
  exists v. cbn [response_of]. split; [done|]. split; [done|]. split; [by apply response_roundtrip|].
  split; [done|]. split; [|done].
  unfold check_approval. cbn [jp_roster jp_peer_hints]. rewrite (decode_encode_roster (g :: l)); [|done| |].
  - cbn [rbind]. rewrite last_of_chain. cbn [ok_or rbind].
    rewrite bool_decide_eq_false_2 by (rewrite Hj; auto). rewrite bool_decide_eq_false_2 by done. cbn [orb].
    rewrite Ev. cbn [rbind]. assert (existsb (fun x => bool_decide (x.1 = inviter)) v = true) as ->; [|done].
    apply existsb_exists. exists (inviter, h). split; [|by apply bool_decide_eq_true].
    apply list_elem_of_In, Hin, items_elem. done.
  - apply Forall_forall. intros r Hr. apply (universe_ok universe separated).
    by apply (selected_universe universe separated g genesis_in db l).
  - split; [done|]. by apply selected_valid in Hs as [? _].
Qed.

(** ** At the joining device *)

(** A fresh device that reads an approving response ends in the group, and has
    sent its request and its acknowledgement. *)
Lemma joiner_completes db l v joiner inviter name nonce local_addr addr request ack text response fresh :
  store_at db l -> rev_members (List.last l g) !! joiner = Some name -> validate_hints v = Ok tt ->
  roster_t fresh = ∅ ->
  addr_to_json local_addr = Some addr ->
  request_to_json (mkJoinRequest nonce name addr) = Some request -> len request <= JOIN_REQUEST_LIMIT ->
  ack_to_json (mkJoinAck true) = Some ack -> len ack <= JOIN_REQUEST_LIMIT ->
  response_from_json text = Some response -> len text <= JOIN_RESPONSE_LIMIT -> jp_approved response = true ->
  check_approval joiner inviter name response = Ok (g :: l, v) ->
  exists db', store_at db' l /\
    run_joiner_on_endpoint joiner inviter local_addr (Ok inviter) (Ok tt) (Ok tt) nonce name
      (mkEnd fresh (mkStream (json_frame text) Closed) (mkSink [] None))
    = (Ok inviter, mkEnd db' (mkStream [] Closed) (mkSink (json_frame request ++ json_frame ack) None)).
Proof.
  intros Hdb Hj Hv Hf Ha Er Hr Ek Hk Et Ht Happ Ec. pose proof Hdb as [Hok Hs].
  destruct (install_first universe separated g genesis_in genesis_valid fresh l joiner name v Hf) as (db1 & Hok1 & Hs1 & Hrun);
    [| by apply selected_valid in Hs as [? _] | done | done |].
  { intros r Hr'. apply (selected_universe universe separated g genesis_in db l r Hok Hs). by right. }
  exists (hints_db v db1). split.
  { apply (store_same db1); [apply roster_hints_db | done]. }
  unfold run_joiner_on_endpoint. unfold jbind at 1. unfold jlift at 1. rewrite bool_decide_eq_false_2 by auto.
  unfold jbind at 1. unfold jlift at 1. unfold jbind at 1. unfold jlift at 1. rewrite Ha. cbn [ok_or].
  unfold jbind at 1. rewrite Er, write_json_all by (split; [done | reflexivity]). cbn [app].
  unfold jbind at 1.
  rewrite (proj2 (read_json_Ok response_from_json JOIN_RESPONSE_LIMIT _ response
    (mkEnd fresh (mkStream [] Closed) (mkSink (json_frame request) None)) eq_refl)).
  2: { exists text. split; [|done]. unfold takes. cbn. by rewrite app_nil_r. }
  rewrite Happ. cbn [negb]. unfold jbind at 1. unfold jlift at 1. rewrite Ec.
  unfold jbind at 1. unfold jdb at 1. cbn [je_db je_recv je_send]. rewrite Hrun. cbn [map_err].
  unfold jbind at 1. rewrite Ek, write_json_all by (split; [done | reflexivity]).
  unfold jbind at 1. unfold jlift at 1. unfold jbind at 1. reflexivity.
Qed.

(** ** At the inviting device *)

Lemma inviter_completes d text ack joiner db :
  response_to_json (response_of d) = Some text -> len text <= JOIN_RESPONSE_LIMIT -> jp_approved (response_of d) = true ->
  ack_to_json (mkJoinAck true) = Some ack -> len ack <= JOIN_REQUEST_LIMIT ->
  answer_join d (Ok tt) joiner (mkEnd db (mkStream (json_frame ack) Closed) (mkSink [] None))
  = (Ok joiner, mkEnd db (mkStream [] Closed) (mkSink (json_frame text) None)).
Proof.
  intros Et Ht Happ Ek Hk. unfold answer_join. cbv zeta. unfold jbind at 1.
  rewrite Et, write_json_all by (split; [done | reflexivity]). cbn [app]. rewrite Happ. cbn [negb].
  unfold jbind at 1, read_ack. unfold jbind at 1.
  rewrite (proj2 (read_json_Ok ack_from_json JOIN_REQUEST_LIMIT _ (mkJoinAck true)
    (mkEnd db (mkStream [] Closed) (mkSink (json_frame text) None)) eq_refl)); [reflexivity|].
  exists ack. split; [unfold takes; cbn; by rewrite app_nil_r|]. split; [by apply ack_roundtrip | done].
Qed.
End group.
End approval.
