(* ===== verification/JoinProps.v ===== *)
(** The properties of joining: invitations, device names, frames, and a join
    from the request to the two stores. *)

From S2P Require Import Prelude Bytes Utf8 Cursor Canonical Path Identity Concrete Records Roster RosterConverge Protocol.
From S2P Require Import Database State StateProps RosterStore RosterLaws RosterProps Platform ToyFs Installer Sync SyncProps.
From S2P Require Import Session SessionLaws SessionProps Join ToyJoin JoinLaws Joining Network ApprovalLaws.

(** The comparison of nonces that looks at every byte is equality. *)
Theorem nonce_matches_equal (nonce other : array 32) : nonce_matches nonce other = bool_decide (nonce = other).
Proof.
  destruct (nonce_matches nonce other) eqn:E; symmetry.
  - apply bool_decide_eq_true. by apply nonce_matches_true.
  - apply bool_decide_eq_false. intros En%nonce_matches_true. by rewrite E in En.
Qed.

(** A device name is shown without a character that could steer the
    terminal, whatever the name; and a name that a join accepts is shown as it
    is. *)
Theorem device_name_rendering (name : bytes) :
  Forall (fun c => terminal_unsafe_character c = false) (terminal_safe_device_name name) /\
  (validate_join_device_name name = Ok tt -> terminal_safe_device_name name = chars name).
Proof.
  unfold terminal_safe_device_name. split.
  - apply Forall_forall. intros c (x & Hx & Hc)%list_elem_of_In%in_flat_map.
    pose proof (render_safe x) as Hr. rewrite Forall_forall in Hr. by apply Hr, list_elem_of_In.
  - intros Hv. apply render_same. unfold validate_join_device_name in Hv. apply check_not_Ok in Hv as [Hv _]. boolp.
    apply Forall_forall. intros c Hc%list_elem_of_In. apply not_true_iff_false. intros Hu.
    assert (existsb terminal_unsafe_character (chars name) = true); [|congruence].
    apply existsb_exists. eauto.
Qed.

Lemma device_name_rendering_witness : terminal_safe_device_name (lit "laptop") = chars (lit "laptop").
Proof. apply (device_name_rendering (lit "laptop")). reflexivity. Defined.

(** C22: Whatever is called on a coordinator, in whatever order and with
    whatever readings of the clock, its log is one of an [invitation_log]: an
    invitation is open for one to fifteen minutes, and never two at a time; it
    is claimed at most once, by a device that shows its nonce before its
    deadline; and a claim is decided at most once, before the deadline. *)
Theorem coordinator_single_use `{Iroh} (ops : list CoordinatorOp) :
  invitation_log (coordinator_log ops [] JIdle).1.
Proof. by apply log_tracks; [constructor|]. Qed.

(** The frames of a join round trip: what [write_json] appends to an open
    stream is what [read_json] takes off it, leaving the rest; and nothing else
    is read than such a frame within the limit. *)
Theorem json_frame_roundtrip {T} (parse : bytes -> option T) (limit : Z) text x s s' db recv sent :
  len text <= limit < 2 ^ 32 -> parse text = Some x ->
  (exists framed, write_json (Some text) limit (mkEnd db recv (mkSink sent None))
     = (Ok tt, mkEnd db recv (mkSink (sent ++ framed) None)) /\
   (stream_bytes (je_recv s) = framed ++ stream_bytes (je_recv s') ->
    stream_stop (je_recv s') = stream_stop (je_recv s) -> je_db s' = je_db s -> je_send s' = je_send s ->
    read_json parse limit s = (Ok x, s'))) /\
  (forall y, read_json parse limit s = (Ok y, s') ->
     exists l, stream_bytes (je_recv s) = u32_be (len l) ++ l ++ stream_bytes (je_recv s') /\
       parse l = Some y /\ len l <= limit).
Proof.
  intros Hl Hp. split.
  - exists (json_frame text). split; [by apply write_json_all|]. intros Hb He Hd Hs. apply read_json_Ok; [lia|].
    exists text. by split; [|split; [|lia]].
  - intros y (l & (Hb & _) & Hy & Hn)%read_json_Ok; [|lia]. exists l. unfold json_frame in Hb. by rewrite <-app_assoc in Hb.
Qed.

Section properties.
Context `{Crypto, !CryptoLaws, EventJson, Platform, Iroh, JoinCodec, !JoinCodecLaws}.

(** C10: A join that a member approves completes, in step.  The inviter's store
    is one of the group; its coordinator holds an open invitation; the joining
    device has no group yet, shows the nonce, and the approval the inviter
    builds is the decision.  Then each end, reading what the other writes,
    succeeds: the coordinator is idle again, and both stores have the same
    selected chain, in which the device is a member under its name and the
    inviter still is one. *)
Theorem join_completes universe g w w' l identity json name joiner local_addr addr nonce deadline t1 t2 td id channel d
    request ack fresh answering :
  let inviter := endpoint_id identity in
  let info := mkPendingInfo id joiner name in
  roster_separates universe -> g ∈ universe -> validate_genesis g = Ok tt ->
  roster_ok universe g (w_db w) -> selected_roster_chain (w_db w) = (Ok (g :: l), w_db w) ->
  identity_wf identity -> rev_members (List.last l g) !! inviter <> None -> joiner <> inviter ->
  (forall r, child (List.last l g) (Admit (mkMember joiner name)) identity = Ok r -> r ∈ universe) ->
  t1 < deadline -> t2 < deadline -> td < deadline ->
  validate_join_device_name name = Ok tt -> validate_endpoint_addr addr joiner = Ok tt ->
  addr_to_json local_addr = Some addr ->
  request_to_json (mkJoinRequest nonce name addr) = Some request -> len request <= JOIN_REQUEST_LIMIT ->
  ack_to_json (mkJoinAck true) = Some ack -> len ack <= JOIN_REQUEST_LIMIT ->
  roster_t fresh = ∅ ->
  build_join_approval_in (Some identity) json info addr w = (Ok d, w') ->
  exists response fresh' l',
    run_inviter joiner (Ok tt) (Ok tt) t1 t2 id channel (WDecided d) (fun st => (decide_join td id d true st).2)
      (mkEnd answering (mkStream (json_frame request ++ json_frame ack) Closed) (mkSink [] None)) (JActive nonce deadline)
    = (Ok joiner, mkEnd answering (mkStream [] Closed) (mkSink response None), JIdle) /\
    run_joiner_on_endpoint joiner inviter local_addr (Ok inviter) (Ok tt) (Ok tt) nonce name
      (mkEnd fresh (mkStream response Closed) (mkSink [] None))
    = (Ok inviter, mkEnd fresh' (mkStream [] Closed) (mkSink (json_frame request ++ json_frame ack) None)) /\
    selected_roster_chain (w_db w') = (Ok (g :: l'), w_db w') /\
    selected_roster_chain fresh' = (Ok (g :: l'), fresh') /\
    rev_members (List.last l' g) !! joiner = Some name /\ rev_members (List.last l' g) !! inviter <> None.
Proof.
  intros inviter info Hsep Hgu Hg Hok Hsel Hid Hinv Hne Hu Ht1 Ht2 Htd Hname Haddr Ea Er Hr Ek Hk Hf E.
  destruct (selected_sound universe Hsep g Hgu Hg (w_db w) _ Hok Hsel) as (l0 & [= <-] & Hs).
  destruct (build_approval_spec universe g Hsep Hgu Hg identity json info addr w d w' l)
    as (l' & hints & Hw' & Hj & Hi & Hd & Hhints & Hlocal); [by split | done..|].
  destruct (approval_checks universe g Hsep Hgu Hg (w_db w') l' hints d joiner inviter name Hw' Hj Hi Hd Hhints)
    as (text & v & Etext & Htext & Eresp & Happ & Echeck & Hv); [by apply Hlocal|].
  destruct (joiner_completes universe g Hsep Hgu Hg (w_db w') l' v joiner inviter name nonce local_addr addr request ack
    text (response_of d) fresh) as (fresh' & Hfresh & Ejoin); [done..|].
  exists (json_frame text), fresh', l'. split; [|split; [exact Ejoin|]].
  - unfold run_inviter, jbind at 1, jlift at 1.
    rewrite (proj2 (read_json_Ok request_from_json JOIN_REQUEST_LIMIT _ (mkJoinRequest nonce name addr)
      (mkEnd answering (mkStream (json_frame ack) Closed) (mkSink [] None)) eq_refl)).
    2: { exists request. split; [done|]. split; [by apply request_roundtrip | done]. }
    unfold claim. cbn [jr_nonce jr_device_name jr_endpoint_addr_json]. rewrite Hname. cbn [rbind]. rewrite Haddr.
    unfold expire_locked at 1. rewrite (proj2 (Z.leb_gt deadline t1)) by done.
    rewrite (proj2 (nonce_matches_true nonce nonce)) by done. cbn [negb].
    rewrite (proj2 (Z.eqb_neq (Z.max 0 (deadline - t2)) 0)) by lia.
    rewrite (inviter_completes d text ack) by done. unfold decide_join, expire_locked. cbn [pj_deadline pj_info pi_request_id].
    rewrite (proj2 (Z.leb_gt deadline td)) by done. rewrite bool_decide_eq_false_2 by auto. reflexivity.
  - split; [by apply (store_selects universe g)|]. split; [by apply (store_selects universe g)|]. done.
Qed.
End properties.

(** ** Examples *)

Section examples.
#[local] Existing Instance toy_crypto.
#[local] Existing Instance toy_crypto_laws.
#[local] Existing Instance terse_json.
#[local] Existing Instance toy_platform.
#[local] Existing Instance toy_iroh.
#[local] Existing Instance toy_join.

Definition founder_db : Database := with_revision empty_database example_genesis.
Definition founder_world : World := mkWorld founder_db toy_empty 0.
Definition bob_name : bytes := lit "bob".
Definition bob_endpoint : EndpointId := endpoint_id bob.
Definition bob_addr : bytes := arr (eid bob_endpoint).
Definition bob_nonce : array 32 := array_repeat 32 "007"%byte.
Definition bob_info : PendingJoinInfo := mkPendingInfo (lit "id") bob_endpoint bob_name.
Definition bob_approval := build_join_approval_in (Some alice) (arr (eid (endpoint_id alice))) bob_info bob_addr founder_world.
Definition bob_request : bytes := text_of request_tuple (mkJoinRequest bob_nonce bob_name bob_addr).
Definition toy_ack : bytes := text_of ja_accepted (mkJoinAck true).

Lemma founder_ok : roster_ok example_universe example_genesis founder_db.
Proof. exact (genesis_db_ok _ example_separated _ example_genesis_in empty_database eq_refl). Qed.

Lemma founder_selects : selected_roster_chain founder_db = (Ok [example_genesis], founder_db).
Proof. evaluate. Qed.

Lemma join_completes_witness :
  exists fresh' l', selected_roster_chain fresh' = (Ok (example_genesis :: l'), fresh') /\
    rev_members (List.last l' example_genesis) !! bob_endpoint = Some bob_name.
Proof.
  destruct (run_ok bob_approval) as [d E]; [vm_compute; reflexivity|].
  destruct (join_completes example_universe example_genesis founder_world bob_approval.2 [] alice (arr (eid (endpoint_id alice)))
    bob_name bob_endpoint (bob_endpoint : @EndpointAddr toy_iroh) bob_addr bob_nonce 100 1 2 3 (lit "id") 0%nat d bob_request toy_ack empty_database
    empty_database) as (response & fresh' & l' & _ & _ & _ & Hs & Hj & _).
  - apply example_separated.
  - apply example_genesis_in.
  - apply example_genesis_valid.
  - apply founder_ok.
  - apply founder_selects.
  - apply from_secret_wf.
  - evaluate.
  - evaluate.
  - intros r Hr. cbn [List.last] in Hr.
    assert (child example_genesis (Admit (mkMember bob_endpoint bob_name)) alice = Ok admit_bob) as Hc by evaluate.
    rewrite Hc in Hr. apply Ok_inj in Hr as <-. apply example_in_universe. by vm_compute.
  - reflexivity.
  - reflexivity.
  - reflexivity.
  - reflexivity.
  - reflexivity.
  - reflexivity.
  - reflexivity.
  - vm_compute. discriminate.
  - reflexivity.
  - vm_compute. discriminate.
  - reflexivity.
  - exact E.
  - exists fresh', l'. by split.
Defined.

(** The frame of a text of two bytes, followed by one more. *)
Lemma json_frame_roundtrip_witness :
  read_json Some 10 (mkEnd empty_database (mkStream (json_frame (lit "{}") ++ lit "!") Closed) (mkSink [] None))
  = (Ok (lit "{}"), mkEnd empty_database (mkStream (lit "!") Closed) (mkSink [] None)).
Proof.
  destruct (json_frame_roundtrip Some 10 (lit "{}") (lit "{}")
    (mkEnd empty_database (mkStream (json_frame (lit "{}") ++ lit "!") Closed) (mkSink [] None))
    (mkEnd empty_database (mkStream (lit "!") Closed) (mkSink [] None)) empty_database (mkStream [] Closed) [])
    as [(framed & Hw & Hr) _]; [by vm_compute | reflexivity |].
  vm_compute in Hw. injection Hw as <-. apply Hr; reflexivity.
Defined.
End examples.
