(* ===== verification/HandleProps.v ===== *)
(** The properties of the handle of the network thread. *)

From S2P Require Import Prelude Bytes Utf8 Cursor Canonical Path Identity Concrete Records Roster RosterConverge Protocol.
From S2P Require Import Database State StateProps RosterStore RosterLaws RosterProps Platform ToyFs Installer Sync SyncProps.
From S2P Require Import Session SessionLaws SessionProps Join ToyJoin Network NetworkLoop NetworkHandle ApprovalLaws JoinProps.

Section properties.
Context `{Crypto, !CryptoLaws, EventJson, Platform, Iroh, JoinCodec, !JoinCodecLaws}.

(** C23: A request that is pending is decided once and for all.  Its device is
    sent exactly one decision, over its own channel: a rejection when the
    request is refused or when the approval cannot be built, whose error is
    returned, and otherwise the approval that was built, after which a round is
    triggered.  The coordinator is idle afterwards.  Any other request is
    unknown: nothing is sent and nothing stored. *)
Theorem decide_request_exact stored_identity t1 t2 request_id approve h w p :
  h_joins h = JPending p -> t1 < pj_deadline p -> t2 < pj_deadline p ->
  let run := decide_request stored_identity t1 t2 request_id approve true h w in
  let idle := set_joins JIdle h in
  if bool_decide (request_id = pi_request_id (pj_info p)) then
    if approve then
      match endpoint_addr_json h with
      | Err e => run = (mkDecided (Err e) (Some (pj_decision p, DRejected)) idle, w)
      | Ok json =>
          match build_join_approval_in stored_identity json (pj_info p) (pj_endpoint_addr_json p) w with
          | (Err e, w') => run = (mkDecided (Err e) (Some (pj_decision p, DRejected)) idle, w')
          | (Ok d, w') => run = (mkDecided (Ok tt) (Some (pj_decision p, d)) (trigger idle), w')
          end
      end
    else run = (mkDecided (Ok tt) (Some (pj_decision p, DRejected)) idle, w)
  else run = (mkDecided (Err (NJoin UnknownJoinRequest)) None h, w).
Proof.
  intros Ej Ht1 Ht2 run idle.
  assert (forall t joins, t < pj_deadline p -> joins = JPending p -> expire_locked t joins = JPending p) as Hexp.
  { intros t joins Ht ->. unfold expire_locked. by rewrite (proj2 (Z.leb_gt _ _)). }
  assert (h = set_joins (JPending p) h) as Eh by (rewrite <-Ej; by destruct h).
  unfold run, decide_request, build_join_approval, decide_on, pending_addr, decide_join.
  rewrite !(Hexp t1 _ Ht1 Ej). case_bool_decide as Hid.
  - subst request_id. rewrite bool_decide_eq_false_2 by auto. destruct approve; [|done]. simpl.
    change (endpoint_addr_json (set_joins (JPending p) h)) with (endpoint_addr_json h).
    destruct (endpoint_addr_json h) as [json|e]; simpl.
    + destruct (build_join_approval_in _ _ _ _ w) as [[d|e] w']; simpl; rewrite (Hexp t2 _ Ht2 eq_refl);
        by rewrite bool_decide_eq_false_2 by auto.
    + rewrite (Hexp t2 _ Ht2 eq_refl). by rewrite bool_decide_eq_false_2 by auto.
  - rewrite bool_decide_eq_true_2 by auto. destruct approve; simpl.
    + rewrite (Hexp t2 _ Ht2 eq_refl). rewrite bool_decide_eq_true_2 by auto.
      change (set_joins (JPending p) (set_joins (JPending p) h)) with (set_joins (JPending p) h). by rewrite <-Eh.
    + by rewrite <-Eh.
Qed.

(** C24: Removing a peer.  Over a store of the group it refuses this device
    itself, does nothing for a device that is no member, and otherwise stores a
    new tip without the peer and triggers a round, unless no such revision can
    be made, which changes nothing. *)
Theorem remove_peer_exact universe g w l identity peer h :
  roster_separates universe -> g ∈ universe -> validate_genesis g = Ok tt ->
  roster_ok universe g (w_db w) -> selected_roster_chain (w_db w) = (Ok (g :: l), w_db w) -> identity_wf identity ->
  (forall r, child (List.last l g) (Remove peer) identity = Ok r -> r ∈ universe) ->
  let run := remove_peer (Some identity) peer h w in
  if bool_decide (peer = endpoint_id identity) then run = (Err CannotRemoveSelf, w)
  else if bool_decide (rev_members (List.last l g) !! peer = None) then run = (Ok (false, h), w)
  else match child (List.last l g) (Remove peer) identity with
       | Err e => run = (Err (NState (StateRoster e)), w)
       | Ok r => exists w', run = (Ok (true, trigger h), w') /\ roster_ok universe g (w_db w') /\
           selected_roster_chain (w_db w') = (Ok (g :: l ++ [r]), w_db w') /\ rev_members r !! peer = None
       end.
Proof.
  intros Hsep Hgu Hg Hok Hsel Hid Hu run.
  destruct (selected_sound universe Hsep g Hgu Hg (w_db w) _ Hok Hsel) as (l0 & [= <-] & Hs).
  assert (set_db w (w_db w) = w) as Ew by by destruct w.
  assert (run = if bool_decide (peer = endpoint_id identity) then (Err CannotRemoveSelf, w)
    else if bool_decide (rev_members (List.last l g) !! peer = None) then (Ok (false, h), w)
    else let '(r, db) := apply_roster_change_inner identity (Remove peer) None (w_db w) in
         match r with Ok _ => (Ok (true, trigger h), set_db w db) | Err e => (Err (NState e), set_db w db) end) as ->.
  { unfold run, remove_peer, ibind, ilift, nstate, imap_err, on_db. cbn [ok_or].
    case_bool_decide; [done|]. rewrite Hsel. cbn [map_err]. rewrite last_of_chain. cbn [ok_or].
    case_bool_decide; [by rewrite Ew|]. cbn [set_db w_db]. unfold apply_roster_change.
    by destruct (apply_roster_change_inner _ _ _ _) as [[r|e] db]. }
  case_bool_decide as Hself; [done|]. case_bool_decide as Hm; [done|].
  assert (roster_change_is_satisfied (List.last l g) (Remove peer) = false) as Hsat by by apply bool_decide_eq_false_2.
  destruct (child (List.last l g) (Remove peer) identity) as [r|e] eqn:Hc.
  - destruct (change_applied universe Hsep g Hgu Hg (w_db w) l identity (Remove peer) None r)
      as (db1 & Ha & Hs1 & ->); auto; [done|]. exists (set_db w db1). split; [done|].
    split; [apply Ha|]. split; [by apply (selected_complete universe Hsep g Hgu Hg); [apply Ha|]|].
    pose proof (child_validates _ _ _ _ Hid Hc) as (Hv & Hch & _).
    by apply (child_satisfies _ _ _ Hv), bool_decide_eq_true in Hch.
  - rewrite (change_refused universe Hsep g Hgu Hg (w_db w) l identity (Remove peer) None e) by done. by rewrite Ew.
Qed.
End properties.

(** ** Examples *)

Section examples.
#[local] Existing Instance toy_crypto.
#[local] Existing Instance toy_crypto_laws.
#[local] Existing Instance terse_json.
#[local] Existing Instance toy_platform.
#[local] Existing Instance toy_iroh.
#[local] Existing Instance toy_join.

Definition idle_handle : Handle := mkHandle [] true JIdle (Some (Some (arr (eid (endpoint_id alice))))).
Definition asked_handle : Handle := set_joins (JPending (mkPending bob_info bob_addr 4 100)) idle_handle.

(** An approval that cannot be built rejects the device. *)
Lemma decide_request_exact_witness :
  decide_request None 1 2 (lit "id") true true asked_handle founder_world
  = (mkDecided (Err NSetup) (Some (4%nat, DRejected)) idle_handle, founder_world).
Proof.
  exact (decide_request_exact None 1 2 (lit "id") true asked_handle founder_world (mkPending bob_info bob_addr 4 100)
    eq_refl eq_refl eq_refl).
Defined.

Definition pair_world : World := mkWorld base_db toy_empty 0.

Lemma remove_peer_exact_witness :
  exists w', remove_peer (Some alice) (endpoint_id bob) idle_handle pair_world = (Ok (true, trigger idle_handle), w').
Proof.
  pose proof (remove_peer_exact example_universe example_genesis pair_world [admit_bob] alice (endpoint_id bob) idle_handle
    example_separated example_genesis_in example_genesis_valid base_db_ok ltac:(evaluate) (from_secret_wf _)) as Hr.
  cbn [List.last] in Hr. cbv zeta in Hr.
  assert (child admit_bob (Remove (endpoint_id bob)) alice = Ok remove_bob) as Hc by evaluate. rewrite Hc in Hr.
  revert Hr. case_bool_decide as E1; [vm_compute in E1; discriminate E1|].
  case_bool_decide as E2; [vm_compute in E2; discriminate E2|]. intros Hr.
  destruct Hr as (w' & Hrun & _).
  - intros r <-%Ok_inj. apply example_in_universe. by vm_compute.
  - by exists w'.
Defined.
End examples.
