(* ===== verification/Scan.v ===== *)
(** filesystem.rs: scanning a collection: the walk below its root, and what the
    scan records of what it found.

    The hooks of the sources are for their tests and left out.  The matcher of
    the ignore patterns is a crate's: [sc_ignores] says which paths it
    matches. *)

From S2P Require Import Prelude Bytes Utf8 Cursor Canonical Path Identity Records Roster Database State.
From S2P Require Import Platform Installer.

(** [ScanError]; the last two are none of the sources', they say that a bound of
    the model was too low. *)
Inductive FilesystemError :=
  | ScanIo (e : IoError)
  | ScanUnstableRoot
  | ScanPath (e : PathError)
  | ScanRecord (e : RecordError)
  | ScanState (e : StateError)
  | ScanGlob
  | WalkFuel
  | ReadFuel.

Record DiskFile := mkDisk { disk_modified_ns : Z; disk_size : Z; disk_hash : array 32 }.

Definition disk_fingerprint (disk : DiskFile) : FileFingerprint :=
  mkFingerprint (disk_modified_ns disk) (disk_size disk) (disk_hash disk).

Definition disk_matches_record (disk : DiskFile) (r : record) : bool :=
  match rec_kind r with
  | File size content_hash =>
      (disk_modified_ns disk =? rec_modified_ns r) && (disk_size disk =? size)
      && bool_decide (disk_hash disk = content_hash)
  | Tombstone => false
  end.

Definition disk_bytes_match_record (disk : DiskFile) (r : record) : bool :=
  match rec_kind r with
  | File size content_hash => (disk_size disk =? size) && bool_decide (disk_hash disk = content_hash)
  | Tombstone => false
  end.

(** [sc_walk_fuel] bounds the depth of the walk and [sc_read_rounds] the reads of
    a file: the sources follow directories as long as they are new and read
    until the end. *)
Record Scanner := mkScanner {
  sc_ignores : bytes -> bool;
  sc_max_future_skew_ns : Z;
  sc_max_logs : Z;
  sc_walk_fuel : nat;
  sc_read_rounds : nat;
}.

(** The crate globset: a pattern, and a set of them, may be refused; a set says
    which paths one of its patterns matches. *)
Class GlobSet := {
  Glob : Type;
  glob_new : bytes -> option Glob;
  globset_build : list Glob -> option (bytes -> bool);
}.

Fixpoint add_globs `{GlobSet} (patterns : list bytes) (builder : list Glob) : result (list Glob) FilesystemError :=
  match patterns with
  | [] => Ok builder
  | pattern :: patterns =>
      let? glob := ok_or (glob_new pattern) ScanGlob in
      add_globs patterns (builder ++ [glob])
  end.

(** [Scanner::new], with the bounds of the model. *)
Definition scanner_new `{GlobSet} (patterns : list bytes) (max_future_skew max_logs : Z) (walk_fuel read_rounds : nat)
    : result Scanner FilesystemError :=
  let? builder := add_globs patterns [] in
  let? ignores := ok_or (globset_build builder) ScanGlob in
  Ok (mkScanner ignores max_future_skew max_logs walk_fuel read_rounds).

Record ScanSummary := mkScanSummary {
  sum_files : Z;
  sum_accepted : Z;
  sum_tombstones : Z;
  sum_rejected : Z;
  sum_repair_required : Z;
  sum_paused : bool;
}.

(** ** What is left out *)

Definition has_internal_component (path : bytes) : bool :=
  existsb (fun component => starts_with component INTERNAL_PREFIX) (split_slash path).
Definition is_ignored (scanner : Scanner) (path : bytes) : bool :=
  has_internal_component path || sc_ignores scanner path.

(** [path.strip_prefix(prefix)] starts with a slash, or there is nothing left. *)
Definition below_prefix (path prefix : bytes) : bool :=
  bool_decide (path = prefix)
  || (starts_with path prefix && bool_decide (head (drop (length prefix) path) = Some slash)).
Definition is_excluded (excluded_prefixes : list bytes) (path : bytes) : bool :=
  existsb (below_prefix path) excluded_prefixes.

(** ** The walk *)

Record WalkContext := mkWalk {
  wc_paths : LocalPathIndex;
  wc_files : gmap bytes DiskFile;
  wc_excluded_prefixes : list bytes;
  wc_warnings : list OperationalEvent;
}.

Definition exclude (collection : bytes) (path : option ProtocolPath) (issue : CollectionIssue) (c : WalkContext)
    : WalkContext :=
  mkWalk (wc_paths c) (wc_files c)
    (match path with Some path => wc_excluded_prefixes c ++ [path_str path] | None => wc_excluded_prefixes c end)
    (wc_warnings c ++ [CollectionWarning collection path issue]).

Section scan.
Context `{Crypto, Unicode, EventJson, Platform}.

Definition scan_io {A} (m : FS -> result A IoError * FS) : IO FilesystemError A := imap_err ScanIo (on_fs m).
Definition scan_state {A} (m : Db A) : IO FilesystemError A := imap_err ScanState (on_db m).

Definition insert_disk_file (collection : bytes) (protocol : ProtocolPath) (disk : DiskFile) (c : WalkContext)
    : result WalkContext FilesystemError :=
  match index_insert (wc_paths c) protocol with
  | Err error =>
      match error with
      | Collision _ _ => Ok (exclude collection (Some protocol) PathRejected c)
      | _ => Err (ScanPath error)
      end
  | Ok paths =>
      Ok (mkWalk paths (<[path_str protocol := disk]> (wc_files c)) (wc_excluded_prefixes c) (wc_warnings c))
  end.

(** [io::copy] into a hasher, in pieces of 8 KiB. *)
Definition COPY_BUFFER : Z := 8 * 1024.
Fixpoint read_to_end (fuel : nat) (file : Handle) (hashed : bytes) : IO FilesystemError bytes :=
  match fuel with
  | O => ifail ReadFuel
  | S fuel =>
      chunk <== scan_io (file_read file COPY_BUFFER) ;;
      if len chunk =? 0 then iret hashed else read_to_end fuel file (hashed ++ chunk)
  end.

Definition stable_metadata (before after : Metadata) : bool :=
  (md_dev before =? md_dev after) && (md_ino before =? md_ino after) && (md_len before =? md_len after)
  && (md_mtime before =? md_mtime after) && (md_mtime_nsec before =? md_mtime_nsec after)
  && (md_ctime before =? md_ctime after) && (md_ctime_nsec before =? md_ctime_nsec after).

Definition metadata_modified_ns (metadata : Metadata) : Z :=
  i64_saturating_add (i64_saturating_mul (md_mtime metadata) 1000000000) (md_mtime_nsec metadata).

Fixpoint stable_file_loop (attempts : nat) (reads : nat) (open : FS -> result Handle IoError * FS)
    : IO FilesystemError (option DiskFile) :=
  match attempts with
  | O => iret None
  | S attempts =>
      file <== scan_io open ;;
      before <== scan_io (file_metadata file) ;;
      if negb (md_is_file before) then iret None
      else
        content <== read_to_end reads file [] ;;
        after <== scan_io (file_metadata file) ;;
        if stable_metadata before after
        then iret (Some (mkDisk (metadata_modified_ns after) (md_len after) (blake3 content)))
        else stable_file_loop attempts reads open
  end.
Definition stable_file (reads : nat) (open : FS -> result Handle IoError * FS)
    : IO FilesystemError (option DiskFile) := stable_file_loop 3 reads open.

(** [Path::join] of a name. *)
Definition join_name (logical name : bytes) : bytes :=
  if bool_decide (logical = []) then name else logical ++ slash :: name.

(** The components of an absolute path without [.] and [..], as canonicalize
    returns it, and [strip_prefix]. *)
Definition absolute_components (path : bytes) : list bytes :=
  List.filter (fun c => bool_decide (c <> [])) (split_slash path).
Fixpoint strip_components (path prefix : list bytes) : option (list bytes) :=
  match prefix, path with
  | [], path => Some path
  | p :: prefix, c :: path => if bool_decide (c = p) then strip_components path prefix else None
  | _ :: _, [] => None
  end.

Definition resolve_symlink (resolved_root logical : bytes) : IO IoError (list bytes) :=
  resolved <== on_fs (canonicalize (pathbuf_push resolved_root logical)) ;;
  ilift (ok_or (strip_components (absolute_components resolved) (absolute_components resolved_root)) OtherIo).

(** The root of a walk, and what does not change in it. *)
Record WalkRoot := mkWalkRoot {
  wr_scanner : Scanner;
  wr_collection : bytes;
  wr_root : Dir;
  wr_resolved_root : bytes;
}.

(** [protocol_path] *)
Definition protocol_path (path : bytes) : result ProtocolPath PathError := path_from_utf8 path.

(** [context.root.try_clone().ok()] and [context.root.open_dir(target).ok()] *)
Definition open_target_dir (root : Dir) (target : list bytes) : IO FilesystemError (option Dir) :=
  opened <== iresult (on_fs (if bool_decide (target = []) then try_clone root else open_dir root target)) ;;
  iret (match opened with Ok d => Some d | Err _ => None end).

(** One entry; [walk] is the walk of a directory below this one. *)
Definition visit_entry (walk : Dir -> bytes -> WalkContext -> IO FilesystemError WalkContext) (env : WalkRoot)
    (directory : Dir) (logical name : bytes) (c : WalkContext) : IO FilesystemError WalkContext :=
  let logical_path := join_name logical name in
  match protocol_path logical_path with
  | Err _ => iret (exclude (wr_collection env) None PathRejected c)
  | Ok protocol =>
      if is_ignored (wr_scanner env) (path_str protocol) then iret c
      else
        file_type <== scan_io (entry_file_type directory name) ;;
        match file_type with
        | FtSymlink =>
            target <== iresult (resolve_symlink (wr_resolved_root env) logical_path) ;;
            match target with
            | Err _ => iret (exclude (wr_collection env) (Some protocol) SymlinkEscape c)
            | Ok target =>
                target_dir <== open_target_dir (wr_root env) target ;;
                match target_dir with
                | Some target_dir => walk target_dir logical_path c
                | None =>
                    found <== iresult (stable_file (sc_read_rounds (wr_scanner env)) (open_at (wr_root env) target)) ;;
                    match found with
                    | Ok (Some disk) => ilift (insert_disk_file (wr_collection env) protocol disk c)
                    | Err ReadFuel => ifail ReadFuel
                    | _ => iret (exclude (wr_collection env) (Some protocol) SymlinkEscape c)
                    end
                end
            end
        | FtDir =>
            target_dir <== scan_io (open_dir directory [name]) ;;
            walk target_dir logical_path c
        | FtFile =>
            found <== stable_file (sc_read_rounds (wr_scanner env)) (open_at directory [name]) ;;
            match found with
            | Some disk => ilift (insert_disk_file (wr_collection env) protocol disk c)
            | None => iret (exclude (wr_collection env) (Some protocol) PathRejected c)
            end
        | FtOther => iret c
        end
  end.

Fixpoint visit_entries (walk : Dir -> bytes -> WalkContext -> IO FilesystemError WalkContext) (env : WalkRoot)
    (directory : Dir) (logical : bytes) (names : list bytes) (c : WalkContext) : IO FilesystemError WalkContext :=
  match names with
  | [] => iret c
  | name :: names =>
      c <== visit_entry walk env directory logical name c ;;
      visit_entries walk env directory logical names c
  end.

(** [collect::<Result<Vec<_>, _>>()] *)
Fixpoint collect_entries (listed : list (result bytes IoError)) : result (list bytes) IoError :=
  match listed with
  | [] => Ok []
  | entry :: listed => let? name := entry in let? names := collect_entries listed in Ok (name :: names)
  end.

(** [ancestors] are the directories the walk is inside of; the set of the sources
    has this one while its entries are visited. *)
Fixpoint walk_directory (fuel : nat) (env : WalkRoot) (directory : Dir) (logical : bytes) (ancestors : list (Z * Z))
    (c : WalkContext) : IO FilesystemError WalkContext :=
  match fuel with
  | O => ifail WalkFuel
  | S fuel =>
      identity <== scan_io (dir_metadata directory) ;;
      if bool_decide (identity ∈ ancestors)
      then iret (exclude (wr_collection env)
                   (match protocol_path logical with Ok path => Some path | Err _ => None end) SymlinkCycle c)
      else
        listed <== scan_io (entries directory) ;;
        names <== ilift (map_err ScanIo (collect_entries listed)) ;;
        visit_entries (fun target_dir logical_path c =>
            walk_directory fuel env target_dir logical_path (identity :: ancestors) c)
          env directory logical (sort names) c
  end.

(** ** How the file system compares names *)

Definition probe_distinct_names (root : Dir) (first_name second_name : bytes) : IO FilesystemError bool :=
  _ <== scan_io (open_new root first_name) ;;
  second <== iresult (on_fs (open_new root second_name)) ;;
  match second with
  | Err e =>
      if bool_decide (e = AlreadyExists) then
        _ <== iresult (F := FilesystemError) (on_fs (remove_file root first_name)) ;;
        _ <== iresult (F := FilesystemError) (on_fs (remove_file root second_name)) ;;
        iret false
      else
        _ <== iresult (F := FilesystemError) (on_fs (remove_file root first_name)) ;;
        ifail (ScanIo e)
  | Ok _ =>
      _ <== iresult (F := FilesystemError) (on_fs (remove_file root first_name)) ;;
      _ <== iresult (F := FilesystemError) (on_fs (remove_file root second_name)) ;;
      iret true
  end.

Definition probe_filename_comparison_in (root : Dir) : IO FilesystemError FilenameComparison :=
  now <== now_ns ;;
  let token := decimal process_id ++ lit "-" ++ decimal (Z.abs now) in
  case_sensitive <== probe_distinct_names root (INTERNAL_PREFIX ++ token ++ lit "-case")
                       (INTERNAL_PREFIX ++ token ++ lit "-CASE") ;;
  normalization_sensitive <== probe_distinct_names root
                                (INTERNAL_PREFIX ++ token ++ lit "-caf" ++ ["195"%byte; "169"%byte])
                                (INTERNAL_PREFIX ++ token ++ lit "-cafe" ++ ["204"%byte; "129"%byte]) ;;
  iret (match case_sensitive, normalization_sensitive with
        | true, true => CaseSensitive
        | false, true => CaseInsensitive
        | true, false => NormalizationInsensitive
        | false, false => CaseAndNormalizationInsensitive
        end).

(** ** What a scan records *)

Definition log (scanner : Scanner) (created_ns : Z) (event : OperationalEvent) : IO FilesystemError unit :=
  scan_state (append_log created_ns event (sc_max_logs scanner)).

Fixpoint log_warnings (scanner : Scanner) (created_ns : Z) (warnings : list OperationalEvent) : IO FilesystemError unit :=
  match warnings with
  | [] => iret tt
  | warning :: warnings =>
      _ <== log scanner created_ns warning ;;
      log_warnings scanner created_ns warnings
  end.

(** [Duration] to nanoseconds. *)
Definition skew_ns (nanos : Z) : Z := default i64_max (i64_try_from nanos).

Definition materialized_fingerprints (current : list PathRecordState) : gmap bytes FileFingerprint :=
  list_to_map (omap (fun s => match prs_fingerprint s with
                              | Some f => Some (path_str (rec_path (prs_record s)), f)
                              | None => None
                              end) current).

(** A materialized winner of a path whose bytes are not those on disk. *)
Definition diverged_materialized_winner (current : list PathRecordState) (path : bytes) (disk : DiskFile) : bool :=
  existsb (fun winner => bool_decide (path_str (rec_path (prs_record winner)) = path) && prs_materialized winner
                         && negb (disk_bytes_match_record disk (prs_record winner))) current.

(** What became of a file on disk, for the summary. *)
Inductive FileOutcome :=
  | FileAccepted
  | FileUnchanged
  | FileRejected (repair_required : bool).

(** One round of the loop over the files. *)
Definition scan_file (scanner : Scanner) (collection : bytes) (author : EndpointId) (observed_ns : Z)
    (current : list PathRecordState) (path : bytes) (disk : DiskFile) : IO FilesystemError FileOutcome :=
  let max_logs := sc_max_logs scanner in
  let future_limit := i64_saturating_add observed_ns (skew_ns (sc_max_future_skew_ns scanner)) in
  if future_limit <? disk_modified_ns disk then
    let event := CollectionWarning collection (Some (mkPath path)) TimestampRejected in
    if diverged_materialized_winner current path disk then
      _ <== scan_state (mark_repair_required_and_log collection path observed_ns event max_logs) ;;
      iret (FileRejected true)
    else
      _ <== log scanner observed_ns event ;;
      iret (FileRejected false)
  else
    candidate <== ilift (map_err ScanRecord (record_file collection (mkPath path) (disk_modified_ns disk) author
                                               (disk_size disk) (disk_hash disk))) ;;
    found <== scan_state (query_record collection path) ;;
    match found with
    | Some winner =>
        let fingerprint := disk_fingerprint disk in
        let durable_match := bool_decide (materialized_fingerprints current !! path = Some fingerprint) in
        if durable_match || disk_matches_record disk winner then
          _ <== scan_state (set_materialized_fingerprint collection path fingerprint) ;;
          iret FileUnchanged
        else
          accepted <== scan_state (merge_record candidate observed_ns None max_logs) ;;
          if negb accepted then
            match rec_kind winner with
            | File _ _ =>
                _ <== scan_state (mark_repair_required_and_log collection path observed_ns
                                    (RepairRequired collection (mkPath path)) max_logs) ;;
                iret (FileRejected true)
            | Tombstone => iret (FileRejected false)
            end
          else iret FileAccepted
    | None =>
        _ <== scan_state (merge_record candidate observed_ns None max_logs) ;;
        iret FileAccepted
    end.

Definition count_outcome (outcome : FileOutcome) (s : ScanSummary) : ScanSummary :=
  match outcome with
  | FileAccepted =>
      mkScanSummary (sum_files s) (sum_accepted s + 1) (sum_tombstones s) (sum_rejected s) (sum_repair_required s)
        (sum_paused s)
  | FileUnchanged => s
  | FileRejected repair =>
      mkScanSummary (sum_files s) (sum_accepted s) (sum_tombstones s) (sum_rejected s + 1)
        (if repair then sum_repair_required s + 1 else sum_repair_required s) (sum_paused s)
  end.

Fixpoint scan_files (scanner : Scanner) (collection : bytes) (author : EndpointId) (observed_ns : Z)
    (current : list PathRecordState) (files : list (bytes * DiskFile)) (summary : ScanSummary)
    : IO FilesystemError ScanSummary :=
  match files with
  | [] => iret summary
  | (path, disk) :: files =>
      outcome <== scan_file scanner collection author observed_ns current path disk ;;
      scan_files scanner collection author observed_ns current files (count_outcome outcome summary)
  end.

(** Whether a known path is recorded as deleted: a file that was materialized,
    is not on disk, and was looked for. *)
Definition is_deleted (scanner : Scanner) (c : WalkContext) (winner_state : PathRecordState) : bool :=
  let winner := prs_record winner_state in
  let path := path_str (rec_path winner) in
  negb (negb (match rec_kind winner with File _ _ => true | Tombstone => false end)
        || negb (prs_materialized winner_state)
        || bool_decide (is_Some (wc_files c !! path))
        || is_ignored scanner path
        || is_excluded (wc_excluded_prefixes c) path).

Fixpoint scan_deletions (scanner : Scanner) (collection : bytes) (author : EndpointId) (observed_ns : Z)
    (c : WalkContext) (current : list PathRecordState) (summary : ScanSummary) : IO FilesystemError ScanSummary :=
  match current with
  | [] => iret summary
  | winner_state :: current =>
      if negb (is_deleted scanner c winner_state)
      then scan_deletions scanner collection author observed_ns c current summary
      else
        let winner := prs_record winner_state in
        let modified_ns := Z.max observed_ns (i64_saturating_add (rec_modified_ns winner) 1) in
        tombstone <== ilift (map_err ScanRecord (record_tombstone collection (rec_path winner) modified_ns author)) ;;
        accepted <== scan_state (merge_record tombstone observed_ns None (sc_max_logs scanner)) ;;
        scan_deletions scanner collection author observed_ns c current
          (if accepted : bool
           then mkScanSummary (sum_files summary) (sum_accepted summary) (sum_tombstones summary + 1)
                  (sum_rejected summary) (sum_repair_required summary) (sum_paused summary)
           else summary)
  end.

(** ** A scan *)

Definition pause (scanner : Scanner) (collection : bytes) (observed_ns : Z) (status : CollectionScanStatus)
    : IO FilesystemError ScanSummary :=
  _ <== scan_state (set_collection_scan_status collection status) ;;
  _ <== log scanner observed_ns (CollectionPaused collection) ;;
  iret (mkScanSummary 0 0 0 0 0 true).

(** From the walk on. *)
Definition scan_root (scanner : Scanner) (collection : CollectionState) (author : EndpointId) (observed_ns : Z)
    (stable : StableRoot) (comparison : FilenameComparison) : IO FilesystemError ScanSummary :=
  let name := cs_name collection in
  c <== walk_directory (sc_walk_fuel scanner)
          (mkWalkRoot scanner name (root_directory stable) (root_resolved_path stable))
          (root_directory stable) [] [] (mkWalk (index_new comparison) ∅ [] []) ;;
  _ <== scan_state (complete_collection_scan name (cs_local_path collection) (root_resolved_path stable)) ;;
  _ <== log_warnings scanner observed_ns (wc_warnings c) ;;
  let summary := mkScanSummary (Z.of_nat (size (wc_files c))) 0 0 0 0 false in
  current <== scan_state (record_states name) ;;
  summary <== scan_files scanner name author observed_ns current (items (wc_files c)) summary ;;
  summary <== scan_deletions scanner name author observed_ns c current summary ;;
  _ <== log scanner observed_ns (CollectionScanned name) ;;
  iret summary.

(** The reading of the clock and the root. *)
Definition open_collection (local_path : bytes) : IO FilesystemError (Z * result StableRoot StableRootError) :=
  observed_ns <== now_ns ;;
  root <== iresult (open_stable_root local_path) ;;
  iret (observed_ns, root).

(** The cache of comparisons outlives a scan that fails. *)
Definition scan_collection (scanner : Scanner) (collection : CollectionState) (author : EndpointId)
    (comparisons : gmap bytes FilenameComparison) (w : World)
    : result ScanSummary FilesystemError * gmap bytes FilenameComparison * World :=
  let '(opened, w) := open_collection (cs_local_path collection) w in
  match opened with
  | Err e => (Err e, comparisons, w)
  | Ok (observed_ns, Err (RootIo NotADirectory)) | Ok (observed_ns, Err (RootIo InvalidInput)) =>
      let '(r, w) := pause scanner (cs_name collection) observed_ns ScanNotDirectory w in (r, comparisons, w)
  | Ok (observed_ns, Err (RootIo NotFound)) =>
      let '(r, w) := pause scanner (cs_name collection) observed_ns ScanMissing w in (r, comparisons, w)
  | Ok (_, Err (RootIo e)) => (Err (ScanIo e), comparisons, w)
  | Ok (_, Err RootUnstable) => (Err ScanUnstableRoot, comparisons, w)
  | Ok (observed_ns, Ok stable) =>
      let '(probed, w) :=
        match comparisons !! root_resolved_path stable with
        | Some comparison => (Ok comparison, w)
        | None => probe_filename_comparison_in (root_directory stable) w
        end in
      match probed with
      | Err e => (Err e, comparisons, w)
      | Ok comparison =>
          let comparisons := <[root_resolved_path stable := comparison]> comparisons in
          let '(r, w) := scan_root scanner collection author observed_ns stable comparison w in
          (r, comparisons, w)
      end
  end.
End scan.
