(* ===== verification/ScanLaws.v ===== *)
(** What a scan does to the records.  [scans_to] says what it makes of the winner
    of each path, in terms of the store, of the root and of the files the walk
    found; the lemmas show that the records the code merges, in its order, do
    that. *)

From S2P Require Import Prelude Bytes Utf8 Cursor Canonical Path Identity Records Winners Roster Database State.
From S2P Require Import StateLaws Platform Installer InstallLaws Sync SyncLaws Scan.

(** ** The specification *)

Section spec.
Context `{Crypto}.
Variables (scanner : Scanner) (collection : bytes) (author : EndpointId) (observed_ns : Z).

(** A file of this time is too far in the future. *)
Definition too_late (disk : DiskFile) : Prop :=
  Z.min i64_max (observed_ns + Z.min i64_max (sc_max_future_skew_ns scanner)) < disk_modified_ns disk.

(** The records of a file that is there, and of one that was there. *)
Definition file_record (path : bytes) (disk : DiskFile) : record :=
  mkRecord collection (mkPath path) (disk_modified_ns disk) author (File (disk_size disk) (disk_hash disk)).
Definition deletion_record (old : record) : record :=
  mkRecord collection (rec_path old) (Z.max observed_ns (Z.min i64_max (rec_modified_ns old + 1))) author Tombstone.

(** This device has installed or recorded a file, with these bytes and this time,
    below this very root. *)
Definition installed (db : Database) (root path : bytes) (f : FileFingerprint) : Prop :=
  exists place row, collections_t db !! collection = Some place /\ col_resolved_root place = Some root /\
    path_records_t db !! (collection, path) = Some row /\ row_materialized row = true /\
    row_modified_ns row = Some (fp_modified_ns f) /\ row_size row = Some (fp_size f) /\
    row_content_hash row = Some (arr (fp_hash f)).

(** Paths that are not scanned: a component is internal or a pattern matches the
    path; the walk excluded it, or a directory it is below of. *)
Definition ignored (path : bytes) : Prop :=
  (exists component, component ∈ split_slash path /\ INTERNAL_PREFIX `prefix_of` component) \/
  sc_ignores scanner path = true.
Definition excluded (c : WalkContext) (path : bytes) : Prop :=
  exists prefix, prefix ∈ wc_excluded_prefixes c /\ (path = prefix \/ exists rest, path = prefix ++ slash :: rest).

(** The file is as the winner says, or as this device left it. *)
Definition as_recorded (db : Database) (root path : bytes) (disk : DiskFile) (old : record) : Prop :=
  installed db root path (mkFingerprint (disk_modified_ns disk) (disk_size disk) (disk_hash disk)) \/
  rec_modified_ns old = disk_modified_ns disk /\ rec_kind old = File (disk_size disk) (disk_hash disk).

(** The later of the two. *)
Definition latest (old : option record) (r : record) : option record := if beats r old then Some r else old.

(** What a scan of [root] whose walk found [c] makes of the winner of a path. *)
Inductive scans_to (db : Database) (root : bytes) (c : WalkContext) (path : bytes) (old : option record) : option record -> Prop :=
  | scans_late disk : wc_files c !! path = Some disk -> too_late disk -> scans_to db root c path old old
  | scans_same disk r : wc_files c !! path = Some disk -> ~ too_late disk -> old = Some r ->
      as_recorded db root path disk r -> scans_to db root c path old old
  | scans_changed disk : wc_files c !! path = Some disk -> ~ too_late disk ->
      (forall r, old = Some r -> ~ as_recorded db root path disk r) ->
      scans_to db root c path old (latest old (file_record path disk))
  | scans_gone f r : wc_files c !! path = None -> installed db root path f -> ~ ignored path -> ~ excluded c path ->
      old = Some r -> scans_to db root c path old (latest old (deletion_record r))
  | scans_left : wc_files c !! path = None -> (forall f, installed db root path f -> ignored path \/ excluded c path) ->
      scans_to db root c path old old.

(** It leaves nothing open. *)
Lemma scans_to_functional db root c path old new new' :
  scans_to db root c path old new -> scans_to db root c path old new' -> new = new'.
Proof.
  intros [] []; try done; repeat match goal with
    | Hx : wc_files c !! path = ?x, Hy : wc_files c !! path = ?y |- _ => simplify_eq
    | Hx : old = Some ?x, Hy : old = Some ?y |- _ => simplify_eq
    end; try done; try (exfalso; naive_solver).
Qed.

(** ** The records, in the order they are merged *)

Definition scan_limit : Z := i64_saturating_add observed_ns (skew_ns (sc_max_future_skew_ns scanner)).

Definition is_unchanged (current : list PathRecordState) (m : winner_map) (path : bytes) (disk : DiskFile) : bool :=
  match m !! (collection, path) with
  | Some winner =>
      bool_decide (materialized_fingerprints current !! path = Some (disk_fingerprint disk))
      || disk_matches_record disk winner
  | None => false
  end.

Definition observed_file (current : list PathRecordState) (m : winner_map) (path : bytes) (disk : DiskFile) : list record :=
  if scan_limit <? disk_modified_ns disk then []
  else if is_unchanged current m path disk then [] else [file_record path disk].

Fixpoint observed_files (current : list PathRecordState) (m : winner_map) (files : list (bytes * DiskFile)) : list record :=
  match files with
  | [] => []
  | (path, disk) :: files =>
      let rs := observed_file current m path disk in
      rs ++ observed_files current (merge_maps m rs) files
  end.

Fixpoint observed_deletions (c : WalkContext) (current : list PathRecordState) : list record :=
  match current with
  | [] => []
  | s :: current =>
      if is_deleted scanner c s then deletion_record (prs_record s) :: observed_deletions c current
      else observed_deletions c current
  end.
End spec.

Section laws.
Context `{Crypto, Unicode, EventJson, Platform}.

(** ** Calls that leave the records alone *)

Lemma scan_io_records {A} (m : FS -> result A IoError * FS) : respects same_records (scan_io m).
Proof. apply respects_map_err, fs_records. Qed.
Lemma scan_log_records scanner t e : respects same_records (log scanner t e).
Proof. apply respects_map_err, (op_records (OpAppendLog t e (sc_max_logs scanner))); done. Qed.
Lemma scan_repair_records c p t e n : respects same_records (scan_state (mark_repair_required_and_log c p t e n)).
Proof. apply respects_map_err, (op_records (OpRepair c p t e n)); done. Qed.
Lemma scan_fingerprint_records c p f : respects same_records (scan_state (set_materialized_fingerprint c p f)).
Proof. apply respects_map_err, (op_records (OpFingerprint c p f)); done. Qed.

Lemma log_warnings_records scanner t ws : respects same_records (log_warnings scanner t ws).
Proof. induction ws as [|e ws IH]; simpl; walk ltac:(first [apply scan_log_records | apply IH]). Qed.

Lemma scan_query w c p : db_wf (w_db w) -> scan_state (query_record c p) w = (Ok (winners (w_db w) !! (c, p)), w).
Proof.
  intros Hw. unfold scan_state, imap_err, on_db, query_record. rewrite load_record_wf by done. by destruct w.
Qed.

(** ** A merge *)

(** [m] merges a prefix of [expected], and all of it when it succeeds. *)
Definition merges {A} (expected : list record) (w : World) (r : result A FilesystemError) (w' : World) : Prop :=
  db_wf (w_db w') /\ exists rs, rs `prefix_of` expected /\ (is_ok r = true -> rs = expected) /\
    winners (w_db w') = merge_maps (winners (w_db w)) rs.

Lemma merges_nothing {A} expected w (r : result A FilesystemError) w' :
  db_wf (w_db w) -> same_records w w' -> (is_ok r = true -> expected = []) -> merges expected w r w'.
Proof.
  intros Hw Hs Hr. destruct (Hs Hw) as [Hw' E]. split; [done|]. exists []. split; [apply prefix_nil|].
  split; [intros Ho; by rewrite Hr|]. done.
Qed.

(** The same, before and after calls that leave the records alone. *)
Lemma merges_calm {A B} expected w w1 (r : result A FilesystemError) w2 (r' : result B FilesystemError) w' :
  db_wf (w_db w) -> same_records w w1 -> merges expected w1 r w2 -> same_records w2 w' ->
  (is_ok r' = true -> is_ok r = true) -> merges expected w r' w'.
Proof.
  intros Hw H1' (Hw2 & rs & Hp & Ho & E) H2' Hr. destruct (H1' Hw) as [_ E1]. destruct (H2' Hw2) as [Hw' E2].
  split; [done|]. exists rs. split; [done|]. split; [auto|]. congruence.
Qed.

Lemma merges_trans {A B} xs ys w (r : result A FilesystemError) w1 (r' : result B FilesystemError) w' :
  merges xs w r w1 -> is_ok r = true ->
  (winners (w_db w1) = merge_maps (winners (w_db w)) xs -> merges ys w1 r' w') -> merges (xs ++ ys) w r' w'.
Proof.
  intros (Hw1 & rs & _ & Ho & E) Hr Hm. rewrite (Ho Hr) in E. destruct (Hm E) as (Hw' & rs' & Hp' & Ho' & E').
  split; [done|]. exists (xs ++ rs'). split; [by apply prefix_app|]. split; [intros Hr'; by rewrite Ho'|].
  rewrite E', E. unfold merge_maps. by rewrite fold_left_app.
Qed.

Lemma merges_fail {A B} xs ys w (r : result A FilesystemError) (r' : result B FilesystemError) w' :
  merges xs w r w' -> is_ok r' = false -> merges (xs ++ ys) w r' w'.
Proof.
  intros (Hw & rs & Hp & _ & E) Hr. split; [done|]. exists rs.
  split; [by apply prefix_app_r|]. split; [by rewrite Hr | done].
Qed.

Lemma merge_merges r t n w res w' :
  db_wf (w_db w) -> record_wf r -> scan_state (merge_record r t None n) w = (res, w') ->
  merges [r] w res w' /\ (forall b, res = Ok b -> b = beats r (winners (w_db w) !! index_of r)).
Proof.
  intros Hw Hr E. unfold scan_state, imap_err, on_db in E.
  destruct (merge_record r t None n (w_db w)) as [x db'] eqn:Em. injection E as <- <-. destruct x as [b|e].
  - pose proof (merge_record_refines r t None n _ _ _ Hw Hr Em) as (Hb & E & _).
    pose proof (preserves_merge_record r t None n Hr _ _ _ Hw Em) as Hw'.
    split; [|by intros b' [= <-]]. split; [done|]. by exists [r].
  - split; [|done]. assert (db' = w_db w) as -> by by eapply transaction_Err. split; [done|].
    exists []. split; [apply prefix_nil|]. done.
Qed.

(** ** A file *)

(** A file as the walk finds it. *)
Definition disk_ok (scanner : Scanner) (path : bytes) (disk : DiskFile) : Prop :=
  path_wf (mkPath path) /\ is_ignored scanner path = false /\ in_u64 (disk_size disk) = true /\
  in_i64 (disk_modified_ns disk) = true.

Lemma record_new_wf c p t a k r :
  record_new c p t a k = Ok r -> utf8_valid c = true -> path_wf p -> in_i64 t = true -> kind_raw k ->
  record_wf r /\ r = mkRecord c p t a k.
Proof.
  intros E Hc Hp Ht Hk.
  assert (in_u32 (len c) = true /\ in_u32 (len (path_str p)) = true) as [Hlc Hlp].
  { unfold record_new in E. apply check_not_Ok in E as [_ E]. apply rbind_Ok in E as ([] & E1 & E).
    apply rbind_Ok in E as ([] & E2 & _). by rewrite <-!ensure_u32_length_Ok. }
  apply (record_new_Ok (mkRecord c p t a k)) in E;
    [|exact (conj Hc (conj Hlc (conj Hp (conj Hlp (conj Ht Hk)))))]. destruct E as [-> Hr]. done.
Qed.

Lemma record_file_Ok scanner c author path disk r :
  utf8_valid c = true -> disk_ok scanner path disk ->
  record_file c (mkPath path) (disk_modified_ns disk) author (disk_size disk) (disk_hash disk) = Ok r ->
  r = file_record c author path disk /\ record_wf r.
Proof. intros Hc (Hp & _ & Hs & Ht) E. by apply record_new_wf in E as [? ->]. Qed.

Lemma scan_file_merges scanner c author t current path disk w r w' :
  db_wf (w_db w) -> utf8_valid c = true -> disk_ok scanner path disk ->
  scan_file scanner c author t current path disk w = (r, w') ->
  merges (observed_file scanner c author t current (winners (w_db w)) path disk) w r w'.
Proof.
  intros Hw Hc Hdisk E. unfold observed_file, scan_limit. unfold scan_file in E. cbv zeta in E.
  destruct (_ <? _).
  { apply merges_nothing; [done | | done].
    match type of E with ?m ?w = _ => assert (respects same_records m) as Hm; [clear E | exact (Hm _ _ _ E)] end.
    walk ltac:(first [apply scan_repair_records | apply scan_log_records]). }
  destruct (record_file _ _ _ _ _ _) as [cand|e] eqn:Ecand.
  2: { injection E as <- <-. split; [done|]. exists []. split; [apply prefix_nil | done]. }
  destruct (record_file_Ok _ _ _ _ _ _ Hc Hdisk Ecand) as [-> Hcw].
  unfold ibind at 1, ilift in E. cbn [map_err] in E. unfold ibind at 1 in E. rewrite scan_query in E by done.
  unfold is_unchanged. destruct (winners (w_db w) !! (c, path)) as [winner|] eqn:Ewin.
  - destruct (_ || _) eqn:Eun.
    { apply merges_nothing; [done | | done].
      match type of E with ?m ?w = _ => assert (respects same_records m) as Hm; [clear E | exact (Hm _ _ _ E)] end.
      walk ltac:(apply scan_fingerprint_records). }
    unfold ibind at 1 in E. destruct (scan_state (merge_record (file_record c author path disk) t None (sc_max_logs scanner)) w) as [res w1] eqn:Em.
    destruct (merge_merges _ _ _ _ _ _ Hw Hcw Em) as [Hm _]. destruct res as [b|e].
    + apply (merges_calm _ w w (Ok b) w1); [done | done | done | | done].
      destruct (negb b); [destruct (rec_kind winner)|]; try (by injection E as _ <-).
      match type of E with ?m ?w = _ => assert (respects same_records m) as Hr; [clear E | exact (Hr _ _ _ E)] end.
      walk ltac:(apply scan_repair_records).
    + injection E as <- <-. by apply (merges_calm _ w w (Err e : result bool FilesystemError) w1).
  - unfold ibind at 1 in E. destruct (scan_state (merge_record (file_record c author path disk) t None (sc_max_logs scanner)) w) as [res w1] eqn:Em.
    destruct (merge_merges _ _ _ _ _ _ Hw Hcw Em) as [Hm _]. destruct res as [b|e]; injection E as <- <-.
    + by apply (merges_calm _ w w (Ok b : result bool FilesystemError) w1).
    + by apply (merges_calm _ w w (Err e : result bool FilesystemError) w1).
Qed.

Lemma scan_files_merges scanner c author t current files s w r w' :
  db_wf (w_db w) -> utf8_valid c = true -> (forall path disk, (path, disk) ∈ files -> disk_ok scanner path disk) ->
  scan_files scanner c author t current files s w = (r, w') ->
  merges (observed_files scanner c author t current (winners (w_db w)) files) w r w'.
Proof.
  intros Hw Hc. revert s w Hw. induction files as [|[path disk] files IH]; intros s w Hw Hf E; simpl in *.
  - injection E as <- <-. by apply merges_nothing.
  - unfold ibind in E. destruct (scan_file _ _ _ _ _ _ _ w) as [res w1] eqn:E1.
    apply scan_file_merges in E1; [|done | done | apply Hf; left]. destruct res as [o|e].
    + eapply merges_trans; [exact E1 | done|]. intros <-. eapply IH; [apply E1 | | exact E].
      intros p d Hin. apply Hf. by right.
    + injection E as <- <-. by apply (merges_fail _ _ w (Err e : result FileOutcome FilesystemError)).
Qed.

(** ** The deletions *)

Lemma record_tombstone_Ok c author t old r :
  utf8_valid c = true -> in_i64 t = true -> path_wf (rec_path old) -> in_i64 (rec_modified_ns old) = true ->
  record_tombstone c (rec_path old) (Z.max t (i64_saturating_add (rec_modified_ns old) 1)) author = Ok r ->
  r = deletion_record c author t old /\ record_wf r.
Proof.
  intros Hc Ht Hp Hold E. unfold in_i64 in Ht, Hold. boolp.
  assert (i64_saturating_add (rec_modified_ns old) 1 = Z.min i64_max (rec_modified_ns old + 1)) as Ea.
  { unfold i64_saturating_add, i64_min, i64_max in *. lia. }
  rewrite Ea in E. unfold record_tombstone in E. apply record_new_wf in E as [? ->]; try done.
  unfold in_i64, i64_min, i64_max in *. apply andb_true_iff. rewrite !Z.leb_le. lia.
Qed.

Lemma scan_deletions_merges scanner c author t ctx current s w r w' :
  db_wf (w_db w) -> utf8_valid c = true -> in_i64 t = true ->
  (forall x, x ∈ current -> path_wf (rec_path (prs_record x)) /\ in_i64 (rec_modified_ns (prs_record x)) = true) ->
  scan_deletions scanner c author t ctx current s w = (r, w') ->
  merges (observed_deletions scanner c author t ctx current) w r w'.
Proof.
  intros Hw Hc Ht. revert s w Hw. induction current as [|x current IH]; intros s w Hw Hx E.
  - injection E as <- <-. by apply merges_nothing.
  - assert (forall y, y ∈ current -> path_wf (rec_path (prs_record y)) /\ in_i64 (rec_modified_ns (prs_record y)) = true)
      as Hx' by (intros y Hy; apply Hx; by right).
    cbn [scan_deletions] in E. cbn [observed_deletions].
    destruct (is_deleted scanner ctx x) eqn:Ed; cbn [negb] in E; [|by eapply IH].
    destruct (record_tombstone _ _ _ _) as [tomb|e] eqn:Etomb.
    + destruct (Hx x ltac:(left)) as [Hpx Htx].
      destruct (record_tombstone_Ok _ _ _ _ _ Hc Ht Hpx Htx Etomb) as [-> Htw].
      unfold ibind at 1, ilift in E. cbn [map_err] in E. unfold ibind at 1 in E.
      destruct (scan_state (merge_record (deletion_record c author t (prs_record x)) t None (sc_max_logs scanner)) w) as [res w1] eqn:Em.
      destruct (merge_merges _ _ _ _ _ _ Hw Htw Em) as [Hm _]. change (?a :: ?l) with ([a] ++ l). destruct res as [b|e].
      * eapply merges_trans; [exact Hm | done|]. intros _. eapply IH; [apply Hm | done | exact E].
      * injection E as <- <-. by apply (merges_fail _ _ w (Err e : result bool FilesystemError)).
    + injection E as <- <-. split; [done|]. exists []. split; [apply prefix_nil | done].
Qed.

(** ** The tests of the code *)

Lemma too_late_test scanner t disk :
  in_i64 t = true -> 0 <= sc_max_future_skew_ns scanner ->
  (scan_limit scanner t <? disk_modified_ns disk) = true <-> too_late scanner t disk.
Proof.
  intros Ht Hs. unfold scan_limit, too_late, skew_ns, i64_try_from, i64_saturating_add, in_i64 in *.
  boolp. rewrite Z.ltb_lt. destruct (_ && _) eqn:Eb; cbn [default id]; boolp; [unfold i64_min, i64_max in *; lia|].
  apply andb_false_iff in Eb as [Eb|Eb]; boolp; unfold i64_min, i64_max in *; lia.
Qed.

Lemma is_ignored_test scanner path : is_ignored scanner path = true <-> ignored scanner path.
Proof.
  unfold is_ignored, ignored, has_internal_component. rewrite orb_true_iff, existsb_exists.
  split; (intros [(component & Hin & Hp)|Hi]; [left; exists component | by right]).
  - apply starts_with_app in Hp. by rewrite list_elem_of_In.
  - split; [by apply list_elem_of_In|]. by apply starts_with_app.
Qed.

Lemma below_prefix_test path prefix :
  below_prefix path prefix = true <-> path = prefix \/ exists rest, path = prefix ++ slash :: rest.
Proof.
  unfold below_prefix. rewrite orb_true_iff, andb_true_iff, !bool_decide_eq_true, starts_with_app.
  split; (intros [->|Hp]; [by left|]; right).
  - destruct Hp as [[rest ->] Hh]. rewrite drop_app_length in Hh. destruct rest as [|b rest]; [done|].
    injection Hh as ->. by exists rest.
  - destruct Hp as [rest ->]. split; [by eexists|]. by rewrite drop_app_length.
Qed.

Lemma is_excluded_test c path : is_excluded (wc_excluded_prefixes c) path = true <-> excluded c path.
Proof.
  unfold is_excluded, excluded. rewrite existsb_exists. setoid_rewrite below_prefix_test.
  by setoid_rewrite list_elem_of_In.
Qed.

Lemma disk_matches_test disk r :
  disk_matches_record disk r = true <->
  rec_modified_ns r = disk_modified_ns disk /\ rec_kind r = File (disk_size disk) (disk_hash disk).
Proof.
  unfold disk_matches_record. destruct (rec_kind r) as [size hash|]; [|split; [done | by intros [_ [=]]]].
  rewrite !andb_true_iff, !Z.eqb_eq, bool_decide_eq_true. split.
  - intros [[-> ->] ->]. done.
  - intros [-> [= -> ->]]. done.
Qed.

(** ** The states that are read *)

(** The columns of a fingerprint. *)
Definition row_installed (row : PathRow) (f : FileFingerprint) : Prop :=
  row_materialized row = true /\ row_modified_ns row = Some (fp_modified_ns f) /\ row_size row = Some (fp_size f) /\
  row_content_hash row = Some (arr (fp_hash f)).

Lemma decoded_fingerprint row s c p f :
  row_ok (c, p) row -> decode_path_record_state row c p = Ok s ->
  (prs_fingerprint s = Some f <-> row_installed row f).
Proof.
  intros (_ & Hck & Hcols) E. unfold decode_path_record_state in E.
  destruct (decode_fingerprint_ok row Hck Hcols) as (fp & Efp & Hsome).
  apply rbind_Ok in E as (r & _ & E). rewrite Efp in E. injection E as <-. cbn [prs_fingerprint]. split.
  - intros ->. destruct (proj1 Hsome) as [_ Hm]; [by eexists|]. unfold decode_materialized_fingerprint in Efp.
    destruct (row_modified_ns row) as [m|] eqn:Em, (row_size row) as [size|] eqn:Es,
      (row_content_hash row) as [hash|] eqn:Eh; try done.
    apply rbind_Ok in Efp as (size' & Hsize & Efp). apply rbind_Ok in Efp as (a & Ha & [= <-]).
    apply ok_or_Ok in Hsize, Ha. apply to_array_Some in Ha. unfold u64_try_from in Hsize.
    destruct (in_u64 size); [|done]. injection Hsize as <-.
    unfold row_installed. cbn [fp_modified_ns fp_size fp_hash]. by rewrite Em, Es, Eh, Ha.
  - intros (_ & Em & Es & Eh). unfold decode_materialized_fingerprint in Efp. rewrite Em, Es, Eh in Efp.
    rewrite to_array_arr in Efp. apply rbind_Ok in Efp as (size & Hsize & [= <-]). apply ok_or_Ok in Hsize.
    unfold u64_try_from in Hsize. destruct (in_u64 _); [|done]. injection Hsize as <-. by destruct f.
Qed.

Lemma decode_states_rows rows c ss :
  decode_states rows c = Ok ss -> Forall2 (fun x s => decode_path_record_state x.2 c x.1.2 = Ok s) rows ss.
Proof.
  revert ss. induction rows as [|[[c' p] row] rows IH]; intros ss E; cbn [decode_states] in E.
  - injection E as <-. constructor.
  - apply rbind_Ok in E as (s & Hs & E). apply rbind_Ok in E as (rest & Hrest & [= <-]). constructor; [done | by apply IH].
Qed.

(** What the states that are read say of the store. *)
Record read_states (db : Database) (name : bytes) (current : list PathRecordState) : Prop := mkReadStates {
  read_once : NoDup (map (fun s => path_str (rec_path (prs_record s))) current);
  read_winner s : s ∈ current -> rec_collection (prs_record s) = name /\
    winners db !! (name, path_str (rec_path (prs_record s))) = Some (prs_record s);
  read_fingerprint s f : s ∈ current ->
    prs_fingerprint s = Some f <->
    exists row, path_records_t db !! (name, path_str (rec_path (prs_record s))) = Some row /\ row_installed row f;
  read_file s : s ∈ current ->
    rec_kind (prs_record s) <> Tombstone /\ prs_materialized s = true <-> is_Some (prs_fingerprint s);
  read_all path row : path_records_t db !! (name, path) = Some row ->
    exists s, s ∈ current /\ path_str (rec_path (prs_record s)) = path;
}.

Lemma states_are_read db name :
  db_wf db -> exists current, record_states name db = (Ok current, db) /\ read_states db name current.
Proof.
  intros Hw. destruct (states_read db name Hw) as (current & E & Hn & Hs & Hrows). exists current. split; [done|].
  destruct (decode_states_ok _ _ (select_rows_ok db name Hw)) as (ss & Ess & Hf).
  unfold record_states, dbind, dget, dlift in E. assert (ss = current) as -> by congruence.
  apply decode_states_rows in Ess as Hd.
  assert (Hrow : forall s, s ∈ current -> exists row, path_records_t db !! (name, path_str (rec_path (prs_record s))) = Some row /\
    decode_path_record_state row name (path_str (rec_path (prs_record s))) = Ok s /\
    (is_Some (prs_fingerprint s) <-> rec_kind (prs_record s) <> Tombstone /\ prs_materialized s = true)).
  { intros s Hin. destruct (Hs s Hin) as [Hc _]. apply list_elem_of_lookup in Hin as [i Hi].
    destruct (Forall2_lookup_r _ _ _ _ _ Hf Hi) as ([k row] & Hk & (_ & Hidx & _) & _ & Hfile).
    destruct (Forall2_lookup_r _ _ _ _ _ Hd Hi) as (x & Hx & Hdec). assert (x = (k, row)) as -> by congruence.
    cbn [fst snd] in *. rewrite <-Hidx in *. unfold index_of in *. rewrite Hc in *. cbn [snd] in Hdec.
    apply list_elem_of_lookup_2 in Hk. unfold select_rows in Hk.
    apply list_elem_of_In, filter_In in Hk as [Hk _]. apply list_elem_of_In, items_elem in Hk.
    exists row. done. }
  split.
  - assert (map (fun s => index_of (prs_record s)) current
      = map (fun path => (name, path)) (map (fun s => path_str (rec_path (prs_record s))) current)) as Heq.
    { rewrite map_map. apply map_ext_in. intros s Hin%list_elem_of_In. destruct (Hs s Hin) as [Hc _].
      unfold index_of. by rewrite Hc. }
    rewrite Heq in Hn. by apply NoDup_fmap_1 in Hn.
  - intros s Hin. destruct (Hs s Hin) as (Hc & _ & _ & _ & Hwin). split; [done|]. unfold index_of in Hwin. by rewrite Hc in Hwin.
  - intros s f Hin. destruct (Hrow s Hin) as (row & Hk & Hdec & _).
    rewrite (decoded_fingerprint _ _ _ _ f (wf_rows db Hw _ _ Hk) Hdec). split; [by exists row|].
    intros (row' & Hk' & Hi). by assert (row' = row) as <- by congruence.
  - intros s Hin. destruct (Hrow s Hin) as (_ & _ & _ & ->). done.
  - intros path row Hk. destruct (Hrows _ _ Hk eq_refl) as (s & Hin & Hi). exists s. split; [done|]. by injection Hi.
Qed.
End laws.

(** ** What the records merged say of each path *)

Section told.
Context `{Crypto, Unicode, EventJson, Platform}.

Lemma latest_twice old r : latest (latest old r) r = latest old r.
Proof.
  unfold latest at 2 3. destruct (beats r old) eqn:E; [|unfold latest; by rewrite E].
  unfold latest. by destruct (beats r (Some r)).
Qed.

Lemma merge_map_at m r : merge_map m r !! index_of r = latest (m !! index_of r) r.
Proof. unfold merge_map, latest. case_match; [apply lookup_insert_eq | done]. Qed.

(** One record of its index, however often it is merged. *)
Lemma merge_maps_at m rs r :
  r ∈ rs -> (forall s, s ∈ rs -> index_of s = index_of r -> s = r) ->
  merge_maps m rs !! index_of r = latest (m !! index_of r) r.
Proof.
  revert m. induction rs as [|x rs IH]; intros m Hin Hone; [by apply not_elem_of_nil in Hin|].
  assert (forall s, s ∈ rs -> index_of s = index_of r -> s = r) as Hone' by (intros s Hs; apply Hone; by right).
  change (merge_maps m (x :: rs)) with (merge_maps (merge_map m x) rs).
  destruct (decide (index_of x = index_of r)) as [Hx|Hx].
  - assert (x = r) as -> by (apply Hone; [by left | done]). destruct (decide (r ∈ rs)) as [Hr|Hr].
    + rewrite IH by done. by rewrite merge_map_at, latest_twice.
    + rewrite merge_maps_other, merge_map_at; [done|]. intros s Hs Hi. by rewrite (Hone' s Hs Hi) in Hs.
  - apply elem_of_cons in Hin as [->|Hin]; [done|]. rewrite IH by done. f_equal.
    unfold merge_map. case_match; [by apply lookup_insert_ne | done].
Qed.

Context (scanner : Scanner) (name : bytes) (author : EndpointId) (t : Z).

Lemma observed_file_one current m path disk r :
  r ∈ observed_file scanner name author t current m path disk -> r = file_record name author path disk.
Proof. unfold observed_file. repeat case_match; set_solver. Qed.

Lemma observed_file_agree current m m' path disk :
  m !! (name, path) = m' !! (name, path) ->
  observed_file scanner name author t current m path disk = observed_file scanner name author t current m' path disk.
Proof. intros E. unfold observed_file, is_unchanged. by rewrite E. Qed.

(** Each file is compared with the winner of before the scan. *)
Lemma observed_files_elem current m files r :
  NoDup (map fst files) ->
  r ∈ observed_files scanner name author t current m files <->
  exists path disk, (path, disk) ∈ files /\ r ∈ observed_file scanner name author t current m path disk.
Proof.
  revert m. induction files as [|[path disk] files IH]; intros m Hn; cbn [observed_files map].
  - split; [by intros ?%not_elem_of_nil | by intros (? & ? & ?%not_elem_of_nil & _)].
  - apply NoDup_cons in Hn as [Hp Hn]. rewrite elem_of_app, (IH _ Hn).
    assert (forall path' disk', (path', disk') ∈ files ->
      observed_file scanner name author t current (merge_maps m (observed_file scanner name author t current m path disk)) path' disk'
      = observed_file scanner name author t current m path' disk') as Hsame.
    { intros path' disk' Hin. apply observed_file_agree, merge_maps_other. intros s ->%observed_file_one [= ->].
      apply Hp. by apply (list_elem_of_fmap_2 fst) in Hin. }
    split.
    + intros [Hr|(path' & disk' & Hin & Hr)]; [exists path, disk; split; [by left | done]|].
      rewrite Hsame in Hr by done. exists path', disk'. split; [by right | done].
    + intros (path' & disk' & [[= -> ->]|Hin]%elem_of_cons & Hr); [by left|]. right. exists path', disk'.
      by rewrite Hsame.
Qed.

Lemma observed_deletions_elem c current r :
  r ∈ observed_deletions scanner name author t c current <->
  exists s, s ∈ current /\ is_deleted scanner c s = true /\ r = deletion_record name author t (prs_record s).
Proof.
  induction current as [|x current IH]; cbn [observed_deletions].
  - split; [by intros ?%not_elem_of_nil | by intros (? & ?%not_elem_of_nil & _)].
  - assert ((exists s, s ∈ x :: current /\ is_deleted scanner c s = true /\ r = deletion_record name author t (prs_record s))
      <-> is_deleted scanner c x = true /\ r = deletion_record name author t (prs_record x) \/
          r ∈ observed_deletions scanner name author t c current) as ->.
    { rewrite IH. split; [intros (s & [->|Hs]%elem_of_cons & Hs'); [by left | right; by exists s]|].
      intros [Hx|(s & Hs & Hs')]; [exists x; split; [by left | done] | exists s; split; [by right | done]]. }
    destruct (is_deleted scanner c x); rewrite ?elem_of_cons; intuition done.
Qed.

(** The states [current], read from a store [seen] that has the winners and the
    installed files of [db]. *)
Context (c : WalkContext) (db seen : Database) (root : bytes) (current : list PathRecordState).
Hypothesis (Ht : in_i64 t = true) (Hskew : 0 <= sc_max_future_skew_ns scanner).
Hypothesis (Hread : read_states seen name current) (Hwinners : winners seen = winners db).
Hypothesis Hinstalled : forall path f,
  installed name db root path f <-> exists row, path_records_t seen !! (name, path) = Some row /\ row_installed row f.

Lemma state_fingerprint s f :
  s ∈ current -> prs_fingerprint s = Some f <-> installed name db root (path_str (rec_path (prs_record s))) f.
Proof. intros Hs. rewrite Hinstalled. by apply (read_fingerprint _ _ _ Hread). Qed.

Lemma state_winner s :
  s ∈ current -> winners db !! (name, path_str (rec_path (prs_record s))) = Some (prs_record s).
Proof. intros Hs. rewrite <-Hwinners. by apply (read_winner _ _ _ Hread). Qed.

Lemma installed_state path f :
  installed name db root path f ->
  exists s, s ∈ current /\ path_str (rec_path (prs_record s)) = path /\ prs_fingerprint s = Some f.
Proof.
  intros Hi. apply Hinstalled in Hi as Hrow. destruct Hrow as (row & Hk & _).
  destruct (read_all _ _ _ Hread _ _ Hk) as (s & Hs & <-). exists s. split; [done|]. split; [done|].
  by apply state_fingerprint.
Qed.

Lemma state_same s s' :
  s ∈ current -> s' ∈ current -> path_str (rec_path (prs_record s)) = path_str (rec_path (prs_record s')) ->
  prs_record s = prs_record s'.
Proof. intros Hs%state_winner Hs'%state_winner E. congruence. Qed.

Lemma fingerprints_installed path f :
  materialized_fingerprints current !! path = Some f <-> installed name db root path f.
Proof.
  unfold materialized_fingerprints. rewrite <-elem_of_list_to_map.
  - rewrite list_elem_of_omap. split.
    + intros (s & Hs & E). destruct (prs_fingerprint s) as [f'|] eqn:Ef; [|done]. injection E as <- ->.
      by apply state_fingerprint.
    + intros (s & Hs & <- & Ef)%installed_state. exists s. by rewrite Ef.
  - pose proof (read_once _ _ _ Hread) as Hn. clear -Hn. induction current as [|s l IH]; [constructor|].
    cbn [map] in Hn. apply NoDup_cons in Hn as [Hp Hn]. cbn [omap list_omap].
    destruct (prs_fingerprint s) as [f|]; [|by apply IH]. cbn. constructor; [|by apply IH].
    intros Hin. apply Hp. apply list_elem_of_fmap in Hin as ([path f'] & -> & Hin).
    apply list_elem_of_omap in Hin as (s' & Hs' & E). destruct (prs_fingerprint s'); [|done]. injection E as <- <-.
    by apply (list_elem_of_fmap_2 (fun s => path_str (rec_path (prs_record s)))).
Qed.

Lemma unchanged_test path disk :
  is_unchanged name current (winners db) path disk = true <->
  exists r, winners db !! (name, path) = Some r /\ as_recorded name db root path disk r.
Proof.
  unfold is_unchanged, as_recorded. destruct (winners db !! (name, path)) as [r|].
  - rewrite orb_true_iff, bool_decide_eq_true, fingerprints_installed, disk_matches_test. split.
    + intros Hr. by exists r.
    + intros (r' & [= <-] & Hr). done.
  - split; [done | by intros (? & ? & _)].
Qed.

Lemma deleted_test s :
  s ∈ current -> let path := path_str (rec_path (prs_record s)) in
  is_deleted scanner c s = true <->
  wc_files c !! path = None /\ is_Some (prs_fingerprint s) /\ ~ ignored scanner path /\ ~ excluded c path.
Proof.
  intros Hs path. rewrite <-is_ignored_test, <-is_excluded_test, <-(read_file _ _ _ Hread s Hs), eq_None_not_Some.
  unfold is_deleted. fold path. rewrite negb_true_iff, !orb_false_iff, !negb_false_iff, bool_decide_eq_false, !not_true_iff_false.
  destruct (rec_kind (prs_record s)); intuition done.
Qed.

(** The records of a scan that found [c], and what they say of each path. *)
Definition expected : list record :=
  observed_files scanner name author t current (winners db) (items (wc_files c))
  ++ observed_deletions scanner name author t c current.

Lemma expected_elem r :
  r ∈ expected <->
  (exists path disk, wc_files c !! path = Some disk /\
     r ∈ observed_file scanner name author t current (winners db) path disk) \/
  (exists s, s ∈ current /\ is_deleted scanner c s = true /\ r = deletion_record name author t (prs_record s)).
Proof.
  unfold expected. rewrite elem_of_app, observed_files_elem, observed_deletions_elem;
    [|apply strict_NoDup, items_sorted].
  by setoid_rewrite items_elem.
Qed.

(** A path has at most one of them. *)
Lemma expected_one r s : r ∈ expected -> s ∈ expected -> index_of s = index_of r -> s = r.
Proof.
  rewrite !expected_elem. intros [(p & d & Hp & ->%observed_file_one)|(x & Hx & Hdx & ->)]
    [(q & e & Hq & ->%observed_file_one)|(y & Hy & Hdy & ->)] [= Hi].
  - subst q. congruence.
  - subst p. apply deleted_test in Hdy as [Hno _]; [congruence | done].
  - subst q. apply deleted_test in Hdx as [Hno _]; [congruence | done].
  - by rewrite (state_same x y).
Qed.

Definition told (path : bytes) : Prop :=
  let old := winners db !! (name, path) in
  (exists r, r ∈ expected /\ index_of r = (name, path) /\ scans_to scanner name author t db root c path old (latest old r)) \/
  ((forall r, r ∈ expected -> index_of r <> (name, path)) /\ scans_to scanner name author t db root c path old old).

Lemma found_told path disk : wc_files c !! path = Some disk -> told path.
Proof.
  intros Ed.
  assert (observed_file scanner name author t current (winners db) path disk = [] ->
    forall r, r ∈ expected -> index_of r <> (name, path)) as Hnone.
  { intros Eo r [(p & d & Hp & Hr)|(s & Hs & Hds & ->)]%expected_elem Hi.
    - apply observed_file_one in Hr as Er. subst r. injection Hi as ->. assert (d = disk) as -> by congruence.
      rewrite Eo in Hr. by apply not_elem_of_nil in Hr.
    - injection Hi as Hi. apply deleted_test in Hds as [Hno _]; [congruence | done]. }
  unfold observed_file in Hnone. destruct (_ <? _) eqn:El.
  { apply too_late_test in El; [|done..]. right. split; [by apply Hnone | by eapply scans_late]. }
  assert (~ too_late scanner t disk) as Hl by (rewrite <-too_late_test by done; by rewrite El).
  destruct (is_unchanged _ _ _ _ _) eqn:Eu.
  { apply unchanged_test in Eu as (r & Er & Hr). right. split; [by apply Hnone | by eapply scans_same]. }
  left. exists (file_record name author path disk). split; [|split; [done|]].
  - apply expected_elem. left. exists path, disk. split; [done|]. unfold observed_file. rewrite El, Eu.
    by apply list_elem_of_singleton.
  - apply scans_changed; [done..|]. intros r Er Hr. apply not_true_iff_false in Eu. apply Eu, unchanged_test. by exists r.
Qed.

Lemma missing_told path : wc_files c !! path = None -> told path.
Proof.
  intros Ed. set (gone := fun s => is_deleted scanner c s = true /\ path_str (rec_path (prs_record s)) = path).
  destruct (filter gone current) as [|s rest] eqn:Eg.
  2: { assert (s ∈ filter gone current) as [[Hds <-] Hs]%list_elem_of_filter by (rewrite Eg; left).
    left. exists (deletion_record name author t (prs_record s)).
    split; [apply expected_elem; right; by exists s|]. split; [done|].
    apply deleted_test in Hds as (_ & [f Hf] & Hig & Hex); [|done].
    apply (scans_gone _ _ _ _ _ _ _ _ _ f); [done | by apply state_fingerprint | done | done | by apply state_winner]. }
  assert (forall s, s ∈ current -> ~ gone s) as Hno.
  { intros s Hs Hg. apply (not_elem_of_nil s). rewrite <-Eg. by apply list_elem_of_filter. }
  right. split.
  - intros r [(p & d & Hp & ->%observed_file_one)|(s & Hs & Hds & ->)]%expected_elem [= Hi]; [congruence|].
    by apply (Hno s).
  - apply scans_left; [done|]. intros f (s & Hs & <- & Hf)%installed_state. rewrite <-is_ignored_test, <-is_excluded_test.
    destruct (is_ignored _ _) eqn:Ei; [by left|]. destruct (is_excluded _ _) eqn:Ee; [by right|].
    destruct (Hno s Hs). split; [|done]. apply deleted_test; [done|].
    rewrite <-is_ignored_test, <-is_excluded_test, Ei, Ee. split; [done|]. split; [by eexists | done].
Qed.

Lemma all_told path : told path.
Proof. destruct (wc_files c !! path) eqn:E; [by eapply found_told | by apply missing_told]. Qed.

Lemma expected_elsewhere rs k :
  rs `prefix_of` expected -> k.1 <> name -> merge_maps (winners db) rs !! k = winners db !! k.
Proof.
  intros [rest Hp] Hk. apply merge_maps_other. intros r Hr <-. apply Hk.
  assert (r ∈ expected) as He by (rewrite Hp; apply elem_of_app; by left).
  by apply expected_elem in He as [(p & d & _ & ->%observed_file_one)|(s & _ & _ & ->)].
Qed.

(** A scan that was cut short has done with a path what a whole one does, or nothing. *)
Lemma prefix_scans rs path :
  rs `prefix_of` expected ->
  let old := winners db !! (name, path) in
  let new := merge_maps (winners db) rs !! (name, path) in
  (new = old /\ rs <> expected) \/ scans_to scanner name author t db root c path old new.
Proof.
  intros Hp old new.
  assert (Hsub : forall r, r ∈ rs -> r ∈ expected).
  { destruct Hp as [rest ->]. intros r Hr. apply elem_of_app. by left. }
  destruct (all_told path) as [(r & Hr & Hi & Hs)|[Hnone Hs]]; fold old in Hs.
  - destruct (decide (r ∈ rs)) as [Hin|Hin].
    + right. subst new. rewrite <-Hi, merge_maps_at, Hi; [done..|]. intros s Hs' His. apply expected_one; auto.
    + left. split; [|by intros ->]. apply merge_maps_other. intros s Hs' His. apply Hin.
      by rewrite <-(expected_one r s) by (try congruence; auto).
  - right. subst new. rewrite merge_maps_other by auto. done.
Qed.
End told.
