(* ===== verification/WalkLaws.v ===== *)
(** The walk below the root of a collection: what it finds, and that it ends. *)

From S2P Require Import Prelude Bytes Utf8 Cursor Canonical Path Identity Records Winners Roster Database State.
From S2P Require Import StateLaws Platform Installer InstallLaws Sync SyncLaws Scan ScanLaws.

(** What the operating system promises of directories: the length of a file is
    a [u64]; and the calls of a walk make no directories, of which there are
    finitely many. *)
Class WalkLaws `{Platform} := {
  dirs : FS -> gset (Z * Z);
  law_length h fs md fs' : file_metadata h fs = (Ok md, fs') -> in_u64 (md_len md) = true;
  law_dir_identity d fs id fs' : dir_metadata d fs = (Ok id, fs') -> id ∈ dirs fs;
  keeps_dirs : FS -> FS -> Prop := fun fs fs' => dirs fs' = dirs fs;
  law_dirs_dir_metadata d fs r fs' : dir_metadata d fs = (r, fs') -> keeps_dirs fs fs';
  law_dirs_entries d fs r fs' : entries d fs = (r, fs') -> keeps_dirs fs fs';
  law_dirs_file_type d n fs r fs' : entry_file_type d n fs = (r, fs') -> keeps_dirs fs fs';
  law_dirs_canonicalize p fs r fs' : canonicalize p fs = (r, fs') -> keeps_dirs fs fs';
  law_dirs_try_clone d fs r fs' : try_clone d fs = (r, fs') -> keeps_dirs fs fs';
  law_dirs_open_dir d p fs r fs' : open_dir d p fs = (r, fs') -> keeps_dirs fs fs';
  law_dirs_open_at d p fs r fs' : open_at d p fs = (r, fs') -> keeps_dirs fs fs';
  law_dirs_metadata h fs r fs' : file_metadata h fs = (r, fs') -> keeps_dirs fs fs';
  law_dirs_read h n fs r fs' : file_read h n fs = (r, fs') -> keeps_dirs fs fs';
}.

Section laws.
Context `{Crypto, Unicode, EventJson, Platform}.

(** ** The database is not looked at *)

Ltac walk_call := first [apply respects_map_err; apply leaves_db_fs | apply leaves_db_fs].

Lemma leaves_read fuel file hashed : respects same_db (read_to_end fuel file hashed).
Proof. revert hashed. induction fuel as [|fuel IH]; intros hashed; cbn [read_to_end]; unfold scan_io; walk ltac:(first [walk_call | apply IH]). Qed.
Lemma leaves_stable n fuel open : respects same_db (stable_file_loop n fuel open).
Proof. induction n as [|n IH]; cbn [stable_file_loop]; unfold scan_io; walk ltac:(first [walk_call | apply leaves_read | apply IH]). Qed.
Lemma leaves_resolve root logical : respects same_db (resolve_symlink root logical).
Proof. unfold resolve_symlink. walk walk_call. Qed.
Lemma leaves_target root target : respects same_db (open_target_dir root target).
Proof. unfold open_target_dir. walk walk_call. Qed.

Lemma leaves_visit walk env d logical name c :
  (forall d l c, respects same_db (walk d l c)) -> respects same_db (visit_entry walk env d logical name c).
Proof.
  intros Hw. unfold visit_entry, stable_file, scan_io. cbv zeta.
  walk ltac:(first [apply Hw | apply leaves_resolve | apply leaves_target | apply leaves_stable | walk_call]).
Qed.

Lemma leaves_walk fuel env d logical ancestors c : respects same_db (walk_directory fuel env d logical ancestors c).
Proof.
  revert d logical ancestors c. induction fuel as [|fuel IH]; intros d logical ancestors c; cbn [walk_directory]; unfold scan_io.
  - apply respects_fail, _.
  - walk walk_call. generalize (sort a1) as names. intros names. revert c.
    induction names as [|name names IHn]; intros c; cbn [visit_entries]; walk ltac:(first [apply IHn | apply leaves_visit]).
    intros. apply IH.
Qed.

(** ** What is found *)

Context `{!WalkLaws}.

Definition walk_ok (scanner : Scanner) (c : WalkContext) : Prop :=
  forall path disk, wc_files c !! path = Some disk -> disk_ok scanner path disk.

(** [m] returns values of [P] only. *)
Definition yields {E A} (P : A -> Prop) (m : IO E A) : Prop := forall w a w', m w = (Ok a, w') -> P a.

Lemma yields_bind {E A B} (Q : A -> Prop) (P : B -> Prop) (m : IO E A) (f : A -> IO E B) :
  yields Q m -> (forall a, Q a -> yields P (f a)) -> yields P (ibind m f).
Proof. intros Hm Hf w b w' (a & w1 & E1 & E2)%ibind_Ok. by eapply Hf; [eapply Hm|]. Qed.
Lemma yields_any {E A} (m : IO E A) : yields (fun _ => True) m.
Proof. done. Qed.
Lemma yields_ret {E A} (P : A -> Prop) (a : A) : P a -> yields P (iret (E := E) a).
Proof. by intros Ha w a' w' [= <- _]. Qed.
Lemma yields_fail {E A} (P : A -> Prop) (e : E) : yields P (ifail e).
Proof. by intros w a w' [=]. Qed.
Lemma yields_lift {E A} (P : A -> Prop) (r : result A E) : (forall a, r = Ok a -> P a) -> yields P (ilift r).
Proof. intros Hr w a w' [= -> _]. by apply Hr. Qed.

(** A disk file as [stable_file] makes it. *)
Definition disk_typed (found : option DiskFile) : Prop :=
  forall disk, found = Some disk -> in_u64 (disk_size disk) = true /\ in_i64 (disk_modified_ns disk) = true.

Lemma stable_file_typed n fuel open : yields disk_typed (stable_file_loop n fuel open).
Proof.
  induction n as [|n IH]; cbn [stable_file_loop]; [by apply yields_ret|].
  eapply yields_bind; [apply yields_any|]. intros file _. eapply yields_bind; [apply yields_any|]. intros before _.
  destruct (negb _); [by apply yields_ret|]. eapply yields_bind; [apply yields_any|]. intros content _.
  apply (yields_bind (fun md => in_u64 (md_len md) = true)).
  - intros w md w' E. apply imap_err_Ok, on_fs_Ok in E as (fs' & E & _). by eapply law_length.
  - intros after Hlen. destruct (stable_metadata before after); [|done]. apply yields_ret.
    intros disk [= <-]. split; [done|]. apply i64_saturating_add_in.
Qed.

Lemma exclude_ok scanner collection path issue c : walk_ok scanner c -> walk_ok scanner (exclude collection path issue c).
Proof. intros Hc path' disk Hd. by apply Hc. Qed.

Lemma insert_ok scanner collection protocol disk c c' :
  walk_ok scanner c -> disk_ok scanner (path_str protocol) disk ->
  insert_disk_file collection protocol disk c = Ok c' -> walk_ok scanner c'.
Proof.
  intros Hc Hd. unfold insert_disk_file. destruct (index_insert _ _) as [paths|error].
  - intros [= <-] path disk' Hl. cbn [wc_files] in Hl. apply lookup_insert_Some in Hl as [[<- <-]|[_ Hl]]; auto.
  - destruct error; intros E; try discriminate E; injection E as <-; by apply exclude_ok.
Qed.

Lemma visit_entry_ok walk env d logical name c :
  (forall d l c, walk_ok (wr_scanner env) c -> yields (walk_ok (wr_scanner env)) (walk d l c)) ->
  walk_ok (wr_scanner env) c -> yields (walk_ok (wr_scanner env)) (visit_entry walk env d logical name c).
Proof.
  intros Hw Hc. unfold visit_entry. cbv zeta.
  destruct (protocol_path _) as [protocol|] eqn:Ep; [|by apply yields_ret, exclude_ok].
  destruct (is_ignored _ _) eqn:Ei; [by apply yields_ret|].
  assert (Hfound : forall found disk, disk_typed found -> found = Some disk ->
    yields (walk_ok (wr_scanner env)) (ilift (insert_disk_file (wr_collection env) protocol disk c))).
  { intros found disk Ht ->. apply yields_lift. intros c' E. eapply insert_ok; [exact Hc | | exact E].
    destruct (Ht disk eq_refl) as [Hs Hm]. apply path_from_utf8_wf in Ep as [Hp _]. by destruct protocol. }
  eapply yields_bind; [apply yields_any|]. intros ft _. destruct ft.
  - eapply yields_bind; [apply yields_any|]. intros [target|] _; [|by apply yields_ret, exclude_ok].
    eapply yields_bind; [apply yields_any|]. intros [td|] _; [by apply Hw|].
    apply (yields_bind (fun r => forall found, r = Ok found -> disk_typed found)).
    + intros w r w' E. unfold iresult in E. destruct (stable_file _ _ w) as [x w1] eqn:Es. injection E as <- _.
      intros found ->. by eapply stable_file_typed.
    + intros [[disk|]|e] Hr; [by eapply Hfound; [apply Hr|] | by apply yields_ret, exclude_ok |].
      destruct e; try (by apply yields_ret, exclude_ok). apply yields_fail.
  - eapply yields_bind; [apply yields_any|]. intros td _. by apply Hw.
  - eapply yields_bind; [apply stable_file_typed|]. intros [disk|] Hd; [by eapply Hfound | by apply yields_ret, exclude_ok].
  - by apply yields_ret.
Qed.

Lemma visit_entries_ok walk env d logical names c :
  (forall d l c, walk_ok (wr_scanner env) c -> yields (walk_ok (wr_scanner env)) (walk d l c)) ->
  walk_ok (wr_scanner env) c -> yields (walk_ok (wr_scanner env)) (visit_entries walk env d logical names c).
Proof.
  intros Hw. revert c. induction names as [|name names IH]; intros c Hc; cbn [visit_entries]; [by apply yields_ret|].
  eapply yields_bind; [by apply visit_entry_ok | exact IH].
Qed.

Lemma walk_directory_ok fuel env d logical ancestors c :
  walk_ok (wr_scanner env) c -> yields (walk_ok (wr_scanner env)) (walk_directory fuel env d logical ancestors c).
Proof.
  revert d logical ancestors c. induction fuel as [|fuel IH]; intros d logical ancestors c Hc; cbn [walk_directory];
    [apply yields_fail|].
  eapply yields_bind; [apply yields_any|]. intros id _. case_bool_decide; [by apply yields_ret, exclude_ok|].
  eapply yields_bind; [apply yields_any|]. intros listed _. eapply yields_bind; [apply yields_any|]. intros names _.
  apply visit_entries_ok; [|done]. intros d' l' c' Hc'. by apply IH.
Qed.

(** ** It ends *)

Definition same_dirs (w w' : World) : Prop := dirs (w_fs w') = dirs (w_fs w).
#[global] Instance same_dirs_preorder : PreOrder same_dirs.
Proof. unfold same_dirs. split; [done | intros x y z Hxy Hyz; congruence]. Qed.

Lemma dirs_fs {A} (m : FS -> result A IoError * FS) :
  (forall fs r fs', m fs = (r, fs') -> dirs fs' = dirs fs) -> respects same_dirs (on_fs m).
Proof. intros Hm w r w'. unfold on_fs. destruct (m (w_fs w)) as [x fs'] eqn:E. intros [= _ <-]. by eapply Hm. Qed.

Ltac dirs_call :=
  idtac; lazymatch goal with
  | |- respects _ (scan_io _) => apply respects_map_err; dirs_call
  | |- respects _ (on_fs (if ?b then _ else _)) => destruct b; dirs_call
  | |- respects _ (on_fs _) => apply dirs_fs; intros ? ? ?;
      first [apply law_dirs_dir_metadata | apply law_dirs_entries | apply law_dirs_file_type | apply law_dirs_canonicalize
        | apply law_dirs_try_clone | apply law_dirs_open_dir | apply law_dirs_open_at | apply law_dirs_metadata
        | apply law_dirs_read]
  end.

Lemma dirs_read fuel file hashed : respects same_dirs (read_to_end fuel file hashed).
Proof. revert hashed. induction fuel as [|fuel IH]; intros hashed; cbn [read_to_end]; walk ltac:(first [dirs_call | apply IH]). Qed.
Lemma dirs_stable n fuel d p : respects same_dirs (stable_file_loop n fuel (open_at d p)).
Proof. induction n as [|n IH]; cbn [stable_file_loop]; walk ltac:(first [dirs_call | apply dirs_read | apply IH]). Qed.

(** A computation that does not fail for want of depth, where [P] holds. *)
Definition deep_enough {A} (P : World -> Prop) (m : IO FilesystemError A) : Prop :=
  forall w r w', P w -> m w = (r, w') -> r <> Err WalkFuel /\ P w'.

Lemma deep_bind {A B} P (m : IO FilesystemError A) (f : A -> IO FilesystemError B) :
  deep_enough P m -> (forall a, deep_enough P (f a)) -> deep_enough P (ibind m f).
Proof.
  intros Hm Hf w r w' Hw E. unfold ibind in E. destruct (m w) as [[a|e] w1] eqn:Em.
  - destruct (Hm _ _ _ Hw Em) as [_ H1']. by eapply Hf.
  - injection E as <- <-. destruct (Hm _ _ _ Hw Em) as [He H1']. split; [|done]. intros [= ->]. by apply He.
Qed.

Variable ids : gset (Z * Z).
Definition within (w : World) : Prop := dirs (w_fs w) ⊆ ids.

Lemma deep_calm {A} (m : IO FilesystemError A) :
  respects same_dirs m -> (forall w, (m w).1 <> Err WalkFuel) -> deep_enough within m.
Proof.
  intros Hm Hr w r w' Hw E. specialize (Hr w). rewrite E in Hr. split; [done|].
  unfold within. by rewrite (Hm _ _ _ E).
Qed.

Lemma io_not_fuel {A} (m : FS -> result A IoError * FS) w : (scan_io m w).1 <> Err WalkFuel.
Proof. unfold scan_io, imap_err, on_fs. by destruct (m (w_fs w)) as [[a|e] fs]. Qed.

Lemma deep_io {A} (m : FS -> result A IoError * FS) : respects same_dirs (scan_io m) -> deep_enough within (scan_io m).
Proof. intros Hm. apply deep_calm; [done | apply io_not_fuel]. Qed.

Lemma deep_ret {A} (a : A) : deep_enough within (iret a).
Proof. by intros w r w' Hw [= <- <-]. Qed.
Lemma deep_fail {A} e : e <> WalkFuel -> deep_enough (A := A) within (ifail e).
Proof. intros He w r w' Hw [= <- <-]. split; [congruence | done]. Qed.
Lemma deep_lift {A} (x : result A FilesystemError) : x <> Err WalkFuel -> deep_enough within (ilift x).
Proof. by intros Hx w r w' Hw [= <- <-]. Qed.
Lemma deep_result {E A} (m : IO E A) : respects same_dirs m -> deep_enough within (iresult m).
Proof.
  intros Hm w r w' Hw E'. unfold iresult in E'. destruct (m w) as [x w1] eqn:Em. injection E' as <- <-.
  split; [done|]. unfold within. by rewrite (Hm _ _ _ Em).
Qed.

Lemma deep_read fuel file hashed : deep_enough within (read_to_end fuel file hashed).
Proof.
  revert hashed. induction fuel as [|fuel IH]; intros hashed; cbn [read_to_end]; [by apply deep_fail|].
  apply deep_bind; [apply deep_io; dirs_call|]. intros chunk. destruct (_ =? 0); [apply deep_ret | apply IH].
Qed.
Lemma deep_stable n fuel d p : deep_enough within (stable_file_loop n fuel (open_at d p)).
Proof.
  induction n as [|n IH]; cbn [stable_file_loop]; [apply deep_ret|].
  apply deep_bind; [apply deep_io; dirs_call|]. intros file. apply deep_bind; [apply deep_io; dirs_call|]. intros before.
  destruct (negb _); [apply deep_ret|]. apply deep_bind; [apply deep_read|]. intros content.
  apply deep_bind; [apply deep_io; dirs_call|]. intros after. destruct (stable_metadata _ _); [apply deep_ret | apply IH].
Qed.

Lemma insert_not_fuel collection protocol disk c : insert_disk_file collection protocol disk c <> Err WalkFuel.
Proof. unfold insert_disk_file. destruct (index_insert _ _) as [paths|e]; [done | by destruct e]. Qed.

Lemma deep_visit walk env d logical name c :
  (forall d l c, deep_enough within (walk d l c)) -> deep_enough within (visit_entry walk env d logical name c).
Proof.
  intros Hw. unfold visit_entry. cbv zeta. destruct (protocol_path _) as [protocol|e]; [|apply deep_ret].
  destruct (is_ignored _ _); [apply deep_ret|]. apply deep_bind; [apply deep_io; dirs_call|]. intros ft.
  assert (forall disk, deep_enough within (ilift (insert_disk_file (wr_collection env) protocol disk c))) as Hi.
  { intros disk. apply deep_lift, insert_not_fuel. }
  destruct ft; [| | |apply deep_ret].
  - apply deep_bind; [apply deep_result; unfold resolve_symlink; walk dirs_call|]. intros [target|e]; [|apply deep_ret].
    apply deep_bind.
    { unfold open_target_dir. apply deep_bind; [apply deep_result; dirs_call|]. intros [x|e]; apply deep_ret. }
    intros [td|]; [apply Hw|]. apply deep_bind; [apply deep_result, dirs_stable|].
    intros [[disk|]|e]; [apply Hi | apply deep_ret|]. destruct e; try apply deep_ret. by apply deep_fail.
  - apply deep_bind; [apply deep_io; dirs_call|]. intros td. apply Hw.
  - apply deep_bind; [apply deep_stable|]. intros [disk|]; [apply Hi | apply deep_ret].
Qed.

Lemma deep_entries walk env d logical names c :
  (forall d l c, deep_enough within (walk d l c)) -> deep_enough within (visit_entries walk env d logical names c).
Proof.
  intros Hw. revert c. induction names as [|name names IH]; intros c; cbn [visit_entries]; [apply deep_ret|].
  apply deep_bind; [by apply deep_visit | exact IH].
Qed.

(** Every step down adds a directory to the ancestors. *)
Lemma deep_walk fuel env d logical ancestors c :
  NoDup ancestors -> (forall x, x ∈ ancestors -> x ∈ ids) -> (size ids < fuel + length ancestors)%nat ->
  deep_enough within (walk_directory fuel env d logical ancestors c).
Proof.
  revert d logical ancestors c. induction fuel as [|fuel IH]; intros d logical ancestors c Hn Hin Hf.
  { exfalso. assert (length ancestors <= size ids)%nat; [|lia].
    rewrite <-(size_list_to_set (C := gset (Z * Z)) ancestors) by done. apply subseteq_size. set_solver. }
  cbn [walk_directory]. intros w r w' Hw E. unfold ibind at 1 in E.
  destruct (scan_io (dir_metadata d) w) as [[id|e] w1] eqn:Ed.
  2: { injection E as <- <-. eapply (deep_io (dir_metadata d)) in Ed; [|dirs_call | done].
       destruct Ed as [He Hw1]. split; [|done]. intros [= ->]. by apply He. }
  assert (id ∈ ids) as Hid.
  { apply imap_err_Ok, on_fs_Ok in Ed as (fs' & Ed & _). apply law_dir_identity in Ed. by apply Hw. }
  eapply (deep_io (dir_metadata d)) in Ed; [|dirs_call | done]. destruct Ed as [_ Hw1].
  revert E. case_bool_decide as Ha; [by intros [= <- <-]|].
  revert w1 r w' Hw1. change (deep_enough within (listed <== scan_io (entries d) ;;
    names <== ilift (map_err ScanIo (collect_entries listed)) ;;
    visit_entries (fun td l c => walk_directory fuel env td l (id :: ancestors) c) env d logical (sort names) c)).
  apply deep_bind; [apply deep_io; dirs_call|]. intros listed.
  apply deep_bind; [apply deep_lift; by destruct (collect_entries listed)|]. intros names.
  apply deep_entries. intros d' l' c'. apply IH; [by constructor | | simpl; lia].
  intros x [->|Hx]%elem_of_cons; auto.
Qed.
End laws.
