(* ===== verification/ScanProps.v ===== *)
(** The properties of a scan: the walk ends, and what it records is what it saw. *)

From S2P Require Import Prelude Bytes Utf8 Cursor Canonical Path Identity Concrete Records Winners Roster Database State.
From S2P Require Import StateLaws StateProps Platform ToyFs Installer InstallLaws Sync SyncLaws SyncProps SessionLaws.
From S2P Require Import Scan ScanLaws WalkLaws.

Section properties.
Context `{Crypto, Unicode, EventJson, Platform, !WalkLaws}.

(** C25: The walk ends: with more fuel than there are directories, whatever
    symbolic links are in them, it never goes too deep, since every step down
    enters a directory it is not inside of. *)
Theorem walk_terminates fuel env directory logical c w :
  (size (dirs (w_fs w)) < fuel)%nat -> (walk_directory fuel env directory logical [] c w).1 <> Err WalkFuel.
Proof.
  intros Hf. destruct (walk_directory fuel env directory logical [] c w) as [r w'] eqn:E.
  refine (proj1 (deep_walk (dirs (w_fs w)) fuel env directory logical [] c NoDup_nil_2 _ _ w r w' _ E)); [|simpl; lia | by unfold within].
  intros x Hx. by apply not_elem_of_nil in Hx.
Qed.

(** What a scan looks at: the clock, the root, as far as it can be opened, and a
    walk of it with the comparison of names of before or of a probe. *)
Definition looked (scanner : Scanner) (collection : CollectionState) (comparisons : gmap bytes FilenameComparison)
    (w : World) (observed_ns : Z) (stable : StableRoot) (c : WalkContext) : Prop :=
  exists comparison w1 w2 w3,
    open_collection (cs_local_path collection) w = (Ok (observed_ns, Ok stable), w1) /\
    match comparisons !! root_resolved_path stable with
    | Some cached => comparison = cached /\ w2 = w1
    | None => probe_filename_comparison_in (root_directory stable) w1 = (Ok comparison, w2)
    end /\
    walk_directory (sc_walk_fuel scanner)
      (mkWalkRoot scanner (cs_name collection) (root_directory stable) (root_resolved_path stable))
      (root_directory stable) [] [] (mkWalk (index_new comparison) ∅ [] []) w2 = (Ok c, w3).

(** There is no directory where the root should be. *)
Definition no_root (collection : CollectionState) (w : World) : Prop :=
  exists t e w1, open_collection (cs_local_path collection) w = (Ok (t, Err (RootIo e)), w1) /\
    (e = NotFound \/ e = NotADirectory \/ e = InvalidInput).

Lemma clock_ns_in t : in_i64 (clock_ns t) = true.
Proof.
  unfold in_i64, clock_ns, i64_min, i64_max. apply andb_true_iff. rewrite !Z.leb_le. destruct (Z.leb_spec 0 t); lia.
Qed.

(** ** The store when its states are read *)

Lemma completed_records n p root : respects same_records (scan_state (complete_collection_scan n p root)).
Proof.
  intros w x w' E. unfold scan_state, imap_err in E. destruct (on_db _ w) as [y w2] eqn:E2. injection E as _ <-.
  apply (op_records (OpCompleteScan n p root) I I w (let? _ := y in Ok tt) w2). unfold on_db in *. cbn [run_op].
  unfold forget, dbind. destruct (complete_collection_scan _ _ _ (w_db w)) as [[b|e] db]; by injection E2 as <- <-.
Qed.

(** The rows of path_records stay. *)
Definition same_rows (w w' : World) : Prop := path_records_t (w_db w') = path_records_t (w_db w).
#[local] Instance same_rows_preorder : PreOrder same_rows.
Proof. unfold same_rows. split; [done | intros x y z Hxy Hyz; congruence]. Qed.

Lemma log_warnings_rows scanner t ws : respects same_rows (log_warnings scanner t ws).
Proof.
  assert (forall event, respects same_rows (log scanner t event)) as Hlog.
  { intros event. apply respects_map_err. intros w r w' E. unfold on_db, append_log in E.
    destruct (transaction _ (w_db w)) as [[[]|e] db] eqn:Et; injection E as _ <-; unfold same_rows; cbn [w_db set_db].
    - apply transaction_Ok, insert_log_frame in Et as [Hrows _]. done.
    - by apply transaction_Err in Et as ->. }
  induction ws as [|e ws IH]; simpl; walk ltac:(first [apply Hlog | apply IH]).
Qed.

(** A scan of the root the files were installed below keeps them, and of another
    one forgets them. *)
Lemma completed_installed n p root db changed db2 seen :
  complete_collection_scan n p root db = (Ok changed, db2) -> db_wf db2 -> path_records_t seen = path_records_t db2 ->
  forall path f, installed n db root path f <->
    exists row, path_records_t seen !! (n, path) = Some row /\ row_installed row f.
Proof.
  intros E Hw2 -> path f.
  destruct (scan_root_change _ _ _ _ _ _ E) as ((place & Hplace & Hchanged & _) & Hsame & Hgone & _).
  unfold installed, row_installed. destruct changed; symmetry in Hchanged; boolp.
  - split.
    + intros (place' & row & Hplace' & Hroot & _). by assert (place' = place) as -> by congruence.
    + intros (row & Hk & Hm & Hns & _). exfalso.
      destruct (wf_rows db2 Hw2 _ _ Hk) as (_ & Hck & Hcols).
      destruct (decode_fingerprint_ok row Hck Hcols) as (fp & Efp & Hsome). rewrite Hns in Efp.
      destruct fp as [fp|].
      * destruct (proj1 Hsome) as [Hkind Hm']; [by eexists|]. by rewrite (Hgone eq_refl _ _ Hk Hkind) in Hm'.
      * unfold decode_materialized_fingerprint in Efp. by destruct (row_size row), (row_content_hash row); inv_ok.
  - rewrite Hsame by done. split.
    + intros (place' & row & _ & _ & Hk & Hrow). by exists row.
    + intros (row & Hk & Hrow). exists place, row. split; [done|]. split; [|done].
      by apply dec_stable.
Qed.

(** ** From the walk on *)

Lemma count_outcome_paused o s : sum_paused (count_outcome o s) = sum_paused s.
Proof. by destruct o. Qed.

Lemma scan_files_paused scanner n a t current files s :
  yields (fun s' => sum_paused s' = sum_paused s) (scan_files scanner n a t current files s).
Proof.
  revert s. induction files as [|[path disk] files IH]; intros s w s' w' E; cbn [scan_files] in E; inv_io; [done|].
  apply IH in E. by rewrite E, count_outcome_paused.
Qed.

Lemma scan_deletions_paused scanner n a t c current s :
  yields (fun s' => sum_paused s' = sum_paused s) (scan_deletions scanner n a t c current s).
Proof.
  revert s. induction current as [|x current IH]; intros s w s' w' E; cbn [scan_deletions] in E; [by inv_io|].
  destruct (negb _); [by apply IH in E|]. cbv zeta in E. apply ibind_Ok in E as (r & w1 & _ & E).
  apply ibind_Ok in E as (accepted & w2 & _ & E). apply IH in E. by destruct accepted.
Qed.

(** The records of the files, then those of the deletions. *)
Lemma scan_records_merge scanner n a t c current s w r w' :
  db_wf (w_db w) -> utf8_valid n = true -> in_i64 t = true -> walk_ok scanner c -> read_states (w_db w) n current ->
  ibind (scan_files scanner n a t current (items (wc_files c)) s) (fun s =>
    ibind (scan_deletions scanner n a t c current s) (fun s =>
      ibind (log scanner t (CollectionScanned n)) (fun _ => iret s))) w = (r, w') ->
  merges (expected scanner n a t c (w_db w) current) w r w' /\ (forall s', r = Ok s' -> sum_paused s' = sum_paused s).
Proof.
  intros Hw Hn Ht Hok Hread E.
  assert (forall y, y ∈ current -> path_wf (rec_path (prs_record y)) /\ in_i64 (rec_modified_ns (prs_record y)) = true) as Hstates.
  { intros y Hy. destruct (read_winner _ _ _ Hread y Hy) as [_ Hwin].
    by apply winners_wf in Hwin as [(_ & _ & ? & _ & ? & _) _]. }
  assert (forall path disk, (path, disk) ∈ items (wc_files c) -> disk_ok scanner path disk) as Hfiles.
  { intros path disk Hin%items_elem. by apply Hok. }
  unfold ibind at 1 in E. destruct (scan_files _ _ _ _ _ _ _ w) as [x w1] eqn:E1.
  pose proof (scan_files_merges _ _ _ _ _ _ _ _ _ _ Hw Hn Hfiles E1) as M1. unfold expected.
  destruct x as [s1|e]; [|injection E as <- <-; split; [|done];
    by apply (merges_fail _ _ w (Err e : result ScanSummary FilesystemError))].
  apply scan_files_paused in E1. unfold ibind at 1 in E. destruct (scan_deletions _ _ _ _ _ _ _ w1) as [x w2] eqn:E2.
  pose proof (scan_deletions_merges _ _ _ _ _ _ _ _ _ _ (proj1 M1) Hn Ht Hstates E2) as M2. split.
  - eapply merges_trans; [exact M1 | done|]. intros _. destruct x as [s2|e].
    + eapply (merges_calm _ w1 w1 _ w2); [apply M1 | done | exact M2 | | done].
      match type of E with ?m ?w = _ => assert (respects same_records m) as Hm; [clear E | exact (Hm _ _ _ E)] end.
      walk ltac:(apply scan_log_records).
    + injection E as <- <-. by apply (merges_calm _ w1 w1 (Err e : result ScanSummary FilesystemError) w2); [apply M1|..].
  - intros s' ->. destruct x as [s2|e]; [|done]. apply scan_deletions_paused in E2.
    apply ibind_Ok in E as (? & ? & _ & [= <- _]). congruence.
Qed.

(** The states the records come from are those of a store that has the winners of
    [db] and its files installed below [root]. *)
Definition states_of (db : Database) (n root : bytes) (current : list PathRecordState) : Prop :=
  exists seen, read_states seen n current /\ winners seen = winners db /\
    forall path f, installed n db root path f <->
      exists row, path_records_t seen !! (n, path) = Some row /\ row_installed row f.

Lemma scan_root_merges scanner collection author observed_ns stable comparison w r w' :
  db_wf (w_db w) -> utf8_valid (cs_name collection) = true -> in_i64 observed_ns = true ->
  scan_root scanner collection author observed_ns stable comparison w = (r, w') ->
  db_wf (w_db w') /\
  ((winners (w_db w') = winners (w_db w) /\ is_ok r = false) \/
   exists c w1 current,
     walk_directory (sc_walk_fuel scanner)
       (mkWalkRoot scanner (cs_name collection) (root_directory stable) (root_resolved_path stable))
       (root_directory stable) [] [] (mkWalk (index_new comparison) ∅ [] []) w = (Ok c, w1) /\
     states_of (w_db w) (cs_name collection) (root_resolved_path stable) current /\
     merges (expected scanner (cs_name collection) author observed_ns c (w_db w) current) w r w' /\
     (forall s, r = Ok s -> sum_paused s = false)).
Proof.
  intros Hw Hname Ht E. unfold scan_root in E. cbv zeta in E.
  unfold ibind at 1 in E. destruct (walk_directory _ _ _ _ _ _ w) as [[c|e] w1] eqn:Ewalk.
  2: { injection E as <- <-. apply leaves_walk in Ewalk. unfold same_db in Ewalk. rewrite Ewalk. auto. }
  pose proof (leaves_walk _ _ _ _ _ _ _ _ _ Ewalk) as D1. unfold same_db in D1.
  assert (walk_ok scanner c) as Hok.
  { refine (walk_directory_ok _ (mkWalkRoot scanner _ _ _) _ _ _ _ _ _ _ _ Ewalk).
    intros path disk Hl. cbn [wc_files] in Hl. by rewrite lookup_empty in Hl. }
  unfold ibind at 1 in E. destruct (scan_state (complete_collection_scan _ _ _) w1) as [x w2] eqn:E2.
  assert (db_wf (w_db w1)) as Hw1 by by rewrite D1. destruct (completed_records _ _ _ _ _ _ E2 Hw1) as [Hw2 W2].
  rewrite D1 in W2. destruct x as [b|e]; [|injection E as <- <-; auto].
  unfold ibind at 1 in E. destruct (log_warnings _ _ _ w2) as [x w3] eqn:E3.
  pose proof (log_warnings_records _ _ _ _ _ _ E3 Hw2) as [Hw3 W3]. rewrite W2 in W3.
  destruct x as [u|e]; [|injection E as <- <-; auto].
  unfold ibind at 1 in E. destruct (states_are_read (w_db w3) (cs_name collection) Hw3) as (current & Ecur & Hread).
  assert (scan_state (record_states (cs_name collection)) w3 = (Ok current, w3)) as Escan.
  { unfold scan_state, imap_err, on_db. rewrite Ecur. by destruct w3. }
  rewrite Escan in E. destruct (scan_records_merge _ _ _ _ _ _ _ _ _ _ Hw3 Hname Ht Hok Hread E) as [M Hp].
  split; [apply M|]. right. exists c, w1, current. split; [done|]. split; [|split; [|done]].
  - exists (w_db w3). split; [done|]. split; [done|]. apply imap_err_Ok, on_db_Ok in E2 as (db2 & E2 & ->).
    rewrite <-D1. apply (completed_installed _ _ _ _ _ _ _ E2 Hw2). exact (log_warnings_rows _ _ _ _ _ _ E3).
  - unfold merges, expected in M |- *. rewrite W3 in M. done.
Qed.

Lemma pause_calm scanner name t status : respects same_records (pause scanner name t status).
Proof.
  unfold pause. walk ltac:(first [apply scan_log_records
    | apply respects_map_err, (op_records (OpScanStatus name status)); done]).
Qed.

Lemma pause_paused scanner name t status w s w' :
  pause scanner name t status w = (Ok s, w') -> sum_paused s = true.
Proof. unfold pause. intros (? & ? & _ & (? & ? & _ & [= <- _])%ibind_Ok)%ibind_Ok. done. Qed.

Lemma leaves_opening path : respects same_db (open_collection path).
Proof. unfold open_collection. walk ltac:(first [apply leaves_db_now | apply leaves_stable_root]). Qed.

Lemma opening_time path w t root w' : open_collection path w = (Ok (t, root), w') -> in_i64 t = true.
Proof.
  unfold open_collection. intros (t' & w1 & [= <- _] & (? & ? & _ & [= <- _ _])%ibind_Ok)%ibind_Ok. apply clock_ns_in.
Qed.

Lemma leaves_probe root : respects same_db (probe_filename_comparison_in root).
Proof.
  unfold probe_filename_comparison_in, probe_distinct_names, scan_io.
  walk ltac:(first [apply leaves_db_now | apply leaves_db_fs]).
Qed.

(** A scan that does not get to its walk. *)
Definition unscanned (collection : CollectionState) (w : World) (r : result ScanSummary FilesystemError) (w' : World)
    : Prop :=
  winners (w_db w') = winners (w_db w) /\ forall s, r = Ok s -> sum_paused s = true /\ no_root collection w.

Lemma pause_merges scanner collection t e status w w1 r w' :
  db_wf (w_db w) -> open_collection (cs_local_path collection) w = (Ok (t, Err (RootIo e)), w1) ->
  (e = NotFound \/ e = NotADirectory \/ e = InvalidInput) ->
  pause scanner (cs_name collection) t status w1 = (r, w') -> db_wf (w_db w') /\ unscanned collection w r w'.
Proof.
  intros Hw Eo He Ep. apply leaves_opening in Eo as D1. unfold same_db in D1.
  destruct (pause_calm _ _ _ _ _ _ _ Ep) as [Hw' W]; [by rewrite D1|]. rewrite D1 in W.
  split; [done|]. split; [done|]. intros s ->. split; [by eapply pause_paused|]. by exists t, e, w1.
Qed.

(** In one chain of merges, whose records [expected] names. *)
Lemma scan_collection_merges scanner collection author comparisons w r comparisons' w' :
  db_wf (w_db w) -> utf8_valid (cs_name collection) = true ->
  scan_collection scanner collection author comparisons w = (r, comparisons', w') ->
  db_wf (w_db w') /\
  (unscanned collection w r w' \/
   exists t stable c current rs,
     looked scanner collection comparisons w t stable c /\ in_i64 t = true /\
     states_of (w_db w) (cs_name collection) (root_resolved_path stable) current /\
     winners (w_db w') = merge_maps (winners (w_db w)) rs /\
     rs `prefix_of` expected scanner (cs_name collection) author t c (w_db w) current /\
     (forall s, r = Ok s ->
        sum_paused s = false /\ rs = expected scanner (cs_name collection) author t c (w_db w) current)).
Proof.
  intros Hw Hname E. unfold scan_collection in E.
  destruct (open_collection _ w) as [opened w1] eqn:Eo. apply leaves_opening in Eo as D1. unfold same_db in D1.
  assert (Hquiet : forall e wx c, w_db wx = w_db w -> (Err e, c, wx) = (r, comparisons', w') ->
    db_wf (w_db w') /\ unscanned collection w r w').
  { intros e wx c D [= <- _ <-]. unfold unscanned. by rewrite D. }
  destruct opened as [[t [stable|e]]|e].
  - destruct (match comparisons !! root_resolved_path stable with Some comparison => _ | None => _ end) as [probed w2] eqn:Ep.
    assert (w_db w2 = w_db w) as D2.
    { rewrite <-D1. destruct (comparisons !! _); [by injection Ep as _ <-|]. by apply leaves_probe in Ep. }
    destruct probed as [comparison|e]; [|destruct (Hquiet e w2 comparisons D2 E); auto].
    destruct (scan_root _ _ _ _ _ _ w2) as [x w3] eqn:Er. injection E as <- <- <-.
    apply opening_time in Eo as Ht. apply scan_root_merges in Er; [|by rewrite D2 | done | done].
    unfold merges, expected in Er. rewrite D2 in Er. destruct Er as [Hw3 Er]. split; [done|].
    destruct Er as [[W3 Hx]|(c & wc & current & Ewalk & Hstates & (_ & rs & Hp & Ho & W3) & Hs)].
    + left. split; [done|]. by intros s ->.
    + right. exists t, stable, c, current, rs. split; [|split; [done|split; [done|split; [done|split; [done|]]]]].
      * exists comparison, w1, w2, wc. split; [done|]. split; [|done].
        destruct (comparisons !! _); [by injection Ep as <- <- | done].
      * intros s ->. split; [by apply Hs | by apply Ho].
  - destruct e as [e|]; [destruct e|];
      first [ by destruct (Hquiet _ w1 comparisons D1 E); auto
            | destruct (pause _ _ _ _ w1) as [x wx] eqn:Ep; injection E as <- _ <-;
              destruct (pause_merges _ _ _ _ _ _ _ _ _ Hw Eo ltac:(auto) Ep); auto ].
  - destruct (Hquiet e w1 comparisons D1 E); auto.
Qed.

(** C9: A scan, path by path.  [scans_to] says, in terms of the store and of the
    files the walk found, what the winner of a path becomes: a file that was
    found is recorded with its size, hash and time as a change of this device,
    unless its time is too far in the future, or it is as this device last
    installed or recorded it below this root, or as the winner says; a path the
    walk found no file for gets a tombstone, of a later time than its winner's
    where there is one, if this device had installed or recorded a file of the
    path below this root and the path is neither ignored nor excluded; every
    other path stays, and what is recorded counts only if it beats the winner.
    A scan that succeeds has done so for every path of the collection, from a
    walk of its root as it found it, or was paused because there is no root, and
    then changed no winner.  One that fails has done so for some paths and left
    the others.  It never touches another collection, and the store stays well
    formed.  (A pattern that names a directory keeps the walk out of it without
    covering the paths below: they are among those that were not found.) *)
Theorem scan_refines scanner collection author comparisons w r comparisons' w' :
  db_wf (w_db w) -> utf8_valid (cs_name collection) = true -> 0 <= sc_max_future_skew_ns scanner ->
  scan_collection scanner collection author comparisons w = (r, comparisons', w') ->
  let name := cs_name collection in
  let old path := winners (w_db w) !! (name, path) in
  let new path := winners (w_db w') !! (name, path) in
  let scanned t stable c path :=
    scans_to scanner name author t (w_db w) (root_resolved_path stable) c path (old path) (new path) in
  db_wf (w_db w') /\
  (forall k, k.1 <> name -> winners (w_db w') !! k = winners (w_db w) !! k) /\
  match r with
  | Ok s =>
      if sum_paused s
      then no_root collection w /\ winners (w_db w') = winners (w_db w)
      else exists t stable c, looked scanner collection comparisons w t stable c /\ forall path, scanned t stable c path
  | Err _ =>
      winners (w_db w') = winners (w_db w) \/
      exists t stable c, looked scanner collection comparisons w t stable c /\
        forall path, new path = old path \/ scanned t stable c path
  end.
Proof.
  intros Hw Hname Hskew E name old new scanned.
  destruct (scan_collection_merges _ _ _ _ _ _ _ _ Hw Hname E) as [Hw' [[W Hr]|Hm]]; (split; [done|]).
  { split; [by rewrite W|]. destruct r as [s|e]; [|by left]. by destruct (Hr s eq_refl) as [-> ?]. }
  destruct Hm as (t & stable & c & current & rs & Hlook & Ht & (seen & Hread & Hwin & Hinst) & W & Hp & Hs).
  unfold scanned, old, new. rewrite W. split.
  { intros k Hk. exact (expected_elsewhere _ _ _ _ _ _ _ _ _ Hp Hk). }
  pose proof (fun path => prefix_scans _ _ _ _ _ _ _ _ _ Ht Hskew Hread Hwin Hinst rs path Hp) as Hscans. cbv zeta in Hscans.
  destruct r as [s|e].
  - destruct (Hs s eq_refl) as [-> Hall]. exists t, stable, c. split; [done|]. intros path.
    by destruct (Hscans path) as [[_ Hne]|].
  - right. exists t, stable, c. split; [done|]. intros path. destruct (Hscans path) as [[? _]|]; auto.
Qed.
End properties.

(** ** Examples *)

Section examples.
#[local] Existing Instance toy_crypto.
#[local] Existing Instance plain_unicode.
#[local] Existing Instance terse_json.
#[local] Existing Instance toy_platform.

#[local] Obligation Tactic := idtac.
#[local] Program Instance toy_walk_laws : @WalkLaws toy_platform := {|
  dirs := fun fs : ToyFs => set_map toy_identity_of ({[ [] ]} ∪ t_dirs fs);
|}.
Next Obligation.
  intros h fs md fs'. simpl. destruct (default _ _). intros [= <- _]. simpl.
  unfold in_u64, usize_max. pose proof (len_nonneg (toy_data fs h)). apply andb_true_iff.
  rewrite Z.leb_le, Z.ltb_lt. lia.
Qed.
Next Obligation. intros d fs id fs'. simpl. case_bool_decide; intros [= <- <-]. by apply elem_of_map_2. Qed.
Next Obligation. intros d fs r fs'. simpl. case_bool_decide; by intros [= _ <-]. Qed.
Next Obligation. by intros d fs r fs' [= _ <-]. Qed.
Next Obligation. intros d n fs r fs'. simpl. repeat case_bool_decide; by intros [= _ <-]. Qed.
Next Obligation. by intros p fs r fs' [= _ <-]. Qed.
Next Obligation. by intros d fs r fs' [= _ <-]. Qed.
Next Obligation. intros d p fs r fs'. simpl. case_bool_decide; by intros [= _ <-]. Qed.
Next Obligation. intros d p fs r fs'. simpl. destruct (t_names fs !! _); by intros [= _ <-]. Qed.
Next Obligation. intros h fs r fs'. simpl. destruct (default _ _). by intros [= _ <-]. Qed.
Next Obligation. by intros h n fs r fs' [= _ <-]. Qed.

(** The collection docs, below the root of a file system with a directory and
    two files in it, of which one is left out; another file was recorded and
    is gone. *)
Definition tree : ToyFs :=
  mkToy {[ [lit "sub"] ]} (list_to_map [([lit "b.txt"], 1%nat); ([lit "sub"; lit "c.txt"], 2%nat); ([lit "tmp.swp"], 3%nat)])
    (list_to_map [(1%nat, lit "hello"); (2%nat, lit "world")]) ∅ ∅ 1.
Definition docs_scanner : Scanner := mkScanner (fun p => bool_decide (p = lit "tmp.swp")) 1000000000 10 3 4.
Definition docs_state : CollectionState := mkCollectionState (lit "docs") (lit "/docs") (Some (lit "/docs")) ScanActive WatchActive.
Definition scan_world : World := mkWorld (w_db world_a) tree 0.
Definition docs_scan := scan_collection docs_scanner docs_state device_a {[ lit "/docs" := CaseSensitive ]} scan_world.

Example docs_scan_counts : docs_scan.1.1 = Ok (mkScanSummary 2 2 0 0 0 false).
Proof. vm_compute. reflexivity. Qed.

(** A pattern that is a directory's name hides it from the walk, but not the
    files below it from the loop that looks for deletions: scanned with such a
    pattern, a file that is still there is recorded as deleted. *)
Definition dir_scanner : Scanner := mkScanner (fun p => bool_decide (p = lit "sub")) 1000000000 10 3 4.
Example ignored_directory_deletes :
  let again := scan_collection dir_scanner docs_state device_a {[ lit "/docs" := CaseSensitive ]} docs_scan.2 in
  t_names tree !! [lit "sub"; lit "c.txt"] = Some 2%nat /\
  let deleted w := (fun r => bool_decide (rec_kind r = Tombstone)) <$> winners (w_db w) !! (lit "docs", lit "sub/c.txt") in
  deleted docs_scan.2 = Some false /\ deleted again.2 = Some true.
Proof. vm_compute. auto. Qed.

Lemma walk_terminates_witness :
  (walk_directory 3 (mkWalkRoot docs_scanner (lit "docs") [] (lit "/docs")) [] [] []
     (mkWalk (index_new CaseSensitive) ∅ [] []) scan_world).1 <> Err WalkFuel.
Proof. apply walk_terminates. vm_compute. lia. Defined.

(** The same tree without b.txt, scanned after the first scan. *)
Definition tree_after : ToyFs :=
  mkToy {[ [lit "sub"] ]} (list_to_map [([lit "sub"; lit "c.txt"], 2%nat); ([lit "tmp.swp"], 3%nat)])
    (list_to_map [(2%nat, lit "world")]) ∅ ∅ 1.
Definition world_after : World := mkWorld (w_db docs_scan.2) tree_after 0.
Definition scan_after := scan_collection docs_scanner docs_state device_a {[ lit "/docs" := CaseSensitive ]} world_after.


Lemma world_wf db fs now : db_wf db -> db_wf (w_db (mkWorld db fs now)).
Proof. done. Qed.

Lemma world_after_wf : db_wf (w_db world_after).
Proof.
  unfold world_after. apply world_wf.
  destruct (scan_collection_merges docs_scanner docs_state device_a {[ lit "/docs" := CaseSensitive ]} scan_world
    docs_scan.1.1 docs_scan.1.2 docs_scan.2) as [Hw _]; [apply world_a_wf | done | | exact Hw].
  unfold docs_scan. by destruct (scan_collection _ _ _ _ _) as [[r comparisons] w'].
Qed.

(** The root and the files a scan looks at, as functions of the world. *)
Definition opened_root (w : World) : option (Dir * bytes) :=
  match (open_collection (cs_local_path docs_state) w).1 with
  | Ok (_, Ok stable) => Some (root_directory stable, root_resolved_path stable)
  | _ => None
  end.
Definition walk_after : result WalkContext FilesystemError :=
  (walk_directory 3 (mkWalkRoot docs_scanner (lit "docs") [] (lit "/docs")) [] [] []
     (mkWalk (index_new CaseSensitive) ∅ [] []) (open_collection (cs_local_path docs_state) world_after).2).1.

Lemma after_looked t stable c :
  looked docs_scanner docs_state {[ lit "/docs" := CaseSensitive ]} world_after t stable c ->
  root_resolved_path stable = lit "/docs" /\ wc_files c !! lit "b.txt" = None /\ wc_excluded_prefixes c = [].
Proof.
  intros (cmp & w1 & w2 & w3 & Eo & Ec & Ew).
  assert (opened_root world_after = Some ([], lit "/docs")) as Hroot by (vm_compute; reflexivity).
  unfold opened_root in Hroot. rewrite Eo in Hroot. cbn [fst] in Hroot.
  apply (inj Some) in Hroot. apply pair_eq in Hroot as [Hd Hr]. rewrite Hr in Ec. rewrite lookup_singleton_eq in Ec.
  destruct Ec as [-> ->].
  assert (walk_after = Ok c) as Hwalk.
  { unfold walk_after. rewrite Eo. rewrite Hd, Hr in Ew. cbn [snd]. exact (f_equal fst Ew). }
  clear Ew Eo. split; [done|].
  assert (match walk_after with Ok c => wc_files c !! lit "b.txt" = None /\ wc_excluded_prefixes c = [] | Err _ => False end)
    as Hfound by (vm_compute; auto).
  by rewrite Hwalk in Hfound.
Qed.

Definition is_installed (db : Database) (n root path : bytes) (f : FileFingerprint) : bool :=
  match collections_t db !! n, path_records_t db !! (n, path) with
  | Some place, Some row =>
      bool_decide (col_resolved_root place = Some root) && row_materialized row
      && bool_decide (row_modified_ns row = Some (fp_modified_ns f) /\ row_size row = Some (fp_size f) /\
                      row_content_hash row = Some (arr (fp_hash f)))
  | _, _ => false
  end.
Lemma is_installed_test db n root path f : is_installed db n root path f = true -> installed n db root path f.
Proof.
  unfold is_installed. destruct (collections_t db !! n) as [place|] eqn:Ep; [|done].
  destruct (path_records_t db !! (n, path)) as [row|] eqn:Er; [|done]. intros Hb. boolp. exists place, row. tauto.
Qed.

Lemma installed_after :
  installed (lit "docs") (w_db world_after) (lit "/docs") (lit "b.txt") (mkFingerprint 0 5 (blake3 (lit "hello"))).
Proof. apply is_installed_test. vm_compute. reflexivity. Qed.
(** The winner of b.txt before and after the second scan. *)
Definition b_before := winners (w_db world_after) !! (lit "docs", lit "b.txt").
Definition b_after := winners (w_db scan_after.2) !! (lit "docs", lit "b.txt").

Lemma scan_refines_witness :
  exists t r, b_before = Some r /\ b_after = latest (Some r) (deletion_record (lit "docs") device_a t r).
Proof.
  assert (scan_after = (Ok (mkScanSummary 1 0 1 0 0 false), scan_after.1.2, scan_after.2)) as E.
  { assert (scan_after.1.1 = Ok (mkScanSummary 1 0 1 0 0 false)) as <- by (vm_compute; reflexivity).
    by destruct scan_after as [[r comparisons] w']. }
  generalize world_after_wf. intros Hwf.
  pose proof (scan_refines docs_scanner docs_state device_a {[ lit "/docs" := CaseSensitive ]} world_after
    _ _ _ Hwf eq_refl ltac:(done) E) as Hs. clear E Hwf. cbv zeta in Hs.
  destruct Hs as (_ & _ & Hs). change (sum_paused _) with false in Hs. cbv iota in Hs.
  destruct Hs as (t & stable & c & Hlook & Hscan).
  destruct (after_looked _ _ _ Hlook) as (Hroot & Hnone & Hexcluded). clear Hlook.
  rewrite Hroot in Hscan. specialize (Hscan (lit "b.txt")). 
  change (cs_name docs_state) with (lit "docs") in Hscan.
  assert (exists r, b_before = Some r /\ b_after = latest (Some r) (deletion_record (lit "docs") device_a t r)) as (r & Hr & Hn).
  { unfold b_before, b_after. revert Hscan. generalize (winners (w_db scan_after.2) !! (lit "docs", lit "b.txt")).
    generalize (winners (w_db world_after) !! (lit "docs", lit "b.txt")). intros old new Hscan.
    destruct Hscan as [disk Hdisk _|disk r Hdisk _ _ _|disk Hdisk _ _|f r _ _ _ _ Hr|_ Hleft]; try congruence.
    - exists r. by rewrite Hr.
    - exfalso. destruct (Hleft _ installed_after) as [Hi|(prefix & Hp & _)].
      + apply is_ignored_test in Hi. vm_compute in Hi. discriminate Hi.
      + rewrite Hexcluded in Hp. by apply not_elem_of_nil in Hp. }
  exists t, r. split; [exact Hr | exact Hn].
Defined.
End examples.
