(* ===== verification/Settings.v ===== *)
(** config.rs: the configuration, its defaults and what is valid, and where the
    program keeps its files.

    Parsing TOML is a crate's and a parameter; the environment is a function from
    names to values.  Durations are in nanoseconds. *)

From S2P Require Import Prelude Bytes Utf8 Path Platform.

Definition NANOS_PER_SEC : Z := 1000000000.
(** [Duration::from_secs] and [Duration::as_secs] *)
Definition from_secs (secs : Z) : Z := secs * NANOS_PER_SEC.
Definition as_secs (duration : Z) : Z := duration / NANOS_PER_SEC.

Inductive IrohPreset := N0 | Custom.
#[global] Instance IrohPreset_eq_dec : EqDecision IrohPreset.
Proof. solve_decision. Defined.

Record DeviceConfig := mkDeviceConfig { dev_name : bytes }.
Record JoiningConfig := mkJoiningConfig {
  service_url : bytes;
  invitation_ttl : Z;
  joining_headers : gmap bytes bytes;
}.
Record IrohConfig := mkIrohConfig {
  preset : IrohPreset;
  relay_urls : list bytes;
  address_lookup_urls : list bytes;
}.
Record SyncConfig := mkSyncConfig {
  sync_interval : Z;
  max_future_clock_skew : Z;
  ignore_patterns : list bytes;
}.
Record LoggingConfig := mkLoggingConfig { max_entries : Z }.
Record Config := mkConfig {
  cfg_device : DeviceConfig;
  cfg_joining : JoiningConfig;
  cfg_iroh : IrohConfig;
  cfg_sync : SyncConfig;
  cfg_logging : LoggingConfig;
}.

Definition DEFAULT_JOINING_SERVICE : bytes := lit "https://skillsync.danthegoodman.com".

Definition device_config_default : DeviceConfig := mkDeviceConfig (lit "device").
Definition joining_config_default : JoiningConfig := mkJoiningConfig DEFAULT_JOINING_SERVICE (from_secs 600) ∅.
Definition iroh_config_default : IrohConfig := mkIrohConfig N0 [] [].
Definition sync_config_default : SyncConfig :=
  mkSyncConfig (from_secs (15 * 60)) (from_secs (5 * 60)) [lit "**/.git/**"; lit "**/.DS_Store"; lit "**/*.swp"].
Definition logging_config_default : LoggingConfig := mkLoggingConfig 1000.
Definition config_default : Config :=
  mkConfig device_config_default joining_config_default iroh_config_default sync_config_default logging_config_default.

Inductive ConfigError :=
  | CfgMissingHome
  | CfgIo (e : IoError)
  | CfgToml
  | CfgInvalid (what : String.string).

Definition quoted (s : String.string) : String.string :=
  let quote := String.String (Ascii.ascii_of_nat 34) String.EmptyString in quote +:+ s +:+ quote.
Definition invalid {A} (what : String.string) : result A ConfigError := Err (CfgInvalid what).

Definition validate_iroh (iroh : IrohConfig) : result unit ConfigError :=
  match preset iroh with
  | N0 =>
      if negb (bool_decide (relay_urls iroh = [])) || negb (bool_decide (address_lookup_urls iroh = []))
      then invalid ("custom iroh URLs require preset = " +:+ quoted "custom") else Ok tt
  | Custom =>
      if bool_decide (relay_urls iroh = []) || bool_decide (address_lookup_urls iroh = [])
      then invalid "custom iroh preset requires relay_urls and address_lookup_urls" else Ok tt
  end.

Definition config_validate (config : Config) : result unit ConfigError :=
  if trim_is_empty (dev_name (cfg_device config)) then invalid "device.name must not be empty"
  else if negb (between 60 900 (as_secs (invitation_ttl (cfg_joining config))))
  then invalid "joining.invitation_ttl must be from 60s through 15m"
  else
    let? _ := validate_iroh (cfg_iroh config) in
    if sync_interval (cfg_sync config) =? 0 then invalid "sync.interval must be positive"
    else if (max_entries (cfg_logging config) =? 0) || (100000 <? max_entries (cfg_logging config))
    then invalid "logging.max_entries must be from 1 through 100000"
    else Ok tt.

Definition from_toml (parse : bytes -> option Config) (contents : bytes) : result Config ConfigError :=
  let? config := ok_or (parse contents) CfgToml in
  let? _ := config_validate config in
  Ok config.

(** [contents] is what [fs::read_to_string] returns. *)
Definition config_load (parse : bytes -> option Config) (contents : result bytes IoError) : result Config ConfigError :=
  match contents with
  | Ok contents => from_toml parse contents
  | Err NotFound => Ok config_default
  | Err error => Err (CfgIo error)
  end.

(** [env::var_os]; [env::var] also wants UTF-8. *)
Definition Env : Type := bytes -> option bytes.
Definition env_var (env : Env) (name : bytes) : option bytes :=
  match env name with
  | Some value => if utf8_valid value then Some value else None
  | None => None
  end.

Definition effective_joining_service_url (env : Env) (config : Config) : bytes :=
  default (service_url (cfg_joining config)) (env_var env (lit "SKILLSYNC_JOINING_SERVICE_URL")).
Definition effective (env : Env) (config : Config) : Config :=
  mkConfig (cfg_device config)
    (mkJoiningConfig (effective_joining_service_url env config) (invitation_ttl (cfg_joining config))
       (joining_headers (cfg_joining config)))
    (cfg_iroh config) (cfg_sync config) (cfg_logging config).

(** ** Where files are *)

Record PlatformPaths := mkPaths { config_file : bytes; data_dir : bytes; runtime_dir : bytes }.

Definition for_macos_home (home : bytes) : PlatformPaths :=
  let data_dir :=
    pathbuf_push (pathbuf_push (pathbuf_push home (lit "Library")) (lit "Application Support")) (lit "skillsync") in
  mkPaths (pathbuf_push data_dir (lit "config.toml")) data_dir (pathbuf_push data_dir (lit "run")).

Definition for_linux_home (env : Env) (home : bytes) : PlatformPaths :=
  let config_root := default (pathbuf_push home (lit ".config")) (env (lit "XDG_CONFIG_HOME")) in
  let data_dir :=
    pathbuf_push (default (pathbuf_push home (lit ".local/share")) (env (lit "XDG_DATA_HOME"))) (lit "skillsync") in
  let runtime_dir :=
    match env (lit "XDG_RUNTIME_DIR") with
    | Some root => pathbuf_push root (lit "skillsync")
    | None => pathbuf_push data_dir (lit "run")
    end in
  mkPaths (pathbuf_push config_root (lit "skillsync/config.toml")) data_dir runtime_dir.

Definition discover (macos : bool) (env : Env) : result PlatformPaths ConfigError :=
  let? home := ok_or (env (lit "HOME")) CfgMissingHome in
  let defaults := if macos then for_macos_home home else for_linux_home env home in
  Ok (mkPaths
        (match env (lit "SKILLSYNC_CONFIG_DIR") with
         | Some directory => pathbuf_push directory (lit "config.toml")
         | None => config_file defaults
         end)
        (default (data_dir defaults) (env (lit "SKILLSYNC_DATA_DIR")))
        (default (runtime_dir defaults) (env (lit "SKILLSYNC_RUNTIME_DIR")))).

(** ** What a valid configuration promises *)

(** What the parts that are given the configuration rely on. *)
Record config_valid (config : Config) : Prop := {
  valid_name : trim_is_empty (dev_name (cfg_device config)) = false;
  valid_ttl : 60 <= as_secs (invitation_ttl (cfg_joining config)) <= 900;
  valid_urls : match preset (cfg_iroh config) with
               | N0 => relay_urls (cfg_iroh config) = [] /\ address_lookup_urls (cfg_iroh config) = []
               | Custom => relay_urls (cfg_iroh config) <> [] /\ address_lookup_urls (cfg_iroh config) <> []
               end;
  valid_interval : sync_interval (cfg_sync config) <> 0;
  valid_entries : max_entries (cfg_logging config) <> 0 /\ max_entries (cfg_logging config) <= 100000;
}.

Lemma validate_iroh_iff iroh :
  validate_iroh iroh = Ok tt <->
  match preset iroh with
  | N0 => relay_urls iroh = [] /\ address_lookup_urls iroh = []
  | Custom => relay_urls iroh <> [] /\ address_lookup_urls iroh <> []
  end.
Proof. unfold validate_iroh, invalid. destruct (preset iroh); repeat case_bool_decide; simpl; naive_solver. Qed.

Lemma config_validate_iff config : config_validate config = Ok tt <-> config_valid config.
Proof.
  unfold config_validate, invalid, between. split.
  - intros E. destruct (trim_is_empty _) eqn:?; [done|]. destruct (negb _) eqn:Ht; [done|].
    apply rbind_Ok in E as ([] & Hi & E). destruct (sync_interval _ =? 0) eqn:?; [done|].
    destruct ((_ =? 0) || _) eqn:He; [done|]. apply validate_iroh_iff in Hi. constructor; try done; lia.
  - intros [Hn Ht Hi%validate_iroh_iff Hs He]. rewrite Hn, Hi. simpl.
    rewrite (proj2 (andb_true_iff _ _)) by lia. simpl. rewrite (proj2 (Z.eqb_neq _ _)) by done.
    destruct ((_ =? 0) || _) eqn:E; [lia | done].
Qed.

(** Every configuration the program runs with is valid: what is loaded, and the
    default there is without a file. *)
Lemma config_load_valid parse contents config :
  config_load parse contents = Ok config -> config_valid config.
Proof.
  destruct contents as [contents|e]; simpl; [unfold from_toml | destruct e; try done].
  - intros E. apply rbind_Ok in E as (c & _ & E). apply rbind_Ok in E as ([] & Hv & [= <-]).
    by apply config_validate_iff.
  - intros [= <-]. by apply config_validate_iff.
Qed.
