(* ===== verification/Keystore.v ===== *)
(** identity.rs: where a device keeps its signing key.

    The files of the data directory, the keyring of the operating system and its
    random numbers are the world here: [KeyOs] has an operation per call the
    sources make, [KeyOsLaws] in KeystoreLaws.v what is documented of them. *)

From S2P Require Import Prelude Bytes Utf8 Path Identity Platform.

Definition SECRET_LENGTH : Z := 32.
(** The permissions [0o600] and the bits [0o077]. *)
Definition OWNER_ONLY : Z := 6 * 8 * 8.
Definition GROUP_AND_OTHERS : Z := 7 * 8 + 7.

(** The other constructors of [IdentityError]. *)
Inductive KeystoreError :=
  | IdRandom
  | IdIo (e : IoError)
  | KeyringUnavailable
  | InvalidReference
  | UnsafePermissions
  | IdInvalid (e : IdentityError).

Inductive KeyringError := NoEntry | KeyringFailed.

Class KeyOs := {
  KS : Type;
  KFile : Type;
  (** [fs::create_dir_all], [Path::exists], [fs::read_to_string] *)
  k_create_dir_all : bytes -> KS -> result unit IoError * KS;
  k_exists : bytes -> KS -> bool * KS;
  k_read_to_string : bytes -> KS -> result bytes IoError * KS;
  (** [fs::metadata(..)?.permissions().mode()], and opening a file, taking so many
      bytes and reading them to the end *)
  k_mode : bytes -> KS -> result Z IoError * KS;
  k_read_take : bytes -> Z -> KS -> result bytes IoError * KS;
  (** [OpenOptions] with [create_new] and a mode; writing to the new file *)
  k_create_new : bytes -> Z -> KS -> result KFile IoError * KS;
  k_write_all : KFile -> bytes -> KS -> result unit IoError * KS;
  k_sync_all : KFile -> KS -> result unit IoError * KS;
  (** [keyring::Entry::new] succeeds for an account, [get_secret], [set_secret] *)
  k_entry : bytes -> KS -> bool * KS;
  k_get_secret : bytes -> KS -> result bytes KeyringError * KS;
  k_set_secret : bytes -> bytes -> KS -> result unit KeyringError * KS;
  (** [getrandom::fill] *)
  k_random : KS -> option (array 32) * KS;
}.

Section keystore.
Context `{Crypto, KeyOs}.

Definition KIO (A : Type) : Type := KS -> result A KeystoreError * KS.
Definition kret {A} (a : A) : KIO A := fun s => (Ok a, s).
Definition kfail {A} (e : KeystoreError) : KIO A := fun s => (Err e, s).
Definition kbind {A B} (m : KIO A) (f : A -> KIO B) : KIO B :=
  fun s => match m s with (Ok a, s) => f a s | (Err e, s) => (Err e, s) end.
Definition kcall {A} (m : KS -> A * KS) : KIO A := fun s => let '(a, s) := m s in (Ok a, s).
Definition kio {A} (m : KS -> result A IoError * KS) : KIO A :=
  fun s => let '(r, s) := m s in (map_err IdIo r, s).
Definition klift {A} (r : result A KeystoreError) : KIO A := fun s => (r, s).
End keystore.

Declare Scope key_scope.
Delimit Scope key_scope with key.
Notation "x <~ m ;; k" := (kbind m (fun x => k))
  (at level 100, m at next level, right associativity) : key_scope.
Open Scope key_scope.

(** [str::lines] *)
Definition newline : byte := "010"%byte.
Definition strip_carriage (line : bytes) : bytes :=
  match last line with Some "013"%byte => removelast line | _ => line end.
Fixpoint lines_from (line text : bytes) : list bytes :=
  match text with
  | [] => if bool_decide (line = []) then [] else [line]
  | b :: text =>
      if bool_decide (b = newline) then strip_carriage line :: lines_from [] text
      else lines_from (line ++ [b]) text
  end.
Definition lines (text : bytes) : list bytes := lines_from [] text.

Section keystore.
Context `{Crypto, KeyOs}.

Definition stored_slice (secret : bytes) : KIO DeviceIdentity := klift (map_err IdInvalid (identity_from_slice secret)).

Definition generate : KIO DeviceIdentity :=
  secret <~ kcall k_random ;;
  match secret with
  | Some secret => kret (from_secret secret)
  | None => kfail IdRandom
  end.

(** [GroupId::generate] *)
Definition generate_group : KIO GroupId :=
  bytes <~ kcall k_random ;;
  match bytes with
  | Some bytes => kret (mkGroupId bytes)
  | None => kfail IdRandom
  end.

Definition secret_bytes (identity : DeviceIdentity) : bytes := arr (signing_key identity).

Definition keyring_account (data_dir : bytes) : bytes :=
  flat_map (fun b => [hex_digit (byteZ b / 16); hex_digit (byteZ b mod 16)]) (arr (blake3 data_dir)).

Definition write_owner_only (path content : bytes) : KIO unit :=
  file <~ kio (k_create_new path OWNER_ONLY) ;;
  _ <~ kio (k_write_all file content) ;;
  kio (k_sync_all file).

Definition read_owner_only (path : bytes) : KIO bytes :=
  mode <~ kio (k_mode path) ;;
  if negb (Z.land mode GROUP_AND_OTHERS =? 0) then kfail UnsafePermissions
  else kio (k_read_take path (SECRET_LENGTH + 1)).

Definition file_reference : bytes := lit "file" ++ newline :: lit "identity.key" ++ [newline].
Definition keyring_reference (account : bytes) : bytes := lit "keyring" ++ newline :: account ++ [newline].

Definition load_keyring (account : bytes) : KIO DeviceIdentity :=
  opened <~ kcall (k_entry account) ;;
  if negb opened then kfail KeyringUnavailable
  else
    secret <~ kcall (k_get_secret account) ;;
    match secret with
    | Err _ => kfail KeyringUnavailable
    | Ok secret => stored_slice secret
    end.

Definition load_file (data_dir relative : bytes) : KIO DeviceIdentity :=
  if is_absolute relative || negb (len (components relative) =? 1) then kfail InvalidReference
  else
    secret <~ read_owner_only (pathbuf_push data_dir relative) ;;
    stored_slice secret.

Definition load_referenced (data_dir reference_path : bytes) : KIO DeviceIdentity :=
  reference <~ kio (k_read_to_string reference_path) ;;
  match lines reference with
  | [source; value] =>
      if bool_decide (source = lit "keyring") then load_keyring value
      else if bool_decide (source = lit "file") then load_file data_dir value
      else kfail InvalidReference
  | _ => kfail InvalidReference
  end.

Definition persist_file_identity (identity : DeviceIdentity) (reference_path secret_path : bytes) : KIO DeviceIdentity :=
  _ <~ write_owner_only secret_path (secret_bytes identity) ;;
  _ <~ write_owner_only reference_path file_reference ;;
  kret identity.

(** Without a key in a file: the keyring, and a file where there is none. *)
Definition load_or_create_keyring (data_dir reference_path secret_path : bytes) : KIO DeviceIdentity :=
  let account := keyring_account data_dir in
  let persist := identity <~ generate ;; persist_file_identity identity reference_path secret_path in
  opened <~ kcall (k_entry account) ;;
  if negb opened then persist
  else
    found <~ kcall (k_get_secret account) ;;
    match found with
    | Ok secret =>
        identity <~ stored_slice secret ;;
        _ <~ write_owner_only reference_path (keyring_reference account) ;;
        kret identity
    | Err NoEntry =>
        identity <~ generate ;;
        stored <~ kcall (k_set_secret account (secret_bytes identity)) ;;
        match stored with
        | Ok _ =>
            _ <~ write_owner_only reference_path (keyring_reference account) ;;
            kret identity
        | Err _ => persist_file_identity identity reference_path secret_path
        end
    | Err KeyringFailed => persist
    end.

Definition load_or_create (data_dir : bytes) : KIO DeviceIdentity :=
  _ <~ kio (k_create_dir_all data_dir) ;;
  let reference_path := pathbuf_push data_dir (lit "identity.ref") in
  referenced <~ kcall (k_exists reference_path) ;;
  if referenced : bool then load_referenced data_dir reference_path
  else
    let secret_path := pathbuf_push data_dir (lit "identity.key") in
    stored <~ kcall (k_exists secret_path) ;;
    if stored : bool then
      secret <~ read_owner_only secret_path ;;
      identity <~ stored_slice secret ;;
      _ <~ write_owner_only reference_path file_reference ;;
      kret identity
    else load_or_create_keyring data_dir reference_path secret_path.
End keystore.
