(* ===== verification/KeystoreLaws.v ===== *)
(** What is documented of the calls behind the key of a device, and that the
    device keeps the key it was given. *)

From S2P Require Import Prelude Bytes Utf8 Path Identity Platform Keystore.

Section kept.
Context {KS : Type} (file_of : KS -> bytes -> option (Z * bytes)) (secret_of : KS -> bytes -> option bytes).

(** What there was is still there: no file and no secret is replaced. *)
Definition kept (s s' : KS) : Prop :=
  (forall path file, file_of s path = Some file -> file_of s' path = Some file) /\
  (forall account secret, secret_of s account = Some secret -> secret_of s' account = Some secret).

#[export] Instance kept_preorder : PreOrder kept.
Proof.
  split; [by intros s | intros x y z [Hf Hs] [Hf' Hs']].
  split; [intros p f Hp; apply Hf', Hf, Hp | intros a v Ha; apply Hs', Hs, Ha].
Qed.
End kept.

(** [file_of] is the mode and the content of a file, [secret_of] the secret of an
    account.  [Path::exists] may overlook a file, since it takes an error for an
    absence; a file that is created is none that was there. *)
Class KeyOsLaws `{KeyOs} := {
  file_of : KS -> bytes -> option (Z * bytes);
  secret_of : KS -> bytes -> option bytes;
  handle_path : KFile -> bytes;
  exists_file path s s' : k_exists path s = (true, s') -> is_Some (file_of s path);
  exists_kept path s : kept file_of secret_of s (k_exists path s).2;
  create_dir_kept path s : kept file_of secret_of s (k_create_dir_all path s).2;
  read_string_kept path s : kept file_of secret_of s (k_read_to_string path s).2;
  mode_kept path s : kept file_of secret_of s (k_mode path s).2;
  read_take_kept path n s : kept file_of secret_of s (k_read_take path n s).2;
  create_new_kept path mode s : kept file_of secret_of s (k_create_new path mode s).2;
  sync_all_kept file s : kept file_of secret_of s (k_sync_all file s).2;
  entry_kept account s : kept file_of secret_of s (k_entry account s).2;
  get_secret_kept account s : kept file_of secret_of s (k_get_secret account s).2;
  random_kept s : kept file_of secret_of s (k_random s).2;
  random_secrets s : secret_of (k_random s).2 = secret_of s;
  read_string_content path s text s' :
    k_read_to_string path s = (Ok text, s') -> exists mode, file_of s path = Some (mode, text);
  read_take_content path n s c s' :
    k_read_take path n s = (Ok c, s') ->
    exists mode content, file_of s path = Some (mode, content) /\ c = take (Z.to_nat n) content;
  create_new_file path mode s file s' :
    k_create_new path mode s = (Ok file, s') ->
    file_of s path = None /\ handle_path file = path /\ file_of s' path = Some (mode, []);
  (** a write leaves the other files and the secrets *)
  write_all_others file c s r s' :
    k_write_all file c s = (r, s') ->
    (forall other, other <> handle_path file -> file_of s' other = file_of s other) /\ secret_of s' = secret_of s;
  write_all_content file c s s' mode content :
    k_write_all file c s = (Ok tt, s') -> file_of s (handle_path file) = Some (mode, content) ->
    file_of s' (handle_path file) = Some (mode, content ++ c);
  get_secret_stored account s secret s' :
    k_get_secret account s = (Ok secret, s') -> secret_of s account = Some secret;
  get_secret_none account s s' : k_get_secret account s = (Err NoEntry, s') -> secret_of s' account = None;
  set_secret_others account secret s r s' :
    k_set_secret account secret s = (r, s') ->
    file_of s' = file_of s /\ (forall other, other <> account -> secret_of s' other = secret_of s other);
  set_secret_stored account secret s s' :
    k_set_secret account secret s = (Ok tt, s') -> secret_of s' account = Some secret;
}.

(** ** Lines *)

Lemma lines_from_app line text rest :
  newline ∉ text -> lines_from line (text ++ newline :: rest) = strip_carriage (line ++ text) :: lines_from [] rest.
Proof.
  revert line. induction text as [|b text IH]; intros line Hn; simpl.
  - by rewrite app_nil_r.
  - rewrite not_elem_of_cons in Hn. destruct Hn as [Hb Hn]. rewrite bool_decide_eq_false_2 by done.
    rewrite IH by done. by rewrite <-app_assoc.
Qed.

(** A digit is neither a newline nor a carriage return. *)
Definition is_digit (b : byte) : Prop := b <> newline /\ b <> "013"%byte.

Lemma hex_digit_plain n : 0 <= n < 16 -> is_digit (hex_digit n).
Proof.
  intros Hn. assert (Forall (fun m => is_digit (hex_digit m)) [0;1;2;3;4;5;6;7;8;9;10;11;12;13;14;15]) as Hall
    by (repeat constructor; done).
  rewrite Forall_forall in Hall. apply Hall. rewrite !elem_of_cons. lia.
Qed.

Lemma keyring_account_safe `{Crypto} data_dir : Forall is_digit (keyring_account data_dir).
Proof.
  unfold keyring_account. induction (arr (blake3 data_dir)) as [|x l IH]; simpl; [constructor|].
  pose proof (byteZ_range x). apply Forall_cons_2; [|apply Forall_cons_2; [|done]]; apply hex_digit_plain.
  - split; [apply Z.div_pos | apply Z.div_lt_upper_bound]; lia.
  - apply Z.mod_pos_bound. lia.
Qed.

Lemma strip_carriage_safe line : Forall is_digit line -> strip_carriage line = line.
Proof.
  intros Hl. unfold strip_carriage. destruct (last line) as [b|] eqn:E; [|done].
  apply last_Some_elem_of in E. rewrite Forall_forall in Hl. apply Hl in E as [_ Hb].
  repeat (destruct b; try done).
Qed.

Lemma keyring_lines `{Crypto} data_dir :
  lines (keyring_reference (keyring_account data_dir)) = [lit "keyring"; keyring_account data_dir].
Proof.
  pose proof (keyring_account_safe data_dir) as Hs. unfold lines, keyring_reference.
  rewrite lines_from_app by (apply (bool_decide_eq_true_1 (newline ∉ lit "keyring")); by vm_compute).
  simpl. rewrite lines_from_app.
  - rewrite app_nil_l, (strip_carriage_safe (keyring_account data_dir) Hs). reflexivity.
  - intros Hin. rewrite Forall_forall in Hs. by destruct (Hs _ Hin).
Qed.

Section laws.
Context `{Crypto, KeyOsLaws}.

(** ** The monad *)

Lemma kbind_Ok {A B} (m : KIO A) (f : A -> KIO B) s b s' :
  kbind m f s = (Ok b, s') <-> exists a s1, m s = (Ok a, s1) /\ f a s1 = (Ok b, s').
Proof.
  unfold kbind. destruct (m s) as [[a|e] s1]; split; [eauto | by intros (? & ? & [= -> ->] & ?) | done |].
  by intros (? & ? & [=] & _).
Qed.
Lemma kio_Ok {A} (m : KS -> result A IoError * KS) s a s' : kio m s = (Ok a, s') -> m s = (Ok a, s').
Proof. unfold kio. destruct (m s) as [[b|e] s1]; simpl; naive_solver. Qed.
Lemma kcall_Ok {A} (m : KS -> A * KS) s a s' : kcall m s = (Ok a, s') -> m s = (a, s').
Proof. unfold kcall. destruct (m s). naive_solver. Qed.

(** ** Nothing is replaced *)

Abbreviation kept_from := (kept file_of secret_of).
Definition keeps {A} (m : KIO A) : Prop := forall s, kept_from s (m s).2.

Lemma key_bind {A B} (m : KIO A) (f : A -> KIO B) : keeps m -> (forall a, keeps (f a)) -> keeps (kbind m f).
Proof.
  intros Hm Hf s. specialize (Hm s). unfold kbind. destruct (m s) as [[a|e] s1]; [|done].
  etransitivity; [exact Hm | apply Hf].
Qed.
Lemma key_ret {A} (a : A) : keeps (kret a).
Proof. by intros s. Qed.
Lemma key_fail {A} e : keeps (kfail (A := A) e).
Proof. by intros s. Qed.
Lemma key_lift {A} (r : result A KeystoreError) : keeps (klift r).
Proof. by intros s. Qed.
Lemma keeps_io {A} (m : KS -> result A IoError * KS) : (forall s, kept_from s (m s).2) -> keeps (kio m).
Proof. intros Hm s. specialize (Hm s). unfold kio. by destruct (m s). Qed.
Lemma keeps_call {A} (m : KS -> A * KS) : (forall s, kept_from s (m s).2) -> keeps (kcall m).
Proof. intros Hm s. specialize (Hm s). unfold kcall. by destruct (m s). Qed.

(** Writing to a file that was just created changes none that was there. *)
Lemma write_owner_kept path content : keeps (write_owner_only path content).
Proof.
  intros s. unfold write_owner_only, kbind. pose proof (create_new_kept path OWNER_ONLY s) as Hk.
  unfold kio at 1. destruct (k_create_new _ _ s) as [[file|e] s1] eqn:Ec; [simpl | done].
  apply create_new_file in Ec as (Hnone & Hp & Hnew). simpl in Hk.
  assert (kept_from s (k_write_all file content s1).2) as Hw.
  { destruct (k_write_all file content s1) as [r s2] eqn:Ew. apply write_all_others in Ew as [Hf Hs].
    destruct Hk as [Hkf Hks]. split; simpl; intros p x Hx.
    - rewrite Hf; [by apply Hkf | congruence].
    - rewrite Hs. by apply Hks. }
  unfold kio at 1. destruct (k_write_all file content s1) as [[[]|e] s2]; simpl in *; [|done].
  etransitivity; [exact Hw|]. apply keeps_io, sync_all_kept.
Qed.

Lemma write_owner_content path content s s' :
  write_owner_only path content s = (Ok tt, s') -> exists mode, file_of s' path = Some (mode, content).
Proof.
  unfold write_owner_only. intros E. apply kbind_Ok in E as (file & s1 & Ec%kio_Ok & E).
  apply kbind_Ok in E as ([] & s2 & Ew%kio_Ok & E%kio_Ok). apply create_new_file in Ec as (_ & Hp & Hnew).
  rewrite <-Hp in Hnew. pose proof (write_all_content _ _ _ _ _ _ Ew Hnew) as Hc. rewrite Hp in Hc.
  pose proof (sync_all_kept file s2) as [Hk _]. rewrite E in Hk. exists OWNER_ONLY. by apply Hk.
Qed.

(** A secret is stored for an account that has none. *)
Lemma set_secret_kept account secret s : secret_of s account = None -> kept_from s (k_set_secret account secret s).2.
Proof.
  intros Hn. destruct (k_set_secret account secret s) as [r s'] eqn:E. apply set_secret_others in E as [Hf Hs].
  split; simpl; [by rewrite Hf|]. intros a v Ha. rewrite Hs; [done | congruence].
Qed.
End laws.

(** [walk_keys] goes through a computation. *)
Ltac walk_keys :=
  repeat first
    [ match goal with
      | |- keeps (kret _) => apply key_ret
      | |- keeps (kfail _) => apply key_fail
      | |- keeps (klift _) => apply key_lift
      | |- keeps (stored_slice _) => apply key_lift
      | |- keeps (write_owner_only _ _) => apply write_owner_kept
      | |- keeps (kio _) => apply keeps_io; intros
      | |- keeps (kcall _) => apply keeps_call; intros
      | |- keeps (kbind _ _) => apply key_bind; [|intros]
      | |- keeps (if ?b then _ else _) => destruct b
      | |- keeps (match ?x with _ => _ end) => destruct x
      end
    | first [ apply exists_kept | apply create_dir_kept | apply read_string_kept | apply mode_kept
            | apply read_take_kept | apply entry_kept | apply get_secret_kept | apply random_kept ] ].

Section laws.
Context `{Crypto, KeyOsLaws}.

Lemma generate_kept : keeps generate.
Proof. unfold generate. walk_keys. Qed.

Lemma persist_kept identity reference_path secret_path : keeps (persist_file_identity identity reference_path secret_path).
Proof. unfold persist_file_identity. walk_keys. Qed.

Lemma read_owner_kept path : keeps (read_owner_only path).
Proof. unfold read_owner_only. walk_keys. Qed.

Lemma load_referenced_kept data_dir reference_path : keeps (load_referenced data_dir reference_path).
Proof. unfold load_referenced, load_keyring, load_file. walk_keys. apply read_owner_kept. Qed.

Lemma generate_secrets s identity s' :
  generate s = (Ok identity, s') -> secret_of s' = secret_of s /\ identity_wf identity.
Proof.
  unfold generate. intros E. apply kbind_Ok in E as (secret & s1 & Er%kcall_Ok & E).
  pose proof (random_secrets s) as Hr. rewrite Er in Hr. destruct secret; [|done]. by injection E as <- <-.
Qed.

Lemma keyring_kept data_dir reference_path secret_path :
  keeps (load_or_create_keyring data_dir reference_path secret_path).
Proof.
  unfold load_or_create_keyring. apply key_bind; [walk_keys|]. intros opened. destruct (negb opened).
  { apply key_bind; [apply generate_kept | intros; apply persist_kept]. }
  intros s. pose proof (get_secret_kept (keyring_account data_dir) s) as Hk. unfold kbind at 1, kcall at 1.
  destruct (k_get_secret _ s) as [found s1] eqn:Eg. etransitivity; [exact Hk|]. cbn [snd].
  destruct found as [secret|[]].
  - assert (forall m : KIO DeviceIdentity, keeps m -> kept file_of secret_of s1 (m s1).2) as Hm by auto.
    apply Hm. walk_keys.
  - apply get_secret_none in Eg. pose proof (generate_kept s1) as Hg.
    unfold kbind at 1. destruct (generate s1) as [[identity|e] s2] eqn:Egen; [|done]. etransitivity; [exact Hg|].
    apply generate_secrets in Egen as [Hs _]. simpl in Hg. unfold kbind at 1, kcall at 1.
    pose proof (set_secret_kept (keyring_account data_dir) (secret_bytes identity) s2) as Hset.
    rewrite Hs in Hset. specialize (Hset Eg). destruct (k_set_secret _ _ s2) as [stored s3].
    etransitivity; [exact Hset|]. cbn [snd].
    assert (forall m : KIO DeviceIdentity, keeps m -> kept file_of secret_of s3 (m s3).2) as Hm by auto.
    apply Hm. destruct stored; [walk_keys | apply persist_kept].
  - assert (forall m : KIO DeviceIdentity, keeps m -> kept file_of secret_of s1 (m s1).2) as Hm by auto.
    apply Hm, key_bind; [apply generate_kept | intros; apply persist_kept].
Qed.

Lemma load_or_create_kept data_dir : keeps (load_or_create data_dir).
Proof.
  unfold load_or_create. walk_keys;
    first [apply load_referenced_kept | apply read_owner_kept | apply keyring_kept].
Qed.

(** ** The key is kept *)

(** What the reference of a data directory leads to. *)
Inductive refers (data_dir : bytes) (identity : DeviceIdentity) (s : KS) : Prop :=
  | refers_file mode text value mode' content :
      file_of s (pathbuf_push data_dir (lit "identity.ref")) = Some (mode, text) ->
      lines text = [lit "file"; value] ->
      file_of s (pathbuf_push data_dir value) = Some (mode', content) ->
      identity_from_slice (take 33 content) = Ok identity -> refers data_dir identity s
  | refers_keyring mode text account secret :
      file_of s (pathbuf_push data_dir (lit "identity.ref")) = Some (mode, text) ->
      lines text = [lit "keyring"; account] ->
      secret_of s account = Some secret ->
      identity_from_slice secret = Ok identity -> refers data_dir identity s.

Lemma refers_kept data_dir identity s s' :
  kept file_of secret_of s s' -> refers data_dir identity s -> refers data_dir identity s'.
Proof. intros [Hf Hs] []; [eapply refers_file | eapply refers_keyring]; eauto. Qed.

Lemma refers_unique data_dir a b s : refers data_dir a s -> refers data_dir b s -> a = b.
Proof.
  assert (lit "file" <> lit "keyring") by done.
  intros [] []; simplify_eq;
    (match goal with Ha : lines ?t = _, Hb : lines ?t = _ |- _ => rewrite Ha in Hb; injection Hb as Hb; simplify_eq end);
    congruence.
Qed.

Lemma slice_secret identity : identity_wf identity -> identity_from_slice (secret_bytes identity) = Ok identity.
Proof.
  intros Hwf. unfold identity_from_slice, secret_bytes. rewrite to_array_arr. simpl. unfold from_secret.
  rewrite <-Hwf. by destruct identity.
Qed.

Lemma read_owner_content path s c s' :
  read_owner_only path s = (Ok c, s') ->
  (exists mode content, file_of s' path = Some (mode, content) /\ c = take 33 content) /\ kept file_of secret_of s s'.
Proof.
  intros E. pose proof (read_owner_kept path s) as Hk. rewrite E in Hk. split; [|done].
  unfold read_owner_only in E. apply kbind_Ok in E as (mode & s1 & Em & E). destruct (negb _); [done|].
  apply kio_Ok in E. pose proof (read_take_kept path (SECRET_LENGTH + 1) s1) as [Hf _]. rewrite E in Hf.
  apply read_take_content in E as (m & content & Hc & ->). exists m, content. split; [by apply Hf | done].
Qed.

Lemma load_referenced_refers data_dir s identity s' :
  load_referenced data_dir (pathbuf_push data_dir (lit "identity.ref")) s = (Ok identity, s') ->
  refers data_dir identity s'.
Proof.
  intros E. pose proof (load_referenced_kept data_dir (pathbuf_push data_dir (lit "identity.ref")) s) as Hk0.
  rewrite E in Hk0. simpl in Hk0. unfold load_referenced in E.
  apply kbind_Ok in E as (text & s1 & Et%kio_Ok & E). apply read_string_content in Et as [mode Href].
  apply Hk0 in Href. destruct (lines text) as [|source [|value [|]]] eqn:El; try done.
  destruct (decide (source = lit "keyring")) as [->|Hn]; [|rewrite bool_decide_eq_false_2 in E by done].
  - rewrite bool_decide_eq_true_2 in E by done. unfold load_keyring in E. apply kbind_Ok in E as (opened & s2 & _ & E). destruct (negb opened); [done|].
    apply kbind_Ok in E as (secret & s3 & Eg%kcall_Ok & E). destruct secret as [secret|]; [|done].
    injection E as Ei <-. apply map_err_Ok in Ei. pose proof (get_secret_kept value s2) as Hk. rewrite Eg in Hk.
    apply get_secret_stored in Eg. apply Hk in Eg. by eapply refers_keyring.
  - destruct (bool_decide_reflect (source = lit "file")) as [->|]; [|done].
    unfold load_file in E. destruct (_ || _); [done|].
    apply kbind_Ok in E as (secret & s2 & (( m & content & Hc & ->) & _)%read_owner_content & E).
    injection E as Ei <-. apply map_err_Ok in Ei. by eapply refers_file.
Qed.

Lemma persist_refers data_dir identity s i s' :
  identity_wf identity ->
  persist_file_identity identity (pathbuf_push data_dir (lit "identity.ref")) (pathbuf_push data_dir (lit "identity.key")) s
    = (Ok i, s') ->
  i = identity /\ refers data_dir identity s'.
Proof.
  intros Hwf E. unfold persist_file_identity in E. apply kbind_Ok in E as ([] & s1 & Ek & E).
  apply kbind_Ok in E as ([] & s2 & Er & E). injection E as <- <-. split; [done|].
  apply write_owner_content in Ek as [m Hkey]. pose proof (write_owner_kept (pathbuf_push data_dir (lit "identity.ref")) file_reference s1) as Hk.
  rewrite Er in Hk. apply Hk in Hkey. apply write_owner_content in Er as [m' Href].
  eapply refers_file; [exact Href | by vm_compute | exact Hkey |].
  rewrite take_ge; [by apply slice_secret|]. unfold secret_bytes. rewrite arr_length. lia.
Qed.

Lemma keyring_refers data_dir s1 identity s' secret :
  secret_of s1 (keyring_account data_dir) = Some secret -> identity_from_slice secret = Ok identity ->
  write_owner_only (pathbuf_push data_dir (lit "identity.ref")) (keyring_reference (keyring_account data_dir)) s1
    = (Ok tt, s') ->
  refers data_dir identity s'.
Proof.
  intros Hs Hi Ew. pose proof (write_owner_kept (pathbuf_push data_dir (lit "identity.ref")) (keyring_reference (keyring_account data_dir)) s1) as Hk.
  rewrite Ew in Hk. apply Hk in Hs. apply write_owner_content in Ew as [m Href].
  eapply refers_keyring; [exact Href | apply keyring_lines | exact Hs | exact Hi].
Qed.

Lemma load_or_create_keyring_refers data_dir s identity s' :
  load_or_create_keyring data_dir (pathbuf_push data_dir (lit "identity.ref")) (pathbuf_push data_dir (lit "identity.key")) s
    = (Ok identity, s') ->
  refers data_dir identity s'.
Proof.
  assert (forall s, (identity <~ generate ;; persist_file_identity identity
    (pathbuf_push data_dir (lit "identity.ref")) (pathbuf_push data_dir (lit "identity.key"))) s = (Ok identity, s') ->
    refers data_dir identity s') as Hpersist.
  { intros t E. apply kbind_Ok in E as (i & t1 & [_ Hwf]%generate_secrets & E).
    by apply (persist_refers data_dir i) in E as [-> ?]. }
  unfold load_or_create_keyring. intros E. apply kbind_Ok in E as (opened & s1 & _ & E).
  destruct (negb opened); [by eapply Hpersist|].
  apply kbind_Ok in E as (found & s2 & Eg%kcall_Ok & E). destruct found as [secret|[]].
  - pose proof (get_secret_kept (keyring_account data_dir) s1) as Hk. rewrite Eg in Hk.
    apply get_secret_stored in Eg. apply Hk in Eg. apply kbind_Ok in E as (i & s3 & Hi & E). injection Hi as Hi <-.
    apply map_err_Ok in Hi. apply kbind_Ok in E as ([] & s4 & Ew & E). injection E as <- <-.
    by eapply keyring_refers.
  - apply kbind_Ok in E as (i & s3 & [_ Hwf]%generate_secrets & E).
    apply kbind_Ok in E as (stored & s4 & Es%kcall_Ok & E). destruct stored as [[]|e].
    + apply set_secret_stored in Es. apply kbind_Ok in E as ([] & s5 & Ew & E). injection E as <- <-.
      eapply keyring_refers; [exact Es | by apply slice_secret | exact Ew].
    + by apply (persist_refers data_dir i) in E as [-> ?].
  - by eapply Hpersist.
Qed.

Lemma load_or_create_refers data_dir s identity s' :
  load_or_create data_dir s = (Ok identity, s') -> refers data_dir identity s'.
Proof.
  unfold load_or_create. intros E. apply kbind_Ok in E as (u & s1 & _ & E).
  apply kbind_Ok in E as (referenced & s2 & _ & E). destruct referenced; [by apply load_referenced_refers in E|].
  apply kbind_Ok in E as (stored & s3 & _ & E). destruct stored; [|by apply load_or_create_keyring_refers in E].
  apply kbind_Ok in E as (secret & s4 & ((m & content & Hc & ->) & _)%read_owner_content & E).
  apply kbind_Ok in E as (i & s5 & Hi & E). injection Hi as Hi <-. apply map_err_Ok in Hi.
  apply kbind_Ok in E as ([] & s6 & Ew & E). injection E as <- <-.
  pose proof (write_owner_kept (pathbuf_push data_dir (lit "identity.ref")) file_reference s4) as Hk.
  rewrite Ew in Hk. apply Hk in Hc. apply write_owner_content in Ew as [m' Href].
  eapply refers_file; [exact Href | by vm_compute | exact Hc | done].
Qed.
End laws.
