(* ===== verification/KeystoreProps.v ===== *)
(** What a device relies on of the store of its key. *)

From S2P Require Import Prelude Bytes Utf8 Path Identity Concrete Platform Keystore KeystoreLaws.

(** C26: A device keeps its identity.  No call replaces a file or a secret that
    was there, whatever it returns.  Once a call has returned an identity, every
    later call returns the same identity or an error, whatever else was stored
    in between. *)
Theorem identity_kept `{Crypto, KeyOsLaws} data_dir s identity s1 :
  load_or_create data_dir s = (Ok identity, s1) ->
  kept file_of secret_of s s1 /\
  forall s2 r s3, kept file_of secret_of s1 s2 -> load_or_create data_dir s2 = (r, s3) ->
    kept file_of secret_of s2 s3 /\ (r = Ok identity \/ exists e, r = Err e).
Proof.
  intros E. pose proof (load_or_create_kept data_dir s) as Hk. rewrite E in Hk. split; [done|].
  apply load_or_create_refers in E. intros s2 r s3 H12 E2. pose proof (load_or_create_kept data_dir s2) as H23.
  rewrite E2 in H23. split; [done|]. destruct r as [other|e]; [left | right; by exists e]. f_equal.
  apply load_or_create_refers in E2. eapply refers_unique; [exact E2|].
  by apply (refers_kept _ _ s2), (refers_kept _ _ s1).
Qed.

(** ** A system whose calls succeed *)

Record ToyKeys := mkToyKeys {
  tk_files : gmap bytes (Z * bytes);
  tk_secrets : gmap bytes bytes;
  tk_random : list (array 32);
}.

Definition toy_read (path : bytes) (s : ToyKeys) : result bytes IoError :=
  match tk_files s !! path with Some (_, content) => Ok content | None => Err NotFound end.
Definition toy_create (path : bytes) (mode : Z) (s : ToyKeys) : result bytes IoError * ToyKeys :=
  match tk_files s !! path with
  | Some _ => (Err AlreadyExists, s)
  | None => (Ok path, mkToyKeys (<[path := (mode, [])]> (tk_files s)) (tk_secrets s) (tk_random s))
  end.
Definition toy_write (path content : bytes) (s : ToyKeys) : result unit IoError * ToyKeys :=
  match tk_files s !! path with
  | Some (mode, old) => (Ok tt, mkToyKeys (<[path := (mode, old ++ content)]> (tk_files s)) (tk_secrets s) (tk_random s))
  | None => (Err NotFound, s)
  end.

#[export] Instance toy_keys : KeyOs := {|
  KS := ToyKeys;
  KFile := bytes;
  k_create_dir_all _ s := (Ok tt, s);
  k_exists path s := (bool_decide (is_Some (tk_files s !! path)), s);
  k_read_to_string path s := (toy_read path s, s);
  k_mode path s := (match tk_files s !! path with Some (mode, _) => Ok mode | None => Err NotFound end, s);
  k_read_take path n s := (match toy_read path s with Ok c => Ok (take (Z.to_nat n) c) | Err e => Err e end, s);
  k_create_new := toy_create;
  k_write_all := toy_write;
  k_sync_all _ s := (Ok tt, s);
  k_entry _ s := (true, s);
  k_get_secret account s := (match tk_secrets s !! account with Some v => Ok v | None => Err NoEntry end, s);
  k_set_secret account secret s :=
    (Ok tt, mkToyKeys (tk_files s) (<[account := secret]> (tk_secrets s)) (tk_random s));
  k_random s :=
    match tk_random s with
    | [] => (None, s)
    | r :: rest => (Some r, mkToyKeys (tk_files s) (tk_secrets s) rest)
    end;
|}.

#[export] Instance toy_keys_laws : KeyOsLaws.
Proof.
  refine {| file_of s path := tk_files s !! path; secret_of s account := tk_secrets s !! account;
            handle_path file := file |}; simpl; try (intros; reflexivity).
  all: unfold toy_create, toy_write, toy_read.
  - intros path s s' [= Hb%bool_decide_eq_true_1 _]. exact Hb.
  - intros path mode s. destruct (tk_files s !! path) eqn:E; [done|]. split; simpl; [|done].
    intros p f Hp. rewrite lookup_insert_ne; [done | congruence].
  - intros s. by destruct (tk_random s).
  - intros s. by destruct (tk_random s).
  - intros path s text s' E. destruct (tk_files s !! path) as [[mode c]|]; [|done]. injection E as <- _. by exists mode.
  - intros path n s c s' E. destruct (tk_files s !! path) as [[mode f]|]; [|done]. injection E as <- _. by exists mode, f.
  - intros path mode s file s' E. destruct (tk_files s !! path); [done|]. injection E as <- <-. simpl.
    by rewrite lookup_insert_eq.
  - intros file c s r s' E. destruct (tk_files s !! file) as [[mode f]|]; injection E as _ <-; [|done]. simpl.
    split; [|done]. intros. by rewrite lookup_insert_ne.
  - intros file c s s' mode content E Hf. rewrite Hf in E. injection E as <-. simpl. by rewrite lookup_insert_eq.
  - intros account s secret s' E. destruct (tk_secrets s !! account); [|done]. by injection E as <- _.
  - intros account s s' E. destruct (tk_secrets s !! account) eqn:Es; [done|]. by injection E as <-.
  - intros account secret s r s' [= _ <-]. simpl. split; [done|]. intros. by rewrite lookup_insert_ne.
  - intros account secret s s' [= <-]. simpl. by rewrite lookup_insert_eq.
Qed.

Definition first_call : result DeviceIdentity KeystoreError * ToyKeys :=
  @load_or_create toy_crypto toy_keys (lit "/data") (mkToyKeys ∅ ∅ [array_repeat 32 "007"%byte; array_repeat 32 "008"%byte]).

Lemma identity_kept_witness :
  exists identity s1, first_call = (Ok identity, s1) /\
    (@load_or_create toy_crypto toy_keys (lit "/data") s1).1 = Ok identity.
Proof.
  destruct (run_ok first_call) as [identity E]; [by vm_compute|]. exists identity, first_call.2. split; [exact E|].
  destruct (@identity_kept toy_crypto toy_keys toy_keys_laws _ _ _ _ E) as [_ Hlater].
  destruct (run_ok (@load_or_create toy_crypto toy_keys (lit "/data") first_call.2)) as [other E2]; [by vm_compute|].
  specialize (Hlater first_call.2 _ _ (reflexivity _) E2) as [_ [Hsame | [e [=]]]]. rewrite E2. exact Hsame.
Defined.
