(* ===== verification/Setup.v ===== *)
(** setup.rs: preparing a device: its group, its name, its default collections;
    and process_lock.rs.

    The directories of the database are SQLite's and the key store's; the key and
    the identifier of a new group come from Keystore.v and are arguments. *)

From S2P Require Import Prelude Bytes Utf8 Cursor Canonical Path Identity Records Roster Protocol.
From S2P Require Import Database State RosterStore Platform Settings Keystore.

Definition DEFAULT_COLLECTIONS : list (bytes * bytes) :=
  [(lit ".agents", lit ".agents/skills"); (lit ".claude", lit ".claude/skills"); (lit ".codex", lit ".codex/skills")].

Record SetupResult := mkSetupResult {
  su_device_name : bytes;
  su_endpoint_id : EndpointId;
  su_collections : list (bytes * bytes);
  su_created : bool;
}.

Inductive SetupError :=
  | SetupMissingHome
  | SetupIo (e : IoError)
  | SetupConfig (e : ConfigError)
  | SetupIdentity (e : KeystoreError)
  | SetupRoster (e : RosterError)
  | SetupState (e : StateError)
  | LocalDeviceRemoved.

(** [fs::create_dir_all] *)
Class AmbientFs `{Platform} := { create_dir_all : bytes -> FS -> result unit IoError * FS }.

Section setup.
Context `{Crypto, EventJson, Platform, !AmbientFs}.

Definition setup_io {A} (m : FS -> result A IoError * FS) : IO SetupError A := imap_err SetupIo (on_fs m).
Definition setup_state {A} (m : Db A) : IO SetupError A := imap_err SetupState (on_db m).

(** One round of the loop: the collection's name and path. *)
Definition attach_default (home : bytes) (max_logs : Z) (name relative : bytes) : IO SetupError (bytes * bytes) :=
  let local_path := pathbuf_push home relative in
  existing <== setup_state (collection name) ;;
  match existing with
  | Some existing => iret (name, cs_local_path existing)
  | None =>
      _ <== setup_io (create_dir_all local_path) ;;
      resolved <== setup_io (canonicalize local_path) ;;
      _ <== setup_state (add_collection name local_path (Some resolved)) ;;
      now <== now_ns ;;
      _ <== setup_state (append_log now (CollectionAttached name) max_logs) ;;
      iret (name, local_path)
  end.

Fixpoint attach_defaults (home : bytes) (max_logs : Z) (defaults : list (bytes * bytes))
    : IO SetupError (list (bytes * bytes)) :=
  match defaults with
  | [] => iret []
  | (name, relative) :: defaults =>
      attached <== attach_default home max_logs name relative ;;
      rest <== attach_defaults home max_logs defaults ;;
      iret (attached :: rest)
  end.

Definition attach_default_collections (env : Env) (config : Config) : IO SetupError (list (bytes * bytes)) :=
  home <== ilift (ok_or (env (lit "HOME")) SetupMissingHome) ;;
  attach_defaults home (max_entries (cfg_logging config)) DEFAULT_COLLECTIONS.

(** The name the tip of a chain has for a device. *)
Definition name_in_tip (chain : list RosterRevision) (endpoint : EndpointId) : option bytes :=
  match last chain with
  | Some tip => rev_members tip !! endpoint
  | None => None
  end.

Definition setup (paths : PlatformPaths) (env : Env) (config : Config) (identity : result DeviceIdentity KeystoreError)
    (group : result GroupId KeystoreError) : IO SetupError SetupResult :=
  _ <== ilift (map_err SetupConfig (config_validate config)) ;;
  _ <== setup_io (create_dir_all (data_dir paths)) ;;
  _ <== setup_io (create_dir_all (runtime_dir paths)) ;;
  identity <== ilift (map_err SetupIdentity identity) ;;
  chain <== setup_state selected_roster_chain ;;
  let created := bool_decide (chain = []) in
  _ <== (if created then
           group <== ilift (map_err SetupIdentity group) ;;
           genesis <== ilift (map_err SetupRoster (genesis group (dev_name (cfg_device config)) identity)) ;;
           setup_state (insert_roster_revision genesis)
         else iret tt) ;;
  collections <== attach_default_collections env config ;;
  chain <== setup_state selected_roster_chain ;;
  iret (mkSetupResult (default (dev_name (cfg_device config)) (name_in_tip chain (endpoint_id identity)))
          (endpoint_id identity) collections created).

Definition setup_joining_device (paths : PlatformPaths) (env : Env) (config : Config)
    (identity : result DeviceIdentity KeystoreError) : IO SetupError SetupResult :=
  _ <== ilift (map_err SetupConfig (config_validate config)) ;;
  _ <== setup_io (create_dir_all (data_dir paths)) ;;
  _ <== setup_io (create_dir_all (runtime_dir paths)) ;;
  identity <== ilift (map_err SetupIdentity identity) ;;
  existing_roster <== setup_state selected_roster_chain ;;
  let existing_name := name_in_tip existing_roster (endpoint_id identity) in
  if negb (bool_decide (existing_roster = [])) && bool_decide (existing_name = None) then ifail LocalDeviceRemoved
  else
    collections <== attach_default_collections env config ;;
    iret (mkSetupResult (default (dev_name (cfg_device config)) existing_name) (endpoint_id identity) collections
            (bool_decide (existing_name = None))).
End setup.

(** ** process_lock.rs: the lock that a daemon and a join hold on the data
    directory *)

Definition LOCK_FILE : bytes := lit "process.lock".

Inductive ProcessLockError := LockBusy | LockIo (e : IoError).

(** What [File::try_lock] answers. *)
Inductive TryLock := TryLocked | TryWouldBlock | TryError (e : IoError).

Definition lock_outcome (locked : TryLock) : result unit ProcessLockError :=
  match locked with
  | TryLocked => Ok tt
  | TryWouldBlock => Err LockBusy
  | TryError e => Err (LockIo e)
  end.

(** [ProcessLock::acquire]: [opened] and [locked] are what the calls on the file
    of the lock return. *)
Definition acquire `{Platform, !AmbientFs} (data_dir : bytes) (opened : result unit IoError) (locked : TryLock)
    : IO ProcessLockError unit :=
  _ <== imap_err LockIo (on_fs (create_dir_all data_dir)) ;;
  _ <== ilift (map_err LockIo opened) ;;
  ilift (lock_outcome locked).
