(* ===== verification/SetupProps.v ===== *)
(** What setting up does to the store, and what a device that was set up can rely
    on. *)

From S2P Require Import Prelude Bytes Utf8 Cursor Canonical Path Identity Concrete Records Winners Roster RosterConverge Protocol.
From S2P Require Import Database State StateLaws StateProps RosterStore RosterLaws Platform ToyFs Settings Keystore.
From S2P Require Import Setup.

Section laws.
Context `{Crypto, EventJson, Platform, !AmbientFs}.

(** ** A new group *)

Lemma items_singleton {K V} `{Countable K, Ord K} (k : K) (v : V) : items {[ k := v ]} = [(k, v)].
Proof. unfold items. by rewrite map_to_list_singleton. Qed.

Lemma genesis_revision_wf group name identity :
  name_ok name -> revision_ok (genesis_revision group name identity).
Proof.
  intros Hn. assert (roster_wf (genesis_revision group name identity)) as Hwf.
  { unfold roster_wf, genesis_revision, set_signature. cbn [rev_number rev_members rev_change].
    split; [done|]. rewrite map_size_singleton. split; [done|]. split; [by apply map_Forall_singleton | done]. }
  split; [done|]. rewrite canonical_bytes_eq by done. apply name_ok_len in Hn. unfold in_u32 in Hn. boolp.
  unfold addressable, unsigned_encoding, genesis_revision, set_signature.
  cbn [rev_group_id rev_number rev_parent_hash rev_members rev_change rev_author rev_signature parent_encoding
       change_encoding member_id member_name].
  rewrite items_singleton. cbn [map concat]. unfold member_encoding, sized. cbn [fst snd].
  autorewrite with skillsync_len. change (len ROSTER_DOMAIN) with 20. lia.
Qed.

(** A database whose roster is that one revision. *)
Lemma select_genesis db group name identity :
  CryptoLaws -> identity_wf identity -> name_ok name ->
  let g := genesis_revision group name identity in
  roster_t db = ∅ -> selected_roster_chain (with_revision db g) = (Ok [g], with_revision db g).
Proof.
  intros Hlaws Hid Hn g Hempty.
  assert (genesis group name identity = Ok g) as Hg by (apply genesis_Ok; [done|]; split; [apply Hn | done]).
  assert (validate_genesis g = Ok tt) as Hv by (revert Hg; unfold genesis; intros Hg; by inv_ok).
  assert (roster_separates [g]) as Hsep.
  { split; [by apply Forall_singleton, genesis_revision_wf|]. intros x y.
    by intros ->%list_elem_of_singleton ->%list_elem_of_singleton. }
  assert (g ∈ [g]) as Hin by (apply elem_of_cons; auto).
  pose proof (genesis_db_ok [g] Hsep g Hin db Hempty) as Hok.
  destruct (selected_roster_chain_ok [g] Hsep g Hin Hv _ Hok) as (l & Hs & ->).
  destruct l as [|x l]; [done|]. exfalso.
  assert (x ∈ [g]) as ->%list_elem_of_singleton.
  { apply (selected_universe [g] Hsep g Hin _ _ _ Hok Hs). rewrite !elem_of_cons. auto. }
  pose proof (selected_valid _ _ _ Hs) as ([Hc _] & _). apply validate_child_Ok in Hc as (_ & _ & Hnum & _). lia.
Qed.

(** A genesis goes into an empty roster only. *)
Lemma insert_genesis_empty db g db' :
  rev_number g = 0 -> insert_roster_revision g db = (Ok tt, db') ->
  roster_t db = ∅ /\ db' = with_revision db g.
Proof.
  intros Hz E. unfold insert_roster_revision in E. apply (proj1 (transaction_Ok _ _ _ _)) in E.
  apply dbind_Ok in E as (u & db1 & Hc & Hrow). rewrite Hz in Hc. cbn [Z.eqb] in Hc.
  unfold dbind, dget in Hc. destruct (negb _) eqn:Hs in Hc; [done|]. injection Hc as _ <-. boolp.
  assert (roster_t db = ∅) as Hempty by (apply map_size_empty_inv; lia). split; [done|].
  unfold insert_roster_revision_row, insert_roster_row, dbind, dget in Hrow. case_match; [done|].
  injection Hrow as <-. done.
Qed.

(** ** The default collections *)

(** [db'] has what [db] has: its roster, its records, its collections. *)
Definition grows (db db' : Database) : Prop :=
  roster_t db' = roster_t db /\ path_records_t db' = path_records_t db /\
  forall name row, collections_t db !! name = Some row -> collections_t db' !! name = Some row.

#[local] Instance grows_preorder : PreOrder grows.
Proof.
  split; [by intros db|]. intros a b c (Hr & Hp & Hc) (Hr' & Hp' & Hc').
  split; [congruence|]. split; [congruence|]. intros name row Hrow. by apply Hc', Hc.
Qed.

(** The collection of a name has the path. *)
Definition attached_at (db : Database) (attached : bytes * bytes) : Prop :=
  exists row, collections_t db !! attached.1 = Some row /\ col_local_path row = attached.2.

Lemma attached_grows db db' a : grows db db' -> attached_at db a -> attached_at db' a.
Proof. intros (_ & _ & Hc) (row & Hrow & Hp). exists row. split; [by apply Hc | done]. Qed.

Lemma collection_attached db name row :
  db_wf db -> collections_t db !! name = Some row ->
  exists c, collection name db = (Ok (Some c), db) /\ cs_local_path c = col_local_path row.
Proof.
  intros Hwf Hrow. pose proof (wf_collections db Hwf name row Hrow) as (c & Hc & _)%decode_collection_ok.
  exists c. unfold collection, dbind, dget, dlift. rewrite Hrow, Hc. split; [done|].
  unfold decode_collection in Hc. by inv_ok.
Qed.

Lemma attach_default_Ok home max_logs name relative w a w' :
  db_wf (w_db w) -> attach_default home max_logs name relative w = (Ok a, w') ->
  db_wf (w_db w') /\ grows (w_db w) (w_db w') /\ a.1 = name /\ attached_at (w_db w') a.
Proof.
  intros Hwf E. unfold attach_default, setup_state, setup_io in E.
  apply ibind_Ok in E as (existing & w1 & Ec & E). apply (proj1 (imap_err_Ok _ _ _ _ _)) in Ec.
  apply (proj1 (on_db_Ok _ _ _ _)) in Ec as (db1 & Ec & ->).
  assert (db1 = w_db w /\ existing = match collections_t (w_db w) !! name with
    | Some row => match decode_collection name row with Ok c => Some c | Err _ => None end | None => None end) as [-> ->].
  { unfold collection, dbind, dget, dlift, dret in Ec. destruct (collections_t _ !! name) as [row|]; [|by injection Ec].
    destruct (decode_collection name row); [|done]. by injection Ec as <- <-. }
  clear Ec. destruct (collections_t (w_db w) !! name) as [row|] eqn:Erow.
  - pose proof (wf_collections _ Hwf name row Erow) as (c & Hc & _)%decode_collection_ok. rewrite Hc in E.
    injection E as <- <-. split; [done|]. split; [done|]. split; [done|]. exists row. split; [done|].
    unfold decode_collection in Hc. by inv_ok.
  - inv_io. match goal with Hn : now_ns _ = _ |- _ => injection Hn as _ <- end. cbn [w_db set_db set_fs] in *.
    match goal with Ha : add_collection _ _ _ _ = _, Hl : append_log _ _ _ _ = (_, ?db3) |- _ =>
      rename Ha into Hadd, Hl into Hlog end.
    pose proof (preserves_insert_collection _ _ _ _ _ Hwf Hadd) as Hwf2.
    pose proof (preserves_transaction _ (preserves_insert_log _ _ _) _ _ _ Hwf2 Hlog) as Hwf3. split; [done|].
    unfold append_log in Hlog. apply (proj1 (transaction_Ok _ _ _ _)) in Hlog.
    apply insert_log_frame in Hlog as (Hp & Hc & _ & Hr & _).
    unfold add_collection, insert_collection_row, dbind, dget in Hadd. case_match; [done|]. injection Hadd as <-.
    cbn [collections_t set_collections path_records_t roster_t] in *. repeat split; [done..| |].
    + intros n row Hn. rewrite Hc, lookup_insert_ne; [done | congruence].
    + eexists. rewrite Hc. split; [apply lookup_insert_eq | done].
Qed.

Lemma attach_defaults_Ok home max_logs defaults w l w' :
  db_wf (w_db w) -> attach_defaults home max_logs defaults w = (Ok l, w') ->
  db_wf (w_db w') /\ grows (w_db w) (w_db w') /\ map fst l = map fst defaults /\ Forall (attached_at (w_db w')) l.
Proof.
  revert w l. induction defaults as [|[name relative] defaults IH]; intros w l Hwf E.
  - by injection E as <- <-.
  - cbn [attach_defaults] in E. apply ibind_Ok in E as (a & w1 & Ha & E). apply ibind_Ok in E as (rest & w2 & Er & E).
    injection E as <- <-. apply attach_default_Ok in Ha as (Hwf1 & Hg1 & Hn & Ha); [|done].
    apply IH in Er as (Hwf2 & Hg2 & Hns & Hall); [|done]. split; [done|]. split; [by etransitivity|].
    split; [simpl; congruence|]. constructor; [by eapply attached_grows | done].
Qed.

(** Attaching again what is attached does nothing. *)
Lemma attach_again home max_logs defaults w l :
  db_wf (w_db w) -> map fst l = map fst defaults -> Forall (attached_at (w_db w)) l ->
  attach_defaults home max_logs defaults w = (Ok l, w).
Proof.
  intros Hwf. revert l. induction defaults as [|[name relative] defaults IH]; intros [|[n p] l]; try done.
  intros [= -> Hns] [(row & Hrow & Hp) Hall]%Forall_cons. cbn [attach_defaults]. simpl in Hrow, Hp.
  destruct (collection_attached _ _ _ Hwf Hrow) as (c & Hc & Hpath).
  unfold ibind at 1, attach_default, ibind at 1, setup_state, imap_err at 1, on_db at 1. rewrite Hc. cbn [map_err].
  unfold iret at 1. destruct w as [db fs t]. cbn [set_db w_db w_fs w_tick] in *.
  unfold set_db. cbn [w_db w_fs w_tick]. unfold ibind at 1. rewrite (IH l) by done. rewrite Hpath, Hp. done.
Qed.

(** ** Setting up *)

(** What a device that is set up has, and the result that says so. *)
Definition set_up (config : Config) (identity : DeviceIdentity) (db : Database) (res : SetupResult) : Prop :=
  su_endpoint_id res = endpoint_id identity /\ map fst (su_collections res) = map fst DEFAULT_COLLECTIONS /\
  Forall (attached_at db) (su_collections res) /\
  exists tip chain, selected_roster_chain db = (Ok (tip :: chain), db) /\
    su_device_name res = default (dev_name (cfg_device config)) (name_in_tip (tip :: chain) (endpoint_id identity)).

Lemma chain_pure db r db' : selected_roster_chain db = (r, db') -> db' = db.
Proof. unfold selected_roster_chain, dbind, dget, dlift. by intros [= _ <-]. Qed.

Lemma chain_grows db db' chain :
  roster_t db' = roster_t db -> selected_roster_chain db = (Ok chain, db) -> selected_roster_chain db' = (Ok chain, db').
Proof. unfold selected_roster_chain, dbind, dget, dlift. intros ->. by intros [= ->]. Qed.

Lemma with_revision_wf db r : db_wf db -> db_wf (with_revision db r).
Proof. by intros []. Qed.

(** The step that makes a group where there is none. *)
Lemma create_group `{!CryptoLaws} config identity group chain w w' :
  identity_wf identity -> utf8_valid (dev_name (cfg_device config)) = true ->
  selected_roster_chain (w_db w) = (Ok chain, w_db w) ->
  (if bool_decide (chain = []) then
     group <== ilift (map_err SetupIdentity group) ;;
     genesis <== ilift (map_err SetupRoster (genesis group (dev_name (cfg_device config)) identity)) ;;
     setup_state (insert_roster_revision genesis)
   else iret tt) w = (Ok tt, w') ->
  if bool_decide (chain = []) then
    roster_t (w_db w) = ∅ /\ exists g, group = Ok g /\
      let r := genesis_revision g (dev_name (cfg_device config)) identity in
      w_db w' = with_revision (w_db w) r /\ selected_roster_chain (w_db w') = (Ok [r], w_db w')
  else w' = w.
Proof.
  intros Hid Hu Hc. case_bool_decide; [|by intros [= <-]]. intros E.
  apply ibind_Ok in E as (g & w1 & Hg & E). injection Hg as Hg <-. apply map_err_Ok in Hg.
  apply ibind_Ok in E as (r & w2 & Hr & E). injection Hr as Hr <-. apply map_err_Ok in Hr.
  apply (proj1 (imap_err_Ok _ _ _ _ _)) in E. apply (proj1 (on_db_Ok _ _ _ _)) in E as (db & E & ->).
  apply genesis_Ok in Hr as [Hname ->]; [|done]. apply insert_genesis_empty in E as [Hempty ->]; [|done].
  split; [done|]. exists g. split; [done|]. cbn [w_db set_db]. split; [done|]. by apply select_genesis.
Qed.

Lemma setup_Ok `{!CryptoLaws} paths env config identity group w res w' :
  db_wf (w_db w) -> identity_wf identity -> utf8_valid (dev_name (cfg_device config)) = true ->
  setup paths env config (Ok identity) group w = (Ok res, w') ->
  db_wf (w_db w') /\ path_records_t (w_db w') = path_records_t (w_db w) /\
  (forall name row, collections_t (w_db w) !! name = Some row -> collections_t (w_db w') !! name = Some row) /\
  set_up config identity (w_db w') res /\
  if su_created res
  then roster_t (w_db w) = ∅ /\ exists g, group = Ok g /\
    selected_roster_chain (w_db w') = (Ok [genesis_revision g (dev_name (cfg_device config)) identity], w_db w')
  else roster_t (w_db w') = roster_t (w_db w).
Proof.
  intros Hwf Hid Hu E. unfold setup, setup_io, setup_state, attach_default_collections in E. cbn [map_err] in E.
  apply ibind_Ok in E as ([] & w1 & Ev & E). injection Ev as Ev <-.
  apply ibind_Ok in E as ([] & w2 & Ed1 & E). apply ibind_Ok in E as ([] & w3 & Ed2 & E).
  apply (proj1 (imap_err_Ok _ _ _ _ _)) in Ed1, Ed2.
  apply leaves_db_fs in Ed1. apply leaves_db_fs in Ed2. unfold same_db in Ed1, Ed2.
  apply ibind_Ok in E as (i & w4 & Hi & E). injection Hi as <- <-.
  apply ibind_Ok in E as (chain & w5 & Ec & E). apply (proj1 (imap_err_Ok _ _ _ _ _)) in Ec.
  apply (proj1 (on_db_Ok _ _ _ _)) in Ec as (db1 & Ec & ->). pose proof (chain_pure _ _ _ Ec) as ->.
  apply ibind_Ok in E as ([] & w6 & Eg & E). apply ibind_Ok in E as (collections & w7 & Ea & E).
  apply ibind_Ok in E as (chain2 & w8 & Ec2 & E). apply (proj1 (imap_err_Ok _ _ _ _ _)) in Ec2.
  apply (proj1 (on_db_Ok _ _ _ _)) in Ec2 as (db2 & Ec2 & ->). pose proof (chain_pure _ _ _ Ec2) as ->.
  injection E as <- <-. apply ibind_Ok in Ea as (home & w9 & Hh & Ea). injection Hh as _ <-.
  apply (create_group config identity group chain) in Eg; [|done..|exact Ec].
  cbn [w_db set_db su_created su_endpoint_id su_collections su_device_name] in *. rewrite Ed2, Ed1 in Ec, Eg.
  assert (db_wf (w_db w6) /\ path_records_t (w_db w6) = path_records_t (w_db w) /\
    collections_t (w_db w6) = collections_t (w_db w)) as (Hwf6 & Hp6 & Hc6).
  { case_bool_decide; [destruct Eg as (_ & g & _ & -> & _); split; [by apply with_revision_wf | done]|].
    subst w6. cbn [w_db set_db]. by rewrite ?Ed2, ?Ed1. }
  apply attach_defaults_Ok in Ea as (Hwf7 & (Hr7 & Hp7 & Hc7) & Hns & Hall); [|done].
  split; [done|]. split; [congruence|]. split; [intros n row Hn; apply Hc7; congruence|].
  assert (exists tip rest, chain2 = tip :: rest) as (tip & rest & ->).
  { case_bool_decide as Hchain.
    - destruct Eg as (_ & g & _ & _ & Hsel). apply (chain_grows _ _ _ Hr7) in Hsel. rewrite Hsel in Ec2.
      injection Ec2 as <-. eauto.
    - subst w6. cbn [w_db set_db] in Hr7. rewrite ?Ed2, ?Ed1 in Hr7. apply (chain_grows _ _ _ Hr7) in Ec. rewrite Ec in Ec2.
      injection Ec2 as <-. destruct chain; [done | eauto]. }
  split; [split; [done|]; split; [done|]; split; [done|]; by exists tip, rest|].
  case_bool_decide; [|subst w6; cbn [w_db set_db] in Hr7; by rewrite Hr7, ?Ed2, ?Ed1].
  destruct Eg as (Hempty & g & Hg & _ & Hsel). split; [done|]. exists g. split; [done|]. by apply (chain_grows _ _ _ Hr7).
Qed.

Lemma dir_step path w r w' :
  setup_io (create_dir_all path) w = (r, w') ->
  w_db w' = w_db w /\ (r = Ok tt \/ exists e, r = Err (SetupIo e)).
Proof.
  unfold setup_io, imap_err, on_fs. destruct (create_dir_all path (w_fs w)) as [[[]|e] fs]; intros [= <- <-]; eauto.
Qed.

(** Setting up what is set up changes nothing but, perhaps, directories. *)
Lemma setup_again paths env config identity group w res r w' :
  db_wf (w_db w) -> is_Some (env (lit "HOME")) -> config_validate config = Ok tt ->
  set_up config identity (w_db w) res ->
  setup paths env config (Ok identity) group w = (r, w') ->
  w_db w' = w_db w /\
  (r = Ok (mkSetupResult (su_device_name res) (su_endpoint_id res) (su_collections res) false) \/
   exists e, r = Err (SetupIo e)).
Proof.
  intros Hwf [home Hhome] Hv (Hep & Hns & Hall & tip & chain & Hsel & Hname) E.
  unfold setup in E. rewrite Hv in E. cbn [map_err] in E. unfold ibind at 1, ilift at 1 in E.
  unfold ibind at 1 in E. destruct (setup_io (create_dir_all (data_dir paths)) w) as [r1 w1] eqn:E1.
  apply dir_step in E1 as [Hd1 [->|[e ->]]]; [|injection E as <- <-; eauto].
  unfold ibind at 1 in E. destruct (setup_io (create_dir_all (runtime_dir paths)) w1) as [r2 w2] eqn:E2.
  apply dir_step in E2 as [Hd2 [->|[e ->]]]; [|injection E as <- <-; rewrite Hd2; eauto].
  destruct w2 as [db2 fs2 t2]. cbn [w_db] in Hd2. subst db2. rewrite Hd1 in E.
  unfold ibind at 1, ilift at 1, ibind at 1, setup_state at 1, imap_err at 1, on_db at 1 in E.
  unfold set_db in E. cbn [w_db w_fs w_tick] in E. rewrite Hsel in E. cbn [map_err] in E.
  rewrite bool_decide_eq_false_2 in E by done. unfold ibind at 1, iret at 1 in E.
  unfold attach_default_collections in E. rewrite Hhome in E. cbn [ok_or] in E.
  unfold ibind at 1, ibind at 1, ilift at 1 in E. rewrite (attach_again _ _ _ _ (su_collections res)) in E by done.
  unfold ibind at 1, setup_state at 1, imap_err at 1, on_db at 1 in E. cbn [w_db w_fs w_tick] in E.
  rewrite Hsel in E. cbn [map_err] in E. unfold set_db in E. cbn [w_db w_fs w_tick] in E.
  injection E as <- <-. split; [done|]. left. by rewrite <-Hname, <-Hep.
Qed.

Lemma setup_requires paths env config identity group w res w' :
  setup paths env config identity group w = (Ok res, w') ->
  is_Some (env (lit "HOME")) /\ config_validate config = Ok tt.
Proof.
  intros E. unfold setup in E. apply ibind_Ok in E as ([] & w1 & Ev & E). injection Ev as Ev _. apply map_err_Ok in Ev.
  apply ibind_Ok in E as (u1 & w2 & _ & E). apply ibind_Ok in E as (u2 & w3 & _ & E).
  apply ibind_Ok in E as (i & w4 & _ & E). apply ibind_Ok in E as (chain & w5 & _ & E).
  apply ibind_Ok in E as (u3 & w6 & _ & E). apply ibind_Ok in E as (l & w7 & Ea & _).
  unfold attach_default_collections in Ea. apply ibind_Ok in Ea as (home & w8 & Hh & _). injection Hh as Hh _.
  apply ok_or_Ok in Hh. by rewrite Hh.
Qed.
End laws.

(** C27: Setting up is idempotent and makes at most one group.  When it succeeds,
    the store is well formed, no record and no collection that was attached has
    changed, each default collection is attached where the result says, and the
    name is the one the selected tip has for the device.  A group is created
    only where there is no revision, and the chain is then its genesis, with
    this device alone.  Setting up the same database again, with whatever paths
    and random group, returns the same result with nothing created and leaves
    the database as it is, unless a directory cannot be made. *)
Theorem setup_idempotent `{CryptoLaws, EventJson, Platform, !AmbientFs} paths env config identity group w res w' :
  db_wf (w_db w) -> identity_wf identity -> utf8_valid (dev_name (cfg_device config)) = true ->
  setup paths env config (Ok identity) group w = (Ok res, w') ->
  db_wf (w_db w') /\ path_records_t (w_db w') = path_records_t (w_db w) /\
  (forall name row, collections_t (w_db w) !! name = Some row -> collections_t (w_db w') !! name = Some row) /\
  set_up config identity (w_db w') res /\
  (if su_created res
   then roster_t (w_db w) = ∅ /\ exists g, group = Ok g /\
     selected_roster_chain (w_db w') = (Ok [genesis_revision g (dev_name (cfg_device config)) identity], w_db w')
   else roster_t (w_db w') = roster_t (w_db w)) /\
  forall paths' group' w1 r w2, w_db w1 = w_db w' ->
    setup paths' env config (Ok identity) group' w1 = (r, w2) ->
    w_db w2 = w_db w1 /\
    (r = Ok (mkSetupResult (su_device_name res) (su_endpoint_id res) (su_collections res) false) \/
     exists e, r = Err (SetupIo e)).
Proof.
  intros Hwf Hid Hu E. pose proof (setup_Ok paths env config identity group w res w' Hwf Hid Hu E) as (Hwf' & Hp & Hc & Hset & Hcr).
  split; [done|]. split; [done|]. split; [done|]. split; [done|]. split; [done|].
  destruct (setup_requires _ _ _ _ _ _ _ _ E) as [Hhome Hv].
  intros paths' group' w1 r w2 Hdb. apply setup_again; by rewrite ?Hdb.
Qed.

Section examples.
#[local] Existing Instance toy_crypto.
#[local] Existing Instance toy_crypto_laws.
#[local] Existing Instance terse_json.
#[local] Existing Instance toy_platform.

#[local] Instance toy_ambient : AmbientFs := {| create_dir_all _ fs := (Ok tt, fs) |}.

Definition home_env : Env := fun name => if bool_decide (name = lit "HOME") then Some (lit "/home") else None.
Definition new_world : World := mkWorld empty_database toy_empty 0.
Definition laptop : DeviceIdentity := from_secret (array_repeat 32 "007"%byte).
Definition first_setup : result SetupResult SetupError * World :=
  setup (for_linux_home home_env (lit "/home")) home_env config_default (Ok laptop)
    (Ok (mkGroupId (array_repeat 32 "009"%byte))) new_world.

Lemma setup_idempotent_witness :
  exists res, first_setup = (Ok res, first_setup.2) /\ su_created res = true /\
    (setup (for_macos_home (lit "/home")) home_env config_default (Ok laptop) (Err IdRandom) first_setup.2).1
      = Ok (mkSetupResult (su_device_name res) (su_endpoint_id res) (su_collections res) false).
Proof.
  destruct (run_ok first_setup) as [res E]; [by vm_compute|]. exists res. split; [exact E|].
  pose proof (setup_idempotent _ home_env config_default laptop _ new_world res _ empty_database_wf (from_secret_wf _) eq_refl E) as (_ & _ & _ & _ & _ & Hagain).
  assert (su_created res = true) as Hcr.
  { assert (match first_setup.1 with Ok r => su_created r | Err _ => false end = true) as Hc by by vm_compute.
    by rewrite E in Hc. }
  split; [exact Hcr|].
  destruct (run_ok (setup (for_macos_home (lit "/home")) home_env config_default (Ok laptop) (Err IdRandom) first_setup.2))
    as [res2 E2]; [by vm_compute|].
  destruct (Hagain _ _ _ _ _ eq_refl E2) as [_ [Hsame | [e [=]]]]. rewrite E2. exact Hsame.
Defined.
End examples.
