(* ===== verification/NetworkTasks.v ===== *)
(** network.rs: the thread of the network from its start to its end, and the
    tasks its loop spawns, up to the results the loop is given.

    iroh and the crate url are parameters: which texts are addresses, what
    binding an endpoint and connecting to a peer yield, and the streams of a
    connection.  A task runs here from its start to its end; what others do to
    the store meanwhile is in the runs of NetworkLoop.v. *)

From S2P Require Import Prelude Bytes Utf8 Cursor Canonical Path Identity Records Roster Protocol.
From S2P Require Import Database State RosterStore Platform Installer Sync Session Join Joining Network NetworkLoop NetworkHandle.
From S2P Require Import Settings.

(** ** Binding the endpoint *)

Definition ALPN : bytes := lit "skillsync/1".
Definition JOIN_ALPN : bytes := lit "skillsync-join/1".

(** [str::parse] of the two kinds of addresses. *)
Class Urls := {
  RelayUrl : Type;
  Url : Type;
  parse_relay_url : bytes -> option RelayUrl;
  parse_url : bytes -> option Url;
}.

Section builder.
Context `{Urls}.

(** What the builder of an endpoint was told: [None] leaves what the preset
    brings. *)
Inductive Preset := PresetN0 | PresetMinimal.
Inductive AddressLookup := PkarrPublisher (url : Url) | PkarrResolver (url : Url).
Record Builder := mkBuilder {
  bu_preset : Preset;
  bu_relays : option (list RelayUrl);
  bu_lookups : option (list AddressLookup);
  bu_secret : bytes;
  bu_alpns : list bytes;
}.

Definition endpoint_builder (preset : Preset) : Builder := mkBuilder preset None None [] [].
Definition add_lookup (lookup : AddressLookup) (b : Builder) : Builder :=
  mkBuilder (bu_preset b) (bu_relays b) (Some (default [] (bu_lookups b) ++ [lookup])) (bu_secret b) (bu_alpns b).

(** [iter().map(parse).collect()] *)
Fixpoint parse_relays (values : list bytes) : result (list RelayUrl) NetworkError :=
  match values with
  | [] => Ok []
  | value :: values =>
      let? relay := ok_or (parse_relay_url value) InvalidRelayUrl in
      let? relays := parse_relays values in
      Ok (relay :: relays)
  end.

Fixpoint add_lookups (values : list bytes) (b : Builder) : result Builder NetworkError :=
  match values with
  | [] => Ok b
  | value :: values =>
      let? url := ok_or (parse_url value) InvalidAddressLookupUrl in
      add_lookups values (add_lookup (PkarrResolver url) (add_lookup (PkarrPublisher url) b))
  end.

Definition configured_builder (config : Config) (identity : DeviceIdentity) : result Builder NetworkError :=
  let? b :=
    match preset (cfg_iroh config) with
    | N0 => Ok (endpoint_builder PresetN0)
    | Custom =>
        let? relays := parse_relays (relay_urls (cfg_iroh config)) in
        add_lookups (address_lookup_urls (cfg_iroh config)) (mkBuilder PresetMinimal (Some relays) (Some []) [] [])
    end in
  Ok (mkBuilder (bu_preset b) (bu_relays b) (bu_lookups b) (arr (signing_key identity)) [ALPN; JOIN_ALPN]).
End builder.

(** ** The thread *)

Section thread.
Context `{Urls, Iroh}.

(** What the thread does, in order: the answer to the one that started it, the
    address it publishes, the loop, and closing the endpoint. *)
Inductive WorkerEvent :=
  | WReady (outcome : result unit NetworkError)
  | WPublished (addr : EndpointAddr)
  | WLoop
  | WClosed.

(** The body of the thread.  [runtime] is what building the runtime yields,
    [bind] what binding does, and [heard] whether the answer still finds a
    receiver. *)
Definition worker (runtime : result unit IoError) (bind : Builder -> option EndpointAddr) (heard : bool)
    (config : Config) (identity : DeviceIdentity) : list WorkerEvent :=
  match runtime with
  | Err e => [WReady (Err (NRuntime e))]
  | Ok _ =>
      match (let? b := configured_builder config identity in ok_or (bind b) NBind) with
      | Err e => [WReady (Err e)]
      | Ok addr =>
          if bool_decide (addr_id addr <> endpoint_id identity) then [WReady (Err IdentityMismatch); WClosed]
          else [WPublished addr; WReady (Ok tt)] ++ (if heard then [WLoop; WClosed] else [WClosed])
      end
  end.

Definition ready_message (events : list WorkerEvent) : option (result unit NetworkError) :=
  head (omap (fun e => match e with WReady r => Some r | _ => None end) events).
Definition published (events : list WorkerEvent) : option EndpointAddr :=
  last (omap (fun e => match e with WPublished addr => Some addr | _ => None end) events).

(** [NetworkHandle::start].  [spawned] is what spawning the thread yields, and
    [in_time] whether its answer arrives within the timeout; the queue of
    commands is empty and the coordinator idle. *)
Definition start (spawned : result unit IoError) (in_time : bool) (events : list WorkerEvent)
    : result Handle NetworkError :=
  let? _ := map_err NIo spawned in
  let? ready := ok_or (if in_time then ready_message events else None) StartupTimeout in
  let? _ := ready in
  Ok (mkHandle [] true JIdle (option_map addr_to_json (published events))).

(** [shutdown] waits for the thread, whether or not the loop confirmed; the
    command waits for a place in the queue. *)
Definition shutdown (completed : nat) (panicked : bool) (h : Handle) : result unit NetworkError * list NetworkCommand :=
  (if panicked then Err ThreadPanicked else Ok tt,
   if h_receiving h then h_commands h ++ [CShutdown completed] else h_commands h).

(** [drop] of a handle that was not shut down: the commands the loop still
    finds. *)
Definition dropped (completed : nat) (h : Handle) : list NetworkCommand :=
  h_commands (try_send (CShutdown completed) h).2.
End thread.

(** ** The tasks *)

Section tasks.
Context `{Crypto, EventJson, Platform, Iroh, JoinCodec}.

(** [SessionConfig::from_daemon]; see [SessionConfig] for the last two. *)
Definition from_daemon (paths : PlatformPaths) (config : Config) (local_endpoint : EndpointId) (local_addr : EndpointAddr)
    (stored_identity : option DeviceIdentity) (read_rounds : nat) : SessionConfig :=
  mkSessionConfig (data_dir paths) local_endpoint local_addr (max_future_clock_skew (cfg_sync config))
    (max_entries (cfg_logging config)) stored_identity read_rounds.

(** A session over a connection that stands; what it did to the world stays. *)
Definition task_session (side : ConnectionSide) (session : SessionConfig) (connection : Connection) (recv : Stream)
    (send : Sink) : IO SyncError bool :=
  fun w =>
    let '(r, s) := run_session_with_outcome connection side session (mkSession w recv send 0) in
    ((let? outcome := r in Ok (roster_changed outcome)), ss_world s).

(** What connecting yields within its timeout. *)
Inductive Dialed :=
  | DialTimeout
  | DialFailed
  | DialConnected (connection : Connection) (recv : Stream) (send : Sink).

Definition dial_and_sync (bare : EndpointId -> result EndpointAddr NetworkError) (dial : EndpointAddr -> Dialed)
    (session : SessionConfig) (peer : EndpointId) : IO NetworkError bool :=
  target <== peer_target bare peer ;;
  match dial target with
  | DialTimeout => ifail ConnectTimeout
  | DialFailed => ifail NConnect
  | DialConnected connection recv send => imap_err NSync (task_session Dialer session connection recv send)
  end.

(** The task of [spawn_outgoing]; [permit] is whether the semaphore is open. *)
Definition run_outgoing (permit : bool) (bare : EndpointId -> result EndpointAddr NetworkError)
    (dial : EndpointAddr -> Dialed) (session : SessionConfig) (max_logs : Z) (peer : EndpointId)
    : IO NetworkError TaskResult :=
  if negb permit then iret (mkTaskResult (Some peer) Outgoing Unreachable)
  else
    _ <== record_attempt max_logs peer ;;
    result <== iresult (dial_and_sync bare dial session peer) ;;
    iret (outgoing_result peer result).

(** What an inviting device meets; see [run_inviter]. *)
Record InviterEnv := mkInviterEnv {
  ie_opened : result unit JoinError;
  ie_finished : result unit JoinError;
  ie_t1 : Z;
  ie_t2 : Z;
  ie_fresh_id : bytes;
  ie_channel : nat;
  ie_waited : Waited;
  ie_meanwhile : JoinState -> JoinState;
}.

(** A connection that was accepted within its timeout, and the protocol it was
    made for. *)
Record Accepted := mkAccepted {
  ac_alpn : bytes;
  ac_connection : Connection;
  ac_recv : Stream;
  ac_send : Sink;
  ac_inviter : InviterEnv;
}.

(** The join of a connection: its result and the coordinator. *)
Definition accept_join (a : Accepted) (joins : JoinState) (w : World) : result EndpointId JoinError * JoinState :=
  let ie := ac_inviter a in
  let '(r, _, joins) :=
    run_inviter (conn_remote (ac_connection a)) (ie_opened ie) (ie_finished ie) (ie_t1 ie) (ie_t2 ie) (ie_fresh_id ie)
      (ie_channel ie) (ie_waited ie) (ie_meanwhile ie) (mkEnd (w_db w) (ac_recv a) (ac_send a)) joins in
  (r, joins).

(** The task of [spawn_incoming]. *)
Definition run_incoming (session : SessionConfig) (accepted : option Accepted) (joins : JoinState) (w : World)
    : TaskResult * JoinState * World :=
  match accepted with
  | None => (incoming_result None, joins, w)
  | Some a =>
      let peer := conn_remote (ac_connection a) in
      if bool_decide (ac_alpn a = JOIN_ALPN) then
        let '(r, joins) := accept_join a joins w in (incoming_result (Some (peer, JoinProtocol r)), joins, w)
      else if bool_decide (ac_alpn a = ALPN) then
        let '(r, w) := task_session Acceptor session (ac_connection a) (ac_recv a) (ac_send a) w in
        (incoming_result (Some (peer, SyncProtocol r)), joins, w)
      else (incoming_result (Some (peer, OtherProtocol)), joins, w)
  end.
End tasks.
