(* ===== verification/TaskProps.v ===== *)
(** The thread of the network and its tasks: what the endpoint is bound with,
    when the thread runs, and what connections of strangers leave behind. *)

From S2P Require Import Prelude Bytes Utf8 Cursor Canonical Path Identity Concrete Records Roster Protocol.
From S2P Require Import Database State StateLaws StateProps RosterStore RosterProps Platform ToyFs Installer Sync SyncProps.
From S2P Require Import Session SessionLaws SessionProps Join Joining ToyJoin Network NetworkLoop NetworkHandle NetworkLoopLaws ApprovalLaws.
From S2P Require Import Settings NetworkTasks.

(** ** The builder *)

Section builder.
Context `{Crypto, Urls, Iroh}.

(** A publisher and a resolver for every address, in their order. *)
Definition lookups_of (urls : list Url) : list AddressLookup :=
  concat (map (fun url => [PkarrPublisher url; PkarrResolver url]) urls).

Lemma parse_relays_spec values :
  match mapM parse_relay_url values with
  | Some relays => parse_relays values = Ok relays
  | None => parse_relays values = Err InvalidRelayUrl
  end.
Proof.
  induction values as [|value values IH]; [done|]. cbn. unfold mbind, option_bind.
  destruct (parse_relay_url value); [|done]. cbn. destruct (mapM _ values); by rewrite IH.
Qed.

Lemma add_lookups_spec values b lookups :
  bu_lookups b = Some lookups ->
  match mapM parse_url values with
  | Some urls => add_lookups values b
      = Ok (mkBuilder (bu_preset b) (bu_relays b) (Some (lookups ++ lookups_of urls)) (bu_secret b) (bu_alpns b))
  | None => add_lookups values b = Err InvalidAddressLookupUrl
  end.
Proof.
  revert b lookups. induction values as [|value values IH]; intros b lookups Hb; cbn.
  { rewrite app_nil_r, <-Hb. by destruct b. }
  unfold mbind, option_bind. destruct (parse_url value) as [url|]; [|done]. cbn.
  specialize (IH (add_lookup (PkarrResolver url) (add_lookup (PkarrPublisher url) b))
    ((lookups ++ [PkarrPublisher url]) ++ [PkarrResolver url])).
  assert (bu_lookups (add_lookup (PkarrResolver url) (add_lookup (PkarrPublisher url) b))
    = Some ((lookups ++ [PkarrPublisher url]) ++ [PkarrResolver url])) as E by (cbn; by rewrite Hb).
  specialize (IH E). destruct (mapM parse_url values); [|exact IH]. rewrite IH. cbn. by rewrite <-!app_assoc.
Qed.

(** What the endpoint is bound with: the key of the device, the protocols of
    synchronizing and joining, and, for a custom preset, the configured relays
    and lookups and no others. *)
Lemma configured_builder_exact config identity :
  let iroh := cfg_iroh config in
  configured_builder config identity =
  match preset iroh with
  | N0 => Ok (mkBuilder PresetN0 None None (arr (signing_key identity)) [ALPN; JOIN_ALPN])
  | Custom =>
      match mapM parse_relay_url (relay_urls iroh), mapM parse_url (address_lookup_urls iroh) with
      | None, _ => Err InvalidRelayUrl
      | Some _, None => Err InvalidAddressLookupUrl
      | Some relays, Some urls =>
          Ok (mkBuilder PresetMinimal (Some relays) (Some (lookups_of urls)) (arr (signing_key identity))
                [ALPN; JOIN_ALPN])
      end
  end.
Proof.
  intros iroh. unfold configured_builder. fold iroh. destruct (preset iroh); [done|].
  pose proof (parse_relays_spec (relay_urls iroh)) as Hr. destruct (mapM parse_relay_url _) as [relays|]; rewrite Hr; [|done].
  pose proof (add_lookups_spec (address_lookup_urls iroh) (mkBuilder PresetMinimal (Some relays) (Some []) [] []) []
    eq_refl) as Hl. cbn in Hl |- *. destruct (mapM parse_url _); by rewrite Hl.
Qed.
End builder.

(** ** The thread *)

Section thread.
Context `{Crypto, Urls, Iroh}.

(** The loop is not among the events that are listed. *)
Ltac no_loop :=
  cbn; try done; intros Hin; exfalso;
  repeat (apply elem_of_cons in Hin as [Hin|Hin]; [discriminate Hin|]); by apply not_elem_of_nil in Hin.

(** Starting the network.  The thread answers exactly once.  A handle is
    made only after the endpoint was bound under the identity of this device
    and its address published, with nothing in the queue and no invitation;
    the loop then runs until the end and the endpoint is closed after it.  A
    start that fails leaves no loop running, but for the one whose answer came
    just after the timeout, and closes an endpoint that was bound. *)
Theorem start_exact spawned in_time runtime bind heard config identity :
  (in_time = true -> heard = true) ->
  let events := worker runtime bind heard config identity in
  length (omap (fun e => match e with WReady r => Some r | _ => None end) events) = 1%nat /\
  (forall b addr, configured_builder config identity = Ok b -> bind b = Some addr -> runtime = Ok tt ->
     last events = Some WClosed) /\
  match start spawned in_time events with
  | Ok h => exists b addr,
      configured_builder config identity = Ok b /\ bind b = Some addr /\ addr_id addr = endpoint_id identity /\
      h = mkHandle [] true JIdle (Some (addr_to_json addr)) /\
      events = [WPublished addr; WReady (Ok tt); WLoop; WClosed]
  | Err e => WLoop ∈ events -> spawned = Ok tt -> in_time = false /\ e = StartupTimeout /\ heard = true
  end.
Proof.
  intros Ht events. unfold events, worker. destruct runtime as [[]|e]; cbn.
  - destruct (configured_builder config identity) as [b|e] eqn:Eb; cbn.
    + destruct (bind b) as [addr|] eqn:Ea; cbn.
      * case_bool_decide as Hi; cbn.
        { split; [done|]. split; [done|]. destruct spawned as [[]|e], in_time; cbn; no_loop. }
        split; [by destruct heard|]. split; [intros b' addr' _ _ _; by destruct heard|].
        destruct spawned as [[]|e]; cbn; [|done]. destruct in_time; cbn.
        -- rewrite Ht by done. cbn. exists b, addr. split; [done|]. split; [done|]. split; [done|]. done.
        -- destruct heard; no_loop.
      * split; [done|]. split; [naive_solver congruence|]. destruct spawned as [[]|e], in_time; cbn; no_loop.
    + split; [done|]. split; [congruence|]. destruct spawned as [[]|e'], in_time; cbn; no_loop.
  - split; [done|]. split; [done|]. destruct spawned as [[]|e'], in_time; cbn; no_loop.
Qed.
End thread.

(** ** Connections of strangers *)

Section strangers.
Context `{Crypto, EventJson, Platform, Iroh, JoinCodec}.

(** The tip that this device selects has the peer as a member. *)
Definition is_member (db : Database) (peer : EndpointId) : Prop :=
  exists chain tip, select_stored (items (roster_t db)) = Ok chain /\ last chain = Some tip /\
    is_Some (rev_members tip !! peer).

Lemma authorized_member db local remote : authorized db local remote -> is_member db remote.
Proof. intros (chain & tip & ? & ? & _ & ?). by exists chain, tip. Qed.

(** A session with a stranger ends at the first check. *)
Lemma session_refused connection side config s :
  ~ authorized (w_db (ss_world s)) (sc_local_endpoint config) (conn_remote connection) ->
  exists e, run_session_with_outcome connection side config s = (Err e, s) /\
    outcome_reconcile_again (outcome_from_sync (Err e)) = false /\ outcome_succeeded (outcome_from_sync (Err e)) = false.
Proof.
  intros Hn. unfold run_session_with_outcome. unfold sbind at 1, world at 1.
  destruct (authorize_local_roster _ _ (ss_world s)) as [r w] eqn:E.
  pose proof (authorize_local_iff _ _ _ _ _ E) as [-> Hr].
  assert (mkSession (ss_world s) (ss_recv s) (ss_send s) (ss_received s) = s) as -> by by destruct s.
  destruct r as [[]|e]; [by destruct Hn; apply Hr|]. exists e. split; [done|].
  revert E. unfold authorize_local_roster, ibind. destruct (state selected_roster_chain (ss_world s)) as [x w1] eqn:Ec.
  apply chain_run in Ec as [-> ->]. destruct (select_stored _) as [chain|e']; cbn [map_err]; [|by intros [= <-]].
  unfold ilift. destruct (last chain) as [tip|]; cbn [ok_or]; [|by intros [= <-]].
  destruct (both_members tip _ _); [done|]. by intros [= <-].
Qed.

(** Logging touches the log only. *)
Definition only_logs (w w' : World) : Prop := exists logs sequence, w_db w' = set_logs (w_db w) logs sequence.
#[global] Instance only_logs_preorder : PreOrder only_logs.
Proof.
  split.
  - intros w. exists (logs_t (w_db w)), (log_sequence (w_db w)). by destruct (w_db w).
  - intros x y z (l & n & Hy) (l' & n' & Hz). exists l', n'. by rewrite Hz, Hy.
Qed.

Lemma only_logs_same w w' : same_db w w' -> only_logs w w'.
Proof. intros E. exists (logs_t (w_db w)), (log_sequence (w_db w)). rewrite E. by destruct (w_db w). Qed.

Lemma append_only_logs t event n : respects only_logs (nstate (append_log t event n)).
Proof.
  apply respects_map_err. intros w r w' E. unfold on_db in E.
  destruct (append_log t event n (w_db w)) as [x db] eqn:El. injection E as _ <-.
  destruct x as [[]|e].
  - apply (proj1 (transaction_Ok _ _ _ _)) in El. apply insert_log_Ok in El as (payload & _ & ->). by eexists _, _.
  - apply transaction_Err in El as ->. by apply only_logs_same.
Qed.

Lemma now_only_logs {E} : respects only_logs (now_ns (E := E)).
Proof. intros w r w' E'. by apply only_logs_same, (leaves_db_now w r). Qed.

Lemma chain_result {B} (f : result (list RosterRevision) NetworkError -> IO NetworkError B) w :
  ibind (iresult (nstate selected_roster_chain)) f w
  = f (map_err NState (select_stored (items (roster_t (w_db w))))) w.
Proof. by destruct w. Qed.

(** The result of a task of a peer that is no member is at most logged. *)
Lemma stranger_recorded max_logs peer outcome w r w' :
  ~ is_member (w_db w) peer -> record_result max_logs (Some peer) outcome w = (r, w') -> only_logs w w'.
Proof.
  intros Hn E.
  assert (respects only_logs (if match outcome with Rejected _ => true | _ => false end
    then now <== now_ns (E := NetworkError) ;;
         _ <== iresult (F := NetworkError) (nstate (append_log now (outcome_event outcome peer) max_logs)) ;; iret tt
    else iret tt)) as Hl by walk ltac:(first [apply append_only_logs | apply now_only_logs]).
  apply (Hl w r w'). rewrite <-E. unfold record_result. rewrite chain_result.
  destruct (select_stored (items (roster_t (w_db w)))) as [chain|e] eqn:Es; cbn [map_err]; [|done].
  destruct (last chain) as [tip|] eqn:Et; [|done]. rewrite bool_decide_eq_false_2; [done|].
  intros Hm. apply Hn. by exists chain, tip.
Qed.
(** An incoming result without another round leaves the loop as it is. *)
Lemma incoming_noted peer outcome st :
  outcome_reconcile_again outcome = false -> note_result (mkTaskResult peer Incoming outcome) st = st.
Proof. intros Hr. unfold note_result. cbn. by rewrite Hr. Qed.

Lemma incoming_selected max_logs peer outcome st w effects st' w' :
  outcome_reconcile_again outcome = false -> ~ is_member (w_db w) peer ->
  loop_select max_logs (SCompleted (Some (mkTaskResult (Some peer) Incoming outcome))) st w = (Ok (effects, st'), w') ->
  effects = [] /\ st' = st /\ only_logs w w'.
Proof.
  intros Hr Hn E. cbn [loop_select tr_peer tr_outcome] in E. apply ibind_Ok in E as (u & w1 & Er & E).
  injection E as <- <- <-. rewrite incoming_noted by done. by apply stranger_recorded in Er.
Qed.

(** C18: A stranger leaves a line in the log.  Whatever protocol a connection
    of a device outside the roster was made for and whatever it sends, its task
    leaves the world as it is, its result neither starts a round nor counts as
    anything in the loop, and what is recorded of it are entries of the log:
    the rows of collections, records, peers and the roster stay.  Only a
    connection made to join moves the coordinator. *)
Theorem strangers_leave_logs session a joins max_logs st w result joins' w1 effects st' w2 :
  let peer := conn_remote (ac_connection a) in
  ~ is_member (w_db w) peer ->
  run_incoming session (Some a) joins w = (result, joins', w1) ->
  loop_select max_logs (SCompleted (Some result)) st w1 = (Ok (effects, st'), w2) ->
  w1 = w /\ tr_peer result = Some peer /\ effects = [] /\ st' = st /\ only_logs w w2 /\
  (ac_alpn a <> JOIN_ALPN -> joins' = joins /\ outcome_succeeded (tr_outcome result) = false).
Proof.
  intros peer Hn. unfold run_incoming. fold peer. case_bool_decide as Hj.
  - destruct (accept_join a joins w) as [r joins1]. intros [= <- <- <-] E.
    apply incoming_selected in E as (-> & -> & Ho); [done | by destruct r | done].
  - case_bool_decide as Hs.
    + unfold task_session.
      destruct (session_refused (ac_connection a) Acceptor session (mkSession w (ac_recv a) (ac_send a) 0))
        as (e & -> & Hr & Hf); [by intros ?%authorized_member|].
      intros [= <- <- <-] E. by apply incoming_selected in E as (-> & -> & Ho).
    + intros [= <- <- <-] E. by apply incoming_selected in E as (-> & -> & Ho).
Qed.

Lemma failed_outcome e : outcome_succeeded (outgoing_outcome (Err e)) = false.
Proof.
  case e; try done. clear e. intros e. cbn [outgoing_outcome]. unfold outcome_from_sync.
  destruct e; try done; repeat case_match; done.
Qed.

Lemma only_logs_member w w' peer : only_logs w w' -> is_member (w_db w') peer -> is_member (w_db w) peer.
Proof. intros (logs & n & E). unfold is_member. by rewrite E. Qed.

Lemma attempt_only_logs max_logs peer : respects only_logs (record_attempt max_logs peer).
Proof. unfold record_attempt. walk ltac:(first [apply append_only_logs | apply now_only_logs]). Qed.

Lemma target_only_logs bare peer : respects only_logs (peer_target bare peer).
Proof.
  assert (respects same_db (peer_target bare peer)) as Hs
    by (unfold peer_target; walk ltac:(apply nstate_reads, reads_hint)).
  intros w r w' E. by apply only_logs_same, (Hs _ _ _ E).
Qed.

(** Dialing a device that has left the roster logs the attempt at most. *)
Lemma outgoing_refused permit bare dial session max_logs peer w r w' :
  (forall addr connection recv send, dial addr = DialConnected connection recv send -> conn_remote connection = peer) ->
  ~ is_member (w_db w) peer -> run_outgoing permit bare dial session max_logs peer w = (r, w') ->
  only_logs w w' /\ exists outcome, r = Ok (mkTaskResult (Some peer) Outgoing outcome) /\ outcome_succeeded outcome = false.
Proof.
  intros Hd Hn. unfold run_outgoing. destruct permit; cbn [negb];
    [|intros [= <- <-]; split; [done | by exists Unreachable]].
  unfold ibind at 1. destruct (record_attempt max_logs peer w) as [x w1] eqn:Ea.
  pose proof (attempt_only_logs _ _ _ _ _ Ea) as Hl.
  assert (x = Ok tt) as ->.
  { revert Ea. unfold record_attempt, ibind, iresult, now_ns. destruct (nstate _ _). by intros [= <- _]. }
  unfold ibind at 1, iresult at 1. destruct (dial_and_sync bare dial session peer w1) as [y w2] eqn:Ed.
  intros [= <- <-].
  assert (exists e, y = Err e /\ only_logs w1 w2) as (e & -> & Hl2);
    [|split; [by trans w1 | exists (outgoing_outcome (Err e)); split; [done | apply failed_outcome]]].
  revert Ed. unfold dial_and_sync, ibind. destruct (peer_target bare peer w1) as [[target|e] w3] eqn:Et;
    pose proof (target_only_logs _ _ _ _ _ Et) as Hl3; [|intros [= <- <-]; by exists e].
  destruct (dial target) as [| |connection recv send] eqn:Edial; [by intros [= <- <-]; eexists..|].
  unfold imap_err, task_session. destruct (session_refused connection Dialer session (mkSession w3 recv send 0))
    as (e & -> & _); [|intros [= <- <-]; by eexists].
  rewrite (Hd _ _ _ _ Edial). intros Hm%authorized_member. apply Hn, (only_logs_member _ w3); [by trans w1 | done].
Qed.
End strangers.

(** ** Examples *)

Section examples.
#[local] Existing Instance toy_crypto.
#[local] Existing Instance toy_crypto_laws.
#[local] Existing Instance terse_json.
#[local] Existing Instance toy_platform.
#[local] Existing Instance toy_iroh.
#[local] Existing Instance toy_join.

(** Every text that is not empty is an address. *)
#[local] Instance toy_urls : Urls := {|
  RelayUrl := bytes;
  Url := bytes;
  parse_relay_url value := if bool_decide (value = []) then None else Some value;
  parse_url value := if bool_decide (value = []) then None else Some value;
|}.

(** Alice binds an endpoint with her own key. *)
Definition alice_bind (b : Builder) : option EndpointAddr := Some (endpoint_id alice).

Lemma start_exact_witness :
  exists h, start (Ok tt) true (worker (Ok tt) alice_bind true config_default alice) = Ok h /\ h_commands h = [].
Proof.
  pose proof (start_exact (Ok tt) true (Ok tt) alice_bind true config_default alice (fun H => H)) as (_ & _ & Hs).
  destruct (start _ _ _) as [h|e] eqn:E.
  - exists h. split; [done|]. destruct Hs as (b & addr & _ & _ & _ & -> & _). done.
  - vm_compute in E. discriminate E.
Defined.

(** A start whose answer comes just after the timeout has failed, while the loop
    runs on; its queue is closed, and the loop does not stop for that. *)
Example late_start_runs :
  start (Ok tt) false (worker (Ok tt) alice_bind true config_default alice) = Err StartupTimeout /\
  WLoop ∈ worker (Ok tt) alice_bind true config_default alice.
Proof. split; [done|]. vm_compute. apply elem_of_cons. right. apply elem_of_cons. right. apply elem_of_cons. by left. Qed.

(** A relay that is not an address is found when the endpoint is made, not when
    the configuration is read. *)
Definition bad_relay : Config :=
  mkConfig (cfg_device config_default) (cfg_joining config_default) (mkIrohConfig Custom [[]] [lit "https://lookup"])
    (cfg_sync config_default) (cfg_logging config_default).
Example bad_relay_found :
  config_validate bad_relay = Ok tt /\ configured_builder bad_relay alice = Err InvalidRelayUrl.
Proof. by vm_compute. Qed.
(** Somebody outside the group of Alice and Bob sends what Bob sent. *)
Definition stranger : EndpointId := endpoint_id (toy_identity "x"%byte).
Definition stranger_connection : Accepted :=
  mkAccepted ALPN (mkConnection stranger (Ok tt) (Ok tt) (Ok tt)) (mkStream bob_says Closed) (mkSink [] None)
    (mkInviterEnv (Ok tt) (Ok tt) 0 0 [] 0 WElapsed id).
Definition met_stranger := run_incoming alice_config (Some stranger_connection) JIdle alice_world.
Lemma met_stranger_run :
  run_incoming alice_config (Some stranger_connection) JIdle alice_world
  = (met_stranger.1.1, met_stranger.1.2, met_stranger.2).
Proof. unfold met_stranger. by destruct (run_incoming _ _ _ _) as [[? ?] ?]. Qed.
Definition idle_loop : LoopState := set_pending false (loop_init 0 10).

Lemma stranger_outside : ~ is_member (w_db alice_world) stranger.
Proof.
  intros (chain & tip & E & Hl & Hm).
  assert (select_stored (items (roster_t (w_db alice_world))) = Ok [example_genesis; admit_bob]) as Hs by evaluate.
  rewrite Hs in E. apply Ok_inj in E. rewrite <-E in Hl. apply (inj Some) in Hl. rewrite <-Hl in Hm.
  assert (rev_members admit_bob !! stranger = None) as Hno by (vm_compute; reflexivity).
  rewrite Hno in Hm. exact (is_Some_None Hm).
Qed.

Lemma strangers_leave_logs_witness :
  exists w2, loop_select 10 (SCompleted (Some met_stranger.1.1)) idle_loop met_stranger.2 = (Ok ([], idle_loop), w2)
    /\ only_logs alice_world w2 /\ outcome_succeeded (tr_outcome met_stranger.1.1) = false.
Proof.
  destruct (loop_select 10 (SCompleted (Some met_stranger.1.1)) idle_loop met_stranger.2) as [[[effects st']|e] w2] eqn:E.
  - destruct (strangers_leave_logs alice_config stranger_connection JIdle 10 idle_loop alice_world
      met_stranger.1.1 met_stranger.1.2 met_stranger.2 effects st' w2 stranger_outside met_stranger_run E)
      as (_ & _ & -> & -> & Ho & Hs).
    exists w2. split; [reflexivity|]. split; [exact Ho|]. apply Hs. vm_compute. discriminate.
  - exfalso. assert (is_ok (loop_select 10 (SCompleted (Some met_stranger.1.1)) idle_loop met_stranger.2).1 = true) as Hok
      by by vm_compute. by rewrite E in Hok.
Defined.
End examples.
