(* ===== verification/Processes.v ===== *)
(** daemon.rs and process_lock.rs: the processes of one user side by side, on the
    locks of their data directories and the sockets of their runtime
    directories.

    A step is one call of [daemon::run] (or of a join) that others can see: the
    lock, [socket.exists()], [UnixStream::connect], [remove_file], [bind], the
    end of the loop, and the last [remove_file].  Processes interleave in every
    way, and end at any point: with an error or by being killed, which
    releases the lock of a file but leaves the socket. *)

From stdpp Require Import functions.
From S2P Require Import Prelude Bytes Utf8 Cursor Canonical Path Identity Records Roster Database.
From S2P Require Import State RosterStore Platform Settings Keystore Setup.

Definition SOCKET_FILE : bytes := lit "control.sock".
Definition socket_path (paths : PlatformPaths) : bytes := pathbuf_push (runtime_dir paths) SOCKET_FILE.
Definition lock_path (paths : PlatformPaths) : bytes := pathbuf_push (data_dir paths) LOCK_FILE.

(** Where a process is. *)
Inductive Phase :=
  | PIdle          (* not started *)
  | PPreparing     (* a daemon that holds the lock *)
  | PChecking      (* before [socket.exists()] *)
  | PConnecting    (* the socket exists *)
  | PRemoving      (* nobody answered *)
  | PBinding       (* no socket is left *)
  | PServing       (* listening *)
  | PClosing       (* the listener is dropped *)
  | PJoining       (* a join that holds the lock *)
  | PEnded.
#[global] Instance Phase_eq_dec : EqDecision Phase.
Proof. solve_decision. Defined.

(** Between the lock and the end. *)
Definition active (phase : Phase) : bool := negb (bool_decide (phase = PIdle) || bool_decide (phase = PEnded)).

(** A daemon, or else a join, and its directories. *)
Record Program := mkProgram { pg_daemon : bool; pg_paths : PlatformPaths }.

(** The holder of each lock, and the process that bound each socket: [None] for
    one that is from before. *)
Record System := mkSystem {
  sy_phase : nat -> Phase;
  sy_locks : gmap bytes nat;
  sy_sockets : gmap bytes (option nat);
}.

Section processes.
Variable program : nat -> Program.

Definition lock_of (p : nat) : bytes := lock_path (pg_paths (program p)).
Definition socket_of (p : nat) : bytes := socket_path (pg_paths (program p)).

Definition enter (p : nat) (phase : Phase) (s : System) : System :=
  mkSystem (<[p := phase]> (sy_phase s)) (sy_locks s) (sy_sockets s).
Definition with_socket (p : nat) (socket : option (option nat)) (s : System) : System :=
  mkSystem (sy_phase s) (sy_locks s)
    (match socket with Some owner => <[socket_of p := owner]> (sy_sockets s) | None => delete (socket_of p) (sy_sockets s) end).

(** The end of a process that holds its lock. *)
Definition finish (p : nat) (s : System) : System :=
  mkSystem (<[p := PEnded]> (sy_phase s)) (delete (lock_of p) (sy_locks s)) (sy_sockets s).

(** The process that answers at a socket. *)
Definition answers (path : bytes) (s : System) : option nat :=
  match sy_sockets s !! path with
  | Some (Some owner) => if bool_decide (sy_phase s owner = PServing) then Some owner else None
  | _ => None
  end.

(** The next call of a process. *)
Definition advance (p : nat) (s : System) : option System :=
  match sy_phase s p with
  | PIdle =>
      Some match lock_outcome (match sy_locks s !! lock_of p with None => TryLocked | Some _ => TryWouldBlock end) with
           | Ok _ =>
               mkSystem (<[p := if pg_daemon (program p) then PPreparing else PJoining]> (sy_phase s))
                 (<[lock_of p := p]> (sy_locks s)) (sy_sockets s)
           | Err _ => enter p PEnded s
           end
  | PPreparing => Some (enter p PChecking s)
  | PChecking => Some (enter p (match sy_sockets s !! socket_of p with None => PBinding | Some _ => PConnecting end) s)
  | PConnecting =>
      (* [AlreadyRunning], or the socket is stale *)
      Some match answers (socket_of p) s with Some _ => finish p s | None => enter p PRemoving s end
  | PRemoving =>
      Some match sy_sockets s !! socket_of p with
           | Some _ => enter p PBinding (with_socket p None s)
           | None => finish p s
           end
  | PBinding =>
      Some match sy_sockets s !! socket_of p with
           | None => enter p PServing (with_socket p (Some (Some p)) s)
           | Some _ => finish p s
           end
  | PServing => Some (enter p PClosing s)
  | PClosing => Some (finish p (with_socket p None s))
  | PJoining => Some (finish p s)
  | PEnded => None
  end.

Inductive Action := Advance (p : nat) | Die (p : nat).

Definition system_step (a : Action) (s : System) : option System :=
  match a with
  | Advance p => advance p s
  | Die p => if active (sy_phase s p) then Some (finish p s) else None
  end.

(** Before any process: sockets may be left from earlier ones. *)
Definition initial (sockets : gset bytes) : System :=
  mkSystem (fun _ => PIdle) ∅ (gset_to_gmap None sockets).

Inductive reachable : System -> Prop :=
  | reachable_initial sockets : reachable (initial sockets)
  | reachable_step a s s' : reachable s -> system_step a s = Some s' -> reachable s'.

Fixpoint run_actions (actions : list Action) (s : System) : option System :=
  match actions with
  | [] => Some s
  | a :: actions => match system_step a s with Some s => run_actions actions s | None => None end
  end.
End processes.
