(* ===== verification/ProcessesProps.v ===== *)
(** One daemon per data directory, reachable at its socket. *)

From stdpp Require Import functions.
From S2P Require Import Prelude Bytes Utf8 Cursor Canonical Path Identity Records Roster Database.
From S2P Require Import State RosterStore Platform Settings Keystore Setup Processes.

Section properties.
Variable program : nat -> Program.
Abbreviation lock_of := (lock_of program).
Abbreviation socket_of := (socket_of program).

(** Processes with one socket have one lock. *)
Hypothesis one_lock : forall p q, socket_of p = socket_of q -> lock_of p = lock_of q.

Record system_inv (s : System) : Prop := {
  si_holder : forall p, active (sy_phase s p) = true -> sy_locks s !! lock_of p = Some p;
  si_serving : forall p, sy_phase s p = PServing -> sy_sockets s !! socket_of p = Some (Some p);
  si_owner : forall path p, sy_sockets s !! path = Some (Some p) -> path = socket_of p;
}.

Lemma initial_inv sockets : system_inv (initial sockets).
Proof.
  split; simpl; try done. intros path p. rewrite lookup_gset_to_gmap_Some. by intros [_ [=]].
Qed.

(** Two processes at work with one lock are one. *)
Lemma holder_unique s p q :
  system_inv s -> active (sy_phase s p) = true -> active (sy_phase s q) = true -> lock_of p = lock_of q -> p = q.
Proof. intros [Hh _ _] Hp%Hh Hq%Hh E. rewrite E in Hp. congruence. Qed.

(** A process enters another phase. *)
Lemma enter_inv s p phase :
  system_inv s -> (active phase = true -> sy_locks s !! lock_of p = Some p) ->
  (phase = PServing -> sy_sockets s !! socket_of p = Some (Some p)) -> system_inv (enter p phase s).
Proof.
  intros [Hh Hs Ho] Hl Hb. split; simpl; [| |done]; intros q; destruct (decide (p = q)) as [<-|Hne];
    rewrite ?fn_lookup_insert, ?fn_lookup_insert_ne by done; auto.
Qed.

(** A process that holds its lock and does not serve does with the socket what it
    likes: no other process serves there. *)
Lemma with_socket_inv s p socket :
  system_inv s -> active (sy_phase s p) = true -> sy_phase s p <> PServing ->
  socket = None \/ socket = Some (Some p) -> system_inv (with_socket program p socket s).
Proof.
  intros Hi Ha Hp Hk. pose proof Hi as [Hh Hs Ho]. split; simpl; [done| |].
  - intros q Hq. assert (socket_of p <> socket_of q) as Hne.
    { intros E. apply one_lock in E. apply (holder_unique s) in E as ->; [done..|]. by rewrite Hq. }
    destruct Hk as [-> | ->]; rewrite ?lookup_delete_ne, ?lookup_insert_ne by done; auto.
  - intros path q. destruct Hk as [-> | ->].
    + intros [_ Hq]%lookup_delete_Some. by apply Ho.
    + intros [[<- [= <-]]|[_ Hq]]%lookup_insert_Some; [done | by apply Ho].
Qed.

Lemma finish_inv s p : system_inv s -> active (sy_phase s p) = true -> system_inv (finish program p s).
Proof.
  intros Hi Ha. pose proof Hi as [Hh Hs Ho]. split; simpl; [| |done]; intros q; destruct (decide (p = q)) as [<-|Hne];
    rewrite ?fn_lookup_insert, ?fn_lookup_insert_ne by done; auto; try done.
  intros Hq. rewrite lookup_delete_ne; [by apply Hh|]. intros E. apply Hne. by apply (holder_unique s).
Qed.

Lemma advance_inv s p s' : system_inv s -> advance program p s = Some s' -> system_inv s'.
Proof.
  intros Hi. pose proof Hi as [Hh Hs Ho]. unfold advance.
  assert (active (sy_phase s p) = true -> sy_locks s !! lock_of p = Some p) as Hl by apply Hh.
  destruct (sy_phase s p) eqn:Ep; intros [= <-].
  - destruct (sy_locks s !! lock_of p) as [q|] eqn:El; simpl; [by apply enter_inv|].
    split; simpl; [| |done]; intros q; destruct (decide (p = q)) as [<-|Hne];
      rewrite ?fn_lookup_insert, ?fn_lookup_insert_ne by done; auto; try by destruct (pg_daemon _).
    + intros _. by rewrite lookup_insert_eq.
    + intros Hq%Hh. rewrite lookup_insert_ne; [done|]. intros E. rewrite E in El. congruence.
  - apply enter_inv; [done | by intros _; apply Hl | done].
  - apply enter_inv; [done | by intros _; apply Hl | by case_match].
  - destruct (answers _ s); [apply finish_inv; by rewrite ?Ep|].
    apply enter_inv; [done | by intros _; apply Hl | done].
  - destruct (sy_sockets s !! socket_of p); [|apply finish_inv; by rewrite ?Ep].
    apply enter_inv; [|by intros _; apply Hl|done]. apply with_socket_inv; auto; by rewrite Ep.
  - destruct (sy_sockets s !! socket_of p); [apply finish_inv; by rewrite ?Ep|].
    apply enter_inv; [|by intros _; apply Hl|intros _; apply lookup_insert_eq].
    apply with_socket_inv; auto; by rewrite Ep.
  - apply enter_inv; [done | by intros _; apply Hl | done].
  - apply finish_inv; simpl; [|by rewrite Ep]. apply with_socket_inv; auto; by rewrite Ep.
  - apply finish_inv; [done | by rewrite Ep].
Qed.

Lemma reachable_inv s : reachable program s -> system_inv s.
Proof.
  induction 1 as [sockets|[p|p] s s' _ Hi E]; [apply initial_inv | by apply (advance_inv s p)|].
  simpl in E. destruct (active (sy_phase s p)) eqn:Ha; [|done]. injection E as <-. by apply finish_inv.
Qed.

(** ** Starting *)

(** Nobody answers a process at work that does not serve. *)
Lemma not_answered s p :
  system_inv s -> active (sy_phase s p) = true -> sy_phase s p <> PServing -> answers (socket_of p) s = None.
Proof.
  intros Hi Ha Hp. unfold answers. destruct (sy_sockets s !! socket_of p) as [[owner|]|] eqn:Ek; [|done..].
  case_bool_decide as Ho; [|done]. exfalso. apply Hp.
  apply (si_owner _ Hi), one_lock in Ek. by rewrite (holder_unique s p owner Hi Ha) by (by rewrite ?Ho).
Qed.

Lemma advance_run p s s' actions :
  advance program p s = Some s' -> run_actions program (Advance p :: actions) s = run_actions program actions s'.
Proof. intros E. cbn. by rewrite E. Qed.

Lemma phase_entered p phase s : sy_phase (enter p phase s) p = phase.
Proof. apply fn_lookup_insert. Qed.

(** A daemon that reached its check and is left alone comes to serve. *)
Lemma binds s p :
  sy_phase s p = PBinding -> sy_sockets s !! socket_of p = None ->
  advance program p s = Some (enter p PServing (with_socket program p (Some (Some p)) s)).
Proof. intros Hp Hk. unfold advance. by rewrite Hp, Hk. Qed.

Lemma serves_alone s p :
  system_inv s -> sy_phase s p = PChecking ->
  exists n s', run_actions program (replicate n (Advance p)) s = Some s' /\ sy_phase s' p = PServing.
Proof.
  intros Hi Hp. destruct (sy_sockets s !! socket_of p) as [owner|] eqn:Ek.
  - assert (advance program p s = Some (enter p PConnecting s)) as E1 by (unfold advance; by rewrite Hp, Ek).
    set (s1 := enter p PConnecting s) in *. assert (sy_phase s1 p = PConnecting) as Hp1 by apply phase_entered.
    assert (advance program p s1 = Some (enter p PRemoving s1)) as E2.
    { unfold advance. rewrite Hp1, not_answered; [done | by apply (advance_inv s p) | by rewrite Hp1..]. }
    set (s2 := enter p PRemoving s1) in *. assert (sy_phase s2 p = PRemoving) as Hp2 by apply phase_entered.
    assert (advance program p s2 = Some (enter p PBinding (with_socket program p None s2))) as E3
      by (unfold advance; rewrite Hp2; change (sy_sockets s2) with (sy_sockets s); by rewrite Ek).
    exists 4%nat. eexists. cbn [replicate]. rewrite (advance_run _ _ _ _ E1), (advance_run _ _ _ _ E2),
      (advance_run _ _ _ _ E3).
    erewrite advance_run; [split; [done | apply phase_entered]|]. apply binds; [apply phase_entered|].
    apply lookup_delete_eq.
  - assert (advance program p s = Some (enter p PBinding s)) as E1 by (unfold advance; by rewrite Hp, Ek).
    exists 2%nat. eexists. cbn [replicate]. rewrite (advance_run _ _ _ _ E1).
    erewrite advance_run; [split; [done | apply phase_entered]|]. apply binds; [apply phase_entered | done].
Qed.

(** C17: One daemon per data directory.  When processes that share a socket share
    a data directory, then at every moment, whatever the order of their steps
    and whichever of them have died: at most one of those with one data
    directory is at work; a daemon that serves is the one that answers at its
    socket; no daemon that starts finds another one answering, the lock
    having kept it from coming that far; and one that comes to look for a
    socket, left alone, comes to serve, whatever sockets the dead have left. *)
Theorem one_daemon s :
  reachable program s ->
  (forall p q, active (sy_phase s p) = true -> active (sy_phase s q) = true -> lock_of p = lock_of q -> p = q) /\
  (forall p, sy_phase s p = PServing -> answers (socket_of p) s = Some p) /\
  (forall p, sy_phase s p = PConnecting -> answers (socket_of p) s = None) /\
  (forall p, sy_phase s p = PChecking ->
     exists n s', run_actions program (replicate n (Advance p)) s = Some s' /\ sy_phase s' p = PServing).
Proof.
  intros Hi%reachable_inv. split; [intros p q; by apply holder_unique|]. split; [|split].
  - intros p Hp. unfold answers. rewrite (si_serving _ Hi p Hp). by rewrite bool_decide_eq_true_2.
  - intros p Hp. apply not_answered; [done | by rewrite Hp..].
  - intros p. by apply serves_alone.
Qed.
End properties.

(** ** Directories *)

Ltac component := unfold normal_component; apply (bool_decide_unpack _); vm_compute; exact I.

(** A path that ends with a component. *)
Definition plain (path : bytes) : Prop := path <> [] /\ ends_with_slash path = false.

Lemma push_plain buffer c : normal_component c -> plain (pathbuf_push buffer c).
Proof.
  intros (Hne & _ & _ & Hns). assert (exists before, pathbuf_push buffer c = before ++ c) as [before ->].
  { unfold pathbuf_push. destruct (match c with b :: _ => _ | [] => _ end); [by exists []|].
    destruct (_ || _); [by exists buffer | exists (buffer ++ [slash]); by rewrite <-app_assoc]. }
  split; [by destruct before, c|]. unfold ends_with_slash. rewrite last_app.
  destruct (last c) as [b|] eqn:E; [|by apply last_None in E].
  apply bool_decide_eq_false_2. intros ->. by apply last_Some_elem_of in E.
Qed.

Lemma push_inj buffer buffer' c :
  normal_component c -> plain buffer -> plain buffer' -> pathbuf_push buffer c = pathbuf_push buffer' c -> buffer = buffer'.
Proof.
  intros Hc [Hb Hs] [Hb' Hs']. rewrite (proj1 (pathbuf_push_normal buffer c Hc Hb Hs)).
  rewrite (proj1 (pathbuf_push_normal buffer' c Hc Hb' Hs')). by apply app_inv_tail.
Qed.

(** The directories of macOS: the socket is below the data directory, so that
    processes that share a socket share the lock. *)
Lemma macos_one_lock program :
  (forall p, exists home, pg_paths (program p) = for_macos_home home) ->
  forall p q, socket_of program p = socket_of program q -> lock_of program p = lock_of program q.
Proof.
  intros Hm p q. destruct (Hm p) as [home Ep], (Hm q) as [home' Eq].
  unfold socket_of, lock_of, socket_path, lock_path. rewrite Ep, Eq. cbn [runtime_dir data_dir for_macos_home].
  intros E. f_equal.
  apply push_inj in E; [|component | apply push_plain; component | apply push_plain; component].
  apply push_inj in E; [done | component | |]; apply push_plain; component.
Qed.

Lemma run_reachable program actions s s' :
  reachable program s -> run_actions program actions s = Some s' -> reachable program s'.
Proof.
  revert s. induction actions as [|a actions IH]; intros s Hs; cbn; [by intros [= <-]|].
  destruct (system_step program a s) as [s1|] eqn:E; [|done]. apply IH. by apply (reachable_step _ a s).
Qed.

(** ** Examples *)

(** Two daemons and a join of one home.  The first daemon is killed while the
    others wait; its socket stays, and the second daemon takes it over. *)
Definition home_programs (p : nat) : Program := mkProgram (bool_decide (p <> 2%nat)) (for_macos_home (lit "/Users/a")).
Definition takeover : list Action :=
  replicate 4 (Advance 0) ++ [Die 0] ++ replicate 4 (Advance 1) ++ [Advance 2; Advance 1; Advance 1].

Lemma home_one_lock p q : socket_of home_programs p = socket_of home_programs q -> lock_of home_programs p = lock_of home_programs q.
Proof. apply macos_one_lock. intros r. by exists (lit "/Users/a"). Qed.

(** What is looked at in a system that a run has reached. *)
Lemma run_shows {A} program actions s0 (f : System -> A) a :
  option_map f (run_actions program actions s0) = Some a ->
  exists s, run_actions program actions s0 = Some s /\ f s = a.
Proof. destruct (run_actions program actions s0) as [s|]; [|done]. intros [= <-]. by exists s. Qed.

Lemma one_daemon_witness :
  exists s, run_actions home_programs takeover (initial ∅) = Some s /\
    answers (socket_of home_programs 1) s = Some 1%nat /\ sy_phase s 2%nat = PEnded.
Proof.
  destruct (run_shows home_programs takeover (initial ∅) (fun s => (sy_phase s 1%nat, sy_phase s 2%nat)) (PServing, PEnded))
    as (s & E & Hs); [vm_compute; reflexivity|]. injection Hs as Hp Hj. exists s. split; [exact E|].
  split; [|exact Hj].
  pose proof (one_daemon home_programs home_one_lock s (run_reachable _ _ _ _ (reachable_initial _ ∅) E)) as (_ & Hs & _).
  exact (Hs 1%nat Hp).
Defined.

(** Without the condition on the directories it fails: two daemons with data
    directories of their own and one runtime directory find the socket of a
    dead one, both see that nobody answers, and the second removes the socket
    that the first has just bound.  The first then serves where nobody can
    reach it. *)
Definition apart_programs (p : nat) : Program :=
  mkProgram true (mkPaths (lit "/c") (if bool_decide (p = 0%nat) then lit "/data/a" else lit "/data/b") (lit "/run")).
Definition race : list Action :=
  replicate 4 (Advance 0) ++ replicate 4 (Advance 1) ++ replicate 2 (Advance 0) ++ replicate 2 (Advance 1).

Example shared_runtime_directory_races :
  exists s, run_actions apart_programs race (initial {[ socket_of apart_programs 0 ]}) = Some s /\
    sy_phase s 0%nat = PServing /\ answers (socket_of apart_programs 0) s = Some 1%nat.
Proof.
  destruct (run_shows apart_programs race (initial {[ socket_of apart_programs 0 ]})
    (fun s => (sy_phase s 0%nat, answers (socket_of apart_programs 0) s)) (PServing, Some 1%nat)) as (s & E & Hs);
    [vm_compute; reflexivity|]. injection Hs as Hp Ha. exists s. exact (conj E (conj Hp Ha)).
Qed.
