(* ===== verification/Service.v ===== *)
(** joining_service.rs: the client of the service through which an invitation
    reaches the device that joins.

    URLs, header names and values, Base64, RFC 3339 and JSON are crates', a
    parameter each in [ServiceCodec].  What the service answers to the attempts
    of a request is an argument: a response with the bytes that arrived of its
    body, or the failure to send. *)

From S2P Require Import Prelude Bytes Platform Settings.

Definition BODY_LIMIT : Z := 32 * 1024.
Definition TICKET_LIMIT : Z := 16 * 1024.
Definition MAX_ATTEMPTS : nat := 2.
Definition MAX_SERVICE_URL_BYTES : Z := 2048.
Definition MAX_CUSTOM_HEADERS : Z := 16.
Definition MAX_CUSTOM_HEADER_NAME_BYTES : Z := 128.
Definition MAX_CUSTOM_HEADER_VALUE_BYTES : Z := 8 * 1024.
Definition MAX_CUSTOM_HEADER_BYTES : Z := 16 * 1024.

Inductive JoiningServiceError :=
  | InvalidUrl
  | InvalidHeader
  | ReservedHeader
  | ClientError
  | InvalidTtl
  | InvalidTicket
  | InvalidCode
  | InvalidRequest
  | BodyTooLarge
  | ServiceTimeout
  | Unavailable
  | InvalidResponse
  | Service (status : Z).

Record CreateRequest := mkCreateRequest { cq_protocol : bytes; cq_inviter_ticket : bytes; cq_ttl_seconds : Z }.
Record CreateResponse := mkCreateResponse { cr_code : bytes; cr_join_nonce : bytes; cr_expires_at : bytes }.
Record ClaimResponse := mkClaimResponse {
  cl_protocol : bytes;
  cl_inviter_ticket : bytes;
  cl_join_nonce : bytes;
  cl_expires_at : bytes;
}.
Record ServiceErrorBody := mkServiceError { se_code : bytes; se_message : bytes }.
Record CreatedInvitation := mkCreated { ci_code : bytes; ci_join_nonce : array 32; ci_expires_at : bytes }.
Record ClaimedInvitation := mkClaimed { cd_inviter_ticket : bytes; cd_join_nonce : array 32; cd_expires_at : bytes }.

(** A response: what has arrived of the body, and how the body ended. *)
Record Response := mkResponse {
  rs_status : Z;
  rs_content_length : option Z;
  rs_body : bytes;
  rs_failure : option bool;   (* the body broke off, with a timeout or not *)
}.
Inductive Sent :=
  | Responded (response : Response)
  | SendFailed (is_timeout : bool).

Class ServiceCodec := {
  Url : Type;
  url_parse : bytes -> option Url;
  url_scheme : Url -> bytes;
  url_has_host : Url -> bool;
  url_username : Url -> bytes;
  url_password : Url -> option bytes;
  url_query : Url -> option bytes;
  url_fragment : Url -> option bytes;
  url_path : Url -> bytes;
  url_set_path : bytes -> Url -> Url;
  url_join : Url -> bytes -> option Url;
  (** [HeaderName::from_bytes], in lower case, and [HeaderValue::from_str] *)
  header_name : bytes -> option bytes;
  header_value : bytes -> option bytes;
  (** [URL_SAFE_NO_PAD.decode], and whether [OffsetDateTime::parse] succeeds *)
  base64url_decode : bytes -> option bytes;
  rfc3339 : bytes -> bool;
  create_request_json : CreateRequest -> option bytes;
  claim_request_json : bytes -> option bytes;
  create_response_of_json : bytes -> option CreateResponse;
  claim_response_of_json : bytes -> option ClaimResponse;
  error_envelope_of_json : bytes -> option ServiceErrorBody;
}.

Section service.
Context `{ServiceCodec}.

(** [JoiningServiceClient]; reqwest's client is in the answers. *)
Record Client := mkClient { cl_base_url : Url; cl_headers : gmap bytes bytes }.

(** ** Building a client *)

Fixpoint parse_headers (headers : list (bytes * bytes)) (header_count header_bytes : Z) (parsed : gmap bytes bytes)
    : result (gmap bytes bytes) JoiningServiceError :=
  match headers with
  | [] => Ok parsed
  | (name, value) :: headers =>
      if bool_decide (name = []) || (MAX_CUSTOM_HEADER_NAME_BYTES <? len name)
         || (MAX_CUSTOM_HEADER_VALUE_BYTES <? len value) then Err InvalidHeader
      else
        let header_count := usize_saturating_add header_count 1 in
        let header_bytes := usize_saturating_add (usize_saturating_add header_bytes (len name)) (len value) in
        if (MAX_CUSTOM_HEADERS <? header_count) || (MAX_CUSTOM_HEADER_BYTES <? header_bytes) then Err InvalidHeader
        else
          let? name := ok_or (header_name name) InvalidHeader in
          let? value := ok_or (header_value value) InvalidHeader in
          if bool_decide (name = lit "content-type") || bool_decide (name = lit "idempotency-key")
          then Err ReservedHeader
          else parse_headers headers header_count header_bytes (<[name := value]> parsed)
  end.

Definition usable_url (url : Url) : bool :=
  (bool_decide (url_scheme url = lit "http") || bool_decide (url_scheme url = lit "https"))
  && url_has_host url && bool_decide (url_username url = []) && bool_decide (url_password url = None)
  && bool_decide (url_query url = None) && bool_decide (url_fragment url = None).

Definition client_new (base_url : bytes) (headers : list (bytes * bytes)) (build : bool)
    : result Client JoiningServiceError :=
  if MAX_SERVICE_URL_BYTES <? len base_url then Err InvalidUrl
  else
    let? base_url := ok_or (url_parse base_url) InvalidUrl in
    if negb (usable_url base_url) then Err InvalidUrl
    else
      let base_url :=
        if bool_decide (last (url_path base_url) = Some "047"%byte) then base_url
        else url_set_path (url_path base_url ++ ["047"%byte]) base_url in
      let? parsed := parse_headers headers 0 0 ∅ in
      if negb build then Err ClientError else Ok (mkClient base_url parsed).

Definition client_from_config (env : Env) (config : Config) (build : bool) : result Client JoiningServiceError :=
  client_new (effective_joining_service_url env config) (items (joining_headers (cfg_joining config))) build.

(** ** What the service says *)

Definition code_byte (b : byte) : bool :=
  let z := byteZ b in
  ((48 <=? z) && (z <=? 57)) || ((65 <=? z) && (z <=? 90)) || ((97 <=? z) && (z <=? 122))
  || (z =? 46) || (z =? 95) || (z =? 126) || (z =? 45).
Definition validate_code (code : bytes) : result unit JoiningServiceError :=
  if bool_decide (code = []) || (128 <? len code) || negb (forallb code_byte code) then Err InvalidCode else Ok tt.

Definition decode_nonce (value : bytes) : result (array 32) JoiningServiceError :=
  let? decoded := ok_or (base64url_decode value) InvalidResponse in
  ok_or (to_array 32 decoded) InvalidResponse.

Definition validate_timestamp (value : bytes) : result unit JoiningServiceError :=
  if (64 <? len value) || negb (bool_decide (last value = Some "090"%byte)) || negb (rfc3339 value)
  then Err InvalidResponse else Ok tt.

Inductive ResponseDecodeError :=
  | Retryable (e : JoiningServiceError)
  | Final (e : JoiningServiceError).

(** [take(limit + 1).read_to_end]: it does not look beyond the bytes it takes. *)
Definition read_body (response : Response) : result bytes ResponseDecodeError :=
  if BODY_LIMIT + 1 <=? len (rs_body response) then Ok (take (Z.to_nat (BODY_LIMIT + 1)) (rs_body response))
  else
    match rs_failure response with
    | Some timed_out => Err (Retryable (if timed_out : bool then ServiceTimeout else Unavailable))
    | None => Ok (rs_body response)
    end.

Definition decode_response {R} (of_json : bytes -> option R) (response : Response) (expected_status : Z)
    : result R ResponseDecodeError :=
  let status := rs_status response in
  if match rs_content_length response with Some length => BODY_LIMIT <? length | None => false end
  then Err (Final BodyTooLarge)
  else
    let? bytes := read_body response in
    if BODY_LIMIT <? len bytes then Err (Final BodyTooLarge)
    else if match rs_content_length response with Some length => negb (length =? len bytes) | None => false end
    then Err (Retryable Unavailable)
    else if status =? expected_status then ok_or (of_json bytes) (Final InvalidResponse)
    else
      let? envelope := ok_or (error_envelope_of_json bytes) (Final InvalidResponse) in
      if bool_decide (se_code envelope = []) || (128 <? len (se_code envelope))
         || bool_decide (se_message envelope = []) || (1024 <? len (se_message envelope))
      then Err (Final InvalidResponse) else Err (Final (Service status)).

(** ** A request *)

Record HttpRequest := mkHttpRequest {
  hq_url : Url;
  hq_headers : gmap bytes bytes;
  hq_idempotency_key : bytes;
  hq_body : bytes;
}.

Definition retryable_status (status : Z) : bool := (status =? 429) || ((500 <=? status) && (status <? 600)).

(** The loop from an attempt on: the result, and the requests it sends. *)
Fixpoint attempts {R} (answer : nat -> Sent) (of_json : bytes -> option R) (expected_status : Z)
    (request : HttpRequest) (attempt remaining : nat) (last_transport : option JoiningServiceError)
    : result R JoiningServiceError * list HttpRequest :=
  match remaining with
  | O => (Err (default Unavailable last_transport), [])
  | S remaining =>
      let again last_transport :=
        let '(r, sent) := attempts answer of_json expected_status request (S attempt) remaining last_transport in
        (r, request :: sent) in
      match answer attempt with
      | Responded response =>
          if retryable_status (rs_status response) && (S attempt <? MAX_ATTEMPTS)%nat then again last_transport
          else
            match decode_response of_json response expected_status with
            | Ok response => (Ok response, [request])
            | Err (Retryable error) =>
                if (S attempt <? MAX_ATTEMPTS)%nat then again (Some error) else (Err error, [request])
            | Err (Final error) => (Err error, [request])
            end
      | SendFailed is_timeout => again (Some (if is_timeout : bool then ServiceTimeout else Unavailable))
      end
  end.

Definition post {R} (client : Client) (answer : nat -> Sent) (uuid path : bytes) (json : option bytes)
    (of_json : bytes -> option R) (expected_status : Z) : result R JoiningServiceError * list HttpRequest :=
  match json with
  | None => (Err InvalidRequest, [])
  | Some body =>
      if BODY_LIMIT <? len body then (Err BodyTooLarge, [])
      else
        match url_join (cl_base_url client) path with
        | None => (Err InvalidUrl, [])
        | Some url =>
            attempts answer of_json expected_status (mkHttpRequest url (cl_headers client) uuid body) 0 MAX_ATTEMPTS None
        end
  end.

(** ** Invitations *)

Definition create (client : Client) (answer : nat -> Sent) (uuid inviter_ticket : bytes) (ttl : Z)
    : result CreatedInvitation JoiningServiceError * list HttpRequest :=
  if bool_decide (inviter_ticket = []) || (TICKET_LIMIT <? len inviter_ticket) then (Err InvalidTicket, [])
  else
    let ttl_seconds := as_secs ttl in
    if negb ((60 <=? ttl_seconds) && (ttl_seconds <=? 900)) then (Err InvalidTtl, [])
    else
      let '(r, sent) :=
        post client answer uuid (lit "v1/invitations")
          (create_request_json (mkCreateRequest (lit "skillsync/1") inviter_ticket ttl_seconds))
          create_response_of_json 201 in
      (let? response := r in
       let? _ := validate_code (cr_code response) in
       let? join_nonce := decode_nonce (cr_join_nonce response) in
       let? _ := validate_timestamp (cr_expires_at response) in
       Ok (mkCreated (cr_code response) join_nonce (cr_expires_at response)), sent).

Definition claim_invitation (client : Client) (answer : nat -> Sent) (uuid code : bytes)
    : result ClaimedInvitation JoiningServiceError * list HttpRequest :=
  match validate_code code with
  | Err e => (Err e, [])
  | Ok _ =>
      let '(r, sent) :=
        post client answer uuid (lit "v1/invitations/claim") (claim_request_json code) claim_response_of_json 200 in
      (let? response := r in
       if negb (bool_decide (cl_protocol response = lit "skillsync/1"))
          || bool_decide (cl_inviter_ticket response = []) || (TICKET_LIMIT <? len (cl_inviter_ticket response))
       then Err InvalidResponse
       else
         let? _ := validate_timestamp (cl_expires_at response) in
         let? join_nonce := decode_nonce (cl_join_nonce response) in
         Ok (mkClaimed (cl_inviter_ticket response) join_nonce (cl_expires_at response)), sent)
  end.
End service.
