(* ===== verification/ServiceProps.v ===== *)
(** What a caller of the joining service can rely on. *)

From S2P Require Import Prelude Bytes Platform Settings Service.

Section laws.
Context `{ServiceCodec}.

Lemma expected_Ok {R} (b : bool) (parsed : option R) (envelope : option ServiceErrorBody) (f : ServiceErrorBody -> bool)
    status x :
  (if b then ok_or parsed (Final InvalidResponse)
   else
     let? envelope := ok_or envelope (Final InvalidResponse) in
     if f envelope then Err (Final InvalidResponse) else Err (Final (Service status))) = Ok x ->
  b = true /\ parsed = Some x.
Proof. destruct b; intros E; [by apply ok_or_Ok in E|]. apply rbind_Ok in E as (e & _ & E). by destruct (f e). Qed.

(** A body that is read is within the limit and complete, as far as its length
    was announced. *)
Lemma decode_response_Ok {R} (of_json : bytes -> option R) response expected x :
  decode_response of_json response expected = Ok x ->
  rs_status response = expected /\ rs_failure response = None /\ len (rs_body response) <= BODY_LIMIT /\
  (forall length, rs_content_length response = Some length -> length = len (rs_body response)) /\
  of_json (rs_body response) = Some x.
Proof.
  unfold decode_response. intros E. destruct (match rs_content_length response with Some _ => _ | None => _ end); [done|].
  apply rbind_Ok in E as (body & Hb & E). destruct (Z.ltb_spec BODY_LIMIT (len body)) as [|Hle]; [done|].
  assert (body = rs_body response /\ rs_failure response = None) as [-> Hf].
  { unfold read_body in Hb. destruct (Z.leb_spec (BODY_LIMIT + 1) (len (rs_body response))).
    - injection Hb as <-. unfold len in *. rewrite length_take in Hle. unfold BODY_LIMIT in *. lia.
    - destruct (rs_failure response); [done|]. by injection Hb as <-. }
  destruct (match rs_content_length response with Some _ => _ | None => _ end) eqn:Hc; [done|].
  apply (expected_Ok _ _ _ (fun e => bool_decide (se_code e = []) || (128 <? len (se_code e))
    || bool_decide (se_message e = []) || (1024 <? len (se_message e)))) in E as [Hs%Z.eqb_eq Hj].
  split; [done|]. split; [done|]. split; [done|]. split; [|done].
  intros n Hn. rewrite Hn in Hc. apply negb_false_iff, Z.eqb_eq in Hc. done.
Qed.

(** What an answer must be for a request to be sent again. *)
Definition answers_retryably {R} (of_json : bytes -> option R) (expected : Z) (a : Sent) : Prop :=
  match a with
  | Responded response =>
      retryable_status (rs_status response) = true \/
      exists e, decode_response of_json response expected = Err (Retryable e)
  | SendFailed _ => True
  end.

(** [n] requests were sent, from an attempt on, with the result [r]: each but the
    last was answered so that it may be sent again, and a result that is good
    is what the answer to the last one says. *)
Definition delivered {R} (answer : nat -> Sent) (of_json : bytes -> option R) (expected : Z) (attempt n : nat)
    (r : result R JoiningServiceError) : Prop :=
  (forall i, (S i < n)%nat -> answers_retryably of_json expected (answer (attempt + i)%nat)) /\
  (forall x, r = Ok x -> exists i response, n = S i /\ answer (attempt + i)%nat = Responded response /\
     decode_response of_json response expected = Ok x).

Lemma delivered_once {R} answer (of_json : bytes -> option R) expected attempt r :
  (forall x, r = Ok x -> exists response, answer attempt = Responded response /\
     decode_response of_json response expected = Ok x) ->
  delivered answer of_json expected attempt 1 r.
Proof.
  intros Hr. split; [lia|]. intros x (response & Ha & Hd)%Hr. exists 0%nat, response. by rewrite Nat.add_0_r.
Qed.

Lemma delivered_again {R} answer (of_json : bytes -> option R) expected attempt n r :
  answers_retryably of_json expected (answer attempt) -> delivered answer of_json expected (S attempt) n r ->
  delivered answer of_json expected attempt (S n) r.
Proof.
  intros Ha [Hall Hr]. split.
  - intros [|i] Hi; [by rewrite Nat.add_0_r|]. rewrite Nat.add_succ_r. apply Hall. lia.
  - intros x (i & response & -> & Hi & Hd)%Hr. exists (S i), response. by rewrite Nat.add_succ_r.
Qed.

Lemma attempts_delivered {R} answer (of_json : bytes -> option R) expected request remaining :
  forall attempt last r sent,
  attempts answer of_json expected request attempt remaining last = (r, sent) ->
  exists n, (n <= remaining)%nat /\ sent = replicate n request /\ delivered answer of_json expected attempt n r.
Proof.
  induction remaining as [|remaining IH]; intros attempt last r sent E; cbn [attempts] in E.
  - injection E as <- <-. exists 0%nat. split; [done|]. split; [done|]. split; [lia | done].
  - assert (forall last, answers_retryably of_json expected (answer attempt) ->
      (let '(r, sent) := attempts answer of_json expected request (S attempt) remaining last in (r, request :: sent))
        = (r, sent) ->
      exists n, (n <= S remaining)%nat /\ sent = replicate n request /\ delivered answer of_json expected attempt n r)
      as Hagain.
    { intros last' Ha E'. destruct (attempts _ _ _ _ _ remaining last') as [r' sent'] eqn:E2. injection E' as <- <-.
      apply IH in E2 as (n & Hn & -> & Hd). exists (S n). split; [lia|]. split; [done|]. by apply delivered_again. }
    assert (forall r', (r', [request]) = (r, sent) ->
      (forall x, r' = Ok x -> exists response, answer attempt = Responded response /\
         decode_response of_json response expected = Ok x) ->
      exists n, (n <= S remaining)%nat /\ sent = replicate n request /\ delivered answer of_json expected attempt n r)
      as Honce.
    { intros r' [= <- <-] Hr. exists 1%nat. split; [lia|]. split; [done|]. by apply delivered_once. }
    destruct (answer attempt) as [response|t] eqn:Ea; [|by eapply Hagain].
    destruct (retryable_status _ && _) eqn:Eretry; [apply andb_true_iff in Eretry as [? _]; eapply Hagain; [by left | exact E]|].
    destruct (decode_response of_json response expected) as [x|[e|e]] eqn:Ed.
    + apply (Honce _ E). intros y [= <-]. eauto.
    + destruct (_ <? _)%nat; [eapply Hagain; [right; eauto | exact E] | by apply (Honce _ E)].
    + by apply (Honce _ E).
Qed.

(** What a call sends, and what its result is: the same request with the caller's
    idempotency key and a bounded body, at most twice. *)
Definition called {R} (answer : nat -> Sent) (of_json : bytes -> option R) (expected : Z) (uuid : bytes)
    (sent : list HttpRequest) (r : result R JoiningServiceError) : Prop :=
  (length sent <= 2)%nat /\ delivered answer of_json expected 0 (length sent) r /\
  (forall q q', q ∈ sent -> q' ∈ sent -> q = q') /\
  (forall q, q ∈ sent -> hq_idempotency_key q = uuid /\ len (hq_body q) <= BODY_LIMIT).

Lemma called_none {R} answer (of_json : bytes -> option R) expected uuid e : called answer of_json expected uuid [] (Err e).
Proof. split; [simpl; lia|]. split; [split; [simpl; lia | done]|]. by split; intros q; [intros q'|]; intros []%not_elem_of_nil. Qed.

Lemma post_called {R} client answer uuid path json (of_json : bytes -> option R) expected r sent :
  post client answer uuid path json of_json expected = (r, sent) -> called answer of_json expected uuid sent r.
Proof.
  unfold post. intros E. destruct json as [body|]; [|injection E as <- <-; apply called_none].
  destruct (Z.ltb_spec BODY_LIMIT (len body)); [injection E as <- <-; apply called_none|].
  destruct (url_join _ _) as [url|]; [|injection E as <- <-; apply called_none].
  apply attempts_delivered in E as (n & Hn & -> & Hd). split; [by rewrite length_replicate|].
  split; [by rewrite length_replicate|]. split; [intros q q' [-> _]%elem_of_replicate [-> _]%elem_of_replicate; done|].
  by intros q [-> _]%elem_of_replicate.
Qed.

Lemma called_Ok {R} answer (of_json : bytes -> option R) expected uuid sent x :
  called answer of_json expected uuid sent (Ok x) ->
  exists response, Responded response = answer (pred (length sent)) /\ rs_status response = expected /\
    len (rs_body response) <= BODY_LIMIT /\ of_json (rs_body response) = Some x.
Proof.
  intros (_ & [_ Hr] & _). destruct (Hr x eq_refl) as (i & response & Hn & Ha & Hd).
  apply decode_response_Ok in Hd as (Hs & _ & Hl & _ & Hj). exists response. rewrite Hn. simpl in *. by rewrite Ha.
Qed.

(** The requests of a call: at most two, the same, with the caller's key and a
    bounded body, and a second one only when the first answer allows it. *)
Definition requests_ok {R} (answer : nat -> Sent) (of_json : bytes -> option R) (expected : Z) (uuid : bytes)
    (sent : list HttpRequest) : Prop :=
  (length sent <= 2)%nat /\
  (length sent = 2%nat -> answers_retryably of_json expected (answer 0%nat)) /\
  (forall q q', q ∈ sent -> q' ∈ sent -> q = q') /\
  (forall q, q ∈ sent -> hq_idempotency_key q = uuid /\ len (hq_body q) <= BODY_LIMIT).

Lemma called_requests {R} answer (of_json : bytes -> option R) expected uuid sent r :
  called answer of_json expected uuid sent r -> requests_ok answer of_json expected uuid sent.
Proof. intros (Hn & [Hret _] & Hsame & Hall). split; [done|]. split; [|done]. intros H2. apply (Hret 0%nat). lia. Qed.

(** The last answer is a response that says [x]. *)
Definition last_answer_says {R} (answer : nat -> Sent) (of_json : bytes -> option R) (expected : Z)
    (sent : list HttpRequest) (x : R) : Prop :=
  exists response, Responded response = answer (pred (length sent)) /\ rs_status response = expected /\
    len (rs_body response) <= BODY_LIMIT /\ of_json (rs_body response) = Some x.

Lemma decode_nonce_Ok text nonce : decode_nonce text = Ok nonce -> base64url_decode text = Some (arr nonce).
Proof. unfold decode_nonce. intros E. inv_ok. apply to_array_Some in E. congruence. Qed.

Lemma len_nonempty {A} (l : list A) : l <> [] -> 1 <= len l.
Proof. destruct l; [done|]. intros _. rewrite len_cons. pose proof (len_nonneg l). lia. Qed.

Lemma create_spec client answer uuid ticket ttl :
  let '(r, sent) := create client answer uuid ticket ttl in
  (sent <> [] -> 1 <= len ticket <= TICKET_LIMIT /\ 60 <= as_secs ttl <= 900) /\
  requests_ok answer create_response_of_json 201 uuid sent /\
  forall invitation, r = Ok invitation -> exists said,
    last_answer_says answer create_response_of_json 201 sent said /\
    ci_code invitation = cr_code said /\ validate_code (ci_code invitation) = Ok tt /\
    base64url_decode (cr_join_nonce said) = Some (arr (ci_join_nonce invitation)) /\
    ci_expires_at invitation = cr_expires_at said /\ validate_timestamp (ci_expires_at invitation) = Ok tt.
Proof.
  unfold create. destruct (_ || _) eqn:Ht.
  { split; [done|]. split; [eapply called_requests, (called_none _ _ _ _ InvalidTicket) | done]. }
  destruct (negb _) eqn:Httl.
  { split; [done|]. split; [eapply called_requests, (called_none _ _ _ _ InvalidTtl) | done]. }
  destruct (post _ _ _ _ _ _ _) as [r sent] eqn:Ep. apply post_called in Ep.
  split.
  { intros _. apply orb_false_iff in Ht as [Hne%bool_decide_eq_false_1%len_nonempty Hl]. lia. }
  split; [by eapply called_requests|]. intros invitation Hr. apply rbind_Ok in Hr as (said & -> & Hr).
  exists said. split; [by eapply called_Ok|]. inv_ok. simpl.
  split; [done|]. split; [done|]. split; [by apply decode_nonce_Ok|]. done.
Qed.

Lemma claim_spec client answer uuid code :
  let '(r, sent) := claim_invitation client answer uuid code in
  (sent <> [] -> validate_code code = Ok tt) /\
  requests_ok answer claim_response_of_json 200 uuid sent /\
  forall invitation, r = Ok invitation -> exists said,
    last_answer_says answer claim_response_of_json 200 sent said /\
    cl_protocol said = lit "skillsync/1" /\ cd_inviter_ticket invitation = cl_inviter_ticket said /\
    1 <= len (cd_inviter_ticket invitation) <= TICKET_LIMIT /\
    base64url_decode (cl_join_nonce said) = Some (arr (cd_join_nonce invitation)) /\
    cd_expires_at invitation = cl_expires_at said /\ validate_timestamp (cd_expires_at invitation) = Ok tt.
Proof.
  unfold claim_invitation. destruct (validate_code code) as [[]|e].
  2: { split; [done|]. split; [eapply called_requests, (called_none _ _ _ _ e) | done]. }
  destruct (post _ _ _ _ _ _ _) as [r sent] eqn:Ep. apply post_called in Ep. split; [done|].
  split; [by eapply called_requests|]. intros invitation Hr. apply rbind_Ok in Hr as (said & -> & Hr).
  exists said. split; [by eapply called_Ok|]. destruct (_ || _) eqn:Hc; [done|].
  apply orb_false_iff in Hc as [[Hp Hne%bool_decide_eq_false_1%len_nonempty]%orb_false_iff Hl].
  apply negb_false_iff, bool_decide_eq_true in Hp. inv_ok. simpl.
  split; [done|]. split; [done|]. split; [lia|]. split; [by apply decode_nonce_Ok|]. done.
Qed.
End laws.

(** C32: The service is asked at most twice and believed within limits.  Creating
    or claiming an invitation sends nothing unless the ticket and its lifetime,
    or the code, are valid; it sends the same request at most twice, under one
    idempotency key, and again only when the first answer was a failure to send,
    a status that says to retry or a body that broke off.  A result is what the
    last answer says: its status is the expected one, its body at most 32 KiB
    long, its code, nonce, ticket and expiry valid. *)
Theorem invitation_calls `{ServiceCodec} client answer uuid :
  (forall ticket ttl, let '(r, sent) := create client answer uuid ticket ttl in
     (sent <> [] -> 1 <= len ticket <= TICKET_LIMIT /\ 60 <= as_secs ttl <= 900) /\
     requests_ok answer create_response_of_json 201 uuid sent /\
     forall invitation, r = Ok invitation -> exists said,
       last_answer_says answer create_response_of_json 201 sent said /\
       ci_code invitation = cr_code said /\ validate_code (ci_code invitation) = Ok tt /\
       base64url_decode (cr_join_nonce said) = Some (arr (ci_join_nonce invitation)) /\
       ci_expires_at invitation = cr_expires_at said /\ validate_timestamp (ci_expires_at invitation) = Ok tt) /\
  (forall code, let '(r, sent) := claim_invitation client answer uuid code in
     (sent <> [] -> validate_code code = Ok tt) /\
     requests_ok answer claim_response_of_json 200 uuid sent /\
     forall invitation, r = Ok invitation -> exists said,
       last_answer_says answer claim_response_of_json 200 sent said /\
       cl_protocol said = lit "skillsync/1" /\ cd_inviter_ticket invitation = cl_inviter_ticket said /\
       1 <= len (cd_inviter_ticket invitation) <= TICKET_LIMIT /\
       base64url_decode (cl_join_nonce said) = Some (arr (cd_join_nonce invitation)) /\
       cd_expires_at invitation = cl_expires_at said /\ validate_timestamp (cd_expires_at invitation) = Ok tt).
Proof.
  split.
  - intros ticket ttl. apply create_spec.
  - intros code. apply claim_spec.
Qed.
