(* ===== verification/Control.v ===== *)
(** daemon.rs: the control protocol of the daemon: requests, responses, their
    frames, and the values that report the state of the store.

    serde_json is a crate: a [Value] is what the sources build with [json!], an
    object's members in the order of their keys, and its text is a parameter of
    the operations that need it. *)

From S2P Require Import Prelude Bytes Utf8 Cursor Canonical Path Identity Records Roster Protocol.
From S2P Require Import Database State RosterStore Platform Installer Join Network Scan Settings Setup.

Definition REQUEST_LIMIT : Z := 64 * 1024.
Definition RESPONSE_LIMIT : Z := 512 * 1024.
Definition LOG_PAGE_LIMIT : Z := 64.
Definition MAX_PENDING_SYNC_WAITS : Z := 8.
Definition SYNC_WAIT_TIMEOUT : Z := 45 * SECOND.

Inductive ControlRequest :=
  | Status
  | Collections
  | AddCollection (name path : bytes)
  | RemoveCollection (name : bytes)
  | Logs (after_id limit : Z)
  | ScanNow
  | SyncNow (wait : bool)
  | GetEndpointAddr
  | Peers
  | RemovePeer (peer : bytes)
  | ActivateInvitation (nonce : array 32) (lifetime_seconds : Z)
  | PendingJoinRequest
  | DecideJoin (request_id : bytes) (approve : bool)
  | Shutdown.

Inductive DaemonError :=
  | DIo (e : IoError)
  | RequestTimeout   (* [WouldBlock], [TimedOut] or [Interrupted] *)
  | DJson
  | DProtocol (what : String.string)
  | DFrameTooLarge
  | MissingNewline
  | AlreadyRunning
  | DefaultCollection
  | InvalidCollectionName
  | UnknownPeer
  | AmbiguousPeer
  | DNotify
  | DSetup (e : SetupError)
  | DScan (e : FilesystemError)
  | DState (e : StateError)
  | DNetwork (e : NetworkError)
  | DLock (e : ProcessLockError)
  | DPanic.          (* no error of the sources: the daemon panics *)

Inductive Value :=
  | VNull
  | VBool (b : bool)
  | VNumber (n : Z)
  | VString (s : bytes)
  | VArray (l : list Value)
  | VObject (members : list (bytes * Value)).

(** [json!] of an object: a map that is in the order of its keys. *)
Definition object (members : list (bytes * Value)) : Value := VObject (sort_by fst members).

(** What [json!] can build. *)
Fixpoint sorted_keys (keys : list bytes) : bool :=
  match keys with
  | x :: ((y :: _) as keys) => ltb x y && sorted_keys keys
  | _ => true
  end.
Fixpoint shaped (v : Value) : bool :=
  match v with
  | VArray l => forallb shaped l
  | VObject members => sorted_keys (map fst members) && forallb (fun m => shaped m.2) members
  | _ => true
  end.

(** [json!] of a path panics when it is not text. *)
Definition json_path (path : bytes) : option Value := if utf8_valid path then Some (VString path) else None.

(** The message of an error is its text: the sources' own, the [Display] of an
    error, or one that came over the socket. *)
Inductive Message :=
  | Text (s : String.string)
  | Shown (e : DaemonError)
  | Heard (text : bytes).

Record ControlError := mkControlError { error_code : bytes; error_message : Message }.
Record ControlResponse := mkControlResponse {
  cr_ok : bool;
  cr_result : option Value;
  cr_error : option ControlError;
}.

Definition success (result : Value) : ControlResponse := mkControlResponse true (Some result) None.
Definition failure (code : bytes) (message : Message) : ControlResponse :=
  mkControlResponse false None (Some (mkControlError code message)).
Definition operation_failed (message : Message) : ControlResponse := failure (lit "daemon_operation_failed") message.

(** ** Frames *)

(** The first line of what arrives, with its end, and whether there is one. *)
Fixpoint read_until_newline (data : bytes) : bytes * bool :=
  match data with
  | [] => ([], false)
  | b :: data =>
      if bool_decide (b = "010"%byte) then ([b], true)
      else let '(line, found) := read_until_newline data in (b :: line, found)
  end.

(** A stream: what arrives, and how it ends. *)
Record Incoming := mkIncoming { in_data : bytes; in_failure : option DaemonError }.

Definition read_frame (stream : Incoming) (limit : Z) : result bytes DaemonError :=
  let taken := take (Z.to_nat (limit + 2)) (in_data stream) in
  let '(frame, found) := read_until_newline taken in
  if found : bool then
    let frame := removelast frame in
    if limit <? len frame then Err DFrameTooLarge else Ok frame
  else
    match in_failure stream with
    | Some e => if len (in_data stream) <? limit + 2 then Err e
                else Err DFrameTooLarge
    | None => if limit <=? len frame then Err DFrameTooLarge else Err MissingNewline
    end.

Definition read_request (request_of_json : bytes -> option ControlRequest) (stream : Incoming)
    : result ControlRequest DaemonError :=
  let? frame := read_frame stream REQUEST_LIMIT in
  ok_or (request_of_json frame) DJson.

Definition control_request_failure (error : DaemonError) : ControlResponse :=
  match error with
  | RequestTimeout => failure (lit "request_timeout") (Text "daemon control request timed out")
  | _ => failure (lit "invalid_request") (Shown error)
  end.

(** What [write_response] writes. *)
Definition response_frame (to_json : ControlResponse -> option bytes) (response : ControlResponse)
    : result bytes DaemonError :=
  let? encoded := ok_or (to_json response) DJson in
  let? encoded :=
    if RESPONSE_LIMIT <? len encoded
    then ok_or (to_json (failure (lit "response_too_large") (Text "daemon response exceeds the control limit"))) DJson
    else Ok encoded in
  if RESPONSE_LIMIT <? len encoded then Err DFrameTooLarge else Ok (encoded ++ ["010"%byte]).

(** What [send_request] writes, and how it reads the answer. *)
Definition request_frame (to_json : ControlRequest -> option bytes) (request : ControlRequest) : result bytes DaemonError :=
  let? encoded := ok_or (to_json request) DJson in
  if REQUEST_LIMIT <? len encoded then Err DFrameTooLarge else Ok (encoded ++ ["010"%byte]).
Definition read_response (response_of_json : bytes -> option ControlResponse) (stream : Incoming)
    : result ControlResponse DaemonError :=
  let? frame := read_frame stream RESPONSE_LIMIT in
  ok_or (response_of_json frame) DJson.

(** serde's text of the requests and responses. *)
Class ControlJson := {
  request_to_json : ControlRequest -> option bytes;
  request_of_json : bytes -> option ControlRequest;
  response_to_json : ControlResponse -> option bytes;
  response_of_json : bytes -> option ControlResponse;
  message_text : Message -> bytes;
}.

(** ** Logs *)

Definition event_name (event : OperationalEvent) : bytes :=
  match event with
  | DaemonStarted => lit "daemon_started"
  | DaemonStopped => lit "daemon_stopped"
  | CollectionAttached _ => lit "collection_attached"
  | CollectionDetached _ => lit "collection_detached"
  | CollectionPaused _ => lit "collection_paused"
  | CollectionScanned _ => lit "collection_scanned"
  | CollectionWarning _ _ SymlinkEscape => lit "symlink_escape"
  | CollectionWarning _ _ SymlinkCycle => lit "symlink_cycle"
  | CollectionWarning _ _ PathRejected => lit "path_rejected"
  | CollectionWarning _ _ TimestampRejected => lit "timestamp_rejected"
  | RecordAccepted _ _ _ => lit "record_accepted"
  | RecordRejected _ _ _ _ _ _ _ => lit "record_rejected"
  | FileInstalled _ _ => lit "file_installed"
  | FileApplyRejected _ _ => lit "file_apply_rejected"
  | RepairRequired _ _ => lit "repair_required"
  | PeerUnreachable _ => lit "peer_unreachable"
  | PeerAttempted _ => lit "peer_attempted"
  | PeerSynchronized _ => lit "peer_synchronized"
  | PeerRejected _ => lit "peer_rejected"
  | PeerSessionFailed _ => lit "peer_session_failed"
  | FileSent _ _ _ => lit "file_sent"
  | FileReceived _ _ _ => lit "file_received"
  | TransferRejected _ _ _ => lit "transfer_rejected"
  end.

Definition level_name (l : LogLevel) : bytes :=
  match l with Debug => lit "debug" | Info => lit "info" | Warn => lit "warn" end.

Definition v_collection (collection : bytes) : bytes * Value := (lit "collection", VString collection).
Definition v_path (path : ProtocolPath) : bytes * Value := (lit "path", VString (path_str path)).
Definition v_peer (peer : EndpointId) : bytes * Value := (lit "peer_endpoint", VString (eid_to_string peer)).

Definition event_members (event : OperationalEvent) : list (bytes * Value) :=
  match event with
  | CollectionAttached c | CollectionDetached c | CollectionPaused c | CollectionScanned c => [v_collection c]
  | CollectionWarning c path _ => v_collection c :: match path with Some path => [v_path path] | None => [] end
  | RecordAccepted c path _ | FileInstalled c path | FileApplyRejected c path | RepairRequired c path =>
      [v_collection c; v_path path]
  | RecordRejected c path _ candidate_modified_ns candidate_author winner_modified_ns winner_author =>
      [v_collection c; v_path path;
       (lit "candidate_modified_ns", VNumber candidate_modified_ns);
       (lit "candidate_author", VString (eid_to_string candidate_author));
       (lit "winner_modified_ns", VNumber winner_modified_ns);
       (lit "winner_author", VString (eid_to_string winner_author))]
  | PeerUnreachable peer | PeerAttempted peer | PeerSynchronized peer | PeerRejected peer | PeerSessionFailed peer =>
      [v_peer peer]
  | FileSent c path peer | FileReceived c path peer | TransferRejected c path peer =>
      [v_collection c; v_path path; v_peer peer]
  | DaemonStarted | DaemonStopped => []
  end.

Definition log_value (log : OperationalLog) : Value :=
  object ([(lit "id", VNumber (ol_id log)); (lit "created_ns", VNumber (ol_created_ns log));
            (lit "level", VString (level_name (level (ol_event log))));
            (lit "event", VString (event_name (ol_event log)))] ++ event_members (ol_event log)).

Definition log_page_value (page : OperationalLogPage) : Value :=
  object [(lit "logs", VArray (map log_value (page_logs page)));
           (lit "next_after_id", VNumber (page_next_after_id page)); (lit "has_more", VBool (page_has_more page))].

(** ** Reports *)

Definition collection_report (c : CollectionState) : bytes * bytes :=
  match cs_scan_status c with
  | ScanPending => (lit "pending", lit "scan_pending")
  | ScanMissing => (lit "paused", lit "root_missing")
  | ScanNotDirectory => (lit "paused", lit "root_not_directory")
  | ScanError => (lit "paused", lit "scan_error")
  | ScanActive =>
      match cs_watch_status c with
      | WatchPending => (lit "active", lit "watch_pending")
      | WatchActive => (lit "active", lit "none")
      | WatchRootUnavailable => (lit "degraded", lit "watch_root_unavailable")
      | WatchBackendError => (lit "degraded", lit "watch_backend_error")
      end
  end.

(** [None] is a panic of [json!]. *)
Definition collection_value (c : CollectionState) : option Value :=
  let '(state, reason) := collection_report c in
  match json_path (cs_local_path c) with
  | Some path =>
      Some (object [(lit "name", VString (cs_name c)); (lit "path", path);
                    (lit "state", VString state); (lit "reason", VString reason)])
  | None => None
  end.

Section values.
Context `{Crypto, EventJson}.

Definition DbD (A : Type) : Type := Database -> result A DaemonError * Database.
Definition ddb {A} (m : Db A) : DbD A := fun db => let '(r, db) := m db in (map_err DState r, db).

Definition logs_page_value (after_id limit : Z) : Db Value :=
  page <<- logs_page after_id (Z.min limit LOG_PAGE_LIMIT) ;;
  dret (log_page_value page).

Definition collections_value : DbD Value :=
  fun db =>
    match ddb collections db with
    | (Ok found, db) =>
        (match mapM collection_value found with
         | Some values => Ok (object [(lit "collections", VArray values)])
         | None => Err DPanic
         end, db)
    | (Err e, db) => (Err e, db)
    end.

Fixpoint count_reachable (peers : list EndpointId) (online : Z) : Db Z :=
  match peers with
  | [] => dret online
  | peer :: peers =>
      reachable <<- peer_reachable peer ;;
      count_reachable peers (if reachable : bool then online + 1 else online)
  end.

Definition status_value (device_name : bytes) (endpoint : EndpointId) : Db Value :=
  counts <<- local_counts ;;
  chain <<- selected_roster_chain ;;
  let selected_name := default device_name (name_in_tip chain endpoint) in
  let members := match last chain with Some tip => map fst (items (rev_members tip)) | None => [] end in
  let others := List.filter (fun peer => negb (bool_decide (peer = endpoint))) members in
  online <<- count_reachable others 0 ;;
  dret (object
    [(lit "device", object [(lit "name", VString selected_name); (lit "endpoint_id", VString (eid_to_string endpoint))]);
     (lit "daemon", VString (lit "running"));
     (lit "peers", object [(lit "known", VNumber (len others)); (lit "online", VNumber online)]);
     (lit "files", object [(lit "synchronized", VNumber counts.1); (lit "degraded", VNumber counts.2)])]).

Fixpoint peer_values (members : list (EndpointId * bytes)) (local_endpoint : EndpointId) : Db (list Value) :=
  match members with
  | [] => dret []
  | (endpoint, name) :: members =>
      let local := bool_decide (endpoint = local_endpoint) in
      online <<- (if local then dret true else peer_reachable endpoint) ;;
      rest <<- peer_values members local_endpoint ;;
      dret (object [(lit "name", VString name); (lit "endpoint_id", VString (eid_to_string endpoint));
                     (lit "local", VBool local); (lit "online", VBool online)] :: rest)
  end.

(** [chain.last().ok_or(..)] *)
Definition local_tip : DbD RosterRevision :=
  fun db =>
    match ddb selected_roster_chain db with
    | (Ok chain, db) => (ok_or (last chain) (DProtocol "local roster is missing"), db)
    | (Err e, db) => (Err e, db)
    end.

Definition peers_value (local_endpoint : EndpointId) : DbD Value :=
  fun db =>
    match local_tip db with
    | (Ok tip, db) => ddb (peers <<- peer_values (items (rev_members tip)) local_endpoint ;;
                           dret (object [(lit "peers", VArray peers)])) db
    | (Err e, db) => (Err e, db)
    end.

Definition resolve_name (tip : RosterRevision) (query : bytes) : result EndpointId DaemonError :=
  match List.filter (fun m => bool_decide (m.2 = query)) (items (rev_members tip)) with
  | [(endpoint, _)] => Ok endpoint
  | [] => Err UnknownPeer
  | _ => Err AmbiguousPeer
  end.
Definition resolve_in (tip : RosterRevision) (query : bytes) : result EndpointId DaemonError :=
  match eid_from_str query with
  | Ok endpoint => if bool_decide (is_Some (rev_members tip !! endpoint)) then Ok endpoint else resolve_name tip query
  | Err _ => resolve_name tip query
  end.

Definition resolve_peer (query : bytes) : DbD EndpointId :=
  fun db =>
    match local_tip db with
    | (Ok tip, db) => (resolve_in tip query, db)
    | (Err e, db) => (Err e, db)
    end.
End values.
