(* ===== verification/ControlLaws.v ===== *)
(** The control protocol: what is relied on of serde_json, and that a request and
    a response arrive as they were sent. *)

From S2P Require Import Prelude Bytes Utf8 Cursor Canonical Path Identity Records Roster Protocol.
From S2P Require Import Database State RosterStore Platform Installer Join Network Scan Settings Setup Control.

(** What is left of a response on the way: of an error, its text. *)
Definition heard `{ControlJson} (response : ControlResponse) : ControlResponse :=
  mkControlResponse (cr_ok response) (cr_result response)
    (option_map (fun e => mkControlError (error_code e) (Heard (message_text (error_message e)))) (cr_error response)).
(** A response that can be read back: a result of null is not, since serde takes
    it for no result. *)
Definition shaped_response (response : ControlResponse) : bool :=
  match cr_result response with None => true | Some VNull => false | Some value => shaped value end.

(** A value is read back from its text, which has no line break, since serde_json
    escapes it; a path that is not text is refused. *)
Class ControlJsonLaws `{ControlJson} : Prop := {
  request_read_back request line :
    request_to_json request = Some line -> request_of_json line = Some request /\ "010"%byte ∉ line;
  request_path_text name path line : request_to_json (AddCollection name path) = Some line -> utf8_valid path = true;
  response_read_back response line :
    shaped_response response = true -> response_to_json response = Some line ->
    response_of_json line = Some (heard response) /\ "010"%byte ∉ line;
}.

Lemma sorted_keys_strict {V} (members : list (bytes * V)) :
  StronglySorted (key_lt fst) members -> sorted_keys (map fst members) = true.
Proof.
  induction 1 as [|x l Hs IH Hx]; [done|]. destruct l as [|y l]; [done|]. cbn [map sorted_keys] in *. rewrite IH, andb_true_r.
  apply ltb_olt. by inversion Hx.
Qed.

Lemma shaped_object members :
  NoDup (map fst members) -> forallb (fun m => shaped m.2) members = true -> shaped (object members) = true.
Proof.
  intros Hnd Hv. unfold object. cbn [shaped]. rewrite sorted_keys_strict by by apply sort_by_strict.
  cbn [andb]. rewrite forallb_forall in Hv |- *.
  intros m Hm. apply Hv. apply list_elem_of_In. rewrite <-(sort_by_perm fst). by apply list_elem_of_In.
Qed.

(** The keys of an object that is written out. *)
Ltac shaped_object :=
  apply shaped_object; [apply (bool_decide_eq_true_1 _); vm_compute; reflexivity|].

(** ** Frames *)

Lemma read_until_line line rest : "010"%byte ∉ line -> read_until_newline (line ++ "010"%byte :: rest) = (line ++ ["010"%byte], true).
Proof.
  induction line as [|b line IH]; intros Hl; cbn [app read_until_newline].
  - by rewrite bool_decide_eq_true_2.
  - apply not_elem_of_cons in Hl as [Hb Hl]. rewrite bool_decide_eq_false_2 by congruence. by rewrite IH.
Qed.
Lemma read_frame_line line rest failure limit :
  "010"%byte ∉ line -> len line <= limit -> read_frame (mkIncoming (line ++ "010"%byte :: rest) failure) limit = Ok line.
Proof.
  intros Hl Hlen. unfold read_frame. cbn [in_data].
  assert (take (Z.to_nat (limit + 2)) (line ++ "010"%byte :: rest)
    = line ++ "010"%byte :: take (Z.to_nat (limit + 2) - length line - 1) rest) as ->.
  { unfold len in Hlen. rewrite take_app, (take_ge line) by lia. f_equal.
    destruct (Z.to_nat (limit + 2) - length line)%nat as [|n] eqn:En; [lia|]. cbn [take]. do 2 f_equal. lia. }
  rewrite read_until_line by done. rewrite removelast_last. by replace (limit <? len line) with false by lia.
Qed.

Section frames.
Context `{ControlJson, !ControlJsonLaws}.

(** A request arrives, whatever follows it. *)
Lemma request_arrives request frame rest failure :
  request_frame request_to_json request = Ok frame ->
  read_request request_of_json (mkIncoming (frame ++ rest) failure) = Ok request.
Proof.
  unfold request_frame. destruct (request_to_json request) as [line|] eqn:Et; [|done]. cbn [ok_or rbind].
  destruct (REQUEST_LIMIT <? len line) eqn:Hl; [done|]. intros [= <-]. destruct (request_read_back _ _ Et) as [Hback Hline].
  unfold read_request. rewrite <-app_assoc. cbn [app]. rewrite read_frame_line by (done || lia). cbn [rbind]. by rewrite Hback.
Qed.

(** What a response arrives as. *)
Definition too_large : ControlResponse :=
  failure (lit "response_too_large") (Text "daemon response exceeds the control limit").
Lemma response_arrives response frame rest failure :
  shaped_response response = true -> response_frame response_to_json response = Ok frame ->
  exists line, response_to_json response = Some line /\
    read_response response_of_json (mkIncoming (frame ++ rest) failure)
    = Ok (heard (if len line <=? RESPONSE_LIMIT then response else too_large)).
Proof.
  intros Hs E. unfold response_frame in E. destruct (response_to_json response) as [line|] eqn:Et; [|done].
  exists line. split; [done|]. cbn [ok_or rbind] in E. unfold read_response.
  assert (forall answer shown, shaped_response answer = true -> response_to_json answer = Some shown ->
    (if RESPONSE_LIMIT <? len shown then Err DFrameTooLarge else Ok (shown ++ ["010"%byte])) = Ok frame ->
    (let? line := read_frame (mkIncoming (frame ++ rest) failure) RESPONSE_LIMIT in ok_or (response_of_json line) DJson)
    = Ok (heard answer)) as Hread.
  { intros answer shown Ha Hw Hf. destruct (RESPONSE_LIMIT <? len shown) eqn:Hl; [done|]. injection Hf as <-.
    destruct (response_read_back _ _ Ha Hw) as [Hback Hline]. rewrite <-app_assoc. cbn [app].
    rewrite read_frame_line by (done || lia). cbn [rbind]. by rewrite Hback. }
  destruct (Z.leb_spec (len line) RESPONSE_LIMIT) as [Hle|Hgt].
  - replace (RESPONSE_LIMIT <? len line) with false in E by lia. by apply (Hread _ line).
  - replace (RESPONSE_LIMIT <? len line) with true in E by lia.
    destruct (response_to_json too_large) as [shown|] eqn:Ew; unfold too_large in Ew; rewrite Ew in E; [|done].
    cbn [ok_or rbind] in E. by apply (Hread _ shown).
Qed.
End frames.
