(* ===== verification/Daemon.v ===== *)
(** daemon.rs: the daemon: what it does on a request, on an event of a watcher and
    on its timer, and the turn of its loop.

    The network thread, the watchers and the clients are the environment: a turn
    is given the handle and the world as it finds them, the connections it
    accepts with what they sent, the events that came in, and its readings of
    the clock.  Watching a directory is notify's: [watch] says whether it can. *)

From S2P Require Import Prelude Bytes Utf8 Cursor Canonical Path Identity Records Roster Protocol.
From S2P Require Import Database State RosterStore Platform Installer Sync Join Network NetworkLoop NetworkHandle.
From S2P Require Import Scan Settings Setup Control.

Section daemon.
Context `{Crypto, Unicode, EventJson, Platform, Iroh, JoinCodec, !AmbientFs}.

(** What a request can change: the handle, the scanner's cache, the world. *)
Record Service := mkService {
  sv_handle : Handle;
  sv_comparisons : gmap bytes FilenameComparison;
  sv_world : World;
}.
Definition set_world (w : World) (s : Service) : Service := mkService (sv_handle s) (sv_comparisons s) w.
Definition set_handle (h : Handle) (s : Service) : Service := mkService h (sv_comparisons s) (sv_world s).

Definition DIO (A : Type) : Type := Service -> result A DaemonError * Service.
Definition sret {A} (a : A) : DIO A := fun s => (Ok a, s).
Definition sfail {A} (e : DaemonError) : DIO A := fun s => (Err e, s).
Definition slift {A} (r : result A DaemonError) : DIO A := fun s => (r, s).
Definition srbind {A B} (m : DIO A) (f : A -> DIO B) : DIO B :=
  fun s => match m s with (Ok a, s) => f a s | (Err e, s) => (Err e, s) end.
End daemon.

Declare Scope daemon_scope.
Delimit Scope daemon_scope with daemon.
Notation "x <=- m ;; k" := (srbind m (fun x => k))
  (at level 100, m at next level, right associativity) : daemon_scope.
Open Scope daemon_scope.

Section daemon.
Context `{Crypto, Unicode, EventJson, Platform, Iroh, JoinCodec, !AmbientFs}.

Definition on_world {A} (m : IO DaemonError A) : DIO A :=
  fun s => let '(r, w) := m (sv_world s) in (r, set_world w s).
Definition state_io {A} (m : Db A) : IO DaemonError A := imap_err DState (on_db m).
Definition sdb {A} (m : Db A) : DIO A := on_world (state_io m).
Definition sdbd {A} (m : Database -> result A DaemonError * Database) : DIO A :=
  fun s => let '(r, db) := m (w_db (sv_world s)) in (r, set_world (set_db (sv_world s) db) s).
Definition log_io (event : OperationalEvent) (max_logs : Z) : IO DaemonError unit :=
  now <== now_ns ;;
  state_io (append_log now event max_logs).
Definition daemon_log (event : OperationalEvent) (max_logs : Z) : DIO unit := on_world (log_io event max_logs).

(** ** Scanning *)

Definition scan_requires_network (summary : ScanSummary) : bool :=
  (0 <? sum_accepted summary) || (0 <? sum_tombstones summary) || (0 <? sum_repair_required summary).

Definition run_scan (scanner : Scanner) (c : CollectionState) (author : EndpointId)
    : DIO (result ScanSummary FilesystemError) :=
  fun s =>
    let '(r, comparisons, w) := scan_collection scanner c author (sv_comparisons s) (sv_world s) in
    (Ok r, mkService (sv_handle s) comparisons w).

Definition scan_collection_safely (scanner : Scanner) (c : CollectionState) (endpoint : EndpointId) : DIO bool :=
  scanned <=- run_scan scanner c endpoint ;;
  match scanned with
  | Ok summary => sret (scan_requires_network summary)
  | Err _ =>
      _ <=- sdb (set_collection_scan_status (cs_name c) ScanError) ;;
      _ <=- daemon_log (CollectionPaused (cs_name c)) (sc_max_logs scanner) ;;
      sret false
  end.

Fixpoint scan_each (scanner : Scanner) (endpoint : EndpointId) (cs : list CollectionState) (changed : bool) : DIO bool :=
  match cs with
  | [] => sret changed
  | c :: cs =>
      one <=- scan_collection_safely scanner c endpoint ;;
      scan_each scanner endpoint cs (changed || one)
  end.
Definition scan_all (scanner : Scanner) (endpoint : EndpointId) : DIO bool :=
  cs <=- sdb collections ;;
  scan_each scanner endpoint cs false.

(** ** Watching *)

Definition watch_failed (name : bytes) (status : CollectionWatchStatus) (max_logs : Z) : DIO unit :=
  _ <=- sdb (set_collection_watch_status name status) ;;
  daemon_log (CollectionPaused name) max_logs.

(** The roots that are watched, in order. *)
Fixpoint build_each (watch : bytes -> bool) (max_logs : Z) (cs : list CollectionState) : DIO (list bytes) :=
  match cs with
  | [] => sret []
  | c :: cs =>
      canonical <=- (fun s => let '(r, fs) := canonicalize (cs_local_path c) (w_fs (sv_world s)) in
                              (Ok r, set_world (set_fs (sv_world s) fs) s)) ;;
      match canonical with
      | Err _ =>
          _ <=- watch_failed (cs_name c) WatchRootUnavailable max_logs ;;
          build_each watch max_logs cs
      | Ok root =>
          if negb (watch root) then
            _ <=- watch_failed (cs_name c) WatchBackendError max_logs ;;
            build_each watch max_logs cs
          else
            _ <=- sdb (set_collection_watch_status (cs_name c) WatchActive) ;;
            rest <=- build_each watch max_logs cs ;;
            sret (root :: rest)
      end
  end.
Definition build_watchers (watch : bytes -> bool) (max_logs : Z) : DIO (list bytes) :=
  cs <=- sdb collections ;;
  build_each watch max_logs cs.

(** [WatchInbox]: the collections with events, and those whose watcher failed. *)
Record WatchInbox := mkInbox { wi_changed : gset bytes; wi_errors : gset bytes }.
Definition inbox_default : WatchInbox := mkInbox ∅ ∅.
Definition inbox_push (name : bytes) (event_ok : bool) (inbox : WatchInbox) : WatchInbox :=
  if event_ok then mkInbox ({[ name ]} ∪ wi_changed inbox) (wi_errors inbox)
  else mkInbox (wi_changed inbox) ({[ name ]} ∪ wi_errors inbox).

Fixpoint fail_watches (names : list bytes) (max_logs : Z) : DIO unit :=
  match names with
  | [] => sret tt
  | name :: names =>
      _ <=- watch_failed name WatchBackendError max_logs ;;
      fail_watches names max_logs
  end.
Definition drain_watch_events (inbox : WatchInbox) (pending : gset bytes) (max_logs : Z) : DIO (gset bytes) :=
  _ <=- fail_watches (sort (elements (wi_errors inbox))) max_logs ;;
  sret (pending ∪ wi_changed inbox).

(** ** Collections *)

Definition validate_collection_name (name : bytes) : result unit DaemonError :=
  if bool_decide (name = []) || (255 <? len name) then Err InvalidCollectionName else Ok tt.

Definition attach_collection (config : Config) (name path : bytes) : IO DaemonError unit :=
  _ <== ilift (validate_collection_name name) ;;
  _ <== imap_err DIo (on_fs (create_dir_all path)) ;;
  existing <== state_io (collection name) ;;
  let changed := match existing with Some c => negb (same_path (cs_local_path c) path) | None => true end in
  _ <== (match existing with
         | None => state_io (add_collection name path None)
         | Some c =>
             if negb (same_path (cs_local_path c) path) then state_io (replace_collection_path name path) else iret tt
         end) ;;
  if changed then log_io (CollectionAttached name) (max_entries (cfg_logging config)) else iret tt.

Definition is_default (name : bytes) : bool := existsb (fun d => bool_decide (d.1 = name)) DEFAULT_COLLECTIONS.

Definition detach_collection (config : Config) (name : bytes) : IO DaemonError bool :=
  if is_default name then ifail DefaultCollection
  else
    removed <== state_io (remove_collection name) ;;
    _ <== (if removed : bool then log_io (CollectionDetached name) (max_entries (cfg_logging config)) else iret tt) ;;
    iret removed.

(** ** Requests *)

Inductive DaemonAction := NoAction | RebuildWatchers | TriggerNetwork | Stop.

(** What a request finds: the configuration, the scanner, this device, its
    stored key, two readings of the monotonic clock, and whether the joining
    device still waits. *)
Record RequestEnv := mkRequestEnv {
  re_config : Config;
  re_scanner : Scanner;
  re_endpoint : EndpointId;
  re_identity : option DeviceIdentity;
  re_t1 : Z;
  re_t2 : Z;
  re_receiver_alive : bool;
}.

Definition pending_value (p : option PendingJoinInfo) : Value :=
  match p with
  | None => VNull
  | Some info =>
      object [(lit "request_id", VString (pi_request_id info));
               (lit "endpoint_id", VString (eid_to_string (pi_endpoint_id info)));
               (lit "device_name", VString (pi_device_name info))]
  end.

(** A call of the handle that may change it. *)
Definition on_handle {A} (f : Handle -> result A NetworkError * Handle) : DIO A :=
  fun s => let '(r, h) := f (sv_handle s) in (map_err DNetwork r, set_handle h s).

(** [network.remove_peer], with the handle it triggers. *)
Definition remove_network_peer (env : RequestEnv) (peer : EndpointId) : DIO bool :=
  fun s =>
    match imap_err DNetwork (remove_peer (re_identity env) peer (sv_handle s)) (sv_world s) with
    | (Ok (removed, h), w) => (Ok removed, mkService h (sv_comparisons s) w)
    | (Err e, w) => (Err e, set_world w s)
    end.

(** [network.decide_join]; what the joining device is sent is left to Join.v. *)
Definition decide_network_join (env : RequestEnv) (request_id : bytes) (approve : bool) : DIO unit :=
  fun s =>
    let '(decided, w) := decide_request (re_identity env) (re_t1 env) (re_t2 env) request_id approve
                           (re_receiver_alive env) (sv_handle s) (sv_world s) in
    (map_err DNetwork (dd_result decided), mkService (dd_handle decided) (sv_comparisons s) w).

(** [json!] of a path. *)
Definition path_value (path : bytes) : DIO Value := slift (ok_or (json_path path) DPanic).

Definition request_result (env : RequestEnv) (request : ControlRequest) : DIO (Value * DaemonAction) :=
  let config := re_config env in
  let status := sdb (status_value (dev_name (cfg_device config)) (re_endpoint env)) in
  match request with
  | Status => value <=- status ;; sret (value, NoAction)
  | Collections => value <=- sdbd collections_value ;; sret (value, NoAction)
  | AddCollection name path =>
      _ <=- on_world (attach_collection config name path) ;;
      attached <=- sdb (collection name) ;;
      match attached with
      | None => sfail (DProtocol "attached collection is missing")
      | Some c =>
          _ <=- scan_collection_safely (re_scanner env) c (re_endpoint env) ;;
          shown <=- path_value path ;;
          sret (object [(lit "name", VString name); (lit "path", shown); (lit "attached", VBool true)], RebuildWatchers)
      end
  | RemoveCollection name =>
      removed <=- on_world (detach_collection config name) ;;
      sret (object [(lit "name", VString name); (lit "removed", VBool removed)], RebuildWatchers)
  | Logs after_id limit => value <=- sdb (logs_page_value after_id limit) ;; sret (value, NoAction)
  | ScanNow =>
      _ <=- scan_all (re_scanner env) (re_endpoint env) ;;
      value <=- status ;;
      sret (value, RebuildWatchers)
  | SyncNow false => sret (object [(lit "queued", VBool true); (lit "completed", VBool false)], TriggerNetwork)
  | SyncNow true => sfail (DProtocol "synchronous request was not deferred by the control loop")
  | GetEndpointAddr =>
      address <=- on_handle (fun h => (endpoint_addr_json h, h)) ;;
      sret (object [(lit "address", VString address)], NoAction)
  | Peers => value <=- sdbd (peers_value (re_endpoint env)) ;; sret (value, NoAction)
  | RemovePeer peer =>
      endpoint <=- sdbd (resolve_peer peer) ;;
      removed <=- remove_network_peer env endpoint ;;
      sret (object [(lit "endpoint_id", VString (eid_to_string endpoint)); (lit "removed", VBool removed)],
            TriggerNetwork)
  | ActivateInvitation nonce lifetime_seconds =>
      _ <=- on_handle (activate_invitation (re_t1 env) (re_t2 env) nonce (from_secs lifetime_seconds)) ;;
      sret (object [(lit "active", VBool true)], NoAction)
  | PendingJoinRequest =>
      found <=- on_handle (fun h => let '(p, h) := pending_join (re_t1 env) h in (Ok p, h)) ;;
      sret (object [(lit "pending", pending_value found)], NoAction)
  | DecideJoin request_id approve =>
      _ <=- decide_network_join env request_id approve ;;
      sret (object [(lit "request_id", VString request_id); (lit "approved", VBool approve)],
            if approve then TriggerNetwork else NoAction)
  | Shutdown => sret (object [(lit "stopped", VBool true)], Stop)
  end.

(** A panic is not turned into a response. *)
Definition handle_request (env : RequestEnv) (request : ControlRequest) (s : Service)
    : result (ControlResponse * DaemonAction) DaemonError * Service :=
  match request_result env request s with
  | (Ok (value, action), s) => (Ok (success value, action), s)
  | (Err DPanic, s) => (Err DPanic, s)
  | (Err error, s) => (Ok (operation_failed (Shown error), NoAction), s)
  end.

(** ** Waiting for a synchronization *)

(** A stream is named by its connection, a channel by the waiter of its round. *)
Record PendingSync := mkPendingSync { ps_stream : nat; ps_completed : nat; ps_deadline : Z }.

Inductive TryRecv := Received (summary : SyncSummary) | Disconnected | Empty.

Definition sync_response (completed : TryRecv) (late : bool) : option ControlResponse :=
  match completed with
  | Received summary =>
      Some (success (object [(lit "queued", VBool true); (lit "completed", VBool true);
                              (lit "attempted", VNumber (attempted summary));
                              (lit "succeeded", VNumber (succeeded summary))]))
  | Disconnected => Some (operation_failed (Shown (DNetwork NStopped)))
  | Empty => if late then Some (operation_failed (Shown (DNetwork NSyncTimeout))) else None
  end.

(** Responses are written to streams; who is left keeps waiting.  [poll] is what a
    channel holds, [reading] the clock when its waiter is looked at. *)
Fixpoint finish_pending_syncs (poll : nat -> TryRecv) (reading : nat -> Z) (waiting : list PendingSync)
    : list (nat * ControlResponse) * list PendingSync :=
  match waiting with
  | [] => ([], [])
  | p :: waiting =>
      let '(written, kept) := finish_pending_syncs poll reading waiting in
      match sync_response (poll (ps_completed p)) (ps_deadline p <=? reading (ps_stream p)) with
      | Some response => ((ps_stream p, response) :: written, kept)
      | None => (written, p :: kept)
      end
  end.

Definition fail_pending_syncs (waiting : list PendingSync) : list (nat * ControlResponse) :=
  map (fun p => (ps_stream p, operation_failed (Text "daemon stopped before synchronization completed"))) waiting.

(** ** The loop *)

(** A connection that is accepted: what [read_request] makes of it, what its
    request finds, and the reading of the clock for its deadline. *)
Record Visit := mkVisit {
  vi_stream : nat;
  vi_channel : nat;
  vi_request : result ControlRequest DaemonError;
  vi_env : RequestEnv;
  vi_now : Z;
}.

Record DaemonState := mkDaemonState {
  ds_service : Service;
  ds_pending : gset bytes;
  ds_pending_syncs : list PendingSync;
  ds_watched : list bytes;
  ds_next_full_scan : Z;
  ds_running : bool;
}.

Definition set_service (s : Service) (d : DaemonState) : DaemonState :=
  mkDaemonState s (ds_pending d) (ds_pending_syncs d) (ds_watched d) (ds_next_full_scan d) (ds_running d).
Definition set_waiting (waiting : list PendingSync) (d : DaemonState) : DaemonState :=
  mkDaemonState (ds_service d) (ds_pending d) waiting (ds_watched d) (ds_next_full_scan d) (ds_running d).

Definition trigger_network (s : Service) : Service := set_handle (NetworkHandle.trigger (sv_handle s)) s.

(** [network.start_sync] of a client that waits. *)
Definition accept_wait (v : Visit) (d : DaemonState) : list (nat * ControlResponse) * DaemonState :=
  if len (ds_pending_syncs d) =? MAX_PENDING_SYNC_WAITS
  then ([(vi_stream v, operation_failed (Text "too many synchronization waits are active"))], d)
  else
    let '(r, h) := start_sync (vi_channel v) (sv_handle (ds_service d)) in
    let d := set_service (set_handle h (ds_service d)) d in
    match r with
    | Ok _ =>
        ([], set_waiting (ds_pending_syncs d ++ [mkPendingSync (vi_stream v) (vi_channel v) (vi_now v + SYNC_WAIT_TIMEOUT)]) d)
    | Err error => ([(vi_stream v, operation_failed (Shown (DNetwork error)))], d)
    end.

(** What the action of a response makes the loop do. *)
Definition act (watch : bytes -> bool) (max_logs : Z) (action : DaemonAction) (d : DaemonState)
    : result DaemonState DaemonError :=
  match action with
  | NoAction => Ok d
  | TriggerNetwork => Ok (set_service (trigger_network (ds_service d)) d)
  | Stop => Ok (mkDaemonState (ds_service d) (ds_pending d) (ds_pending_syncs d) (ds_watched d) (ds_next_full_scan d) false)
  | RebuildWatchers =>
      match build_watchers watch max_logs (ds_service d) with
      | (Ok watched, s) =>
          Ok (mkDaemonState (trigger_network s) (ds_pending d) (ds_pending_syncs d) watched (ds_next_full_scan d)
                (ds_running d))
      | (Err e, _) => Err e
      end
  end.

(** One round of [listener.accept()]. *)
Definition accept (watch : bytes -> bool) (max_logs : Z) (v : Visit) (d : DaemonState)
    : list (nat * ControlResponse) * result DaemonState DaemonError :=
  match vi_request v with
  | Ok (SyncNow true) => let '(written, d) := accept_wait v d in (written, Ok d)
  | Ok request =>
      match handle_request (vi_env v) request (ds_service d) with
      | (Ok (response, action), s) => ([(vi_stream v, response)], act watch max_logs action (set_service s d))
      | (Err panic, _) => ([], Err panic)
      end
  | Err error => ([(vi_stream v, control_request_failure error)], Ok d)
  end.

Fixpoint accept_all (watch : bytes -> bool) (max_logs : Z) (visits : list Visit) (d : DaemonState)
    : list (nat * ControlResponse) * result DaemonState DaemonError :=
  match visits with
  | [] => ([], Ok d)
  | v :: visits =>
      match accept watch max_logs v d with
      | (written, Ok d) => let '(rest, r) := accept_all watch max_logs visits d in (written ++ rest, r)
      | (written, Err e) => (written, Err e)
      end
  end.

(** The collections that changed are scanned. *)
Fixpoint scan_pending (env : RequestEnv) (names : list bytes) : DIO unit :=
  match names with
  | [] => sret tt
  | name :: names =>
      found <=- sdb (collection name) ;;
      _ <=- (match found with
             | None => sret tt
             | Some c =>
                 changed <=- scan_collection_safely (re_scanner env) c (re_endpoint env) ;;
                 fun s => (Ok tt, if changed : bool then trigger_network s else s)
             end) ;;
      scan_pending env names
  end.

(** What a turn is given, and the daemon's own part of it. *)
Record Turn := mkTurn {
  tu_handle : Handle;          (* the handle and the world as the network thread left them *)
  tu_world : World;
  tu_poll : nat -> TryRecv;
  tu_reading : nat -> Z;
  tu_inbox : WatchInbox;
  tu_env : RequestEnv;
  tu_visits : list Visit;
  tu_now : Z;
  tu_after : Z;                (* the clock before and after a full scan *)
  tu_watch : bytes -> bool;
}.

(** Until the listener has no connection left. *)
Definition turn_start (t : Turn) (d : DaemonState) : result DaemonState DaemonError :=
  let s := mkService (tu_handle t) (sv_comparisons (ds_service d)) (tu_world t) in
  let max_logs := max_entries (cfg_logging (re_config (tu_env t))) in
  match (pending <=- drain_watch_events (tu_inbox t) (ds_pending d) max_logs ;;
         scan_pending (tu_env t) (sort (elements pending))) s with
  | (Ok _, s) =>
      Ok (mkDaemonState s ∅ (ds_pending_syncs d) (ds_watched d) (ds_next_full_scan d) (ds_running d))
  | (Err e, _) => Err e
  end.

(** [if Instant::now() >= next_full_scan] *)
Definition full_scan (t : Turn) (d : DaemonState) : result DaemonState DaemonError :=
  if tu_now t <? ds_next_full_scan d then Ok d
  else
    let config := re_config (tu_env t) in
    match (changed <=- scan_all (re_scanner (tu_env t)) (re_endpoint (tu_env t)) ;;
           _ <=- (fun s => (Ok tt, if changed : bool then trigger_network s else s)) ;;
           build_watchers (tu_watch t) (max_entries (cfg_logging config))) (ds_service d) with
    | (Ok watched, s) =>
        Ok (mkDaemonState s (ds_pending d) (ds_pending_syncs d) watched (tu_after t + sync_interval (cfg_sync config))
              (ds_running d))
    | (Err e, _) => Err e
    end.

(** [while running { .. }]: the responses that are written, and the state. *)
Definition daemon_turn (t : Turn) (d : DaemonState) : list (nat * ControlResponse) * result DaemonState DaemonError :=
  let '(finished, waiting) := finish_pending_syncs (tu_poll t) (tu_reading t) (ds_pending_syncs d) in
  match turn_start t (set_waiting waiting d) with
  | Err e => (finished, Err e)
  | Ok d =>
      let '(written, r) :=
        accept_all (tu_watch t) (max_entries (cfg_logging (re_config (tu_env t)))) (tu_visits t) d in
      (finished ++ written, let? d := r in full_scan t d)
  end.

(** Before the loop: the first scan and the watchers; [now] is the reading of the
    clock after them. *)
Definition daemon_start (env : RequestEnv) (watch : bytes -> bool) (now : Z) (s : Service)
    : result DaemonState DaemonError :=
  let max_logs := max_entries (cfg_logging (re_config env)) in
  match (_ <=- daemon_log DaemonStarted max_logs ;;
         _ <=- scan_all (re_scanner env) (re_endpoint env) ;;
         build_watchers watch max_logs) s with
  | (Ok watched, s) => Ok (mkDaemonState s ∅ [] watched (now + sync_interval (cfg_sync (re_config env))) true)
  | (Err e, _) => Err e
  end.

(** After it; [shutdown] is what [network.shutdown()] returns. *)
Definition daemon_stop (max_logs : Z) (shutdown : result unit DaemonError) (d : DaemonState)
    : list (nat * ControlResponse) * result DaemonState DaemonError :=
  (fail_pending_syncs (ds_pending_syncs d),
   let? _ := shutdown in
   match daemon_log DaemonStopped max_logs (ds_service d) with
   | (Ok _, s) => Ok (set_waiting [] (set_service s d))
   | (Err e, _) => Err e
   end).

(** The loop over the turns there are. *)
Fixpoint daemon_run (max_logs : Z) (shutdown : result unit DaemonError) (turns : list Turn) (d : DaemonState)
    : list (nat * ControlResponse) * result DaemonState DaemonError :=
  if negb (ds_running d) then daemon_stop max_logs shutdown d
  else
    match turns with
    | [] => ([], Ok d)
    | t :: turns =>
        match daemon_turn t d with
        | (written, Ok d) => let '(rest, r) := daemon_run max_logs shutdown turns d in (written ++ rest, r)
        | (written, Err e) => (written, Err e)
        end
    end.
End daemon.
