(* ===== verification/DaemonLaws.v ===== *)
(** The bookkeeping of the daemon's loop: who is answered, and who waits. *)

From S2P Require Import Prelude Bytes Utf8 Cursor Canonical Path Identity Records Roster Protocol.
From S2P Require Import Database State RosterStore Platform Installer Sync Join Network NetworkLoop NetworkHandle.
From S2P Require Import Scan Settings Setup Control Daemon.

Section laws.
Context `{Crypto, Unicode, EventJson, Platform, Iroh, JoinCodec, !AmbientFs}.

Definition waiting_streams (d : DaemonState) : list nat := map ps_stream (ds_pending_syncs d).

(** [accepted] are the connections that came in, on top of those that wait in
    [d]: each has one of the responses [written], or still waits in [d']. *)
Definition accounts (d : DaemonState) (accepted : list nat) (written : list (nat * ControlResponse)) (d' : DaemonState)
    : Prop :=
  map fst written ++ waiting_streams d' ≡ₚ waiting_streams d ++ accepted.

Lemma accounts_trans d1 a1 w1 d2 a2 w2 d3 :
  accounts d1 a1 w1 d2 -> accounts d2 a2 w2 d3 -> accounts d1 (a1 ++ a2) (w1 ++ w2) d3.
Proof.
  unfold accounts. intros E1 E2. rewrite map_app, <-app_assoc, E2, (app_assoc _ _ a2), E1. by rewrite app_assoc.
Qed.

Lemma accounts_same d d' : ds_pending_syncs d' = ds_pending_syncs d -> accounts d [] [] d'.
Proof. unfold accounts, waiting_streams. intros ->. by rewrite app_nil_r. Qed.

Lemma accounts_write d d' stream response :
  ds_pending_syncs d' = ds_pending_syncs d -> accounts d [stream] [(stream, response)] d'.
Proof. unfold accounts, waiting_streams. intros ->. simpl. by rewrite Permutation_cons_append. Qed.

(** ** The parts of a turn *)

Lemma finish_accounts poll reading d written kept :
  finish_pending_syncs poll reading (ds_pending_syncs d) = (written, kept) ->
  accounts d [] written (set_waiting kept d) /\ sublist kept (ds_pending_syncs d) /\
  Forall (fun p => poll (ps_completed p) = Empty /\ reading (ps_stream p) < ps_deadline p) kept.
Proof.
  unfold accounts, waiting_streams. cbn [set_waiting ds_pending_syncs]. rewrite app_nil_r.
  revert written kept. induction (ds_pending_syncs d) as [|p l IH]; intros written kept E; cbn [finish_pending_syncs] in E.
  - injection E as <- <-. split; [done|]. split; constructor.
  - destruct (finish_pending_syncs poll reading l) as [w k]. destruct (IH w k eq_refl) as (Hp & Hs & Hk).
    destruct (sync_response _ _) eqn:Er; injection E as <- <-; cbn [map fst app].
    + split; [by apply perm_skip|]. split; [by apply sublist_cons | done].
    + split; [by rewrite <-Permutation_middle, Hp|]. split; [by apply sublist_skip|]. constructor; [|done].
      unfold sync_response in Er. destruct (poll _); [done..|]. destruct (_ <=? _) eqn:Hl; [done|]. split; [done | lia].
Qed.

Lemma act_waiting watch max_logs action d d' : act watch max_logs action d = Ok d' -> ds_pending_syncs d' = ds_pending_syncs d.
Proof.
  destruct action; simpl; intros E; try by injection E as <-.
  destruct (build_watchers _ _ _) as [[]]; [by injection E as <- | done].
Qed.

(** Where a wait comes from. *)
Definition begun_by (visits : list Visit) (p : PendingSync) : Prop :=
  exists v, v ∈ visits /\ p = mkPendingSync (vi_stream v) (vi_channel v) (vi_now v + SYNC_WAIT_TIMEOUT).

Lemma accept_wait_accounts v d written d' :
  accept_wait v d = (written, d') ->
  accounts d [vi_stream v] written d' /\
  (len (ds_pending_syncs d) <= MAX_PENDING_SYNC_WAITS -> len (ds_pending_syncs d') <= MAX_PENDING_SYNC_WAITS) /\
  (forall p, p ∈ ds_pending_syncs d' -> p ∈ ds_pending_syncs d \/ begun_by [v] p).
Proof.
  unfold accept_wait. destruct (Z.eqb_spec (len (ds_pending_syncs d)) MAX_PENDING_SYNC_WAITS) as [|Hne].
  - intros [= <- <-]. split; [by apply accounts_write | auto].
  - destruct (start_sync _ _) as [[[]|e] h]; intros [= <- <-]; [|split; [by apply accounts_write | auto]].
    cbn [set_waiting set_service ds_pending_syncs]. split; [|split].
    + unfold accounts, waiting_streams. cbn [set_waiting set_service ds_pending_syncs]. by rewrite map_app.
    + intros Hl. rewrite len_app, len_cons, len_nil. lia.
    + intros p [Hp | ->%list_elem_of_singleton]%elem_of_app; [by left|]. right. exists v. by rewrite list_elem_of_singleton.
Qed.

Lemma accept_accounts watch max_logs v d written d' :
  accept watch max_logs v d = (written, Ok d') ->
  accounts d [vi_stream v] written d' /\
  (len (ds_pending_syncs d) <= MAX_PENDING_SYNC_WAITS -> len (ds_pending_syncs d') <= MAX_PENDING_SYNC_WAITS) /\
  (forall p, p ∈ ds_pending_syncs d' -> p ∈ ds_pending_syncs d \/ begun_by [v] p).
Proof.
  assert (forall d1 response, ds_pending_syncs d1 = ds_pending_syncs d ->
    accounts d [vi_stream v] [(vi_stream v, response)] d1 /\
    (len (ds_pending_syncs d) <= MAX_PENDING_SYNC_WAITS -> len (ds_pending_syncs d1) <= MAX_PENDING_SYNC_WAITS) /\
    (forall p, p ∈ ds_pending_syncs d1 -> p ∈ ds_pending_syncs d \/ begun_by [v] p)) as Hanswered.
  { intros d1 response Hw. split; [by apply accounts_write|]. rewrite Hw. auto. }
  assert (forall request response action s,
    handle_request (vi_env v) request (ds_service d) = (Ok (response, action), s) ->
    ([(vi_stream v, response)], act watch max_logs action (set_service s d)) = (written, Ok d') ->
    accounts d [vi_stream v] written d' /\
    (len (ds_pending_syncs d) <= MAX_PENDING_SYNC_WAITS -> len (ds_pending_syncs d') <= MAX_PENDING_SYNC_WAITS) /\
    (forall p, p ∈ ds_pending_syncs d' -> p ∈ ds_pending_syncs d \/ begun_by [v] p)) as Hrequest.
  { intros request response action s _ [= <- Ha]. apply act_waiting in Ha. by apply Hanswered. }
  unfold accept. destruct (vi_request v) as [request|e]; [|intros [= <- <-]; by apply Hanswered].
  destruct (handle_request (vi_env v) request (ds_service d)) as [[[response action]|panic] s] eqn:Eh;
    destruct request as [| | | | | | [|] | | | | | | |]; try done; try (by apply (Hrequest _ _ _ _ Eh)).
  all:   destruct (accept_wait v d) as [w d1] eqn:Ew. intros [= <- <-]. by apply accept_wait_accounts.
Qed.

(** A connection that makes the daemon fail is answered before it does, but for
    one that makes it panic. *)
Lemma accept_fails watch max_logs v d written e :
  accept watch max_logs v d = (written, Err e) -> map fst written ⊆+ [vi_stream v].
Proof.
  unfold accept. destruct (vi_request v) as [request|]; [|done].
  destruct (handle_request (vi_env v) request (ds_service d)) as [[[response action]|panic] s];
    destruct request as [| | | | | | [|] | | | | | | |]; try (intros [= <- _]; try done; apply submseteq_nil_l).
  all: by destruct (accept_wait v d).
Qed.

Lemma accept_all_accounts watch max_logs visits d written d' :
  accept_all watch max_logs visits d = (written, Ok d') ->
  accounts d (map vi_stream visits) written d' /\
  (len (ds_pending_syncs d) <= MAX_PENDING_SYNC_WAITS -> len (ds_pending_syncs d') <= MAX_PENDING_SYNC_WAITS) /\
  (forall p, p ∈ ds_pending_syncs d' -> p ∈ ds_pending_syncs d \/ begun_by visits p).
Proof.
  revert d written. induction visits as [|v visits IH]; intros d written E; cbn [accept_all] in E.
  - injection E as <- <-. split; [by apply accounts_same | auto].
  - destruct (accept watch max_logs v d) as [w [d1|e]] eqn:Ea; [|done].
    destruct (accept_all watch max_logs visits d1) as [rest r] eqn:Er. injection E as <- ->.
    apply accept_accounts in Ea as (Ha & Hl & Hw). apply IH in Er as (Ha2 & Hl2 & Hw2).
    split; [by apply (accounts_trans d [vi_stream v] w d1)|]. split; [auto|].
    intros p [Hp|(x & Hx & ->)]%Hw2.
    + apply Hw in Hp as [?|(x & Hx & ->)]; [by left|]. right. exists x. split; [|done].
      apply list_elem_of_singleton in Hx as ->. apply elem_of_cons. by left.
    + right. exists x. split; [|done]. apply elem_of_cons. by right.
Qed.

Lemma accept_all_fails watch max_logs visits d written e :
  accept_all watch max_logs visits d = (written, Err e) ->
  map fst written ⊆+ waiting_streams d ++ map vi_stream visits.
Proof.
  revert d written. induction visits as [|v visits IH]; intros d written E; cbn [accept_all] in E; [done|].
  destruct (accept watch max_logs v d) as [w [d1|e']] eqn:Ea.
  - destruct (accept_all watch max_logs visits d1) as [rest r] eqn:Er. injection E as <- ->.
    apply accept_accounts in Ea as (Ha & _). apply IH in Er. rewrite map_app. cbn [map].
    change (vi_stream v :: map vi_stream visits) with ([vi_stream v] ++ map vi_stream visits).
    rewrite app_assoc. unfold accounts in Ha. rewrite <-Ha, <-app_assoc. by apply submseteq_app.
  - injection E as <- _. apply accept_fails in Ea. cbn [map]. rewrite Ea.
    apply submseteq_inserts_l, submseteq_skip, submseteq_nil_l.
Qed.

Lemma turn_start_waiting t d d' : turn_start t d = Ok d' -> ds_pending_syncs d' = ds_pending_syncs d.
Proof. unfold turn_start. destruct (srbind _ _ _) as [[]]; [by intros [= <-] | done]. Qed.
Lemma full_scan_waiting t d d' : full_scan t d = Ok d' -> ds_pending_syncs d' = ds_pending_syncs d.
Proof.
  unfold full_scan. destruct (_ <? _); [by intros [= <-]|]. destruct (srbind _ _ _) as [[]]; [by intros [= <-] | done].
Qed.

Definition turn_streams (t : Turn) : list nat := map vi_stream (tu_visits t).

(** A wait that is left after a turn has begun in it, or its time is not over and
    its round has not ended. *)
Definition still_waits (t : Turn) (d : DaemonState) (p : PendingSync) : Prop :=
  begun_by (tu_visits t) p \/
  (p ∈ ds_pending_syncs d /\ tu_poll t (ps_completed p) = Empty /\ tu_reading t (ps_stream p) < ps_deadline p).

Lemma turn_accounts t d written d' :
  daemon_turn t d = (written, Ok d') ->
  accounts d (turn_streams t) written d' /\
  (len (ds_pending_syncs d) <= MAX_PENDING_SYNC_WAITS -> len (ds_pending_syncs d') <= MAX_PENDING_SYNC_WAITS) /\
  Forall (still_waits t d) (ds_pending_syncs d').
Proof.
  unfold daemon_turn. destruct (finish_pending_syncs _ _ _) as [w1 kept] eqn:Ef.
  destruct (turn_start t (set_waiting kept d)) as [d1|e] eqn:Es; [|done].
  destruct (accept_all _ _ _ d1) as [w2 r] eqn:Ea. intros [= <- Hr]. apply rbind_Ok in Hr as (d2 & -> & Hfull).
  apply finish_accounts in Ef as (Hf & Hsub & Hk). apply turn_start_waiting in Es. apply accept_all_accounts in Ea as (Ha & Hl & Hw).
  apply full_scan_waiting in Hfull. cbn [set_waiting ds_pending_syncs] in Es.
  split; [|split].
  - rewrite <-(app_nil_r (turn_streams t)), <-(app_nil_r w2).
    apply (accounts_trans d [] w1 (set_waiting kept d) (turn_streams t ++ []) (w2 ++ [])); [done|].
    apply (accounts_trans _ (turn_streams t) w2 d2); [|by apply accounts_same].
    apply (accounts_trans _ [] [] d1 (turn_streams t) w2); [by apply accounts_same | done].
  - intros Hd. rewrite Hfull. apply Hl. rewrite Es. apply sublist_length in Hsub. unfold len in *. lia.
  - rewrite Hfull. apply Forall_forall. intros p [Hp|Hb]%Hw; [|by left]. right. rewrite Es in Hp.
    rewrite Forall_forall in Hk. split; [|by apply Hk]. by apply (elem_of_sublist kept).
Qed.

Lemma turn_fails t d written e :
  daemon_turn t d = (written, Err e) -> map fst written ⊆+ waiting_streams d ++ turn_streams t.
Proof.
  unfold daemon_turn. destruct (finish_pending_syncs _ _ _) as [w1 kept] eqn:Ef.
  apply finish_accounts in Ef as (Hf & _ & _). unfold accounts in Hf. rewrite app_nil_r in Hf.
  destruct (turn_start t (set_waiting kept d)) as [d1|e'] eqn:Es.
  - apply turn_start_waiting in Es. destruct (accept_all _ _ _ d1) as [w2 r] eqn:Ea. intros [= <- Hr].
    rewrite map_app, <-Hf, <-app_assoc. apply submseteq_app; [done|].
    assert (waiting_streams d1 = waiting_streams (set_waiting kept d)) as <- by (unfold waiting_streams; by rewrite Es).
    destruct r as [d2|e2]; [|by eapply accept_all_fails].
    apply accept_all_accounts in Ea as (Ha & _). unfold turn_streams. rewrite <-Ha. apply submseteq_inserts_r. done.
  - intros [= <- _]. rewrite <-Hf. by apply submseteq_inserts_r, submseteq_inserts_r.
Qed.

Lemma stop_accounts max_logs shutdown d written d' :
  daemon_stop max_logs shutdown d = (written, Ok d') -> accounts d [] written d' /\ ds_pending_syncs d' = [].
Proof.
  unfold daemon_stop. intros [= <- E]. apply rbind_Ok in E as ([] & _ & E).
  destruct (daemon_log _ _ _) as [[]]; [|done]. injection E as <-. split; [|done].
  unfold accounts, fail_pending_syncs, waiting_streams. cbn [set_waiting set_service ds_pending_syncs].
  by rewrite !app_nil_r, map_map.
Qed.

(** The connections of a run: those of the turns it ran. *)
Fixpoint run_streams (turns : list Turn) (d : DaemonState) : list nat :=
  match turns with
  | [] => []
  | t :: turns =>
      if ds_running d then
        turn_streams t ++ match (daemon_turn t d).2 with Ok d => run_streams turns d | Err _ => [] end
      else []
  end.

Lemma run_accounts max_logs shutdown turns d written d' :
  daemon_run max_logs shutdown turns d = (written, Ok d') ->
  accounts d (run_streams turns d) written d' /\
  (len (ds_pending_syncs d) <= MAX_PENDING_SYNC_WAITS -> len (ds_pending_syncs d') <= MAX_PENDING_SYNC_WAITS) /\
  (ds_running d' = false -> ds_pending_syncs d' = []).
Proof.
  revert d written. induction turns as [|t turns IH]; intros d written E; cbn [daemon_run run_streams] in E |- *;
    destruct (ds_running d) eqn:Hrun; cbn [negb] in E.
  - injection E as <- <-. split; [by apply accounts_same|]. split; [done | congruence].
  - apply stop_accounts in E as [Ha Hn]. by rewrite Hn.
  - destruct (daemon_turn t d) as [w [d1|e]] eqn:Et; [|done].
    destruct (daemon_run _ _ turns d1) as [rest r] eqn:Er. injection E as <- ->. cbn [snd].
    apply turn_accounts in Et as (Ha & Hl & _). apply IH in Er as (Ha2 & Hl2 & Hn).
    split; [by apply (accounts_trans d _ w d1)|]. split; [auto | done].
  - apply stop_accounts in E as [Ha Hn]. by rewrite Hn.
Qed.

Lemma run_fails max_logs shutdown turns d written e :
  daemon_run max_logs shutdown turns d = (written, Err e) ->
  map fst written ⊆+ waiting_streams d ++ run_streams turns d.
Proof.
  assert (forall d written, daemon_stop max_logs shutdown d = (written, Err e) -> map fst written ⊆+ waiting_streams d) as Hstop.
  { unfold daemon_stop. intros d0 w [= <- _]. unfold fail_pending_syncs, waiting_streams. by rewrite map_map. }
  revert d written. induction turns as [|t turns IH]; intros d written E; cbn [daemon_run run_streams] in E |- *;
    destruct (ds_running d) eqn:Hrun; cbn [negb] in E; try done; rewrite ?app_nil_r; try by apply Hstop.
  destruct (daemon_turn t d) as [w [d1|e']] eqn:Et; cbn [snd].
  - destruct (daemon_run _ _ turns d1) as [rest r] eqn:Er. injection E as <- ->.
    apply turn_accounts in Et as (Ha & _). apply IH in Er. rewrite map_app, app_assoc. unfold accounts in Ha.
    rewrite <-Ha, <-app_assoc. by apply submseteq_app.
  - injection E as <- <-. rewrite app_nil_r. by eapply turn_fails.
Qed.
End laws.
