(* ===== verification/StoreNames.v ===== *)
(** The names of the collections of a store: only attaching adds one, and only
    detaching removes one. *)

From S2P Require Import Prelude Bytes Utf8 Cursor Canonical Path Identity Records Winners Roster Protocol.
From S2P Require Import Database State StateLaws RosterStore Platform Installer Sync SyncLaws Session SessionLaws.
From S2P Require Import Scan WalkLaws ScanProps.

Section laws.
Context `{Crypto, Unicode, EventJson, Platform}.

Definition same_attached (db db' : Database) : Prop := forall name, attached db' name <-> attached db name.
Definition keeps_names {A} (m : Db A) : Prop := forall db r db', m db = (r, db') -> same_attached db db'.

#[export] Instance names_preorder : PreOrder same_attached.
Proof. split; [by intros db name | intros a b c Hab Hbc name; rewrite (Hbc name); apply Hab]. Qed.

Lemma names_bind {A B} (m : Db A) (f : A -> Db B) :
  keeps_names m -> (forall a, keeps_names (f a)) -> keeps_names (dbind m f).
Proof.
  intros Hm Hf db r db' E. unfold dbind in E. destruct (m db) as [[a|e] db1] eqn:Em.
  - etransitivity; [by eapply Hm | by eapply Hf].
  - injection E as _ <-. by eapply Hm.
Qed.
Lemma names_transaction {A} (m : Db A) : keeps_names m -> keeps_names (transaction m).
Proof.
  intros Hm db r db' E. unfold transaction in E. destruct (m db) as [[a|e] db1] eqn:Em; injection E as _ <-;
    [by eapply Hm | done].
Qed.
Lemma names_if {A} (b : bool) (m n : Db A) : keeps_names m -> keeps_names n -> keeps_names (if b then m else n).
Proof. by destruct b. Qed.
Lemma names_same {A} (m : Db A) :
  (forall db r db', m db = (r, db') -> collections_t db' = collections_t db) -> keeps_names m.
Proof. intros Hm db r db' E name. unfold attached. by rewrite (Hm _ _ _ E). Qed.
Lemma names_reads {A} (m : Db A) : reads m -> keeps_names m.
Proof. intros Hm. apply names_same. intros db r db' E. by rewrite (Hm _ _ _ E). Qed.

Lemma names_update_collection n f : keeps_names (update_collection_row n f).
Proof.
  intros db r db' E name. unfold update_collection_row, dbind, dget in E.
  destruct (collections_t db !! n) as [row|] eqn:Hrow; [|by injection E as _ <-].
  destruct (negb _); injection E as _ <-; [done|]. unfold attached. cbn [collections_t set_collections].
  destruct (decide (name = n)) as [->|]; [by rewrite Hrow, lookup_insert_eq | by rewrite lookup_insert_ne].
Qed.

(** A statement on another table. *)
Ltac other_names :=
  let E := fresh in
  apply names_same; intros ??? E;
  repeat (unfold dbind, dget, dput, dret, dfail, dlift in E; case_match; simplify_eq/=); done.

Lemma names_upsert_path c p row : keeps_names (upsert_path_row c p row).
Proof. unfold upsert_path_row. other_names. Qed.
Lemma names_update_path c p k f : keeps_names (update_path_row c p k f).
Proof. unfold update_path_row. other_names. Qed.
Lemma names_clear_files condition : keeps_names (clear_files condition).
Proof. apply names_same. by intros db r db' [= _ <-]. Qed.
Lemma names_insert_log_row t p : keeps_names (insert_log_row t p).
Proof. unfold insert_log_row. other_names. Qed.
Lemma names_prune n : keeps_names (prune_logs n).
Proof. apply names_same. by intros db r db' [= _ <-]. Qed.
Lemma names_upsert_hint e h : keeps_names (upsert_peer_hint e h).
Proof. unfold upsert_peer_hint. other_names. Qed.
Lemma names_insert_roster h l : keeps_names (insert_roster_row h l).
Proof. unfold insert_roster_row. other_names. Qed.

End laws.

(** [names] goes through an operation of the store. *)
Ltac names :=
  repeat first
    [ apply names_reads, reads_dret | apply names_reads, reads_dfail | apply names_reads, reads_dlift
    | apply names_reads, reads_get | apply names_reads, reads_chain | apply names_reads, reads_load
    | apply names_reads, reads_query
    | apply names_update_collection | apply names_upsert_path | apply names_update_path
    | apply names_clear_files | apply names_insert_log_row | apply names_prune | apply names_upsert_hint
    | apply names_insert_roster | apply names_transaction | apply names_if
    | match goal with |- keeps_names (match ?x with _ => _ end) => destruct x end
    | apply names_bind; [|intros ?] ].

Section worlds.
Context `{Crypto, Unicode, EventJson, Platform}.

Lemma names_insert_log t e n : keeps_names (insert_log t e n).
Proof. unfold insert_log. names. Qed.

(** Any operation of the store but attaching and detaching. *)
Definition names_op (op : store_op) : Prop :=
  match op with OpAddCollection _ _ _ | OpRemoveCollection _ => False | _ => True end.
Lemma names_run_op op : names_op op -> keeps_names (run_op op).
Proof.
  intros Hop. destruct op; try done; simpl; unfold forget, replace_collection_path, complete_collection_scan,
    query_resolved_root, set_collection_scan_status, set_collection_watch_status,
    merge_record, upsert_record, load_record, mark_repair_required_and_log, set_materialized_fingerprint,
    update_materialized_fingerprint, mark_materialized_and_log, mark_tombstone_materialized_and_log,
    replace_peer_hint, replace_peer_hint_in, append_log;
    try (by repeat first [apply names_insert_log | progress names]).
  apply names_transaction. intros db r db' E name. unfold dbind, dget, dput in E.
  by apply (names_insert_log _ _ _ _ _ _ E name).
Qed.

(** ** Worlds *)

Definition same_names (w w' : World) : Prop := same_attached (w_db w) (w_db w').
#[export] Instance same_names_preorder : PreOrder same_names.
Proof. unfold same_names. split; [by intros w | intros a b c; apply transitivity]. Qed.

Lemma names_leaves {E A} (m : IO E A) : respects same_db m -> respects same_names m.
Proof. intros Hm w r w' E' name. unfold same_names. by rewrite (Hm _ _ _ E'). Qed.
Lemma names_world {A} (m : Db A) : keeps_names m -> respects same_names (on_db m).
Proof.
  intros Hm w r w' E. unfold on_db in E. destruct (m (w_db w)) as [x db'] eqn:Em. injection E as _ <-.
  by apply (Hm _ _ _ Em).
Qed.

(** [complete_collection_scan] and [merge_record] return more than [run_op] keeps. *)
Lemma names_complete n p r : keeps_names (complete_collection_scan n p r).
Proof. unfold complete_collection_scan, query_resolved_root. names. Qed.
Lemma names_merge r t p n : keeps_names (merge_record r t p n).
Proof.
  unfold merge_record, upsert_record, load_record. repeat first [apply names_insert_log | progress names].
Qed.
Lemma names_states c : keeps_names (record_states c).
Proof. apply names_reads, reads_states. Qed.
Lemma names_repair c p t e n : keeps_names (mark_repair_required_and_log c p t e n).
Proof. exact (names_run_op (OpRepair c p t e n) I). Qed.
Lemma names_fingerprint c p f : keeps_names (set_materialized_fingerprint c p f).
Proof. exact (names_run_op (OpFingerprint c p f) I). Qed.
Lemma names_append_log t e n : keeps_names (append_log t e n).
Proof. exact (names_run_op (OpAppendLog t e n) I). Qed.
Lemma names_scan_status c s : keeps_names (set_collection_scan_status c s).
Proof. exact (names_run_op (OpScanStatus c s) I). Qed.

(** ** A scan *)

Ltac scan_leaf :=
  first [ apply names_leaves, leaves_walk | apply names_leaves, leaves_db_now
        | apply names_world; first
            [ apply names_complete | apply names_merge | apply names_states | apply names_repair
            | apply names_fingerprint | apply names_append_log | apply names_scan_status
            | apply names_reads, reads_query ] ].

Lemma names_log scanner t e : respects same_names (Scan.log scanner t e).
Proof. unfold Scan.log, scan_state. walk scan_leaf. Qed.
Lemma names_log_warnings scanner t ws : respects same_names (log_warnings scanner t ws).
Proof. induction ws as [|x ws IH]; cbn [log_warnings]; walk ltac:(first [apply names_log | apply IH]). Qed.
Lemma names_scan_file scanner c author t current path disk :
  respects same_names (scan_file scanner c author t current path disk).
Proof. unfold scan_file, scan_state. cbv zeta. walk ltac:(first [apply names_log | scan_leaf]). Qed.
Lemma names_scan_files scanner c author t current files s :
  respects same_names (scan_files scanner c author t current files s).
Proof.
  revert s. induction files as [|[path disk] files IH]; intros s; cbn [scan_files];
    walk ltac:(first [apply names_scan_file | apply IH]).
Qed.
Lemma names_scan_deletions scanner c author t ctx current s :
  respects same_names (scan_deletions scanner c author t ctx current s).
Proof.
  revert s. induction current as [|x current IH]; intros s; cbn [scan_deletions]; unfold scan_state; cbv zeta;
    walk ltac:(first [scan_leaf | apply IH]).
Qed.
Lemma names_scan_root scanner c author t stable comparison :
  respects same_names (scan_root scanner c author t stable comparison).
Proof.
  unfold scan_root, scan_state. cbv zeta.
  walk ltac:(first [apply names_log_warnings | apply names_scan_files | apply names_scan_deletions | apply names_log | scan_leaf]).
Qed.
Lemma names_pause scanner name t status : respects same_names (pause scanner name t status).
Proof. unfold pause, scan_state. walk ltac:(first [apply names_log | scan_leaf]). Qed.

Lemma names_scan_collection scanner c author comparisons w r comparisons' w' :
  scan_collection scanner c author comparisons w = (r, comparisons', w') -> same_names w w'.
Proof.
  intros E. unfold scan_collection in E. destruct (open_collection _ w) as [opened w1] eqn:Eo.
  pose proof (names_leaves _ (leaves_opening _) _ _ _ Eo) as N1.
  assert (forall name t status, (let '(r, w) := pause scanner name t status w1 in (r, comparisons, w)) = (r, comparisons', w') ->
    same_names w w') as Hpause.
  { intros name t status. destruct (pause scanner name t status w1) as [x w2] eqn:Ep. intros [= _ _ <-].
    etransitivity; [exact N1 | by apply names_pause in Ep]. }
  destruct opened as [[t [stable|[[]|]]]|e]; try (injection E as _ _ <-; exact N1); try by eapply Hpause.
  destruct (match comparisons !! root_resolved_path stable with Some comparison => _ | None => _ end) as [probed w2] eqn:Ep.
  assert (same_names w w2) as N2.
  { etransitivity; [exact N1|]. destruct (comparisons !! _); [by injection Ep as _ <-|].
    by apply (names_leaves _ (leaves_probe _)) in Ep. }
  destruct probed as [comparison|e]; [|by injection E as _ _ <-].
  destruct (scan_root _ _ _ _ _ _ w2) as [x w3] eqn:Er. injection E as _ _ <-.
  etransitivity; [exact N2 | by apply names_scan_root in Er].
Qed.

(** ** The roster *)

Lemma names_change identity change hint : keeps_names (apply_roster_change_inner identity change hint).
Proof.
  unfold apply_roster_change_inner. induction (S MAX_ROSTER_RETRY_DEPTH) as [|n IH]; cbn [change_rounds]; [names|].
  apply names_bind; [|intros [?|]; [names | done]].
  unfold change_round, insert_if_absent, insert_roster_revision_row, replace_hint, replace_peer_hint_in. names.
Qed.
End worlds.
