(* ===== verification/DaemonStore.v ===== *)
(** The daemon and its store: what a request, a scan or a turn leaves of the
    records. *)

From S2P Require Import Prelude Bytes Utf8 Cursor Canonical Path Identity Records Winners Roster Protocol.
From S2P Require Import Database State StateLaws RosterStore Platform Installer InstallLaws Sync SyncLaws Session SessionLaws.
From S2P Require Import Join Network NetworkLoop NetworkHandle JoinLaws ApprovalLaws.
From S2P Require Import Scan WalkLaws ScanProps StoreNames Settings Setup Control Daemon DaemonLaws.

Section laws.
Context `{Crypto, Unicode, EventJson, Platform, Iroh, JoinCodec, !AmbientFs, !WalkLaws}.

(** The invariant of the store, with names that are text. *)
Definition store_ok (db : Database) : Prop :=
  db_wf db /\ forall name, attached db name -> utf8_valid name = true.

Definition no_older (gone : list bytes) (m m' : winner_map) : Prop :=
  forall k old, k.1 ∉ gone -> m !! k = Some old -> exists new, m' !! k = Some new /\ ole (winner_key old) (winner_key new).

Lemma no_older_refl gone m : no_older gone m m.
Proof. intros k old _ Hk. exists old. split; [done | apply ole_lt_eq; by right]. Qed.

(** Every collection is still attached, and every path has kept its record or
    got a greater one, the collections [gone] apart. *)
Definition keeps_all (gone : list bytes) (db db' : Database) : Prop :=
  (forall c, c ∉ gone -> attached db c -> attached db' c) /\ no_older gone (winners db) (winners db').

(** From a good store to a good store that has kept everything. *)
Definition supersedes (gone : list bytes) (db db' : Database) : Prop :=
  store_ok db -> store_ok db' /\ keeps_all gone db db'.

#[export] Instance supersedes_preorder gone : PreOrder (supersedes gone).
Proof.
  split.
  - intros db Hok. split; [done|]. split; [done | apply no_older_refl].
  - intros a b c Hab Hbc Ha. destruct (Hab Ha) as (Hb & Hnab & Hwab). destruct (Hbc Hb) as (Hc & Hnbc & Hwbc).
    split; [done|]. split; [by auto|].
    intros k old Hk Ho. destruct (Hwab k old Hk Ho) as (mid & Hm & Hle). destruct (Hwbc k mid Hk Hm) as (new & Hn & Hle2).
    exists new. split; [done | by etransitivity].
Qed.

Lemma supersedes_same gone db db' :
  (db_wf db -> db_wf db' /\ winners db' = winners db) -> same_attached db db' -> supersedes gone db db'.
Proof.
  intros Hw Hn [Hwf Hnames]. unfold keeps_all. destruct (Hw Hwf) as [Hwf' ->]. split; [split; [done | intros name Hname; by apply Hnames, Hn]|].
  split; [intros c _; apply Hn | apply no_older_refl].
Qed.

Definition db_moves (gone : list bytes) {A} (m : Db A) : Prop :=
  forall db r db', m db = (r, db') -> supersedes gone db db'.

Lemma db_quiet gone {A} (m : Db A) : off_records m -> keeps_names m -> db_moves gone m.
Proof. intros Ho Hn db r db' E. apply supersedes_same; [intros Hw; by apply (Ho _ _ _ E) | by apply (Hn _ _ _ E)]. Qed.
Lemma db_reads gone {A} (m : Db A) : reads m -> db_moves gone m.
Proof. intros Hm db r db' E. by rewrite (Hm _ _ _ E). Qed.
Lemma db_op gone op :
  other_op op -> names_op op -> db_moves gone (run_op op).
Proof.
  intros Ho Ha. apply db_quiet; [|by apply names_run_op].
  apply off_keeps; [|by apply keeps_run_op]. apply preserves_run_op. by destruct op.
Qed.

Lemma db_add_collection gone name path root : utf8_valid name = true -> db_moves gone (add_collection name path root).
Proof.
  intros Hu db r db' E [Hwf Hnames].
  unfold keeps_all. pose proof (keeps_winners _ _ _ _ (keeps_insert_collection name (mkCollectionRow path root (lit "pending") (lit "pending"))) E) as ->.
  pose proof (preserves_insert_collection _ _ _ _ _ Hwf E) as Hwf'.
  unfold add_collection, insert_collection_row, dbind, dget in E.
  case_match; injection E as _ <-; [by apply supersedes_preorder|].
  split; [split; [done|]|split; [|apply no_older_refl]].
  - intros n Hn. unfold attached in Hn. cbn in Hn. apply lookup_insert_is_Some in Hn as [<-|[_ Hn]]; [done | by apply Hnames].
  - intros c _ Hc. unfold attached. cbn. apply lookup_insert_is_Some. destruct (decide (name = c)); auto.
Qed.

Lemma db_remove gone name : name ∈ gone -> db_moves gone (remove_collection name).
Proof.
  intros Hg db r db' E Hok.
  assert (run_op (OpRemoveCollection name) db = ((let? _ := r in Ok tt), db')) as E1.
  { cbn [run_op]. unfold forget, dbind. rewrite E. by destruct r. }
  pose proof (preserves_run_op (OpRemoveCollection name) I _ _ _ (proj1 Hok) E1) as Hwf'.
  unfold remove_collection, delete_collection_row, dbind, dget in E.
  destruct (collections_t db !! name) as [row|] eqn:Hrow; [|injection E as _ <-; by apply supersedes_preorder].
  injection E as _ <-. destruct Hok as [Hwf Hnames].
  split; [split; [done|]|split].
  - intros n Hn. unfold attached in Hn. cbn in Hn. apply lookup_delete_is_Some in Hn as [_ Hn]. by apply Hnames.
  - intros c Hc Ha. unfold attached. cbn. apply lookup_delete_is_Some. split; [congruence | done].
  - intros k old Hk Ho. exists old. split; [|apply ole_lt_eq; by right].
    unfold winners in *. rewrite lookup_omap in *. cbn [path_records_t set_path_records].
    rewrite map_lookup_filter. destruct (path_records_t db !! k) as [x|]; [|done]. cbn.
    rewrite option_guard_True; [done|]. congruence.
Qed.

Lemma db_bind gone {A B} (m : Db A) (f : A -> Db B) :
  db_moves gone m -> (forall a, db_moves gone (f a)) -> db_moves gone (dbind m f).
Proof.
  intros Hm Hf db r db' E. unfold dbind in E. destruct (m db) as [[a|e] db1] eqn:Em.
  - etransitivity; [by eapply Hm | by eapply Hf].
  - injection E as _ <-. by eapply Hm.
Qed.

Lemma db_change gone identity change hint : db_moves gone (apply_roster_change_inner identity change hint).
Proof. apply db_quiet; [apply off_change | apply names_change]. Qed.
Lemma db_change_hint gone identity change e hint :
  db_moves gone (apply_roster_change_with_peer_hint identity change e hint).
Proof. apply db_bind; [apply db_reads, reads_dlift | intros; apply db_change]. Qed.

(** ** The parts of the network handle *)

Definition w_moves (gone : list bytes) (w w' : World) : Prop := supersedes gone (w_db w) (w_db w').
#[export] Instance w_moves_preorder gone : PreOrder (w_moves gone).
Proof. unfold w_moves. split; [by intros w | intros a b c; apply transitivity]. Qed.

Lemma w_leaves gone {E A} (m : IO E A) : respects same_db m -> respects (w_moves gone) m.
Proof. intros Hm w r w' E'. unfold w_moves. by rewrite (Hm _ _ _ E'). Qed.
Lemma w_db_moves gone {A} (m : Db A) : db_moves gone m -> respects (w_moves gone) (on_db m).
Proof.
  intros Hm w r w' E. unfold on_db in E. destruct (m (w_db w)) as [x db'] eqn:Em. injection E as _ <-.
  by apply (Hm _ _ _ Em).
Qed.

Lemma w_network gone {A} (m : Db A) : db_moves gone m -> respects (w_moves gone) (nstate m).
Proof. intros Hm. unfold nstate. apply respects_map_err. by apply w_db_moves. Qed.

Ltac network_leaf :=
  first [ apply w_network; first [ apply db_reads, reads_chain | apply db_change | apply db_change_hint
                                 | exact (db_op _ (OpPeerHint _ _) I I) ]
        | apply w_leaves, collect_hints_keeps ].

Lemma w_remove_peer gone identity peer h : respects (w_moves gone) (remove_peer identity peer h).
Proof. unfold remove_peer, apply_roster_change. walk network_leaf. Qed.

Lemma w_build_approval gone identity json info addr : respects (w_moves gone) (build_join_approval_in identity json info addr).
Proof.
  unfold build_join_approval_in, approval_peer_hints. cbv zeta. walk network_leaf.
Qed.

Lemma w_decide gone identity t1 t2 id approve alive h w d w' :
  decide_request identity t1 t2 id approve alive h w = (d, w') -> w_moves gone w w'.
Proof.
  unfold decide_request, build_join_approval, decide_on. intros E.
  destruct (negb approve); [by destruct (decide_join _ _ _ _ _) as [[]]; injection E as _ <-|].
  destruct (pending_addr _ _ _) as [[[info addr]|e] joins].
  - destruct (NetworkHandle.endpoint_addr_json _) as [json|e].
    + destruct (build_join_approval_in _ _ _ _ w) as [[decision|e] w1] eqn:Eb; apply w_build_approval with (gone := gone) in Eb.
      * destruct (decide_join _ _ _ _ _) as [[[u|e] sent] j]; by injection E as _ <-.
      * destruct (decide_join _ _ _ _ _) as [[r sent] j]; by injection E as _ <-.
    + destruct (decide_join _ _ _ _ _) as [[r sent] j]; by injection E as _ <-.
  - destruct (decide_join _ _ _ _ _) as [[r sent] j]; by injection E as _ <-.
Qed.

(** ** Requests *)

Abbreviation db_of_service s := (w_db (sv_world s)).
Definition moves (gone : list bytes) {A} (m : DIO A) : Prop :=
  forall s r s', m s = (r, s') -> supersedes gone (db_of_service s) (db_of_service s').

Lemma daemon_ret gone {A} (a : A) : moves gone (sret a).
Proof. by intros s r s' [= _ <-]. Qed.
Lemma daemon_fail gone {A} e : moves gone (sfail (A := A) e).
Proof. by intros s r s' [= _ <-]. Qed.
Lemma moves_lift gone {A} (r : result A DaemonError) : moves gone (slift r).
Proof. by intros s x s' [= _ <-]. Qed.

(** What a call returns from a good store may be used of what follows. *)
Lemma daemon_bind_with gone {A B} (P : A -> Prop) (m : DIO A) (f : A -> DIO B) :
  moves gone m -> (forall s a s', store_ok (db_of_service s) -> m s = (Ok a, s') -> P a) ->
  (forall a, P a -> moves gone (f a)) -> moves gone (srbind m f).
Proof.
  intros Hm HP Hf s r s' E Hok. unfold srbind in E. destruct (m s) as [[a|e] s1] eqn:Em.
  - pose proof (Hm _ _ _ Em) as Hs1. pose proof (Hf a (HP _ _ _ Hok Em) _ _ _ E) as Hs2.
    exact (transitivity Hs1 Hs2 Hok).
  - injection E as _ <-. by apply (Hm _ _ _ Em).
Qed.
Lemma daemon_bind gone {A B} (m : DIO A) (f : A -> DIO B) :
  moves gone m -> (forall a, moves gone (f a)) -> moves gone (srbind m f).
Proof. intros Hm Hf. by apply (daemon_bind_with gone (fun _ => True)); auto. Qed.

Lemma moves_on_world gone {A} (m : IO DaemonError A) : respects (w_moves gone) m -> moves gone (on_world m).
Proof.
  intros Hm s r s' E. unfold on_world in E. destruct (m (sv_world s)) as [x w'] eqn:Em. injection E as _ <-.
  exact (Hm _ _ _ Em).
Qed.
Lemma w_state gone {A} (m : Db A) : db_moves gone m -> respects (w_moves gone) (state_io m).
Proof. intros Hm. unfold state_io. apply respects_map_err. by apply w_db_moves. Qed.
Lemma w_log gone event max_logs : respects (w_moves gone) (log_io event max_logs).
Proof.
  unfold log_io. walk ltac:(first [ apply w_leaves, leaves_db_now
                                  | apply w_state, (db_op _ (OpAppendLog _ _ _) I I) ]).
Qed.

Lemma moves_db gone {A} (m : Db A) : db_moves gone m -> moves gone (sdb m).
Proof. intros Hm. by apply moves_on_world, w_state. Qed.
Lemma daemon_world gone {A} (m : IO DaemonError A) : respects same_db m -> moves gone (on_world m).
Proof.
  intros Hm s r s' E. unfold on_world in E. destruct (m (sv_world s)) as [x w'] eqn:Em. injection E as _ <-.
  cbn [set_world sv_world]. by rewrite (Hm _ _ _ Em).
Qed.
Lemma moves_handle gone {A} (f : NetworkHandle.Handle -> result A NetworkError * NetworkHandle.Handle) : moves gone (on_handle f).
Proof. intros s r s' E. unfold on_handle in E. destruct (f _). by injection E as _ <-. Qed.
Lemma moves_read gone {A} (m : Database -> result A DaemonError * Database) :
  (forall db, (m db).2 = db) -> moves gone (sdbd m).
Proof.
  intros Hm s r s' E. unfold sdbd in E. specialize (Hm (db_of_service s)). destruct (m _) as [x db']. simpl in Hm.
  injection E as _ <-. cbn. by rewrite Hm.
Qed.
Lemma moves_trigger gone changed : moves gone (fun s => (Ok (A := unit) tt, if changed : bool then trigger_network s else s)).
Proof. intros s r s' [= _ <-]. by destruct changed. Qed.

Lemma moves_log gone e n : moves gone (daemon_log e n).
Proof. apply moves_on_world, w_log. Qed.
Lemma moves_watch_failed gone n st k : moves gone (watch_failed n st k).
Proof. apply daemon_bind; [apply moves_db, (db_op _ (OpWatchStatus n st) I I) | intros; apply moves_log]. Qed.

(** ** Scanning *)

Lemma merge_maps_monotone m rs k old :
  map_indexed m -> m !! k = Some old ->
  exists new, merge_maps m rs !! k = Some new /\ ole (winner_key old) (winner_key new).
Proof.
  unfold merge_maps. revert m old. induction rs as [|r rs IH]; intros m old Hi Hk; cbn [fold_left].
  - exists old. split; [done|]. apply ole_lt_eq. by right.
  - destruct (merge_map_monotone m r k old Hi Hk) as (mid & Hm & Hle).
    destruct (IH (merge_map m r) mid (merge_map_indexed m r Hi) Hm) as (new & Hn & Hle').
    exists new. split; [done | by etransitivity].
Qed.

Lemma moves_run_scan gone scanner c author :
  utf8_valid (cs_name c) = true -> moves gone (run_scan scanner c author).
Proof.
  intros Hu s r s' E [Hwf Hnames]. unfold run_scan in E.
  destruct (scan_collection scanner c author (sv_comparisons s) (sv_world s)) as [[x cmp] w'] eqn:Es.
  injection E as _ <-. cbn [sv_world]. pose proof (names_scan_collection _ _ _ _ _ _ _ _ Es) as Hn.
  apply scan_collection_merges in Es as [Hwf' Hwin]; [|done..].
  split; [split; [done | intros name Hname; by apply Hnames, Hn]|].
  split; [intros c' _; apply Hn|]. intros k old _ Hk. destruct Hwin as [[-> _]|(? & ? & ? & ? & rs & _ & _ & _ & -> & _)].
  - exists old. split; [done|]. apply ole_lt_eq. by right.
  - apply merge_maps_monotone; [by apply winners_indexed | done].
Qed.

Lemma moves_scan_safely gone scanner c author :
  utf8_valid (cs_name c) = true -> moves gone (scan_collection_safely scanner c author).
Proof.
  intros Hu. apply daemon_bind; [by apply moves_run_scan|]. intros [summary|e]; [apply daemon_ret|].
  apply daemon_bind; [apply moves_db, (db_op _ (OpScanStatus _ _) I I)|]. intros _.
  apply daemon_bind; [apply moves_log | intros; apply daemon_ret].
Qed.

(** The names a good store has are text. *)
Lemma collections_text s cs s' :
  store_ok (db_of_service s) -> sdb collections s = (Ok cs, s') -> Forall (fun c => utf8_valid (cs_name c) = true) cs.
Proof.
  intros [_ Hnames] E. unfold sdb, on_world, state_io, imap_err, on_db in E.
  destruct (collections (db_of_service s)) as [[x|e] db'] eqn:Ec; [|done]. injection E as -> <-.
  unfold collections, dbind, dget, dlift in Ec. injection Ec as Ec _.
  assert (Forall (fun row => utf8_valid row.1 = true) (items (collections_t (db_of_service s)))) as Hall.
  { apply Forall_forall. intros [name row] Hrow%items_elem. apply Hnames. by exists row. }
  revert cs Ec. induction Hall as [|[name row] rows Hrow _ IH]; intros cs Ec; cbn [decode_collections] in Ec.
  - by injection Ec as <-.
  - apply rbind_Ok in Ec as (c & Hc & Ec). apply rbind_Ok in Ec as (rest & Hrest & [= <-]).
    constructor; [|by apply IH]. unfold decode_collection in Hc. by inv_ok.
Qed.
Lemma collection_text name s c s' :
  store_ok (db_of_service s) -> sdb (collection name) s = (Ok (Some c), s') -> utf8_valid (cs_name c) = true.
Proof.
  intros [_ Hnames] E. unfold sdb, on_world, state_io, imap_err, on_db in E.
  destruct (collection name (db_of_service s)) as [[x|e] db'] eqn:Ec; [|done]. injection E as -> <-.
  unfold collection, dbind, dget, dlift, dret in Ec.
  destruct (collections_t _ !! name) as [row|] eqn:Hrow; [|done]. injection Ec as Ec _.
  apply rbind_Ok in Ec as (c' & Hc & [= ->]).
  assert (utf8_valid name = true) as Hu by (apply Hnames; by exists row).
  unfold decode_collection in Hc. by inv_ok.
Qed.

Lemma moves_collections gone : moves gone (sdb collections).
Proof. apply moves_db, db_reads, reads_collections. Qed.
Lemma moves_collection gone name : moves gone (sdb (collection name)).
Proof. apply moves_db, db_reads, reads_collection. Qed.

Lemma moves_scan_all gone scanner endpoint : moves gone (scan_all scanner endpoint).
Proof.
  apply (daemon_bind_with _ (Forall (fun c => utf8_valid (cs_name c) = true))); [apply moves_collections | apply collections_text|].
  intros cs Hcs. generalize false. induction Hcs as [|c cs Hc _ IH]; intros changed; cbn [scan_each]; [apply daemon_ret|].
  apply daemon_bind; [by apply moves_scan_safely | intros; apply IH].
Qed.

Lemma moves_build_watchers gone watch max_logs : moves gone (build_watchers watch max_logs).
Proof.
  apply daemon_bind; [apply moves_collections|]. intros cs.
  induction cs as [|c cs IH]; cbn [build_each]; [apply daemon_ret|].
  apply daemon_bind; [intros s r s' E; by destruct (canonicalize _ _); injection E as _ <-|]. intros [root|e].
  - destruct (negb _); apply daemon_bind; try (intros; apply IH); try apply moves_watch_failed.
    + apply moves_db, (db_op _ (OpWatchStatus _ _) I I).
    + intros _. apply daemon_bind; [apply IH | intros; apply daemon_ret].
  - apply daemon_bind; [apply moves_watch_failed | intros; apply IH].
Qed.

Lemma moves_drain gone inbox pending max_logs : moves gone (drain_watch_events inbox pending max_logs).
Proof.
  apply daemon_bind; [|intros; apply daemon_ret].
  induction (sort _) as [|name names IH]; cbn [fail_watches]; [apply daemon_ret|].
  apply daemon_bind; [apply moves_watch_failed | intros; apply IH].
Qed.

Lemma moves_scan_pending gone env names : moves gone (scan_pending env names).
Proof.
  induction names as [|name names IH]; cbn [scan_pending]; [apply daemon_ret|].
  apply (daemon_bind_with _ (fun found => forall c, found = Some c -> utf8_valid (cs_name c) = true)).
  - apply moves_collection.
  - intros s found s' Hok E c ->. by eapply collection_text.
  - intros found Hfound. apply daemon_bind; [|intros; apply IH].
    destruct found as [c|]; [|apply daemon_ret].
    apply daemon_bind; [apply moves_scan_safely; auto | intros; apply moves_trigger].
Qed.

(** ** Attaching and detaching *)

Lemma w_attach gone config name path :
  utf8_valid name = true -> respects (w_moves gone) (attach_collection config name path).
Proof.
  intros Hu. unfold attach_collection. cbv zeta.
  walk ltac:(first
    [ apply w_leaves, respects_map_err, leaves_db_fs | apply w_log
    | apply w_state; first [ apply db_reads, reads_collection | by apply db_add_collection
                           | apply (db_op _ (OpReplacePath _ _) I I) ] ]).
Qed.
Lemma w_detach gone config name : name ∈ gone -> respects (w_moves gone) (detach_collection config name).
Proof.
  intros Hg. unfold detach_collection.
  walk ltac:(first [ apply w_log | apply w_state; by apply db_remove ]).
Qed.

(** ** Reports *)

Lemma store_reads_bind {A B} (m : Db A) (f : A -> Db B) : reads m -> (forall a, reads (f a)) -> reads (dbind m f).
Proof.
  intros Hm Hf db r db' E. unfold dbind in E. destruct (m db) as [[a|e] db1] eqn:Em.
  - apply Hf in E. by apply Hm in Em as ->.
  - injection E as _ <-. by apply Hm in Em.
Qed.
Lemma reads_count peers online : reads (count_reachable peers online).
Proof.
  revert online. induction peers as [|peer peers IH]; intros online; cbn [count_reachable]; [apply reads_dret|].
  apply store_reads_bind; [by intros db r db' [= _ <-] | intros; apply IH].
Qed.
Lemma reads_status device_name endpoint : reads (status_value device_name endpoint).
Proof.
  apply store_reads_bind; [|intros counts; apply store_reads_bind; [apply reads_chain|]; intros chain; cbv zeta;
                      apply store_reads_bind; [apply reads_count | intros; apply reads_dret]].
  apply store_reads_bind; [apply reads_get|]. intros db. cbv zeta.
  apply store_reads_bind; [apply reads_dlift|]. intros files. apply store_reads_bind; [apply reads_dlift | intros; apply reads_dret].
Qed.
Lemma reads_logs_page_value after_id limit : reads (logs_page_value after_id limit).
Proof.
  apply store_reads_bind; [|intros; apply reads_dret]. unfold logs_page. cbv zeta. apply store_reads_bind; [apply reads_dlift|]. intros n.
  apply store_reads_bind; [apply reads_get|]. intros db. apply store_reads_bind; [apply reads_dlift | intros; apply reads_dret].
Qed.
Lemma reads_peer_values members endpoint : reads (peer_values members endpoint).
Proof.
  induction members as [|[e name] members IH]; cbn [peer_values]; [apply reads_dret|]. cbv zeta.
  apply store_reads_bind; [destruct (bool_decide _); [apply reads_dret | by intros db r db' [= _ <-]]|]. intros online.
  apply store_reads_bind; [apply IH | intros; apply reads_dret].
Qed.
Lemma ddb_same {A} (m : Db A) db : reads m -> (ddb m db).2 = db.
Proof. intros Hm. unfold ddb. destruct (m db) as [r db'] eqn:E. by apply Hm in E as ->. Qed.
Lemma local_tip_same db : (local_tip db).2 = db.
Proof.
  unfold local_tip. pose proof (ddb_same selected_roster_chain db reads_chain) as Hs.
  by destruct (ddb _ db) as [[]].
Qed.
Lemma resolve_peer_same query db : (resolve_peer query db).2 = db.
Proof. unfold resolve_peer. pose proof (local_tip_same db). by destruct (local_tip db) as [[]]. Qed.
Lemma peers_value_same endpoint db : (peers_value endpoint db).2 = db.
Proof.
  unfold peers_value. pose proof (local_tip_same db) as Hs. destruct (local_tip db) as [[tip|e] db1]; [|done].
  rewrite ddb_same; [done|]. apply store_reads_bind; [apply reads_peer_values | intros; apply reads_dret].
Qed.

Lemma collections_value_same db : (collections_value db).2 = db.
Proof.
  unfold collections_value. pose proof (ddb_same collections db reads_collections) as Hs.
  by destruct (ddb _ db) as [[]].
Qed.

(** ** Requests *)

(** The collections a request detaches; the text of a request is UTF-8. *)
Definition detached_by (request : ControlRequest) : list bytes :=
  match request with RemoveCollection name => [name] | _ => [] end.
Definition named_ok (request : ControlRequest) : Prop :=
  match request with AddCollection name _ => utf8_valid name = true | _ => True end.

Lemma moves_remove_peer gone env peer : moves gone (remove_network_peer env peer).
Proof.
  intros s r s' E. unfold remove_network_peer, imap_err in E.
  destruct (remove_peer _ _ _ _) as [[[removed h]|e] w] eqn:Er; cbn [map_err] in E; injection E as _ <-;
    exact (w_remove_peer gone _ _ _ _ _ _ Er).
Qed.
Lemma moves_decide gone env request_id approve : moves gone (decide_network_join env request_id approve).
Proof.
  intros s r s' E. unfold decide_network_join in E. destruct (decide_request _ _ _ _ _ _ _ _) as [d w] eqn:Ed.
  injection E as _ <-. exact (w_decide gone _ _ _ _ _ _ _ _ _ _ Ed).
Qed.

Ltac moves :=
  repeat first
    [ apply daemon_ret | apply daemon_fail | apply moves_scan_all | apply moves_collection | apply moves_handle
    | apply moves_remove_peer | apply moves_decide
    | apply moves_read, resolve_peer_same | apply moves_read, peers_value_same
    | apply moves_read, collections_value_same | apply moves_lift
    | apply moves_db, db_reads; first [apply reads_status | apply reads_logs_page_value]
    | apply daemon_bind; [|intros ?] ].

Lemma moves_request env request : named_ok request -> moves (detached_by request) (request_result env request).
Proof.
  intros Hn. destruct request as [| |name path|name|after_id limit| |[|]| | |peer|nonce lifetime| |id approve|];
    cbn [request_result detached_by]; cbv zeta; try by moves.
  - apply daemon_bind; [by apply moves_on_world, w_attach|]. intros _.
    apply (daemon_bind_with _ (fun found => forall c, found = Some c -> utf8_valid (cs_name c) = true)).
    + apply moves_collection.
    + intros s found s' Hok E c ->. by eapply collection_text.
    + intros [c|] Hc; [|apply daemon_fail]. apply daemon_bind; [by apply moves_scan_safely; auto | intros; moves].
  - apply daemon_bind; [apply moves_on_world, w_detach, list_elem_of_singleton; done | intros; apply daemon_ret].
Qed.

Lemma moves_handle_request env request s r s' :
  named_ok request -> handle_request env request s = (r, s') ->
  supersedes (detached_by request) (db_of_service s) (db_of_service s').
Proof.
  intros Hn E. unfold handle_request in E.
  destruct (request_result env request s) as [[[value a]|e] s1] eqn:Er; [|destruct e]; injection E as _ <-;
    exact (moves_request env request Hn _ _ _ Er).
Qed.

(** ** A turn *)

Definition db_of_daemon (d : DaemonState) : Database := db_of_service (ds_service d).

(** What a turn's requests ask for. *)
Definition requests_of (t : Turn) : list ControlRequest :=
  omap (fun v => match vi_request v with Ok request => Some request | Err _ => None end) (tu_visits t).
Definition detached_in (visits : list Visit) : list bytes :=
  concat (map (fun v => match vi_request v with Ok request => detached_by request | Err _ => [] end) visits).
Definition visit_ok (v : Visit) : Prop :=
  match vi_request v with Ok request => named_ok request | Err _ => True end.

Lemma supersedes_more gone gone' db db' : gone ⊆ gone' -> supersedes gone db db' -> supersedes gone' db db'.
Proof.
  intros Hs Hm Hok. destruct (Hm Hok) as (Hok' & Hn & Hw). split; [done|].
  split; [intros c Hc; apply Hn; auto | intros k old Hk; apply Hw; auto].
Qed.

Lemma act_moves watch max_logs action d d' :
  act watch max_logs action d = Ok d' -> supersedes [] (db_of_daemon d) (db_of_daemon d').
Proof.
  destruct action; cbn [act]; intros E; try by injection E as <-.
  destruct (build_watchers _ _ _) as [[watched|e] s] eqn:Eb; [|done]. injection E as <-.
  exact (moves_build_watchers [] _ _ _ _ _ Eb).
Qed.
Lemma accept_wait_db v d : db_of_daemon (accept_wait v d).2 = db_of_daemon d.
Proof. unfold accept_wait. destruct (_ =? _); [done|]. by destruct (start_sync _ _) as [[[]|e] h]. Qed.

Lemma accept_moves watch max_logs v d written d' :
  visit_ok v -> accept watch max_logs v d = (written, Ok d') ->
  supersedes (detached_in [v]) (db_of_daemon d) (db_of_daemon d').
Proof.
  unfold visit_ok, detached_in, accept. cbn [map concat]. rewrite app_nil_r.
  destruct (vi_request v) as [request|e]; [|by intros _ [= _ <-]]. intros Hn.
  assert (forall response action s,
    handle_request (vi_env v) request (ds_service d) = (Ok (response, action), s) ->
    ([(vi_stream v, response)], act watch max_logs action (set_service s d)) = (written, Ok d') ->
    supersedes (detached_by request) (db_of_daemon d) (db_of_daemon d')) as Hrequest.
  { intros response action s Eh [= _ Ha]. apply act_moves in Ha. apply moves_handle_request in Eh; [|done].
    etransitivity; [exact Eh|]. apply (supersedes_more []); [apply list_subseteq_nil | exact Ha]. }
  destruct (handle_request (vi_env v) request (ds_service d)) as [[[response action]|panic] s] eqn:Eh;
    destruct request as [| | | | | | [|] | | | | | | |]; try done; try (by apply (Hrequest _ _ _ eq_refl)).
  all: pose proof (accept_wait_db v d) as Hw. destruct (accept_wait v d) as [w d1]. intros E. injection E as _ <-. cbn in Hw. by rewrite Hw.
Qed.

Lemma accept_all_moves watch max_logs visits d written d' :
  Forall visit_ok visits -> accept_all watch max_logs visits d = (written, Ok d') ->
  supersedes (detached_in visits) (db_of_daemon d) (db_of_daemon d').
Proof.
  intros Hall. revert d written. induction Hall as [|v visits Hv _ IH]; intros d written E; cbn [accept_all] in E.
  - by injection E as _ <-.
  - destruct (accept watch max_logs v d) as [w [d1|e]] eqn:Ea; [|done].
    destruct (accept_all watch max_logs visits d1) as [rest r] eqn:Er. injection E as _ ->.
    apply accept_moves in Ea; [|done]. apply IH in Er.
    etransitivity; (eapply supersedes_more; [|eassumption]); unfold detached_in; cbn [map concat]; rewrite ?app_nil_r;
      set_solver.
Qed.

Lemma turn_moves t d written d' :
  Forall visit_ok (tu_visits t) -> daemon_turn t d = (written, Ok d') ->
  supersedes (detached_in (tu_visits t)) (w_db (tu_world t)) (db_of_daemon d').
Proof.
  intros Hall. unfold daemon_turn. destruct (finish_pending_syncs _ _ _) as [w1 kept].
  unfold turn_start. destruct (srbind _ _ _) as [[u|e] s] eqn:Es; [|done].
  match type of Es with _ (mkService ?h ?c ?w) = _ => assert (supersedes [] w.(w_db) (db_of_service s)) as H1t end.
  { exact (daemon_bind [] _ _ (moves_drain _ _ _ _) (fun _ => moves_scan_pending _ _ _) _ _ _ Es). }
  destruct (accept_all _ _ _ _) as [w2 r] eqn:Ea. intros [= _ Hr]. apply rbind_Ok in Hr as (d2 & -> & Hfull).
  apply accept_all_moves in Ea; [|done].
  etransitivity; [eapply supersedes_more; [apply list_subseteq_nil | exact H1t]|].
  etransitivity; [exact Ea|].
  unfold full_scan in Hfull. destruct (_ <? _); [by injection Hfull as <-|].
  destruct (srbind _ _ (ds_service d2)) as [[watched|e] s2] eqn:Ew; [|done]. injection Hfull as <-.
  refine (daemon_bind _ _ _ (moves_scan_all _ _ _) (fun changed => _) _ _ _ Ew).
  apply daemon_bind; [apply moves_trigger | intros; apply moves_build_watchers].
Qed.
End laws.
