(* ===== verification/SessionMoves.v ===== *)
(** Sessions and the store: however a session ends and whatever the peer sent,
    no record is lost. *)

From S2P Require Import Prelude Bytes Utf8 Cursor Canonical Path Identity Records Winners Roster Protocol.
From S2P Require Import Database State StateLaws RosterStore Platform Installer InstallLaws Sync SyncLaws Session SessionLaws.
From S2P Require Import Join Network NetworkLoop NetworkHandle Scan WalkLaws ScanProps StoreNames Settings Setup Control Daemon.
From S2P Require Import DaemonLaws DaemonStore.

Section laws.
Context `{Crypto, Unicode, EventJson, Platform, Iroh}.
Variable gone : list bytes.
Abbreviation w_moves := (w_moves gone).
Abbreviation smoves := (SessionLaws.moves w_moves).

Lemma m_op op :
  other_op op -> names_op op -> respects w_moves (on_db (run_op op)).
Proof. intros Ho Ha. by apply w_db_moves, db_op. Qed.
Lemma m_read {A} (m : Db A) : reads m -> respects w_moves (on_db m).
Proof. intros Hm. by apply w_db_moves, db_reads. Qed.

Ltac move_step :=
  idtac; match goal with
  | |- respects _ now_ns => apply w_leaves, leaves_db_now
  | |- respects _ (on_fs _) => apply w_leaves, leaves_db_fs
  | |- respects _ (on_db (append_log ?t ?e ?n)) => exact (m_op (OpAppendLog t e n) I I)
  | |- respects _ (on_db (mark_repair_required_and_log ?c ?p ?t ?e ?n)) => exact (m_op (OpRepair c p t e n) I I)
  | |- respects _ (on_db (mark_tombstone_materialized_and_log ?c ?p ?t ?e ?n)) => exact (m_op (OpTombstone c p t e n) I I)
  | |- respects _ (on_db (mark_materialized_and_log ?c ?p ?f ?t ?e ?n)) => exact (m_op (OpMaterialized c p f t e n) I I)
  | |- respects _ (on_db (replace_peer_hint ?e ?h)) => exact (m_op (OpPeerHint e h) I I)
  | |- respects _ (on_db (query_record _ _)) => apply m_read, reads_query
  | |- respects _ (on_db (record_state _ _)) => apply m_read, reads_state
  | |- respects _ (on_db (collection _)) => apply m_read, reads_collection
  | |- respects _ (on_db selected_roster_chain) => apply m_read, reads_chain
  | |- respects _ (on_db collections) => apply m_read, reads_collections
  | |- respects _ (on_db (records _)) => apply m_read, reads_records
  | |- respects _ (on_db (record_states _)) => apply m_read, reads_states
  | |- respects _ (acquire_root _) => apply w_leaves, leaves_acquire
  | |- respects _ (open_components _ _ _ _) => apply w_leaves, leaves_open_components
  | |- respects _ (install_file _ _ _) => apply w_leaves, leaves_install
  end.

(** ** Installing *)

Lemma m_tombstone root r n : respects w_moves (materialize_tombstone root r n).
Proof. unfold materialize_tombstone, st, open_existing_safe_parent, io. walk move_step. Qed.
Lemma m_apply root r reader n : respects w_moves (apply_file_fixture root r reader n).
Proof. unfold apply_file_fixture, mark_installed, st. walk move_step. Qed.
Lemma m_hash fuel file hashed : respects w_moves (hash_loop fuel file hashed).
Proof. revert hashed. induction fuel as [|fuel IH]; intros hashed; cbn [hash_loop]; unfold io; walk move_step. apply IH. Qed.
Lemma m_open fuel root r : respects w_moves (open_verified_file fuel root r).
Proof. unfold open_verified_file, open_existing_safe_parent, io. walk ltac:(first [apply m_hash | move_step]). Qed.

(** ** Merging *)

Lemma merge_moves r t p n : record_wf r -> db_moves gone (merge_record r t p n).
Proof.
  intros Hr db x db' E [Hwf Hnames].
  assert (db_wf db') as Hwf' by exact (preserves_merge_record r t p n Hr _ _ _ Hwf E).
  pose proof (names_merge _ _ _ _ _ _ _ E) as Hn.
  split; [split; [done | intros name Hname; by apply Hnames, Hn]|]. split; [intros c _; apply Hn|]. intros k old _ Hk. destruct x as [b|e].
  - apply merge_record_refines in E as (_ & -> & _); [|done..].
    destruct (merge_map_monotone (winners db) r k old) as (new & ? & ?); [by apply winners_indexed | done | by exists new].
  - apply transaction_Err in E as ->. exists old. split; [done | apply ole_lt_eq; by right].
Qed.

Lemma m_candidate remote n limit root c r : record_wf r -> respects w_moves (merge_candidate remote n limit root c r).
Proof.
  intros Hr. unfold merge_candidate, state.
  walk ltac:(first [ apply m_tombstone | apply w_db_moves, merge_moves, Hr | move_step ]).
Qed.

Lemma m_bundle remote n limit bundle : bundle_wf bundle -> respects w_moves (merge_bundle remote n limit bundle).
Proof.
  induction bundle as [|[c m] bundle IH]; intros Hw; cbn [merge_bundle]; unfold state; [walk fail|].
  apply Forall_cons in Hw as [Hm Hw]. specialize (IH Hw). cbn [fst snd] in Hm.
  walk ltac:(first [apply IH | move_step]). revert Hm. generalize (manifest_records m). intros rs.
  induction rs as [|r rs IHr]; intros Hm; cbn [merge_candidates]; [walk fail|].
  apply Forall_cons in Hm as [[Hr _] Hm]. walk ltac:(first [by apply m_candidate | by apply IHr]).
Qed.

Lemma m_collect limit bundle : respects w_moves (collect_requests limit bundle).
Proof.
  induction bundle as [|[c m] bundle IH]; cbn [collect_requests]; unfold state; walk ltac:(first [apply IH | move_step]).
Qed.
Lemma m_select qs selected n : respects w_moves (select_requests qs selected n).
Proof.
  revert selected n. induction qs as [|q qs IH]; intros selected n; cbn [select_requests]; unfold state;
    walk ltac:(first [apply IH | move_step]).
Qed.
Lemma m_manifests config remote shared bundle :
  bundle_wf bundle -> respects w_moves (merge_remote_manifests config remote shared bundle).
Proof.
  intros Hw. unfold merge_remote_manifests.
  walk ltac:(first [ by apply m_bundle | apply m_collect | apply m_select | move_step ]).
Qed.
Lemma m_build shared : respects w_moves (build_manifests shared).
Proof. induction shared as [|c shared IH]; cbn [build_manifests]; unfold state; walk ltac:(first [apply IH | move_step]). Qed.

(** ** The roster *)

Lemma names_merge_revisions rs : keeps_names (merge_revisions rs).
Proof.
  induction rs as [|r rs IH]; cbn [merge_revisions]; unfold roster_revision; [names|].
  apply names_bind; [names|]. intros present. apply names_bind; [|done].
  unfold insert_roster_revision, insert_roster_revision_row. names.
Qed.
Lemma names_merge_chain rs : keeps_names (merge_selected_roster_chain rs).
Proof.
  unfold merge_selected_roster_chain. destruct rs as [|g rs]; [names|].
  repeat (apply names_bind; [names|intros ?]). case_match; [names|]. apply names_if; [names | apply names_merge_revisions].
Qed.

Lemma m_reapply identity local rs : respects w_moves (reapply_changes identity local rs).
Proof.
  unfold reapply_changes, state. induction rs as [|r rs IH]; [by walk fail|].
  walk ltac:(first [ apply IH | apply w_db_moves, db_change | move_step ]).
Qed.

Lemma m_accept identity rs genesis local remote encoded :
  respects w_moves (accept_remote_roster_and_hint identity rs genesis local remote encoded).
Proof.
  unfold accept_remote_roster_and_hint, merge_and_authorize_remote_roster, state.
  walk ltac:(first [ apply m_reapply | apply w_db_moves, db_quiet; [apply off_merge_chain | apply names_merge_chain]
    | move_step ]).
Qed.

Lemma m_authorize local remote : respects w_moves (authorize_local_roster local remote).
Proof. unfold authorize_local_roster, state. walk move_step. Qed.
Lemma m_session_state : respects w_moves local_session_state.
Proof. unfold local_session_state, state. walk move_step. Qed.

(** ** Transfers *)

Lemma m_log_unavailable config remote q b : respects w_moves (log_unavailable config remote q b).
Proof. unfold log_unavailable, state. walk move_step. Qed.
Lemma m_prepare config remote q : respects w_moves (prepare_requested_file config remote q).
Proof.
  unfold prepare_requested_file, unavailable, state.
  walk ltac:(first [apply m_log_unavailable | apply m_open | move_step]).
Qed.
Lemma m_apply_received config remote q r staged : respects w_moves (apply_received config remote q r staged).
Proof. unfold apply_received, state. walk ltac:(first [apply m_log_unavailable | apply m_apply | move_step]). Qed.

Lemma m_stream fuel file n : smoves (stream_loop fuel file n).
Proof. revert n. induction fuel as [|fuel IH]; intros n; cbn [stream_loop]; unfold disk; swalk ltac:(first [apply IH | move_step]). Qed.

Lemma m_send config remote shared qs : smoves (send_files config remote shared qs).
Proof.
  unfold send_files. apply SessionLaws.moves_bind; [exact _ | swalk fail | intros _]. generalize 0.
  induction qs as [|q qs IH]; intros n; cbn [send_requested]; unfold stream_file, proto, state;
    swalk ltac:(first [ apply IH | apply m_stream | apply m_log_unavailable | apply m_prepare | move_step ]).
Qed.

Lemma m_receive_raw staged n h : smoves (receive_raw_file staged n h).
Proof.
  unfold receive_raw_file, disk. apply SessionLaws.moves_bind; [exact _ | | intros hashed; swalk move_step].
  generalize (S (Z.to_nat (n / BUFFER + 1))). intros fuel. generalize n, (@nil byte).
  induction fuel as [|fuel IH]; intros m l; cbn [receive_loop]; unfold disk; swalk ltac:(first [apply IH | move_step]).
Qed.

Lemma m_receive config remote qs : smoves (receive_files config remote qs).
Proof.
  induction qs as [|q qs IH]; cbn [receive_files]; [swalk fail|].
  apply SessionLaws.moves_bind; [exact _ | | intros _; apply IH]. unfold receive_file, proto, disk, state.
  swalk ltac:(first [ apply m_receive_raw | apply m_log_unavailable | apply m_apply_received | move_step ]).
Qed.

Lemma m_exchange_files side config remote shared qs rs : smoves (exchange_files side config remote shared qs rs).
Proof. unfold exchange_files. swalk ltac:(first [apply m_send | apply m_receive]). Qed.

(** ** A session *)

Lemma m_exchange tag l : smoves (exchange_frame tag l).
Proof. unfold exchange_frame, read_expected, proto. swalk fail. Qed.

(** What follows may rely on what a step yields. *)
Lemma moves_bind_with {A B} (P : A -> Prop) (m : SIO A) (f : A -> SIO B) :
  smoves m -> (forall s a s', m s = (Ok a, s') -> P a) -> (forall a, P a -> smoves (f a)) ->
  smoves (sbind m f).
Proof.
  intros Hm HP Hf s r s' E. apply sbind_cases in E as [(e & _ & E)|(a & s1 & Em & E)]; [by apply (Hm _ _ _ E)|].
  etransitivity; [by apply (Hm _ _ _ Em) | by apply (Hf a (HP _ _ _ Em) _ _ _ E)].
Qed.

(** The bundle that was decoded names well-formed records. *)
Lemma moves_decoded {B} l (f : list (bytes * Manifest) -> SIO B) :
  (forall bundle, bundle_wf bundle -> smoves (f bundle)) ->
  smoves (sbind (world (proto (manifest_bundle_decode l))) f).
Proof.
  apply moves_bind_with; [unfold proto; swalk fail|]. intros s bundle s' E.
  apply world_run in E as [_ E]. injection E as E _. apply map_err_Ok in E. by apply (decoded_bundle_wf l).
Qed.

Ltac piece :=
  swalk ltac:(first [ apply m_exchange | apply m_exchange_files | apply m_authorize | apply m_session_state | apply m_accept
    | apply m_build | by apply m_manifests | progress unfold proto | apply respects_lift; exact _ | move_step ]).

Lemma session_moves connection side config : smoves (run_session_with_outcome connection side config).
Proof.
  unfold run_session_with_outcome. cbv zeta.
  repeat (lazymatch goal with
    | |- _ (sbind (world (proto (manifest_bundle_decode _))) _) => apply moves_decoded; intros ? ?
    | |- _ (sbind _ _) => apply SessionLaws.moves_bind; [exact _ | piece | intros ?]
    | |- _ (if _ then _ else _) => apply moves_if; [piece|]
    | |- _ (let '(_, _) := ?x in _) => destruct x
    end).
  piece.
Qed.
End laws.
