(* ===== verification/Group.v ===== *)
(** A group of devices that meet in sessions: once the sessions have carried
    what every device held to every other, all hold the same records.  With an
    example in which a file goes from a scan to another device. *)

From S2P Require Import Prelude Bytes Utf8 Cursor Canonical Path Identity Concrete Records Winners Roster Protocol.
From S2P Require Import Database State StateLaws StateProps RosterStore RosterProps Platform Installer InstallLaws ToyFs.
From S2P Require Import Sync SyncLaws SyncProps Session SessionLaws SessionEnds SessionProps Scan ScanProps DaemonStore SessionMoves.

(** ** What sessions carry *)

(** The devices that meet, in order; [None] is anything else that happens.
    [reaches events j i]: what [j] held before can have reached [i] after. *)
Fixpoint reaches {D} `{EqDecision D} (events : list (option (D * D))) (j i : D) : bool :=
  match events with
  | [] => bool_decide (j = i)
  | Some (a, b) :: events =>
      if bool_decide (j = a) || bool_decide (j = b) then reaches events a i || reaches events b i
      else reaches events j i
  | None :: events => reaches events j i
  end.

Section group.
Context `{Crypto, Unicode, EventJson, Iroh} {D : Type} `{EqDecision D}.
(** Every device has its own files and clock, and how far it lets records be
    ahead of that clock. *)
Context (platform : D -> Platform) (skew : D -> Z).

Definition Group : Type := forall i, @World (platform i).
Definition store (g : Group) (i : D) : Database := w_db (g i).

(** A record too far in the future for a device, at a reading of its clock. *)
Definition ahead (i : D) (n : nat) (r : record) : bool :=
  i64_saturating_add (clock_ns (@clock (platform i) n)) (duration_ns (skew i)) <? rec_modified_ns r.

(** A step of the group.  Two devices complete a session: each runs it on its
    world, on what the other one writes.  Or a device does anything that loses
    nothing and takes its records from the group, which includes sessions that
    fail. *)
Inductive step (g g' : Group) : option (D * D) -> Prop :=
  | step_session i j (si si' : @Session (platform i)) (sj sj' : @Session (platform j))
      conn_i conn_j side_i side_j conf_i conf_j oi oj :
      both_succeed si si' sj sj' conn_i conn_j side_i side_j conf_i conf_j oi oj ->
      sc_max_future_clock_skew conf_i = skew i -> sc_max_future_clock_skew conf_j = skew j ->
      ss_world si = g i -> ss_world sj = g j -> ss_world si' = g' i -> ss_world sj' = g' j ->
      (forall k, k <> i -> k <> j -> g' k = g k) ->
      step g g' (Some (i, j))
  | step_other i :
      supersedes [] (store g i) (store g' i) ->
      (forall k r, winners (store g' i) !! k = Some r -> exists j, winners (store g j) !! k = Some r) ->
      (forall k, k <> i -> g' k = g k) ->
      step g g' None.

Inductive steps : Group -> list (option (D * D)) -> Group -> Prop :=
  | steps_done g : steps g [] g
  | steps_step g e g1 events g' : step g g1 e -> steps g1 events g' -> steps g (e :: events) g'.

(** ** One path of one collection *)

Section path.
Variable k : bytes * bytes.
(** The records some device held at the beginning; none is too far in the future. *)
Variable origin : record -> Prop.
Hypothesis past : forall r, origin r -> forall i n, ahead i n r = false.

Record sound (g : Group) : Prop := mkSound {
  so_store : forall i, store_ok (store g i);
  so_attached : forall i, attached (store g i) k.1;
  so_origin : forall i r, winners (store g i) !! k = Some r -> origin r;
}.

(** [o'] holds a record, if [o] does, that is not older. *)
Definition at_least (o o' : option record) : Prop :=
  forall r, o = Some r -> exists new, o' = Some new /\ ole (winner_key r) (winner_key new).

#[global] Instance at_least_preorder : PreOrder at_least.
Proof.
  split.
  - intros o r Hr. exists r. split; [done|]. apply ole_lt_eq. by right.
  - intros a b c Hab Hbc r (x & Hx & Hle)%Hab. apply Hbc in Hx as (y & Hy & Hle'). exists y.
    split; [done | by etransitivity].
Qed.

Lemma top_at_least P r o : top_at P k o -> P r -> index_of r = k -> at_least (Some r) o.
Proof.
  intros Ht Hr Hk s [= <-]. destruct o as [new|]; [|by destruct (Ht r Hr)].
  destruct Ht as (Hn & _ & Hg). exists new. split; [done|]. apply Hg; [done | congruence].
Qed.

Lemma past_timely i conf (w : @World (platform i)) r :
  sc_max_future_clock_skew conf = skew i -> origin r -> timely (future_limit conf w) r = true.
Proof. intros Hs Hr. unfold timely, future_limit. rewrite Hs. apply negb_true_iff. by apply (past r Hr i (w_tick w)). Qed.

Lemma both_succeed_sym {P Q : Platform} (sa sa' : @Session P) (sb sb' : @Session Q) ca cb da db fa fb oa ob :
  both_succeed sa sa' sb sb' ca cb da db fa fb oa ob -> both_succeed sb sb' sa sa' cb ca db da fb fa ob oa.
Proof. unfold both_succeed. tauto. Qed.

(** One end of a session. *)
Lemma session_end i (si si' : @Session (platform i)) {P : Platform} (sj sj' : @Session P) ci cj di dj fi fj oi oj :
  both_succeed si si' sj sj' ci cj di dj fi fj oi oj -> sc_max_future_clock_skew fi = skew i ->
  attached (w_db (ss_world si)) k.1 -> attached (w_db (ss_world sj)) k.1 ->
  (forall r, winners (w_db (ss_world sj)) !! k = Some r -> origin r) ->
  supersedes [] (w_db (ss_world si)) (w_db (ss_world si')) /\
  top_at (fun r => winners (w_db (ss_world si)) !! k = Some r \/ winners (w_db (ss_world sj)) !! k = Some r) k
    (winners (w_db (ss_world si')) !! k).
Proof.
  intros Hboth Hs Hai Haj Hor. split.
  - destruct Hboth as (_ & _ & _ & _ & E & _). exact (session_moves [] ci di fi _ _ _ E).
  - destruct (both_talked _ _ _ _ _ _ _ _ _ _ _ _ Hboth) as (ti & tj & Ti & Tj).
    destruct Hboth as (Hwi & Hwj & Hij & Hji & _).
    destruct (met_winners _ _ _ _ _ _ _ _ _ _ _ _ k Hwi Hwj Hij Hji Ti Tj) as [_ Ht].
    apply Ht; [done..| | by apply top_at_self, winners_indexed | by apply top_at_self, winners_indexed].
    intros r Hr w. apply (past_timely i); [done | by apply Hor].
Qed.

(** After a session, each of the two holds at least what either held. *)
Lemma session_step g g' i j :
  sound g -> step g g' (Some (i, j)) ->
  sound g' /\ (forall x, at_least (winners (store g x) !! k) (winners (store g' x) !! k)) /\
  forall x y, x ∈ [i; j] -> y ∈ [i; j] -> at_least (winners (store g x) !! k) (winners (store g' y) !! k).
Proof.
  intros [Hok Hat Hor] Hs. inversion Hs as [? ? si si' sj sj' ci cj di dj fi fj oi oj Hboth Hsi Hsj Ei Ej Ei' Ej' Hrest|]; subst.
  assert (supersedes [] (store g i) (store g' i) /\
    top_at (fun r => winners (store g i) !! k = Some r \/ winners (store g j) !! k = Some r) k (winners (store g' i) !! k)) as [Mi Ti].
  { unfold store. rewrite <-Ei, <-Ej, <-Ei'. apply (session_end _ _ _ _ _ _ _ _ _ _ _ _ _ Hboth); [done | rewrite Ei; apply Hat | rewrite Ej; apply Hat |].
    rewrite Ej. apply Hor. }
  assert (supersedes [] (store g j) (store g' j) /\
    top_at (fun r => winners (store g j) !! k = Some r \/ winners (store g i) !! k = Some r) k (winners (store g' j) !! k)) as [Mj Tj].
  { unfold store. rewrite <-Ei, <-Ej, <-Ej'. apply (session_end _ _ _ _ _ _ _ _ _ _ _ _ _ (both_succeed_sym _ _ _ _ _ _ _ _ _ _ _ _ Hboth));
      [done | rewrite Ej; apply Hat | rewrite Ei; apply Hat |]. rewrite Ei. apply Hor. }
  destruct (Mi (Hok i)) as (Oki & Ati & _), (Mj (Hok j)) as (Okj & Atj & _).
  assert (forall x, x = i \/ x = j \/ store g' x = store g x) as Hx.
  { intros x. unfold store. destruct (decide (x = i)); [by left|]. destruct (decide (x = j)); [by right; left|].
    right. right. by rewrite Hrest. }
  assert (forall x y, x ∈ [i; j] -> y ∈ [i; j] -> at_least (winners (store g x) !! k) (winners (store g' y) !! k)) as Hmeet.
  { intros x y Hix Hiy r Hr. pose proof (winners_indexed _ (proj1 (Hok x)) _ _ Hr) as Hk.
    apply elem_of_cons in Hiy as [->|Hiy]; [|apply list_elem_of_singleton in Hiy as ->];
      (eapply top_at_least; [eassumption| |done..]); cbn;
      (apply elem_of_cons in Hix as [->|Hix]; [|apply list_elem_of_singleton in Hix as ->]); auto. }
  split; [split|split; [|done]].
  - intros x. by destruct (Hx x) as [->|[->| ->]].
  - intros x. destruct (Hx x) as [->|[->| ->]]; [apply Ati | apply Atj | done]; (done || by apply not_elem_of_nil).
  - intros x r Hr. destruct (Hx x) as [->|[->|E]].
    + rewrite Hr in Ti. destruct Ti as (_ & [Ho|Ho] & _); by eapply Hor.
    + rewrite Hr in Tj. destruct Tj as (_ & [Ho|Ho] & _); by eapply Hor.
    + rewrite E in Hr. by eapply Hor.
  - intros x. destruct (Hx x) as [->|[->| ->]]; [apply Hmeet; set_solver.. | done].
Qed.

Lemma other_step g g' :
  sound g -> step g g' None ->
  sound g' /\ forall x, at_least (winners (store g x) !! k) (winners (store g' x) !! k).
Proof.
  intros [Hok Hat Hor] Hs. inversion Hs as [|i Hsup Hfrom Hrest]; subst.
  assert (forall x, x = i \/ store g' x = store g x) as Hx.
  { intros x. unfold store. destruct (decide (x = i)); [by left|]. right. by rewrite Hrest. }
  destruct (Hsup (Hok i)) as (Oki & Ati & Noi). split; [split|].
  - intros x. by destruct (Hx x) as [->| ->].
  - intros x. destruct (Hx x) as [->| ->]; [|done]. apply Ati; [by apply not_elem_of_nil | done].
  - intros x r Hr. destruct (Hx x) as [->|E]; [|rewrite E in Hr; by eapply Hor].
    apply Hfrom in Hr as [j Hr]. by eapply Hor.
  - intros x. destruct (Hx x) as [->| ->]; [|done]. intros r Hr. apply Noi; [by apply not_elem_of_nil | done].
Qed.

(** What a device held reaches every device it reaches. *)
Lemma steps_carry g events g' :
  steps g events g' -> sound g ->
  sound g' /\ forall j i, reaches events j i = true -> at_least (winners (store g j) !! k) (winners (store g' i) !! k).
Proof.
  induction 1 as [g|g e g1 events g' Hs _ IH]; intros Hg.
  - split; [done|]. intros j i Hr. cbn in Hr. boolp. by subst.
  - destruct e as [[a b]|].
    + destruct (session_step _ _ _ _ Hg Hs) as (Hg1 & Hkeep & Hmeet). destruct (IH Hg1) as [Hg' Hr]. split; [done|].
      intros j i Hji. cbn [reaches] in Hji. case_match eqn:Hj.
      * apply orb_true_iff in Hj. boolp.
        assert (j ∈ [a; b]) as Hin by (destruct Hj; boolp; set_solver).
        apply orb_true_iff in Hji as [Hji|Hji]; (etransitivity; [|by apply Hr, Hji]); apply Hmeet; set_solver.
      * etransitivity; [apply Hkeep | by apply Hr].
    + destruct (other_step _ _ Hg Hs) as (Hg1 & Hkeep). destruct (IH Hg1) as [Hg' Hr]. split; [done|].
      intros j i Hji. etransitivity; [apply Hkeep | by apply Hr].
Qed.
End path.

(** C1: A group converges.  Let devices complete sessions in any order, each on
    its own files and clock, and in between do anything that loses nothing and
    takes its records from the group.  When what every device held can have
    reached every other through the sessions, all of them hold the same
    record of every path of a collection that all have attached: the greatest
    that any held at the beginning, provided none is too far ahead of a clock
    and the hash separates them. *)
Theorem group_converges all g events g' c path :
  let held_first r := exists i, stored (store g i) r /\ index_of r = (c, path) in
  (forall i, store_ok (store g i)) -> (forall i, attached (store g i) c) ->
  steps g events g' -> (forall j i, reaches events j i = true) ->
  hash_separates all -> (forall r, held_first r -> r ∈ all) ->
  (forall r, held_first r -> forall i n, ahead i n r = false) ->
  (forall i, top_at held_first (c, path) (winners (store g' i) !! (c, path))) /\
  forall i j, winners (store g' i) !! (c, path) = winners (store g' j) !! (c, path).
Proof.
  intros held_first Hok Hat Hsteps Hreach Hsep Hall Hpast.
  assert (forall i r, winners (store g i) !! (c, path) = Some r -> held_first r) as Hor.
  { intros i r Hr. exists i. unfold stored. pose proof (winners_indexed _ (proj1 (Hok i)) _ _ Hr) as ->. done. }
  destruct (steps_carry (c, path) held_first Hpast g events g' Hsteps) as [Hg' Hcarry]; [by split|].
  assert (forall i, top_at held_first (c, path) (winners (store g' i) !! (c, path))) as Htop.
  { intros i. assert (forall r, held_first r -> at_least (Some r) (winners (store g' i) !! (c, path))) as Hup.
    { intros r (j & Hr & Hk). unfold stored in Hr. rewrite Hk in Hr. rewrite <-Hr. by apply Hcarry. }
    destruct (winners (store g' i) !! (c, path)) as [n|] eqn:En; cbn [top_at].
    - split; [by apply (winners_indexed _ (proj1 (so_store _ _ _ Hg' i)))|].
      split; [by apply (so_origin _ _ _ Hg' i)|]. intros s Hs _. destruct (Hup s Hs s eq_refl) as (x & [= <-] & Hle). done.
    - intros s Hs _. by destruct (Hup s Hs s eq_refl) as (x & [=] & _). }
  split; [done|]. intros i j. apply (top_at_unique held_first all (c, path)); auto.
Qed.
End group.

(** ** Schedules *)

Section schedules.
Context {D : Type} `{EqDecision D}.

Lemma reaches_stays (events : list (option (D * D))) i : reaches events i i = true.
Proof.
  induction events as [|[[a b]|] events IH]; cbn [reaches]; [by apply bool_decide_eq_true | | done].
  case_match eqn:Hi; [|done]. apply orb_true_iff in Hi. apply orb_true_iff.
  destruct Hi as [Hi|Hi]; apply bool_decide_eq_true in Hi as <-; auto.
Qed.

Lemma reaches_app (e e' : list (option (D * D))) j m i :
  reaches e j m = true -> reaches e' m i = true -> reaches (e ++ e') j i = true.
Proof.
  revert j. induction e as [|[[a b]|] e IH]; intros j Hj Hi; cbn [reaches app] in *.
  - by apply bool_decide_eq_true in Hj as ->.
  - case_match; [|by apply IH]. apply orb_true_iff in Hj as [Hj|Hj]; apply orb_true_iff; [left | right]; by apply IH.
  - by apply IH.
Qed.

(** Two rounds of sessions with one device carry everything everywhere. *)
Definition round (hub : D) (ds : list D) : list (option (D * D)) := map (fun d => Some (hub, d)) ds.

Lemma round_reaches hub ds i j : i ∈ hub :: ds -> j ∈ hub :: ds -> reaches (round hub ds ++ round hub ds) j i = true.
Proof.
  assert (forall d, d ∈ hub :: ds -> reaches (round hub ds) d hub = true /\ reaches (round hub ds) hub d = true) as Hone.
  { intros d [->|(l1 & l2 & ->)%list_elem_of_split]%elem_of_cons; [by split; apply reaches_stays|].
    unfold round. rewrite map_app. split; (eapply reaches_app; [apply reaches_stays|]); cbn [map reaches].
    - by rewrite (bool_decide_eq_true_2 (d = d)), orb_true_r, reaches_stays by done.
    - rewrite (bool_decide_eq_true_2 (hub = hub)) by done. cbn [orb]. by rewrite (reaches_stays _ d), orb_true_r. }
  intros Hi Hj. apply (reaches_app _ _ j hub); by apply Hone.
Qed.
End schedules.

(** ** An example *)

Section examples.
#[local] Existing Instance toy_crypto.
#[local] Existing Instance terse_json.
#[local] Existing Instance toy_platform.
#[local] Existing Instance toy_iroh.
#[local] Existing Instance plain_unicode.
#[local] Existing Instance toy_walk_laws.

(** Alice and Bob, before and after the session of SessionProps.v. *)
Definition before (d : bool) : World := if d then alice_world else bob_world.
Definition after (d : bool) : World := if d then ss_world alice_learned.2 else ss_world bob_run.2.

Definition allowed (d : bool) : Z := 1000000000.

Lemma one_session : steps (fun _ : bool => toy_platform) allowed before [Some (true, false)] after.
Proof.
  destruct alice_and_bob as (oa & ob & Hboth). apply (steps_step _ _ _ _ after); [|constructor].
  apply (step_session _ _ before after true false alice_learns alice_learned.2 bob_session bob_run.2 bob_connection alice_connection
    Dialer Acceptor alice_config bob_config oa ob Hboth); [reflexivity.. |].
  intros [|] Ht Hf; [by destruct (Ht eq_refl) | by destruct (Hf eq_refl)].
Qed.

Lemma before_ok d : store_ok (w_db (before d)).
Proof.
  split; [destruct d; [exact alice_world_wf | exact bob_world_wf]|]. intros name [row Hrow].
  assert (collections_t (w_db (before d)) = {[ lit "docs" := default (mkCollectionRow [] None [] []) (collections_t (w_db (before d)) !! lit "docs") ]})
    as E by (apply (bool_decide_eq_true_1 _); destruct d; vm_compute; reflexivity).
  rewrite E in Hrow. by apply lookup_singleton_Some in Hrow as [<- _].
Qed.

Lemma before_attached d : attached (w_db (before d)) (lit "docs").
Proof. apply (proj1 (bool_decide_eq_true (attached _ _))). destruct d; vm_compute; reflexivity. Qed.

Lemma before_stored d r : stored (w_db (before d)) r -> r ∈ [example_a; example_b; example_a'].
Proof. destruct d; [apply alice_stored | apply bob_stored]. Qed.

Lemma group_converges_witness :
  winners (w_db (after true)) !! (lit "docs", lit "a.txt") = winners (w_db (after false)) !! (lit "docs", lit "a.txt").
Proof.
  refine (proj2 (group_converges (fun _ : bool => toy_platform) allowed [example_a; example_b; example_a'] before [Some (true, false)] after
    (lit "docs") (lit "a.txt") before_ok before_attached one_session _ _ _ _) true false).
  - intros [|] [|]; vm_compute; reflexivity.
  - split; [apply example_records_wf|]. apply collision_free_decide. by vm_compute.
  - intros r (i & Hr & _). by apply (before_stored i).
  - intros r (d & Hr%before_stored & _) i n.
    pose proof (example_timely r alice_config (mkWorld empty_database toy_empty n) eq_refl Hr) as Ht.
    by apply negb_true_iff in Ht.
Defined.

(** The way of a file: Bob has scanned the directory of ScanProps.v, Alice has
    none of it.  What each says is what the other hears, so it is found by
    letting them talk until nothing is added. *)
Definition bob_scanned : World :=
  mkWorld (set_roster (w_db docs_scan.2) (roster_t bob_db)) (w_fs docs_scan.2) (w_tick docs_scan.2).
Definition hearing (w : World) (heard : bytes) : Session := mkSession w (mkStream heard Closed) (mkSink [] None) 0.
Definition alice_hears (heard : bytes) := run_session_with_outcome bob_connection Dialer alice_config (hearing alice_world heard).
Definition bob_hears (heard : bytes) := run_session_with_outcome alice_connection Acceptor bob_config (hearing bob_scanned heard).
Definition said (run : result SessionOutcome SyncError * Session) : bytes := sink_bytes (ss_send run.2).
Fixpoint talking (rounds : nat) (bob_says : bytes) : bytes :=
  match rounds with O => bob_says | S rounds => talking rounds (said (bob_hears (said (alice_hears bob_says)))) end.

(** The content of a file of Alice's. *)
Definition content (w : World) (path : list bytes) : option bytes := toy_data (w_fs w) <$> t_names (w_fs w) !! path.

Lemma bob_scanned_wf : db_wf (w_db bob_scanned).
Proof.
  apply set_roster_wf.
  destruct (scan_collection_merges docs_scanner docs_state device_a {[ lit "/docs" := CaseSensitive ]} scan_world
    docs_scan.1.1 docs_scan.1.2 docs_scan.2) as [Hw _]; [exact world_a_wf | by vm_compute | | exact Hw].
  unfold docs_scan. by destruct (scan_collection _ _ _ _ _) as [[r comparisons] w'].
Qed.

Definition bob_says : bytes := Eval vm_compute in talking 6 [].
Definition alice_met := alice_hears bob_says.
Definition alice_says : bytes := Eval vm_compute in said alice_met.
Definition bob_met := bob_hears alice_says.

Example files_travel :
  (exists oa ob, both_succeed (hearing alice_world bob_says) alice_met.2 (hearing bob_scanned alice_says) bob_met.2
     bob_connection alice_connection Dialer Acceptor alice_config bob_config oa ob) /\
  content alice_world [lit "b.txt"] = None /\
  content (ss_world alice_met.2) [lit "b.txt"] = Some (lit "hello") /\
  content (ss_world alice_met.2) [lit "sub"; lit "c.txt"] = Some (lit "world").
Proof.
  split; [|split; [|split]; vm_compute; reflexivity].
  destruct (run_ok alice_met) as [oa Ea]; [vm_compute; reflexivity|].
  destruct (run_ok bob_met) as [ob Eb]; [vm_compute; reflexivity|]. exists oa, ob.
  split; [exact alice_world_wf|]. split; [exact bob_scanned_wf|].
  split; [split; [done|]; split; [reflexivity | apply same_bytes_true; vm_compute; reflexivity]|].
  split; [split; [done|]; split; [reflexivity | apply same_bytes_true; vm_compute; reflexivity]|].
  exact (conj Ea Eb).
Qed.
End examples.
