(* ===== verification/DaemonProps.v ===== *)
(** What the clients of the daemon, and the store it runs on, can rely on. *)

From S2P Require Import Prelude Bytes Utf8 Cursor Canonical Path Identity Concrete Records Winners Roster Protocol.
From S2P Require Import Database State StateLaws StateProps RosterStore Platform ToyFs Installer Sync SyncLaws SyncProps.
From S2P Require Import Join Network NetworkLoop NetworkHandle ToyJoin Scan WalkLaws ScanProps Settings Setup SetupProps.
From S2P Require Import Control ControlLaws Daemon DaemonLaws DaemonStore.

(** ** Frames *)

(** A request that is written is the request that is read, whatever follows
    it on the socket and however the socket ends, and so is a response, except
    that one whose text is longer than 512 KiB arrives as [response_too_large].
    A request is refused before it is sent exactly when its text is longer than
    64 KiB, or it has none. *)
Theorem control_frames `{ControlJson, !ControlJsonLaws} :
  (forall request rest ending,
    match request_frame request_to_json request with
    | Ok frame => read_request request_of_json (mkIncoming (frame ++ rest) ending) = Ok request
    | Err e => (e = DJson /\ request_to_json request = None) \/
               (e = DFrameTooLarge /\ exists text, request_to_json request = Some text /\ REQUEST_LIMIT < len text)
    end) /\
  forall response frame rest ending, shaped_response response = true -> response_frame response_to_json response = Ok frame ->
    exists text, response_to_json response = Some text /\
    read_response response_of_json (mkIncoming (frame ++ rest) ending)
    = Ok (heard (if len text <=? RESPONSE_LIMIT then response
                 else failure (lit "response_too_large") (Text "daemon response exceeds the control limit"))).
Proof.
  split; [|intros; by apply response_arrives].
  intros request rest ending. destruct (request_frame _ request) as [frame|e] eqn:Ef; [by apply request_arrives|].
  unfold request_frame in Ef. destruct (request_to_json request) as [text|]; [|by injection Ef as <-; left].
  cbn [ok_or rbind] in Ef. destruct (REQUEST_LIMIT <? len text) eqn:Hl; [|done]. injection Ef as <-.
  right. split; [done|]. exists text. split; [done | lia].
Qed.

Section properties.
Context `{Crypto, Unicode, EventJson, Platform, Iroh, JoinCodec, !AmbientFs}.

(** C28: No client is answered twice or forgotten.  Over any turns of the daemon,
    whatever the clients send and the network thread does, a response goes only
    to connections that came in, and at most one to each; unless the daemon
    fails, each of them has its response or waits for a synchronization, never
    both; at most eight wait, and none when the daemon has stopped.  A client
    that waits after a turn asked in it, or the round it waits for is not over
    and its time is not up. *)
Theorem clients_answered max_logs shutdown turns d written r :
  NoDup (waiting_streams d ++ run_streams turns d) -> len (ds_pending_syncs d) <= MAX_PENDING_SYNC_WAITS ->
  daemon_run max_logs shutdown turns d = (written, r) ->
  NoDup (map fst written) /\ map fst written ⊆ waiting_streams d ++ run_streams turns d /\
  (forall d', r = Ok d' ->
    (forall s, s ∈ waiting_streams d ++ run_streams turns d <-> s ∈ map fst written \/ s ∈ waiting_streams d') /\
    (forall s, s ∈ map fst written -> s ∉ waiting_streams d') /\
    len (ds_pending_syncs d') <= MAX_PENDING_SYNC_WAITS /\ (ds_running d' = false -> ds_pending_syncs d' = [])) /\
  forall t d1 written1 d2, daemon_turn t d1 = (written1, Ok d2) -> Forall (still_waits t d1) (ds_pending_syncs d2).
Proof.
  intros Hnd Hl E.
  assert (map fst written ⊆+ waiting_streams d ++ run_streams turns d) as Hsub.
  { destruct r as [d'|e]; [|by eapply run_fails]. apply run_accounts in E as (Ha & _).
    unfold accounts in Ha. rewrite <-Ha. by apply submseteq_inserts_r. }
  destruct (submseteq_Permutation _ _ Hsub) as [others Hp].
  split; [rewrite Hp in Hnd; by apply NoDup_app in Hnd as [? _]|]. split; [intros s Hs; rewrite Hp; apply elem_of_app; by left|].
  split; [|intros t d1 w1 d2 Et; by apply turn_accounts in Et as (_ & _ & ?)].
  intros d' ->. apply run_accounts in E as (Ha & Hl2 & Hn). unfold accounts in Ha.
  split; [intros s; by rewrite <-Ha, elem_of_app|]. split; [|auto].
  rewrite <-Ha in Hnd. by apply NoDup_app in Hnd as (_ & ? & _).
Qed.

(** The daemon loses nothing that was recorded.  A turn, whatever its
    connections ask, its watchers report and the disk holds, takes a well-formed
    store to a well-formed store in which every collection that no request
    detached is still attached and its paths still have their records or ones
    that win against them; and so does each request on its own, also when it
    fails. *)
Theorem daemon_keeps_records `{!WalkLaws} :
  (forall t d written d',
    Forall visit_ok (tu_visits t) -> store_ok (w_db (tu_world t)) -> daemon_turn t d = (written, Ok d') ->
    store_ok (db_of_daemon d') /\
    keeps_all (detached_in (tu_visits t)) (w_db (tu_world t)) (db_of_daemon d')) /\
  forall env request s r s',
    named_ok request -> store_ok (w_db (sv_world s)) -> handle_request env request s = (r, s') ->
    store_ok (w_db (sv_world s')) /\
    keeps_all (detached_by request) (w_db (sv_world s)) (w_db (sv_world s')).
Proof.
  split.
  - intros t d written d' Hv Hok E. by apply (turn_moves t d written d').
  - intros env request s r s' Hn Hok E. by apply (moves_handle_request env request s r s').
Qed.
End properties.

(** ** Examples *)

Section examples.
#[local] Existing Instance toy_crypto.
#[local] Existing Instance plain_unicode.
#[local] Existing Instance terse_json.
#[local] Existing Instance toy_platform.
#[local] Existing Instance toy_iroh.
#[local] Existing Instance toy_join.
#[local] Existing Instance toy_ambient.
#[local] Existing Instance toy_walk_laws.

(** A notation that tells values apart by their first letter; one of them is long. *)
Definition plain_name (name : bytes) : bool := bool_decide ("010"%byte ∉ name).
Definition terse_request (r : ControlRequest) : option bytes :=
  match r with
  | Status => Some (lit "status")
  | Shutdown => Some (lit "halt")
  | RemoveCollection name => if plain_name name then Some (lit "r" ++ name) else None
  | _ => None
  end.
Definition request_of_letter (text : bytes) : option ControlRequest :=
  match text with
  | b :: name =>
      if bool_decide (b = "s"%byte) then Some Status
      else if bool_decide (b = "h"%byte) then Some Shutdown else Some (RemoveCollection name)
  | [] => None
  end.
Definition long_text : bytes := "t"%byte :: replicate (Z.to_nat RESPONSE_LIMIT) "t"%byte.
Definition removed_value (name : bytes) (removed : bool) : Value :=
  VObject [(lit "name", VString name); (lit "removed", VBool removed)].
Definition terse_response (r : ControlResponse) : option bytes :=
  match r with
  | mkControlResponse true (Some (VBool true)) None => Some long_text
  | mkControlResponse true (Some (VObject [(key, VString name); (key', VBool removed)])) None =>
      if bool_decide (key = lit "name") && bool_decide (key' = lit "removed") && plain_name name
      then Some ((if removed then lit "y" else lit "o") ++ name) else None
  | mkControlResponse false None (Some (mkControlError code (Text text))) =>
      if bool_decide (code = lit "response_too_large") && String.eqb text "daemon response exceeds the control limit"
      then Some (lit "large") else None
  | _ => None
  end.
Definition response_of_letter (text : bytes) : option ControlResponse :=
  match text with
  | b :: name =>
      if bool_decide (b = "t"%byte) then Some (success (VBool true))
      else if bool_decide (b = "y"%byte) then Some (success (removed_value name true))
      else if bool_decide (b = "o"%byte) then Some (success (removed_value name false))
      else Some (failure (lit "response_too_large") (Heard (lit "daemon response exceeds the control limit")))
  | [] => None
  end.
Definition terse_control : ControlJson := {|
  request_to_json := terse_request; request_of_json := request_of_letter;
  response_to_json := terse_response; response_of_json := response_of_letter;
  message_text m := match m with Text s => lit s | Shown _ => [] | Heard text => text end;
|}.
#[local] Existing Instance terse_control.

Lemma terse_request_line r line : terse_request r = Some line -> request_of_letter line = Some r /\ "010"%byte ∉ line.
Proof.
  destruct r; try done; cbn [terse_request].
  - intros [= <-]. split; [reflexivity|]. by apply (bool_decide_eq_true_1 _).
  - unfold plain_name. case_bool_decide as Hn; [|done]. intros [= <-]. split; [reflexivity|].
    apply not_elem_of_cons. by split.
  - intros [= <-]. split; [reflexivity|]. by apply (bool_decide_eq_true_1 _).
Qed.
Lemma terse_response_line r line :
  terse_response r = Some line -> response_of_letter line = Some (heard r) /\ "010"%byte ∉ line.
Proof.
  intros E. destruct r as [[|] [[|[|]| | | |members]|] [[code [text| |]]|]]; cbn [terse_response] in E;
    try discriminate E; try by destruct members as [|[key []] [|[key' []] []]].
  - injection E as <-. split; [reflexivity|]. unfold long_text.
    apply not_elem_of_cons. split; [done|]. intros [Hb _]%elem_of_replicate. discriminate Hb.
  - destruct members as [|[key []] [|[key' []] []]]; try discriminate E.
    destruct (bool_decide _ && _ && _) eqn:Hb; [|done]. apply andb_true_iff in Hb as [[->%bool_decide_eq_true_1 ->%bool_decide_eq_true_1]%andb_true_iff Hn%bool_decide_eq_true_1].
    injection E as <-. destruct b; (split; [reflexivity|]); apply not_elem_of_cons; by split.
  - destruct (bool_decide _ && _) eqn:Hb; [|done]. injection E as <-.
    apply andb_true_iff in Hb as [->%bool_decide_eq_true_1 ->%String.eqb_eq]. split; [reflexivity|].
    by apply (bool_decide_eq_true_1 _).
Qed.
#[local] Instance terse_control_laws : ControlJsonLaws.
Proof.
  split; [apply terse_request_line | done | intros r line _; apply terse_response_line].
Qed.

Lemma terse_response_long text : terse_response (success (VBool true)) = Some text -> (len text <=? RESPONSE_LIMIT) = false.
Proof.
  cbn [terse_response]. intros [= <-]. unfold long_text.
  rewrite len_cons. unfold len. rewrite length_replicate, Z2Nat.id by done. by apply Z.leb_gt, Z.lt_add_pos_l.
Qed.

Lemma control_frames_witness :
  read_request request_of_letter (mkIncoming (lit "status" ++ "010"%byte :: lit "more") None) = Ok Status /\
  exists frame, response_frame terse_response (success (VBool true)) = Ok frame /\
    read_response response_of_letter (mkIncoming (frame ++ []) (Some RequestTimeout)) = Ok (heard too_large).
Proof.
  destruct control_frames as [Hreq Hres]. split.
  - exact (Hreq Status (lit "more") None).
  - assert (response_frame terse_response (success (VBool true)) = Ok (lit "large" ++ ["010"%byte])) as E by by vm_compute.
    exists (lit "large" ++ ["010"%byte]). split; [exact E|].
    destruct (Hres (success (VBool true)) _ [] (Some RequestTimeout) eq_refl E) as (text & Ht & Hr). rewrite (terse_response_long _ Ht) in Hr. exact Hr.
Defined.

(** A client waits for a synchronization and another one stops the daemon: the
    first is told so. *)
Definition toy_env : RequestEnv := mkRequestEnv config_default docs_scanner device_a None 1 2 true.
Definition calm_turn (world : World) (visits : list Visit) : Turn :=
  mkTurn (mkHandle [] true JIdle (Some None)) world (fun _ => Empty) (fun _ => 5) inbox_default toy_env visits 5 5 (fun _ => true).
Definition visit (stream : nat) (request : ControlRequest) : Visit := mkVisit stream stream (Ok request) toy_env 5.
Definition toy_service : Service := mkService (mkHandle [] true JIdle (Some None)) {[ lit "/docs" := CaseSensitive ]} scan_world.
Definition started : DaemonState := mkDaemonState toy_service ∅ [] [] 100 true.
Definition stopping : list Turn :=
  [calm_turn scan_world [visit 1 (SyncNow true); visit 2 Status]; calm_turn scan_world [visit 3 Shutdown]].

Lemma clients_answered_witness :
  exists d', daemon_run 10 (Ok tt) stopping started = ((daemon_run 10 (Ok tt) stopping started).1, Ok d') /\
    ds_pending_syncs d' = [] /\ 1%nat ∈ map fst (daemon_run 10 (Ok tt) stopping started).1.
Proof.
  destruct (run_ok ((daemon_run 10 (Ok tt) stopping started).2, tt)) as [d' E]; [by vm_compute|]. apply (f_equal fst) in E. cbn [fst] in E. exists d'.
  assert (daemon_run 10 (Ok tt) stopping started = ((daemon_run 10 (Ok tt) stopping started).1, Ok d')) as Erun.
  { rewrite <-E. by destruct (daemon_run _ _ _ _). }
  split; [exact Erun|].
  assert (run_streams stopping started = [1; 2; 3]%nat) as Hs by by vm_compute.
  destruct (clients_answered 10 (Ok tt) stopping started _ _ ltac:(rewrite Hs; by apply (bool_decide_eq_true_1 _)) ltac:(by vm_compute) Erun)
    as (_ & _ & Hend & _).
  destruct (Hend d' eq_refl) as (Hall & _ & _ & Hstopped).
  assert (ds_pending_syncs d' = []) as Hnone.
  { apply Hstopped.
    assert (match (daemon_run 10 (Ok tt) stopping started).2 with Ok d => ds_running d | Err _ => true end = false) as Hr by by vm_compute.
    by rewrite E in Hr. }
  split; [exact Hnone|]. destruct (proj1 (Hall 1%nat)) as [?|Hw]; [|done|].
  - rewrite Hs. by apply (bool_decide_eq_true_1 _).
  - unfold waiting_streams in Hw. rewrite Hnone in Hw. destruct (not_elem_of_nil _ Hw).
Defined.

(** A turn that scans. *)
Definition scanning : list (nat * ControlResponse) * result DaemonState DaemonError :=
  daemon_turn (calm_turn scan_world [visit 1 ScanNow]) started.

Lemma scan_world_ok : store_ok (w_db scan_world).
Proof.
  split; [apply world_a_wf|]. intros name [row Hrow].
  assert (collections_t (w_db scan_world) = {[ lit "docs" := default (mkCollectionRow [] None [] []) (collections_t (w_db scan_world) !! lit "docs") ]})
    as E by by apply (bool_decide_eq_true_1 _); vm_compute.
  rewrite E in Hrow. by apply lookup_singleton_Some in Hrow as [<- _].
Qed.

Lemma daemon_keeps_records_witness :
  exists d', scanning.2 = Ok d' /\ store_ok (db_of_daemon d') /\
    size (winners (w_db scan_world)) = 1%nat /\ size (winners (db_of_daemon d')) = 3%nat /\
    keeps_all [] (w_db scan_world) (db_of_daemon d').
Proof.
  destruct (run_ok (scanning.2, tt)) as [d' E]; [by vm_compute|]. apply (f_equal fst) in E. cbn [fst] in E. exists d'. split; [exact E|].
  assert (scanning = (scanning.1, Ok d')) as Et by by rewrite <-E; destruct scanning.
  destruct daemon_keeps_records as [Hturn _].
  destruct (Hturn (calm_turn scan_world [visit 1 ScanNow]) started _ d' ltac:(by repeat constructor) scan_world_ok Et) as [Hok Hw].
  split; [exact Hok|]. split; [by vm_compute|]. split; [|exact Hw].
  assert (match scanning.2 with Ok d => size (winners (db_of_daemon d)) | Err _ => 0%nat end = 3%nat) as Hsize by by vm_compute.
  by rewrite E in Hsize.
Defined.
End examples.
