(* ===== verification/Running.v ===== *)
(** daemon.rs: the process of the daemon from its lock to its end, beside the
    thread of the network.

    The clients, the watchers and the peers are the environment, as in Daemon.v
    and NetworkTasks.v.  Between two turns of the daemon the thread of the
    network makes steps of its own on the same store, one task at a time. *)

From S2P Require Import Prelude Bytes Utf8 Cursor Canonical Path Identity Records Roster Protocol.
From S2P Require Import Database State RosterStore Platform Installer Sync Session Join Joining Network NetworkLoop NetworkHandle.
From S2P Require Import Scan Settings Keystore Setup NetworkTasks Control Daemon.

(** ** The steps of the network *)

Section network.
Context `{Crypto, EventJson, Platform, Iroh, JoinCodec}.

(** What the thread of the network does to the world: a turn of its loop, what
    its [select!] yields, and its tasks. *)
Inductive network_step : World -> World -> Prop :=
  | net_turn local_endpoint interval commands t1 t2 st w r w' :
      loop_turn local_endpoint interval commands t1 t2 st w = (r, w') -> network_step w w'
  | net_selected max_logs selected st w r w' :
      loop_select max_logs selected st w = (r, w') -> network_step w w'
  | net_outgoing permit bare dial session max_logs peer w r w' :
      run_outgoing permit bare dial session max_logs peer w = (r, w') -> network_step w w'
  | net_incoming session accepted joins w result joins' w' :
      run_incoming session accepted joins w = (result, joins', w') -> network_step w w'.
End network.

(** ** Starting *)

Section running.
Context `{Crypto, Unicode, EventJson, Platform, Iroh, JoinCodec, !AmbientFs, !GlobSet}.

(** What the operating system, the key store and SQLite answer to a daemon that
    starts; [la_network] is what [NetworkHandle::start] returns. *)
Record Launch := mkLaunch {
  la_lock : result unit IoError * TryLock;
  la_stored : result DeviceIdentity KeystoreError;
  la_group : result GroupId KeystoreError;
  la_loaded : result DeviceIdentity KeystoreError;
  la_opened : result unit StateError;
  la_socket_exists : bool;
  la_socket_answers : bool;
  la_socket_removed : result unit IoError;
  la_bound : result unit IoError;
  la_permissions : result unit IoError;
  la_nonblocking : result unit IoError;
  la_network : result NetworkHandle.Handle NetworkError;
}.

(** The socket: a stale one is replaced, a living one respected. *)
Definition take_socket (l : Launch) : result unit DaemonError :=
  let? _ :=
    if la_socket_exists l then
      if la_socket_answers l then Err AlreadyRunning else map_err DIo (la_socket_removed l)
    else Ok tt in
  let? _ := map_err DIo (la_bound l) in
  let? _ := map_err DIo (la_permissions l) in
  map_err DIo (la_nonblocking l).

(** [run] up to the listener; the last two are the bounds of [Scanner]. *)
Definition prepare (paths : PlatformPaths) (env : Env) (config : Config) (l : Launch) (walk_fuel read_rounds : nat)
    : IO DaemonError (DeviceIdentity * Scanner) :=
  _ <== imap_err DLock (acquire (data_dir paths) (la_lock l).1 (la_lock l).2) ;;
  _ <== imap_err DSetup (setup paths env config (la_stored l) (la_group l)) ;;
  identity <== ilift (map_err (fun e => DSetup (SetupIdentity e)) (la_loaded l)) ;;
  _ <== ilift (map_err DState (la_opened l)) ;;
  scanner <== ilift (map_err DScan (scanner_new (ignore_patterns (cfg_sync config)) (max_future_clock_skew (cfg_sync config))
                                      (max_entries (cfg_logging config)) walk_fuel read_rounds)) ;;
  _ <== imap_err DIo (on_fs (create_dir_all (runtime_dir paths))) ;;
  _ <== ilift (take_socket l) ;;
  iret (identity, scanner).

(** Before the network has started there is no handle. *)
Definition no_handle : NetworkHandle.Handle := mkHandle [] false JIdle None.

(** What the requests of the start find. *)
Definition launch_env (config : Config) (identity : DeviceIdentity) (scanner : Scanner) : RequestEnv :=
  mkRequestEnv config scanner (endpoint_id identity) (Some identity) 0 0 false.

(** The state of the daemon when its loop begins. *)
Definition started (paths : PlatformPaths) (env : Env) (config : Config) (l : Launch) (walk_fuel read_rounds : nat)
    (watch : bytes -> bool) (now : Z) (w : World) : result DaemonState DaemonError :=
  let '(prepared, w) := prepare paths env config l walk_fuel read_rounds w in
  let? x := prepared in
  let? d := daemon_start (launch_env config x.1 x.2) watch now (mkService no_handle ∅ w) in
  let? handle := map_err DNetwork (la_network l) in
  Ok (set_service (set_handle handle (ds_service d)) d).

(** [run]: the responses that are written, and the state of the daemon.  [turns]
    says what each round of its loop meets, and [shutdown] what
    [network.shutdown()] returns. *)
Definition run (paths : PlatformPaths) (env : Env) (config : Config) (l : Launch) (walk_fuel read_rounds : nat)
    (watch : bytes -> bool) (now : Z) (turns : list Turn) (shutdown : result unit DaemonError) (w : World)
    : list (nat * ControlResponse) * result DaemonState DaemonError :=
  match started paths env config l walk_fuel read_rounds watch now w with
  | Err e => ([], Err e)
  | Ok d => daemon_run (max_entries (cfg_logging config)) shutdown turns d
  end.

(** The world of each turn is what the network made of the one before. *)
Fixpoint turns_follow (turns : list Turn) (d : DaemonState) : Prop :=
  match turns with
  | [] => True
  | t :: turns =>
      rtc network_step (sv_world (ds_service d)) (tu_world t) /\
      match (daemon_turn t d).2 with Ok d => turns_follow turns d | Err _ => True end
  end.
End running.
