(* ===== verification/RunningProps.v ===== *)
(** The whole daemon: what it keeps beside its network, and what a start that
    is refused leaves. *)

From S2P Require Import Prelude Bytes Utf8 Cursor Canonical Path Identity Concrete Records Winners Roster Protocol.
From S2P Require Import Database State StateLaws StateProps RosterStore RosterProps Platform ToyFs Installer InstallLaws Sync SyncLaws.
From S2P Require Import SyncProps Session SessionLaws SessionProps Join Joining ToyJoin Network NetworkLoop NetworkHandle ApprovalLaws.
From S2P Require Import Scan WalkLaws ScanProps StoreNames Settings Keystore Setup SetupProps NetworkTasks TaskProps.
From S2P Require Import Control Daemon DaemonLaws DaemonStore DaemonProps SessionMoves Running.

Section laws.
Context `{Crypto, Unicode, EventJson, Platform, Iroh, JoinCodec, !AmbientFs, !GlobSet}.

(** ** The network *)

Section network.
Variable gone : list bytes.
Abbreviation w_moves := (w_moves gone).

Lemma m_append t event n : respects w_moves (nstate (append_log t event n)).
Proof. unfold nstate. apply respects_map_err. exact (m_op gone (OpAppendLog t event n) I I). Qed.
Lemma m_nread {A} (m : Db A) : reads m -> respects w_moves (nstate m).
Proof. intros Hm. unfold nstate. by apply respects_map_err, m_read. Qed.
Lemma m_now {E} : respects w_moves (now_ns (E := E)).
Proof. apply w_leaves, leaves_db_now. Qed.
Lemma m_health peer reachable t event n : respects w_moves (nstate (record_peer_health peer reachable t event n)).
Proof. unfold nstate. apply respects_map_err. exact (m_op gone (OpPeerHealth peer reachable t event n) I I). Qed.

Ltac net_step :=
  first [ apply m_append | apply m_now | apply m_health | apply m_nread, reads_chain | apply m_nread, reads_hint ].

Lemma m_attempt n peer : respects w_moves (record_attempt n peer).
Proof. unfold record_attempt. walk net_step. Qed.
Lemma m_target bare peer : respects w_moves (peer_target bare peer).
Proof. unfold peer_target. walk net_step. Qed.
Lemma m_record_result n peer outcome : respects w_moves (record_result n peer outcome).
Proof. unfold record_result. cbv zeta. walk net_step. Qed.

Lemma m_task_session side session connection recv send :
  respects w_moves (task_session side session connection recv send).
Proof.
  intros w r w'. unfold task_session. destruct (run_session_with_outcome _ _ _ _) as [x s] eqn:E. intros [= _ <-].
  by apply (session_moves gone connection side session _ _ _ E).
Qed.

Lemma m_outgoing permit bare dial session n peer : respects w_moves (run_outgoing permit bare dial session n peer).
Proof.
  unfold run_outgoing, dial_and_sync.
  walk ltac:(first [ apply m_attempt | apply m_target | apply m_task_session | net_step ]).
Qed.

(** Whatever the thread of the network does, no record is lost. *)
Lemma network_step_moves w w' : network_step w w' -> w_moves w w'.
Proof.
  intros [local interval commands t1 t2 st v r v' E | n selected st v r v' E | permit bare dial session n peer v r v' E
         | session accepted joins v result joins' v' E].
  - revert E. unfold loop_turn. destruct (NetworkLoop.stopping _); [by intros [= _ <-]|].
    match goal with |- ?m v = _ -> _ => assert (respects w_moves m) as Hm; [|by apply Hm] end.
    unfold start_round, active_peers. walk net_step.
  - revert E. unfold loop_select. destruct selected as [| [result|] |]; [by intros [= _ <-] | | by intros [= _ <-]..].
    match goal with |- ?m v = _ -> _ => assert (respects w_moves m) as Hm; [|by apply Hm] end.
    walk ltac:(apply m_record_result).
  - by apply m_outgoing in E.
  - revert E. unfold run_incoming. destruct accepted as [a|]; [|by intros [= _ _ <-]]. cbv zeta.
    case_bool_decide; [destruct (accept_join a joins v); by intros [= _ _ <-]|].
    case_bool_decide; [|by intros [= _ _ <-]].
    destruct (task_session _ _ _ _ _ v) as [x v1] eqn:E. intros [= _ _ <-]. by apply m_task_session in E.
Qed.

Lemma network_moves w w' : rtc network_step w w' -> w_moves w w'.
Proof. induction 1 as [w|w w1 w2 Hs _ IH]; [done | etransitivity; [by apply network_step_moves | done]]. Qed.
End network.
(** ** Starting *)

Section starting.
Variable gone : list bytes.
Abbreviation w_moves := (w_moves gone).

Lemma m_acquire data_dir opened locked : respects w_moves (acquire data_dir opened locked).
Proof. unfold acquire. walk ltac:(apply w_leaves, leaves_db_fs). Qed.

Lemma m_attach_default home n name relative :
  utf8_valid name = true -> respects w_moves (attach_default home n name relative).
Proof.
  intros Hu. unfold attach_default, setup_io, setup_state. cbv zeta.
  walk ltac:(first [ apply w_leaves, leaves_db_fs | apply m_now | apply m_read, reads_collection
    | by apply w_db_moves, db_add_collection | exact (m_op gone (OpAppendLog _ _ _) I I) ]).
Qed.

Lemma m_attach_defaults home n defaults :
  Forall (fun d => utf8_valid d.1 = true) defaults -> respects w_moves (attach_defaults home n defaults).
Proof.
  induction 1 as [|[name relative] defaults Hu _ IH]; cbn [attach_defaults]; [walk fail|].
  walk ltac:(first [ by apply m_attach_default | apply IH ]).
Qed.

Lemma m_setup paths env config identity group : respects w_moves (setup paths env config identity group).
Proof.
  unfold setup, attach_default_collections, setup_io, setup_state. cbv zeta.
  walk ltac:(first [ apply w_leaves, leaves_db_fs | apply m_read, reads_chain
    | apply m_attach_defaults; by repeat constructor
    | apply w_db_moves, db_quiet; [apply off_insert_revision | unfold insert_roster_revision, insert_roster_revision_row; names] ]).
Qed.

Lemma m_prepare_daemon paths env config l walk_fuel read_rounds :
  respects w_moves (prepare paths env config l walk_fuel read_rounds).
Proof.
  unfold prepare. walk ltac:(first [ apply m_acquire | apply m_setup | apply w_leaves, leaves_db_fs ]).
Qed.
End starting.

(** A start that the lock refuses leaves the store as it is. *)
Lemma refused_start paths env config l walk_fuel read_rounds watch now turns shutdown w :
  (la_lock l).2 <> TryLocked ->
  exists e, run paths env config l walk_fuel read_rounds watch now turns shutdown w = ([], Err e) /\
    same_db w (prepare paths env config l walk_fuel read_rounds w).2.
Proof.
  intros Hl. unfold run, started.
  assert (exists e w', prepare paths env config l walk_fuel read_rounds w = (Err e, w') /\ same_db w w') as (e & w' & -> & Hs);
    [|by exists e].
  unfold prepare, ibind at 1. destruct (imap_err DLock _ w) as [x w'] eqn:E.
  assert (same_db w w') as Hs.
  { assert (respects same_db (imap_err DLock (acquire (data_dir paths) (la_lock l).1 (la_lock l).2))) as Hm
      by (unfold acquire; walk ltac:(apply leaves_db_fs)). by apply (Hm _ _ _ E). }
  destruct x as [[]|e]; [|by exists e, w']. exfalso. apply (proj1 (imap_err_Ok _ _ _ _ _)) in E. unfold acquire in E.
  apply ibind_Ok in E as (? & ? & _ & E). apply ibind_Ok in E as (? & ? & _ & E). injection E as E _.
  by destruct ((la_lock l).2).
Qed.

(** ** The whole daemon *)

Section whole.
Context `{!WalkLaws}.

Lemma started_moves gone paths env config l walk_fuel read_rounds watch now w d :
  started paths env config l walk_fuel read_rounds watch now w = Ok d -> supersedes gone (w_db w) (db_of_daemon d).
Proof.
  unfold started. destruct (prepare _ _ _ _ _ _ w) as [prepared w1] eqn:Ep. apply (m_prepare_daemon gone) in Ep.
  intros E. apply rbind_Ok in E as ([identity scanner] & -> & E). apply rbind_Ok in E as (d1 & Ed & E).
  apply rbind_Ok in E as (h & _ & E). injection E as <-. etransitivity; [exact Ep|].
  change (db_of_daemon (set_service (set_handle h (ds_service d1)) d1)) with (db_of_daemon d1).
  unfold daemon_start in Ed. destruct (srbind _ _ _) as [[watched|e] s] eqn:Es; [|done]. injection Ed as <-.
  refine (daemon_bind gone _ _ (moves_log _ _ _) (fun _ => _) _ _ _ Es).
  apply daemon_bind; [apply moves_scan_all | intros; apply moves_build_watchers].
Qed.

Lemma stop_moves gone n shutdown d written d' :
  daemon_stop n shutdown d = (written, Ok d') -> supersedes gone (db_of_daemon d) (db_of_daemon d').
Proof.
  unfold daemon_stop. intros [= _ E]. apply rbind_Ok in E as (u & _ & E).
  destruct (daemon_log DaemonStopped n (ds_service d)) as [[v|e] s] eqn:El; [|done]. injection E as <-.
  by apply (moves_log gone _ _ _ _ _ El).
Qed.

Definition detached_in_turns (turns : list Turn) : list bytes := concat (map (fun t => detached_in (tu_visits t)) turns).

Lemma run_moves n shutdown turns d written d' :
  Forall (fun t => Forall visit_ok (tu_visits t)) turns -> turns_follow turns d ->
  daemon_run n shutdown turns d = (written, Ok d') ->
  supersedes (detached_in_turns turns) (db_of_daemon d) (db_of_daemon d').
Proof.
  revert d written. induction turns as [|t turns IH]; intros d written Hv Hf; cbn [daemon_run].
  { destruct (negb (ds_running d)); [apply stop_moves | by intros [= _ <-]]. }
  destruct (negb (ds_running d)); [apply stop_moves|].
  apply Forall_cons in Hv as [Ht Hv]. destruct Hf as [Hn Hf].
  destruct (daemon_turn t d) as [w1 [d1|e]] eqn:Et; [|done].
  destruct (daemon_run n shutdown turns d1) as [w2 r] eqn:Er. intros [= _ ->].
  apply turn_moves in Et; [|done]. apply (network_moves (detached_in_turns (t :: turns))) in Hn.
  etransitivity; [exact Hn|].
  etransitivity; [eapply supersedes_more; [|exact Et]|eapply supersedes_more; [|by apply (IH d1 w2)]];
    intros x Hx; unfold detached_in_turns; cbn; apply elem_of_app; auto.
Qed.

(** C16: The daemon as a whole loses no record.  From the lock to the end, with a
    setup, a first scan and any number of turns, and with the thread of the
    network at work between them, whichever devices connect, whatever they
    send and however their sessions end: a good store ends as a good store,
    every collection that no request detached is still attached, and each of its
    paths still has the record it had at the start or one that wins against it. *)
Theorem run_keeps_records paths env config l walk_fuel read_rounds watch now turns shutdown w d written d' :
  store_ok (w_db w) -> Forall (fun t => Forall visit_ok (tu_visits t)) turns ->
  started paths env config l walk_fuel read_rounds watch now w = Ok d -> turns_follow turns d ->
  run paths env config l walk_fuel read_rounds watch now turns shutdown w = (written, Ok d') ->
  store_ok (db_of_daemon d') /\ keeps_all (detached_in_turns turns) (w_db w) (db_of_daemon d').
Proof.
  intros Hok Hv Es Hf E. unfold run in E. rewrite Es in E.
  apply (transitivity (started_moves (detached_in_turns turns) _ _ _ _ _ _ _ _ _ _ Es) (run_moves _ _ _ _ _ _ Hv Hf E) Hok).
Qed.
End whole.
End laws.

(** ** An example *)

Section examples.
#[local] Existing Instance toy_crypto.
#[local] Existing Instance plain_unicode.
#[local] Existing Instance terse_json.
#[local] Existing Instance toy_platform.
#[local] Existing Instance toy_iroh.
#[local] Existing Instance toy_join.
#[local] Existing Instance toy_ambient.
#[local] Existing Instance toy_walk_laws.

(** Patterns without wildcards. *)
#[local] Instance literal_globs : GlobSet := {|
  Glob := bytes;
  glob_new := Some;
  globset_build globs := Some (fun path => bool_decide (path ∈ globs));
|}.

(** A daemon starts on a store with one record, scans the files there, dials a
    device that cannot be reached, and is told to stop. *)
Definition toy_launch : Launch :=
  mkLaunch (Ok tt, TryLocked) (Ok laptop) (Ok (mkGroupId (array_repeat 32 "009"%byte))) (Ok laptop) (Ok tt)
    false false (Ok tt) (Ok tt) (Ok tt) (Ok tt) (Ok (mkHandle [] true JIdle (Some None))).
Definition toy_started : result DaemonState DaemonError :=
  Running.started (for_linux_home home_env (lit "/home")) home_env config_default toy_launch 10 10 (fun _ => true) 0 scan_world.
Definition unreached (w : World) : World :=
  (run_outgoing true (fun peer => Ok peer) (fun _ => DialTimeout) alice_config 10 device_a w).2.
Definition last_turn (d : DaemonState) : Turn := calm_turn (unreached (sv_world (ds_service d))) [visit 3 Shutdown].
Definition toy_run (d : DaemonState) :=
  run (for_linux_home home_env (lit "/home")) home_env config_default toy_launch 10 10 (fun _ => true) 0 [last_turn d] (Ok tt) scan_world.

Lemma toy_started_ok :
  exists d, toy_started = Ok d /\
    match (toy_run d).2 with Ok d' => size (winners (db_of_daemon d')) | Err _ => 0%nat end = 13%nat.
Proof.
  assert (match toy_started with
          | Ok d => match (toy_run d).2 with Ok d' => size (winners (db_of_daemon d')) | Err _ => 0%nat end
          | Err _ => 0%nat
          end = 13%nat) as E by (vm_compute; reflexivity).
  destruct toy_started as [d|e]; [exact (ex_intro _ d (conj eq_refl E)) | discriminate E].
Qed.

Lemma run_keeps_records_witness :
  exists d d', (toy_run d).2 = Ok d' /\ store_ok (db_of_daemon d') /\
    size (winners (w_db scan_world)) = 1%nat /\ size (winners (db_of_daemon d')) = 13%nat /\
    keeps_all [] (w_db scan_world) (db_of_daemon d').
Proof.
  destruct toy_started_ok as (d & Ed & Hsize). destruct (toy_run d).2 as [d'|e] eqn:E; [|discriminate Hsize].
  exists d, d'. split; [exact E|].
  assert (toy_run d = ((toy_run d).1, Ok d')) as Er by (rewrite <-E; by destruct (toy_run d)).
  assert (rtc network_step (sv_world (ds_service d)) (unreached (sv_world (ds_service d)))) as Hn.
  { apply rtc_once. eapply net_outgoing. apply surjective_pairing. }
  assert (turns_follow [last_turn d] d) as Hf by (split; [exact Hn | by destruct (daemon_turn _ _).2]).
  destruct (run_keeps_records (for_linux_home home_env (lit "/home")) home_env config_default toy_launch 10 10 (fun _ => true) 0
    [last_turn d] (Ok tt) scan_world d (toy_run d).1 d' scan_world_ok
    (Forall_cons_2 _ (last_turn d) [] (Forall_cons_2 _ (visit 3 Shutdown) [] I (Forall_nil_2 _)) (Forall_nil_2 _)) Ed Hf Er) as [Hok Hw].
  split; [exact Hok|]. split; [vm_compute; reflexivity|]. split; [exact Hsize | exact Hw].
Defined.
End examples.
