(* ===== verification/Shell.v ===== *)
(** main.rs: what its commands share: the process at the terminal, what it asks
    the daemon and prints, and JSON values. *)

From S2P Require Import Prelude Bytes Utf8 Cursor Canonical Path Identity Records Roster Protocol.
From S2P Require Import Database State RosterStore Platform Installer Sync Join Network NetworkLoop NetworkHandle.
From S2P Require Import Settings Setup Service Control Daemon.

(** ** Errors *)

(** What an error of the command line says: a text of its own, the [Display] of
    another error, or what the daemon said. *)
Inductive CliMessage :=
  | Says (text : String.string)
  | ShowsDaemon (e : DaemonError)
  | ShowsState (e : StateError)
  | ShowsSetup (e : SetupError)
  | ShowsJoin (e : JoinError)
  | ShowsService (e : JoiningServiceError)
  | ShowsNetwork (e : NetworkError)
  | ShowsLock (e : ProcessLockError)
  | ShowsIo (e : IoError)
  | ShowsJson
  | Answered (m : Message)
  | Panicked.        (* no error of the sources: the process panics *)

Record CliError := mkCliError { cli_code : bytes; cli_message : CliMessage }.
Definition cli_new (code text : String.string) : CliError := mkCliError (lit code) (Says text).
Definition from_error (m : CliMessage) : CliError := mkCliError (lit "operation_failed") m.
Definition shows_daemon (e : DaemonError) : CliMessage := match e with DPanic => Panicked | _ => ShowsDaemon e end.
(** A panic ends a command as an error does. *)
Definition panicked : CliError := mkCliError [] Panicked.

(** ** JSON values *)

(** [value[key]] *)
Definition member (key : String.string) (v : Value) : Value :=
  match v with
  | VObject members =>
      match List.find (fun m => bool_decide (m.1 = lit key)) members with Some m => m.2 | None => VNull end
  | _ => VNull
  end.
Definition as_str (v : Value) : option bytes := match v with VString s => Some s | _ => None end.
Definition as_bool (v : Value) : option bool := match v with VBool b => Some b | _ => None end.
Definition as_array (v : Value) : option (list Value) := match v with VArray l => Some l | _ => None end.
Definition as_i64 (v : Value) : option Z := match v with VNumber n => i64_try_from n | _ => None end.
Definition as_u64 (v : Value) : option Z := match v with VNumber n => u64_try_from n | _ => None end.
Definition is_null (v : Value) : bool := match v with VNull => true | _ => false end.
(** [value[key] = new] of an object that has the key. *)
Definition set_member (key : String.string) (new : Value) (v : Value) : Value :=
  match v with
  | VObject members => VObject (map (fun m => if bool_decide (m.1 = lit key) then (m.1, new) else m) members)
  | _ => v
  end.

Fixpoint to_value (v : Value) : Value :=
  match v with
  | VArray l => VArray (map to_value l)
  | VObject members => object (map (fun m => (m.1, to_value m.2)) members)
  | v => v
  end.

(** ** Text, as its characters *)

Definition text : Type := list Z.
Definition txt (s : String.string) : text := chars (lit s).
Definition number (n : Z) : text :=
  if n <? 0 then 0x2D :: map byteZ (decimal (- n)) else map byteZ (decimal n).
(** [{:<width}] *)
Definition pad (width : nat) (t : text) : text := t ++ replicate (width - length t) 0x20.

(** [str::trim] *)
Fixpoint trim_start (t : text) : text :=
  match t with c :: rest => if is_whitespace c then trim_start rest else t | [] => [] end.
Definition trim (t : text) : text := rev (trim_start (rev (trim_start t))).

(** ** The process *)

Inductive Printed :=
  | PJson (v : Value)      (* a line of JSON *)
  | PText (t : text).

(** What the crates render: a path, a duration, the configuration as TOML, and a
    ticket of iroh. *)
Class Rendering `{Iroh} := {
  display : bytes -> text;
  format_duration : Z -> bytes;
  to_string_pretty : Value -> text;
  endpoint_ticket : EndpointAddr -> bytes;
}.

(** The daemon at the other end of the socket, with a state of its own; it works
    on the same files and the same database. *)
Class ControlSocket `{Platform} := {
  Side : Type;
  exchange : ControlRequest -> Side -> World -> result ControlResponse DaemonError * Side * World;
}.

Section desk.
Context `{Crypto, Unicode, EventJson, Platform, Iroh, JoinCodec, !ControlSocket}.

Record Desk := mkDesk {
  dk_side : Side;
  dk_world : World;
  dk_sent : list ControlRequest;
  dk_printed : list Printed;
}.

Definition CIO (A : Type) : Type := Desk -> result A CliError * Desk.
Definition cret {A} (a : A) : CIO A := fun d => (Ok a, d).
Definition cfail {A} (e : CliError) : CIO A := fun d => (Err e, d).
Definition clift {A} (r : result A CliError) : CIO A := fun d => (r, d).
Definition cbind {A B} (m : CIO A) (f : A -> CIO B) : CIO B :=
  fun d => match m d with (Ok a, d) => f a d | (Err e, d) => (Err e, d) end.
End desk.

Declare Scope cli_scope.
Delimit Scope cli_scope with cli.
Notation "x <~~ m ;;; k" := (cbind m (fun x => k))
  (at level 100, m at next level, right associativity) : cli_scope.
Open Scope cli_scope.

Section desk.
Context `{Crypto, Unicode, EventJson, Platform, Iroh, JoinCodec, !ControlSocket}.

Definition on_desk {E A} (f : E -> CliMessage) (m : IO E A) : CIO A :=
  fun d =>
    let '(r, w) := m (dk_world d) in
    (map_err (fun e => from_error (f e)) r, mkDesk (dk_side d) w (dk_sent d) (dk_printed d)).
Definition cli_state {A} (m : Db A) : CIO A := on_desk ShowsState (on_db m).
Definition cli_value {A} (m : DbD A) : CIO A :=
  on_desk shows_daemon (fun w => let '(r, db) := m (w_db w) in (r, set_db w db)).

Definition print (p : Printed) : CIO unit :=
  fun d => (Ok tt, mkDesk (dk_side d) (dk_world d) (dk_sent d) (dk_printed d ++ [p])).
Definition print_json (v : Value) : CIO unit := print (PJson v).
Definition println (t : text) : CIO unit := print (PText (t ++ [0x0A])).

(** [send_request], with its outcome as a value. *)
Definition send_request (request : ControlRequest) : CIO (result ControlResponse DaemonError) :=
  fun d =>
    let '(r, side, w) := exchange request (dk_side d) (dk_world d) in
    (Ok r, mkDesk side w (dk_sent d ++ [request]) (dk_printed d)).

Definition response_error (response : ControlResponse) : CliError :=
  match cr_error response with
  | Some error => mkCliError (error_code error) (Answered (error_message error))
  | None => panicked
  end.

(** [as_array().expect(..)] *)
Definition expect_array (v : Value) : CIO (list Value) := clift (ok_or (as_array v) panicked).
(** [json!] of a path. *)
Definition cli_path (path : bytes) : CIO Value := clift (ok_or (json_path path) panicked).

(** [response.result.expect(..)] *)
Definition expect_result (response : ControlResponse) : CIO Value := clift (ok_or (cr_result response) panicked).
(** [if !response.ok] *)
Definition has_succeeded (response : ControlResponse) : CIO unit :=
  if cr_ok response then cret tt else cfail (response_error response).

(** [NotFound] of the socket; a refused connection counts as one. *)
Definition not_running (e : DaemonError) : bool := match e with DIo NotFound => true | _ => false end.

Definition request_if_running (request : ControlRequest) : CIO (option ControlResponse) :=
  sent <~~ send_request request ;;;
  match sent with
  | Ok response => if cr_ok response then cret (Some response) else cfail (response_error response)
  | Err e => if not_running e then cret None else cfail (from_error (ShowsDaemon e))
  end.

(** The result of a running daemon, or what is done without one. *)
Definition daemon_or (request : ControlRequest) (offline : CIO Value) : CIO Value :=
  running <~~ request_if_running request ;;;
  match running with Some response => expect_result response | None => offline end.
End desk.
