(* ===== verification/Serving.v ===== *)
(** The daemon at its socket: a connection from the request to the response, and
    the sockets at which a daemon answers or none does. *)

From S2P Require Import Prelude Bytes Utf8 Cursor Canonical Path Identity Records Roster Protocol.
From S2P Require Import Database State RosterStore Platform Installer Sync Join Network NetworkLoop NetworkHandle.
From S2P Require Import Scan Settings Keystore Setup Service Control ControlLaws Daemon Shell.

(** ** Sockets *)

(** Nobody listens. *)
Definition down `{Platform} : ControlSocket := {| Side := unit; exchange _ side w := (Err (DIo NotFound), side, w) |}.

(** What is written of a response: nothing when it has no text. *)
Definition written `{ControlJson} (response : ControlResponse) : bytes :=
  match response_frame response_to_json response with Ok frame => frame | Err _ => [] end.

(** A connection of the daemon of Daemon.v, from what arrives on it to what is
    written: nothing when the daemon panics.  The daemon answers before it acts
    on what it was asked.  (A request to wait for a synchronization is not for
    [handle_request], and not sent through here.) *)
Definition serve `{Crypto, Unicode, EventJson, Platform, Iroh, JoinCodec, !AmbientFs, ControlJson} (env : RequestEnv)
    (arrives : Incoming) (s : Service) : bytes * Service :=
  match read_request request_of_json arrives with
  | Err e => (written (control_request_failure e), s)
  | Ok request =>
      match handle_request env request s with
      | (Ok (response, _), s) => (written response, s)
      | (Err _, s) => ([], s)
      end
  end.

(** [send_request] to that daemon. *)
Definition up `{Crypto, Unicode, EventJson, Platform, Iroh, JoinCodec, !AmbientFs, ControlJson} (env : RequestEnv) : ControlSocket := {|
  Side := Handle * gmap bytes FilenameComparison;
  exchange request side w :=
    match request_frame request_to_json request with
    | Err e => (Err e, side, w)
    | Ok frame =>
        let '(answer, s) := serve env (mkIncoming frame None) (mkService side.1 side.2 w) in
        (read_response response_of_json (mkIncoming answer None), (sv_handle s, sv_comparisons s), sv_world s)
    end;
|}.

(** ** What the daemon answers is JSON *)

Section shapes.
Context `{Crypto, Unicode, EventJson, Platform, Iroh, JoinCodec, !AmbientFs}.

(** Every value a computation returns satisfies [P]. *)
Definition yields {S A E} (P : A -> Prop) (m : S -> result A E * S) : Prop := forall s a s', m s = (Ok a, s') -> P a.

Lemma value_bind {A B} (P : B -> Prop) (m : DIO A) (f : A -> DIO B) : (forall a, yields P (f a)) -> yields P (srbind m f).
Proof. intros Hf s b s'. unfold srbind. destruct (m s) as [[a|e] s1]; [apply Hf | done]. Qed.
Lemma value_bind_with {A B} (Q : A -> Prop) (P : B -> Prop) (m : DIO A) (f : A -> DIO B) :
  yields Q m -> (forall a, Q a -> yields P (f a)) -> yields P (srbind m f).
Proof. intros Hm Hf s b s'. unfold srbind. destruct (m s) as [[a|e] s1] eqn:E; [apply Hf; by eapply Hm | done]. Qed.
Lemma yields_sret {A} (P : A -> Prop) a : P a -> yields P (sret a).
Proof. by intros Ha s b s' [= <- _]. Qed.
Lemma value_fail {A} (P : A -> Prop) e : yields P (sfail (A := A) e).
Proof. by intros s b s'. Qed.
Lemma yields_dbind {A B} (P : B -> Prop) (m : Db A) (f : A -> Db B) : (forall a, yields P (f a)) -> yields P (dbind m f).
Proof. intros Hf s b s'. unfold dbind. destruct (m s) as [[a|e] s1]; [apply Hf | done]. Qed.
Lemma yields_dret {A} (P : A -> Prop) a : P a -> yields P (dret a).
Proof. by intros Ha s b s' [= <- _]. Qed.
Lemma yields_sdb {A} (P : A -> Prop) (m : Db A) : yields P m -> yields P (sdb m).
Proof.
  intros Hm s a s'. unfold sdb, on_world, state_io, imap_err, on_db. destruct (m _) as [[b|e] db] eqn:E; [|done].
  intros [= <- _]. by eapply Hm.
Qed.
Lemma yields_sdbd {A} (P : A -> Prop) (m : DbD A) : yields P m -> yields P (sdbd m).
Proof. intros Hm s a s'. unfold sdbd. destruct (m _) as [[b|e] db] eqn:E; [|done]. intros [= <- _]. by eapply Hm. Qed.

(** A value that can be read back as the result of a response. *)
Definition is_shaped (v : Value) : Prop := shaped_response (success v) = true.
Lemma is_shaped_shaped v : is_shaped v -> shaped v = true.
Proof. by destruct v. Qed.

Lemma shaped_path path v : json_path path = Some v -> is_shaped v.
Proof. unfold json_path. destruct (utf8_valid path); [by intros [= <-] | done]. Qed.
Lemma shaped_array key values : Forall is_shaped values -> is_shaped (object [(key, VArray values)]).
Proof.
  intros Hv. unfold is_shaped. apply shaped_object; [apply NoDup_singleton|]. cbn [forallb snd shaped]. rewrite andb_true_r.
  apply forallb_forall. intros v Hin%list_elem_of_In. rewrite Forall_forall in Hv. by apply is_shaped_shaped, Hv.
Qed.

Lemma shaped_log log : is_shaped (log_value log).
Proof.
  unfold is_shaped, log_value. destruct (ol_event log) as [| |c|c|c|c|c [path|] issue| | | | | | | | | | | | |]; cbn [event_members app];
    shaped_object; reflexivity.
Qed.
Lemma shaped_status device_name endpoint : yields is_shaped (status_value device_name endpoint).
Proof.
  unfold status_value. apply yields_dbind. intros counts. apply yields_dbind. intros chain. cbv zeta. apply yields_dbind. intros online.
  apply yields_dret. unfold is_shaped. shaped_object. cbn [forallb snd]. rewrite !shaped_object; try reflexivity;
    apply (bool_decide_eq_true_1 _); vm_compute; reflexivity.
Qed.
Lemma shaped_collections : yields is_shaped collections_value.
Proof.
  intros db v db'. unfold collections_value. destruct (ddb collections db) as [[found|e] db1]; [|done].
  destruct (mapM collection_value found) as [values|] eqn:Em; [|done]. intros [= <- _].
  apply shaped_array. apply mapM_Some in Em. apply Forall_forall. intros x Hx.
  apply list_elem_of_lookup in Hx as [i Hi]. destruct (Forall2_lookup_r _ _ _ _ _ Em Hi) as (c & _ & Hc).
  unfold collection_value in Hc. destruct (collection_report c) as [state reason].
  destruct (json_path _) as [path|] eqn:Ep; [|done]. injection Hc as <-. unfold is_shaped. shaped_object.
  cbn [forallb snd]. by rewrite (is_shaped_shaped _ (shaped_path _ _ Ep)).
Qed.
Lemma shaped_logs after limit : yields is_shaped (logs_page_value after limit).
Proof.
  unfold logs_page_value. apply yields_dbind. intros page. apply yields_dret. unfold log_page_value, is_shaped. shaped_object.
  cbn [forallb snd shaped]. rewrite !andb_true_r. apply forallb_forall. intros v Hv.
  apply in_map_iff in Hv as (log & <- & _). apply shaped_log.
Qed.
Lemma shaped_peer_values members endpoint : yields (Forall is_shaped) (peer_values members endpoint).
Proof.
  induction members as [|[e name] members IH]; cbn [peer_values]; [apply yields_dret; constructor|]. cbv zeta.
  apply yields_dbind. intros online. intros s rest s' E. unfold dbind in E.
  destruct (peer_values members endpoint s) as [[values|e1] s1] eqn:Ev; [|done]. injection E as <- _.
  constructor; [|by eapply IH]. unfold is_shaped. by shaped_object.
Qed.
Lemma shaped_peers endpoint : yields is_shaped (peers_value endpoint).
Proof.
  intros db v db'. unfold peers_value. destruct (local_tip db) as [[tip|e] db1]; [|done]. unfold ddb, dbind.
  destruct (peer_values _ _ db1) as [[values|e] db2] eqn:Ev; [|done]. intros [= <- _].
  apply shaped_array. by eapply shaped_peer_values.
Qed.

Definition answers_shaped (x : Value * DaemonAction) : Prop := is_shaped x.1.
Lemma request_shaped env request : yields answers_shaped (request_result env request).
Proof.
  assert (forall (m : DIO Value) action, yields is_shaped m -> yields answers_shaped (value <=- m ;; sret (value, action))) as Hvalue
    by (intros m action Hm; apply (value_bind_with is_shaped); [done | intros v Hv; by apply yields_sret]).
  assert (forall members action, shaped (object members) = true -> yields answers_shaped (sret (object members, action : DaemonAction)))
    as Hobject by (intros members action Hm; by apply yields_sret).
  destruct request as [| |name path|name|after limit| |[|]| | |peer|nonce lifetime| |id approve|]; cbn [request_result]; cbv zeta.
  1: apply Hvalue, yields_sdb, shaped_status.
  1: apply Hvalue, yields_sdbd, shaped_collections.
  2: apply value_bind; intros removed; apply Hobject; by shaped_object.
  2: apply Hvalue, yields_sdb, shaped_logs.
  2: apply value_bind; intros changed; apply Hvalue, yields_sdb, shaped_status.
  2: apply value_fail.
  4: apply Hvalue, yields_sdbd, shaped_peers.
  1: { apply value_bind. intros _. apply value_bind. intros [c|]; [|apply value_fail]. apply value_bind. intros changed.
       apply (value_bind_with is_shaped); [intros s v s' E; unfold path_value, slift in E; injection E as E _;
         destruct (json_path path) eqn:Ep; [|done]; injection E as <-; by eapply shaped_path|].
       intros shown Hs. apply Hobject. shaped_object. cbn [forallb snd]. by rewrite (is_shaped_shaped _ Hs). }
  all: repeat (apply value_bind; intros ?); apply Hobject; shaped_object; try reflexivity.
  cbn [forallb snd]. rewrite andb_true_r. unfold pending_value. case_match; [|done]. by shaped_object.
Qed.
End shapes.

(** ** A request at a daemon that answers *)

Section laws.
Context `{Crypto, Unicode, EventJson, Platform, Iroh, JoinCodec, !AmbientFs, ControlJson, !ControlJsonLaws}.

(** A request that fits its frame, and whose answer fits one. *)
Definition carried (env : RequestEnv) (side : Handle * gmap bytes FilenameComparison) (w : World) (request : ControlRequest)
    : Prop :=
  (exists line, request_to_json request = Some line /\ len line <= REQUEST_LIMIT) /\
  forall response action s, handle_request env request (mkService side.1 side.2 w) = (Ok (response, action), s) ->
    exists line, response_to_json response = Some line /\ len line <= RESPONSE_LIMIT.

Lemma up_exchange env request side w :
  carried env side w request ->
  exchange (ControlSocket := up env) request side w
  = let '(r, s) := handle_request env request (mkService side.1 side.2 w) in
    (match r with Ok (response, _) => Ok (heard response) | Err _ => Err MissingNewline end,
     (sv_handle s, sv_comparisons s), sv_world s).
Proof.
  intros [(line & Hline & Hlen) Ha]. cbn [exchange up].
  destruct (request_frame request_to_json request) as [frame|e] eqn:Ef.
  2: { exfalso. unfold request_frame in Ef. rewrite Hline in Ef. cbn [ok_or rbind] in Ef.
       by replace (REQUEST_LIMIT <? len line) with false in Ef by lia. }
  unfold serve. pose proof (request_arrives request frame [] None Ef) as Hr. rewrite app_nil_r in Hr. rewrite Hr.
  destruct (handle_request env request _) as [[[response action]|e] s] eqn:Eh; [|done].
  destruct (Ha response action s eq_refl) as (shown & Hshown & Hfits).
  assert (response_frame response_to_json response = Ok (shown ++ ["010"%byte])) as Ew.
  { assert ((RESPONSE_LIMIT <? len shown) = false) as Hl by lia.
    unfold response_frame. rewrite Hshown. cbn [ok_or rbind]. rewrite Hl. cbn [rbind]. by rewrite Hl. }
  assert (shaped_response response = true) as Hs.
  { unfold handle_request in Eh. destruct (request_result env request _) as [[[value a]|e] s1] eqn:Er; [|by destruct e; simplify_eq/=].
    injection Eh as <- _ _. exact (request_shaped env request _ _ _ Er). }
  unfold written. rewrite Ew. destruct (response_arrives response _ [] None Hs Ew) as (line' & Hl' & Hread).
  rewrite app_nil_r in Hread. rewrite Hread. rewrite Hshown in Hl'. injection Hl' as <-.
  by replace (len shown <=? RESPONSE_LIMIT) with true by lia.
Qed.
End laws.
