(* ===== verification/Commands.v ===== *)
(** main.rs: the commands of skillsync. *)

From S2P Require Import Prelude Bytes Utf8 Cursor Canonical Path Identity Records Roster Protocol.
From S2P Require Import Database State RosterStore Platform Installer Sync Join Joining Network NetworkLoop NetworkHandle.
From S2P Require Import Settings Keystore Setup Service Control Daemon Shell.

Inductive CollectionsCommand := ListCollections | Add (name path : bytes) (replace : bool) | RemoveNamed (name : bytes).
Inductive ConfigCommand := ShowConfig | ConfigPath.
Inductive PeersCommand := ListPeers | RemoveDevice (device : bytes).
Inductive Command :=
  | CmdSetup
  | CmdStatus
  | CmdCollections (command : CollectionsCommand)
  | CmdConfig (command : ConfigCommand)
  | CmdLogs (follow : bool)
  | CmdSync (wait : bool)
  | CmdInvite
  | CmdJoin (code name : bytes)
  | CmdPeers (command : PeersCommand).

(** ** Answers on the terminal *)

Definition yes_answers : list text := [txt "y"; txt "Y"; txt "yes"; txt "YES"].
Definition approval_answer (answer : bytes) : bool := bool_decide (trim (chars answer) ∈ yes_answers).

Definition retryable_pending_join_response (response : ControlResponse) : bool :=
  negb (cr_ok response)
  && match cr_error response with Some error => bool_decide (error_code error = lit "request_timeout") | None => false end.
Definition retryable_pending_join_error (error : DaemonError) : bool :=
  match error with RequestTimeout => true | _ => false end.

Section commands.
Context `{Crypto, Unicode, EventJson, Platform, Iroh, JoinCodec, ServiceCodec, !AmbientFs} {socket : ControlSocket} `{!Rendering}.

(** The first synchronization of a device that joined: what starting the network,
    asking for a round, its summary (none after 45 seconds) and the shutdown
    return, and the world its thread leaves. *)
Record FirstSync := mkFirstSync {
  fi_started : result unit NetworkError;
  fi_queued : result unit NetworkError;
  fi_summary : option SyncSummary;
  fi_shutdown : result unit NetworkError;
  fi_world : World -> World;
}.

(** What a command finds: its configuration and places, the environment, the
    database of the device, its key, the terminal, the joining service, the
    network and the monotonic clock, read once in a round. *)
Record Invocation := mkInvocation {
  iv_config : Config;
  iv_paths : PlatformPaths;
  iv_env : Env;
  iv_current_dir : result bytes IoError;
  iv_database_exists : bool;
  iv_opened : result unit StateError;
  iv_identity : result DeviceIdentity KeystoreError;
  iv_group : result GroupId KeystoreError;
  iv_lock : result unit IoError * TryLock;
  iv_answer : result bytes IoError;
  iv_flushed : result unit IoError;
  iv_client_builds : bool;
  iv_http : nat -> Sent;
  iv_uuid : bytes;
  iv_clock : nat -> Z;
  iv_ticket : bytes -> result EndpointId JoinError;
  iv_local_addr : EndpointAddr;
  iv_connected : result EndpointId JoinError;
  iv_stream_opened : result unit JoinError;
  iv_stream_finished : result unit JoinError;
  iv_incoming : Stream;
  iv_outgoing : Sink;
  iv_first_sync : FirstSync;
  iv_rounds : nat;   (* how often a loop that waits may go round *)
  iv_json : bool;
}.

Definition open_store (iv : Invocation) : CIO unit := clift (map_err (fun e => from_error (ShowsState e)) (iv_opened iv)).
Definition load_identity (iv : Invocation) : CIO DeviceIdentity :=
  clift (map_err (fun e => from_error (ShowsSetup (SetupIdentity e))) (iv_identity iv)).
Definition require_database (iv : Invocation) : CIO unit :=
  if iv_database_exists iv then cret tt else cfail (cli_new "not_setup" "run `skillsync setup` first").
Definition flush (iv : Invocation) : CIO unit := clift (map_err (fun e => from_error (ShowsIo e)) (iv_flushed iv)).

(** ** Setting up, status *)

Fixpoint shown_collections (cs : list (bytes * bytes)) : CIO (list Value) :=
  match cs with
  | [] => cret []
  | (name, path) :: cs =>
      path <~~ cli_path path ;;;
      rest <~~ shown_collections cs ;;;
      cret (object [(lit "name", VString name); (lit "path", path)] :: rest)
  end.

Definition command_setup (iv : Invocation) : CIO unit :=
  result <~~ on_desk ShowsSetup (setup (iv_paths iv) (iv_env iv) (iv_config iv) (iv_identity iv) (iv_group iv)) ;;;
  if iv_json iv then
    collections <~~ shown_collections (su_collections result) ;;;
    print_json (object
      [(lit "device", object [(lit "name", VString (su_device_name result));
                               (lit "endpoint_id", VString (eid_to_string (su_endpoint_id result)))]);
       (lit "group", VString (lit "personal"));
       (lit "collections", VArray collections);
       (lit "created", VBool (su_created result))])
  else
    _ <~~ println (txt "Device: " ++ terminal_safe_device_name (su_device_name result)) ;;;
    _ <~~ println (txt "Group: personal" ++ [0x0A]) ;;;
    _ <~~ println (txt "Collections:") ;;;
    _ <~~ (fix each (cs : list (bytes * bytes)) : CIO unit :=
             match cs with
             | [] => cret tt
             | (name, path) :: cs =>
                 _ <~~ println (txt "  " ++ pad 8 (chars name) ++ txt " -> " ++ display path) ;;; each cs
             end) (su_collections result) ;;;
    println (0x0A :: txt "Setup complete.").

(** Without the daemon, the status of the store. *)
Definition offline_status (iv : Invocation) : CIO Value :=
  _ <~~ require_database iv ;;;
  _ <~~ open_store iv ;;;
  identity <~~ load_identity iv ;;;
  value <~~ on_desk (fun e => ShowsDaemon (DState e))
              (on_db (status_value (dev_name (cfg_device (iv_config iv))) (endpoint_id identity))) ;;;
  cret (set_member "daemon" (VString (lit "stopped")) value).

Definition command_status (iv : Invocation) : CIO unit :=
  value <~~ daemon_or Status (offline_status iv) ;;;
  if iv_json iv then print_json value
  else
    _ <~~ println (txt "Device   " ++ terminal_safe_device_name (default (lit "unknown") (as_str (member "name" (member "device" value))))) ;;;
    _ <~~ println (txt "Peers    " ++ number (default 0 (as_u64 (member "online" (member "peers" value)))) ++ txt " online") ;;;
    _ <~~ println (txt "Files    " ++ number (default 0 (as_u64 (member "synchronized" (member "files" value)))) ++ txt " synchronized") ;;;
    println (txt "Daemon   " ++ chars (default (lit "stopped") (as_str (member "daemon" value)))).

(** ** Collections *)

Definition store_value {A} (m : Db A) : CIO A := on_desk (fun e => ShowsDaemon (DState e)) (on_db m).

(** What [strip_prefix] leaves after the first component: the rest as it was
    written, without empty components and [.] at its ends. *)
Definition idle_component (c : bytes) : bool := bool_decide (c = []) || bool_decide (c = lit ".").
Fixpoint drop_idle (cs : list bytes) : list bytes :=
  match cs with c :: rest => if idle_component c then drop_idle rest else cs | [] => [] end.
Definition after_first (path : bytes) : bytes :=
  join_slash (rev (drop_idle (rev (drop_idle (tl (split_slash path)))))).

(** [path == "~"] and [strip_prefix("~/")] look at components. *)
Definition absolute_path (iv : Invocation) (path : bytes) : result bytes IoError :=
  let home := ok_or (iv_env iv (lit "HOME")) NotFound in
  let? expanded :=
    if is_absolute path then Ok path
    else
      match components path with
      | [first] => if bool_decide (first = lit "~") then home else Ok path
      | first :: _ =>
          if bool_decide (first = lit "~")
          then let? home := home in Ok (pathbuf_push home (after_first path))
          else Ok path
      | [] => Ok path
      end in
  if is_absolute expanded then Ok expanded
  else let? current := iv_current_dir iv in Ok (pathbuf_push current expanded).

Definition read_answer (iv : Invocation) : CIO bytes :=
  _ <~~ flush iv ;;;
  clift (map_err (fun e => from_error (ShowsIo e)) (iv_answer iv)).

(** [confirm_replacement]; the question goes to the standard error. *)
Definition confirm_replacement (iv : Invocation) : CIO bool :=
  answer <~~ read_answer iv ;;; cret (approval_answer answer).

Fixpoint print_collections (l : list Value) : CIO unit :=
  match l with
  | [] => cret tt
  | c :: l =>
      _ <~~ println (pad 16 (chars (default [] (as_str (member "name" c)))) ++ txt " "
                       ++ chars (default [] (as_str (member "path" c))) ++ txt " ("
                       ++ chars (default (lit "paused") (as_str (member "state" c))) ++ txt ")") ;;;
      print_collections l
  end.

Definition list_collections (iv : Invocation) : CIO unit :=
  value <~~ daemon_or Collections (_ <~~ open_store iv ;;; cli_value collections_value) ;;;
  if iv_json iv then print_json value
  else collections <~~ expect_array (member "collections" value) ;;; print_collections collections.

(** Whether a collection that is attached elsewhere may be moved. *)
Definition confirm_path (iv : Invocation) (name path : bytes) (replace : bool) : CIO unit :=
  existing <~~ cli_state (collection name) ;;;
  match existing with
  | Some c =>
      if negb (same_path (cs_local_path c) path) && negb replace then
        if iv_json iv then
          cfail (cli_new "replacement_requires_flag" "use --replace to change an existing collection path")
        else
          confirmed <~~ confirm_replacement iv ;;;
          if negb confirmed then cfail (cli_new "cancelled" "collection path was not changed") else cret tt
      else cret tt
  | None => cret tt
  end.

(** The path a collection is to be added at, once that is agreed. *)
Definition agreed_path (iv : Invocation) (name path : bytes) (replace : bool) : CIO bytes :=
  path <~~ clift (map_err (fun e => from_error (ShowsIo e)) (absolute_path iv path)) ;;;
  _ <~~ open_store iv ;;;
  _ <~~ confirm_path iv name path replace ;;;
  cret path.

Definition add_named (iv : Invocation) (name path : bytes) (replace : bool) : CIO unit :=
  path <~~ agreed_path iv name path replace ;;;
  value <~~ daemon_or (AddCollection name path)
              (_ <~~ on_desk ShowsDaemon (attach_collection (iv_config iv) name path) ;;;
               shown <~~ cli_path path ;;;
               cret (object [(lit "name", VString name); (lit "path", shown); (lit "attached", VBool true)])) ;;;
  if iv_json iv then print_json value
  else println (txt "Collection " ++ chars name ++ txt " attached at " ++ display path ++ txt ".").

Definition remove_named (iv : Invocation) (name : bytes) : CIO unit :=
  _ <~~ open_store iv ;;;
  value <~~ daemon_or (RemoveCollection name)
              (removed <~~ on_desk ShowsDaemon (detach_collection (iv_config iv) name) ;;;
               cret (object [(lit "name", VString name); (lit "removed", VBool removed)])) ;;;
  if iv_json iv then print_json value
  else if default false (as_bool (member "removed" value))
  then println (txt "Collection " ++ chars name ++ txt " detached. Local files were left in place.")
  else println (txt "Collection " ++ chars name ++ txt " is not attached.").

Definition command_collections (iv : Invocation) (command : CollectionsCommand) : CIO unit :=
  _ <~~ require_database iv ;;;
  match command with
  | ListCollections => list_collections iv
  | Add name path replace => add_named iv name path replace
  | RemoveNamed name => remove_named iv name
  end.

(** ** Configuration *)

(** What serde makes of [config.effective()]; a header's value is never shown.
    The members are those of the structs, in their order. *)
Definition strings (l : list bytes) : Value := VArray (map VString l).
Definition secret_value (value : bytes) : Value := VString (lit "[redacted]").
Definition config_value (iv : Invocation) : Value :=
  let config := effective (iv_env iv) (iv_config iv) in
  let duration d := VString (format_duration d) in
  VObject
    [(lit "device", VObject [(lit "name", VString (dev_name (cfg_device config)))]);
     (lit "joining", VObject
       [(lit "service_url", VString (service_url (cfg_joining config)));
        (lit "invitation_ttl", duration (invitation_ttl (cfg_joining config)));
        (lit "headers", VObject (map (fun h => (h.1, secret_value h.2)) (items (joining_headers (cfg_joining config)))))]);
     (lit "iroh", VObject
       [(lit "preset", VString (match preset (cfg_iroh config) with N0 => lit "n0" | Custom => lit "custom" end));
        (lit "relay_urls", strings (relay_urls (cfg_iroh config)));
        (lit "address_lookup_urls", strings (address_lookup_urls (cfg_iroh config)))]);
     (lit "sync", VObject
       [(lit "interval", duration (sync_interval (cfg_sync config)));
        (lit "max_future_clock_skew", duration (max_future_clock_skew (cfg_sync config)));
        (lit "ignore", strings (ignore_patterns (cfg_sync config)))]);
     (lit "logging", VObject [(lit "max_entries", VNumber (max_entries (cfg_logging config)))])].

(** [serde_json::to_value] puts the members in order. *)
Definition config_json (iv : Invocation) : Value := to_value (config_value iv).

Definition command_config (iv : Invocation) (command : ConfigCommand) : CIO unit :=
  match command with
  | ConfigPath =>
      if iv_json iv then path <~~ cli_path (config_file (iv_paths iv)) ;;; print_json (object [(lit "path", path)])
      else println (display (config_file (iv_paths iv)))
  | ShowConfig =>
      if iv_json iv then print_json (config_json iv) else print (PText (to_string_pretty (config_value iv)))
  end.

(** ** Logs *)

Definition log_line (log : Value) : text :=
  number (default 0 (as_i64 (member "created_ns" log))) ++ txt " "
  ++ pad 5 (chars (default (lit "info") (as_str (member "level" log)))) ++ txt " "
  ++ chars (default (lit "event") (as_str (member "event" log)))
  ++ match as_str (member "collection" log) with Some c => txt " " ++ chars c | None => [] end
  ++ match as_str (member "path" log) with Some p => txt "/" ++ chars p | None => [] end.

Fixpoint print_logs (iv : Invocation) (logs : list Value) : CIO unit :=
  match logs with
  | [] => cret tt
  | log :: logs =>
      _ <~~ (if iv_json iv then print_json log else println (log_line log)) ;;;
      print_logs iv logs
  end.

(** One round of the loop: the cursor after it, and whether there is more. *)
Definition logs_round (iv : Invocation) (after_id : Z) : CIO (Z * bool) :=
  value <~~ daemon_or (Logs after_id 64) (_ <~~ open_store iv ;;; store_value (logs_page_value after_id 64)) ;;;
  logs <~~ expect_array (member "logs" value) ;;;
  _ <~~ print_logs iv logs ;;;
  cret (default after_id (as_i64 (member "next_after_id" value)), default false (as_bool (member "has_more" value))).

(** The loop, for so many rounds; [None] when it would go on. *)
Fixpoint logs_loop (rounds : nat) (iv : Invocation) (follow : bool) (after_id : Z) : CIO (option unit) :=
  match rounds with
  | O => cret None
  | S rounds =>
      next <~~ logs_round iv after_id ;;;
      let '(after_id, has_more) := next in
      if has_more : bool then logs_loop rounds iv follow after_id
      else if negb follow then cret (Some tt)
      else _ <~~ flush iv ;;; logs_loop rounds iv follow after_id
  end.

Definition command_logs (iv : Invocation) (follow : bool) : CIO (option unit) :=
  _ <~~ require_database iv ;;;
  logs_loop (iv_rounds iv) iv follow 0.

(** ** Synchronization *)

Definition command_sync (iv : Invocation) (wait : bool) : CIO unit :=
  sent <~~ send_request (SyncNow wait) ;;;
  response <~~ (match sent with
                | Ok response => cret response
                | Err e =>
                    cfail (if not_running e then cli_new "daemon_not_running" "the skillsync daemon is not running"
                           else from_error (ShowsDaemon e))
                end) ;;;
  _ <~~ has_succeeded response ;;;
  value <~~ expect_result response ;;;
  if iv_json iv then print_json value
  else if wait then
    println (txt "Synchronized with " ++ number (default 0 (as_u64 (member "succeeded" value))) ++ txt " of "
             ++ number (default 0 (as_u64 (member "attempted" value))) ++ txt " peers.")
  else println (txt "Synchronization queued.").

(** ** Peers *)

Fixpoint print_peers (peers : list Value) : CIO unit :=
  match peers with
  | [] => cret tt
  | peer :: peers =>
      let local := if bool_decide (as_bool (member "local" peer) = Some true) then txt " (this device)" else [] in
      let online := if bool_decide (as_bool (member "online" peer) = Some true) then txt "online" else txt "offline" in
      _ <~~ println (terminal_safe_device_name (default (lit "device") (as_str (member "name" peer))) ++ local
                       ++ 0x0A :: txt "  " ++ chars (default [] (as_str (member "endpoint_id" peer))) ++ txt "  " ++ online) ;;;
      print_peers peers
  end.

Definition list_peers (iv : Invocation) (identity : DeviceIdentity) : CIO unit :=
  value <~~ daemon_or Peers (_ <~~ open_store iv ;;; cli_value (peers_value (endpoint_id identity))) ;;;
  if iv_json iv then print_json value
  else peers <~~ expect_array (member "peers" value) ;;; print_peers peers.

Definition remove_device (iv : Invocation) (identity : DeviceIdentity) (device : bytes) : CIO unit :=
  _ <~~ open_store iv ;;;
  endpoint <~~ cli_value (resolve_peer device) ;;;
  running <~~ request_if_running (RemovePeer (eid_to_string endpoint)) ;;;
  removed <~~ (match running with
               | Some response =>
                   value <~~ expect_result response ;;;
                   cret (default false (as_bool (member "removed" value)))
               | None =>
                   if bool_decide (endpoint = endpoint_id identity)
                   then cfail (cli_new "cannot_remove_self" "this device cannot remove itself")
                   else _ <~~ cli_state (apply_roster_change identity (Remove endpoint)) ;;; cret true
               end) ;;;
  if iv_json iv
  then print_json (object [(lit "endpoint_id", VString (eid_to_string endpoint)); (lit "removed", VBool removed)])
  else println (txt "Device " ++ chars (eid_to_string endpoint) ++ txt " removed.").

Definition command_peers (iv : Invocation) (command : PeersCommand) : CIO unit :=
  _ <~~ require_database iv ;;;
  identity <~~ load_identity iv ;;;
  match command with
  | ListPeers => list_peers iv identity
  | RemoveDevice device => remove_device iv identity device
  end.
End commands.
