(* ===== verification/Inviting.v ===== *)
(** main.rs: inviting a device, joining a group, and the choice of a command. *)

From S2P Require Import Prelude Bytes Utf8 Cursor Canonical Path Identity Records Roster Protocol.
From S2P Require Import Database State RosterStore Platform Installer Sync Join Joining Network NetworkLoop NetworkHandle.
From S2P Require Import Settings Keystore Setup Service Control Daemon Shell Commands.

Section inviting.
Context `{Crypto, Unicode, EventJson, Platform, Iroh, JoinCodec, ServiceCodec, !AmbientFs} {socket : ControlSocket} `{!Rendering}.

(** A command that ends. *)
Definition ended (m : CIO unit) : CIO (option unit) := _ <~~ m ;;; cret (Some tt).

(** ** Waiting for a device *)

(** One round at a reading of the clock: [None] goes on after a sleep. *)
Definition pending_round (now deadline : Z) : CIO (option Value) :=
  if deadline <=? now then cfail (cli_new "invitation_expired" "the invitation expired")
  else
    sent <~~ send_request PendingJoinRequest ;;;
    match sent with
    | Ok response =>
        if retryable_pending_join_response response then cret None
        else
          _ <~~ has_succeeded response ;;;
          result <~~ clift (ok_or (cr_result response) (cli_new "invalid_daemon_response" "daemon response has no result")) ;;;
          if is_null (member "pending" result) then cret None else cret (Some (member "pending" result))
    | Err e => if retryable_pending_join_error e then cret None else cfail (from_error (ShowsDaemon e))
    end.

(** [wait_for_pending_join], from a round on; [None] when it would go on. *)
Fixpoint wait_for_pending_join (rounds : nat) (clock : nat -> Z) (round : nat) (deadline : Z) : CIO (option Value) :=
  match rounds with
  | O => cret None
  | S rounds =>
      found <~~ pending_round (clock round) deadline ;;;
      match found with
      | Some pending => cret (Some pending)
      | None => wait_for_pending_join rounds clock (S round) deadline
      end
  end.

Definition join_request_human (device_name endpoint_id : bytes) : text :=
  0x0A :: txt "Join request from: " ++ terminal_safe_device_name device_name
  ++ 0x0A :: txt "Joining iroh EndpointID:" ++ 0x0A :: chars endpoint_id ++ [0x0A].

(** [confirm_join]; the question goes to the standard error. *)
Definition confirm_join (iv : Invocation) : CIO bool :=
  answer <~~ read_answer iv ;;; cret (approval_answer answer).

Definition ok_str (v : Value) : CIO bytes :=
  clift (ok_or (as_str v) (cli_new "invalid_daemon_response" "join request is invalid")).

(** ** The invitation *)

(** A client for the joining service, a ticket, and the invitation it gives. *)
Definition create_invitation (iv : Invocation) (address : bytes) : CIO CreatedInvitation :=
  address <~~ clift (ok_or (addr_from_json address) (from_error ShowsJson)) ;;;
  client <~~ clift (map_err (fun e => from_error (ShowsService e))
                      (client_from_config (iv_env iv) (iv_config iv) (iv_client_builds iv))) ;;;
  clift (map_err (fun e => from_error (ShowsService e))
           (Service.create client (iv_http iv) (iv_uuid iv) (endpoint_ticket address)
              (invitation_ttl (cfg_joining (iv_config iv)))).1).

Definition daemon_answer (request : ControlRequest) : CIO unit :=
  sent <~~ send_request request ;;;
  match sent with
  | Ok response => has_succeeded response
  | Err e => cfail (from_error (ShowsDaemon e))
  end.

Definition print_invitation (iv : Invocation) (invitation : CreatedInvitation) : CIO unit :=
  if iv_json iv then
    print_json (object [(lit "event", VString (lit "invitation_created"));
                         (lit "code", VString (ci_code invitation));
                         (lit "expires_at", VString (ci_expires_at invitation))])
  else
    _ <~~ println (txt "Joining code: " ++ chars (ci_code invitation)) ;;;
    _ <~~ println (txt "Expires in " ++ chars (format_duration (invitation_ttl (cfg_joining (iv_config iv)))) ++ txt "." ++ [0x0A]) ;;;
    println (txt "Waiting for another device…").

Definition send_decision (iv : Invocation) (request_id endpoint_id : bytes) (approved : bool) : CIO unit :=
  _ <~~ daemon_answer (DecideJoin request_id approved) ;;;
  if iv_json iv then
    print_json (object [(lit "event", VString (lit "join_decided")); (lit "approved", VBool approved);
                         (lit "endpoint_id", VString endpoint_id)])
  else println (if approved then txt "Device approved." else txt "Device rejected.").

(** The decision on the device that asks. *)
Definition decide_pending (iv : Invocation) (pending : Value) : CIO unit :=
  request_id <~~ ok_str (member "request_id" pending) ;;;
  endpoint_id <~~ ok_str (member "endpoint_id" pending) ;;;
  let device_name := default (lit "device") (as_str (member "device_name" pending)) in
  _ <~~ (if iv_json iv then
           print_json (object [(lit "event", VString (lit "join_requested")); (lit "device_name", VString device_name);
                                (lit "endpoint_id", VString endpoint_id)])
         else println (join_request_human device_name endpoint_id)) ;;;
  approved <~~ confirm_join iv ;;;
  send_decision iv request_id endpoint_id approved.

Definition endpoint_addr_answer : CIO bytes :=
  sent <~~ send_request GetEndpointAddr ;;;
  match sent with
  | Err _ => cfail (cli_new "daemon_not_running" "the skillsync daemon is not running")
  | Ok response =>
      _ <~~ has_succeeded response ;;;
      clift (ok_or (value ← cr_result response; as_str (member "address" value)) (cli_new "invalid_daemon_response" "daemon endpoint is unavailable"))
  end.

(** What comes before the wait. *)
Definition open_invitation (iv : Invocation) : CIO unit :=
  address <~~ endpoint_addr_answer ;;;
  invitation <~~ create_invitation iv address ;;;
  _ <~~ daemon_answer (ActivateInvitation (ci_join_nonce invitation)
                         (as_secs (invitation_ttl (cfg_joining (iv_config iv))))) ;;;
  _ <~~ print_invitation iv invitation ;;;
  flush iv.

Definition command_invite (iv : Invocation) : CIO (option unit) :=
  _ <~~ open_invitation iv ;;;
  found <~~ wait_for_pending_join (iv_rounds iv) (iv_clock iv) 1
              (iv_clock iv 0%nat + invitation_ttl (cfg_joining (iv_config iv))) ;;;
  match found with
  | None => cret None
  | Some pending => ended (decide_pending iv pending)
  end.

(** ** Joining *)

(** [run_joiner] on the database of the process, over the connection it makes. *)
Definition join_over (iv : Invocation) (identity : DeviceIdentity) (claimed : ClaimedInvitation) (name : bytes)
    : CIO EndpointId :=
  fun d =>
    let w := dk_world d in
    let '(r, s) :=
      run_joiner (endpoint_id identity) (iv_ticket iv (cd_inviter_ticket claimed)) (iv_local_addr iv) (iv_connected iv)
        (iv_stream_opened iv) (iv_stream_finished iv) (cd_join_nonce claimed) name
        (mkEnd (w_db w) (iv_incoming iv) (iv_outgoing iv)) in
    (map_err (fun e => from_error (ShowsJoin e)) r,
     mkDesk (dk_side d) (set_db w (je_db s)) (dk_sent d) (dk_printed d)).

(** The first round with the other members. *)
Definition first_sync (iv : Invocation) : CIO SyncSummary :=
  let first := iv_first_sync iv in
  _ <~~ clift (map_err (fun e => from_error (ShowsNetwork e)) (fi_started first)) ;;;
  _ <~~ (fun d => (Ok tt, mkDesk (dk_side d) (fi_world first (dk_world d)) (dk_sent d) (dk_printed d))) ;;;
  _ <~~ clift (map_err (fun e => from_error (ShowsNetwork e)) (fi_queued first)) ;;;
  summary <~~ clift (ok_or (fi_summary first) (cli_new "sync_timeout" "initial synchronization timed out")) ;;;
  _ <~~ clift (map_err (fun e => from_error (ShowsNetwork e)) (fi_shutdown first)) ;;;
  cret summary.

Definition print_identity (iv : Invocation) (identity : DeviceIdentity) : CIO unit :=
  if iv_json iv then
    print_json (object [(lit "event", VString (lit "identity"));
                         (lit "endpoint_id", VString (eid_to_string (endpoint_id identity)))])
  else
    _ <~~ println (txt "This device's iroh EndpointID:") ;;;
    _ <~~ println (chars (eid_to_string (endpoint_id identity)) ++ [0x0A]) ;;;
    _ <~~ println (txt "Compare this exact EndpointID on the inviting device.") ;;;
    println (txt "Waiting for approval…").

Definition command_join (iv : Invocation) (code name : bytes) : CIO unit :=
  _ <~~ on_desk ShowsLock (acquire (data_dir (iv_paths iv)) (iv_lock iv).1 (iv_lock iv).2) ;;;
  _ <~~ clift (map_err (fun e => from_error (ShowsJoin e)) (validate_join_device_name name)) ;;;
  setup <~~ on_desk ShowsSetup (setup_joining_device (iv_paths iv) (iv_env iv) (iv_config iv) (iv_identity iv)) ;;;
  if negb (su_created setup) && negb (bool_decide (su_device_name setup = name))
  then cfail (cli_new "device_name_mismatch" "the joining name does not match this device's current group membership")
  else
    identity <~~ load_identity iv ;;;
    _ <~~ print_identity iv identity ;;;
    _ <~~ flush iv ;;;
    client <~~ clift (map_err (fun e => from_error (ShowsService e))
                        (client_from_config (iv_env iv) (iv_config iv) (iv_client_builds iv))) ;;;
    claimed <~~ clift (map_err (fun e => from_error (ShowsService e))
                         (claim_invitation client (iv_http iv) (iv_uuid iv) code).1) ;;;
    inviter <~~ join_over iv identity claimed name ;;;
    summary <~~ first_sync iv ;;;
    if succeeded summary =? 0
    then cfail (cli_new "initial_sync_failed" "joined the group but could not synchronize with a peer")
    else if iv_json iv then
      print_json (object [(lit "event", VString (lit "joined")); (lit "device_name", VString name);
                           (lit "endpoint_id", VString (eid_to_string (su_endpoint_id setup)));
                           (lit "inviter_endpoint_id", VString (eid_to_string inviter));
                           (lit "peers_synchronized", VNumber (succeeded summary))])
    else println (0x0A :: txt "Device approved. Initial synchronization complete.").

(** ** The choice *)

(** [execute], with the configuration and the paths found; the daemon is Daemon.v's. *)
Definition execute (iv : Invocation) (command : Command) : CIO (option unit) :=
  match command with
  | CmdSetup => ended (command_setup iv)
  | CmdStatus => ended (command_status iv)
  | CmdCollections command => ended (command_collections iv command)
  | CmdConfig command => ended (command_config iv command)
  | CmdLogs follow => command_logs iv follow
  | CmdSync wait => ended (command_sync iv wait)
  | CmdInvite => command_invite iv
  | CmdJoin code name => ended (command_join iv code name)
  | CmdPeers command => ended (command_peers iv command)
  end.
End inviting.
