(* ===== verification/CommandsLaws.v ===== *)
(** What the commands do at a socket where the daemon reports what is in the
    store, or nobody answers; which requests an invitation sends, and that its
    wait for a device ends. *)

From S2P Require Import Prelude Bytes Utf8 Cursor Canonical Path Identity Records Winners Roster Protocol.
From S2P Require Import Database State StateLaws StateProps RosterStore Platform Installer Sync SyncLaws Session SessionLaws.
From S2P Require Import Join Joining Network NetworkLoop NetworkHandle Scan Settings Keystore Setup Service.
From S2P Require Import Control ControlLaws Daemon DaemonStore Shell Serving Commands Inviting.

Section laws.
Context `{Crypto, Unicode, EventJson, Platform, Iroh, JoinCodec, ServiceCodec, !AmbientFs, !Rendering}.

(** ** The terminal *)

Section desks.
Context {socket : ControlSocket}.

(** What is left of a desk after a command that only asks and prints. *)
Definition printing (d d' : Desk) (shown : list Printed) : Prop :=
  dk_side d' = dk_side d /\ dk_world d' = dk_world d /\ dk_printed d' = dk_printed d ++ shown.

Lemma printing_trans d1 d2 d3 a b : printing d1 d2 a -> printing d2 d3 b -> printing d1 d3 (a ++ b).
Proof. intros (S1 & E1 & P1) (S2 & E2 & P2). split; [congruence|]. split; [congruence|]. by rewrite P2, P1, app_assoc. Qed.

Lemma printing_none d : printing d d [].
Proof. split; [done|]. split; [done|]. by rewrite app_nil_r. Qed.

(** What a socket answers to a request for a report that is [value], unless
    nobody listens. *)
Definition reports (request : ControlRequest) (value : Value) (side : Side) (w : World) : Prop :=
  exchange request side w = (Ok (success value), side, w) \/ exchange request side w = (Err (DIo NotFound), side, w).

(** A report is the same whoever gives it. *)
Lemma fetch_report request value offline d :
  reports request value (dk_side d) (dk_world d) ->
  (forall d1, printing d d1 [] -> exists d2, offline d1 = (Ok value, d2) /\ printing d1 d2 []) ->
  exists d', daemon_or request offline d = (Ok value, d') /\ printing d d' [].
Proof.
  intros Hr Ho. unfold daemon_or, request_if_running, send_request, cbind.
  destruct Hr as [E|E]; rewrite E; cbn.
  - eexists. split; [done|]. split; [done|]. split; [done|]. by rewrite app_nil_r.
  - match goal with |- context [offline ?d1] => destruct (Ho d1) as (d2 & -> & Hp) end.
    + split; [done|]. split; [done|]. by rewrite app_nil_r.
    + exists d2. split; [done|]. destruct Hp as (Hs & Hw & Hp). by split.
Qed.

Lemma print_logs_prints iv ls d :
  exists d', print_logs iv ls d = (Ok tt, d') /\
    printing d d' (map (fun l => if iv_json iv then PJson l else PText (log_line l ++ [0x0A])) ls).
Proof.
  revert d. induction ls as [|l ls IH]; intros d; cbn [print_logs map].
  - exists d. split; [done | apply printing_none].
  - unfold cbind. match goal with |- context [(if iv_json iv then ?a else ?b) d] =>
      assert (exists d1, (if iv_json iv then a else b) d = (Ok tt, d1) /\
        printing d d1 [if iv_json iv then PJson l else PText (log_line l ++ [0x0A])]) as (d1 & -> & Hp)
        by (destruct (iv_json iv); by eexists) end.
    destruct (IH d1) as (d2 & -> & Hp2). exists d2. split; [done|]. by apply (printing_trans d d1 d2 [_]).
Qed.

(** ** The log, page by page *)

Lemma logs_page_next after limit db page db' :
  logs_page after limit db = (Ok page, db') ->
  page_next_after_id page = match last (page_logs page) with Some log => ol_id log | None => after end.
Proof.
  unfold logs_page, dbind, dget, dlift, dret. intros E. destruct (ok_or _ _) as [n|]; [|done].
  destruct (decode_log_rows _) as [ls|]; [|done]. by injection E as <- _.
Qed.

Lemma logs_ids db ls : db_wf db -> (logs db).1 = Ok ls -> Forall (fun l => 0 < ol_id l <= i64_max) ls.
Proof.
  intros Hw E. unfold logs, dbind, dget, dlift in E. cbn in E. destruct (wf_logs db Hw) as (Hs & _ & Hf).
  assert (Forall (fun row => 0 < log_id row <= i64_max) (logs_t db)) as Hids by (eapply Forall_impl; [exact Hf|]; intros row [? _]; lia).
  clear Hf. revert ls E. induction Hids as [|row rows Hrow _ IH]; intros ls E; cbn [decode_log_rows] in E.
  - by injection E as <-.
  - apply rbind_Ok in E as (l & El & E). apply rbind_Ok in E as (ls' & Els & [= <-]). constructor; [|by apply IH].
    unfold decode_operational_log_row in El. by inv_ok.
Qed.

(** Every page of the log is reported. *)
Definition logs_socket (side : Side) (w : World) : Prop :=
  forall after value, in_i64 after = true -> (ddb (logs_page_value after 64) (w_db w)).1 = Ok value -> reports (Logs after 64) value side w.

(** What is printed of the log [ls]. *)
Definition shown_logs (iv : Invocation) (ls : list OperationalLog) : list Printed :=
  map (fun l => if iv_json iv then PJson (log_value l) else PText (log_line (log_value l) ++ [0x0A])) ls.

Lemma logs_round_prints `{!EventJsonLaws} iv after d ls :
  logs_socket (dk_side d) (dk_world d) -> iv_opened iv = Ok tt -> db_wf (w_db (dk_world d)) -> (logs (w_db (dk_world d))).1 = Ok ls ->
  0 <= after <= i64_max ->
  let rest := List.filter (fun l => after <? ol_id l) ls in
  exists next d',
    logs_round iv after d = (Ok (next, bool_decide (drop 64 rest <> [])), d') /\
    printing d d' (shown_logs iv (take 64 rest)) /\
    List.filter (fun l => next <? ol_id l) ls = drop 64 rest /\ 0 <= next <= i64_max.
Proof.
  intros Hs Ho Hw Hls Ha rest. destruct (logs_page_exact after 64 (w_db (dk_world d)) Hw) as (ls' & page & El & Ep & Hl & Hm & Hn).
  rewrite El in Hls. injection Hls as ->. change (Z.to_nat _) with 64%nat in Hl, Hm, Hn. fold rest in Hl, Hm, Hn.
  assert (forall w, w_db w = w_db (dk_world d) -> (ddb (logs_page_value after 64) (w_db w)) = (Ok (log_page_value page), w_db w)) as Hv.
  { intros w ->. unfold ddb, logs_page_value, dbind. change (Z.min 64 LOG_PAGE_LIMIT) with 64. by rewrite Ep. }
  destruct (fetch_report (Logs after 64) (log_page_value page) (_ <~~ open_store iv ;;; store_value (logs_page_value after 64)) d)
    as (d1 & Ef & Hp1).
  { apply Hs; [unfold in_i64, i64_min; unfold i64_max in *; apply andb_true_iff; lia | by rewrite Hv]. }
  { intros d0 (_ & E0 & _). unfold cbind, open_store, clift. rewrite Ho. cbn [map_err]. unfold store_value, on_desk, on_db.
    specialize (Hv (dk_world d0) ltac:(by rewrite E0)). unfold ddb in Hv.
    destruct (logs_page_value after 64 (w_db (dk_world d0))) as [[v|e] db]; [|done]. injection Hv as -> ->.
    eexists. split; [reflexivity|]. split; [done|]. split; [|by rewrite app_nil_r]. cbn [dk_world]. by destruct (dk_world d0). }
  unfold logs_round. unfold cbind at 1. rewrite Ef. unfold cbind at 1, expect_array, clift.
  destruct (print_logs_prints iv (map log_value (page_logs page)) d1) as (d2 & E2 & Hp2).
  assert (as_array (member "logs" (log_page_value page)) = Some (map log_value (page_logs page))) as -> by reflexivity.
  cbn [ok_or]. unfold cbind at 1. rewrite E2.
  assert (0 <= page_next_after_id page <= i64_max) as Hr.
  { rewrite (logs_page_next _ _ _ _ _ Ep). destruct (last (page_logs page)) as [l|] eqn:Elast; [|done].
    pose proof (logs_ids (w_db (dk_world d)) ls Hw ltac:(by rewrite El)) as Hids. rewrite Forall_forall in Hids.
    assert (l ∈ ls) as Hin; [|specialize (Hids l Hin); lia].
    apply last_Some_elem_of in Elast. rewrite Hl in Elast. apply elem_of_take in Elast as (i & Hi & _).
    apply list_elem_of_lookup_2, list_elem_of_In, filter_In in Hi as [Hi _]. by apply list_elem_of_In. }
  exists (page_next_after_id page), d2. split; [|split; [|by split]].
  - assert (as_i64 (member "next_after_id" (log_page_value page)) = Some (page_next_after_id page)) as ->.
    { change (i64_try_from (page_next_after_id page) = Some (page_next_after_id page)). unfold i64_try_from.
      assert (in_i64 (page_next_after_id page) = true) as -> by (unfold in_i64, i64_min; unfold i64_max in *; apply andb_true_iff; lia). done. }
    by rewrite <-Hm.
  - rewrite <-(app_nil_l (shown_logs _ _)). apply (printing_trans d d1 d2); [done|].
    unfold shown_logs. rewrite <-Hl. by rewrite map_map in Hp2.
Qed.

(** All of it, in as many rounds as there are pages. *)
Lemma logs_loop_prints `{!EventJsonLaws} iv rounds after d ls :
  logs_socket (dk_side d) (dk_world d) -> iv_opened iv = Ok tt -> db_wf (w_db (dk_world d)) -> (logs (w_db (dk_world d))).1 = Ok ls ->
  0 <= after <= i64_max ->
  let rest := List.filter (fun l => after <? ol_id l) ls in
  (length rest < 64 * rounds)%nat ->
  exists d', logs_loop rounds iv false after d = (Ok (Some tt), d') /\ printing d d' (shown_logs iv rest).
Proof.
  intros Hs Ho. revert after d Hs. induction rounds as [|rounds IH]; intros after d Hs Hw Hls Ha rest Hlen; [lia|].
  cbn [logs_loop]. unfold cbind at 1.
  destruct (logs_round_prints iv after d ls Hs Ho Hw Hls Ha) as (next & d1 & -> & Hp & Hn & Hr). fold rest in Hp, Hn |- *.
  case_bool_decide as Hd.
  - destruct (IH next d1) as (d2 & -> & Hp2); [destruct Hp as (Hside & Hworld & _); by rewrite ?Hside, ?Hworld..|done| |].
    { rewrite Hn, length_drop. destruct (Nat.lt_ge_cases 64 (length rest)); [lia|]. by rewrite drop_ge in Hd. }
    exists d2. split; [done|]. rewrite <-(take_drop 64 rest). unfold shown_logs. rewrite map_app.
    rewrite Hn in Hp2. by apply (printing_trans d d1 d2).
  - exists d1. split; [done|]. rewrite <-(take_drop 64 rest), Hd, app_nil_r. done.
Qed.
End desks.
End laws.

(** ** Inviting a device *)

Section laws.
Context `{Crypto, Unicode, EventJson, Platform, Iroh, JoinCodec, ServiceCodec, !AmbientFs, !ControlSocket, !Rendering}.

Lemma cbind_inv {A B} (m : CIO A) (f : A -> CIO B) d r d' :
  cbind m f d = (r, d') ->
  (exists a d1, m d = (Ok a, d1) /\ f a d1 = (r, d')) \/ (exists e, m d = (Err e, d') /\ r = Err e).
Proof. unfold cbind. destruct (m d) as [[a|e] d1]; [intros E; left; eauto | intros [= <- <-]; right; eauto]. Qed.

(** What a command sends and prints is added to what was there. *)
Definition sends (P : ControlRequest -> Prop) {A} (m : CIO A) : Prop :=
  forall d, exists sent printed, dk_sent (m d).2 = dk_sent d ++ sent /\ dk_printed (m d).2 = dk_printed d ++ printed /\ Forall P sent.

Lemma sends_nothing P {A} (m : CIO A) :
  (forall d, dk_sent (m d).2 = dk_sent d /\ dk_printed (m d).2 = dk_printed d) -> sends P m.
Proof. intros Hm d. destruct (Hm d) as [-> ->]. exists [], []. by rewrite !app_nil_r. Qed.
Lemma sends_ret P {A} (a : A) : sends P (cret a).
Proof. by apply sends_nothing. Qed.
Lemma sends_fail P {A} e : sends P (cfail (A := A) e).
Proof. by apply sends_nothing. Qed.
Lemma sends_lift P {A} (r : result A CliError) : sends P (clift r).
Proof. by apply sends_nothing. Qed.
Lemma sends_print P p : sends P (print p).
Proof. intros d. exists [], [p]. by rewrite app_nil_r. Qed.
Lemma sends_request (P : ControlRequest -> Prop) request : P request -> sends P (send_request request).
Proof.
  intros Hp d. unfold send_request. destruct (exchange _ _ _) as [[r side] w]. exists [request], [].
  cbn. rewrite app_nil_r. split; [done|]. split; [done|]. by constructor.
Qed.
Lemma sends_bind P {A B} (m : CIO A) (f : A -> CIO B) : sends P m -> (forall a, sends P (f a)) -> sends P (cbind m f).
Proof.
  intros Hm Hf d. unfold cbind. specialize (Hm d). destruct (m d) as [[a|e] d1]; [|exact Hm].
  destruct Hm as (s1 & p1 & Es1 & Ep1 & H1s). simpl in Es1, Ep1. destruct (Hf a d1) as (s2 & p2 & Es2 & Ep2 & H2s).
  exists (s1 ++ s2), (p1 ++ p2). rewrite Es2, Ep2, Es1, Ep1, !app_assoc. split; [done|]. split; [done|]. by apply Forall_app.
Qed.

Lemma sends_succeeded P response : sends P (has_succeeded response).
Proof. unfold has_succeeded. destruct (cr_ok response); [apply sends_ret | apply sends_fail]. Qed.

Ltac sends :=
  repeat first
    [ apply sends_succeeded | apply sends_ret | apply sends_fail | apply sends_lift | apply sends_print | apply sends_request; done
    | match goal with
      | |- sends _ (if ?b then _ else _) => destruct b
      | |- sends _ (match ?x with _ => _ end) => destruct x
      end
    | apply sends_bind; [|intros ?] ].

Lemma decision_sends iv request_id endpoint approved :
  sends (eq (DecideJoin request_id approved)) (send_decision iv request_id endpoint approved).
Proof. unfold send_decision, daemon_answer, print_json, println. sends. Qed.

(** No approval. *)
Definition harmless (request : ControlRequest) : Prop := forall id, request <> DecideJoin id true.

Lemma wait_sends rounds clock round deadline : sends harmless (wait_for_pending_join rounds clock round deadline).
Proof.
  revert round. induction rounds as [|rounds IH]; intros round; cbn [wait_for_pending_join]; [apply sends_ret|].
  apply sends_bind; [unfold pending_round; sends|]. intros [pending|]; [apply sends_ret | apply IH].
Qed.

(** What the wait finds is what the daemon answered. *)
Definition daemon_pending (pending : Value) : Prop :=
  exists response result side w side' w', exchange PendingJoinRequest side w = (Ok response, side', w') /\
    cr_ok response = true /\ cr_result response = Some result /\ pending = member "pending" result.

Lemma wait_found rounds clock round deadline d pending d' :
  wait_for_pending_join rounds clock round deadline d = (Ok (Some pending), d') -> daemon_pending pending.
Proof.
  revert round d. induction rounds as [|rounds IH]; intros round d E; cbn [wait_for_pending_join] in E; [done|].
  apply cbind_inv in E as [(found & d1 & Er & E)|(e & _ & [=])].
  destruct found as [p|]; [|by apply (IH (S round) d1)]. injection E as -> _.
  unfold pending_round in Er. destruct (_ <=? _); [done|].
  apply cbind_inv in Er as [(sent & d2 & Es & Er)|(e & _ & [=])].
  unfold send_request in Es. destruct (exchange _ _ _) as [[answer side'] w'] eqn:Ex. injection Es as Ea _. subst answer.
  unfold cret, cfail in Er. destruct sent as [response|e]; [|by destruct (retryable_pending_join_error e)].
  destruct (retryable_pending_join_response response); [done|].
  apply cbind_inv in Er as [([] & d3 & Eo & Er)|(e & _ & [=])]. unfold has_succeeded in Eo.
  destruct (cr_ok response) eqn:Hok; [|done].
  apply cbind_inv in Er as [(result & d4 & Ev & Er)|(e & _ & [=])]. unfold clift in Ev.
  destruct (cr_result response) as [value|] eqn:Hresult; [|done]. injection Ev as Ev _. subst value.
  destruct (is_null _); [done|]. injection Er as Er _. subst pending. by exists response, result, (dk_side d), (dk_world d), side', w'.
Qed.

(** The wait ends when the clock reaches the deadline, if not before. *)
Lemma wait_ends rounds clock round deadline d n d' :
  (round <= n < round + rounds)%nat -> deadline <= clock n ->
  wait_for_pending_join rounds clock round deadline d <> (Ok None, d').
Proof.
  revert round d. induction rounds as [|rounds IH]; intros round d Hn Hc E; [lia|]. cbn [wait_for_pending_join] in E.
  apply cbind_inv in E as [(found & d1 & Er & E)|(e & _ & [=])].
  destruct found as [p|]; [done|]. destruct (decide (round = n)) as [->|Hne].
  - unfold pending_round in Er. by replace (deadline <=? clock n) with true in Er by lia.
  - by apply (IH (S round) d1); [lia..|].
Qed.

(** What is shown of the device that asks. *)
Definition shown_request (iv : Invocation) (device_name endpoint_id : bytes) : Printed :=
  if iv_json iv then
    PJson (object [(lit "event", VString (lit "join_requested")); (lit "device_name", VString device_name);
                    (lit "endpoint_id", VString endpoint_id)])
  else PText (join_request_human device_name endpoint_id ++ [0x0A]).

Lemma decide_asks iv pending d r d' id :
  decide_pending iv pending d = (r, d') -> DecideJoin id true ∈ dk_sent d' -> DecideJoin id true ∉ dk_sent d ->
  (exists answer, iv_answer iv = Ok answer /\ approval_answer answer = true) /\
  exists endpoint name, member "request_id" pending = VString id /\ member "endpoint_id" pending = VString endpoint /\
    shown_request iv name endpoint ∈ dk_printed d'.
Proof.
  intros E Hin Hout. unfold decide_pending in E.
  apply cbind_inv in E as [(request_id & d1 & Ei & E)|(e & Ei & _)]; [|injection Ei as _ <-; done].
  apply cbind_inv in E as [(endpoint & d2 & Ee & E)|(e & Ee & _)];
    [|injection Ei as _ <-; injection Ee as _ <-; done].
  assert (d1 = d) as -> by by injection Ei. assert (d2 = d) as -> by by injection Ee.
  assert (member "request_id" pending = VString request_id) as Hid by (injection Ei as Ei; by destruct (member "request_id" pending) eqn:?; simplify_eq/=).
  assert (member "endpoint_id" pending = VString endpoint) as Hend by (injection Ee as Ee; by destruct (member "endpoint_id" pending) eqn:?; simplify_eq/=).
  cbv zeta in E. set (name := default _ _) in E.
  apply cbind_inv in E as [(u & d3 & Ep & E)|(e & Ep & _)]; [|by destruct (iv_json iv)].
  assert (dk_sent d3 = dk_sent d /\ shown_request iv name endpoint ∈ dk_printed d3) as [Hs3 Hp3].
  { unfold shown_request. destruct (iv_json iv); injection Ep as _ <-; cbn; (split; [done|]); apply elem_of_app; right;
      by apply list_elem_of_singleton. }
  apply cbind_inv in E as [(approved & d4 & Ec & E)|(e & Ec & _)]; unfold confirm_join, read_answer, flush in Ec;
    [|unfold cbind, clift, cret in Ec; destruct (iv_flushed iv), (iv_answer iv); simplify_eq/=; congruence].
  assert (d4 = d3 /\ exists answer, iv_answer iv = Ok answer /\ approval_answer answer = approved) as (-> & answer & Ha & Happ).
  { unfold cbind, clift, cret in Ec. destruct (iv_flushed iv), (iv_answer iv) as [answer|]; simplify_eq/=; (split; [done|]); by exists answer. }
  pose proof (decision_sends iv request_id endpoint approved d3) as (sent & printed & Es & Eq & Hall).
  rewrite E in Es, Eq. simpl in Es, Eq. rewrite Es, Hs3 in Hin. apply elem_of_app in Hin as [|Hin]; [done|].
  rewrite Forall_forall in Hall. apply Hall in Hin as [= -> ->].
  split; [by exists answer|]. exists endpoint, name. split; [done|]. split; [done|].
  rewrite Eq. apply elem_of_app. by left.
Qed.

Lemma harmless_keeps {A} (m : CIO A) d id :
  sends harmless m -> DecideJoin id true ∈ dk_sent (m d).2 -> DecideJoin id true ∈ dk_sent d.
Proof.
  intros Hm Hin. destruct (Hm d) as (sent & printed & Es & _ & Hall). rewrite Es in Hin.
  apply elem_of_app in Hin as [?|Hin]; [done|]. rewrite Forall_forall in Hall. by destruct (Hall _ Hin id).
Qed.
Lemma open_invitation_sends iv : sends harmless (open_invitation iv).
Proof.
  unfold open_invitation, endpoint_addr_answer, create_invitation, daemon_answer, print_invitation, print_json, println, flush. sends.
Qed.
End laws.
