(* ===== verification/SocketLaws.v ===== *)
(** Commands at two sockets: when a command does the same whether a daemon
    answers or none listens. *)

From S2P Require Import Prelude Bytes Utf8 Cursor Canonical Path Identity Records Winners Roster Protocol.
From S2P Require Import Database State StateLaws StateProps RosterStore Platform Installer Sync SyncLaws Session SessionLaws.
From S2P Require Import Join Joining Network NetworkLoop NetworkHandle Scan Settings Keystore Setup Service.
From S2P Require Import Control ControlLaws Daemon DaemonStore Shell Serving Commands Inviting CommandsLaws.

Section relation.
Context `{Platform} (s1 s2 : ControlSocket).

(** The same world, and the same on the terminal. *)
Definition alike (d1 : @Desk _ s1) (d2 : @Desk _ s2) : Prop :=
  dk_world d1 = dk_world d2 /\ dk_printed d1 = dk_printed d2.
(** The same result; what an error says may differ. *)
Definition same_result {A} (r1 r2 : result A CliError) : Prop :=
  match r1, r2 with Ok a, Ok b => a = b | Err _, Err _ => True | _, _ => False end.
(** Where the first stands: what is known of the daemon and the world it shares. *)
Abbreviation Place := (@Side _ s1 -> World -> Prop).
Definition anywhere : Place := fun _ _ => True.
Definition sim (P Q : Place) {A} (m1 : @CIO _ s1 A) (m2 : @CIO _ s2 A) : Prop :=
  forall d1 d2, P (dk_side d1) (dk_world d1) -> alike d1 d2 ->
    same_result (m1 d1).1 (m2 d2).1 /\ alike (m1 d1).2 (m2 d2).2 /\
    (is_ok (m1 d1).1 = true -> Q (dk_side (m1 d1).2) (dk_world (m1 d1).2)).

Lemma sim_ret P {A} (a : A) : sim P P (cret a) (cret a).
Proof. by intros d1 d2 Hp Hd. Qed.
Lemma sim_fail P {A} e1 e2 : sim P P (cfail (A := A) e1) (cfail e2).
Proof. by intros d1 d2 Hp Hd. Qed.
Lemma sim_lift P {A} (r : result A CliError) : sim P P (clift r) (clift r).
Proof. intros d1 d2 Hp Hd. split; [by destruct r|]. by split. Qed.
Lemma sim_bind P Q R {A B} (m1 : @CIO _ s1 A) (m2 : @CIO _ s2 A) (f1 : A -> @CIO _ s1 B) (f2 : A -> @CIO _ s2 B) :
  sim P Q m1 m2 -> (forall a, sim Q R (f1 a) (f2 a)) -> sim P R (cbind m1 f1) (cbind m2 f2).
Proof.
  intros Hm Hf d1 d2 Hp Hd. specialize (Hm d1 d2 Hp Hd) as (Hr & Ha & Hq). unfold cbind.
  destruct (m1 d1) as [[a|e1] d1'], (m2 d2) as [[b|e2] d2']; try done. simpl in Hr, Ha, Hq. subst b.
  apply Hf; [by apply Hq | done].
Qed.
(** With what is known of the value. *)
Lemma sim_bind_with {A B} (V : A -> Prop) P Q R (m1 : @CIO _ s1 A) (m2 : @CIO _ s2 A) (f1 : A -> @CIO _ s1 B) (f2 : A -> @CIO _ s2 B) :
  sim P Q m1 m2 -> (forall d a d', m1 d = (Ok a, d') -> V a) -> (forall a, V a -> sim Q R (f1 a) (f2 a)) ->
  sim P R (cbind m1 f1) (cbind m2 f2).
Proof.
  intros Hm Hv Hf d1 d2 Hp Hd. specialize (Hm d1 d2 Hp Hd) as (Hr & Ha & Hq). specialize (Hv d1). unfold cbind.
  destruct (m1 d1) as [[a|e1] d1'], (m2 d2) as [[b|e2] d2']; try done. simpl in Hr, Ha, Hq. subst b.
  apply Hf; [by eapply Hv | by apply Hq | done].
Qed.
Lemma sim_print P p : sim P P (print p) (print p).
Proof. intros d1 d2 Hp [Hw Hd]. split; [done|]. split; [|done]. split; [done|]. cbn. by rewrite Hd. Qed.
Lemma sim_on_desk P {E A} (f g : E -> CliMessage) (m : IO E A) : sim P anywhere (on_desk f m) (on_desk g m).
Proof.
  intros d1 d2 _ [Hw Hp]. unfold on_desk. rewrite Hw. by destruct (m (dk_world d2)) as [[a|e] w].
Qed.
Lemma sim_if P Q {A} (b : bool) (m1 n1 : @CIO _ s1 A) (m2 n2 : @CIO _ s2 A) :
  sim P Q m1 m2 -> sim P Q n1 n2 -> sim P Q (if b then m1 else n1) (if b then m2 else n2).
Proof. by destruct b. Qed.
End relation.
Arguments anywhere {_ _} _ _.

(** [sim_walk] follows the structure of a command that stays where it is; [leaf]
    closes what it calls. *)
Ltac sim_walk leaf :=
  repeat first
    [ apply sim_ret | apply sim_fail | apply sim_lift | apply sim_print | leaf
    | apply sim_on_desk
    | apply sim_if
    | match goal with |- sim ?s1 ?s2 ?P ?P _ _ => apply (sim_bind s1 s2 P P P); [|intros ?] end
    | match goal with |- sim _ _ _ _ (match ?x with _ => _ end) _ => destruct x end ].

Section laws.
Context `{Crypto, Unicode, EventJson, Platform, Iroh, JoinCodec, ServiceCodec, !AmbientFs, !Rendering}.
Context `{ControlJson, !ControlJsonLaws}.

(** ** What asks nothing of the daemon, changes nothing and prints nothing *)

Definition quiet {socket : ControlSocket} {A} (m : @CIO _ socket A) : Prop :=
  forall d, dk_side (m d).2 = dk_side d /\ dk_world (m d).2 = dk_world d /\ dk_printed (m d).2 = dk_printed d.
Lemma quiet_bind {socket : ControlSocket} {A B} (m : @CIO _ socket A) (f : A -> CIO B) :
  quiet m -> (forall a, quiet (f a)) -> quiet (cbind m f).
Proof.
  intros Hm Hf d. unfold cbind. specialize (Hm d). destruct (m d) as [[a|e] d1]; [|done]. simpl in Hm.
  destruct Hm as (<- & <- & <-). apply Hf.
Qed.
Lemma quiet_state {socket : ControlSocket} {A} (m : Db A) : reads m -> quiet (socket := socket) (cli_state m).
Proof.
  intros Hm d. unfold cli_state, on_desk, on_db. destruct (m (w_db (dk_world d))) as [r db] eqn:E. apply Hm in E as ->.
  cbn. split; [done|]. split; [by destruct (dk_world d) | done].
Qed.
Lemma quiet_agreed {socket : ControlSocket} iv name path replace : quiet (socket := socket) (agreed_path iv name path replace).
Proof.
  unfold agreed_path, confirm_path, confirm_replacement, read_answer, flush, open_store.
  repeat first [ by apply quiet_state, reads_collection | by intros d
               | match goal with |- quiet (if ?b then _ else _) => destruct b | |- quiet (match ?x with _ => _ end) => destruct x end
               | apply quiet_bind; [|intros ?] ].
Qed.
Lemma agreed_absolute {socket : ControlSocket} iv name path replace d p d' :
  agreed_path (socket := socket) iv name path replace d = (Ok p, d') -> absolute_path iv path = Ok p.
Proof.
  unfold agreed_path, cbind at 1, clift. destruct (absolute_path iv path) as [q|e]; [|done]. cbn [map_err]. unfold cbind, cret.
  destruct (open_store iv d) as [[u|e] d1]; [|done]. destruct (confirm_path _ _ _ _ d1) as [[v|e] d2]; [|done]. by intros [= -> _].
Qed.

(** ** At the daemon and at no daemon *)

Section daemon.
Context (env : RequestEnv).
Abbreviation both := (sim (up env) down).

(** A request and what stands in for it do the same to the world, and give the
    same value, if any. *)
Definition stands_in (request : ControlRequest) (offline : @CIO _ down Value) : Prop :=
  forall s d, dk_world d = sv_world s ->
    let '(r, s') := request_result env request s in
    let '(q, d') := offline d in
    dk_world d' = sv_world s' /\ dk_printed d' = dk_printed d /\
    match r, q with Ok (value, _), Ok value' => value = value' | Err _, Err _ => True | _, _ => False end.

Lemma sim_daemon_or P Q request (online : @CIO _ (up env) Value) offline :
  (forall side w, P side w -> carried env side w request) ->
  (forall s value s', P (sv_handle s, sv_comparisons s) (sv_world s) -> request_result env request s = (Ok value, s') ->
     Q (sv_handle s', sv_comparisons s') (sv_world s')) ->
  stands_in request offline -> both P Q (daemon_or request online) (daemon_or request offline).
Proof.
  intros Hc Hq Hs d1 d2 Hplace [Hw Hp]. unfold daemon_or, request_if_running, send_request, cbind.
  rewrite (up_exchange env request (dk_side d1) (dk_world d1)) by by apply Hc. cbn [exchange down]. unfold handle_request.
  set (d := mkDesk (dk_side d2) (dk_world d2) (dk_sent d2 ++ [request]) (dk_printed d2)).
  set (s := mkService (dk_side d1).1 (dk_side d1).2 (dk_world d1)).
  specialize (Hs s d (eq_sym Hw)). specialize (Hq s). unfold s in Hq. cbn [sv_handle sv_comparisons sv_world] in Hq.
  rewrite <-surjective_pairing in Hq. fold s in Hq.
  destruct (request_result env request s) as [[[value action]|e] s'].
  - cbn. fold d. destruct (offline d) as [[value'|e'] d'], Hs as (Hw' & Hp' & Hv); [|done]. split; [exact Hv|].
    split; [split; cbn; [by symmetry | by rewrite Hp']|]. intros _. by apply (Hq (value, action)).
  - destruct e; cbn; fold d; destruct (offline d) as [[value'|e'] d'], Hs as (Hw' & Hp' & Hv); try done;
      (split; [done|]); (split; [split; cbn; [by symmetry | by rewrite Hp']|]); done.
Qed.

Lemma sdb_ddb {A} (m : Db A) s : sdb m s = sdbd (ddb m) s.
Proof. unfold sdb, sdbd, on_world, state_io, imap_err, on_db, ddb. by destruct (m _). Qed.

(** A report leaves everything where it is. *)
Definition is_report (request : ControlRequest) (m : DbD Value) : Prop :=
  (forall db, (m db).2 = db) /\ forall s, request_result env request s = (value <=- sdbd m ;; sret (value, NoAction)) s.
Lemma report_stays request m s value s' : is_report request m -> request_result env request s = (Ok value, s') -> s' = s.
Proof.
  intros [Hm Hr] E. rewrite Hr in E. unfold srbind, sdbd in E. specialize (Hm (w_db (sv_world s))).
  destruct (m _) as [[v|e] db]; [|done]. injection E as _ <-. simpl in Hm. subst db. by destruct s as [? ? []].
Qed.

(** A report of the store stands in for the daemon's. *)
Lemma report_stands_in request m (offline : @CIO _ down Value) :
  is_report request m -> (forall d, offline d = cli_value m d) -> stands_in request offline.
Proof.
  intros [_ Hr] Ho s d Hw. rewrite Hr, Ho. unfold srbind, sdbd, cli_value, on_desk. rewrite Hw.
  by destruct (m (w_db (sv_world s))) as [[value|e] db].
Qed.
Lemma sim_report P request m (online : @CIO _ (up env) Value) offline :
  is_report request m -> (forall side w, P side w -> carried env side w request) ->
  (forall d, offline d = cli_value m d) -> both P P (daemon_or request online) (daemon_or request offline).
Proof.
  intros Hm Hc Ho. apply sim_daemon_or; [done | | by eapply report_stands_in].
  intros s value s' Hp E. by apply (report_stays _ _ _ _ _ Hm) in E as ->.
Qed.

Lemma store_value_ddb {A} (m : Db A) (d : @Desk _ down) : store_value m d = cli_value (ddb m) d.
Proof. unfold store_value, cli_value, on_desk, on_db, ddb. by destruct (m _) as [[]]. Qed.

Context (iv : Invocation) (identity : DeviceIdentity).
Context (Hopened : iv_opened iv = Ok tt) (Hidentity : iv_identity iv = Ok identity).
Context (Hendpoint : re_endpoint env = endpoint_id identity) (Hconfig : re_config env = iv_config iv).

Lemma opened_then {B} (f : unit -> @CIO _ down B) d : cbind (open_store iv) f d = f tt d.
Proof. unfold cbind, open_store, clift. by rewrite Hopened. Qed.

Lemma collections_report : is_report Collections collections_value.
Proof. split; [apply collections_value_same | done]. Qed.
Lemma logs_report after : is_report (Logs after 64) (ddb (logs_page_value after 64)).
Proof.
  split; [intros db; apply ddb_same, reads_logs_page_value|]. intros s. cbn [request_result]. unfold srbind at 1. by rewrite sdb_ddb.
Qed.
Lemma peers_report : is_report Peers (peers_value (endpoint_id identity)).
Proof. split; [apply peers_value_same|]. intros s. cbn [request_result]. by rewrite Hendpoint. Qed.
Lemma remove_stands_in name :
  stands_in (RemoveCollection name)
    (removed <~~ on_desk ShowsDaemon (detach_collection (iv_config iv) name) ;;;
     cret (object [(lit "name", VString name); (lit "removed", VBool removed)])).
Proof.
  intros s d Hw. cbn [request_result]. rewrite Hconfig. unfold srbind, on_world, cbind, on_desk. rewrite Hw.
  by destruct (detach_collection _ _ _) as [[removed|e] w].
Qed.

Lemma sim_print_collections P l : both P P (print_collections l) (print_collections l).
Proof. induction l as [|c l IH]; cbn [print_collections]; unfold println; sim_walk ltac:(apply IH). Qed.
Lemma sim_print_logs P logs : both P P (print_logs iv logs) (print_logs iv logs).
Proof. induction logs as [|l logs IH]; cbn [print_logs]; unfold print_json, println; sim_walk ltac:(apply IH). Qed.
Lemma sim_print_peers P peers : both P P (print_peers peers) (print_peers peers).
Proof. induction peers as [|p peers IH]; cbn [print_peers]; cbv zeta; unfold println; sim_walk ltac:(apply IH). Qed.

(** The cursor is an i64. *)
Lemma logs_round_cursor {socket : ControlSocket} after d next more d' :
  in_i64 after = true -> logs_round (socket := socket) iv after d = (Ok (next, more), d') -> in_i64 next = true.
Proof.
  intros Ha. unfold logs_round, cbind, cret. destruct (daemon_or _ _ d) as [[value|e] d1]; [|done].
  destruct (expect_array _ d1) as [[logs|e] d2]; [|done]. destruct (print_logs _ _ d2) as [[u|e] d3]; [|done].
  intros [= <- _ _]. unfold as_i64. destruct (member _ _); try done. unfold i64_try_from. by destruct (in_i64 n) eqn:E.
Qed.

Lemma sim_logs_loop P rounds follow after :
  in_i64 after = true ->
  (forall after side w, in_i64 after = true -> P side w -> carried env side w (Logs after 64)) ->
  both P P (logs_loop rounds iv follow after) (logs_loop rounds iv follow after).
Proof.
  intros Hi Hc. revert after Hi. induction rounds as [|rounds IH]; intros after Hi; cbn [logs_loop]; [apply sim_ret|].
  apply (sim_bind_with (up env) down (fun x => in_i64 x.1 = true) P P P);
    [|intros d [next more] d'; by apply logs_round_cursor
     |intros [next more] Hnext; unfold flush; sim_walk ltac:(by apply IH)].
  unfold logs_round, expect_array.
  sim_walk ltac:(first [apply sim_print_logs
    | apply (sim_report P _ _ _ _ (logs_report after)); [intros side w; by apply Hc | intros d; by rewrite opened_then, store_value_ddb]]).
Qed.

(** ** Outcomes *)

(** What is seen of a command: whether it succeeds, the world it leaves, and what
    it prints. *)
Definition seen {socket : ControlSocket} {A} (m : @CIO _ socket A) (side : @Side _ socket) (w : World)
    : bool * World * list Printed :=
  let '(r, d) := m (mkDesk side w [] []) in (is_ok r, dk_world d, dk_printed d).

(** The place a command starts at. *)
Definition pinned (side : Handle * gmap bytes FilenameComparison) (w : World) : Handle * gmap bytes FilenameComparison -> World -> Prop :=
  fun side' w' => side' = side /\ w' = w.

Lemma sim_seen Q {A} (m1 : @CIO _ (up env) A) (m2 : @CIO _ down A) side w :
  both (pinned side w) Q m1 m2 -> seen m1 side w = seen m2 tt w.
Proof.
  intros Hm. unfold seen. destruct (Hm (@mkDesk _ (up env) side w [] []) (@mkDesk _ down tt w [] [])) as (Hr & [Hw Hp] & _); [done..|].
  destruct (m1 _) as [[a|e] d1], (m2 _) as [[b|e'] d2]; try done; simpl in *; by rewrite Hw, Hp.
Qed.

(** What the daemon does of a collection besides attaching it. *)
Definition attached_scan (name : bytes) : DIO bool :=
  attached <=- sdb (collection name) ;;
  match attached with
  | None => sfail (DProtocol "attached collection is missing")
  | Some c => scan_collection_safely (re_scanner env) c (re_endpoint env)
  end.

Lemma request_add name path s :
  utf8_valid path = true ->
  request_result env (AddCollection name path) s
  = (_ <=- on_world (attach_collection (iv_config iv) name path) ;;
     _ <=- attached_scan name ;;
     sret (object [(lit "name", VString name); (lit "path", VString path); (lit "attached", VBool true)], RebuildWatchers)) s.
Proof.
  intros Hpath. cbn [request_result]. rewrite Hconfig. unfold srbind, attached_scan.
  destruct (on_world _ s) as [[u|e] s1]; [|done]. unfold srbind.
  destruct (sdb (collection name) s1) as [[[c|]|e] s2]; [|done|done].
  destruct (scan_collection_safely _ _ _ s2) as [[changed|e] s3]; [|done]. unfold path_value, json_path. by rewrite Hpath.
Qed.

Lemma seen_add name path replace side w :
  (forall p, absolute_path iv path = Ok p -> carried env side w (AddCollection name p)) ->
  let '(ok, w1, printed) := seen (socket := down) (add_named iv name path replace) tt w in
  let '(r, s) := attached_scan name (mkService side.1 side.2 w1) in
  seen (socket := up env) (add_named iv name path replace) side w
  = if ok then (is_ok r, sv_world s, if is_ok r then printed else []) else (false, w1, []).
Proof.
  intros Hcarried. unfold seen, add_named. unfold cbind at 1 5.
  assert (both anywhere anywhere (agreed_path iv name path replace) (agreed_path iv name path replace)) as Hs.
  { unfold agreed_path, confirm_path, confirm_replacement, read_answer, flush, open_store, cli_state. sim_walk fail. }
  destruct (Hs (@mkDesk _ (up env) side w [] []) (@mkDesk _ down tt w [] [])) as (Hr & [Hw Hp] & _); [done..|].
  pose proof (quiet_agreed (socket := up env) iv name path replace (@mkDesk _ (up env) side w [] [])) as (Hside & Hworld & Hnone).
  pose proof (agreed_absolute (socket := up env) iv name path replace (@mkDesk _ (up env) side w [] [])) as Habs.
  destruct (agreed_path (socket := up env) iv name path replace _) as [[p|e1] d1], (agreed_path _ _ _ _ _) as [[q|e2] d2]; try done;
    simpl in Hr, Hw, Hp, Hside, Hworld, Hnone; [subst q|].
  2: { cbn. rewrite Hw, Hnone. by destruct (attached_scan _ _). }
  specialize (Hcarried p (Habs p d1 eq_refl)).
  assert (utf8_valid p = true) as Htext by (destruct Hcarried as [(line & Hline & _) _]; by eapply request_path_text).
  unfold daemon_or, request_if_running, send_request, cbind.
  rewrite up_exchange by by rewrite Hside, Hworld. cbn [exchange down]. unfold handle_request.
  rewrite request_add by done. cbn [not_running cret dk_side dk_world dk_printed]. unfold on_desk, srbind, on_world. cbn [dk_world sv_world].
  rewrite <-Hw, Hworld. unfold cli_path, json_path. rewrite Htext.
  destruct (attach_collection _ _ _ _) as [[u|e] w1]; cbn [map_err cret].
  - rewrite Hside. cbn [set_world sv_handle sv_comparisons]. destruct (iv_json iv) eqn:Hj; cbn.
    all: destruct (attached_scan name _) as [[changed|e] s]; [|destruct e]; cbn; by rewrite ?Hnone, ?Hp, <-?Hp, ?Hnone.
  - destruct e; cbn; rewrite Hnone; by destruct (attached_scan _ _).
Qed.

(** ** Removing a peer *)

Lemma resolve_in_member tip query endpoint : resolve_in tip query = Ok endpoint -> is_Some (rev_members tip !! endpoint).
Proof.
  assert (forall q, resolve_name tip q = Ok endpoint -> is_Some (rev_members tip !! endpoint)) as Hname.
  { intros q. unfold resolve_name. destruct (List.filter _ _) as [|[e n] [|]] eqn:Ef; try done. intros [= ->].
    assert (In (endpoint, n) (List.filter (fun m => bool_decide (m.2 = q)) (items (rev_members tip)))) as Hin by (rewrite Ef; by left).
    apply filter_In in Hin as [Hin%list_elem_of_In%items_elem _]. by exists n. }
  unfold resolve_in. destruct (eid_from_str query); [|apply Hname]. case_bool_decide; [|apply Hname]. by intros [= ->].
Qed.

Lemma resolve_member query db endpoint db' :
  resolve_peer query db = (Ok endpoint, db') ->
  db' = db /\ exists chain tip, selected_roster_chain db = (Ok chain, db) /\ last chain = Some tip /\
    is_Some (rev_members tip !! endpoint) /\ resolve_peer (eid_to_string endpoint) db = (Ok endpoint, db).
Proof.
  unfold resolve_peer, local_tip, ddb. destruct (selected_roster_chain db) as [[chain|e] db1] eqn:Ec; [|done].
  pose proof (reads_chain db _ _ Ec) as ->. cbn [map_err]. destruct (last chain) as [tip|] eqn:El; [|done]. cbn [ok_or].
  intros [= Hr <-]. apply resolve_in_member in Hr. split; [done|]. exists chain, tip. repeat (split; [done|]).
  f_equal. unfold resolve_in. rewrite eid_from_to_string. by rewrite bool_decide_eq_true_2.
Qed.

Lemma seen_remove_device device side w :
  re_identity env = Some identity ->
  (forall endpoint, carried env side w (RemovePeer (eid_to_string endpoint))) ->
  seen (socket := up env) (remove_device iv identity device) side w
  = seen (socket := down) (remove_device iv identity device) tt w.
Proof.
  intros Hid Hcarried. unfold seen, remove_device, open_store, cbind, clift. rewrite Hopened. cbn [map_err].
  unfold cli_value, on_desk. cbn [dk_world]. destruct (resolve_peer device (w_db w)) as [[endpoint|e] db] eqn:Er; [|done].
  destruct (resolve_member _ _ _ _ Er) as (-> & chain & tip & Hc & Ht & Hm & Ha). cbn [map_err].
  assert (set_db w (w_db w) = w) as -> by by destruct w.
  unfold request_if_running, send_request, cbind. cbn [dk_side dk_world dk_sent dk_printed].
  rewrite (up_exchange env _ side w) by apply Hcarried. cbn [exchange down]. unfold handle_request. cbn [request_result not_running]. unfold srbind, sdbd. cbn [sv_world]. rewrite Ha. cbn [set_world sv_handle sv_comparisons sv_world].
  assert (set_db w (w_db w) = w) as -> by by destruct w.
  unfold remove_network_peer, imap_err, remove_peer. rewrite Hid. unfold ibind, ilift. cbn [ok_or sv_handle sv_world].
  case_bool_decide as Hself; [done|].
  unfold nstate, imap_err, on_db. cbn [set_world sv_handle sv_world]. rewrite Hc. cbn [map_err]. rewrite Ht. cbn [ok_or].
  rewrite bool_decide_eq_false_2 by (destruct Hm as [? ->]; done). assert (set_db w (w_db w) = w) as -> by by destruct w.
  unfold cret. cbn [not_running]. unfold cli_state, on_desk, on_db. cbn [dk_world].
  destruct (apply_roster_change identity (Remove endpoint) (w_db w)) as [[revision|e] db']; cbn; [|done].
  by destruct (iv_json iv).
Qed.
End daemon.
End laws.
