(* ===== verification/CommandsProps.v ===== *)
(** What a user of the command line can rely on. *)

From S2P Require Import Prelude Bytes Utf8 Cursor Canonical Path Identity Concrete Records Winners Roster Protocol.
From S2P Require Import Database State StateLaws StateProps RosterStore Platform ToyFs Installer Sync SyncLaws SyncProps.
From S2P Require Import Join Joining Network NetworkLoop NetworkHandle ToyJoin Scan ScanProps Settings Keystore Setup SetupProps.
From S2P Require Import Service Control ControlLaws Daemon DaemonStore DaemonProps Shell Serving Commands Inviting CommandsLaws SocketLaws.

Section properties.
Context `{Crypto, Unicode, EventJson, Platform, Iroh, JoinCodec, ServiceCodec, !AmbientFs, !Rendering}.
Context `{ControlJson, !ControlJsonLaws}.

(** The commands that do the same with a daemon and without. *)
Definition indifferent (command : Command) : Prop :=
  match command with
  | CmdCollections ListCollections | CmdCollections (RemoveNamed _) | CmdLogs _ | CmdPeers _ => True
  | _ => False
  end.

Lemma seen_ended {socket : ControlSocket} (m : CIO unit) side w : seen (ended m) side w = seen m side w.
Proof. unfold seen, ended, cbind, cret. by destruct (m _) as [[]]. Qed.

Lemma seen_database {socket : ControlSocket} iv (m : CIO unit) side w :
  iv_database_exists iv = true -> seen (_ <~~ require_database iv ;;; m) side w = seen m side w.
Proof. intros Hd. unfold seen, cbind, require_database. by rewrite Hd. Qed.

Lemma seen_identity {socket : ControlSocket} iv identity (m : DeviceIdentity -> CIO unit) side w :
  iv_identity iv = Ok identity -> seen (identity <~~ load_identity iv ;;; m identity) side w = seen (m identity) side w.
Proof. intros Hi. unfold seen, cbind, load_identity, clift. by rewrite Hi. Qed.

(** What such a command, or one that adds a collection, asks of the daemon. *)
Definition asks (iv : Invocation) (command : Command) (request : ControlRequest) : Prop :=
  match command with
  | CmdCollections ListCollections => request = Collections
  | CmdCollections (RemoveNamed name) => request = RemoveCollection name
  | CmdCollections (Add name path _) => exists p, absolute_path iv path = Ok p /\ request = AddCollection name p
  | CmdLogs _ => exists after, in_i64 after = true /\ request = Logs after 64
  | CmdPeers ListPeers => request = Peers
  | CmdPeers (RemoveDevice _) => exists endpoint, request = RemovePeer (eid_to_string endpoint)
  | _ => False
  end.

(** C29: The command line does the same whether a daemon answers it or it works on
    the store itself.  Listing and removing collections, reading the log, and
    listing and removing peers succeed or fail alike, print the same, and leave
    the same store and files; adding a collection does too, but that the daemon
    then scans it.  What they ask goes over the socket, and is supposed to fit
    its frame, as is the daemon's answer: an answer that does not fit is not
    given (logs_beyond_limit below). *)
Theorem daemon_or_not env iv identity side w :
  iv_database_exists iv = true -> iv_opened iv = Ok tt -> iv_identity iv = Ok identity ->
  re_endpoint env = endpoint_id identity -> re_identity env = Some identity -> re_config env = iv_config iv ->
  (forall command, indifferent command -> (forall request, asks iv command request -> carried env side w request) ->
     seen (socket := up env) (execute iv command) side w = seen (socket := down) (execute iv command) tt w) /\
  forall name path replace,
    (forall request, asks iv (CmdCollections (Add name path replace)) request -> carried env side w request) ->
    let add socket := execute (socket := socket) iv (CmdCollections (Add name path replace)) in
    let '(ok, w1, printed) := seen (add down) tt w in
    let '(scanned, s) := attached_scan env name (mkService side.1 side.2 w1) in
    seen (add (up env)) side w = if ok then (is_ok scanned, sv_world s, if is_ok scanned then printed else []) else (false, w1, []).
Proof.
  intros Hd Ho Hi He Hs Hc. split.
  - intros command Hind Hasks. assert (forall request, asks iv command request -> forall side' w', pinned side w side' w' -> carried env side' w' request)
      as Hpin by (intros request Ha side' w' [-> ->]; by apply Hasks).
    destruct command as [| |[| |name]| |follow| | | |[|device]]; try done; cbn [execute];
      rewrite ?seen_ended; unfold command_collections, command_logs, command_peers; try rewrite !seen_database by done.
    + apply (sim_seen env (pinned side w)). unfold list_collections, print_json, expect_array.
      sim_walk ltac:(first [apply sim_print_collections
        | apply (sim_report env (pinned side w) _ _ _ _ (collections_report env)); [by apply Hpin | intros d; by rewrite opened_then]]).
    + apply (sim_seen env anywhere). unfold remove_named, print_json, println, open_store.
      apply (sim_bind (up env) down _ (pinned side w)); [apply sim_lift|]. intros _.
      apply (sim_bind (up env) down _ anywhere); [|intros value; sim_walk fail].
      apply sim_daemon_or; [by apply Hpin | done | by apply remove_stands_in].
    + unfold seen, cbind, require_database. rewrite Hd.
      refine (sim_seen env (pinned side w) _ _ side w (sim_logs_loop env iv Ho _ (iv_rounds iv) follow 0 eq_refl _)).
      intros after s1 w1 Ha. apply Hpin. by exists after.
    + rewrite !(seen_identity iv identity) by done. apply (sim_seen env (pinned side w)). unfold list_peers, print_json, expect_array.
      sim_walk ltac:(first [apply sim_print_peers
        | apply (sim_report env (pinned side w) _ _ _ _ (peers_report env identity He)); [by apply Hpin | intros d; by rewrite opened_then]]).
    + rewrite !(seen_identity iv identity) by done. apply seen_remove_device; [done..|]. intros endpoint. apply Hasks. by exists endpoint.
  - intros name path replace Hasks add. unfold add. cbn [execute]. rewrite !seen_ended. unfold command_collections.
    rewrite !seen_database by done. apply seen_add; [done..|]. intros p Hp. apply Hasks. by exists p.
Qed.

Lemma up_logs env side w :
  (forall after, in_i64 after = true -> carried env side w (Logs after 64)) -> logs_socket (socket := up env) side w.
Proof.
  intros Hc after value Ha Hv. left. rewrite up_exchange by by apply Hc. unfold handle_request.
  destruct (request_result _ _ _) as [[v|e] s'] eqn:E.
  - pose proof (report_stays env _ _ _ _ _ (logs_report env after) E) as ->. rewrite (proj2 (logs_report env after)) in E.
    unfold srbind, sdbd in E. cbn [sv_world] in E. destruct (ddb _ _) as [r db]. simpl in Hv. subst r. injection E as <- _.
    cbn. by destruct side.
  - rewrite (proj2 (logs_report env after)) in E. unfold srbind, sdbd in E. cbn [sv_world] in E.
    destruct (ddb _ _) as [r db]. simpl in Hv. by subst r.
Qed.
Lemma down_logs side w : logs_socket (socket := down) side w.
Proof. intros after value _ _. by right. Qed.

(** C31: [skillsync logs] shows the whole log: however long it is, the command ends
    after a round for every 64 entries and has printed each entry once, oldest
    first, and changed nothing, whether it read the store or asked a daemon whose
    pages fit their frames. *)
Theorem logs_complete `{!EventJsonLaws} env iv side w :
  iv_database_exists iv = true -> iv_opened iv = Ok tt -> db_wf (w_db w) ->
  exists ls, logs (w_db w) = (Ok ls, w_db w) /\
    ((length ls < 64 * iv_rounds iv)%nat ->
     ((forall after, in_i64 after = true -> carried env side w (Logs after 64)) ->
      exists d, execute (socket := up env) iv (CmdLogs false) (@mkDesk _ (up env) side w [] []) = (Ok (Some tt), d) /\
        dk_world d = w /\ dk_printed d = shown_logs iv ls) /\
     (exists d, execute (socket := down) iv (CmdLogs false) (@mkDesk _ down tt w [] []) = (Ok (Some tt), d) /\
        dk_world d = w /\ dk_printed d = shown_logs iv ls)).
Proof.
  intros Hd Ho Hw. destruct (logs_page_exact 0 64 (w_db w) Hw) as (ls & _ & El & _). exists ls. split; [done|]. intros Hlen.
  assert (List.filter (fun l => 0 <? ol_id l) ls = ls) as Hall.
  { pose proof (logs_ids (w_db w) ls Hw ltac:(by rewrite El)) as Hids. clear -Hids.
    induction Hids as [|l ls Hl _ IH]; [done|]. cbn. by replace (0 <? ol_id l) with true by lia; rewrite IH. }
  assert (forall socket s, logs_socket (socket := socket) s w ->
    exists d, execute (socket := socket) iv (CmdLogs false) (@mkDesk _ socket s w [] []) = (Ok (Some tt), d) /\
      dk_world d = w /\ dk_printed d = shown_logs iv ls) as Hrun;
    [|split; [intros Hc; by apply Hrun, up_logs | apply Hrun, down_logs]].
  intros socket s Hs. cbn [execute]. unfold command_logs, require_database, cbind. rewrite Hd. cbn [cret].
  destruct (logs_loop_prints iv (iv_rounds iv) 0 (@mkDesk _ socket s w [] []) ls Hs Ho Hw) as (d & -> & _ & Hdw & Hdp);
    [by cbn [dk_world]; rewrite El | done | by rewrite Hall|]. exists d. rewrite Hall in Hdp. done.
Qed.

(** A page whose text is longer than 512 KiB is not shown: with a daemon the
    command fails there, and without one it goes on. *)
Lemma logs_beyond_limit env iv side w value line too_large_line :
  iv_database_exists iv = true -> (0 < iv_rounds iv)%nat ->
  (ddb (logs_page_value 0 64) (w_db w)).1 = Ok value ->
  (exists asked, request_to_json (Logs 0 64) = Some asked /\ len asked <= REQUEST_LIMIT) ->
  response_to_json (success value) = Some line -> RESPONSE_LIMIT < len line ->
  response_to_json too_large = Some too_large_line -> len too_large_line <= RESPONSE_LIMIT ->
  seen (socket := up env) (execute iv (CmdLogs false)) side w = (false, w, []).
Proof.
  intros Hd Hr Hv (asked & Hasked & Hfits) Hline Hlong Hshort Hok. cbn [execute].
  assert (shaped_response (success value) = true) as Hshaped.
  { unfold ddb in Hv. destruct (logs_page_value 0 64 (w_db w)) as [[v|e] db] eqn:E; [|done]. injection Hv as <-. exact (shaped_logs 0 64 _ _ _ E). }
  unfold seen, command_logs, require_database, cbind at 1. rewrite Hd. cbn [cret].
  destruct (iv_rounds iv) as [|rounds]; [lia|]. cbn [logs_loop]. unfold cbind at 1, logs_round, cbind at 1.
  unfold daemon_or, request_if_running, send_request, cbind. cbn [exchange up dk_side dk_world dk_sent dk_printed].
  destruct (request_frame request_to_json (Logs 0 64)) as [frame|e] eqn:Ef.
  2: { unfold request_frame in Ef. rewrite Hasked in Ef. cbn [ok_or rbind] in Ef.
       by replace (REQUEST_LIMIT <? len asked) with false in Ef by lia. }
  unfold serve. pose proof (request_arrives _ frame [] None Ef) as Hread. rewrite app_nil_r in Hread. rewrite Hread.
  unfold handle_request. rewrite (proj2 (logs_report env 0)). unfold srbind, sdbd. cbn [sv_world].
  pose proof (proj1 (logs_report env 0) (w_db w)) as Hsame. destruct (ddb _ (w_db w)) as [r db]. simpl in Hv, Hsame. subst r db.
  cbn [sret]. unfold written.
  assert (response_frame response_to_json (success value) = Ok (too_large_line ++ ["010"%byte])) as Ew.
  { unfold response_frame. rewrite Hline. cbn [ok_or rbind]. replace (RESPONSE_LIMIT <? len line) with true by lia.
    change (failure (lit "response_too_large") (Text "daemon response exceeds the control limit")) with too_large.
    rewrite Hshort. cbn [ok_or rbind]. by replace (RESPONSE_LIMIT <? len too_large_line) with false by lia. }
  rewrite Ew. destruct (response_arrives _ _ [] None Hshaped Ew) as (line' & Hl & Hgot). rewrite app_nil_r in Hgot. rewrite Hgot.
  rewrite Hline in Hl. injection Hl as <-. replace (len line <=? RESPONSE_LIMIT) with false by lia. cbn. by destruct w.
Qed.

(** C30: A device is let in only by the user.  Whatever the daemon answers, an
    invitation sends an approval only after it has printed the identifier of the
    device, as the daemon gave it with the request that is approved, and the
    user has answered y, Y, yes or YES; and it does not wait for a device beyond
    the lifetime of the invitation. *)
Theorem invite_asks {socket : ControlSocket} iv d r d' :
  command_invite iv d = (r, d') ->
  (forall id, DecideJoin id true ∈ dk_sent d' -> DecideJoin id true ∉ dk_sent d ->
     (exists answer, iv_answer iv = Ok answer /\ trim (chars answer) ∈ [txt "y"; txt "Y"; txt "yes"; txt "YES"]) /\
     exists request endpoint name, daemon_pending request /\
       member "request_id" request = VString id /\ member "endpoint_id" request = VString endpoint /\
       shown_request iv name endpoint ∈ dk_printed d') /\
  ((exists n, (1 <= n <= iv_rounds iv)%nat /\ iv_clock iv 0%nat + invitation_ttl (cfg_joining (iv_config iv)) <= iv_clock iv n) ->
   r <> Ok None).
Proof.
  intros E. unfold command_invite in E. set (deadline := iv_clock iv 0%nat + _) in *.
  assert (forall d1, d1 = (open_invitation iv d).2 -> forall id, DecideJoin id true ∈ dk_sent d1 -> DecideJoin id true ∈ dk_sent d) as Hopen
    by (intros d1 -> id; apply harmless_keeps, open_invitation_sends).
  apply cbind_inv in E as [(u & d1 & E1 & E)|(e & E1 & ->)]; specialize (Hopen _ ltac:(by rewrite E1)).
  2: { split; [|done]. intros id Hin Hout. by destruct (Hout (Hopen id Hin)). }
  assert (forall d2, d2 = (wait_for_pending_join (iv_rounds iv) (iv_clock iv) 1 deadline d1).2 ->
    forall id, DecideJoin id true ∈ dk_sent d2 -> DecideJoin id true ∈ dk_sent d) as Hwait
    by (intros d2 -> id Hin; apply Hopen; eapply harmless_keeps; [apply wait_sends | exact Hin]).
  apply cbind_inv in E as [(found & d2 & E2 & E)|(e & E2 & ->)]; specialize (Hwait _ ltac:(by rewrite E2)).
  2: { split; [|done]. intros id Hin Hout. by destruct (Hout (Hwait id Hin)). }
  destruct found as [pending|].
  - unfold ended in E. apply wait_found in E2.
    assert (exists x, decide_pending iv pending d2 = (x, d') /\ r <> Ok None) as (x & Ed & Hr).
    { apply cbind_inv in E as [(v & d3 & Ed & E)|(e & Ed & ->)]; [injection E as <- <-|]; by eexists. }
    split; [|done]. intros id Hin Hout.
    destruct (decide_asks iv pending d2 x d' id Ed Hin) as ((answer & Ha & Happ) & endpoint & name & ?); [auto|].
    split; [exists answer; split; [done | by apply bool_decide_eq_true_1 in Happ]|]. by exists pending, endpoint, name.
  - injection E as <- <-. split; [intros id Hin Hout; by destruct (Hout (Hwait id Hin))|].
    intros (n & Hn & Hc). exfalso. by apply (wait_ends (iv_rounds iv) (iv_clock iv) 1 deadline d1 n d2); [lia..|].
Qed.
End properties.

(** ** Examples *)

Section examples.
#[local] Existing Instance toy_crypto.
#[local] Existing Instance plain_unicode.
#[local] Existing Instance terse_json.
#[local] Existing Instance toy_platform.
#[local] Existing Instance toy_iroh.
#[local] Existing Instance toy_join.
#[local] Existing Instance toy_ambient.

Definition toy_rendering : Rendering := {|
  display := chars; format_duration _ := lit "10m"; to_string_pretty _ := []; endpoint_ticket a := arr (eid a);
|}.
#[local] Existing Instance toy_rendering.

(** A joining service that gives the same invitation to everybody. *)
Definition toy_nonce : bytes := replicate 32 "007"%byte.
Definition toy_service_codec : ServiceCodec := {|
  Url := bytes; url_parse b := Some b; url_scheme _ := lit "https"; url_has_host _ := true; url_username _ := [];
  url_password _ := None; url_query _ := None; url_fragment _ := None; url_path u := u; url_set_path p _ := p;
  url_join u p := Some (u ++ p); header_name b := Some b; header_value b := Some b;
  base64url_decode b := Some b; rfc3339 _ := true;
  create_request_json _ := Some []; claim_request_json _ := Some [];
  create_response_of_json _ := Some (mkCreateResponse (lit "funny-capybara") toy_nonce (lit "2026-01-01T00:00:00Z"));
  claim_response_of_json _ := None; error_envelope_of_json _ := None;
|}.
#[local] Existing Instance toy_service_codec.
#[local] Existing Instance terse_control.
#[local] Existing Instance terse_control_laws.

Definition at_terminal (answer : bytes) : Invocation :=
  mkInvocation config_default (for_linux_home home_env (lit "/home")) home_env (Ok (lit "/home")) true (Ok tt) (Ok laptop)
    (Err IdRandom) (Ok tt, TryLocked) (Ok answer) (Ok tt) true
    (fun _ => Responded (mkResponse 201 None [] None)) [] (fun n => Z.of_nat n) (fun _ => Err InvalidAddress)
    device_a (Err WrongInviter) (Ok tt) (Ok tt) (mkStream [] Closed) (mkSink [] None)
    (mkFirstSync (Ok tt) (Ok tt) None (Ok tt) id) 3 false.

Definition beside_env : RequestEnv :=
  mkRequestEnv config_default docs_scanner (endpoint_id laptop) (Some laptop) 1 2 true.
Definition beside : Handle * gmap bytes FilenameComparison := (mkHandle [] true JIdle (Some None), {[ lit "/docs" := CaseSensitive ]}).

Lemma beside_carried : carried beside_env beside scan_world (RemoveCollection (lit "docs")).
Proof.
  split; [exists (lit "rdocs"); split; [done | by vm_compute]|].
  intros response action s E. assert (response = success (removed_value (lit "docs") true)) as ->.
  { apply (f_equal (fun x => match x.1 with Ok (response, _) => response | Err _ => too_large end)) in E. cbn [fst] in E.
    rewrite <-E. by vm_compute. }
  exists (lit "ydocs"). split; [done | by vm_compute].
Qed.

Lemma daemon_or_not_witness :
  let run := execute (socket := up beside_env) (at_terminal []) (CmdCollections (RemoveNamed (lit "docs"))) in
  seen run beside scan_world
  = seen (socket := down) (execute (at_terminal []) (CmdCollections (RemoveNamed (lit "docs")))) tt scan_world /\
  (seen run beside scan_world).1.1 = true.
Proof.
  split; [|by vm_compute].
  apply (proj1 (daemon_or_not beside_env (at_terminal []) laptop beside scan_world eq_refl eq_refl eq_refl eq_refl eq_refl eq_refl)
           (CmdCollections (RemoveNamed (lit "docs"))) I).
  intros request ->. exact beside_carried.
Defined.

(** A collection at a path that is not text: the command panics after it has
    attached it, and from then on a daemon panics when it is asked for the
    collections. *)
Definition odd_path : bytes := lit "/caf" ++ ["233"%byte].
Definition odd_added : bool * World * list Printed :=
  seen (socket := down) (execute (at_terminal []) (CmdCollections (Add (lit "odd") odd_path false))) tt scan_world.
Definition asked_collections : list (nat * ControlResponse) * result DaemonState DaemonError :=
  accept (fun _ => true) 10 (mkVisit 1 1 (Ok Collections) beside_env 5)
    (mkDaemonState (mkService beside.1 beside.2 odd_added.1.2) ∅ [] [] 100 true).
Definition panics {A} (r : result A DaemonError) : bool := match r with Err DPanic => true | _ => false end.
Example path_not_text :
  odd_added.1.1 = false /\
  match collections_t (w_db odd_added.1.2) !! lit "odd" with Some _ => true | None => false end = true /\
  asked_collections.1 = [] /\ panics asked_collections.2 = true.
Proof. split; [|split; [|split]]; vm_compute; reflexivity. Qed.

(** A daemon that has a device waiting. *)
Definition asked (request : ControlRequest) : ControlResponse :=
  match request with
  | GetEndpointAddr => success (VObject [(lit "address", VString (arr (eid device_a)))])
  | PendingJoinRequest =>
      success (VObject [(lit "pending", VObject [(lit "request_id", VString (lit "r1")); (lit "endpoint_id", VString (lit "03ce"));
                                                 (lit "device_name", VString (lit "work"))])])
  | _ => success VNull
  end.
Definition asked_socket : ControlSocket := {| Side := unit; exchange request side w := (Ok (asked request), side, w) |}.

Lemma invite_asks_witness :
  let invited := command_invite (socket := asked_socket) (at_terminal (lit " yes" ++ ["010"%byte])) (@mkDesk _ asked_socket tt new_world [] []) in
  let refused := command_invite (socket := asked_socket) (at_terminal (lit "no")) (@mkDesk _ asked_socket tt new_world [] []) in
  (exists name, shown_request (at_terminal (lit "no")) name (lit "03ce") ∈ dk_printed invited.2) /\
  DecideJoin (lit "r1") true ∉ dk_sent refused.2.
Proof.
  intros invited refused. split.
  - assert (DecideJoin (lit "r1") true ∈ dk_sent invited.2) as Hin.
    { assert (last (dk_sent invited.2) = Some (DecideJoin (lit "r1") true)) as Hl by by vm_compute.
      by apply last_Some_elem_of. }
    destruct (invite_asks (socket := asked_socket) _ _ _ _ (surjective_pairing invited)) as [Hasks _].
    destruct (Hasks (lit "r1") Hin (not_elem_of_nil _)) as (_ & request & endpoint & name & (response & result & side & w & side' & w' & [= <- _ _] & _ & [= <-] & ->) & _ & [= <-] & Hp).
    by exists name.
  - intros Hin. destruct (invite_asks (socket := asked_socket) _ _ _ _ (surjective_pairing refused)) as [Hasks _].
    destruct (Hasks (lit "r1") Hin (not_elem_of_nil _)) as ((answer & [= <-] & Hanswer) & _).
    assert (approval_answer (lit "no") = true) as Hyes by by apply bool_decide_eq_true_2.
    by vm_compute in Hyes.
Defined.
End examples.

Section logs_example.
#[local] Existing Instance toy_crypto.
#[local] Existing Instance plain_unicode.
#[local] Existing Instance daemon_json.
#[local] Existing Instance daemon_json_laws.
#[local] Existing Instance toy_platform.
#[local] Existing Instance toy_iroh.
#[local] Existing Instance toy_join.
#[local] Existing Instance toy_ambient.
#[local] Existing Instance toy_rendering.
#[local] Existing Instance toy_service_codec.
#[local] Existing Instance terse_control.
#[local] Existing Instance terse_control_laws.

(** Two pages. *)
Definition long_log : list store_op := replicate 70 (OpAppendLog 5 DaemonStarted 100).
Definition logged_world : World := mkWorld (run_ops long_log empty_database) toy_empty 0.

Lemma logs_complete_witness :
  exists d, execute (socket := down) (at_terminal []) (CmdLogs false) (@mkDesk _ down tt logged_world [] []) = (Ok (Some tt), d) /\
    length (dk_printed d) = 70%nat /\ dk_world d = logged_world.
Proof.
  destruct (logs_complete beside_env (at_terminal []) beside logged_world eq_refl eq_refl) as (ls & El & Hrun).
  - apply preserves_run_ops; [by repeat constructor | apply empty_database_wf].
  - assert (match (logs (w_db logged_world)).1 with Ok ls => length ls | Err _ => 0%nat end = 70%nat) as Hlen by by vm_compute.
    rewrite El in Hlen. cbn [fst] in Hlen. destruct Hrun as [_ (d & E & Hw & Hp)]; [rewrite Hlen; vm_compute; lia|].
    exists d. split; [exact E|]. split; [|exact Hw]. rewrite Hp. unfold shown_logs. by rewrite length_map.
Defined.
End logs_example.
